(* ===== verification/_CoqProject ===== *)
-Q . S2P
Prelude.v
Bytes.v
Float64.v
Serialize.v
Instr.v
ModuleTable.v
NativesTable.v
Codec.v
CodecProofs.v
Value.v
Utf8.v
Heap.v
MapObj.v
HeapProofs.v
Equality.v
MapProofs.v
Builder.v
Trap.v
Scheduler.v
SchedulerProofs.v
SchedulerSpec.v
Render.v
Interp.v
InterpProofs.v
Driver.v
DriverProofs.v
NativesBase.v
NativesText.v
NativesColl.v
NativesFiber.v
System.v
NativesFs.v
NativesEnv.v
NativesLib.v
NativesProcess.v
Tls.v
NativesSocket.v
NativesAll.v
Main.v
Pool.v
Demo.v
NativesFacts.v
NativesTextProofs.v
NativesMapProofs.v
NativesSafe.v
MapSafe.v
NativesWorld.v
NativesListProofs.v
FileProofs.v
ProcessProofs.v
SocketProofs.v
TlsProofs.v
SystemSafe.v
SocketSafe.v
PoolProofs.v
Program.v
Guarded.v
MainProofs.v
MainRuns.v
LostArgs.v
Disasm.v
DisasmProofs.v
Profile.v
ProfileProofs.v
NativeStats.v
Testing.v
SerializeTests.v
CodecTests.v
HeapTests.v
MapTests.v
BuilderTests.v
DisasmTests.v
InterpTests.v
NativesTests.v
TlsTests.v
DeepCalls.v
Departures.v
