(* ===== verification/Prelude.v ===== *)
(** * A verification of the Thera runtime

    Thera's runtime (src/runtime, in Rust) loads a bytecode module and executes it:
    a stack interpreter over a garbage-collected object heap, with cooperative
    fibers and channels, a worker pool for blocking calls and a readiness poller for
    sockets.  This development translates that program into functions of Rocq, file by
    file, from the command line down, and proves what makes it correct.

    ** The parts and how they interact

    A [.thera-bc] file is a sequence of sections; [serialize.rs] reads and writes
    bytes, varints and strings, [codec.rs] whole modules over [instr.rs] and
    [module.rs]; tests assemble functions with [builder.rs].  [interp/mod.rs] runs a
    module: [Vm::run] drives fibers, [run_loop] executes the instructions of one
    fiber until it returns or a native parks it, and the scheduler holds the other
    fibers.  Values ([value.rs]) are handles into the heap ([heap.rs]), which the
    loop's safepoints collect from the value stacks, the scheduler, the globals and
    the interned constants.  Maps ([map.rs]) live on the heap and compare and hash
    their keys through it.

    A native that must block hands a job to the worker pool and parks its fiber; the
    driver, when no fiber can run, waits for completions, timers or sockets.  A job and
    the builder that turns its result into a value meet through a boxed payload.
    Sockets never block: a native that would parks its fiber on the poller and runs
    again.  [interp/tls.rs] pumps a TLS session over such a socket.  [main.rs] decodes a
    file or the front-end, runs its entry and maps the result to an exit code;
    [disasm.rs] prints modules and [profile.rs] counts what the interpreter does.

    ** Files

    - [Prelude]: outcomes of Rust code ([res]: [Ok], [Err], [Panic], [NoFuel]), the
      predicate [safe], machine integers, vectors as lists.
    - [Bytes]: little-endian bytes, UTF-8 and strings as byte strings.
    - [Float64]: [f64] as IEEE bit patterns, over the Standard Library's floats.
    - [Serialize]: [serialize.rs], [Writer] and [Reader].
    - [Instr], [ModuleTable], [NativesTable]: [instr.rs], [module.rs] and the table
      of native names in [interp/natives.rs].
    - [Codec], [CodecProofs]: [codec.rs], [encode_module] and [decode_module].
    - [Value], [Heap], [HeapProofs], [Equality]: [value.rs] and [heap.rs]: objects,
      allocation, globals, interning, collection; structural equality.
    - [MapObj], [MapProofs]: [map.rs].
    - [Builder]: [builder.rs], with a two-pass reference assembler.
    - [Trap]: the trap type, its messages and the runtime type names.
    - [Scheduler], [SchedulerProofs], [SchedulerSpec]: the fiber scheduler of
      [interp/mod.rs], its invariant, and its step relation with what follows in
      every reachable state.
    - [Render]: renderings and the built-in ordering of primitives.
    - [Interp], [InterpProofs]: [run_loop] one instruction at a time, calls, the
      structural [debug]/[eq]/[compare] fallback.
    - [Driver], [DriverProofs]: [Vm::run], the idle loop, [init_module].
    - [Utf8]: what the natives use of Rust's [char] and [str].
    - [NativesBase], [NativesText], [NativesColl], [NativesFiber]: the native functions
      of [interp/natives.rs], on strings; on buffers, lists, maps and numbers; on the
      console, fibers, channels and time.  A native of the heap is a function of
      [Heap.Mem], the others are functions of [Interp.World].
    - [System]: the process's statics, jobs and boxed payloads, [park_syscall].
    - [NativesFs], [NativesEnv], [NativesLib], [NativesProcess], [NativesSocket]: the
      natives on files and directories; on the environment, the terminal and the
      monotonic clock; over library functions, digests and regular expressions; on child
      processes; on sockets and TLS sessions.  [Tls]: [interp/tls.rs].
    - [NativesAll]: the native table, all 176 natives in index order.
    - [Pool]: the worker pool and the poller, and the driver's machine made of them.
    - [Main]: [main.rs] and the file helpers of [codec.rs].  [Disasm]: [disasm.rs].
      [Profile]: [profile.rs].  [NativeStats]: the native call counter of
      [interp/mod.rs] and what it counts.
    - [Demo]: a small system that instantiates every interface, for the witnesses.
    - [NativesFacts]: lemmas about objects that are there and runs of allocations.
    - [NativesTextProofs], [NativesMapProofs], [NativesListProofs]: what the natives
      compute.  [FileProofs], [ProcessProofs], [SocketProofs], [TlsProofs]: how file
      handles, pipes, sockets and the TLS pump behave.
    - [MapSafe]: map operations stay in bounds, whatever the keys compare to.
    - [NativesSafe], [NativesWorld], [SystemSafe], [SocketSafe]: natives keep the
      interpreter's invariant, whatever the outside answers.
    - [PoolProofs]: jobs are delivered once, whatever the schedule of the workers, and
      every fiber that waits is answered if the workers go on.
    - [Program]: the driver on [Pool] with the real native table.
    - [Guarded]: every program on the whole machine, with a guard on what the natives
      cannot answer.
    - [MainProofs], [MainRuns], [LostArgs]: the command line ends with an exit code; the
      demo runs; the program arguments a collection can take away.
    - [DisasmProofs], [ProfileProofs]: disassembly is faithful, a profile is exact.
    - [Testing]: what the unit tests of the source need to run on the model.
      [SerializeTests], [CodecTests], [HeapTests], [MapTests], [BuilderTests],
      [DisasmTests], [InterpTests], [NativesTests], [TlsTests]: the tests of each file,
      translated under their own names.
    - [DeepCalls]: the two tests of deep recursion, for every depth.
    - [Departures]: runs that the comments of the source rule out.

    State corresponds to the code's thread-locals and fields by name: [Heap.Mem] is
    the thread-locals of [heap.rs], [Scheduler.Scheduler] is [SCHEDULER],
    [Interp.World] collects them with [PARK] and the output, [Interp.Loop] is the
    hoisted locals of [run_loop], [Interp.Vm] is [self].  [System.Statics] is what all
    threads share (the registries of files, children and patterns, the counters, the
    arguments), [NativesSocket.Locals] the sockets and the poller of the Thera thread,
    [Pool.Pool] the queues and workers, [Profile.Counters] the profiler's cells.

    ** What the theorems show

    - Wire format: varints and strings round-trip; encoding then decoding a
      well-formed module gives it back; the decoder gives a verdict on every byte
      string and what it accepts is well formed; each header error is exact.
    - Heap: a collection keeps exactly the reachable objects, with exact
      accounting; an allocation takes an unused handle; interning is stable.
    - Equality and maps: equality decides a reference relation on finite structures, is
      symmetric and transitive; equal keys hash equally; every map operation refines an
      association list, in the linear and in the hashed representation.
    - Scheduler: an invariant of all reachable states, from which no fiber is lost,
      nothing stale wakes a fiber, the deadlock verdict is exact and no operation
      panics; fibers run in the order they became ready; channels are bounded FIFO
      queues.
    - Interpreter and driver: running any function of a module never panics, reads
      no dangling handle, and leaves a well-formed heap, whatever the schedule and
      wherever collections fall.
    - Programs: the same for every program on the whole machine (a module with an index
      that agrees with its dispatch table and a receiver for every [call.virtual]), with
      the real native table and every schedule of the workers, when a guard traps the
      calls a native cannot answer ([Guarded.misuse]: a mutation of a map that a compared key reaches, a
      channel that is not there, an impossible variable, sockets without a poller and the
      like).  The run without the guard is the same unless the guard stops it, and a
      program that calls none of the natives of [Program.may_panic] needs none.
    - Natives: strings slice by code points and split and join; integers print and
      parse; lists behave as sequences; maps behave as association lists through the
      heap, for keys that cannot reach the map (for others a mutation can panic).
    - Blocking calls: every job is delivered once; when workers go on, every fiber that
      waits for one is answered; a file handle is used by one job at a time, and a
      handle given out is not in use; a temporary file is fresh; a socket native
      that must wait runs again unchanged; a close wakes every waiter; TLS takes each
      byte of plaintext once, a finished handshake has nothing left to send, and a
      finished close has sent the notification.
      Overlapping operations on a child's pipes lose data or undo a close.
    - Command line: on Unicode arguments and acceptable modules the process exits with a
      code, dies of a trap with code 1, or runs on; the guard of the natives only stops
      it; the demo it writes runs; the arguments are lost when the init thunk collects.
    - Reports: equal disassemblies come from equal functions; the counters of a profile
      are the reference counts of what happened, and its table is sorted.
    - Builder and dispatch table: each agrees with its reference.
    - Unit tests: every test of src/runtime/src passes on the model (one, of the identity
      of a pointer, has no translation), which checks the definitions against the
      behaviour the authors wrote down.  A recursion below the depth limit returns, and a
      runaway one traps, at every depth.

    Lemmas that are no property of the manifest state more of the same kind: varints
    round-trip, reads of maps refine look-ups, captures collect what is printed, type ids
    never collide in the dispatch index.

    ** Fuel and bounds

    [NoFuel] stands for running out of what the model bounds and the machine bounds
    too.  Loops whose length the data bounds carry that bound as fuel and are proved
    never to exhaust it (varints, sections and element counts of the codec, the
    collector's worklist, probe sequences, the builder's fixups).  [run_loop],
    [debug_value], [values_eq], the TLS pump and the driver take fuel as a parameter, because a
    program may not terminate and a cyclic value makes Rust overflow its stack;
    theorems about them hold for every fuel, and [values_eq] is proved to answer
    given enough of it on finite structures.  A heap of more than [2^32] slots is
    also [NoFuel], and so are [env.exit], after which nothing runs, and a blocking
    receive that no worker ends.  [usize] is 64 bits
    and arithmetic wraps, as in a release build.  [MainRuns] and the witnesses fix the
    sizes of a 64-bit target.

    ** Assumptions

    Code outside src/ is a parameter.  [Layout] and [Sizes] are sizes the compiler
    chooses; [f64_to_string], [str_debug], [value_debug], [obj_debug], [fmt_mib] and
    [fixed_1] print what Rust's library prints.  [SystemTypes] are the opaque types of
    the operating system; [FileSystem], [Environment], [Processes], [Network] and [Host]
    its calls, [Console] the streams, the clocks and the entropy counter; [MathLib],
    [Digests] and [RegexLib] library functions; [NetTypes] and [Rustls] the TLS crate;
    [Launch] the paths around the executable and the embedded front-end.  Every answer
    of theirs is allowed, except that [rustls_laws] states what the pump relies on of the
    TLS crate, and [main_exits] asks for streams that can be written.  [Machine] is what
    the driver needs of the outside; [Pool.runtime] implements it, and [PoolProofs]
    shows that it keeps the promise [machine_ok].  The witnesses instantiate each
    parameter with concrete functions.

    The invariant of the heap includes the shape of the maps on it (a hash for each entry,
    every slot of the table within the entries), so that no operation leaves their
    vectors.  It does not say that the stored hashes are those of the keys: the refinement
    theorems about maps have that as the maps' own invariant.  Nor does it say that strings
    are UTF-8, which Rust's types do: the guard checks it for [str_slice].

    A schedule decides which worker takes and finishes which job between two calls of
    the Thera thread; its turn for a receive is all that workers do while the thread
    waits, so a schedule may leave a job unfinished for ever.  Liveness is stated for
    [PoolProofs.fair] schedules.  A job's effects happen in one step, so effects of two
    jobs do not interleave, and a job that panics is not modelled; nor is the abort of a
    failed allocation.  The world after a trap is not
    kept, nor is the exit code of [env.exit].

    ** Not modelled

    The hooks inside [Interp.step] and [Driver.run] that feed the profiler and the native
    call counter, which do nothing unless [THERA_PROFILE] is set or the feature
    [native-stats] is on; the build script; the integration test of src/runtime/tests,
    which is one of the TLS crate.  The unit tests run on the system of [Demo], with a
    double for the regular expressions and a toy TLS library, whose long payload is cut;
    after a trap a test goes on from the world before the run.  The front-end and the
    standard library are written in Thera, not in Rust. *)

From Stdlib Require Import ZArith Lia.
From stdpp Require Import base numbers list strings gmap.

(** ** Outcomes of Rust code

    [res E A] is what a Rust function returning [Result<A, E>] can do: return
    [Ok], return [Err], panic, or not finish within the resources it is given
    ([NoFuel]: the fuel of a loop, or the machine's memory, where Rust aborts the
    process).  Functions that cannot fail in Rust but can panic use the same
    type. *)

Inductive res (E A : Type) : Type :=
  | Ok (a : A)
  | Err (e : E)
  | Panic
  | NoFuel.
Arguments Ok {E A} a.
Arguments Err {E A} e.
Arguments Panic {E A}.
Arguments NoFuel {E A}.

#[export] Instance res_ret E : MRet (res E) := λ A, Ok.
#[export] Instance res_bind E : MBind (res E) := λ A B f m,
  match m with
  | Ok a => f a
  | Err e => Err e
  | Panic => Panic
  | NoFuel => NoFuel
  end.

#[export] Instance res_fmap E : FMap (res E) := λ A B f m, m ≫= λ a, Ok (f a).

(** [opt.ok_or(e)] *)
Definition ok_or {E A} (o : option A) (e : E) : res E A :=
  match o with Some a => Ok a | None => Err e end.

(** [opt.expect(..)], [vec[i]]: a [None] panics. *)
Definition or_panic {E A} (o : option A) : res E A :=
  match o with Some a => Ok a | None => Panic end.

Definition is_ok {E A} (r : res E A) : bool :=
  match r with Ok _ => true | _ => false end.

(** ** Machine integers

    An integer of width [w] is a [Z] in its range; every operation that wraps
    says so. [usize] is 64 bits wide. *)

Abbreviation u8 := Z (only parsing).
Abbreviation u16 := Z (only parsing).
Abbreviation u32 := Z (only parsing).
Abbreviation u64 := Z (only parsing).
Abbreviation i64 := Z (only parsing).
Abbreviation usize := Z (only parsing).

Definition as_unsigned (w z : Z) : Z := (z mod 2 ^ w)%Z.
Definition as_signed (w z : Z) : Z := ((z + 2 ^ (w - 1)) mod 2 ^ w - 2 ^ (w - 1))%Z.

Abbreviation as_u8 := (as_unsigned 8).
Abbreviation as_u16 := (as_unsigned 16).
Abbreviation as_u32 := (as_unsigned 32).
Abbreviation as_u64 := (as_unsigned 64).
Abbreviation as_i64 := (as_signed 64).

Definition in_unsigned (w z : Z) : Prop := (0 ≤ z < 2 ^ w)%Z.
Definition in_signed (w z : Z) : Prop := (- 2 ^ (w - 1) ≤ z < 2 ^ (w - 1))%Z.

#[export] Instance in_unsigned_dec w z : Decision (in_unsigned w z).
Proof. unfold in_unsigned. apply _. Defined.
#[export] Instance in_signed_dec w z : Decision (in_signed w z).
Proof. unfold in_signed. apply _. Defined.

Abbreviation in_u8 := (in_unsigned 8).
Abbreviation in_u16 := (in_unsigned 16).
Abbreviation in_u32 := (in_unsigned 32).
Abbreviation in_u64 := (in_unsigned 64).
Abbreviation in_i64 := (in_signed 64).

(** [isize::MAX], the largest number of bytes a Rust allocation may have. *)
Definition isize_max : Z := (2 ^ 63 - 1)%Z.

(** [i64::wrapping_*] and the bit operations on [i64]. *)
Definition wrapping_add (a b : i64) : i64 := as_signed 64 (a + b).
Definition wrapping_sub (a b : i64) : i64 := as_signed 64 (a - b).
Definition wrapping_mul (a b : i64) : i64 := as_signed 64 (a * b).
Definition wrapping_div (a b : i64) : i64 := as_signed 64 (Z.quot a b).
Definition wrapping_rem (a b : i64) : i64 := as_signed 64 (Z.rem a b).
Definition wrapping_neg (a : i64) : i64 := as_signed 64 (- a).
Definition wrapping_shl (a : i64) (n : u32) : i64 := as_signed 64 (Z.shiftl a n).
Definition wrapping_shr (a : i64) (n : u32) : i64 := Z.shiftr a n.

(** ** Vectors

    A Rust [Vec] is a list in the same order: [push] adds at the end. *)

Definition push {A} (l : list A) (x : A) : list A := l ++ [x].

Fixpoint vec_pop {A} (l : list A) : option (list A * A) :=
  match l with
  | [] => None
  | x :: l' =>
      match vec_pop l' with
      | None => Some ([], x)
      | Some (r, y) => Some (x :: r, y)
      end
  end.

(** [v.resize(n, x)]: truncate or pad. *)
Definition resize {A} (l : list A) (n : nat) (x : A) : list A :=
  take n l ++ replicate (n - length l) x.

(** ** Shared lemmas *)

Lemma bind_ok {E A B} (m : res E A) (f : A → res E B) b :
  (m ≫= f) = Ok b ↔ ∃ a, m = Ok a ∧ f a = Ok b.
Proof. destruct m; cbn; naive_solver. Qed.

Lemma bind_noFuel {E A B} (m : res E A) (f : A → res E B) :
  (m ≫= f) = NoFuel → m = NoFuel ∨ ∃ a, m = Ok a ∧ f a = NoFuel.
Proof. destruct m; cbn; naive_solver. Qed.

Lemma bind_panic {E A B} (m : res E A) (f : A → res E B) :
  (m ≫= f) = Panic → m = Panic ∨ ∃ a, m = Ok a ∧ f a = Panic.
Proof. destruct m; cbn; naive_solver. Qed.

(** *** Safe outcomes

    [safe P r]: [r] does not panic, and if it returns, the result satisfies [P].
    An error or an exhausted resource is safe. *)
Definition safe {E A} (P : A → Prop) (r : res E A) : Prop :=
  match r with Ok a => P a | Panic => False | _ => True end.

Lemma safe_bind {E A B} (P : A → Prop) (Q : B → Prop) (m : res E A) (k : A → res E B) :
  safe P m → (∀ a, P a → safe Q (k a)) → safe Q (m ≫= k).
Proof. destruct m; cbn; auto. Qed.

Lemma safe_mono {E A} (P Q : A → Prop) (m : res E A) :
  safe P m → (∀ a, P a → Q a) → safe Q m.
Proof. destruct m; cbn; auto. Qed.

Lemma ok_or_ok {E A} (o : option A) (e : E) a : ok_or o e = Ok a ↔ o = Some a.
Proof. destruct o; cbn; naive_solver. Qed.

Lemma or_panic_ok {E A} (o : option A) a : or_panic (E:=E) o = Ok a ↔ o = Some a.
Proof. destruct o; cbn; naive_solver. Qed.

Lemma vec_pop_snoc {A} (l : list A) x : vec_pop (l ++ [x]) = Some (l, x).
Proof. induction l as [|y l IH]; cbn; [done|]. by rewrite IH. Qed.

Lemma vec_pop_None {A} (l : list A) : vec_pop l = None ↔ l = [].
Proof.
  destruct l as [|x l]; cbn; [done|]. destruct (vec_pop l) as [[]|]; naive_solver.
Qed.

Lemma vec_pop_Some {A} (l r : list A) x : vec_pop l = Some (r, x) ↔ l = r ++ [x].
Proof.
  split; [|intros ->; apply vec_pop_snoc].
  revert r; induction l as [|y l IH]; intros r; cbn; [done|].
  destruct (vec_pop l) as [[r' z]|] eqn:E; intros [= <- <-].
  - by rewrite (IH r').
  - apply vec_pop_None in E. by subst.
Qed.

Lemma length_resize {A} (l : list A) n x : length (resize l n x) = n.
Proof. unfold resize. rewrite length_app, length_take, length_replicate. lia. Qed.

Lemma filter_iff_on {A} (P Q : A → Prop) `{!∀ x, Decision (P x), !∀ x, Decision (Q x)} (l : list A) :
  (∀ x, x ∈ l → P x ↔ Q x) → filter P l = filter Q l.
Proof.
  induction l as [|x l IH]; intros Hpq; [done|]. rewrite !filter_cons, IH by set_solver.
  destruct (Hpq x); [set_solver|]. repeat case_decide; naive_solver.
Qed.

(** *** Machine-integer lemmas *)

Lemma as_unsigned_range w z : (0 ≤ w)%Z → in_unsigned w (as_unsigned w z).
Proof. intros. apply Z.mod_pos_bound. lia. Qed.

Lemma as_unsigned_id w z : in_unsigned w z → as_unsigned w z = z.
Proof. apply Z.mod_small. Qed.

Lemma as_signed_range w z : (0 < w)%Z → in_signed w (as_signed w z).
Proof.
  intros Hw. unfold in_signed, as_signed.
  pose proof (Z.mod_pos_bound (z + 2 ^ (w - 1)) (2 ^ w) ltac:(lia)).
  replace (2 ^ w)%Z with (2 * 2 ^ (w - 1))%Z in *; [lia|].
  rewrite <-Z.pow_succ_r by lia. f_equal. lia.
Qed.

Lemma as_signed_id w z : (0 < w)%Z → in_signed w z → as_signed w z = z.
Proof.
  intros Hw [? ?]. unfold as_signed. rewrite Z.mod_small; [lia|].
  replace (2 ^ w)%Z with (2 * 2 ^ (w - 1))%Z; [lia|].
  rewrite <-Z.pow_succ_r by lia. f_equal. lia.
Qed.

Lemma as_signed_mod w z : (0 < w)%Z → (as_signed w z mod 2 ^ w = z mod 2 ^ w)%Z.
Proof.
  intros Hw. unfold as_signed. rewrite Zminus_mod_idemp_l. f_equal. lia.
Qed.

Lemma testbit_high w z i : in_unsigned w z → (w ≤ i)%Z → (0 ≤ w)%Z → Z.testbit z i = false.
Proof.
  intros Hz Hi Hw. rewrite <-(as_unsigned_id w z Hz). unfold as_unsigned.
  apply Z.mod_pow2_bits_high. lia.
Qed.

(** A [w]-bit pattern with the bits [f] is a [w]-bit number. *)
Lemma in_unsigned_bits w z :
  (0 ≤ w)%Z → (0 ≤ z)%Z → (∀ i, (w ≤ i)%Z → Z.testbit z i = false) → in_unsigned w z.
Proof.
  intros Hw Hz Hi. assert (z mod 2 ^ w = z)%Z as <-.
  { apply Z.bits_inj'; intros n Hn. destruct (Z.lt_ge_cases n w).
    - by rewrite Z.mod_pow2_bits_low.
    - rewrite Z.mod_pow2_bits_high by lia. by rewrite Hi. }
  apply as_unsigned_range. lia.
Qed.

(** ** Automation *)

Create HintDb thera discriminated.
#[export] Hint Constants Opaque : thera.

(** Invert successful binds, option lifts and pairs in the hypotheses. *)
Ltac res_inv :=
  repeat match goal with
  | H : (_ ≫= _) = Ok _ |- _ => apply bind_ok in H; destruct H as (? & ? & H)
  | H : ok_or _ _ = Ok _ |- _ => apply ok_or_ok in H
  | H : or_panic _ = Ok _ |- _ => apply or_panic_ok in H
  | H : Ok _ = Ok _ |- _ => injection H as H; subst
  | H : Some _ = Some _ |- _ => injection H as H; subst
  | H : (_, _) = (_, _) |- _ => injection H as H; subst
  | H : Err _ = Ok _ |- _ => discriminate H
  | H : Panic = Ok _ |- _ => discriminate H
  | H : NoFuel = Ok _ |- _ => discriminate H
  | p : (_ * _)%type |- _ => destruct p
  | H : vec_pop _ = Some (_, _) |- _ => apply vec_pop_Some in H; subst
  end.

Create Rewrite HintDb testbits.
#[export] Hint Rewrite Z.land_spec Z.lor_spec Z.lxor_spec : testbits.
#[export] Hint Rewrite Z.shiftl_spec Z.shiftr_spec Z.lnot_spec using lia : testbits.
#[export] Hint Rewrite Z.testbit_0_l : testbits.

(** Prove an equation of integers bit by bit. *)
Ltac bitwise i Hi :=
  apply Z.bits_inj'; intros i Hi; autorewrite with testbits.

(** Decide the integer comparisons of a boolean goal one by one. *)
Ltac case_cmp :=
  repeat match goal with
  | |- context [Z.ltb ?a ?b] => destruct (Z.ltb_spec a b)
  | |- context [Z.leb ?a ?b] => destruct (Z.leb_spec a b)
  | |- context [Z.eqb ?a ?b] => destruct (Z.eqb_spec a b)
  end; try lia; try reflexivity.
