(* ===== verification/Bytes.v ===== *)
(** * Byte sequences, strings and UTF-8

    Rust strings are valid UTF-8 byte sequences.  A Rust [String] is modelled by
    a Rocq [string], one [ascii] per byte, and a [Vec<u8>] or [&[u8]] by a list
    of 8-bit [Z].  The file holds the conversions, [str::from_utf8]'s validity
    check, and fixed-width little-endian fields. *)

From Stdlib Require Import ZArith Lia Ascii String.
From stdpp Require Import base numbers list strings.
From S2P Require Import Prelude.

Open Scope Z_scope.

(** ** Strings as bytes *)

Definition byte_of_ascii (c : ascii) : u8 := Z.of_N (N_of_ascii c).
Definition ascii_of_byte (b : u8) : ascii := ascii_of_N (Z.to_N b).

(** [s.as_bytes()] *)
Fixpoint as_bytes (s : string) : list u8 :=
  match s with
  | EmptyString => []
  | String c s' => byte_of_ascii c :: as_bytes s'
  end.

(** The string whose bytes are [l] (meaningful when [l] is valid UTF-8). *)
Fixpoint of_bytes (l : list u8) : string :=
  match l with
  | [] => EmptyString
  | b :: l' => String (ascii_of_byte b) (of_bytes l')
  end.

(** ** UTF-8 validity, [str::from_utf8] *)

Definition between (lo b hi : Z) : bool := (lo <=? b) && (b <=? hi).
Definition is_cont (b : u8) : bool := between 128 b 191.

Fixpoint utf8_valid (l : list u8) : bool :=
  match l with
  | [] => true
  | b0 :: l0 =>
    if between 0 b0 127 then utf8_valid l0 else
    match l0 with
    | [] => false
    | b1 :: l1 =>
      if between 194 b0 223 then is_cont b1 && utf8_valid l1 else
      match l1 with
      | [] => false
      | b2 :: l2 =>
        if b0 =? 224 then between 160 b1 191 && is_cont b2 && utf8_valid l2 else
        if between 225 b0 236 || between 238 b0 239
        then is_cont b1 && is_cont b2 && utf8_valid l2 else
        if b0 =? 237 then between 128 b1 159 && is_cont b2 && utf8_valid l2 else
        match l2 with
        | [] => false
        | b3 :: l3 =>
          if b0 =? 240 then between 144 b1 191 && is_cont b2 && is_cont b3 && utf8_valid l3 else
          if between 241 b0 243
          then is_cont b1 && is_cont b2 && is_cont b3 && utf8_valid l3 else
          if b0 =? 244 then between 128 b1 143 && is_cont b2 && is_cont b3 && utf8_valid l3 else
          false
        end
      end
    end
  end.

(** The invariant every Rust [String] has. *)
Definition is_utf8 (s : string) : Prop := utf8_valid (as_bytes s) = true.

#[export] Instance is_utf8_dec s : Decision (is_utf8 s).
Proof. unfold is_utf8. apply _. Defined.

(** ** Little-endian fields, [to_le_bytes] and [from_le_bytes] *)

Fixpoint to_le_bytes (n : nat) (v : Z) : list u8 :=
  match n with
  | O => []
  | S n' => Z.land v 255 :: to_le_bytes n' (Z.shiftr v 8)
  end.

Fixpoint from_le_bytes (l : list u8) : Z :=
  match l with
  | [] => 0
  | b :: l' => Z.lor b (Z.shiftl (from_le_bytes l') 8)
  end.

(** ** Lemmas *)

Lemma byte_of_ascii_range c : in_u8 (byte_of_ascii c).
Proof. unfold in_unsigned, byte_of_ascii. pose proof (N_ascii_bounded c). lia. Qed.

Lemma ascii_of_byte_of_ascii c : ascii_of_byte (byte_of_ascii c) = c.
Proof. unfold ascii_of_byte, byte_of_ascii. rewrite N2Z.id. apply ascii_N_embedding. Qed.

Lemma byte_of_ascii_of_byte b : in_u8 b → byte_of_ascii (ascii_of_byte b) = b.
Proof.
  unfold in_unsigned, ascii_of_byte, byte_of_ascii. intros.
  rewrite N_ascii_embedding by lia. lia.
Qed.

Lemma of_bytes_as_bytes s : of_bytes (as_bytes s) = s.
Proof. induction s; cbn; [done|]. by rewrite ascii_of_byte_of_ascii, IHs. Qed.

Lemma as_bytes_of_bytes l : Forall in_u8 l → as_bytes (of_bytes l) = l.
Proof. induction 1; cbn; [done|]. by rewrite byte_of_ascii_of_byte, IHForall. Qed.

Lemma as_bytes_range s : Forall in_u8 (as_bytes s).
Proof. induction s; cbn; constructor; auto using byte_of_ascii_range. Qed.

#[export] Instance as_bytes_inj : Inj (=) (=) as_bytes.
Proof. intros s t H. by rewrite <-(of_bytes_as_bytes s), H, of_bytes_as_bytes. Qed.

Lemma length_to_le_bytes n v : length (to_le_bytes n v) = n.
Proof. revert v; induction n; intros; cbn; auto. Qed.

Lemma land_255_range v : in_u8 (Z.land v 255).
Proof.
  change 255 with (Z.ones 8). rewrite Z.land_ones by lia. apply as_unsigned_range. lia.
Qed.

Lemma to_le_bytes_range n v : Forall in_u8 (to_le_bytes n v).
Proof. revert v; induction n; intros; cbn; constructor; auto using land_255_range. Qed.

Lemma from_to_le_bytes n v :
  from_le_bytes (to_le_bytes n v) = v mod 2 ^ (8 * Z.of_nat n).
Proof.
  revert v; induction n as [|n IH]; intros v; cbn [to_le_bytes from_le_bytes].
  { rewrite Z.mod_1_r. done. }
  rewrite IH, <-!Z.land_ones by lia. change 255 with (Z.ones 8).
  bitwise i Hi. rewrite !Z.testbit_ones by lia. destruct (decide (i < 8)).
  - rewrite (Z.testbit_neg_r _ (i - 8)) by lia.
    rewrite andb_false_l, orb_false_r. destruct (Z.testbit v i); [case_cmp|done].
  - rewrite Z.shiftr_spec by lia. replace (i - 8 + 8) with i by lia.
    destruct (Z.testbit v i); [case_cmp|done].
Qed.

Lemma from_le_bytes_range l :
  Forall in_u8 l → in_unsigned (8 * Z.of_nat (length l)) (from_le_bytes l).
Proof.
  induction 1 as [|b l Hb _ IH]; cbn [from_le_bytes length]; [done|].
  apply in_unsigned_bits; [lia| |].
  - apply Z.lor_nonneg. split; [by destruct Hb|]. apply Z.shiftl_nonneg. by destruct IH.
  - intros i Hi. rewrite Z.lor_spec, Z.shiftl_spec by lia.
    rewrite (testbit_high 8 b), (testbit_high _ (from_le_bytes l) _ IH) by (done || lia).
    done.
Qed.
