(* ===== verification/Float64.v ===== *)
(** * IEEE 754 binary64, the Rust [f64]

    A double is its 64-bit pattern, so the wire format, [to_bits] and the sign
    of zero are exact.  Arithmetic and comparison go through the Standard
    Library's [SpecFloat] at precision 53, maximal exponent 1024.  An operation
    whose result is NaN returns the canonical quiet NaN: Rust leaves the sign
    and payload of such a NaN unspecified, and no statement here depends on
    them. *)

From Stdlib Require Import ZArith Lia SpecFloat.
From stdpp Require Import base numbers list.
From S2P Require Import Prelude.

Open Scope Z_scope.

Abbreviation f64 := Z (only parsing).

(** ** Bit patterns and their values *)

Definition f64_exp (x : f64) : Z := (x / 2 ^ 52) mod 2 ^ 11.
Definition f64_mant (x : f64) : Z := x mod 2 ^ 52.
Definition f64_sign (x : f64) : bool := 2 ^ 63 <=? x.

Definition f64_to_spec (x : f64) : spec_float :=
  if f64_exp x =? 0 then
    match f64_mant x with
    | Zpos m => S754_finite (f64_sign x) m (-1074)
    | _ => S754_zero (f64_sign x)
    end
  else if f64_exp x =? 2047 then
    if f64_mant x =? 0 then S754_infinity (f64_sign x) else S754_nan
  else
    match f64_mant x + 2 ^ 52 with
    | Zpos m => S754_finite (f64_sign x) m (f64_exp x - 1075)
    | _ => S754_nan
    end.

Definition sign_bit (s : bool) : Z := if s then 2 ^ 63 else 0.

Definition f64_nan : f64 := 9221120237041090560. (* 0x7ff8000000000000 *)

Definition f64_of_spec (f : spec_float) : f64 :=
  match f with
  | S754_zero s => sign_bit s
  | S754_infinity s => sign_bit s + 2047 * 2 ^ 52
  | S754_nan => f64_nan
  | S754_finite s m e =>
      if 2 ^ 52 <=? Zpos m
      then sign_bit s + (e + 1075) * 2 ^ 52 + (Zpos m - 2 ^ 52)
      else sign_bit s + Zpos m
  end.

(** ** Operations *)

Definition f64_add (x y : f64) : f64 :=
  f64_of_spec (SFadd 53 1024 (f64_to_spec x) (f64_to_spec y)).
Definition f64_sub (x y : f64) : f64 :=
  f64_of_spec (SFsub 53 1024 (f64_to_spec x) (f64_to_spec y)).
Definition f64_mul (x y : f64) : f64 :=
  f64_of_spec (SFmul 53 1024 (f64_to_spec x) (f64_to_spec y)).
Definition f64_div (x y : f64) : f64 :=
  f64_of_spec (SFdiv 53 1024 (f64_to_spec x) (f64_to_spec y)).

(** Negation flips the sign bit, also of a NaN. *)
Definition f64_neg (x : f64) : f64 := Z.lxor x (2 ^ 63).

Definition f64_eq (x y : f64) : bool := SFeqb (f64_to_spec x) (f64_to_spec y).
Definition f64_lt (x y : f64) : bool := SFltb (f64_to_spec x) (f64_to_spec y).
Definition f64_le (x y : f64) : bool := SFleb (f64_to_spec x) (f64_to_spec y).

Definition f64_is_nan (x : f64) : bool :=
  match f64_to_spec x with S754_nan => true | _ => false end.
Definition f64_is_finite (x : f64) : bool :=
  match f64_to_spec x with S754_zero _ | S754_finite _ _ _ => true | _ => false end.

(** [n as f64]: round to nearest, ties to even. *)
Definition f64_of_i64 (n : i64) : f64 := f64_of_spec (binary_normalize 53 1024 n 0 false).

(** [x as i64]: truncate toward zero, saturate, NaN to 0. *)
Definition i64_clamp (z : Z) : i64 := Z.max (- 2 ^ 63) (Z.min z (2 ^ 63 - 1)).

Definition i64_of_f64 (x : f64) : i64 :=
  match f64_to_spec x with
  | S754_nan | S754_zero _ => 0
  | S754_infinity s => if s then - 2 ^ 63 else 2 ^ 63 - 1
  | S754_finite s m e =>
      let a := if 0 <=? e then Z.shiftl (Zpos m) (Z.min e 64) else Z.shiftr (Zpos m) (- e) in
      i64_clamp (if s then - a else a)
  end.

(** [f64::total_cmp] *)
Definition total_cmp_key (x : f64) : i64 :=
  let i := as_i64 x in
  Z.lxor i (Z.shiftr (as_u64 (Z.shiftr i 63)) 1).
Definition f64_total_cmp (x y : f64) : comparison :=
  Z.compare (total_cmp_key x) (total_cmp_key y).

(** ** Lemmas *)

(** A pattern is its sign, exponent and mantissa. *)
Lemma f64_split x : in_u64 x →
  x = sign_bit (f64_sign x) + f64_exp x * 2 ^ 52 + f64_mant x.
Proof.
  intros [? ?]. unfold sign_bit, f64_sign, f64_exp, f64_mant.
  destruct (Z.leb_spec (2 ^ 63) x); Z.div_mod_to_equations; lia.
Qed.

Lemma f64_exp_range x : 0 ≤ f64_exp x < 2048.
Proof. unfold f64_exp. Z.div_mod_to_equations; lia. Qed.

Lemma f64_mant_range x : 0 ≤ f64_mant x < 2 ^ 52.
Proof. unfold f64_mant. Z.div_mod_to_equations; lia. Qed.

(** The value determines the pattern, except for NaN. *)
Lemma f64_of_to_spec x : in_u64 x → f64_to_spec x ≠ S754_nan → f64_of_spec (f64_to_spec x) = x.
Proof.
  intros Hx Hnan. pose proof (f64_split x Hx) as Hs.
  pose proof (f64_exp_range x). pose proof (f64_mant_range x).
  unfold f64_to_spec in *.
  destruct (Z.eqb_spec (f64_exp x) 0) as [He|He].
  { destruct (f64_mant x) eqn:Hm; cbn [f64_of_spec]; [lia| |lia].
    destruct (Z.leb_spec (2 ^ 52) (Zpos p)); lia. }
  destruct (Z.eqb_spec (f64_exp x) 2047).
  { destruct (Z.eqb_spec (f64_mant x) 0); [cbn [f64_of_spec]; lia|done]. }
  destruct (f64_mant x + 2 ^ 52) eqn:Hm; [lia| |lia]. cbn [f64_of_spec].
  destruct (Z.leb_spec (2 ^ 52) (Zpos p)); lia.
Qed.

Lemma f64_to_spec_inj x y :
  in_u64 x → in_u64 y → f64_to_spec x ≠ S754_nan → f64_to_spec x = f64_to_spec y → x = y.
Proof.
  intros Hx Hy Hn E. rewrite <-(f64_of_to_spec x Hx Hn), E.
  apply f64_of_to_spec; congruence.
Qed.

Lemma SFcompare_Eq f g : SFcompare f g = Some Eq →
  f ≠ S754_nan ∧ (f = g ∨ ∃ s t, f = S754_zero s ∧ g = S754_zero t).
Proof.
  destruct f as [s|s| |s m e], g as [t|t| |t n k]; cbn;
    repeat match goal with s : bool |- _ => destruct s end; try naive_solver;
    destruct (Z.compare_spec e k); try discriminate; subst;
    intros [= Hc]; rewrite ?CompOpp_iff in Hc; cbn in Hc;
    change (Pos.compare_cont Eq m n) with (m ?= n)%positive in Hc;
    apply Pos.compare_eq_iff in Hc; subst; split; auto; discriminate.
Qed.

Lemma SFcompare_refl f : f ≠ S754_nan → SFcompare f f = Some Eq.
Proof.
  destruct f as [s|s| |s m e]; cbn; try done; destruct s; try done;
    rewrite Z.compare_refl; change (Pos.compare_cont Eq m m) with (m ?= m)%positive;
    by rewrite Pos.compare_refl.
Qed.

(** [==] on doubles: both equal patterns (not NaN) or both zeros. *)
Lemma f64_eq_spec x y : in_u64 x → in_u64 y →
  f64_eq x y = true →
  f64_to_spec x ≠ S754_nan ∧
  (x = y ∨ ∃ s t, f64_to_spec x = S754_zero s ∧ f64_to_spec y = S754_zero t).
Proof.
  unfold f64_eq, SFeqb. intros Hx Hy.
  destruct (SFcompare _ _) as [[]|] eqn:E; try done. intros _.
  destruct (SFcompare_Eq _ _ E) as [Hn [Heq|Hz]]; split; auto.
  left. by apply f64_to_spec_inj.
Qed.

Lemma f64_eq_sym x y : f64_eq x y = f64_eq y x.
Proof.
  apply Bool.eq_iff_eq_true. unfold f64_eq, SFeqb.
  destruct (SFcompare (f64_to_spec x) _) as [[]|] eqn:E1;
    destruct (SFcompare (f64_to_spec y) _) as [[]|] eqn:E2; try done; exfalso.
  all: first [ destruct (SFcompare_Eq _ _ E1) as [? [?|(?&?&?&?)]]
             | destruct (SFcompare_Eq _ _ E2) as [? [?|(?&?&?&?)]] ].
  all: try (rewrite SFcompare_refl in E2 by congruence); try congruence.
  all: repeat match goal with H : f64_to_spec _ = _ |- _ => rewrite H in * end; try done.
  all: rewrite SFcompare_refl in * by done; done.
Qed.

Lemma f64_eq_trans x y z : f64_eq x y = true → f64_eq y z = true → f64_eq x z = true.
Proof.
  unfold f64_eq, SFeqb.
  destruct (SFcompare (f64_to_spec x) _) as [[]|] eqn:E1; try done.
  destruct (SFcompare (f64_to_spec y) _) as [[]|] eqn:E2; try done. intros _ _.
  destruct (SFcompare_Eq _ _ E1) as [? [->|(?&?&->&Hy)]]; [by rewrite E2|].
  destruct (SFcompare_Eq _ _ E2) as [? [<-|(?&?&Hy'&->)]]; [by rewrite Hy|done].
Qed.

(** ** The operations on concrete patterns *)

Example f64_add_rounds : (* 0.1 + 0.2 = 0.30000000000000004 *)
  f64_add 0x3FB999999999999A 0x3FC999999999999A = 0x3FD3333333333334.
Proof. reflexivity. Qed.

Example f64_zeros_equal : f64_eq 0 (2 ^ 63) = true ∧ f64_eq f64_nan f64_nan = false.
Proof. split; reflexivity. Qed.

Example f64_int_conversions :
  f64_of_i64 (2 ^ 53 + 1) = f64_of_i64 (2 ^ 53) ∧
  i64_of_f64 (f64_of_i64 (-7)) = -7 ∧
  i64_of_f64 f64_nan = 0 ∧
  i64_of_f64 0x43F0000000000000 = 2 ^ 63 - 1 ∧ (* 2^64 saturates *)
  i64_of_f64 0xC00E000000000000 = -3. (* -3.75 truncates *)
Proof. repeat split; reflexivity. Qed.

Example f64_total_cmp_order :
  f64_total_cmp (2 ^ 63) 0 = Lt ∧ f64_total_cmp 0 0x3FF0000000000000 = Lt ∧
  f64_total_cmp 0x7FF0000000000000 f64_nan = Lt ∧
  f64_total_cmp 0xBFF0000000000000 0x8000000000000000 = Lt.
Proof. repeat split; reflexivity. Qed.
