(* ===== verification/Serialize.v ===== *)
(** * Byte-level wire primitives (src/runtime/src/serialize.rs)

    [Writer] appends to a byte buffer, [Reader] walks one with a position.
    Integers are LEB128 varints (unsigned for indices and lengths, signed for
    [i64] immediates), doubles and the version are little-endian fields, strings
    and byte blocks are length-prefixed.

    The loops carry fuel: ten rounds write any 64-bit varint, and eleven rounds
    read one or reach the 64-bit overflow check; [varint_roundtrip] and the
    [advances] lemmas, which exclude [NoFuel], say so. *)

From Stdlib Require Import ZArith Lia.
From stdpp Require Import base numbers list strings.
From S2P Require Import Prelude Bytes Float64.

Open Scope Z_scope.

(** ** Writer *)

Record Writer := mkWriter { buf : list u8 }.

Definition Writer_new : Writer := mkWriter [].
Definition into_bytes (w : Writer) : list u8 := buf w.

Definition write_u8 (w : Writer) (v : u8) : Writer := mkWriter (push (buf w) v).
Definition write_raw (w : Writer) (data : list u8) : Writer := mkWriter (buf w ++ data).
Definition write_u32_le (w : Writer) (v : u32) : Writer := mkWriter (buf w ++ to_le_bytes 4 v).
Definition write_f64 (w : Writer) (v : f64) : Writer := mkWriter (buf w ++ to_le_bytes 8 v).

Fixpoint write_uvarint_loop (fuel : nat) (w : Writer) (v : u64) : Writer :=
  match fuel with
  | O => w
  | S fuel' =>
      let byte := as_u8 (Z.land v 127) in
      let v := Z.shiftr v 7 in
      let byte := if v =? 0 then byte else Z.lor byte 128 in
      let w := write_u8 w byte in
      if v =? 0 then w else write_uvarint_loop fuel' w v
  end.

Definition write_uvarint (w : Writer) (v : u64) : Writer := write_uvarint_loop 10 w v.

Fixpoint write_ivarint_loop (fuel : nat) (w : Writer) (v : i64) : Writer :=
  match fuel with
  | O => w
  | S fuel' =>
      let byte := as_u8 (Z.land v 127) in
      let v := Z.shiftr v 7 in
      let sign := negb (Z.land byte 64 =? 0) in
      let done := (v =? 0) && negb sign || (v =? -1) && sign in
      let byte := if done then byte else Z.lor byte 128 in
      let w := write_u8 w byte in
      if done then w else write_ivarint_loop fuel' w v
  end.

Definition write_ivarint (w : Writer) (v : i64) : Writer := write_ivarint_loop 10 w v.

Definition write_bytes (w : Writer) (data : list u8) : Writer :=
  let w := write_uvarint w (Z.of_nat (length data)) in
  mkWriter (buf w ++ data).

Definition write_str (w : Writer) (s : string) : Writer := write_bytes w (as_bytes s).

(** ** Reader *)

Inductive DecodeError :=
  | UnexpectedEof
  | VarintOverflow
  | InvalidUtf8
  | BadMagic
  | UnsupportedVersion (v : u32)
  | UnknownOpcode (op : u8)
  | ConstIndexOutOfRange
  | UnknownNative (name : string).

Record Reader := mkReader { bytes : list u8; pos : nat }.

Abbreviation decoder A := (Reader → res DecodeError (A * Reader)).

Definition Reader_new (bytes : list u8) : Reader := mkReader bytes 0.
Definition remaining (r : Reader) : nat := length (bytes r) - pos r.
Definition is_empty (r : Reader) : bool := Nat.eqb (remaining r) 0.

Definition reader_take (n : usize) : decoder (list u8) := λ r,
  let stop := Z.of_nat (pos r) + n in
  if stop <? 2 ^ 64 then
    if stop <=? Z.of_nat (length (bytes r)) then
      Ok (take (Z.to_nat n) (drop (pos r) (bytes r)),
          mkReader (bytes r) (pos r + Z.to_nat n))
    else Err UnexpectedEof
  else Err UnexpectedEof.

Definition read_raw (n : usize) : decoder (list u8) := reader_take n.

Definition read_u8 : decoder u8 := λ r,
  '(b, r) ← reader_take 1 r;
  b0 ← or_panic (b !! 0%nat);
  Ok (b0, r).

Definition read_u32_le : decoder u32 := λ r,
  '(b, r) ← reader_take 4 r;
  Ok (from_le_bytes b, r).

Definition read_f64 : decoder f64 := λ r,
  '(b, r) ← reader_take 8 r;
  Ok (from_le_bytes b, r).

Fixpoint read_uvarint_loop (fuel : nat) (result : u64) (shift : u32) : decoder u64 := λ r,
  match fuel with
  | O => NoFuel
  | S fuel' =>
      '(byte, r) ← read_u8 r;
      if 64 <=? shift then Err VarintOverflow else
      let result := Z.lor result (as_u64 (Z.shiftl (Z.land byte 127) shift)) in
      let shift := shift + 7 in
      if Z.land byte 128 =? 0 then Ok (result, r)
      else read_uvarint_loop fuel' result shift r
  end.

Definition read_uvarint : decoder u64 := read_uvarint_loop 11 0 0.

Fixpoint read_ivarint_loop (fuel : nat) (result : i64) (shift : u32) : decoder i64 := λ r,
  match fuel with
  | O => NoFuel
  | S fuel' =>
      '(byte, r) ← read_u8 r;
      if 64 <=? shift then Err VarintOverflow else
      let result := Z.lor result (as_i64 (Z.shiftl (Z.land byte 127) shift)) in
      let shift := shift + 7 in
      if Z.land byte 128 =? 0 then
        let result :=
          if (shift <? 64) && negb (Z.land byte 64 =? 0)
          then Z.lor result (as_i64 (Z.shiftl (-1) shift)) else result in
        Ok (result, r)
      else read_ivarint_loop fuel' result shift r
  end.

Definition read_ivarint : decoder i64 := read_ivarint_loop 11 0 0.

Definition read_bytes : decoder (list u8) := λ r,
  '(len, r) ← read_uvarint r;
  reader_take len r.

Definition read_str : decoder string := λ r,
  '(b, r) ← read_bytes r;
  if utf8_valid b then Ok (of_bytes b, r) else Err InvalidUtf8.

(** ** Specifications

    [decodes f enc a]: wherever [enc] stands in the input, [f] positioned at its
    start returns [a] and stops right after it.  (A Rust slice holds at most
    [isize::MAX] bytes.) *)

Definition decodes {A} (f : decoder A) (enc : list u8) (a : A) : Prop :=
  ∀ pre post, Z.of_nat (length (pre ++ enc ++ post)) ≤ isize_max →
    f (mkReader (pre ++ enc ++ post) (length pre)) =
    Ok (a, mkReader (pre ++ enc ++ post) (length pre + length enc)).

(** A decoder is a parser: on a reader inside its input it runs to a verdict
    without exhausting its fuel, never touches the input, and a success moves the
    position forward, by at least [k] bytes, within the input. *)
Definition reader_ok (r : Reader) : Prop := (pos r ≤ length (bytes r))%nat.

Definition advances {A} (k : nat) (f : decoder A) : Prop :=
  ∀ r, reader_ok r →
    f r ≠ NoFuel ∧
    ∀ a r', f r = Ok (a, r') →
      bytes r' = bytes r ∧ (pos r + k ≤ pos r')%nat ∧ reader_ok r'.

(** ** Lemmas: writers append *)

Fixpoint uvarint_bytes (fuel : nat) (v : Z) : list u8 :=
  match fuel with
  | O => []
  | S fuel' =>
      let hi := Z.shiftr v 7 in
      if hi =? 0 then [Z.land v 127]
      else Z.lor (Z.land v 127) 128 :: uvarint_bytes fuel' hi
  end.

Fixpoint ivarint_bytes (fuel : nat) (v : Z) : list u8 :=
  match fuel with
  | O => []
  | S fuel' =>
      let hi := Z.shiftr v 7 in
      let sign := Z.testbit v 6 in
      if (hi =? 0) && negb sign || (hi =? -1) && sign then [Z.land v 127]
      else Z.lor (Z.land v 127) 128 :: ivarint_bytes fuel' hi
  end.

(** The bytes [write_uvarint], [write_ivarint], [write_str] append. *)
Definition uvarint (v : Z) : list u8 := uvarint_bytes 10 v.
Definition ivarint (v : Z) : list u8 := ivarint_bytes 10 v.
Definition str_bytes (s : string) : list u8 :=
  uvarint (Z.of_nat (length (as_bytes s))) ++ as_bytes s.

Lemma land_127_range v : 0 ≤ Z.land v 127 < 128.
Proof. change 127 with (Z.ones 7). rewrite Z.land_ones by lia. apply Z.mod_pos_bound. lia. Qed.

Lemma as_u8_land_127 v : as_u8 (Z.land v 127) = Z.land v 127.
Proof. apply as_unsigned_id. unfold in_unsigned. pose proof (land_127_range v). lia. Qed.

Lemma testbit_127 i : 0 ≤ i → Z.testbit 127 i = (i <? 7).
Proof. intros. change 127 with (Z.ones 7). rewrite Z.testbit_ones by lia. case_cmp. Qed.

(** [z & 2^k] tests bit [k]. *)
Lemma land_pow2_eqb z k : 0 ≤ k → (Z.land z (2 ^ k) =? 0) = negb (Z.testbit z k).
Proof.
  intros Hk. destruct (Z.testbit z k) eqn:Hb; cbn.
  - apply Z.eqb_neq. intros H0. apply (f_equal (λ x, Z.testbit x k)) in H0.
    rewrite Z.land_spec, Hb, Z.pow2_bits_true, Z.testbit_0_l in H0 by lia. done.
  - apply Z.eqb_eq. bitwise i Hi. destruct (decide (i = k)) as [->|].
    + by rewrite Hb.
    + by rewrite Z.pow2_bits_false, andb_false_r by lia.
Qed.

Lemma sign_bit_6 v : negb (Z.land (Z.land v 127) 64 =? 0) = Z.testbit v 6.
Proof.
  change 64 with (2 ^ 6). rewrite land_pow2_eqb, negb_involutive by lia.
  rewrite Z.land_spec, testbit_127 by lia. apply andb_true_r.
Qed.

Lemma cont_bit_clear v : (Z.land (Z.land v 127) 128 =? 0) = true.
Proof.
  change 128 with (2 ^ 7). rewrite land_pow2_eqb, Z.land_spec, testbit_127 by lia.
  by rewrite andb_false_r.
Qed.

Lemma cont_bit_set v : (Z.land (Z.lor v 128) 128 =? 0) = false.
Proof.
  change 128 with (2 ^ 7). rewrite land_pow2_eqb, Z.lor_spec, Z.pow2_bits_true by lia.
  by rewrite orb_true_r.
Qed.

Lemma payload_bits v : Z.land (Z.lor (Z.land v 127) 128) 127 = Z.land v 127.
Proof.
  bitwise i Hi. rewrite testbit_127 by lia. change 128 with (2 ^ 7).
  destruct (decide (i = 7)) as [->|].
  - by rewrite Z.ltb_irrefl, !andb_false_r.
  - rewrite Z.pow2_bits_false, orb_false_r by lia. by destruct (Z.testbit v i), (i <? 7).
Qed.

Lemma payload_bits' v : Z.land (Z.land v 127) 127 = Z.land v 127.
Proof. by rewrite <-Z.land_assoc, Z.land_diag. Qed.

Lemma buf_write_uvarint_loop fuel w v :
  buf (write_uvarint_loop fuel w v) = buf w ++ uvarint_bytes fuel v.
Proof.
  revert w v; induction fuel as [|fuel IH]; intros w v; cbn [write_uvarint_loop uvarint_bytes].
  { by rewrite app_nil_r. }
  rewrite as_u8_land_127. destruct (Z.shiftr v 7 =? 0); [done|].
  rewrite IH. cbn. unfold push. by rewrite <-app_assoc.
Qed.

Lemma buf_write_ivarint_loop fuel w v :
  buf (write_ivarint_loop fuel w v) = buf w ++ ivarint_bytes fuel v.
Proof.
  revert w v; induction fuel as [|fuel IH]; intros w v; cbn [write_ivarint_loop ivarint_bytes].
  { by rewrite app_nil_r. }
  rewrite as_u8_land_127, sign_bit_6.
  destruct (_ || _); [done|]. rewrite IH. cbn. unfold push. by rewrite <-app_assoc.
Qed.

Lemma buf_write_u8 w v : buf (write_u8 w v) = buf w ++ [v].
Proof. done. Qed.
Lemma buf_write_raw w l : buf (write_raw w l) = buf w ++ l.
Proof. done. Qed.
Lemma buf_write_u32_le w v : buf (write_u32_le w v) = buf w ++ to_le_bytes 4 v.
Proof. done. Qed.
Lemma buf_write_f64 w v : buf (write_f64 w v) = buf w ++ to_le_bytes 8 v.
Proof. done. Qed.
Lemma buf_write_uvarint w v : buf (write_uvarint w v) = buf w ++ uvarint v.
Proof. apply buf_write_uvarint_loop. Qed.
Lemma buf_write_ivarint w v : buf (write_ivarint w v) = buf w ++ ivarint v.
Proof. apply buf_write_ivarint_loop. Qed.
Lemma buf_write_str w s : buf (write_str w s) = buf w ++ str_bytes s.
Proof. unfold write_str, write_bytes, str_bytes. cbn [buf]. by rewrite buf_write_uvarint, <-app_assoc. Qed.

Create Rewrite HintDb wire.
#[export] Hint Rewrite buf_write_u8 buf_write_raw buf_write_u32_le buf_write_f64 : wire.
#[export] Hint Rewrite buf_write_uvarint buf_write_ivarint buf_write_str : wire.

(** ** Lemmas: decoding *)

Lemma reader_take_decodes l : decodes (reader_take (Z.of_nat (length l))) l l.
Proof.
  intros pre post Hlen. unfold reader_take, isize_max in *. cbn [bytes pos].
  rewrite !length_app in *.
  rewrite (proj2 (Z.ltb_lt _ _)), (proj2 (Z.leb_le _ _)) by lia.
  rewrite Nat2Z.id, drop_app_length, take_app_length. done.
Qed.

Lemma read_u8_decodes b : decodes read_u8 [b] b.
Proof.
  intros pre post Hlen. unfold read_u8.
  rewrite (reader_take_decodes [b]) by done. done.
Qed.

Lemma le_field_decodes (n : nat) v :
  in_unsigned (8 * Z.of_nat n) v →
  decodes (λ r, '(b, r) ← reader_take (Z.of_nat n) r; Ok (from_le_bytes b, r)) (to_le_bytes n v) v.
Proof.
  intros Hv pre post Hlen. rewrite <-(length_to_le_bytes n v) at 1.
  rewrite reader_take_decodes by done. cbn.
  rewrite from_to_le_bytes. by rewrite Z.mod_small.
Qed.

Lemma read_u32_le_decodes v : in_u32 v → decodes read_u32_le (to_le_bytes 4 v) v.
Proof. intros. by apply (le_field_decodes 4). Qed.

Lemma read_f64_decodes v : in_u64 v → decodes read_f64 (to_le_bytes 8 v) v.
Proof. intros. by apply (le_field_decodes 8). Qed.

Lemma decodes_ret {A} (a : A) : decodes (λ r, Ok (a, r)) [] a.
Proof. intros pre post _. by rewrite Nat.add_0_r. Qed.

Lemma decodes_bind {A B} (f : decoder A) (g : A → decoder B) e1 e2 a b :
  decodes f e1 a → decodes (g a) e2 b →
  decodes (λ r, '(x, r) ← f r; g x r) (e1 ++ e2) b.
Proof.
  intros Hf Hg pre post Hlen. rewrite <-app_assoc in *.
  rewrite Hf by done. cbn.
  rewrite <-length_app. specialize (Hg (pre ++ e1) post). rewrite <-app_assoc in Hg.
  rewrite Hg by done. rewrite !length_app, Nat.add_assoc. done.
Qed.

(** Binding a decoder to a pure continuation. *)
Lemma decodes_map {A B} (f : decoder A) (g : A → B) e a :
  decodes f e a → decodes (λ r, '(x, r) ← f r; Ok (g x, r)) e (g a).
Proof.
  intros Hf. rewrite <-(app_nil_r e).
  apply (decodes_bind f (λ x r, Ok (g x, r)) e [] a); [done|apply decodes_ret].
Qed.

Lemma decodes_ext {A} (f g : decoder A) e a :
  (∀ r, f r = g r) → decodes g e a → decodes f e a.
Proof. intros Hfg Hg pre post Hlen. rewrite Hfg. by apply Hg. Qed.

(** Reading one byte inside a larger decoder. *)
Lemma read_u8_step {A} b (k : u8 → Reader → res DecodeError A) pre post :
  Z.of_nat (length (pre ++ b :: post)) ≤ isize_max →
  ('(x, r) ← read_u8 (mkReader (pre ++ b :: post) (length pre)); k x r) =
  k b (mkReader (pre ++ b :: post) (length (pre ++ [b]))).
Proof.
  intros Hlen. pose proof (read_u8_decodes b pre post Hlen) as H. cbn [app] in H.
  rewrite H. cbn. by rewrite length_app.
Qed.

Lemma low_high_bits v : v = Z.lor (Z.land v 127) (Z.shiftl (Z.shiftr v 7) 7).
Proof.
  bitwise i Hi. rewrite testbit_127 by lia. destruct (Z.ltb_spec i 7).
  - rewrite (Z.testbit_neg_r _ (i - 7)) by lia. by destruct (Z.testbit v i).
  - rewrite andb_false_r, Z.shiftr_spec by lia. cbn. f_equal; lia.
Qed.

(** The same split, shifted to a position of the accumulator. *)
Lemma low_high_shift v shift : 0 ≤ shift →
  Z.shiftl v shift =
  Z.lor (Z.shiftl (Z.land v 127) shift) (Z.shiftl (Z.shiftr v 7) (shift + 7)).
Proof.
  intros. rewrite (low_high_bits v) at 1. rewrite Z.shiftl_lor, Z.shiftl_shiftl by lia.
  do 2 f_equal. lia.
Qed.

Lemma uvarint_loop_decodes n : ∀ v m acc shift,
  0 ≤ v < 2 ^ (7 * Z.of_nat n) → (0 < n ≤ m)%nat →
  0 ≤ shift < 64 → v * 2 ^ shift < 2 ^ 64 →
  decodes (read_uvarint_loop m acc shift) (uvarint_bytes n v) (Z.lor acc (Z.shiftl v shift)).
Proof.
  induction n as [|n IH]; intros v m acc shift Hv Hm Hs Hlt pre post Hlen; [lia|].
  destruct m as [|m]; [lia|]. cbn [uvarint_bytes read_uvarint_loop] in *.
  pose proof (land_127_range v) as Hlow.
  pose proof (low_high_bits v) as Hv7.
  assert (Hpay : as_u64 (Z.shiftl (Z.land v 127) shift) = Z.shiftl (Z.land v 127) shift).
  { apply as_unsigned_id. rewrite Z.shiftl_mul_pow2 by lia. split; [lia|].
    enough (Z.land v 127 ≤ v) by nia. change 127 with (Z.ones 7).
    rewrite Z.land_ones by lia. apply Z.mod_le; lia. }
  destruct (Z.eqb_spec (Z.shiftr v 7) 0) as [H0|H0].
  - cbn [app] in *. rewrite read_u8_step by done.
    rewrite (proj2 (Z.leb_gt 64 shift)) by lia. rewrite payload_bits', Hpay, cont_bit_clear.
    rewrite H0, Z.shiftl_0_l, Z.lor_0_r in Hv7. rewrite <-Hv7, length_app. done.
  - cbn [app] in *. rewrite read_u8_step by done.
    rewrite (proj2 (Z.leb_gt 64 shift)) by lia. rewrite payload_bits, Hpay, cont_bit_set.
    set (b := Z.lor (Z.land v 127) 128) in *.
    rewrite Z.shiftr_div_pow2 in * by lia.
    assert (1 ≤ v / 2 ^ 7) by (pose proof (Z.div_pos v (2 ^ 7)); lia).
    assert (v / 2 ^ 7 * 2 ^ (shift + 7) ≤ v * 2 ^ shift) as Hle.
    { rewrite Z.pow_add_r by lia. pose proof (Z.mul_div_le v (2 ^ 7)). nia. }
    specialize (IH (v / 2 ^ 7) m (Z.lor acc (Z.shiftl (Z.land v 127) shift)) (shift + 7)).
    assert (shift + 7 < 64).
    { destruct (decide (shift + 7 < 64)); [done|].
      assert (2 ^ 64 ≤ 2 ^ (shift + 7)) by (apply Z.pow_le_mono_r; lia). nia. }
    assert (v / 2 ^ 7 < 2 ^ (7 * Z.of_nat n)) as Hhi.
    { apply Z.div_lt_upper_bound; [lia|]. rewrite <-Z.pow_add_r by lia.
      replace (7 + 7 * Z.of_nat n) with (7 * Z.of_nat (S n)) by lia. lia. }
    assert (0 < n)%nat by (destruct n; [change (2 ^ (7 * Z.of_nat 0)) with 1 in Hhi|]; lia).
    specialize (IH ltac:(lia) ltac:(lia) ltac:(lia) ltac:(lia) (pre ++ [b]) post).
    rewrite <-!app_assoc in IH. cbn [app] in IH. rewrite IH by done.
    rewrite length_app, <-Z.lor_assoc. cbn [length].
    replace (length pre + 1 + length (uvarint_bytes n (v / 2 ^ 7)))%nat
      with (length pre + S (length (uvarint_bytes n (v / 2 ^ 7))))%nat by lia.
    rewrite (low_high_shift v shift), Z.shiftr_div_pow2 by lia. done.
Qed.

Lemma as_i64_payload a shift : 0 ≤ a < 128 → 0 ≤ shift ≤ 56 →
  as_i64 (Z.shiftl a shift) = Z.shiftl a shift.
Proof.
  intros Ha Hs. apply as_signed_id; [lia|]. rewrite Z.shiftl_mul_pow2 by lia.
  assert (2 ^ shift ≤ 2 ^ 56) by (apply Z.pow_le_mono_r; lia).
  assert (0 < 2 ^ shift) by lia. unfold in_signed. change (2 ^ (64 - 1)) with (128 * 2 ^ 56). nia.
Qed.

(** At the top of the word the payload bits past bit 63 fall off and the wrapped
    shift already is the sign-extended value. *)
Lemma as_i64_payload_top v shift : 57 ≤ shift < 64 →
  - 2 ^ (63 - shift) ≤ v < 2 ^ (63 - shift) →
  as_i64 (Z.shiftl (Z.land v 127) shift) = Z.shiftl v shift.
Proof.
  intros Hs Hv. rewrite !Z.shiftl_mul_pow2 by lia.
  change 127 with (Z.ones 7). rewrite Z.land_ones by lia.
  assert (2 ^ 64 = 2 ^ (64 - shift) * 2 ^ shift) as E64 by (rewrite <-Z.pow_add_r by lia; f_equal; lia).
  assert (2 ^ 63 = 2 ^ (63 - shift) * 2 ^ shift) as E63 by (rewrite <-Z.pow_add_r by lia; f_equal; lia).
  assert (2 ^ 7 = 2 ^ (shift - 57) * 2 ^ (64 - shift)) as E7 by (rewrite <-Z.pow_add_r by lia; f_equal; lia).
  rewrite <-(as_signed_id 64 (v * 2 ^ shift)); [|lia|].
  2:{ unfold in_signed. change (64 - 1) with 63. rewrite E63. nia. }
  unfold as_signed. f_equal.
  rewrite (Z.mod_eq v) by lia. set (q := v / 2 ^ 7).
  replace ((v - 2 ^ 7 * q) * 2 ^ shift + 2 ^ (64 - 1))
    with (v * 2 ^ shift + 2 ^ (64 - 1) + (- q * 2 ^ (shift - 57)) * 2 ^ 64)
    by (rewrite E64, E7; ring).
  apply Z.mod_add. lia.
Qed.

(** A signed value that needs another byte does not fit seven bits. *)
Lemma ivarint_more v :
  (Z.shiftr v 7 =? 0) && negb (Z.testbit v 6) || (Z.shiftr v 7 =? -1) && Z.testbit v 6 = false →
  ¬ (-64 ≤ v < 64).
Proof.
  intros [H1 H2]%orb_false_iff Hsm.
  assert (Z.testbit v 6 = (v <? 0)) as Hb.
  { rewrite Z.testbit_eqb by lia. case_cmp; Z.div_mod_to_equations; lia. }
  rewrite Hb in *. rewrite Z.shiftr_div_pow2 in * by lia.
  destruct (Z.ltb_spec v 0).
  - rewrite andb_true_r in H2. apply Z.eqb_neq in H2. Z.div_mod_to_equations; lia.
  - rewrite andb_true_r in H1. apply Z.eqb_neq in H1. Z.div_mod_to_equations; lia.
Qed.

Lemma div_128_range v k : 7 ≤ k → - 2 ^ k ≤ v < 2 ^ k → - 2 ^ (k - 7) ≤ v / 2 ^ 7 < 2 ^ (k - 7).
Proof.
  intros Hk Hvk. replace (2 ^ k) with (2 ^ 7 * 2 ^ (k - 7)) in Hvk
    by (rewrite <-Z.pow_add_r by lia; f_equal; lia).
  split; [apply Z.div_le_lower_bound|apply Z.div_lt_upper_bound]; lia.
Qed.

Lemma ivarint_loop_decodes n : ∀ v m acc shift,
  - 2 ^ (7 * Z.of_nat n - 1) ≤ v < 2 ^ (7 * Z.of_nat n - 1) → (0 < n ≤ m)%nat →
  0 ≤ shift < 64 → - 2 ^ (63 - shift) ≤ v < 2 ^ (63 - shift) →
  decodes (read_ivarint_loop m acc shift) (ivarint_bytes n v) (Z.lor acc (Z.shiftl v shift)).
Proof.
  induction n as [|n IH]; intros v m acc shift Hv Hm Hs Hlt pre post Hlen; [lia|].
  destruct m as [|m]; [lia|]. cbn [ivarint_bytes read_ivarint_loop] in *.
  pose proof (land_127_range v) as Hlow. pose proof (low_high_bits v) as Hv7.
  destruct (_ || _) eqn:Hdone.
  - cbn [app] in *. rewrite read_u8_step by done.
    rewrite (proj2 (Z.leb_gt 64 shift)), payload_bits', cont_bit_clear, sign_bit_6 by lia.
    rewrite length_app. do 2 f_equal.
    destruct (Z.ltb_spec (shift + 7) 64); cbn [andb].
    + rewrite as_i64_payload by lia. rewrite (low_high_shift v shift) by lia.
      apply orb_true_iff in Hdone as [Hd|Hd]; apply andb_true_iff in Hd as [Hhi Hd];
        apply Z.eqb_eq in Hhi; rewrite Hhi.
      * rewrite (proj1 (negb_true_iff _) Hd), Z.shiftl_0_l, Z.lor_0_r. done.
      * rewrite Hd, <-Z.lor_assoc. do 2 f_equal. rewrite as_signed_id; [done|lia|].
        unfold in_signed. rewrite Z.shiftl_mul_pow2 by lia.
        assert (2 ^ (shift + 7) ≤ 2 ^ 63) by (apply Z.pow_le_mono_r; lia).
        change (64 - 1) with 63. lia.
    + by rewrite as_i64_payload_top by lia.
  - cbn [app] in *. rewrite read_u8_step by done.
    rewrite (proj2 (Z.leb_gt 64 shift)), payload_bits, cont_bit_set by lia.
    set (b := Z.lor (Z.land v 127) 128) in *.
    pose proof (ivarint_more v Hdone) as Hbig.
    assert (shift ≤ 56).
    { destruct (decide (shift ≤ 56)); [done|].
      assert (2 ^ (63 - shift) ≤ 2 ^ 6) by (apply Z.pow_le_mono_r; lia). lia. }
    assert (0 < n)%nat by (destruct n; [change (2 ^ (7 * Z.of_nat 1 - 1)) with 64 in Hv|]; lia).
    rewrite as_i64_payload by lia. rewrite (low_high_shift v shift), Z.lor_assoc by lia.
    rewrite Z.shiftr_div_pow2 in * by lia.
    specialize (IH (v / 2 ^ 7) m (Z.lor acc (Z.shiftl (Z.land v 127) shift)) (shift + 7)).
    pose proof (div_128_range v (7 * Z.of_nat (S n) - 1) ltac:(lia) Hv) as Hd1.
    replace (7 * Z.of_nat (S n) - 1 - 7) with (7 * Z.of_nat n - 1) in Hd1 by lia.
    pose proof (div_128_range v (63 - shift) ltac:(lia) Hlt) as Hd2.
    replace (63 - shift - 7) with (63 - (shift + 7)) in Hd2 by lia.
    specialize (IH Hd1 ltac:(lia) ltac:(lia) Hd2 (pre ++ [b]) post).
    rewrite <-!app_assoc in IH. cbn [app] in IH. rewrite IH by done.
    rewrite length_app. cbn [length]. do 3 f_equal. lia.
Qed.

Lemma read_uvarint_decodes v : in_u64 v → decodes read_uvarint (uvarint v) v.
Proof.
  intros Hv. rewrite <-(Z.shiftl_0_r v) at 2. rewrite <-(Z.lor_0_l (Z.shiftl v 0)).
  destruct Hv. apply uvarint_loop_decodes; lia.
Qed.

Lemma read_ivarint_decodes v : in_i64 v → decodes read_ivarint (ivarint v) v.
Proof.
  intros Hv. rewrite <-(Z.shiftl_0_r v) at 2. rewrite <-(Z.lor_0_l (Z.shiftl v 0)).
  destruct Hv. apply ivarint_loop_decodes; lia.
Qed.

Lemma read_bytes_decodes l : Z.of_nat (length l) ≤ isize_max →
  decodes read_bytes (uvarint (Z.of_nat (length l)) ++ l) l.
Proof.
  intros Hl. apply decodes_bind with (a := Z.of_nat (length l)).
  - apply read_uvarint_decodes. unfold isize_max, in_unsigned in *. lia.
  - apply reader_take_decodes.
Qed.

Lemma read_str_decodes s : is_utf8 s → Z.of_nat (length (as_bytes s)) ≤ isize_max →
  decodes read_str (str_bytes s) s.
Proof.
  intros Hu Hl pre post Hlen. unfold read_str, str_bytes in *.
  rewrite (read_bytes_decodes _ Hl pre post Hlen). cbn.
  rewrite Hu, of_bytes_as_bytes. done.
Qed.

(** The written bytes are bytes. *)
Lemma uvarint_bytes_range n v : Forall in_u8 (uvarint_bytes n v).
Proof.
  revert v; induction n as [|n IH]; intros v; cbn; [constructor|].
  pose proof (land_127_range v).
  assert (in_u8 (Z.lor (Z.land v 127) 128)).
  { apply in_unsigned_bits; [lia|apply Z.lor_nonneg; lia|]. intros i Hi.
    rewrite Z.lor_spec, Z.land_spec, testbit_127 by lia. change 128 with (2 ^ 7).
    rewrite Z.pow2_bits_false by lia. case_cmp; by rewrite andb_false_r. }
  destruct (_ =? 0); constructor; auto. unfold in_unsigned; lia.
Qed.

Lemma uvarint_nonempty v : (1 ≤ length (uvarint v))%nat.
Proof. unfold uvarint. cbn [uvarint_bytes]. destruct (_ =? 0); cbn; lia. Qed.

(** ** Lemmas: decoders are parsers *)

Lemma advances_mono {A} k k' (f : decoder A) : (k' ≤ k)%nat → advances k f → advances k' f.
Proof.
  intros Hk Hf r Hr. destruct (Hf r Hr) as [? Hok]. split; [done|].
  intros a r' Ha. destruct (Hok a r' Ha) as (?&?&?). split_and!; [done|lia|done].
Qed.

Lemma advances_ret {A} (a : A) : advances 0 (λ r, Ok (a, r)).
Proof. intros r Hr. split; [done|]. intros ? ? [= <- <-]. split_and!; [done|lia|done]. Qed.

Lemma advances_fail {A} k (e : DecodeError) : advances (A:=A) k (λ _, Err e).
Proof. intros r Hr. done. Qed.

Lemma advances_bind {A B} k1 k2 (f : decoder A) (g : A → decoder B) :
  advances k1 f → (∀ a, advances k2 (g a)) →
  advances (k1 + k2) (λ r, '(x, r) ← f r; g x r).
Proof.
  intros Hf Hg r Hr. destruct (Hf r Hr) as [Hn Hok].
  destruct (f r) as [[a r1]| | |] eqn:E; cbn; try done.
  destruct (Hok a r1 eq_refl) as (Hb&Hp&Hr1). destruct (Hg a r1 Hr1) as [Hn' Hok'].
  split; [done|]. intros b r2 H2. destruct (Hok' b r2 H2) as (?&?&?).
  split_and!; [congruence|lia|done].
Qed.

Lemma advances_ext {A} k (f g : decoder A) : (∀ r, f r = g r) → advances k g → advances k f.
Proof. intros Hfg Hg r Hr. rewrite Hfg. by apply Hg. Qed.

Lemma reader_take_advances n : 0 ≤ n → advances (Z.to_nat n) (reader_take n).
Proof.
  intros Hn r Hr. unfold reader_take, reader_ok in *. case_cmp; split; try done.
  intros a r' [= <- <-]. cbn. split_and!; [done|lia..].
Qed.

Lemma read_u8_advances : advances 1 read_u8.
Proof.
  intros r Hr. unfold read_u8, reader_take, reader_ok in *. case_cmp; cbn; try done.
  destruct (take _ _ !! 0%nat); cbn; split; try done.
  intros a r' [= <- <-]. cbn. split_and!; [done|lia..].
Qed.

(** Reading a byte of the input never panics. *)
Lemma read_u8_no_panic r : reader_ok r → read_u8 r ≠ Panic.
Proof.
  unfold read_u8, reader_take, reader_ok. intros Hr. case_cmp; cbn; try done.
  change (Z.to_nat 1) with 1%nat. destruct (drop (pos r) (bytes r)) eqn:E; [|done].
  apply (f_equal length) in E. rewrite length_drop in E. cbn in E. lia.
Qed.

(** A varint loop whose fuel outlives the 64-bit overflow check reads at least a
    byte and runs to a verdict. *)
Lemma read_uvarint_loop_advances m : ∀ acc shift,
  64 ≤ shift + 7 * (Z.of_nat m - 1) → (0 < m)%nat →
  advances 1 (read_uvarint_loop m acc shift).
Proof.
  induction m as [|m IH]; intros acc shift Hm Hpos; [lia|]. cbn [read_uvarint_loop].
  apply (advances_bind 1 0); [apply read_u8_advances|]. intros b.
  destruct (Z.leb_spec 64 shift); [apply advances_fail|].
  destruct (_ =? 0); [apply advances_ret|].
  apply (advances_mono 1); [lia|]. apply IH; lia.
Qed.

Lemma read_ivarint_loop_advances m : ∀ acc shift,
  64 ≤ shift + 7 * (Z.of_nat m - 1) → (0 < m)%nat →
  advances 1 (read_ivarint_loop m acc shift).
Proof.
  induction m as [|m IH]; intros acc shift Hm Hpos; [lia|]. cbn [read_ivarint_loop].
  apply (advances_bind 1 0); [apply read_u8_advances|]. intros b.
  destruct (Z.leb_spec 64 shift); [apply advances_fail|].
  destruct (_ =? 0); [apply advances_ret|].
  apply (advances_mono 1); [lia|]. apply IH; lia.
Qed.

Lemma read_uvarint_advances : advances 1 read_uvarint.
Proof. apply read_uvarint_loop_advances; lia. Qed.
Lemma read_ivarint_advances : advances 1 read_ivarint.
Proof. apply read_ivarint_loop_advances; lia. Qed.

(** A decoded unsigned varint is a 64-bit number. *)
Lemma read_uvarint_loop_range m : ∀ acc shift r v r',
  in_u64 acc → read_uvarint_loop m acc shift r = Ok (v, r') → in_u64 v.
Proof.
  induction m as [|m IH]; intros acc shift r v r' Hacc; cbn [read_uvarint_loop]; [done|].
  intros H. apply bind_ok in H as ([z r1] & _ & H).
  destruct (64 <=? shift); [done|].
  assert (in_u64 (Z.lor acc (as_u64 (Z.shiftl (Z.land z 127) shift)))) as Hacc'.
  { pose proof (as_unsigned_range 64 (Z.shiftl (Z.land z 127) shift) ltac:(lia)) as Ha.
    apply in_unsigned_bits; [lia| |].
    - destruct Ha, Hacc. apply Z.lor_nonneg. lia.
    - intros i Hi. rewrite Z.lor_spec, !(testbit_high 64) by (done || lia). done. }
  destruct (_ =? 0); res_inv; [done|]. by eapply IH.
Qed.

Lemma read_uvarint_range r v r' : read_uvarint r = Ok (v, r') → in_u64 v.
Proof. apply read_uvarint_loop_range. done. Qed.

Lemma read_f64_advances : advances 1 read_f64.
Proof.
  apply (advances_mono 8); [lia|]. apply (advances_bind 8 0).
  - by apply (reader_take_advances 8).
  - intros. apply advances_ret.
Qed.

Lemma read_str_advances : advances 1 read_str.
Proof.
  assert (advances 1 read_bytes) as Hb.
  { intros r Hr. destruct (read_uvarint_advances r Hr) as [Hn Hok]. unfold read_bytes.
    destruct (read_uvarint r) as [[n r1]| | |] eqn:E; cbn; try done.
    pose proof (read_uvarint_range _ _ _ E) as [Hn0 _].
    destruct (Hok n r1 eq_refl) as (Hb&Hp&Hr1).
    destruct (reader_take_advances n Hn0 r1 Hr1) as [Hn' Hok']. split; [done|].
    intros b r2 H2. destruct (Hok' b r2 H2) as (?&?&?). split_and!; [congruence|lia|done]. }
  apply (advances_bind 1 0); [done|]. intros b.
  destruct (utf8_valid b); [apply advances_ret|apply advances_fail].
Qed.

(** ** The properties *)

(** Varints round-trip: whatever a writer already holds and whatever follows, the
    bytes [write_uvarint] appends for a [u64] and [write_ivarint] for an [i64] are read
    back as the same number, leaving the reader right after them; they are at most ten
    bytes. *)
Theorem varint_roundtrip u i w pre post :
  in_u64 u → in_i64 i →
  (∃ enc, buf (write_uvarint w u) = buf w ++ enc ∧ (length enc ≤ 10)%nat ∧
    (Z.of_nat (length (pre ++ enc ++ post)) ≤ isize_max →
     read_uvarint (mkReader (pre ++ enc ++ post) (length pre)) =
       Ok (u, mkReader (pre ++ enc ++ post) (length pre + length enc)))) ∧
  (∃ enc, buf (write_ivarint w i) = buf w ++ enc ∧ (length enc ≤ 10)%nat ∧
    (Z.of_nat (length (pre ++ enc ++ post)) ≤ isize_max →
     read_ivarint (mkReader (pre ++ enc ++ post) (length pre)) =
       Ok (i, mkReader (pre ++ enc ++ post) (length pre + length enc)))).
Proof.
  assert (∀ n v, length (uvarint_bytes n v) ≤ n ∧ length (ivarint_bytes n v) ≤ n)%nat as Hlen.
  { induction n as [|n IH]; intros v; cbn; [lia|]. split; case_match; cbn; try lia;
      pose proof (IH (Z.shiftr v 7)); lia. }
  intros Hu Hi. split.
  - exists (uvarint u). split_and!; [apply buf_write_uvarint|apply Hlen|]. by apply read_uvarint_decodes.
  - exists (ivarint i). split_and!; [apply buf_write_ivarint|apply Hlen|]. by apply read_ivarint_decodes.
Qed.

Lemma varint_roundtrip_witness : ∃ enc,
  buf (write_ivarint Writer_new (-300)) = [] ++ enc ∧
  read_ivarint (mkReader ([9] ++ enc ++ []) 1) = Ok (-300, mkReader ([9] ++ enc ++ []) (1 + length enc)).
Proof.
  assert (Hu : in_u64 300) by (unfold in_unsigned; lia).
  assert (Hi : in_i64 (-300)) by (unfold in_signed; lia).
  destruct (varint_roundtrip 300 (-300) Writer_new [9] [] Hu Hi) as [_ (enc & Hb & Hl & Hr)].
  exists enc. split; [exact Hb|]. apply Hr. rewrite length_app, app_nil_r. unfold isize_max. cbn. lia.
Defined.

(** Strings round-trip: the bytes [write_str] appends for a UTF-8 string are read back
    by [read_str] as the same string, and on any bytes at all [read_str] runs to a verdict,
    never past the input's end. *)
Theorem string_roundtrip s w :
  is_utf8 s → Z.of_nat (length (as_bytes s)) ≤ isize_max →
  (∃ enc, buf (write_str w s) = buf w ++ enc ∧
    ∀ pre post, Z.of_nat (length (pre ++ enc ++ post)) ≤ isize_max →
      read_str (mkReader (pre ++ enc ++ post) (length pre)) =
        Ok (s, mkReader (pre ++ enc ++ post) (length pre + length enc))) ∧
  (∀ r, (pos r ≤ length (bytes r))%nat → read_str r ≠ NoFuel ∧ ∀ t r', read_str r = Ok (t, r') →
    bytes r' = bytes r ∧ (pos r < pos r' ≤ length (bytes r))%nat).
Proof.
  intros Hs Hl. split.
  - exists (str_bytes s). split; [apply buf_write_str|]. by apply read_str_decodes.
  - intros r Hr. destruct (read_str_advances r Hr) as [Hn Hok]. split; [done|]. intros t r' Ht.
    destruct (Hok t r' Ht) as (Hb & Hp & Hr'). unfold reader_ok in Hr'. rewrite Hb in Hr'.
    split_and!; [done|lia|lia].
Qed.

Lemma string_roundtrip_witness : ∃ enc,
  buf (write_str Writer_new "thera") = [] ++ enc ∧
  read_str (mkReader ([] ++ enc ++ [7]) 0) = Ok ("thera"%string, mkReader ([] ++ enc ++ [7]) (0 + length enc)).
Proof.
  assert (Hs : is_utf8 "thera") by reflexivity.
  assert (Hl : Z.of_nat (length (as_bytes "thera")) ≤ isize_max) by (unfold isize_max; cbn; lia).
  destruct (string_roundtrip "thera" Writer_new Hs Hl) as [(enc & Hb & Hr) _].
  exists enc. split; [exact Hb|]. apply (Hr [] [7]). rewrite app_nil_l in Hb. rewrite <-Hb. vm_compute. discriminate.
Defined.
