(* ===== verification/Instr.v ===== *)
(** * The instruction set (src/runtime/src/instr.rs)

    One constructor per variant of [Instr], with its operands; a jump target is
    an absolute index into the function's instruction vector.  [instr_ok] is the
    width invariant the Rust operand types give for free. *)

From Stdlib Require Import ZArith.
From stdpp Require Import base numbers list strings.
From S2P Require Import Prelude Bytes Float64.

Abbreviation Slot := Z (only parsing).
Abbreviation Addr := Z (only parsing).

Inductive Instr :=
  (* constants *)
  | ConstInt (n : i64)
  | ConstDouble (x : f64)
  | ConstBool (b : bool)
  | ConstUnit
  | ConstStr (s : string)
  (* locals and module globals *)
  | Load (slot : Slot)
  | Store (slot : Slot)
  | GlobalGet (idx : u32)
  | GlobalSet (idx : u32)
  (* integer arithmetic and bit operations *)
  | AddI64 | SubI64 | MulI64 | DivI64 | ModI64 | NegI64
  | AndI64 | OrI64 | XorI64 | BNotI64 | ShlI64 | ShrI64 | UShrI64
  (* float arithmetic *)
  | AddF64 | SubF64 | MulF64 | DivF64 | NegF64
  (* comparisons *)
  | EqI64 | NeI64 | LtI64 | LeI64 | GtI64 | GeI64
  | EqF64 | NeF64 | LtF64 | LeF64 | GtF64 | GeF64
  (* booleans, conversions, stack *)
  | Not
  | I64ToF64 | F64ToI64
  | Pop | Dup
  (* calls *)
  | Call (func : u32) (argc : u8)
  | CallNative (native : u32) (argc : u8)
  | CallIndirect (argc : u8)
  | CallVirtual (selector : string) (argc : u8)
  (* enums *)
  | EnumNew (ty : u32) (variant : u16) (field_count : u8)
  | EnumTag
  | EnumGet (idx : u16)
  (* structs *)
  | StructNew (ty : u32)
  | FieldGet (idx : u16)
  | FieldSet (idx : u16)
  (* collections *)
  | ListNew (count : u32)
  | ListGet | ListSet | ListLen
  (* closures *)
  | ClosureNew (func : u32) (captures : u8)
  (* control *)
  | Jump (target : Addr)
  | JumpIfTrue (target : Addr)
  | JumpIfFalse (target : Addr)
  | Return.

(** Every operand is in the range of its Rust type; strings are UTF-8 and of an
    allocatable length. *)
Definition str_ok (s : string) : Prop :=
  is_utf8 s ∧ (Z.of_nat (length (as_bytes s)) ≤ isize_max)%Z.

Definition instr_ok (i : Instr) : Prop :=
  match i with
  | ConstInt n => in_i64 n
  | ConstDouble x => in_u64 x
  | ConstStr s => str_ok s
  | Load s | Store s => in_u16 s
  | GlobalGet i | GlobalSet i => in_u32 i
  | Call f n => in_u32 f ∧ in_u8 n
  | CallNative f n => in_u32 f ∧ in_u8 n
  | CallIndirect n => in_u8 n
  | CallVirtual s n => str_ok s ∧ in_u8 n
  | EnumNew ty v n => in_u32 ty ∧ in_u16 v ∧ in_u8 n
  | EnumGet i | FieldGet i | FieldSet i => in_u16 i
  | StructNew ty => in_u32 ty
  | ListNew n => in_u32 n
  | ClosureNew f n => in_u32 f ∧ in_u8 n
  | Jump t | JumpIfTrue t | JumpIfFalse t => in_u64 t
  | _ => True
  end.

#[export] Instance str_ok_dec s : Decision (str_ok s).
Proof. unfold str_ok. apply _. Defined.
#[export] Instance instr_ok_dec i : Decision (instr_ok i).
Proof. destruct i; cbn; apply _. Defined.
#[export] Instance Instr_eq_dec : EqDecision Instr.
Proof. solve_decision. Defined.
