(* ===== verification/ModuleTable.v ===== *)
(** * Compiled program structures (src/runtime/src/module.rs)

    A [Module] owns its functions, type and enum tables, and the virtual-dispatch
    table with its per-type index.  [set_dispatch] is the only writer of the
    dispatch table; [dispatch_target] is the indexed lookup of [call.virtual],
    proved equal to the flat first-match scan of the rows it replaced. *)

From Stdlib Require Import ZArith Lia.
From stdpp Require Import base numbers list strings gmap.
From S2P Require Import Prelude Bytes Instr.

Open Scope Z_scope.

(** ** Data *)

Record Function := Function_new {
  fn_name : string;
  param_count : u16;
  local_count : u16;
  code : list Instr;
}.

Record TypeDef := mkTypeDef {
  ty_name : string;
  field_count : u16;
  field_names : list string;
}.

Definition TypeDef_new (name : string) (field_count : u16) : TypeDef :=
  mkTypeDef name field_count [].

Definition TypeDef_named (name : string) (field_names : list string) : TypeDef :=
  mkTypeDef name (as_u16 (Z.of_nat (length field_names))) field_names.

Record EnumDef := EnumDef_new {
  enum_ty : u32;
  enum_name : string;
  variants : list string;
}.

Record DispatchEntry := DispatchEntry_new {
  d_ty : u32;
  selector : string;
  d_func : u32;
}.

Definition ENUM_DISPATCH_BASE : u32 := Z.shiftl 1 31.

Record Module := mkModule {
  functions : list Function;
  types : list TypeDef;
  enums : list EnumDef;
  dispatch : list DispatchEntry;
  dispatch_index : gmap Z (list u32);
  global_count : u32;
  entry : option u32;
  init : option u32;
}.

(** ** Construction *)

Definition with_types (functions : list Function) (types : list TypeDef) : Module :=
  mkModule functions types [] [] ∅ 0 None None.

Definition Module_new (functions : list Function) : Module := with_types functions [].

Definition set_enums (m : Module) (es : list EnumDef) : Module :=
  mkModule (functions m) (types m) es (dispatch m) (dispatch_index m)
    (global_count m) (entry m) (init m).
Definition set_global_count (m : Module) (n : u32) : Module :=
  mkModule (functions m) (types m) (enums m) (dispatch m) (dispatch_index m)
    n (entry m) (init m).
Definition set_entry_init (m : Module) (e i : option u32) : Module :=
  mkModule (functions m) (types m) (enums m) (dispatch m) (dispatch_index m)
    (global_count m) e i.

(** [index.entry(e.ty).or_default().push(i as u32)] *)
Definition index_push (index : gmap Z (list u32)) (ty : u32) (i : nat) : gmap Z (list u32) :=
  <[ty := push (default [] (index !! ty)) (as_u32 (Z.of_nat i))]> index.

Fixpoint build_index (i : nat) (rows : list DispatchEntry) (index : gmap Z (list u32)) :
    gmap Z (list u32) :=
  match rows with
  | [] => index
  | e :: rows' => build_index (S i) rows' (index_push index (d_ty e) i)
  end.

Definition set_dispatch (m : Module) (rows : list DispatchEntry) : Module :=
  mkModule (functions m) (types m) (enums m) rows (build_index 0 rows ∅)
    (global_count m) (entry m) (init m).

Definition dispatch_rows (m : Module) : list DispatchEntry := dispatch m.

(** ** Lookups *)

Definition enum_def (m : Module) (ty : u32) : option EnumDef :=
  snd <$> list_find (λ e, enum_ty e = ty) (enums m).

Definition function_index (m : Module) (name : string) : option nat :=
  fst <$> list_find (λ f, fn_name f = name) (functions m).

Definition entry_index (m : Module) : option nat :=
  match entry m with
  | Some i => Some (Z.to_nat i)
  | None => function_index m "main"
  end.

Definition init_index (m : Module) : option nat :=
  match init m with
  | Some i => Some (Z.to_nat i)
  | None => function_index m "<init>"
  end.

(** [iter().find_map(..)] over the rows' indices; an index past the table would
    be a Rust panic. *)
Fixpoint find_row (rows : list DispatchEntry) (sel : string) (ixs : list u32) :
    res Empty_set (option u32) :=
  match ixs with
  | [] => Ok None
  | i :: ixs' =>
      e ← or_panic (rows !! Z.to_nat i);
      if bool_decide (selector e = sel) then Ok (Some (d_func e)) else find_row rows sel ixs'
  end.

Definition dispatch_target (m : Module) (ty : u32) (sel : string) : res Empty_set (option u32) :=
  match dispatch_index m !! ty with
  | None => Ok None
  | Some ixs => find_row (dispatch m) sel ixs
  end.

(** The hasher of the index's keys: one multiplication ([write] of anything but a [u32]
    is unreachable).  [gmap] stands for the [HashMap], whose answers do not depend on it. *)
Record TypeIdHasher := mkTypeIdHasher { hash_state : u64 }.

Definition hasher_default : TypeIdHasher := mkTypeIdHasher 0.

Definition hasher_write_u32 (h : TypeIdHasher) (v : u32) : TypeIdHasher :=
  mkTypeIdHasher (as_u64 (v * 0x9E3779B97F4A7C15)).

Definition hasher_finish (h : TypeIdHasher) : u64 := hash_state h.

(** ** The reference lookup: first matching row of the table *)

Definition flat_target (rows : list DispatchEntry) (ty : u32) (sel : string) : option u32 :=
  (λ p, d_func p.2) <$> list_find (λ e, d_ty e = ty ∧ selector e = sel) rows.

(** The index agrees with the table; [set_dispatch] is what keeps it so. *)
Definition index_of (rows : list DispatchEntry) (ty : u32) : list nat :=
  filter (λ i, d_ty <$> rows !! i = Some ty) (seq 0 (length rows)).

Definition dispatch_synced (m : Module) : Prop :=
  ∀ ty, default [] (dispatch_index m !! ty) =
        (λ i, as_u32 (Z.of_nat i)) <$> index_of (dispatch m) ty.

(** ** Lemmas *)

Lemma build_index_spec rows : ∀ done index,
  (∀ ty, default [] (index !! ty) = (λ i, as_u32 (Z.of_nat i)) <$> index_of done ty) →
  ∀ ty, default [] (build_index (length done) rows index !! ty) =
        (λ i, as_u32 (Z.of_nat i)) <$> index_of (done ++ rows) ty.
Proof.
  induction rows as [|e rows IH]; intros done index Hinv ty; cbn [build_index].
  { by rewrite app_nil_r. }
  specialize (IH (done ++ [e]) (index_push index (d_ty e) (length done))).
  rewrite length_app, Nat.add_1_r, <-app_assoc in IH. apply IH. clear IH ty. intros ty.
  assert (index_of (done ++ [e]) ty =
    index_of done ty ++ if decide (d_ty e = ty) then [length done] else []) as ->.
  { unfold index_of. rewrite length_app, seq_app, filter_app. cbn [seq length Nat.add]. f_equal.
    - apply filter_iff_on. intros i Hi%elem_of_seq.
      rewrite lookup_app_l by lia. done.
    - rewrite filter_cons, lookup_app_r, Nat.sub_diag by lia. cbn.
      repeat case_decide; naive_solver. }
  unfold index_push. rewrite fmap_app, <-Hinv, lookup_insert.
  case_decide as H; simplify_eq; repeat case_decide; cbn; try done.
  by rewrite app_nil_r.
Qed.

Lemma set_dispatch_synced m rows : dispatch_synced (set_dispatch m rows).
Proof. intros ty. apply (build_index_spec rows [] ∅). intros. by rewrite lookup_empty. Qed.

(** The multiplier is odd, so it has an inverse: distinct type ids never collide. *)
Lemma type_id_hash_injective (h h' : TypeIdHasher) (v v' : u32) :
  0 ≤ v < 2 ^ 32 → 0 ≤ v' < 2 ^ 32 →
  hasher_finish (hasher_write_u32 h v) = hasher_finish (hasher_write_u32 h' v') → v = v'.
Proof.
  cbn. unfold as_u64, as_unsigned. intros Hv Hv' H.
  apply (f_equal (λ x, (x * 17428512612931826493) `mod` 2 ^ 64)) in H. cbn beta in H.
  rewrite !Zmult_mod_idemp_l, <-!Z.mul_assoc in H.
  rewrite <-(Zmult_mod_idemp_r _ v), <-(Zmult_mod_idemp_r _ v') in H.
  change ((0x9E3779B97F4A7C15 * 17428512612931826493) `mod` 2 ^ 64) with 1 in H.
  rewrite !Z.mul_1_r, !Z.mod_small in H by lia. exact H.
Qed.

(** Scanning the selected row numbers finds the first matching row. *)
Lemma find_row_filter rows ty sel : ∀ n k,
  (k + n = length rows)%nat → Z.of_nat (length rows) ≤ 2 ^ 32 →
  find_row rows sel ((λ i, as_u32 (Z.of_nat i)) <$>
    filter (λ i, d_ty <$> rows !! i = Some ty) (seq k n)) =
  Ok (flat_target (drop k rows) ty sel).
Proof.
  induction n as [|n IH]; intros k Hk Hlen; cbn [seq].
  { rewrite drop_ge by lia. done. }
  destruct (lookup_lt_is_Some_2 rows k) as [e He]; [lia|].
  rewrite (drop_S _ _ _ He). rewrite filter_cons, He. cbn [fmap option_fmap option_map].
  specialize (IH (S k) ltac:(lia) Hlen). unfold flat_target in *. cbn [list_find].
  assert (as_u32 (Z.of_nat k) = Z.of_nat k) as Hw.
  { apply as_unsigned_id. unfold in_unsigned. lia. }
  case_decide as Hty; simplify_eq.
  - cbn [fmap list_fmap find_row]. rewrite Hw, Nat2Z.id, He. cbn.
    destruct (decide (selector e = sel)) as [Hs|Hs].
    + rewrite bool_decide_true, decide_True by done. done.
    + rewrite bool_decide_false, decide_False by naive_solver. rewrite IH. cbn.
      by destruct (list_find _ (drop (S k) rows)) as [[]|].
  - rewrite decide_False by naive_solver. rewrite IH. cbn.
    by destruct (list_find _ (drop (S k) rows)) as [[]|].
Qed.

Lemma dispatch_target_flat m ty sel :
  dispatch_synced m → Z.of_nat (length (dispatch m)) ≤ 2 ^ 32 →
  dispatch_target m ty sel = Ok (flat_target (dispatch m) ty sel).
Proof.
  intros Hsync Hlen. specialize (Hsync ty). unfold dispatch_target.
  pose proof (find_row_filter (dispatch m) ty sel _ 0 eq_refl Hlen) as Hf.
  rewrite drop_0 in Hf. unfold index_of in Hsync.
  destruct (dispatch_index m !! ty) as [ixs|] eqn:E; cbn in Hsync; rewrite <-Hsync in Hf; done.
Qed.

(** C39: The per-type dispatch index is a lookup structure for the flat table: after
    [set_dispatch] with any rows (at most 2^32), [call.virtual]'s indexed lookup returns
    exactly the function of the first row with that type and selector, or nothing when
    there is none, and never panics. *)
Theorem dispatch_index_correct m rows ty sel :
  Z.of_nat (length rows) ≤ 2 ^ 32 →
  dispatch_target (set_dispatch m rows) ty sel =
    Ok ((λ p, d_func p.2) <$> list_find (λ e, d_ty e = ty ∧ selector e = sel) rows).
Proof. intros. by apply dispatch_target_flat; [apply set_dispatch_synced|]. Qed.

Lemma dispatch_index_correct_witness :
  dispatch_target (set_dispatch (Module_new [])
    [DispatchEntry_new 3 "debug" 1; DispatchEntry_new 5 "eq" 2; DispatchEntry_new 3 "eq" 4;
     DispatchEntry_new 3 "eq" 7]) 3 "eq" = Ok (Some 4).
Proof.
  exact (dispatch_index_correct (Module_new [])
    [DispatchEntry_new 3 "debug" 1; DispatchEntry_new 5 "eq" 2; DispatchEntry_new 3 "eq" 4;
     DispatchEntry_new 3 "eq" 7] 3 "eq" ltac:(cbn; lia)).
Defined.
