(* ===== verification/NativesTable.v ===== *)
(** * The native-function table (src/runtime/src/interp/natives.rs)

    The names the natives are bound by, in index order: the wire format stores a
    native's name, the loaded module its index in this table. *)

From Stdlib Require Import ZArith Lia.
From stdpp Require Import base numbers list strings.
From S2P Require Import Prelude Bytes Instr.

Open Scope Z_scope.

Definition NATIVES : list string :=
  ["println";
   "print";
   "str_concat";
   "list_index";
   "list_get";
   "list_len";
   "list_set";
   "map_new";
   "map_index";
   "map_get";
   "map_len";
   "map_has";
   "map_set";
   "eq";
   "str_len";
   "str_byte_len";
   "str_trim";
   "str_compare";
   "str_trim_start";
   "str_trim_end";
   "str_contains";
   "str_starts_with";
   "str_ends_with";
   "str_to_uppercase";
   "str_to_lowercase";
   "str_lines";
   "str_split_whitespace";
   "str_split";
   "str_slice";
   "str_chars";
   "str_bytes";
   "str_from_chars";
   "str_try_from_chars";
   "int_to_double";
   "double_to_int";
   "double_to_bits";
   "math_sqrt";
   "math_pow";
   "math_floor";
   "math_ceil";
   "math_round";
   "math_trunc";
   "math_exp";
   "math_ln";
   "math_log10";
   "math_sin";
   "math_cos";
   "math_tan";
   "math_asin";
   "math_acos";
   "math_atan";
   "math_atan2";
   "math_hypot";
   "str_to_int";
   "str_to_double";
   "fs_read_text";
   "fs_write_text";
   "fs_read_bytes";
   "fs_write_bytes";
   "fs_exists";
   "fs_list_dir";
   "fs_read_dir";
   "fs_metadata";
   "fs_symlink_metadata";
   "fs_create_dir";
   "fs_create_dir_all";
   "fs_remove";
   "fs_remove_dir_all";
   "fs_rename";
   "fs_copy";
   "fs_temp_dir";
   "fs_temp_file";
   "fs_open";
   "fs_create";
   "file_read";
   "file_write";
   "file_seek";
   "file_close";
   "time_now_millis";
   "time_monotonic_nanos";
   "time_sleep_millis";
   "random_seed_entropy";
   "env_get";
   "env_set";
   "env_vars";
   "env_args";
   "env_current_dir";
   "env_current_exe";
   "env_set_current_dir";
   "env_os";
   "env_exit";
   "term_is_tty";
   "term_size";
   "map_keys";
   "map_values";
   "map_remove";
   "map_clear";
   "list_join";
   "list_push";
   "list_pop";
   "list_clear";
   "process_run";
   "process_exec";
   "process_start";
   "process_wait";
   "process_kill";
   "process_stdin_write";
   "process_stdin_close";
   "process_stdout_read";
   "process_stderr_read";
   "bytes_len";
   "bytes_get";
   "bytes_slice";
   "bytes_concat";
   "bytes_to_string";
   "bytes_to_list";
   "bytes_empty";
   "bytes_from_list";
   "bytesbuilder_new";
   "bytesbuilder_write_u8";
   "bytesbuilder_write_bytes";
   "bytesbuilder_write_str";
   "bytesbuilder_len";
   "bytesbuilder_finish";
   "io_stdin_read";
   "io_stdout_write";
   "io_stderr_write";
   "eprintln";
   "eprint";
   "int_to_string";
   "double_to_string";
   "bool_to_string";
   "str_identity";
   "string_debug";
   "bytes_debug";
   "test_capture_begin";
   "test_capture_end";
   "fiber_spawn";
   "fiber_join";
   "fiber_yield";
   "channel_new";
   "channel_send";
   "channel_receive";
   "channel_close";
   "hash_sha256";
   "hash_sha1";
   "hash_md5";
   "hash_crc32";
   "str_byte_slice";
   "regex_compile";
   "regex_is_match";
   "regex_find";
   "regex_find_all";
   "regex_captures";
   "regex_replace";
   "regex_replace_all";
   "socket_listen";
   "socket_accept";
   "socket_connect";
   "socket_connect_finish";
   "socket_read";
   "socket_write";
   "socket_close";
   "socket_local_addr";
   "socket_peer_addr";
   "socket_resolve";
   "socket_is_ready";
   "fiber_is_done";
   "chan_is_ready";
   "select_park";
   "tls_connect";
   "tls_accept";
   "tls_handshake";
   "tls_read";
   "tls_write";
   "tls_close"]%string.

Definition native_index (name : string) : option u32 :=
  (λ p, as_u32 (Z.of_nat p.1)) <$> list_find (λ n, n = name) NATIVES.

Definition native_name (index : u32) : option string := NATIVES !! Z.to_nat index.

(** [native_idx], evaluated when the runtime is compiled: a name that is not in the table
    is a build error. *)
Definition native_idx (name : string) : option u32 :=
  (λ p, as_u32 (Z.of_nat p.1)) <$> list_find (λ n, n = name) NATIVES.

Definition NATIVE_PRINTLN : u32 := Eval vm_compute in default 0 (native_idx "println").
Definition NATIVE_PRINT : u32 := Eval vm_compute in default 0 (native_idx "print").
Definition NATIVE_INT_TO_STRING : u32 := Eval vm_compute in default 0 (native_idx "int_to_string").
Definition NATIVE_STR_CONCAT : u32 := Eval vm_compute in default 0 (native_idx "str_concat").
Definition NATIVE_LIST_INDEX : u32 := Eval vm_compute in default 0 (native_idx "list_index").
Definition NATIVE_LIST_GET : u32 := Eval vm_compute in default 0 (native_idx "list_get").
Definition NATIVE_LIST_LEN : u32 := Eval vm_compute in default 0 (native_idx "list_len").
Definition NATIVE_LIST_SET : u32 := Eval vm_compute in default 0 (native_idx "list_set").
Definition NATIVE_MAP_NEW : u32 := Eval vm_compute in default 0 (native_idx "map_new").
Definition NATIVE_MAP_INDEX : u32 := Eval vm_compute in default 0 (native_idx "map_index").
Definition NATIVE_MAP_GET : u32 := Eval vm_compute in default 0 (native_idx "map_get").
Definition NATIVE_MAP_LEN : u32 := Eval vm_compute in default 0 (native_idx "map_len").
Definition NATIVE_MAP_HAS : u32 := Eval vm_compute in default 0 (native_idx "map_has").
Definition NATIVE_MAP_SET : u32 := Eval vm_compute in default 0 (native_idx "map_set").
Definition NATIVE_EQ : u32 := Eval vm_compute in default 0 (native_idx "eq").

(** ** Lemmas *)

Lemma NATIVES_NoDup : NoDup NATIVES.
Proof. apply (bool_decide_unpack _). vm_compute. exact I. Qed.

Lemma NATIVES_str_ok : Forall str_ok NATIVES.
Proof. apply (bool_decide_unpack _). vm_compute. exact I. Qed.

(** A name resolves to the index it is the name of. *)
Lemma native_constants : native_idx <$> ["println"; "int_to_string"; "str_concat"; "eq"] =
  Some <$> [NATIVE_PRINTLN; NATIVE_INT_TO_STRING; NATIVE_STR_CONCAT; NATIVE_EQ].
Proof. vm_compute. reflexivity. Qed.

Lemma native_index_name i name :
  in_u32 i → native_name i = Some name → native_index name = Some i.
Proof.
  unfold native_name, native_index. intros [Hi0 Hi] Hn.
  assert (list_find (λ n, n = name) NATIVES = Some (Z.to_nat i, name)) as ->.
  { apply list_find_Some. split_and!; [done|done|]. intros j y Hj Hlt ->.
    pose proof (NoDup_lookup _ _ _ _ NATIVES_NoDup Hn Hj). lia. }
  cbn. f_equal. rewrite Z2Nat.id by lia. by apply as_unsigned_id.
Qed.

Lemma native_name_str_ok i name : native_name i = Some name → str_ok name.
Proof. intros H. eapply Forall_lookup_1; [apply NATIVES_str_ok|done]. Qed.

(** The native table is a bijection between indices and names: every name of the table
    resolves to the index that names it, no two indices share a name, and an index or a
    name outside the table resolves to nothing. *)
Theorem native_table_bijective :
  (∀ i name, in_u32 i → native_name i = Some name ↔ native_index name = Some i) ∧
  (∀ i, 176 ≤ i → native_name i = None) ∧ length NATIVES = 176%nat.
Proof.
  split_and!.
  - intros i name Hi. split; [by apply native_index_name|]. unfold native_index, native_name.
    intros (p & Hp & Hi')%fmap_Some. destruct p as [k n]. apply list_find_Some in Hp as (Hk & -> & _).
    cbn in Hi'. rewrite Hi'. pose proof (lookup_lt_Some _ _ _ Hk) as Hlt. change (length NATIVES) with 176%nat in Hlt.
    rewrite as_unsigned_id by (unfold in_unsigned; lia). by rewrite Nat2Z.id.
  - intros i Hi. apply lookup_ge_None. change (length NATIVES) with 176%nat. lia.
  - reflexivity.
Qed.
