(* ===== verification/Codec.v ===== *)
(** * The module codec (src/runtime/src/codec.rs)

    [encode_module] writes a module in the sectioned wire format (string pool,
    types, enums, functions, symbols, dispatch, globals, entry); [decode_module]
    reads any supported version back.  The encoder can panic (an instruction that
    names a native or a string that is not there), the decoder reports
    [DecodeError]s, and both are modelled with those outcomes.

    A count read from the input is used as [Vec::with_capacity(count)], which
    panics when the capacity in bytes exceeds [isize::MAX] (a smaller request the
    allocator refuses would abort, which is not modelled); the element sizes are
    the compiler's, collected in the class [Layout].  The element loops
    [for _ in 0..count] carry [remaining + 1] as fuel: each element reads at least
    one byte, so an honest count never runs out ([decode_module_total]). *)

From Stdlib Require Import ZArith Lia.
From stdpp Require Import base numbers list strings gmap pretty.
From S2P Require Import Prelude Bytes Float64 Serialize Instr ModuleTable NativesTable.

Open Scope Z_scope.

(** Sizes in bytes of the element types the decoder allocates vectors of. *)
Class Layout := {
  sizeof_String : Z;
  sizeof_DispatchEntry : Z;
  sizeof_TypeDef : Z;
  sizeof_EnumDef : Z;
  sizeof_Instr : Z;
}.

Definition MAGIC : list u8 := as_bytes "THERA".
Definition VERSION : u32 := 3.
Definition SUPPORTED_VERSIONS : list u32 := [2; 3].

(** Section ids. *)
Module section.
Definition FUNCTIONS : u8 := 1.
Definition CONSTANTS : u8 := 2.
Definition TYPES : u8 := 3.
Definition DISPATCH : u8 := 4.
Definition GLOBALS : u8 := 5.
Definition ENTRY : u8 := 6.
Definition SYMBOLS : u8 := 7.
Definition ENUMS : u8 := 8.
End section.

(** Opcode bytes. *)
Module op.
Definition CONST_INT : u8 := 1.
Definition CONST_DOUBLE : u8 := 2.
Definition CONST_BOOL : u8 := 3.
Definition CONST_UNIT : u8 := 4.
Definition CONST_STR : u8 := 5.
Definition LOAD : u8 := 6.
Definition STORE : u8 := 7.
Definition ADD_I64 : u8 := 8.
Definition SUB_I64 : u8 := 9.
Definition MUL_I64 : u8 := 10.
Definition DIV_I64 : u8 := 11.
Definition MOD_I64 : u8 := 12.
Definition NEG_I64 : u8 := 13.
Definition ADD_F64 : u8 := 14.
Definition SUB_F64 : u8 := 15.
Definition MUL_F64 : u8 := 16.
Definition DIV_F64 : u8 := 17.
Definition NEG_F64 : u8 := 18.
Definition EQ_I64 : u8 := 19.
Definition NE_I64 : u8 := 20.
Definition LT_I64 : u8 := 21.
Definition LE_I64 : u8 := 22.
Definition GT_I64 : u8 := 23.
Definition GE_I64 : u8 := 24.
Definition EQ_F64 : u8 := 25.
Definition NE_F64 : u8 := 26.
Definition LT_F64 : u8 := 27.
Definition LE_F64 : u8 := 28.
Definition GT_F64 : u8 := 29.
Definition GE_F64 : u8 := 30.
Definition NOT : u8 := 31.
Definition I64_TO_F64 : u8 := 32.
Definition F64_TO_I64 : u8 := 33.
Definition POP : u8 := 34.
Definition DUP : u8 := 35.
Definition CALL : u8 := 36.
Definition CALL_NATIVE : u8 := 37.
Definition ENUM_NEW : u8 := 38.
Definition ENUM_TAG : u8 := 39.
Definition ENUM_GET : u8 := 40.
Definition LIST_NEW : u8 := 41.
Definition JUMP : u8 := 42.
Definition JUMP_IF_TRUE : u8 := 43.
Definition JUMP_IF_FALSE : u8 := 44.
Definition RETURN : u8 := 45.
Definition STRUCT_NEW : u8 := 46.
Definition FIELD_GET : u8 := 47.
Definition FIELD_SET : u8 := 48.
Definition CLOSURE_NEW : u8 := 49.
Definition CALL_INDIRECT : u8 := 50.
Definition CALL_VIRTUAL : u8 := 51.
Definition LIST_GET : u8 := 52.
Definition LIST_SET : u8 := 53.
Definition AND_I64 : u8 := 54.
Definition OR_I64 : u8 := 55.
Definition XOR_I64 : u8 := 56.
Definition BNOT_I64 : u8 := 57.
Definition SHL_I64 : u8 := 58.
Definition SHR_I64 : u8 := 59.
Definition USHR_I64 : u8 := 60.
Definition LIST_LEN : u8 := 61.
Definition GLOBAL_GET : u8 := 62.
Definition GLOBAL_SET : u8 := 63.
End op.

(** ** The string pool *)

Record StringPool := mkPool { strings : list string; pool_index : gmap string u32 }.

Definition StringPool_default : StringPool := mkPool [] ∅.

Definition intern (p : StringPool) (s : string) : StringPool :=
  match pool_index p !! s with
  | Some _ => p
  | None =>
      let i := as_u32 (Z.of_nat (length (strings p))) in
      mkPool (push (strings p) s) (<[s := i]> (pool_index p))
  end.

(** The strings an instruction refers to by pool index. *)
Definition instr_string (i : Instr) : option string :=
  match i with
  | ConstStr s => Some s
  | CallVirtual sel _ => Some sel
  | CallNative n _ => native_name n
  | _ => None
  end.

Definition intern_type (p : StringPool) (t : TypeDef) : StringPool :=
  foldl intern (intern p (ty_name t)) (field_names t).
Definition intern_enum (p : StringPool) (e : EnumDef) : StringPool :=
  foldl intern (intern p (enum_name e)) (variants e).
Definition intern_instr (p : StringPool) (i : Instr) : StringPool :=
  match instr_string i with Some s => intern p s | None => p end.
Definition intern_function (p : StringPool) (f : Function) : StringPool :=
  foldl intern_instr p (code f).

(** The first pass of [encode_module]. *)
Definition intern_module (m : Module) : StringPool :=
  let p := foldl intern_type StringPool_default (types m) in
  let p := foldl intern_enum p (enums m) in
  let p := foldl intern_function p (functions m) in
  foldl (λ p e, intern p (selector e)) p (dispatch_rows m).

(** ** Encoding *)

Abbreviation encoding A := (res Empty_set A).

(** [pool.index[s]]: panics when [s] was not interned. *)
Definition pool_ref (pool : StringPool) (s : string) : encoding u64 :=
  or_panic (pool_index pool !! s).

Definition write_section (w : Writer) (id : u8) (payload : list u8) : Writer :=
  let w := write_u8 w id in
  let w := write_uvarint w (Z.of_nat (length payload)) in
  write_raw w payload.

(** [for x in xs { f(w, x) }] *)
Fixpoint write_all {A} (f : Writer → A → encoding Writer) (w : Writer) (xs : list A) :
    encoding Writer :=
  match xs with
  | [] => Ok w
  | x :: xs' => w ← f w x; write_all f w xs'
  end.

(** An opcode followed by uvarint operands. *)
Definition write_op (w : Writer) (opcode : u8) (operands : list u64) : Writer :=
  foldl write_uvarint (write_u8 w opcode) operands.

Definition encode_instr (w : Writer) (instr : Instr) (pool : StringPool) : encoding Writer :=
  match instr with
  | ConstInt n => Ok (write_ivarint (write_u8 w op.CONST_INT) n)
  | ConstDouble x => Ok (write_f64 (write_u8 w op.CONST_DOUBLE) x)
  | ConstBool b => Ok (write_u8 (write_u8 w op.CONST_BOOL) (if b then 1 else 0))
  | ConstStr s => i ← pool_ref pool s; Ok (write_op w op.CONST_STR [i])
  | Load slot => Ok (write_op w op.LOAD [slot])
  | Store slot => Ok (write_op w op.STORE [slot])
  | GlobalGet idx => Ok (write_op w op.GLOBAL_GET [idx])
  | GlobalSet idx => Ok (write_op w op.GLOBAL_SET [idx])
  | Call func argc => Ok (write_op w op.CALL [func; argc])
  | CallNative native argc =>
      name ← or_panic (native_name native);
      i ← pool_ref pool name;
      Ok (write_op w op.CALL_NATIVE [i; argc])
  | EnumNew ty variant field_count => Ok (write_op w op.ENUM_NEW [ty; variant; field_count])
  | EnumGet idx => Ok (write_op w op.ENUM_GET [idx])
  | StructNew ty => Ok (write_op w op.STRUCT_NEW [ty])
  | FieldGet idx => Ok (write_op w op.FIELD_GET [idx])
  | FieldSet idx => Ok (write_op w op.FIELD_SET [idx])
  | ListNew count => Ok (write_op w op.LIST_NEW [count])
  | ClosureNew func captures => Ok (write_op w op.CLOSURE_NEW [func; captures])
  | CallIndirect argc => Ok (write_op w op.CALL_INDIRECT [argc])
  | CallVirtual sel argc =>
      i ← pool_ref pool sel; Ok (write_op w op.CALL_VIRTUAL [i; argc])
  | Jump t => Ok (write_op w op.JUMP [t])
  | JumpIfTrue t => Ok (write_op w op.JUMP_IF_TRUE [t])
  | JumpIfFalse t => Ok (write_op w op.JUMP_IF_FALSE [t])
  | ConstUnit => Ok (write_u8 w op.CONST_UNIT)
  | AddI64 => Ok (write_u8 w op.ADD_I64)
  | SubI64 => Ok (write_u8 w op.SUB_I64)
  | MulI64 => Ok (write_u8 w op.MUL_I64)
  | DivI64 => Ok (write_u8 w op.DIV_I64)
  | ModI64 => Ok (write_u8 w op.MOD_I64)
  | NegI64 => Ok (write_u8 w op.NEG_I64)
  | AndI64 => Ok (write_u8 w op.AND_I64)
  | OrI64 => Ok (write_u8 w op.OR_I64)
  | XorI64 => Ok (write_u8 w op.XOR_I64)
  | BNotI64 => Ok (write_u8 w op.BNOT_I64)
  | ShlI64 => Ok (write_u8 w op.SHL_I64)
  | ShrI64 => Ok (write_u8 w op.SHR_I64)
  | UShrI64 => Ok (write_u8 w op.USHR_I64)
  | AddF64 => Ok (write_u8 w op.ADD_F64)
  | SubF64 => Ok (write_u8 w op.SUB_F64)
  | MulF64 => Ok (write_u8 w op.MUL_F64)
  | DivF64 => Ok (write_u8 w op.DIV_F64)
  | NegF64 => Ok (write_u8 w op.NEG_F64)
  | EqI64 => Ok (write_u8 w op.EQ_I64)
  | NeI64 => Ok (write_u8 w op.NE_I64)
  | LtI64 => Ok (write_u8 w op.LT_I64)
  | LeI64 => Ok (write_u8 w op.LE_I64)
  | GtI64 => Ok (write_u8 w op.GT_I64)
  | GeI64 => Ok (write_u8 w op.GE_I64)
  | EqF64 => Ok (write_u8 w op.EQ_F64)
  | NeF64 => Ok (write_u8 w op.NE_F64)
  | LtF64 => Ok (write_u8 w op.LT_F64)
  | LeF64 => Ok (write_u8 w op.LE_F64)
  | GtF64 => Ok (write_u8 w op.GT_F64)
  | GeF64 => Ok (write_u8 w op.GE_F64)
  | Not => Ok (write_u8 w op.NOT)
  | I64ToF64 => Ok (write_u8 w op.I64_TO_F64)
  | F64ToI64 => Ok (write_u8 w op.F64_TO_I64)
  | Pop => Ok (write_u8 w op.POP)
  | Dup => Ok (write_u8 w op.DUP)
  | EnumTag => Ok (write_u8 w op.ENUM_TAG)
  | ListGet => Ok (write_u8 w op.LIST_GET)
  | ListSet => Ok (write_u8 w op.LIST_SET)
  | ListLen => Ok (write_u8 w op.LIST_LEN)
  | Return => Ok (write_u8 w op.RETURN)
  end.

Definition encode_function (w : Writer) (f : Function) (pool : StringPool) : encoding Writer :=
  let w := write_uvarint w (param_count f) in
  let w := write_uvarint w (local_count f) in
  let w := write_uvarint w (Z.of_nat (length (code f))) in
  write_all (λ w i, encode_instr w i pool) w (code f).

(** The uvarint pool index of a string. *)
Definition write_pool_ref (pool : StringPool) (w : Writer) (s : string) : encoding Writer :=
  i ← pool_ref pool s; Ok (write_uvarint w i).

Definition encode_type (pool : StringPool) (w : Writer) (t : TypeDef) : encoding Writer :=
  w ← write_pool_ref pool w (ty_name t);
  let w := write_uvarint w (field_count t) in
  let w := write_uvarint w (Z.of_nat (length (field_names t))) in
  write_all (write_pool_ref pool) w (field_names t).

Definition encode_enum (pool : StringPool) (w : Writer) (e : EnumDef) : encoding Writer :=
  let w := write_uvarint w (enum_ty e) in
  w ← write_pool_ref pool w (enum_name e);
  let w := write_uvarint w (Z.of_nat (length (variants e))) in
  write_all (write_pool_ref pool) w (variants e).

Definition encode_dispatch (pool : StringPool) (w : Writer) (e : DispatchEntry) :
    encoding Writer :=
  let w := write_uvarint w (d_ty e) in
  w ← write_pool_ref pool w (selector e);
  Ok (write_uvarint w (d_func e)).

(** A counted table: its length, then its rows. *)
Definition write_table {A} (f : Writer → A → encoding Writer) (xs : list A) : encoding Writer :=
  write_all f (write_uvarint Writer_new (Z.of_nat (length xs))) xs.

(** [m.entry.or_else(|| m.function_index(name).map(|i| i as u32))] *)
Definition or_function (o : option u32) (m : Module) (name : string) : option u32 :=
  match o with
  | Some i => Some i
  | None => (λ i, as_u32 (Z.of_nat i)) <$> function_index m name
  end.

(** [o.map_or(0, |i| i + 1)] in [u32]. *)
Definition opt_index_plus1 (o : option u32) : u32 :=
  match o with None => 0 | Some i => as_u32 (i + 1) end.

(** The section is left out unless [b]. *)
Definition write_section_if (b : bool) (w : Writer) (id : u8) (payload : list u8) : Writer :=
  if b then write_section w id payload else w.

Definition is_nil {A} (l : list A) : bool := match l with [] => true | _ => false end.

Definition encode_module (m : Module) : encoding (list u8) :=
  let pool := intern_module m in
  consts ← write_table (λ w s, Ok (write_str w s)) (strings pool);
  types_ ← write_table (encode_type pool) (types m);
  enums_ ← write_table (encode_enum pool) (enums m);
  funcs ← write_table (λ w f, encode_function w f pool) (functions m);
  symbols ← write_table (λ w f, Ok (write_str w (fn_name f))) (functions m);
  let entry_ := or_function (entry m) m "main" in
  let init_ := or_function (init m) m "<init>" in
  dispatch_ ← write_table (encode_dispatch pool) (dispatch_rows m);
  let w := write_raw Writer_new MAGIC in
  let w := write_u32_le w VERSION in
  let w := write_section w section.CONSTANTS (into_bytes consts) in
  let w := write_section w section.TYPES (into_bytes types_) in
  let w := write_section_if (negb (is_nil (enums m))) w section.ENUMS (into_bytes enums_) in
  let w := write_section w section.FUNCTIONS (into_bytes funcs) in
  let w := write_section w section.SYMBOLS (into_bytes symbols) in
  let w := write_section_if (negb (is_nil (dispatch_rows m))) w
             section.DISPATCH (into_bytes dispatch_) in
  let w := write_section_if (0 <? global_count m) w section.GLOBALS
             (into_bytes (write_uvarint Writer_new (global_count m))) in
  let e := write_uvarint Writer_new (opt_index_plus1 entry_) in
  let e := write_uvarint e (opt_index_plus1 init_) in
  let w := write_section_if (bool_decide (is_Some entry_) || bool_decide (is_Some init_)) w
             section.ENTRY (into_bytes e) in
  Ok (into_bytes w).

(** ** Decoding *)

Section decode.
Context `{Layout}.

Definition with_capacity (size : Z) (count : usize) : res DecodeError unit :=
  if size * count <=? isize_max then Ok tt else Panic.

(** [for _ in 0..count { xs.push(f(r)?) }] *)
Fixpoint read_n {A} (fuel : nat) (count : u64) (f : decoder A) : decoder (list A) := λ r,
  if count <=? 0 then Ok ([], r) else
  match fuel with
  | O => NoFuel
  | S fuel' =>
      '(x, r) ← f r;
      '(xs, r) ← read_n fuel' (count - 1) f r;
      Ok (x :: xs, r)
  end.

Definition read_many {A} (count : u64) (f : decoder A) : decoder (list A) := λ r,
  read_n (S (remaining r)) count f r.

(** A count, the vector's allocation, the elements. *)
Definition read_vec {A} (size : Z) (f : decoder A) : decoder (list A) := λ r,
  '(count, r) ← read_uvarint r;
  _ ← with_capacity size count;
  read_many count f r.

(** [pool.get(idx).ok_or(ConstIndexOutOfRange)?] *)
Definition pool_get (pool : list string) (idx : u64) : res DecodeError string :=
  if idx <? Z.of_nat (length pool)
  then ok_or (pool !! Z.to_nat idx) ConstIndexOutOfRange
  else Err ConstIndexOutOfRange.

Definition read_pool_ref (pool : list string) : decoder string := λ r,
  '(idx, r) ← read_uvarint r;
  s ← pool_get pool idx;
  Ok (s, r).

Definition decode_instr (pool : list string) : decoder Instr := λ r,
  '(opcode, r) ← read_u8 r;
  let operand1 (f : Z → Instr) := '(a, r) ← read_uvarint r; Ok (f a, r) in
  if opcode =? op.CONST_INT then '(n, r) ← read_ivarint r; Ok (ConstInt n, r) else
  if opcode =? op.CONST_DOUBLE then '(x, r) ← read_f64 r; Ok (ConstDouble x, r) else
  if opcode =? op.CONST_BOOL then '(b, r) ← read_u8 r; Ok (ConstBool (negb (b =? 0)), r) else
  if opcode =? op.CONST_STR then '(s, r) ← read_pool_ref pool r; Ok (ConstStr s, r) else
  if opcode =? op.LOAD then operand1 (λ a, Load (as_u16 a)) else
  if opcode =? op.STORE then operand1 (λ a, Store (as_u16 a)) else
  if opcode =? op.GLOBAL_GET then operand1 (λ a, GlobalGet (as_u32 a)) else
  if opcode =? op.GLOBAL_SET then operand1 (λ a, GlobalSet (as_u32 a)) else
  if opcode =? op.CALL then
    '(func, r) ← read_uvarint r; '(argc, r) ← read_uvarint r;
    Ok (Call (as_u32 func) (as_u8 argc), r) else
  if opcode =? op.CALL_NATIVE then
    '(name, r) ← read_pool_ref pool r;
    native ← ok_or (native_index name) (UnknownNative name);
    '(argc, r) ← read_uvarint r;
    Ok (CallNative native (as_u8 argc), r) else
  if opcode =? op.ENUM_NEW then
    '(ty, r) ← read_uvarint r; '(variant, r) ← read_uvarint r; '(n, r) ← read_uvarint r;
    Ok (EnumNew (as_u32 ty) (as_u16 variant) (as_u8 n), r) else
  if opcode =? op.ENUM_GET then operand1 (λ a, EnumGet (as_u16 a)) else
  if opcode =? op.STRUCT_NEW then operand1 (λ a, StructNew (as_u32 a)) else
  if opcode =? op.FIELD_GET then operand1 (λ a, FieldGet (as_u16 a)) else
  if opcode =? op.FIELD_SET then operand1 (λ a, FieldSet (as_u16 a)) else
  if opcode =? op.LIST_NEW then operand1 (λ a, ListNew (as_u32 a)) else
  if opcode =? op.CLOSURE_NEW then
    '(func, r) ← read_uvarint r; '(n, r) ← read_uvarint r;
    Ok (ClosureNew (as_u32 func) (as_u8 n), r) else
  if opcode =? op.CALL_INDIRECT then operand1 (λ a, CallIndirect (as_u8 a)) else
  if opcode =? op.CALL_VIRTUAL then
    '(sel, r) ← read_pool_ref pool r; '(argc, r) ← read_uvarint r;
    Ok (CallVirtual sel (as_u8 argc), r) else
  if opcode =? op.JUMP then operand1 Jump else
  if opcode =? op.JUMP_IF_TRUE then operand1 JumpIfTrue else
  if opcode =? op.JUMP_IF_FALSE then operand1 JumpIfFalse else
  if opcode =? op.CONST_UNIT then Ok (ConstUnit, r) else
  if opcode =? op.ADD_I64 then Ok (AddI64, r) else
  if opcode =? op.SUB_I64 then Ok (SubI64, r) else
  if opcode =? op.MUL_I64 then Ok (MulI64, r) else
  if opcode =? op.DIV_I64 then Ok (DivI64, r) else
  if opcode =? op.MOD_I64 then Ok (ModI64, r) else
  if opcode =? op.NEG_I64 then Ok (NegI64, r) else
  if opcode =? op.AND_I64 then Ok (AndI64, r) else
  if opcode =? op.OR_I64 then Ok (OrI64, r) else
  if opcode =? op.XOR_I64 then Ok (XorI64, r) else
  if opcode =? op.BNOT_I64 then Ok (BNotI64, r) else
  if opcode =? op.SHL_I64 then Ok (ShlI64, r) else
  if opcode =? op.SHR_I64 then Ok (ShrI64, r) else
  if opcode =? op.USHR_I64 then Ok (UShrI64, r) else
  if opcode =? op.ADD_F64 then Ok (AddF64, r) else
  if opcode =? op.SUB_F64 then Ok (SubF64, r) else
  if opcode =? op.MUL_F64 then Ok (MulF64, r) else
  if opcode =? op.DIV_F64 then Ok (DivF64, r) else
  if opcode =? op.NEG_F64 then Ok (NegF64, r) else
  if opcode =? op.EQ_I64 then Ok (EqI64, r) else
  if opcode =? op.NE_I64 then Ok (NeI64, r) else
  if opcode =? op.LT_I64 then Ok (LtI64, r) else
  if opcode =? op.LE_I64 then Ok (LeI64, r) else
  if opcode =? op.GT_I64 then Ok (GtI64, r) else
  if opcode =? op.GE_I64 then Ok (GeI64, r) else
  if opcode =? op.EQ_F64 then Ok (EqF64, r) else
  if opcode =? op.NE_F64 then Ok (NeF64, r) else
  if opcode =? op.LT_F64 then Ok (LtF64, r) else
  if opcode =? op.LE_F64 then Ok (LeF64, r) else
  if opcode =? op.GT_F64 then Ok (GtF64, r) else
  if opcode =? op.GE_F64 then Ok (GeF64, r) else
  if opcode =? op.NOT then Ok (Not, r) else
  if opcode =? op.I64_TO_F64 then Ok (I64ToF64, r) else
  if opcode =? op.F64_TO_I64 then Ok (F64ToI64, r) else
  if opcode =? op.POP then Ok (Pop, r) else
  if opcode =? op.DUP then Ok (Dup, r) else
  if opcode =? op.ENUM_TAG then Ok (EnumTag, r) else
  if opcode =? op.LIST_GET then Ok (ListGet, r) else
  if opcode =? op.LIST_SET then Ok (ListSet, r) else
  if opcode =? op.LIST_LEN then Ok (ListLen, r) else
  if opcode =? op.RETURN then Ok (Return, r) else
  Err (UnknownOpcode opcode).

Definition decode_function (pool : list string) : decoder Function := λ r,
  '(params, r) ← read_uvarint r;
  '(locals, r) ← read_uvarint r;
  '(body, r) ← read_vec sizeof_Instr (decode_instr pool) r;
  Ok (Function_new "" (as_u16 params) (as_u16 locals) body, r).

Definition decode_symbols (payload : list u8) : res DecodeError (list string) :=
  fst <$> read_vec sizeof_String read_str (Reader_new payload).

Definition decode_pool (payload : list u8) : res DecodeError (list string) :=
  fst <$> read_vec sizeof_String read_str (Reader_new payload).

Definition decode_dispatch_row (pool : list string) : decoder DispatchEntry := λ r,
  '(ty, r) ← read_uvarint r;
  '(sel, r) ← read_pool_ref pool r;
  '(func, r) ← read_uvarint r;
  Ok (DispatchEntry_new (as_u32 ty) sel (as_u32 func), r).

Definition decode_dispatch (payload : list u8) (pool : list string) :
    res DecodeError (list DispatchEntry) :=
  fst <$> read_vec sizeof_DispatchEntry (decode_dispatch_row pool) (Reader_new payload).

Definition decode_type (pool : list string) (version : u32) : decoder TypeDef := λ r,
  '(name, r) ← read_pool_ref pool r;
  '(fc, r) ← read_uvarint r;
  if version <? 3 then Ok (TypeDef_new name (as_u16 fc), r) else
  '(names, r) ← read_vec sizeof_String (read_pool_ref pool) r;
  Ok (if is_nil names then TypeDef_new name (as_u16 fc) else TypeDef_named name names, r).

Definition decode_types (payload : list u8) (pool : list string) (version : u32) :
    res DecodeError (list TypeDef) :=
  fst <$> read_vec sizeof_TypeDef (decode_type pool version) (Reader_new payload).

Definition decode_enum (pool : list string) : decoder EnumDef := λ r,
  '(ty, r) ← read_uvarint r;
  '(name, r) ← read_pool_ref pool r;
  '(vs, r) ← read_vec sizeof_String (read_pool_ref pool) r;
  Ok (EnumDef_new (as_u32 ty) name vs, r).

Definition decode_enums (payload : list u8) (pool : list string) :
    res DecodeError (list EnumDef) :=
  fst <$> read_vec sizeof_EnumDef (decode_enum pool) (Reader_new payload).

(** The Functions section: a count and bodies, pushed onto [Vec::new()]. *)
Definition decode_functions (payload : list u8) (pool : list string) :
    res DecodeError (list Function) :=
  '(count, r) ← read_uvarint (Reader_new payload);
  fst <$> read_many count (decode_function pool) r.

Definition decode_opt_index (raw : u64) : option u32 :=
  if raw =? 0 then None else Some (as_u32 (raw - 1)).

(** The section payloads found so far; a repeated section overwrites. *)
Record Payloads := mkPayloads {
  consts_payload : option (list u8);
  types_payload : option (list u8);
  enums_payload : option (list u8);
  funcs_payload : option (list u8);
  symbols_payload : option (list u8);
  dispatch_payload : option (list u8);
  globals_payload : option (list u8);
  entry_payload : option (list u8);
}.

Definition no_payloads : Payloads := mkPayloads None None None None None None None None.

Definition set_payload (id : u8) (p : list u8) (ps : Payloads) : Payloads :=
  let 'mkPayloads c t e f s d g n := ps in
  if id =? section.CONSTANTS then mkPayloads (Some p) t e f s d g n else
  if id =? section.TYPES then mkPayloads c (Some p) e f s d g n else
  if id =? section.ENUMS then mkPayloads c t (Some p) f s d g n else
  if id =? section.FUNCTIONS then mkPayloads c t e (Some p) s d g n else
  if id =? section.SYMBOLS then mkPayloads c t e f (Some p) d g n else
  if id =? section.DISPATCH then mkPayloads c t e f s (Some p) g n else
  if id =? section.GLOBALS then mkPayloads c t e f s d (Some p) n else
  if id =? section.ENTRY then mkPayloads c t e f s d g (Some p) else ps.

(** [while !r.is_empty() { .. }] *)
Fixpoint collect_sections (fuel : nat) (r : Reader) (ps : Payloads) :
    res DecodeError Payloads :=
  if is_empty r then Ok ps else
  match fuel with
  | O => NoFuel
  | S fuel' =>
      '(id, r) ← read_u8 r;
      '(len, r) ← read_uvarint r;
      '(payload, r) ← read_raw len r;
      collect_sections fuel' r (set_payload id payload ps)
  end.

(** Run [f] on a section's payload, or take [d] when it is absent. *)
Definition on_payload {A} (p : option (list u8)) (d : A) (f : list u8 → res DecodeError A) :
    res DecodeError A :=
  match p with Some b => f b | None => Ok d end.

(** [symbols.get(i).cloned().unwrap_or_else(|| format!("fn#{i}"))] *)
Definition symbol_name (symbols : list string) (i : nat) : string :=
  default ("fn#" +:+ pretty i)%string (symbols !! i).

Definition name_functions (symbols : list string) (fs : list Function) : list Function :=
  imap (λ i f, Function_new (symbol_name symbols i) (param_count f) (local_count f) (code f)) fs.

Definition decode_header : decoder u32 := λ r,
  '(magic, r) ← read_raw (Z.of_nat (length MAGIC)) r;
  if bool_decide (magic = MAGIC) then
    '(version, r) ← read_u32_le r;
    if bool_decide (version ∈ SUPPORTED_VERSIONS) then Ok (version, r)
    else Err (UnsupportedVersion version)
  else Err BadMagic.

(** The second half of [decode_module]: the sections found, decoded in order. *)
Definition decode_payloads (version : u32) (ps : Payloads) : res DecodeError Module :=
  pool ← on_payload (consts_payload ps) [] decode_pool;
  types_ ← on_payload (types_payload ps) [] (λ p, decode_types p pool version);
  functions_ ← on_payload (funcs_payload ps) [] (λ p, decode_functions p pool);
  symbols ← on_payload (symbols_payload ps) [] decode_symbols;
  let m := with_types (name_functions symbols functions_) types_ in
  m ← on_payload (enums_payload ps) m (λ p, set_enums m <$> decode_enums p pool);
  m ← on_payload (dispatch_payload ps) m (λ p, set_dispatch m <$> decode_dispatch p pool);
  m ← on_payload (globals_payload ps) m (λ p,
        '(n, _) ← read_uvarint (Reader_new p); Ok (set_global_count m (as_u32 n)));
  on_payload (entry_payload ps) m (λ p,
    '(e, er) ← read_uvarint (Reader_new p);
    '(i, _) ← read_uvarint er;
    Ok (set_entry_init m (decode_opt_index e) (decode_opt_index i))).

Definition decode_module (bytes : list u8) : res DecodeError Module :=
  '(version, r) ← decode_header (Reader_new bytes);
  ps ← collect_sections (remaining r) r no_payloads;
  decode_payloads version ps.
End decode.
