(* ===== verification/CodecProofs.v ===== *)
(** * The codec round trip and the decoder's totality

    [module_ok] is what a module built by Rust code satisfies (operands in their
    widths, strings UTF-8, vectors allocatable, known natives, an in-sync dispatch
    index).  For such a module the encoder succeeds and the decoder returns the
    module with its entry points resolved; on arbitrary bytes the decoder always
    runs to a verdict. *)

From Stdlib Require Import ZArith Lia.
From stdpp Require Import base numbers list strings gmap pretty.
From S2P Require Import Prelude Bytes Float64 Serialize Instr ModuleTable NativesTable Codec.

Open Scope Z_scope.

(** ** Well-formed modules *)

Section wf.
Context `{Layout}.

Definition vec_ok {A} (size : Z) (l : list A) : Prop :=
  size * Z.of_nat (length l) ≤ isize_max ∧ Z.of_nat (length l) ≤ isize_max.

Definition native_known (i : Instr) : Prop :=
  match i with CallNative n _ => is_Some (native_name n) | _ => True end.

Definition function_ok (f : Function) : Prop :=
  str_ok (fn_name f) ∧ in_u16 (param_count f) ∧ in_u16 (local_count f) ∧
  vec_ok sizeof_Instr (code f) ∧ Forall (λ i, instr_ok i ∧ native_known i) (code f).

Definition type_ok (t : TypeDef) : Prop :=
  str_ok (ty_name t) ∧ in_u16 (field_count t) ∧ Forall str_ok (field_names t) ∧
  vec_ok sizeof_String (field_names t) ∧
  (field_names t = [] ∨ field_count t = Z.of_nat (length (field_names t))).

Definition enum_ok (e : EnumDef) : Prop :=
  in_u32 (enum_ty e) ∧ str_ok (enum_name e) ∧ Forall str_ok (variants e) ∧
  vec_ok sizeof_String (variants e).

Definition dispatch_ok (e : DispatchEntry) : Prop :=
  in_u32 (d_ty e) ∧ str_ok (selector e) ∧ in_u32 (d_func e).

(** An optional function index whose successor still is a [u32]. *)
Definition opt_index_ok (o : option u32) : Prop :=
  match o with None => True | Some i => 0 ≤ i < 2 ^ 32 - 1 end.

Record module_ok (m : Module) : Prop := {
  ok_functions : Forall function_ok (functions m);
  ok_function_count : Z.of_nat (length (functions m)) < 2 ^ 32 - 1;
  ok_symbols : vec_ok sizeof_String (functions m);
  ok_types : Forall type_ok (types m);
  ok_types_vec : vec_ok sizeof_TypeDef (types m);
  ok_enums : Forall enum_ok (enums m);
  ok_enums_vec : vec_ok sizeof_EnumDef (enums m);
  ok_dispatch : Forall dispatch_ok (dispatch m);
  ok_dispatch_vec : vec_ok sizeof_DispatchEntry (dispatch m);
  ok_dispatch_index : dispatch_index m = build_index 0 (dispatch m) ∅;
  ok_globals : in_u32 (global_count m);
  ok_entry : opt_index_ok (entry m);
  ok_init : opt_index_ok (init m);
  ok_pool : vec_ok sizeof_String (strings (intern_module m));
  ok_pool_size : Z.of_nat (length (strings (intern_module m))) ≤ 2 ^ 32;
}.

#[export] Instance vec_ok_dec {A} size (l : list A) : Decision (vec_ok size l).
Proof. unfold vec_ok. apply _. Defined.
#[export] Instance native_known_dec i : Decision (native_known i).
Proof. destruct i; cbn; apply _. Defined.
#[export] Instance function_ok_dec f : Decision (function_ok f).
Proof. unfold function_ok. apply _. Defined.
#[export] Instance type_ok_dec t : Decision (type_ok t).
Proof. unfold type_ok. apply _. Defined.
#[export] Instance enum_ok_dec e : Decision (enum_ok e).
Proof. unfold enum_ok. apply _. Defined.
#[export] Instance dispatch_ok_dec e : Decision (dispatch_ok e).
Proof. unfold dispatch_ok. apply _. Defined.
#[export] Instance opt_index_ok_dec o : Decision (opt_index_ok o).
Proof. destruct o; cbn; apply _. Defined.

(** What the decoder hands back: the entry points the encoder looked up by name. *)
Definition resolve_entries (m : Module) : Module :=
  set_entry_init m (or_function (entry m) m "main") (or_function (init m) m "<init>").

(** ** Round trips of one element *)

Definition roundtrips {A B} (enc : Writer → A → encoding Writer) (dec : decoder B)
    (x : A) (y : B) : Prop :=
  ∃ b, (1 ≤ length b)%nat ∧ (∀ w, enc w x = Ok (mkWriter (buf w ++ b))) ∧ decodes dec b y.

Lemma write_op_app w o l : write_op w o l = mkWriter (buf w ++ o :: concat (uvarint <$> l)).
Proof.
  unfold write_op. change (o :: concat (uvarint <$> l)) with ([o] ++ concat (uvarint <$> l)).
  rewrite app_assoc. change (buf w ++ [o]) with (buf (write_u8 w o)).
  generalize (write_u8 w o). clear w o. induction l as [|v l IH]; intros w; cbn [foldl].
  - cbn. rewrite app_nil_r. by destruct w.
  - rewrite IH, buf_write_uvarint, <-app_assoc. done.
Qed.

Lemma write_uvarint_eq w v : write_uvarint w v = mkWriter (buf w ++ uvarint v).
Proof. rewrite <-buf_write_uvarint. by destruct (write_uvarint w v). Qed.

Lemma write_str_eq w s : write_str w s = mkWriter (buf w ++ str_bytes s).
Proof. rewrite <-buf_write_str. by destruct (write_str w s). Qed.

Lemma write_ivarint_eq w v : write_ivarint w v = mkWriter (buf w ++ ivarint v).
Proof. rewrite <-buf_write_ivarint. by destruct (write_ivarint w v). Qed.

Lemma write_section_eq w id p :
  write_section w id p = mkWriter (buf w ++ id :: uvarint (Z.of_nat (length p)) ++ p).
Proof.
  unfold write_section. rewrite write_uvarint_eq. unfold write_raw. cbn. unfold push.
  by rewrite <-!app_assoc.
Qed.

(** *** Sequences of elements *)

Lemma read_n_zero {A} fuel (f : decoder A) r : read_n fuel 0 f r = Ok ([], r).
Proof. by destruct fuel. Qed.

Lemma list_roundtrips {A B} (enc : Writer → A → encoding Writer) (dec : decoder B) xs ys :
  Forall2 (roundtrips enc dec) xs ys →
  ∃ b, (length xs ≤ length b)%nat ∧
    (∀ w, write_all enc w xs = Ok (mkWriter (buf w ++ b))) ∧
    (∀ fuel, (length xs ≤ fuel)%nat →
      decodes (read_n fuel (Z.of_nat (length xs)) dec) b ys).
Proof.
  induction 1 as [|x y xs ys (b & Hb & He & Hd) _ (bs & Hbs & Hes & Hds)].
  { exists []. split_and!; [done| |].
    - intros []. cbn. by rewrite app_nil_r.
    - intros fuel _. eapply decodes_ext; [intros; apply read_n_zero|apply decodes_ret]. }
  exists (b ++ bs). rewrite length_app. split_and!; [cbn; lia| |].
  - intros w. cbn. rewrite He. cbn. rewrite Hes. cbn. by rewrite <-app_assoc.
  - intros [|fuel] Hfuel; [cbn in *; lia|]. eapply decodes_ext.
    { intros r. cbn [read_n]. rewrite (proj2 (Z.leb_gt _ 0)) by (cbn; lia). reflexivity. }
    eapply (decodes_bind dec); [exact Hd|]. cbn beta.
    replace (Z.of_nat (length (x :: xs)) - 1) with (Z.of_nat (length xs)) by (cbn; lia).
    apply (decodes_map _ (cons y)). apply Hds. cbn in *; lia.
Qed.

Lemma read_many_decodes {A} (f : decoder A) n b ys :
  (n ≤ length b)%nat →
  (∀ fuel, (n ≤ fuel)%nat → decodes (read_n fuel (Z.of_nat n) f) b ys) →
  decodes (read_many (Z.of_nat n) f) b ys.
Proof.
  intros Hn Hd pre post Hlen. unfold read_many. apply Hd; [|done].
  unfold remaining. cbn. rewrite !length_app. lia.
Qed.

Lemma with_capacity_ok {A} size (l : list A) :
  vec_ok size l → with_capacity size (Z.of_nat (length l)) = Ok tt.
Proof. intros [Hs _]. unfold with_capacity. by rewrite (proj2 (Z.leb_le _ _)). Qed.

Lemma length_in_u64 {A} size (l : list A) : vec_ok size l → in_u64 (Z.of_nat (length l)).
Proof. intros [_ Hl]. unfold in_unsigned, isize_max in *. lia. Qed.

(** A counted vector inside a row. *)
Lemma vec_roundtrips {A B} size (enc : Writer → A → encoding Writer) (dec : decoder B) xs ys :
  vec_ok size xs → Forall2 (roundtrips enc dec) xs ys →
  roundtrips (λ w xs, write_all enc (write_uvarint w (Z.of_nat (length xs))) xs)
             (read_vec size dec) xs ys.
Proof.
  intros Hv (b & Hb & He & Hd)%list_roundtrips.
  exists (uvarint (Z.of_nat (length xs)) ++ b). pose proof (uvarint_nonempty (Z.of_nat (length xs))).
  rewrite length_app. split_and!; [lia| |].
  - intros w. rewrite He, buf_write_uvarint. by rewrite <-app_assoc.
  - eapply (decodes_bind read_uvarint).
    + apply read_uvarint_decodes. by eapply length_in_u64.
    + rewrite with_capacity_ok by done. cbn. by apply read_many_decodes.
Qed.

(** ** The string pool *)

Definition in_pool (pool : StringPool) (s : string) : Prop :=
  ∃ i, pool_index pool !! s = Some i ∧ in_u32 i ∧ strings pool !! Z.to_nat i = Some s.

(** What every pool the encoder builds satisfies, as long as it stays small
    enough for [u32] indices. *)
Definition pool_wf (p : StringPool) : Prop :=
  Z.of_nat (length (strings p)) ≤ 2 ^ 32 →
  ∀ s, is_Some (pool_index p !! s) → in_pool p s.

Definition pool_le (p q : StringPool) : Prop :=
  strings p `prefix_of` strings q ∧
  ∀ s, is_Some (pool_index p !! s) → is_Some (pool_index q !! s).

#[local] Instance pool_le_preorder : PreOrder pool_le.
Proof.
  split.
  - intros p. done.
  - intros p q r [? Hpq] [? Hqr]. split; [by etrans|auto].
Qed.

Lemma intern_le p s : pool_le p (intern p s).
Proof.
  unfold intern. destruct (pool_index p !! s) eqn:E; [done|]. split; cbn.
  - by apply prefix_app_r.
  - intros t Ht. rewrite lookup_insert. case_decide; [by eexists|done].
Qed.

Lemma intern_has p s : is_Some (pool_index (intern p s) !! s).
Proof.
  unfold intern. destruct (pool_index p !! s) eqn:E; [by rewrite E|]. cbn.
  rewrite lookup_insert_eq. by eexists.
Qed.

Lemma intern_wf p s : pool_wf p → pool_wf (intern p s).
Proof.
  unfold intern. destruct (pool_index p !! s) as [|] eqn:E; [done|].
  intros Hp Hlen t. cbn in *. unfold push in *. rewrite length_app in Hlen. cbn in Hlen.
  unfold in_pool; cbn. destruct (decide (s = t)) as [->|Hne].
  - rewrite lookup_insert_eq. intros _. eexists. split; [done|].
    rewrite as_unsigned_id by (unfold in_unsigned; lia). rewrite Nat2Z.id.
    split; [unfold in_unsigned; lia|]. by rewrite list_lookup_middle.
  - rewrite lookup_insert_ne by done. intros Ht.
    destruct (Hp ltac:(lia) t Ht) as (i & Hi & Hr & Hs). exists i. split_and!; [done..|].
    by apply lookup_app_l_Some.
Qed.

Lemma intern_strings (P : string → Prop) p s :
  Forall P (strings p) → P s → Forall P (strings (intern p s)).
Proof.
  intros Hp Hs. unfold intern. destruct (pool_index p !! s); [done|]. cbn.
  unfold push. rewrite Forall_app. auto.
Qed.

(** Folding an operation over a table keeps what each step keeps, and what a
    step adds stays. *)
Lemma foldl_inv {A B} (P : A → Prop) (f : A → B → A) xs : ∀ a,
  P a → (∀ a x, x ∈ xs → P a → P (f a x)) → P (foldl f a xs).
Proof.
  induction xs as [|x xs IH]; intros a Ha Hf; cbn; [done|].
  apply IH; [apply Hf; set_solver|]. intros; apply Hf; set_solver.
Qed.

Lemma foldl_le {A B} (R : relation A) `{!PreOrder R} (f : A → B → A) xs a :
  (∀ a x, R a (f a x)) → R a (foldl f a xs).
Proof.
  intros Hf. apply (foldl_inv (R a)); [reflexivity|]. intros b x _ Hb. etransitivity; eauto.
Qed.

Lemma foldl_elem_le {A B} (R : relation A) `{!PreOrder R} (f : A → B → A) xs x : ∀ a,
  (∀ a x, R a (f a x)) → x ∈ xs → ∃ b, R (f b x) (foldl f a xs).
Proof.
  induction xs as [|y xs IH]; intros a Hf Hx; [by apply elem_of_nil in Hx|].
  apply elem_of_cons in Hx as [->|Hx]; cbn; [|by apply IH].
  exists a. by apply foldl_le.
Qed.

(** The strings of a module in the order the first pass meets them. *)
Definition module_strings (m : Module) : list string :=
  (types m ≫= λ t, ty_name t :: field_names t) ++
  (enums m ≫= λ e, enum_name e :: variants e) ++
  (functions m ≫= λ f, omap instr_string (code f)) ++
  (selector <$> dispatch_rows m).

Lemma foldl_bind {A B} (f : A → string → A) (g : B → list string) xs : ∀ a,
  foldl (λ a x, foldl f a (g x)) a xs = foldl f a (xs ≫= g).
Proof. induction xs as [|x xs IH]; intros a; cbn; [done|]. by rewrite IH, foldl_app. Qed.

Lemma intern_function_strings p f :
  intern_function p f = foldl intern p (omap instr_string (code f)).
Proof.
  unfold intern_function. revert p. induction (code f) as [|i c IH]; intros p; [done|].
  cbn [foldl omap list_omap]. rewrite IH. unfold intern_instr. by destruct (instr_string i).
Qed.

Lemma intern_module_strings m :
  intern_module m = foldl intern StringPool_default (module_strings m).
Proof.
  unfold intern_module, module_strings. rewrite !foldl_app, <-!foldl_bind, foldl_fmap.
  f_equal. change intern_type with (λ p t, foldl intern p (ty_name t :: field_names t)).
  change intern_enum with (λ p e, foldl intern p (enum_name e :: variants e)).
  generalize (foldl (λ p e, foldl intern p (enum_name e :: variants e))
    (foldl (λ p t, foldl intern p (ty_name t :: field_names t)) StringPool_default (types m))
    (enums m)).
  induction (functions m) as [|f fs IH]; intros p; [done|].
  cbn [foldl]. by rewrite intern_function_strings, IH.
Qed.

Lemma intern_module_has m s :
  Z.of_nat (length (strings (intern_module m))) ≤ 2 ^ 32 →
  s ∈ module_strings m → in_pool (intern_module m) s.
Proof.
  intros Hlen Hs. rewrite intern_module_strings in *.
  assert (pool_wf (foldl intern StringPool_default (module_strings m))) as Hwf.
  { apply foldl_inv; [|intros; by apply intern_wf]. intros _ t [i Hi]. done. }
  apply Hwf; [done|].
  destruct (foldl_elem_le pool_le intern (module_strings m) s StringPool_default
    intern_le Hs) as [b [_ Hb]]. apply Hb, intern_has.
Qed.

Lemma module_strings_ok m : module_ok m → Forall str_ok (module_strings m).
Proof.
  intros Hm. unfold module_strings. rewrite !Forall_app, !Forall_bind, Forall_fmap. split_and!.
  - eapply Forall_impl; [apply (ok_types m Hm)|]. intros t (?&_&?&_). by constructor.
  - eapply Forall_impl; [apply (ok_enums m Hm)|]. intros e (_&?&?&_). by constructor.
  - eapply Forall_impl; [apply (ok_functions m Hm)|]. intros f (_&_&_&_&Hc).
    apply Forall_forall. intros s (i & Hi & Hs)%list_elem_of_omap.
    rewrite Forall_forall in Hc. destruct (Hc i Hi) as [Ho _].
    destruct i; cbn in Hs; simplify_eq; try done; [by eapply native_name_str_ok|].
    by destruct Ho.
  - eapply Forall_impl; [apply (ok_dispatch m Hm)|]. by intros e (_&?&_).
Qed.

Lemma pool_strings_ok m : module_ok m → Forall str_ok (strings (intern_module m)).
Proof.
  intros Hm. rewrite intern_module_strings. pose proof (module_strings_ok m Hm) as Hs.
  rewrite Forall_forall in Hs.
  apply (foldl_inv (λ p, Forall str_ok (strings p))); [done|].
  intros p s Hin Hp. apply intern_strings; auto.
Qed.

(** ** Round trips of the rows *)

Lemma read_pool_ref_decodes pool s i :
  in_u32 i → strings pool !! Z.to_nat i = Some s →
  decodes (read_pool_ref (strings pool)) (uvarint i) s.
Proof.
  intros Hi Hs pre post Hlen. unfold read_pool_ref.
  rewrite read_uvarint_decodes by (done || (unfold in_unsigned in *; lia)). cbn.
  unfold pool_get. pose proof (lookup_lt_Some _ _ _ Hs). destruct Hi.
  rewrite (proj2 (Z.ltb_lt _ _)), Hs by lia. done.
Qed.

Lemma write_pool_ref_eq pool w s i :
  pool_index pool !! s = Some i → write_pool_ref pool w s = Ok (mkWriter (buf w ++ uvarint i)).
Proof.
  intros Hi. unfold write_pool_ref, pool_ref. rewrite Hi. cbn [or_panic mbind res_bind].
  by rewrite write_uvarint_eq.
Qed.

Lemma pool_ref_roundtrips pool s :
  in_pool pool s → roundtrips (write_pool_ref pool) (read_pool_ref (strings pool)) s s.
Proof.
  intros (i & Hi & Hr & Hs). exists (uvarint i). split_and!.
  - apply uvarint_nonempty.
  - intros w. by apply write_pool_ref_eq.
  - by apply read_pool_ref_decodes.
Qed.

Lemma str_roundtrips s : str_ok s → roundtrips (λ w s, Ok (write_str w s)) read_str s s.
Proof.
  intros [Hu Hl]. exists (str_bytes s). split_and!.
  - unfold str_bytes. rewrite length_app. pose proof (uvarint_nonempty (Z.of_nat (length (as_bytes s)))).
    lia.
  - intros w. by rewrite write_str_eq.
  - by apply read_str_decodes.
Qed.

(** Instructions.  Narrow operands are 64-bit varints; the decoder's casts undo
    the widening. *)
Lemma in_u64_of w z : in_unsigned w z → 0 ≤ w ≤ 64 → in_u64 z.
Proof.
  intros [? ?] ?. split; [done|].
  eapply Z.lt_le_trans; [done|]. apply Z.pow_le_mono_r; lia.
Qed.

Lemma read_operand_decodes {A} w v (k : u64 → decoder A) e a :
  in_unsigned w v → 0 ≤ w ≤ 64 → decodes (k v) e a →
  decodes (λ r, '(v, r) ← read_uvarint r; k v r) (uvarint v ++ e) a.
Proof.
  intros Hv Hw Hk. eapply decodes_bind; [|exact Hk].
  by apply read_uvarint_decodes, (in_u64_of w).
Qed.

Lemma read_pool_operand_decodes {A} pool s i (k : string → decoder A) e a :
  in_u32 i → strings pool !! Z.to_nat i = Some s → decodes (k s) e a →
  decodes (λ r, '(s, r) ← read_pool_ref (strings pool) r; k s r) (uvarint i ++ e) a.
Proof.
  intros Hi Hs Hk. eapply decodes_bind; [|exact Hk]. by apply read_pool_ref_decodes.
Qed.

(** What an instruction needs of the string pool. *)
Definition instr_pooled (pool : StringPool) (i : Instr) : Prop :=
  ∀ s, instr_string i = Some s → in_pool pool s.

Ltac decode_opcode :=
  eapply (decodes_bind read_u8); [apply read_u8_decodes|];
  lazy beta iota zeta delta -[read_uvarint read_ivarint read_f64 read_u8 read_pool_ref mbind
    res_bind as_unsigned native_index ok_or decodes app uvarint ivarint to_le_bytes fmap
    list_fmap concat buf Z.pow].

Ltac decode_operands :=
  repeat first
    [ eapply read_pool_operand_decodes; [eassumption..|]
    | eapply read_operand_decodes; [eassumption|lia|] ];
  rewrite ?as_unsigned_id by done; apply decodes_ret.

Lemma op_roundtrips pool i o l :
  (∀ w, encode_instr w i pool = Ok (write_op w o l)) →
  decodes (decode_instr (strings pool)) ([o] ++ concat (uvarint <$> l)) i →
  roundtrips (λ w i, encode_instr w i pool) (decode_instr (strings pool)) i i.
Proof.
  intros He Hd. exists ([o] ++ concat (uvarint <$> l)). split_and!; [cbn; lia| |done].
  intros w. by rewrite He, write_op_app.
Qed.

Lemma decode_native_decodes pool n name i argc :
  in_u32 n → native_name n = Some name → in_u32 i → strings pool !! Z.to_nat i = Some name →
  in_u8 argc →
  decodes (decode_instr (strings pool)) ([op.CALL_NATIVE] ++ uvarint i ++ uvarint argc ++ [])
    (CallNative n argc).
Proof.
  intros Hn Hname Hi Hs Ha. decode_opcode.
  eapply read_pool_operand_decodes; [done..|].
  rewrite (native_index_name n) by done. cbn [ok_or mbind res_bind]. decode_operands.
Qed.

Lemma instr_roundtrips pool i :
  instr_ok i → native_known i → instr_pooled pool i →
  roundtrips (λ w i, encode_instr w i pool) (decode_instr (strings pool)) i i.
Proof.
  intros Hok Hnat Hpool.
  destruct i; cbn in Hok; destruct_and?.
  all: try (eapply (op_roundtrips _ _ _ []); [reflexivity|]; decode_opcode; apply decodes_ret).
  all: try (eapply op_roundtrips; [reflexivity|]; decode_opcode; cbn; decode_operands).
  - exists ([op.CONST_INT] ++ ivarint n). split_and!; [cbn; lia| |].
    + intros w. cbn [encode_instr]. rewrite write_ivarint_eq, buf_write_u8, <-app_assoc. done.
    + decode_opcode. apply (decodes_map _ ConstInt). by apply read_ivarint_decodes.
  - exists ([op.CONST_DOUBLE] ++ to_le_bytes 8 x). split_and!; [cbn; lia| |].
    + intros w. cbn [encode_instr]. unfold write_f64. rewrite buf_write_u8, <-app_assoc. done.
    + decode_opcode. apply (decodes_map _ ConstDouble). by apply read_f64_decodes.
  - exists ([op.CONST_BOOL] ++ [if b then 1 else 0]). split_and!; [cbn; lia| |].
    + intros w. cbn [encode_instr]. unfold write_u8 at 1. rewrite buf_write_u8. unfold push.
      by rewrite <-app_assoc.
    + replace (ConstBool b) with (ConstBool (negb ((if b then 1 else 0) =? 0))) by by destruct b.
      decode_opcode. apply (decodes_map _ (λ z, ConstBool (negb (z =? 0)))).
      by apply read_u8_decodes.
  - destruct (Hpool s) as (i & Hi & Hr & Hs); [done|].
    apply (op_roundtrips _ _ op.CONST_STR [i]).
    + intros w. cbn [encode_instr]. unfold pool_ref. by rewrite Hi.
    + decode_opcode. cbn. decode_operands.
  - destruct Hnat as [name Hname]. destruct (Hpool name) as (i & Hi & Hr & Hs); [done|].
    apply (op_roundtrips _ _ op.CALL_NATIVE [i; argc]).
    + intros w. cbn [encode_instr]. rewrite Hname. cbn [or_panic mbind res_bind].
      unfold pool_ref. by rewrite Hi.
    + by apply (decode_native_decodes pool native name).
  - destruct (Hpool selector) as (i & Hi & Hr & Hs); [done|].
    apply (op_roundtrips _ _ op.CALL_VIRTUAL [i; argc]).
    + intros w. cbn [encode_instr]. unfold pool_ref. by rewrite Hi.
    + decode_opcode. cbn. decode_operands.
Qed.

(** Rows of the tables. *)
Lemma uvarint_then_length v (b : list u8) : (1 ≤ length (uvarint v ++ b))%nat.
Proof. rewrite length_app. pose proof (uvarint_nonempty v). lia. Qed.

(** What the decoder knows of a function before the Symbols section. *)
Definition anonymous (f : Function) : Function :=
  Function_new "" (param_count f) (local_count f) (code f).

Lemma function_roundtrips pool f :
  function_ok f → (∀ i, i ∈ code f → instr_pooled pool i) →
  roundtrips (λ w f, encode_function w f pool) (decode_function (strings pool)) f (anonymous f).
Proof.
  intros (_ & Hp & Hl & Hv & Hc) Hpool.
  destruct (vec_roundtrips sizeof_Instr (λ w i, encode_instr w i pool)
    (decode_instr (strings pool)) (code f) (code f) Hv) as (b & _ & He & Hd).
  { apply Forall_Forall2_diag, Forall_forall. intros i Hi. rewrite Forall_forall in Hc.
    destruct (Hc i Hi). by apply instr_roundtrips; auto. }
  exists (uvarint (param_count f) ++ uvarint (local_count f) ++ b). split_and!.
  - apply uvarint_then_length.
  - intros w. unfold encode_function. rewrite He, !buf_write_uvarint. by rewrite <-!app_assoc.
  - eapply read_operand_decodes; [done|lia|]. eapply read_operand_decodes; [done|lia|].
    rewrite !as_unsigned_id by done.
    by apply (decodes_map _ (Function_new "" (param_count f) (local_count f))).
Qed.

Lemma strings_roundtrip pool l :
  vec_ok sizeof_String l → Forall (in_pool pool) l →
  roundtrips (λ w xs, write_all (write_pool_ref pool) (write_uvarint w (Z.of_nat (length xs))) xs)
             (read_vec sizeof_String (read_pool_ref (strings pool))) l l.
Proof.
  intros Hv Hl. apply vec_roundtrips; [done|]. apply Forall_Forall2_diag.
  eapply Forall_impl; [exact Hl|]. apply pool_ref_roundtrips.
Qed.

Lemma type_roundtrips pool t :
  type_ok t → in_pool pool (ty_name t) → Forall (in_pool pool) (field_names t) →
  roundtrips (encode_type pool) (decode_type (strings pool) VERSION) t t.
Proof.
  intros (_ & Hf & _ & Hv & Hnames) (i & Hi & Hr & Hs) Hpool.
  destruct (strings_roundtrip pool (field_names t) Hv Hpool) as (b & _ & He & Hd).
  exists (uvarint i ++ uvarint (field_count t) ++ b). split_and!.
  - apply uvarint_then_length.
  - intros w. unfold encode_type. rewrite (write_pool_ref_eq _ _ _ i) by done.
    cbn [mbind res_bind]. rewrite He, buf_write_uvarint. cbn [buf]. by rewrite <-!app_assoc.
  - eapply read_pool_operand_decodes; [done..|]. eapply read_operand_decodes; [done|lia|].
    change (VERSION <? 3) with false. rewrite !as_unsigned_id by done.
    pose proof (decodes_map _ (λ names, if is_nil names then TypeDef_new (ty_name t) (field_count t)
      else TypeDef_named (ty_name t) names) _ _ Hd) as Hgoal; cbn beta in Hgoal.
    assert ((if is_nil (field_names t) then TypeDef_new (ty_name t) (field_count t)
      else TypeDef_named (ty_name t) (field_names t)) = t) as Heq; [|by rewrite Heq in Hgoal].
    clear Hgoal. destruct t as [name fc names]; cbn in *. destruct names; [done|].
    destruct Hnames as [? | ->]; [done|]. unfold TypeDef_named. by rewrite as_unsigned_id.
Qed.

Lemma enum_roundtrips pool e :
  enum_ok e → in_pool pool (enum_name e) → Forall (in_pool pool) (variants e) →
  roundtrips (encode_enum pool) (decode_enum (strings pool)) e e.
Proof.
  intros (Ht & _ & _ & Hv) (i & Hi & Hr & Hs) Hpool.
  destruct (strings_roundtrip pool (variants e) Hv Hpool) as (b & _ & He & Hd).
  exists (uvarint (enum_ty e) ++ uvarint i ++ b). split_and!.
  - apply uvarint_then_length.
  - intros w. unfold encode_enum. rewrite (write_pool_ref_eq _ _ _ i) by done.
    cbn [mbind res_bind]. rewrite He, write_uvarint_eq. cbn [buf]. by rewrite <-!app_assoc.
  - eapply read_operand_decodes; [done|lia|]. eapply read_pool_operand_decodes; [done..|].
    rewrite !as_unsigned_id by done. destruct e as [ty name vs]; cbn in *.
    by apply (decodes_map _ (EnumDef_new ty name)).
Qed.

Lemma dispatch_roundtrips pool e :
  dispatch_ok e → in_pool pool (selector e) →
  roundtrips (encode_dispatch pool) (decode_dispatch_row (strings pool)) e e.
Proof.
  intros (Ht & _ & Hf) (i & Hi & Hr & Hs).
  exists (uvarint (d_ty e) ++ uvarint i ++ uvarint (d_func e) ++ []). split_and!.
  - apply uvarint_then_length.
  - intros w. unfold encode_dispatch. rewrite (write_pool_ref_eq _ _ _ i) by done.
    cbn [mbind res_bind]. rewrite !write_uvarint_eq. cbn [buf].
    by rewrite <-!app_assoc, app_nil_r.
  - destruct e; cbn in *. decode_operands.
Qed.

(** ** Tables *)

Lemma table_roundtrips {A B} size (enc : Writer → A → encoding Writer) (dec : decoder B) xs ys :
  vec_ok size xs → Forall2 (roundtrips enc dec) xs ys →
  ∃ b, write_table enc xs = Ok (mkWriter b) ∧
    (Z.of_nat (length b) ≤ isize_max → fst <$> read_vec size dec (Reader_new b) = Ok ys).
Proof.
  intros Hv Hxs. destruct (vec_roundtrips size enc dec xs ys Hv Hxs) as (b & _ & He & Hd).
  exists b. split; [apply (He Writer_new)|]. intros Hlen.
  specialize (Hd [] []). cbn [app length Nat.add] in Hd. rewrite app_nil_r in Hd.
  unfold Reader_new. by rewrite Hd.
Qed.

Lemma decode_functions_vec b pool :
  decode_functions b pool = fst <$> read_vec 0 (decode_function pool) (Reader_new b).
Proof.
  unfold decode_functions, read_vec. by destruct (read_uvarint (Reader_new b)) as [[]| | |].
Qed.

Lemma Forall2_fmap_diag {A B} (P : A → B → Prop) (f : A → B) l :
  Forall (λ x, P x (f x)) l → Forall2 P l (f <$> l).
Proof. intros HP. apply Forall2_fmap_r, Forall_Forall2_diag. done. Qed.

Lemma name_functions_anonymous fs :
  name_functions (fn_name <$> fs) (anonymous <$> fs) = fs.
Proof.
  unfold name_functions. apply list_eq. intros i. rewrite list_lookup_imap, list_lookup_fmap.
  destruct (fs !! i) as [[]|] eqn:E; cbn; [|done].
  unfold symbol_name. by rewrite list_lookup_fmap, E.
Qed.

(** ** Sections *)

Definition section_bytes (s : u8 * list u8) : list u8 :=
  s.1 :: uvarint (Z.of_nat (length s.2)) ++ s.2.

Lemma collect_sections_bytes secs : ∀ fuel pre ps,
  Z.of_nat (length (pre ++ (secs ≫= section_bytes))) ≤ isize_max →
  (length (secs ≫= section_bytes) ≤ fuel)%nat →
  collect_sections fuel (mkReader (pre ++ (secs ≫= section_bytes)) (length pre)) ps =
    Ok (foldl (λ ps s, set_payload s.1 s.2 ps) ps secs).
Proof.
  induction secs as [|[id p] secs IH]; intros fuel pre ps Hlen Hfuel.
  { cbn [mbind list_bind foldl] in *. rewrite app_nil_r.
    destruct fuel; cbn [collect_sections]; unfold is_empty, remaining; cbn;
      by rewrite Nat.sub_diag. }
  change (((id, p) :: secs) ≫= section_bytes)
    with (section_bytes (id, p) ++ (secs ≫= section_bytes)) in *.
  change (section_bytes (id, p)) with ([id] ++ uvarint (Z.of_nat (length p)) ++ p) in *.
  set (rest := secs ≫= section_bytes) in *.
  assert (Z.of_nat (length p) ≤ isize_max) as Hp.
  { rewrite !length_app in Hlen. lia. }
  destruct fuel as [|fuel]; [cbn in Hfuel; lia|]. cbn [collect_sections].
  replace (is_empty _) with false.
  2:{ symmetry. apply Nat.eqb_neq. unfold remaining. cbn. rewrite !length_app. cbn. lia. }
  assert (decodes (λ r, '(id, r) ← read_u8 r; '(len, r) ← read_uvarint r;
    '(payload, r) ← read_raw len r; Ok ((id, payload), r))
    ([id] ++ uvarint (Z.of_nat (length p)) ++ p) (id, p)) as Hd.
  { eapply (decodes_bind read_u8); [apply read_u8_decodes|]. eapply (decodes_bind read_uvarint).
    - apply read_uvarint_decodes. unfold in_unsigned, isize_max in *. lia.
    - apply (decodes_map _ (pair id)). apply reader_take_decodes. }
  specialize (Hd pre rest Hlen).
  apply bind_ok in Hd as ([id' r1] & E1 & Hd). apply bind_ok in Hd as ([n r2] & E2 & Hd).
  apply bind_ok in Hd as ([p' r3] & E3 & Hd). injection Hd as -> -> ->.
  rewrite E1. cbn [mbind res_bind]. rewrite E2. cbn [mbind res_bind]. rewrite E3.
  cbn [mbind res_bind foldl fst snd].
  specialize (IH fuel (pre ++ [id] ++ uvarint (Z.of_nat (length p)) ++ p) (set_payload id p ps)).
  rewrite <-app_assoc, (length_app pre ([id] ++ _)) in IH. apply IH.
  - done.
  - rewrite !length_app in Hfuel. cbn in Hfuel. lia.
Qed.

(** ** The whole module *)

(** The sections of an encoded module, in order. *)
Definition module_sections (m : Module) (c t e f s d g n : list u8) : list (u8 * list u8) :=
  [(section.CONSTANTS, c); (section.TYPES, t)] ++
  (if negb (is_nil (enums m)) then [(section.ENUMS, e)] else []) ++
  [(section.FUNCTIONS, f); (section.SYMBOLS, s)] ++
  (if negb (is_nil (dispatch_rows m)) then [(section.DISPATCH, d)] else []) ++
  (if 0 <? global_count m then [(section.GLOBALS, g)] else []) ++
  (if bool_decide (is_Some (or_function (entry m) m "main")) ||
      bool_decide (is_Some (or_function (init m) m "<init>")) then [(section.ENTRY, n)] else []).

Lemma write_section_if_eq b w id p :
  write_section_if b w id p =
    mkWriter (buf w ++ ((if b then [(id, p)] else []) ≫= section_bytes)).
Proof.
  destruct b; cbn [write_section_if].
  - rewrite write_section_eq. cbn. by rewrite app_nil_r.
  - cbn. rewrite app_nil_r. by destruct w.
Qed.

Lemma collect_module_sections m c t e f s d g n :
  foldl (λ ps s, set_payload s.1 s.2 ps) no_payloads (module_sections m c t e f s d g n) =
  mkPayloads (Some c) (Some t) (if negb (is_nil (enums m)) then Some e else None)
    (Some f) (Some s) (if negb (is_nil (dispatch_rows m)) then Some d else None)
    (if 0 <? global_count m then Some g else None)
    (if bool_decide (is_Some (or_function (entry m) m "main")) ||
        bool_decide (is_Some (or_function (init m) m "<init>")) then Some n else None).
Proof.
  unfold module_sections. by destruct (is_nil (enums m)), (is_nil (dispatch_rows m)),
    (0 <? global_count m), (bool_decide _ || bool_decide _).
Qed.

Lemma function_index_lt m name i : function_index m name = Some i → (i < length (functions m))%nat.
Proof.
  unfold function_index. intros ([j f] & Hj & ->)%fmap_Some.
  apply list_find_Some in Hj as (Hj & _). by apply lookup_lt_Some in Hj.
Qed.

Lemma or_function_ok m o name :
  module_ok m → opt_index_ok o → opt_index_ok (or_function o m name).
Proof.
  intros Hm Ho. destruct o as [i|]; [done|]. unfold or_function.
  destruct (function_index m name) as [i|] eqn:E; cbn; [|done].
  apply function_index_lt in E. pose proof (ok_function_count m Hm).
  rewrite as_unsigned_id; [lia|]. unfold in_unsigned. lia.
Qed.

Lemma opt_index_roundtrip o :
  opt_index_ok o → in_u32 (opt_index_plus1 o) ∧ decode_opt_index (opt_index_plus1 o) = o.
Proof.
  destruct o as [i|]; cbn; [|done]. intros Hi.
  rewrite as_unsigned_id by (unfold in_unsigned; lia). split; [unfold in_unsigned; lia|].
  unfold decode_opt_index. rewrite (proj2 (Z.eqb_neq _ _)) by lia.
  rewrite as_unsigned_id by (unfold in_unsigned; lia). f_equal. lia.
Qed.

Lemma decodes_all {A} (f : decoder A) b a :
  decodes f b a → Z.of_nat (length b) ≤ isize_max → ∃ r, f (Reader_new b) = Ok (a, r).
Proof.
  intros Hd Hlen. specialize (Hd [] []). cbn [app] in Hd. rewrite app_nil_r in Hd.
  eexists. by apply Hd.
Qed.

Lemma module_pooled m (Hm : module_ok m) s :
  s ∈ module_strings m → in_pool (intern_module m) s.
Proof. apply intern_module_has, ok_pool_size. done. Qed.

Definition entry_bytes (m : Module) : list u8 :=
  uvarint (opt_index_plus1 (or_function (entry m) m "main")) ++
  uvarint (opt_index_plus1 (or_function (init m) m "<init>")).

Lemma encode_module_eq m c t e f s d :
  write_table (λ w s, Ok (write_str w s)) (strings (intern_module m)) = Ok (mkWriter c) →
  write_table (encode_type (intern_module m)) (types m) = Ok (mkWriter t) →
  write_table (encode_enum (intern_module m)) (enums m) = Ok (mkWriter e) →
  write_table (λ w f, encode_function w f (intern_module m)) (functions m) = Ok (mkWriter f) →
  write_table (λ w f, Ok (write_str w (fn_name f))) (functions m) = Ok (mkWriter s) →
  write_table (encode_dispatch (intern_module m)) (dispatch_rows m) = Ok (mkWriter d) →
  encode_module m = Ok ((MAGIC ++ to_le_bytes 4 VERSION) ++
    (module_sections m c t e f s d (uvarint (global_count m)) (entry_bytes m) ≫= section_bytes)).
Proof.
  intros Hc Ht He Hf Hs Hd. unfold encode_module.
  rewrite Hc, Ht, He, Hf, Hs, Hd. cbn [mbind res_bind]. f_equal.
  rewrite !write_section_if_eq, !write_section_eq, !write_uvarint_eq.
  unfold into_bytes, write_u32_le, write_raw, module_sections, entry_bytes. cbn [buf].
  rewrite !bind_app. repeat change (buf Writer_new) with (@nil Z). rewrite !app_nil_l.
  cbn [mbind list_bind]. unfold section_bytes. cbn [fst snd].
  rewrite !app_nil_r, <-!app_assoc. cbn [app]. rewrite <-!app_assoc. done.
Qed.

Lemma decode_header_ok body :
  Z.of_nat (length ((MAGIC ++ to_le_bytes 4 VERSION) ++ body)) ≤ isize_max →
  decode_header (Reader_new ((MAGIC ++ to_le_bytes 4 VERSION) ++ body)) =
    Ok (VERSION, mkReader ((MAGIC ++ to_le_bytes 4 VERSION) ++ body) 9).
Proof.
  intros Hlen.
  assert (decodes decode_header (MAGIC ++ to_le_bytes 4 VERSION) VERSION) as Hd.
  { unfold decode_header. eapply (decodes_bind (read_raw _)); [apply reader_take_decodes|].
    cbn beta. rewrite bool_decide_true by done.
    rewrite <-(app_nil_r (to_le_bytes 4 VERSION)).
    eapply (decodes_bind read_u32_le); [by apply read_u32_le_decodes|].
    rewrite bool_decide_true by set_solver. apply decodes_ret. }
  apply (Hd [] body Hlen).
Qed.

Lemma decode_entry_bytes m M :
  Z.of_nat (length (entry_bytes m)) ≤ isize_max → module_ok m →
  ('(e, er) ← read_uvarint (Reader_new (entry_bytes m)); '(i, _) ← read_uvarint er;
   Ok (set_entry_init M (decode_opt_index e) (decode_opt_index i))) =
  Ok (set_entry_init M (or_function (entry m) m "main") (or_function (init m) m "<init>")).
Proof.
  intros Hlen Hm.
  destruct (opt_index_roundtrip (or_function (entry m) m "main")) as [He HeD].
  { by apply or_function_ok, ok_entry. }
  destruct (opt_index_roundtrip (or_function (init m) m "<init>")) as [Hi HiD].
  { by apply or_function_ok, ok_init. }
  assert (decodes (λ r, '(e, r) ← read_uvarint r; '(i, r) ← read_uvarint r; Ok ((e, i), r))
    (entry_bytes m) (opt_index_plus1 (or_function (entry m) m "main"),
      opt_index_plus1 (or_function (init m) m "<init>"))) as Hd.
  { eapply read_operand_decodes; [exact He|lia|].
    apply (decodes_map read_uvarint (pair _)). apply read_uvarint_decodes.
    by apply (in_u64_of 32). }
  apply decodes_all in Hd as [r Hd]; [|done].
  apply bind_ok in Hd as ([e r1] & -> & Hd). apply bind_ok in Hd as ([i r2] & E & Hd).
  injection Hd as -> -> ->. cbn [mbind res_bind]. rewrite E. cbn [mbind res_bind].
  by rewrite HeD, HiD.
Qed.

(** The tables of a well-formed module and how they read back. *)
Lemma consts_table m : module_ok m →
  ∃ b, write_table (λ w s, Ok (write_str w s)) (strings (intern_module m)) = Ok (mkWriter b) ∧
    (Z.of_nat (length b) ≤ isize_max → decode_pool b = Ok (strings (intern_module m))).
Proof.
  intros Hm. apply table_roundtrips; [apply ok_pool; done|].
  apply Forall_Forall2_diag. eapply Forall_impl; [by apply pool_strings_ok|].
  apply str_roundtrips.
Qed.

Lemma symbols_table m : module_ok m →
  ∃ b, write_table (λ w f, Ok (write_str w (fn_name f))) (functions m) = Ok (mkWriter b) ∧
    (Z.of_nat (length b) ≤ isize_max → decode_symbols b = Ok (fn_name <$> functions m)).
Proof.
  intros Hm. apply table_roundtrips; [apply ok_symbols; done|].
  apply Forall2_fmap_diag. eapply Forall_impl; [by apply ok_functions|].
  intros f (Hf & _). apply (str_roundtrips _ Hf).
Qed.

Lemma types_table m : module_ok m →
  ∃ b, write_table (encode_type (intern_module m)) (types m) = Ok (mkWriter b) ∧
    (Z.of_nat (length b) ≤ isize_max →
     decode_types b (strings (intern_module m)) VERSION = Ok (types m)).
Proof.
  intros Hm. apply table_roundtrips; [apply ok_types_vec; done|].
  apply Forall_Forall2_diag, Forall_forall. intros t Ht.
  apply type_roundtrips.
  - pose proof (ok_types m Hm) as Hall. rewrite Forall_forall in Hall. auto.
  - apply module_pooled; [done|]. unfold module_strings. set_solver.
  - apply Forall_forall. intros s Hs. apply module_pooled; [done|].
    unfold module_strings. set_solver.
Qed.

Lemma enums_table m : module_ok m →
  ∃ b, write_table (encode_enum (intern_module m)) (enums m) = Ok (mkWriter b) ∧
    (Z.of_nat (length b) ≤ isize_max →
     decode_enums b (strings (intern_module m)) = Ok (enums m)).
Proof.
  intros Hm. apply table_roundtrips; [apply ok_enums_vec; done|].
  apply Forall_Forall2_diag, Forall_forall. intros e He.
  apply enum_roundtrips.
  - pose proof (ok_enums m Hm) as Hall. rewrite Forall_forall in Hall. auto.
  - apply module_pooled; [done|]. unfold module_strings. set_solver.
  - apply Forall_forall. intros s Hs. apply module_pooled; [done|].
    unfold module_strings. set_solver.
Qed.

Lemma dispatch_table m : module_ok m →
  ∃ b, write_table (encode_dispatch (intern_module m)) (dispatch_rows m) = Ok (mkWriter b) ∧
    (Z.of_nat (length b) ≤ isize_max →
     decode_dispatch b (strings (intern_module m)) = Ok (dispatch m)).
Proof.
  intros Hm. apply table_roundtrips; [apply ok_dispatch_vec; done|].
  apply Forall_Forall2_diag, Forall_forall. intros e He.
  apply dispatch_roundtrips.
  - pose proof (ok_dispatch m Hm) as Hall. rewrite Forall_forall in Hall. auto.
  - apply module_pooled; [done|]. unfold module_strings. set_solver.
Qed.

Lemma functions_table m : module_ok m →
  ∃ b, write_table (λ w f, encode_function w f (intern_module m)) (functions m) =
         Ok (mkWriter b) ∧
    (Z.of_nat (length b) ≤ isize_max →
     decode_functions b (strings (intern_module m)) = Ok (anonymous <$> functions m)).
Proof.
  intros Hm. setoid_rewrite decode_functions_vec. apply table_roundtrips.
  { destruct (ok_symbols m Hm). split; [unfold isize_max; lia|done]. }
  apply Forall2_fmap_diag, Forall_forall. intros f Hf.
  apply function_roundtrips.
  - pose proof (ok_functions m Hm) as Hall. rewrite Forall_forall in Hall. auto.
  - intros i Hi s Hs. apply module_pooled; [done|]. unfold module_strings.
    rewrite !elem_of_app. right. right. left. apply list_elem_of_bind.
    exists f. split; [|done]. apply list_elem_of_omap. eauto.
Qed.

Lemma section_length (m : list (u8 * list u8)) s :
  s ∈ m → (length s.2 ≤ length (m ≫= section_bytes))%nat.
Proof.
  induction m as [|x m IH]; intros Hs; [by apply elem_of_nil in Hs|].
  change ((x :: m) ≫= section_bytes) with (section_bytes x ++ (m ≫= section_bytes)).
  rewrite length_app. apply elem_of_cons in Hs as [->|Hs]; [|specialize (IH Hs); lia].
  unfold section_bytes. cbn. rewrite length_app. lia.
Qed.

(** An absent section decodes to what the module has anyway. *)
Lemma on_payload_if {A} (b : bool) p (d x : A) f :
  (b = true → f p = Ok x) → (b = false → d = x) →
  on_payload (if b then Some p else None) d f = Ok x.
Proof. destruct b; cbn; intros H1 H2; [by apply H1|by rewrite H2]. Qed.

Ltac in_sections := rewrite !elem_of_app, ?elem_of_cons; cbn [negb is_nil];
  rewrite ?elem_of_cons; tauto.

Lemma decode_payloads_ok m c t e f s d :
  module_ok m →
  let secs := module_sections m c t e f s d (uvarint (global_count m)) (entry_bytes m) in
  (∀ x, x ∈ secs → Z.of_nat (length x.2) ≤ isize_max) →
  decode_pool c = Ok (strings (intern_module m)) →
  decode_types t (strings (intern_module m)) VERSION = Ok (types m) →
  (enums m ≠ [] → decode_enums e (strings (intern_module m)) = Ok (enums m)) →
  decode_functions f (strings (intern_module m)) = Ok (anonymous <$> functions m) →
  decode_symbols s = Ok (fn_name <$> functions m) →
  (dispatch m ≠ [] → decode_dispatch d (strings (intern_module m)) = Ok (dispatch m)) →
  decode_payloads VERSION (foldl (λ ps s, set_payload s.1 s.2 ps) no_payloads secs) =
    Ok (resolve_entries m).
Proof.
  intros Hm secs Hsec Dc Dt De Df Ds Dd. unfold secs. rewrite collect_module_sections.
  unfold decode_payloads. cbn [consts_payload types_payload enums_payload funcs_payload
    symbols_payload dispatch_payload globals_payload entry_payload].
  cbn [on_payload]. rewrite Dc. cbn [mbind res_bind]. rewrite Dt. cbn [mbind res_bind].
  rewrite Df. cbn [mbind res_bind]. rewrite Ds. cbn [mbind res_bind].
  rewrite name_functions_anonymous.
  set (m0 := with_types (functions m) (types m)).
  rewrite (on_payload_if _ _ m0 (set_enums m0 (enums m))).
  2:{ intros Hb. rewrite De; [done|]. by destruct (enums m). }
  2:{ intros Hb. by destruct (enums m). }
  cbn [mbind res_bind]. set (m1 := set_enums m0 (enums m)).
  rewrite (on_payload_if _ _ m1 (set_dispatch m1 (dispatch m))).
  2:{ intros Hb. rewrite Dd; [done|]. unfold dispatch_rows in Hb. by destruct (dispatch m). }
  2:{ unfold dispatch_rows. intros Hb. by destruct (dispatch m). }
  cbn [mbind res_bind]. set (m2 := set_dispatch m1 (dispatch m)).
  pose proof (ok_globals m Hm) as Hg.
  rewrite (on_payload_if _ _ m2 (set_global_count m2 (global_count m))).
  2:{ intros Hb. destruct (decodes_all _ _ _ (read_uvarint_decodes (global_count m)
        ltac:(by apply (in_u64_of 32)))) as [r ->].
      - apply (Hsec (section.GLOBALS, _)). unfold secs, module_sections. rewrite Hb.
        in_sections.
      - cbn [mbind res_bind]. by rewrite as_unsigned_id. }
  2:{ intros Hb%Z.ltb_ge. destruct Hg. by replace (global_count m) with 0 by lia. }
  cbn [mbind res_bind]. rewrite (on_payload_if _ _ _ (resolve_entries m)); [done| |].
  - intros Hb. rewrite (decode_entry_bytes m) by (done || (apply (Hsec (section.ENTRY, _));
      unfold secs, module_sections; rewrite Hb; in_sections)).
    unfold resolve_entries, set_entry_init. by rewrite (ok_dispatch_index m Hm).
  - intros [Hb1 Hb2]%orb_false_iff. unfold resolve_entries.
    apply bool_decide_eq_false, eq_None_not_Some in Hb1, Hb2. rewrite Hb1, Hb2.
    unfold set_entry_init. by rewrite (ok_dispatch_index m Hm).
Qed.

Lemma encode_decode_module m :
  module_ok m →
  ∃ bs, encode_module m = Ok bs ∧
    (Z.of_nat (length bs) ≤ isize_max → decode_module bs = Ok (resolve_entries m)).
Proof.
  intros Hm.
  destruct (consts_table m Hm) as (c & Hc & Dc), (types_table m Hm) as (t & Ht & Dt),
    (enums_table m Hm) as (e & He & De), (functions_table m Hm) as (f & Hf & Df),
    (symbols_table m Hm) as (s & Hs & Ds), (dispatch_table m Hm) as (d & Hd & Dd).
  eexists. split; [by apply encode_module_eq|]. intros Hlen.
  set (secs := module_sections m c t e f s d (uvarint (global_count m)) (entry_bytes m)) in *.
  assert (∀ x, x ∈ secs → Z.of_nat (length x.2) ≤ isize_max) as Hsec.
  { intros x Hx. pose proof (section_length secs x Hx). rewrite length_app in Hlen. lia. }
  unfold decode_module. rewrite decode_header_ok by done. cbn [mbind res_bind].
  change 9%nat with (length (MAGIC ++ to_le_bytes 4 VERSION)).
  rewrite collect_sections_bytes; [|done|unfold remaining; cbn [bytes pos];
    rewrite (length_app (MAGIC ++ _)); lia].
  cbn [mbind res_bind]. unfold secs, module_sections in Hsec. apply decode_payloads_ok; try done.
  - apply Dc, (Hsec (section.CONSTANTS, c)). in_sections.
  - apply Dt, (Hsec (section.TYPES, t)). in_sections.
  - intros Hne. apply De, (Hsec (section.ENUMS, e)). destruct (enums m); [done|]. in_sections.
  - apply Df, (Hsec (section.FUNCTIONS, f)). in_sections.
  - apply Ds, (Hsec (section.SYMBOLS, s)). in_sections.
  - intros Hne. apply Dd, (Hsec (section.DISPATCH, d)). unfold dispatch_rows.
    destruct (dispatch m); [done|]. in_sections.
Qed.

(** ** The decoder runs to a verdict on every input *)

Lemma read_n_advances {A} (f : decoder A) : advances 1 f → ∀ fuel count r,
  reader_ok r → (remaining r < fuel)%nat →
  read_n fuel count f r ≠ NoFuel ∧
  ∀ xs r', read_n fuel count f r = Ok (xs, r') →
    bytes r' = bytes r ∧ (pos r ≤ pos r')%nat ∧ reader_ok r'.
Proof.
  intros Hf. induction fuel as [|fuel IH]; intros count r Hr Hfuel; [lia|].
  cbn [read_n]. destruct (count <=? 0); [split; [done|]; by intros ? ? [= <- <-]|].
  destruct (Hf r Hr) as [Hn Hok]. destruct (f r) as [[a r1]| | |]; cbn [mbind res_bind]; try done.
  destruct (Hok a r1 eq_refl) as (Hb & Hp & Hr1).
  destruct (IH (count - 1) r1 Hr1) as [Hn' Hok'].
  { unfold remaining in *. rewrite Hb. unfold reader_ok in *. rewrite Hb in Hr1. lia. }
  destruct (read_n fuel (count - 1) f r1) as [[xs r2]| | |]; cbn [mbind res_bind]; try done.
  destruct (Hok' xs r2 eq_refl) as (? & ? & ?). split; [done|]. intros ? ? [= <- <-].
  split_and!; [congruence|lia|done].
Qed.

Lemma read_many_advances {A} count (f : decoder A) : advances 1 f → advances 0 (read_many count f).
Proof.
  intros Hf r Hr. destruct (read_n_advances f Hf (S (remaining r)) count r Hr) as [Hn Hok]; [lia|].
  split; [done|]. intros a r' Ha. rewrite Nat.add_0_r. by eapply Hok.
Qed.

Lemma read_vec_advances {A} size (f : decoder A) : advances 1 f → advances 1 (read_vec size f).
Proof.
  intros Hf. apply (advances_bind 1 0); [apply read_uvarint_advances|]. intros count.
  unfold with_capacity. destruct (_ <=? _); [|done]. by apply read_many_advances.
Qed.

Lemma read_pool_ref_advances pool : advances 1 (read_pool_ref pool).
Proof.
  apply (advances_bind 1 0); [apply read_uvarint_advances|]. intros idx. unfold pool_get.
  destruct (_ <? _); [|apply advances_fail].
  destruct (pool !! _); [apply advances_ret|apply advances_fail].
Qed.

#[local] Hint Resolve advances_ret advances_fail read_uvarint_advances read_ivarint_advances
  read_u8_advances read_f64_advances read_str_advances read_pool_ref_advances
  read_vec_advances : thera.

(** Step through a decoder built from the readers by binds and case splits. *)
Ltac advances_steps :=
  repeat match goal with
  | |- advances _ (λ r, if ?b then _ else _) => destruct b
  | |- advances _ (λ r, mbind _ (ok_or ?o _)) => destruct o; cbn [ok_or mbind res_bind]
  | |- advances _ (λ r, Ok _) => apply advances_ret
  | |- advances _ (λ r, Err _) => apply advances_fail
  | |- advances 0 (λ r, mbind _ (_ r)) => eapply (advances_mono 1); [lia|]
  | |- advances 1 (λ r, mbind _ (_ r)) => eapply (advances_bind 1 0); [|intros ?]
  | |- advances 1 _ => solve [auto 2 with thera]
  end.

Lemma decode_instr_advances pool : advances 1 (decode_instr pool).
Proof.
  unfold decode_instr. eapply (advances_bind 1 0); [apply read_u8_advances|]. intros opcode.
  cbn zeta. advances_steps.
Qed.
#[local] Hint Resolve decode_instr_advances : thera.

Lemma decode_function_advances pool : advances 1 (decode_function pool).
Proof. unfold decode_function. advances_steps. Qed.

Lemma decode_type_advances pool version : advances 1 (decode_type pool version).
Proof. unfold decode_type. advances_steps. Qed.

Lemma decode_enum_advances pool : advances 1 (decode_enum pool).
Proof. unfold decode_enum. advances_steps. Qed.

Lemma decode_dispatch_row_advances pool : advances 1 (decode_dispatch_row pool).
Proof. unfold decode_dispatch_row. advances_steps. Qed.

Lemma collect_sections_verdict fuel : ∀ r ps,
  reader_ok r → (remaining r ≤ fuel)%nat → collect_sections fuel r ps ≠ NoFuel.
Proof.
  induction fuel as [|fuel IH]; intros r ps Hr Hfuel; cbn [collect_sections]; unfold is_empty.
  { assert (remaining r = 0%nat) as -> by lia. done. }
  destruct (Nat.eqb (remaining r) 0); [done|].
  destruct (read_u8_advances r Hr) as [Hn1 Hok1].
  destruct (read_u8 r) as [[id r1]| | |]; cbn [mbind res_bind]; try done.
  destruct (Hok1 id r1 eq_refl) as (Hb1 & Hp1 & Hr1).
  destruct (read_uvarint_advances r1 Hr1) as [Hn2 Hok2].
  destruct (read_uvarint r1) as [[n r2]| | |] eqn:E2; cbn [mbind res_bind]; try done.
  destruct (Hok2 n r2 eq_refl) as (Hb2 & Hp2 & Hr2).
  destruct (reader_take_advances n (proj1 (read_uvarint_range _ _ _ E2)) r2 Hr2) as [Hn3 Hok3].
  unfold read_raw.
  destruct (reader_take n r2) as [[p r3]| | |]; cbn [mbind res_bind]; try done.
  destruct (Hok3 p r3 eq_refl) as (Hb3 & Hp3 & Hr3).
  apply IH; [done|]. unfold remaining, reader_ok in *. rewrite Hb3, Hb2, Hb1 in *. lia.
Qed.

Lemma advances_fst {A} k (f : decoder A) b :
  advances k f → fst <$> f (Reader_new b) ≠ NoFuel.
Proof.
  intros Hf. destruct (Hf (Reader_new b)) as [Hn _]; [unfold reader_ok; cbn; lia|].
  by destruct (f (Reader_new b)).
Qed.

Lemma on_payload_verdict {A} p (d : A) f : (∀ b, f b ≠ NoFuel) → on_payload p d f ≠ NoFuel.
Proof. intros Hf. by destruct p; cbn. Qed.

Lemma bind_verdict {E A B} (m : res E A) (k : A → res E B) :
  m ≠ NoFuel → (∀ a, k a ≠ NoFuel) → m ≫= k ≠ NoFuel.
Proof. intros Hm Hk [|(a & _ & ?)]%bind_noFuel; [done|by eapply Hk]. Qed.

Lemma fmap_verdict {E A B} (m : res E A) (k : A → B) : m ≠ NoFuel → k <$> m ≠ NoFuel.
Proof. by destruct m. Qed.

Lemma advances_verdict {A} k (f : decoder A) b (K : A → Reader → res DecodeError Module) :
  advances k f → (∀ a r, reader_ok r → K a r ≠ NoFuel) →
  ('(x, r) ← f (Reader_new b); K x r) ≠ NoFuel.
Proof.
  intros Hf HK. destruct (Hf (Reader_new b)) as [Hn Hok]; [unfold reader_ok; cbn; lia|].
  destruct (f (Reader_new b)) as [[a r]| | |]; cbn [mbind res_bind]; try done.
  apply HK. by eapply Hok.
Qed.

Lemma decode_payloads_verdict version ps : decode_payloads version ps ≠ NoFuel.
Proof.
  unfold decode_payloads.
  repeat match goal with
  | |- on_payload _ _ _ ≠ _ => apply on_payload_verdict; intros ?
  | |- mbind _ (on_payload _ _ _) ≠ _ => apply bind_verdict; [|intros ?]
  | |- fmap (set_enums _) _ ≠ _ => apply fmap_verdict
  | |- fmap (set_dispatch _) _ ≠ _ => apply fmap_verdict
  end.
  - apply (advances_fst 1), read_vec_advances, read_str_advances.
  - apply (advances_fst 1), read_vec_advances, decode_type_advances.
  - rewrite decode_functions_vec.
    apply (advances_fst 1), read_vec_advances, decode_function_advances.
  - apply (advances_fst 1), read_vec_advances, read_str_advances.
  - apply (advances_fst 1), read_vec_advances, decode_enum_advances.
  - apply (advances_fst 1), read_vec_advances, decode_dispatch_row_advances.
  - by apply (advances_verdict 1 _ _ _ read_uvarint_advances).
  - apply (advances_verdict 1 _ _ _ read_uvarint_advances). intros e r Hr.
    destruct (read_uvarint_advances r Hr) as [Hn _].
    by destruct (read_uvarint r) as [[]| | |].
Qed.

Lemma decode_header_advances : advances 1 decode_header.
Proof.
  unfold decode_header. apply (advances_mono 5); [lia|].
  apply (advances_bind 5 0); [by apply (reader_take_advances 5)|]. intros magic.
  case_bool_decide; [|apply advances_fail].
  apply (advances_bind 0 0).
  - apply (advances_bind 0 0); [|intros; apply advances_ret].
    apply (advances_mono 4); [lia|]. by apply (reader_take_advances 4).
  - intros v. case_bool_decide; [apply advances_ret|apply advances_fail].
Qed.

Lemma decode_module_verdict bs : decode_module bs ≠ NoFuel.
Proof.
  unfold decode_module. apply (advances_verdict 1 _ _ _ decode_header_advances).
  intros v r Hr. apply bind_verdict; [by apply collect_sections_verdict|].
  intros ps. apply decode_payloads_verdict.
Qed.

(** ** What the decoder guarantees of a module it accepts *)

Definition yields {A} (P : A → Prop) (f : decoder A) : Prop :=
  ∀ r a r', f r = Ok (a, r') → P a.

Lemma yields_bind {A B} (P : A → Prop) (Q : B → Prop) (f : decoder A) (g : A → decoder B) :
  yields P f → (∀ a, P a → yields Q (g a)) → yields Q (λ r, '(x, r) ← f r; g x r).
Proof.
  intros Hf Hg r b r' H'. apply bind_ok in H' as ([a r1] & Ha & Hb).
  eapply Hg; [by eapply Hf|done].
Qed.

Lemma yields_any {A} (f : decoder A) : yields (λ _, True) f.
Proof. done. Qed.

Lemma yields_ret {A} (P : A → Prop) a : P a → yields P (λ r, Ok (a, r)).
Proof. by intros HP r ? ? [= <- <-]. Qed.

Lemma yields_read_n {A} (P : A → Prop) f fuel : ∀ count,
  yields P f → yields (Forall P) (read_n fuel count f).
Proof.
  induction fuel as [|fuel IH]; intros count Hf r xs r'; cbn [read_n];
    (destruct (count <=? 0); [by intros [= <- <-]|]); [done|].
  intros H'. apply bind_ok in H' as ([a r1] & Ha & H').
  apply bind_ok in H' as ([ys r2] & Hys & [= <- <-]).
  constructor; [by eapply Hf|by eapply IH].
Qed.

Lemma yields_read_vec {A} (P : A → Prop) size f :
  yields P f → yields (Forall P) (read_vec size f).
Proof.
  intros Hf. eapply yields_bind; [apply yields_any|]. intros count _ r a r'.
  unfold with_capacity, read_many. destruct (_ <=? _); cbn [mbind res_bind]; [|done].
  by apply yields_read_n.
Qed.

(** Operands fit their fields, and a native call names a native the runtime has. *)
Definition decoded_ok (i : Instr) : Prop :=
  native_known i ∧
  match i with
  | ConstInt _ | ConstDouble _ | ConstStr _ => True
  | CallVirtual _ n => in_u8 n
  | _ => instr_ok i
  end.

Lemma native_index_known name i : native_index name = Some i → in_u32 i ∧ native_name i = Some name.
Proof.
  unfold native_index. intros ([j n] & Hj & ->)%fmap_Some. cbn.
  apply list_find_Some in Hj as (Hj & -> & _).
  pose proof (lookup_lt_Some _ _ _ Hj) as Hlt. change (length NATIVES) with 176%nat in Hlt.
  rewrite as_unsigned_id by (unfold in_unsigned; lia).
  split; [unfold in_unsigned; lia|]. unfold native_name. by rewrite Nat2Z.id.
Qed.

Lemma decode_instr_yields pool : yields decoded_ok (decode_instr pool).
Proof.
  assert (∀ w z, 0 ≤ w → in_unsigned w (as_unsigned w z)) as Hw by apply as_unsigned_range.
  unfold decode_instr. eapply yields_bind; [apply yields_any|]. intros opcode _. cbn zeta.
  repeat match goal with |- yields _ (λ r, if ?b then _ else _) => destruct b end.
  all: try by intros ? ? ? [= <- <-].
  all: repeat match goal with
    | |- yields _ (λ r, mbind _ (ok_or (native_index ?n) _)) =>
        let E := fresh "E" in
        destruct (native_index n) eqn:E; cbn [ok_or mbind res_bind]; [|done];
        apply native_index_known in E as [??]
    | |- yields _ (λ r, mbind _ (read_uvarint r)) =>
        eapply yields_bind; [exact read_uvarint_range|intros ? ?]
    | |- yields _ (λ r, mbind _ (_ r)) => eapply yields_bind; [apply yields_any|intros ? _]
    | |- yields _ (λ r, Ok _) => apply yields_ret; split; cbn; eauto; try (split_and!; auto with lia)
    end.
  all: try apply Hw; try lia.
Qed.

Definition function_decoded (f : Function) : Prop :=
  in_u16 (param_count f) ∧ in_u16 (local_count f) ∧ Forall decoded_ok (code f).

Lemma decode_functions_yields b pool fs :
  decode_functions b pool = Ok fs → Forall function_decoded fs.
Proof.
  rewrite decode_functions_vec. intros Hd. apply bind_ok in Hd as ([xs r] & Hd & [= <-]).
  revert Hd. apply yields_read_vec. unfold decode_function.
  do 2 (eapply yields_bind; [apply yields_any|intros ? _]).
  eapply yields_bind; [apply yields_read_vec, decode_instr_yields|]. intros body Hbody.
  apply yields_ret. split_and!; [apply as_unsigned_range; lia..|done].
Qed.

Lemma name_functions_decoded symbols fs :
  Forall function_decoded fs → Forall function_decoded (name_functions symbols fs).
Proof.
  intros Hfs. apply Forall_lookup. intros i f Hf. unfold name_functions in Hf.
  rewrite list_lookup_imap in Hf. apply fmap_Some in Hf as (g & Hg & ->).
  apply (Forall_lookup_1 _ _ _ _ Hfs Hg).
Qed.

Definition module_decoded (m : Module) : Prop :=
  Forall function_decoded (functions m) ∧ dispatch_synced m.

Lemma on_payload_inv {A} p (d : A) f (P : A → Prop) a :
  on_payload p d f = Ok a → P d → (∀ b, f b = Ok a → P a) → P a.
Proof. destruct p; cbn; intros E Hd Hf; [by eapply Hf|by injection E as <-]. Qed.

Lemma decode_payloads_yields version ps m : decode_payloads version ps = Ok m → module_decoded m.
Proof.
  unfold decode_payloads. intros Hm.
  apply bind_ok in Hm as (pool & _ & Hm). apply bind_ok in Hm as (ts & _ & Hm).
  apply bind_ok in Hm as (fs & Hfs & Hm). apply bind_ok in Hm as (symbols & _ & Hm).
  assert (Forall function_decoded fs) as Hdec.
  { eapply on_payload_inv; [exact Hfs|by constructor|]. intros b. apply decode_functions_yields. }
  assert (module_decoded (with_types (name_functions symbols fs) ts)) as Hm0.
  { split; [by apply name_functions_decoded|]. intros ty. cbn. by rewrite lookup_empty. }
  apply bind_ok in Hm as (m1 & H1 & Hm). apply bind_ok in Hm as (m2 & H2 & Hm).
  apply bind_ok in Hm as (m3 & H3 & Hm).
  assert (module_decoded m1) as Hm1.
  { eapply on_payload_inv; [exact H1|done|]. intros b Hb.
    apply bind_ok in Hb as (es & _ & [= <-]). exact Hm0. }
  assert (module_decoded m2) as Hm2.
  { eapply on_payload_inv; [exact H2|done|]. intros b Hb.
    apply bind_ok in Hb as (es & _ & [= <-]). split; [apply Hm1|apply set_dispatch_synced]. }
  assert (module_decoded m3) as Hm3.
  { eapply on_payload_inv; [exact H3|done|]. intros b Hb.
    apply bind_ok in Hb as ([n r] & _ & [= <-]). exact Hm2. }
  eapply on_payload_inv; [exact Hm|done|]. intros b Hb.
  apply bind_ok in Hb as ([e er] & _ & Hb). apply bind_ok in Hb as ([i r] & _ & [= <-]).
  exact Hm3.
Qed.

Lemma decode_module_yields bs m : decode_module bs = Ok m → module_decoded m.
Proof.
  unfold decode_module. intros Hm. apply bind_ok in Hm as ([v r] & _ & Hm).
  apply bind_ok in Hm as (ps & _ & Hm). by eapply decode_payloads_yields.
Qed.
End wf.

(** ** Properties *)

(** C5: For every well-formed module the encoder succeeds, and decoding the bytes
    gives the module back, with the entry and init functions it resolved by
    name. *)
Theorem module_roundtrip `{Layout} m :
  module_ok m →
  ∃ bs, encode_module m = Ok bs ∧
    (Z.of_nat (length bs) ≤ isize_max → decode_module bs = Ok (resolve_entries m)).
Proof. apply encode_decode_module. Qed.

(** A layout of a 64-bit target, for concrete runs. *)
Definition layout64 : Layout := {|
  sizeof_String := 24; sizeof_DispatchEntry := 32; sizeof_TypeDef := 56;
  sizeof_EnumDef := 56; sizeof_Instr := 32 |}.

Definition sample_module : Module :=
  set_dispatch
    (set_enums
      (with_types [Function_new "helper" 1 2 [Load 0; ConstStr "hi"; CallNative 0 1; Pop; Return];
                   Function_new "main" 0 0 [ConstInt (-70000); Call 0 1; CallVirtual "go" 1; Return]]
                  [TypeDef_named "Point" ["x"; "y"]])
      [EnumDef_new 5 "Color" ["Red"; "Green"]])
    [DispatchEntry_new 0 "go" 0].

Lemma sample_module_ok : @module_ok layout64 sample_module.
Proof. constructor; apply (bool_decide_unpack _); vm_compute; exact I. Qed.

Lemma module_roundtrip_witness :
  ∃ bs, encode_module sample_module = Ok bs ∧
    (Z.of_nat (length bs) ≤ isize_max →
     @decode_module layout64 bs = Ok (resolve_entries sample_module)).
Proof. apply (@module_roundtrip layout64 sample_module), sample_module_ok. Defined.

(** C28: The decoder runs to a verdict on every byte string: a module, a
    [DecodeError] or a panic, with the fuel of its loops never exhausted. *)
Theorem decode_module_total `{Layout} bs : decode_module bs ≠ NoFuel.
Proof. apply decode_module_verdict. Qed.

(** C29: A module the decoder accepts has in-range operands, names only natives the
    runtime knows, and carries a dispatch index in sync with its table. *)
Theorem decode_module_wf `{Layout} bs m :
  decode_module bs = Ok m →
  dispatch_synced m ∧ ∀ f i, f ∈ functions m → i ∈ code f → decoded_ok i.
Proof.
  intros [Hf Hs]%decode_module_yields. split; [done|]. intros f i Hin Hi.
  rewrite Forall_forall in Hf. destruct (Hf f Hin) as (_ & _ & Hc).
  rewrite Forall_forall in Hc. auto.
Qed.

Definition sample_bytes : list u8 :=
  match encode_module sample_module with Ok b => b | _ => [] end.

Lemma decode_module_wf_witness : ∃ m,
  @decode_module layout64 sample_bytes = Ok m ∧ dispatch_synced m ∧
  ∀ f i, f ∈ functions m → i ∈ code f → decoded_ok i.
Proof.
  exists (resolve_entries sample_module). split; [vm_compute; reflexivity|].
  apply (@decode_module_wf layout64 sample_bytes). vm_compute. reflexivity.
Defined.

Lemma reader_take_eq n r :
  0 ≤ n → reader_ok r → Z.of_nat (length (bytes r)) ≤ isize_max → n ≤ isize_max →
  reader_take n r = if decide (n ≤ Z.of_nat (remaining r))
    then Ok (take (Z.to_nat n) (drop (pos r) (bytes r)), mkReader (bytes r) (pos r + Z.to_nat n))
    else Err UnexpectedEof.
Proof.
  unfold reader_take, reader_ok, remaining, isize_max. intros.
  case_decide; case_cmp.
Qed.

(** The header check: fewer than nine bytes are an early end of input unless
    the first five already fail the magic, a wrong magic is [BadMagic], and a
    version outside the supported set is reported with its number. *)
Theorem decode_module_bad_header `{Layout} bs :
  Z.of_nat (length bs) ≤ isize_max →
  ((length bs < 5)%nat → decode_module bs = Err UnexpectedEof) ∧
  ((5 ≤ length bs)%nat → take 5 bs ≠ MAGIC → decode_module bs = Err BadMagic) ∧
  ((5 ≤ length bs < 9)%nat → take 5 bs = MAGIC → decode_module bs = Err UnexpectedEof) ∧
  ((9 ≤ length bs)%nat → take 5 bs = MAGIC →
   ∀ v, from_le_bytes (take 4 (drop 5 bs)) = v → v ∉ SUPPORTED_VERSIONS →
   decode_module bs = Err (UnsupportedVersion v)).
Proof.
  intros Hlen. unfold decode_module, decode_header, read_raw, read_u32_le.
  rewrite reader_take_eq by (try done; unfold reader_ok; cbn; lia).
  change (Z.of_nat (length MAGIC)) with 5. change (Z.to_nat 5) with 5%nat.
  unfold Reader_new, remaining. cbn [bytes pos]. rewrite drop_0, Nat.sub_0_r, Nat.add_0_l.
  split_and!; intros Hl.
  - rewrite decide_False by lia. done.
  - intros Hm. rewrite decide_True by lia. cbn [mbind res_bind]. by rewrite bool_decide_false.
  - intros Hm. rewrite decide_True by lia. cbn [mbind res_bind]. rewrite bool_decide_true by done.
    rewrite reader_take_eq by (try done; unfold reader_ok; cbn; lia).
    unfold remaining. cbn [bytes pos]. rewrite decide_False by lia. done.
  - intros Hm v Hv Hsup. rewrite decide_True by lia. cbn [mbind res_bind].
    rewrite bool_decide_true by done.
    rewrite reader_take_eq by (try done; unfold reader_ok; cbn; lia).
    unfold remaining. cbn [bytes pos]. rewrite decide_True by lia. cbn [mbind res_bind].
    change (Z.to_nat 4) with 4%nat. rewrite Hv. by rewrite bool_decide_false.
Qed.

Lemma decode_module_bad_header_witness :
  @decode_module layout64 (as_bytes "THERA" ++ [9; 0; 0; 0]) = Err (UnsupportedVersion 9).
Proof.
  apply (@decode_module_bad_header layout64 (as_bytes "THERA" ++ [9; 0; 0; 0]));
    [by vm_compute|cbn; lia|reflexivity|reflexivity|].
  apply (bool_decide_unpack _). vm_compute. exact I.
Defined.

(** A string pool whose count claims [u64::MAX] strings. *)
Definition huge_count_bytes : list u8 :=
  MAGIC ++ to_le_bytes 4 VERSION ++ section_bytes (section.CONSTANTS, uvarint (2 ^ 64 - 1)).

(** A count that cannot be allocated makes the decoder panic (capacity
    overflow in [Vec::with_capacity]) instead of returning a [DecodeError],
    whatever the size of a [String]. *)
Theorem decode_module_capacity_panic `{Layout} :
  1 ≤ sizeof_String → decode_module huge_count_bytes = Panic.
Proof.
  intros Hs.
  assert (decode_pool (uvarint (2 ^ 64 - 1)) = Panic) as Hp.
  { unfold decode_pool, read_vec.
    replace (read_uvarint (Reader_new (uvarint (2 ^ 64 - 1)))) with
      (Ok (E:=DecodeError) (2 ^ 64 - 1, mkReader (uvarint (2 ^ 64 - 1)) 10))
      by (vm_compute; reflexivity).
    cbn [mbind res_bind]. unfold with_capacity.
    rewrite (proj2 (Z.leb_gt _ _)) by (unfold isize_max; lia). done. }
  unfold decode_module.
  replace (decode_header (Reader_new huge_count_bytes)) with
    (Ok (E:=DecodeError) (VERSION, mkReader huge_count_bytes 9)) by (vm_compute; reflexivity).
  cbn [mbind res_bind].
  replace (collect_sections _ _ _) with (Ok (E:=DecodeError) (set_payload section.CONSTANTS
    (uvarint (2 ^ 64 - 1)) no_payloads)) by (vm_compute; reflexivity).
  cbn [mbind res_bind]. unfold decode_payloads. cbn [set_payload no_payloads].
  change (consts_payload _) with (Some (uvarint (2 ^ 64 - 1))). cbn [on_payload].
  by rewrite Hp.
Qed.

Lemma decode_module_capacity_panic_witness : @decode_module layout64 huge_count_bytes = Panic.
Proof. apply (@decode_module_capacity_panic layout64). cbn. lia. Defined.
