(* ===== verification/Value.v ===== *)
(** * Runtime values and heap objects (src/runtime/src/value.rs)

    A [Value] is a scalar or a handle into the heap; an [Obj] is what a heap slot
    holds.  A handle is a [nat] (the code's [u32] index, used as [usize]
    everywhere); where the code narrows an index to [u32] the model does too.
    A map object's fields are declared here with its module's operations in
    [MapObj.v]. *)

From Stdlib Require Import ZArith Lia String Ascii.
From stdpp Require Import base numbers list strings.
From S2P Require Import Prelude Bytes Float64.

Open Scope Z_scope.

Inductive Value :=
  | Int (n : i64)
  | Double (x : f64)
  | Bool (b : bool)
  | Unit
  | Ref (handle : nat).

#[export] Instance Value_eq_dec : EqDecision Value.
Proof. solve_decision. Defined.
#[export] Instance Value_inhabited : Inhabited Value := populate Unit.

(** map.rs: entries in insertion order, a hash per entry, and the probe table
    ([EMPTY] or an entry index per slot; empty for a small map). *)
Record MapObj := mkMap {
  entries : list (Value * Value);
  hashes : list u64;
  index : list Z;
}.

Inductive Obj :=
  | Str (s : string)
  | Bytes (b : list u8)
  | BytesBuilder (b : list u8)
  | List (items : list Value)
  | Map (m : MapObj)
  | Struct (ty : u32) (fields : list Value)
  | Enum (ty : u32) (variant : u16) (fields : list Value)
  | Closure (func : u32) (captures : list Value).

(** [for_each_child]: the values the closure is applied to, in order. *)
Definition for_each_child (o : Obj) : list Value :=
  match o with
  | Str _ | Bytes _ | BytesBuilder _ => []
  | List items => items
  | Map m => entries m ≫= λ '(k, v), [k; v]
  | Struct _ fields => fields
  | Enum _ _ fields => fields
  | Closure _ captures => captures
  end.

Lemma entry_children m k v :
  (k, v) ∈ entries m → k ∈ for_each_child (Map m) ∧ v ∈ for_each_child (Map m).
Proof.
  intros Hin. cbn. split; apply list_elem_of_bind; exists (k, v); (split; [|done]).
  - apply list_elem_of_here.
  - apply list_elem_of_further, list_elem_of_here.
Qed.

(** ** Size estimates and the machine's memory

    [heap_bytes] counts capacities, which the allocator chooses: [capacity n] is
    the capacity of a vector or string holding [n] elements.  The sizes are the
    compiler's.  [max_slots] is how many heap slots the machine's memory can hold:
    growing the slab beyond it aborts the process.  It is at most [2^32], several
    hundred GiB of slots, so that a [u32] handle can name every slot. *)
Class Sizes := {
  capacity : nat → Z;
  size_of_Obj : Z;
  size_of_Value : Z;
  size_of_Entry : Z;
  max_slots : nat;
  max_slots_u32 : Z.of_nat max_slots ≤ 2 ^ 32;
}.

Section sizes.
Context `{Sizes}.

Definition map_heap_bytes (m : MapObj) : usize :=
  capacity (length (entries m)) * size_of_Entry +
  capacity (length (hashes m)) * 8 +
  capacity (length (index m)) * 4.

Definition obj_heap_bytes (o : Obj) : usize :=
  let payload :=
    match o with
    | Str s => capacity (length (as_bytes s))
    | Bytes b | BytesBuilder b => capacity (length b)
    | List items => capacity (length items) * size_of_Value
    | Map m => map_heap_bytes m
    | Struct _ fields => capacity (length fields) * size_of_Value
    | Enum _ _ fields => capacity (length fields) * size_of_Value
    | Closure _ captures => capacity (length captures) * size_of_Value
    end in
  size_of_Obj + payload.
End sizes.

(** ** Well-known type ids and tags *)

Definition TY_RESULT : u32 := 0.
Definition TY_OPTION : u32 := 1.
Definition TY_ORDERING : u32 := 2.
Definition TAG_OK : u16 := 0.
Definition TAG_ERR : u16 := 1.
Definition TAG_SOME : u16 := 0.
Definition TAG_NONE : u16 := 1.
Definition TAG_LESS : u16 := 0.
Definition TAG_EQUAL : u16 := 1.
Definition TAG_GREATER : u16 := 2.

(** The objects the constructors [Value::some], [none], [ok], [err] and
    [ordering] allocate. *)
Definition some_obj (v : Value) : Obj := Enum TY_OPTION TAG_SOME [v].
Definition none_obj : Obj := Enum TY_OPTION TAG_NONE [].
Definition ok_obj (v : Value) : Obj := Enum TY_RESULT TAG_OK [v].
Definition err_obj (e : Value) : Obj := Enum TY_RESULT TAG_ERR [e].
Definition ordering_obj (o : comparison) : Obj :=
  Enum TY_ORDERING (match o with Lt => TAG_LESS | Eq => TAG_EQUAL | Gt => TAG_GREATER end) [].

(** ** Rendering doubles

    [f64_to_string] stands for [f64::to_string] of the Rust library. *)
Section format.
Variable f64_to_string : f64 → string.

Definition has_mark (s : string) : bool :=
  existsb (λ b, (b =? 46) || (b =? 101) || (b =? 69)) (as_bytes s).

Definition format_double (x : f64) : string :=
  let s := f64_to_string x in
  if f64_is_finite x && negb (has_mark s) then s +:+ ".0" else s.

Lemma as_bytes_app s t : as_bytes (s +:+ t) = as_bytes s ++ as_bytes t.
Proof.
  induction s as [|c s IH]; [done|]. change (String c s +:+ t) with (String c (s +:+ t)).
  cbn [as_bytes app]. by rewrite IH.
Qed.

(** A finite double is always visibly a double. *)
Lemma format_double_marked x : f64_is_finite x = true → has_mark (format_double x) = true.
Proof.
  intros Hx. unfold format_double. rewrite Hx. cbn.
  destruct (has_mark (f64_to_string x)) eqn:E; cbn; [done|].
  unfold has_mark. rewrite as_bytes_app, existsb_app. by rewrite orb_true_r.
Qed.
End format.
