(* ===== verification/Utf8.v ===== *)
(** * Characters of a string

    What the runtime uses of Rust's [char] and [str]: the UTF-8 encoding of a
    Unicode scalar value, the characters of a string with their byte offsets, and
    character boundaries.  A string is valid UTF-8 exactly when it is the encoding of
    a list of scalar values ([utf8_valid_encoded]), and decoding inverts encoding, so
    a property of valid strings is proved on their characters. *)

From Stdlib Require Import ZArith Lia Ascii.
From stdpp Require Import base numbers list strings.
From S2P Require Import Prelude Bytes Value.

Open Scope Z_scope.

(** [char::from_u32(cp)] accepts exactly these. *)
Definition is_scalar (cp : Z) : bool := between 0 cp 55295 || between 57344 cp 1114111.

(** [char::encode_utf8] *)
Definition encode_char (cp : Z) : list u8 :=
  if cp <? 128 then [cp]
  else if cp <? 2048 then [192 + cp / 64; 128 + cp mod 64]
  else if cp <? 65536 then [224 + cp / 4096; 128 + (cp / 64) mod 64; 128 + cp mod 64]
  else [240 + cp / 262144; 128 + (cp / 4096) mod 64; 128 + (cp / 64) mod 64; 128 + cp mod 64].

Definition encode_chars (cps : list Z) : list u8 := cps ≫= encode_char.

(** [s.chars()] on the bytes of a string. *)
Fixpoint decode_chars (l : list u8) : list Z :=
  match l with
  | [] => []
  | b0 :: l0 =>
    if b0 <? 128 then b0 :: decode_chars l0 else
    match l0 with
    | [] => []
    | b1 :: l1 =>
      if b0 <? 224 then (b0 mod 32) * 64 + b1 mod 64 :: decode_chars l1 else
      match l1 with
      | [] => []
      | b2 :: l2 =>
        if b0 <? 240
        then (b0 mod 16) * 4096 + (b1 mod 64) * 64 + b2 mod 64 :: decode_chars l2 else
        match l2 with
        | [] => []
        | b3 :: l3 =>
          (b0 mod 8) * 262144 + (b1 mod 64) * 4096 + (b2 mod 64) * 64 + b3 mod 64
            :: decode_chars l3
        end
      end
    end
  end.

Definition chars (s : string) : list Z := decode_chars (as_bytes s).
Definition of_chars (cps : list Z) : string := of_bytes (encode_chars cps).

(** [s.char_indices()]: each character with its byte offset, from [i] on. *)
Fixpoint char_indices_from (i : nat) (cps : list Z) : list (nat * Z) :=
  match cps with
  | [] => []
  | c :: cps' => (i, c) :: char_indices_from (i + length (encode_char c)) cps'
  end.
Definition char_indices (s : string) : list (nat * Z) := char_indices_from 0 (chars s).

(** [s.is_char_boundary(i)]: an end, or not a continuation byte. *)
Definition is_char_boundary (l : list u8) (i : nat) : bool :=
  match l !! i with
  | Some b => negb (is_cont b)
  | None => Nat.eqb i (length l)
  end.

(** [char::is_whitespace]: Unicode's White_Space. *)
Definition is_whitespace (c : Z) : bool :=
  between 9 c 13 || (c =? 32) || (c =? 133) || (c =? 160) || (c =? 5760) ||
  between 8192 c 8202 || (c =? 8232) || (c =? 8233) || (c =? 8239) || (c =? 8287) ||
  (c =? 12288).

(** [String::from_utf8_lossy]: each maximal prefix of a malformed sequence becomes
    U+FFFD. *)
Definition replacement_bytes : list u8 := [239; 191; 189].

(** The second bytes a lead byte of three or four admits. *)
Definition second_ok (b0 b1 : u8) : bool :=
  if b0 =? 224 then between 160 b1 191
  else if b0 =? 237 then between 128 b1 159
  else if b0 =? 240 then between 144 b1 191
  else if b0 =? 244 then between 128 b1 143
  else is_cont b1.

Fixpoint utf8_lossy (l : list u8) : list u8 :=
  match l with
  | [] => []
  | b0 :: l0 =>
    if between 0 b0 127 then b0 :: utf8_lossy l0 else
    if between 194 b0 223 then
      match l0 with
      | b1 :: l1 =>
        if is_cont b1 then b0 :: b1 :: utf8_lossy l1 else replacement_bytes ++ utf8_lossy l0
      | [] => replacement_bytes
      end
    else if between 224 b0 244 then
      match l0 with
      | b1 :: l1 =>
        if second_ok b0 b1 then
          match l1 with
          | b2 :: l2 =>
            if is_cont b2 then
              if b0 <=? 239 then b0 :: b1 :: b2 :: utf8_lossy l2 else
              match l2 with
              | b3 :: l3 =>
                if is_cont b3 then b0 :: b1 :: b2 :: b3 :: utf8_lossy l3
                else replacement_bytes ++ utf8_lossy l2
              | [] => replacement_bytes
              end
            else replacement_bytes ++ utf8_lossy l1
          | [] => replacement_bytes
          end
        else replacement_bytes ++ utf8_lossy l0
      | [] => replacement_bytes
      end
    else replacement_bytes ++ utf8_lossy l0
  end.

(** ** Encoding and decoding *)

Lemma encode_chars_cons c cps : encode_chars (c :: cps) = encode_char c ++ encode_chars cps.
Proof. done. Qed.

Lemma encode_chars_app xs ys : encode_chars (xs ++ ys) = encode_chars xs ++ encode_chars ys.
Proof. unfold encode_chars. by rewrite bind_app. Qed.

(** The bytes of a scalar value, by length. *)
Inductive char_bytes : Z → list u8 → Prop :=
  | char1 a : 0 ≤ a < 128 → char_bytes a [a]
  | char2 a b : 2 ≤ a < 32 → 0 ≤ b < 64 →
      char_bytes (a * 64 + b) [192 + a; 128 + b]
  | char3 a b c : 0 ≤ a < 16 → 0 ≤ b < 64 → 0 ≤ c < 64 →
      (a = 0 → 32 ≤ b) → (a = 13 → b < 32) →
      char_bytes (a * 4096 + b * 64 + c) [224 + a; 128 + b; 128 + c]
  | char4 a b c d : 0 ≤ a < 5 → 0 ≤ b < 64 → 0 ≤ c < 64 → 0 ≤ d < 64 →
      (a = 0 → 16 ≤ b) → (a = 4 → b < 16) →
      char_bytes (a * 262144 + b * 4096 + c * 64 + d) [240 + a; 128 + b; 128 + c; 128 + d].

Lemma encode_char_bytes c : is_scalar c = true → char_bytes c (encode_char c).
Proof.
  unfold is_scalar, between. intros Hc. unfold encode_char.
  destruct (Z.ltb_spec c 128); [apply char1; lia|].
  destruct (Z.ltb_spec c 2048).
  { rewrite (Z.div_mod c 64) at 1 by lia. rewrite (Z.mul_comm 64). apply char2; [|apply Z.mod_pos_bound; lia].
    split; [apply Z.div_le_lower_bound|apply Z.div_lt_upper_bound]; lia. }
  destruct (Z.ltb_spec c 65536).
  - replace c with (c / 4096 * 4096 + (c / 64) mod 64 * 64 + c mod 64) at 1.
    + apply char3; try (apply Z.mod_pos_bound; lia).
      * split; [apply Z.div_pos|apply Z.div_lt_upper_bound]; lia.
      * intros Hz. Z.to_euclidean_division_equations. lia.
      * intros Hz. Z.to_euclidean_division_equations. lia.
    + Z.to_euclidean_division_equations. lia.
  - replace c with (c / 262144 * 262144 + (c / 4096) mod 64 * 4096 + (c / 64) mod 64 * 64 + c mod 64) at 1.
    + apply char4; try (apply Z.mod_pos_bound; lia).
      * split; [apply Z.div_pos|apply Z.div_lt_upper_bound]; lia.
      * intros Hz. Z.to_euclidean_division_equations. lia.
      * intros Hz. Z.to_euclidean_division_equations. lia.
    + Z.to_euclidean_division_equations. lia.
Qed.

Lemma char_bytes_encode c bs : char_bytes c bs → is_scalar c = true ∧ bs = encode_char c.
Proof.
  unfold is_scalar, between, encode_char. destruct 1.
  - split; [lia|]. by destruct (Z.ltb_spec a 128); [|lia].
  - split; [lia|]. destruct (Z.ltb_spec (a * 64 + b) 128); [lia|].
    destruct (Z.ltb_spec (a * 64 + b) 2048); [|lia].
    repeat f_equal; Z.to_euclidean_division_equations; lia.
  - split; [lia|]. destruct (Z.ltb_spec (a * 4096 + b * 64 + c) 128); [lia|].
    destruct (Z.ltb_spec (a * 4096 + b * 64 + c) 2048); [lia|].
    destruct (Z.ltb_spec (a * 4096 + b * 64 + c) 65536); [|lia].
    repeat f_equal; Z.to_euclidean_division_equations; lia.
  - split; [lia|]. destruct (Z.ltb_spec (a * 262144 + b * 4096 + c * 64 + d) 128); [lia|].
    destruct (Z.ltb_spec (a * 262144 + b * 4096 + c * 64 + d) 2048); [lia|].
    destruct (Z.ltb_spec (a * 262144 + b * 4096 + c * 64 + d) 65536); [lia|].
    repeat f_equal; Z.to_euclidean_division_equations; lia.
Qed.

Lemma decode_char_bytes c bs l : char_bytes c bs → decode_chars (bs ++ l) = c :: decode_chars l.
Proof.
  destruct 1; cbn [app decode_chars].
  - by destruct (Z.ltb_spec a 128); [|lia].
  - destruct (Z.ltb_spec (192 + a) 128); [lia|]. destruct (Z.ltb_spec (192 + a) 224); [|lia].
    f_equal. Z.to_euclidean_division_equations. lia.
  - destruct (Z.ltb_spec (224 + a) 128); [lia|]. destruct (Z.ltb_spec (224 + a) 224); [lia|].
    destruct (Z.ltb_spec (224 + a) 240); [|lia]. f_equal. Z.to_euclidean_division_equations. lia.
  - destruct (Z.ltb_spec (240 + a) 128); [lia|]. destruct (Z.ltb_spec (240 + a) 224); [lia|].
    destruct (Z.ltb_spec (240 + a) 240); [lia|]. f_equal. Z.to_euclidean_division_equations. lia.
Qed.

Lemma decode_encode_chars cps : Forall (λ c, is_scalar c = true) cps → decode_chars (encode_chars cps) = cps.
Proof.
  induction 1 as [|c cps Hc _ IH]; [done|].
  rewrite encode_chars_cons, (decode_char_bytes c) by by apply encode_char_bytes. by rewrite IH.
Qed.

Lemma char2_of a b : 194 ≤ a ≤ 223 → 128 ≤ b ≤ 191 →
  char_bytes ((a - 192) * 64 + (b - 128)) [a; b].
Proof.
  intros. replace [a; b] with [192 + (a - 192); 128 + (b - 128)] by (repeat f_equal; lia).
  apply char2; lia.
Qed.

Lemma char3_of a b c : 224 ≤ a ≤ 239 → 128 ≤ b ≤ 191 → 128 ≤ c ≤ 191 →
  (a = 224 → 160 ≤ b) → (a = 237 → b ≤ 159) →
  char_bytes ((a - 224) * 4096 + (b - 128) * 64 + (c - 128)) [a; b; c].
Proof.
  intros. replace [a; b; c] with [224 + (a - 224); 128 + (b - 128); 128 + (c - 128)]
    by (repeat f_equal; lia).
  apply char3; lia.
Qed.

Lemma char4_of a b c d : 240 ≤ a ≤ 244 → 128 ≤ b ≤ 191 → 128 ≤ c ≤ 191 → 128 ≤ d ≤ 191 →
  (a = 240 → 144 ≤ b) → (a = 244 → b ≤ 143) →
  char_bytes ((a - 240) * 262144 + (b - 128) * 4096 + (c - 128) * 64 + (d - 128)) [a; b; c; d].
Proof.
  intros. replace [a; b; c; d] with [240 + (a - 240); 128 + (b - 128); 128 + (c - 128); 128 + (d - 128)]
    by (repeat f_equal; lia).
  apply char4; lia.
Qed.

(** Splitting the first character off a valid string. *)
Lemma utf8_valid_step l :
  utf8_valid l = true → l = [] ∨ ∃ c bs l', l = bs ++ l' ∧ char_bytes c bs ∧ utf8_valid l' = true.
Proof.
  destruct l as [|b0 l0]; [by left|]. cbn [utf8_valid]. unfold between, is_cont, between. intros Hv. right.
  destruct ((0 <=? b0) && (b0 <=? 127)) eqn:E1.
  { exists b0, [b0], l0. split_and!; [done|constructor; lia|done]. }
  destruct l0 as [|b1 l1]; [done|].
  destruct ((194 <=? b0) && (b0 <=? 223)) eqn:E2.
  { apply andb_prop in Hv as [Hb Hv]. eexists _, [b0; b1], l1. split_and!; [done|apply char2_of; lia|done]. }
  destruct l1 as [|b2 l2]; [done|].
  destruct (b0 =? 224) eqn:E3.
  { apply andb_prop in Hv as [Hb Hv]. eexists _, [b0; b1; b2], l2. split_and!; [done|apply char3_of; lia|done]. }
  destruct ((225 <=? b0) && (b0 <=? 236) || (238 <=? b0) && (b0 <=? 239)) eqn:E4.
  { apply andb_prop in Hv as [Hb Hv]. eexists _, [b0; b1; b2], l2. split_and!; [done|apply char3_of; lia|done]. }
  destruct (b0 =? 237) eqn:E5.
  { apply andb_prop in Hv as [Hb Hv]. eexists _, [b0; b1; b2], l2. split_and!; [done|apply char3_of; lia|done]. }
  destruct l2 as [|b3 l3]; [done|].
  exists ((b0 - 240) * 262144 + (b1 - 128) * 4096 + (b2 - 128) * 64 + (b3 - 128)), [b0; b1; b2; b3], l3.
  destruct (b0 =? 240) eqn:E6;
    [|destruct ((241 <=? b0) && (b0 <=? 243)) eqn:E7; [|destruct (b0 =? 244) eqn:E8; [|done]]];
    apply andb_prop in Hv as [Hb Hv]; (split_and!; [done|apply char4_of; lia|done]).
Qed.

Lemma utf8_valid_char c bs l : char_bytes c bs → utf8_valid (bs ++ l) = utf8_valid l.
Proof.
  destruct 1; cbn [app utf8_valid]; unfold between, is_cont, between.
  - by replace ((0 <=? a) && (a <=? 127)) with true by lia.
  - replace ((0 <=? 192 + a) && (192 + a <=? 127)) with false by lia.
    replace ((194 <=? 192 + a) && (192 + a <=? 223)) with true by lia.
    by replace ((128 <=? 128 + b) && (128 + b <=? 191)) with true by lia.
  - replace ((0 <=? 224 + a) && (224 + a <=? 127)) with false by lia.
    replace ((194 <=? 224 + a) && (224 + a <=? 223)) with false by lia.
    replace ((128 <=? 128 + c) && (128 + c <=? 191)) with true by lia.
    destruct (Z.eqb_spec (224 + a) 224).
    { by replace ((160 <=? 128 + b) && (128 + b <=? 191)) with true by lia. }
    destruct (Z.eqb_spec (224 + a) 237).
    { replace ((225 <=? 224 + a) && (224 + a <=? 236) || (238 <=? 224 + a) && (224 + a <=? 239))
        with false by lia.
      by replace ((128 <=? 128 + b) && (128 + b <=? 159)) with true by lia. }
    replace ((225 <=? 224 + a) && (224 + a <=? 236) || (238 <=? 224 + a) && (224 + a <=? 239))
      with true by lia.
    by replace ((128 <=? 128 + b) && (128 + b <=? 191)) with true by lia.
  - replace ((0 <=? 240 + a) && (240 + a <=? 127)) with false by lia.
    replace ((194 <=? 240 + a) && (240 + a <=? 223)) with false by lia.
    replace (240 + a =? 224) with false by lia. replace (240 + a =? 237) with false by lia.
    replace ((225 <=? 240 + a) && (240 + a <=? 236) || (238 <=? 240 + a) && (240 + a <=? 239))
      with false by lia.
    replace ((128 <=? 128 + c) && (128 + c <=? 191)) with true by lia.
    replace ((128 <=? 128 + d) && (128 + d <=? 191)) with true by lia.
    destruct (Z.eqb_spec (240 + a) 240).
    { by replace ((144 <=? 128 + b) && (128 + b <=? 191)) with true by lia. }
    destruct (Z.eqb_spec (240 + a) 244).
    { replace ((241 <=? 240 + a) && (240 + a <=? 243)) with false by lia.
      by replace ((128 <=? 128 + b) && (128 + b <=? 143)) with true by lia. }
    replace ((241 <=? 240 + a) && (240 + a <=? 243)) with true by lia.
    by replace ((128 <=? 128 + b) && (128 + b <=? 191)) with true by lia.
Qed.

Abbreviation scalars cps := (Forall (λ c, is_scalar c = true) cps).

Lemma encode_chars_valid cps l : scalars cps → utf8_valid (encode_chars cps ++ l) = utf8_valid l.
Proof.
  induction 1 as [|c cps Hc _ IH]; [done|]. rewrite encode_chars_cons, <-(assoc_L app).
  by rewrite (utf8_valid_char c) by by apply encode_char_bytes.
Qed.

Lemma char_bytes_nonempty c bs : char_bytes c bs → (0 < length bs)%nat.
Proof. destruct 1; cbn; lia. Qed.

(** Valid UTF-8 is the encoding of its characters. *)
Lemma utf8_valid_encoded l :
  utf8_valid l = true ↔ ∃ cps, scalars cps ∧ l = encode_chars cps.
Proof.
  split.
  - remember (length l) as n eqn:Hn. revert l Hn.
    induction (Nat.lt_wf_0 n) as [n _ IH]. intros l -> [->|(c & bs & l' & -> & Hc & Hl')]%utf8_valid_step.
    { by exists []. }
    destruct (IH (length l')) with (l := l') as (cps & Hcps & ->); [|done|done|].
    { rewrite length_app. apply char_bytes_nonempty in Hc. lia. }
    apply char_bytes_encode in Hc as [? ->]. exists (c :: cps). split; [by constructor|done].
  - intros (cps & Hcps & ->). rewrite <-(app_nil_r (encode_chars cps)).
    by rewrite encode_chars_valid.
Qed.

Lemma encode_chars_range cps : scalars cps → Forall in_u8 (encode_chars cps).
Proof.
  induction 1 as [|c cps Hc _ IH]; [constructor|]. rewrite encode_chars_cons. apply Forall_app. split; [|done].
  destruct (encode_char_bytes c Hc); repeat constructor; unfold in_unsigned; lia.
Qed.

Lemma chars_of_chars cps : scalars cps → chars (of_chars cps) = cps.
Proof.
  intros Hcps. unfold chars, of_chars. rewrite as_bytes_of_bytes by by apply encode_chars_range.
  by apply decode_encode_chars.
Qed.

Lemma of_chars_utf8 cps : scalars cps → is_utf8 (of_chars cps).
Proof.
  intros Hcps. unfold is_utf8, of_chars. rewrite as_bytes_of_bytes by by apply encode_chars_range.
  apply utf8_valid_encoded. eauto.
Qed.

(** A valid string is its characters. *)
Lemma utf8_chars s : is_utf8 s → scalars (chars s) ∧ of_chars (chars s) = s.
Proof.
  intros (cps & Hcps & Hs)%utf8_valid_encoded. unfold chars, of_chars.
  rewrite Hs, decode_encode_chars by done. split; [done|]. by rewrite <-Hs, of_bytes_as_bytes.
Qed.

Lemma as_bytes_of_chars cps : scalars cps → as_bytes (of_chars cps) = encode_chars cps.
Proof. intros. unfold of_chars. apply as_bytes_of_bytes. by apply encode_chars_range. Qed.

Lemma utf8_bytes_chars s : is_utf8 s → as_bytes s = encode_chars (chars s).
Proof. intros [Hsc Hs]%utf8_chars. by rewrite <-Hs at 1; rewrite as_bytes_of_chars. Qed.

(** A boundary of an encoded string is a boundary between characters. *)
Lemma char_bytes_cont c bs : char_bytes c bs → ∃ b rest, bs = b :: rest ∧ is_cont b = false ∧ Forall (λ x, is_cont x = true) rest.
Proof. unfold is_cont, between. destruct 1; eexists _, _; (split_and!; [done|lia|]); repeat constructor; lia. Qed.

Lemma is_char_boundary_split cps i :
  scalars cps → is_char_boundary (encode_chars cps) i = true →
  ∃ n, take i (encode_chars cps) = encode_chars (take n cps) ∧
       drop i (encode_chars cps) = encode_chars (drop n cps).
Proof.
  intros Hcps. revert i. induction Hcps as [|c cps Hc Hcps IH]; intros i Hb.
  { exists 0%nat. by destruct i. }
  rewrite encode_chars_cons in *. destruct (char_bytes_cont c (encode_char c)) as (b & rest & He & Hb0 & Hr);
    [by apply encode_char_bytes|].
  destruct i as [|i]; [by exists 0%nat|]. destruct (decide (S i < length (encode_char c))%nat) as [Hlt|Hge].
  { exfalso. unfold is_char_boundary in Hb. rewrite lookup_app_l in Hb by done. rewrite He in *. cbn in *.
    destruct (rest !! i) as [x|] eqn:Hx; [|apply lookup_ge_None in Hx; lia].
    rewrite Forall_lookup in Hr. by rewrite (Hr i x Hx) in Hb. }
  destruct (IH (S i - length (encode_char c))%nat) as (n & Ht & Hd).
  { unfold is_char_boundary in *. rewrite lookup_app_r in Hb by lia. destruct (_ !! _); [done|].
    rewrite length_app in Hb. apply Nat.eqb_eq in Hb. apply Nat.eqb_eq. lia. }
  exists (S n). cbn [take drop]. rewrite encode_chars_cons, <-Ht, <-Hd, take_app_ge, drop_app_ge by lia. done.
Qed.

(** ** Lossy decoding *)

Lemma char_second_ok c bs : char_bytes c bs →
  match bs with b0 :: b1 :: b2 :: _ => second_ok b0 b1 = true | _ => True end.
Proof.
  destruct 1; try done; unfold second_ok, is_cont, between.
  - destruct (Z.eqb_spec (224 + a) 224); [lia|]. destruct (Z.eqb_spec (224 + a) 237); [lia|].
    destruct (Z.eqb_spec (224 + a) 240); [lia|]. destruct (Z.eqb_spec (224 + a) 244); lia.
  - destruct (Z.eqb_spec (240 + a) 224); [lia|]. destruct (Z.eqb_spec (240 + a) 237); [lia|].
    destruct (Z.eqb_spec (240 + a) 240); [lia|]. destruct (Z.eqb_spec (240 + a) 244); lia.
Qed.

Lemma utf8_lossy_char c bs l : char_bytes c bs → utf8_lossy (bs ++ l) = bs ++ utf8_lossy l.
Proof.
  intros Hc. pose proof (char_second_ok c bs Hc) as Hs.
  destruct Hc; cbn [app utf8_lossy]; try rewrite Hs; unfold is_cont, between.
  - by replace ((0 <=? a) && (a <=? 127)) with true by lia.
  - replace ((0 <=? 192 + a) && (192 + a <=? 127)) with false by lia.
    replace ((194 <=? 192 + a) && (192 + a <=? 223)) with true by lia.
    by replace ((128 <=? 128 + b) && (128 + b <=? 191)) with true by lia.
  - replace ((0 <=? 224 + a) && (224 + a <=? 127)) with false by lia.
    replace ((194 <=? 224 + a) && (224 + a <=? 223)) with false by lia.
    replace ((224 <=? 224 + a) && (224 + a <=? 244)) with true by lia.
    replace ((128 <=? 128 + c) && (128 + c <=? 191)) with true by lia.
    by replace (224 + a <=? 239) with true by lia.
  - replace ((0 <=? 240 + a) && (240 + a <=? 127)) with false by lia.
    replace ((194 <=? 240 + a) && (240 + a <=? 223)) with false by lia.
    replace ((224 <=? 240 + a) && (240 + a <=? 244)) with true by lia.
    replace ((128 <=? 128 + c) && (128 + c <=? 191)) with true by lia.
    replace ((128 <=? 128 + d) && (128 + d <=? 191)) with true by lia.
    by replace (240 + a <=? 239) with false by lia.
Qed.

(** Valid text is read unchanged. *)
Lemma utf8_lossy_valid s : is_utf8 s → of_bytes (utf8_lossy (as_bytes s)) = s.
Proof.
  intros Hs. pose proof (utf8_chars s Hs) as [Hsc _]. rewrite (utf8_bytes_chars s Hs).
  assert (∀ cps, scalars cps → utf8_lossy (encode_chars cps) = encode_chars cps) as ->.
  { induction 1 as [|c cps Hc _ IH]; [done|]. rewrite encode_chars_cons.
    rewrite (utf8_lossy_char c) by by apply encode_char_bytes. by rewrite IH. }
  - rewrite <-(utf8_bytes_chars s Hs). apply of_bytes_as_bytes.
  - done.
Qed.
