(* ===== verification/Heap.v ===== *)
(** * The object heap and its collector (src/runtime/src/heap.rs)

    The thread-local cells ([HEAP], [GC_PENDING], [GC_PAUSED], [MAX_HEAP],
    [INTERN], [GLOBALS]) are the fields of one record [Mem] that every operation
    takes and returns.  An out-of-bounds index or a use of an empty slot is a
    [Panic]; growing the slab past the machine's memory is [NoFuel].  The mark loop carries fuel [S (length slots)]: every handle is
    pushed at most once (proved in [HeapProofs.v]).  [values_eq] recurses through
    the heap and carries fuel for its depth; on a cyclic structure the code
    overflows its stack. *)

From Stdlib Require Import ZArith Lia.
From stdpp Require Import base numbers list strings gmap.
From S2P Require Import Prelude Bytes Float64 Value.

Open Scope Z_scope.

Definition MIN_GC_BYTES : usize := 2 ^ 20.
Definition DEFAULT_MAX_HEAP_BYTES : usize := 2 ^ 30.

Record Heap := mkHeap {
  slots : list (option Obj);
  free : list nat;
  heap_bytes : usize;
  next_gc_bytes : usize;
  marked : list bool;
}.

Record Mem := mkMem {
  HEAP : Heap;
  GC_PENDING : bool;
  GC_PAUSED : usize;
  MAX_HEAP : usize;
  INTERN : gmap string Value;
  GLOBALS : list Value;
}.

Definition Heap_init : Heap := mkHeap [] [] 0 MIN_GC_BYTES [].
Definition Mem_init (max_heap : usize) : Mem := mkMem Heap_init false 0 max_heap ∅ [].

Definition set_heap (m : Mem) (h : Heap) : Mem :=
  mkMem h (GC_PENDING m) (GC_PAUSED m) (MAX_HEAP m) (INTERN m) (GLOBALS m).
Definition set_slots (h : Heap) (s : list (option Obj)) : Heap :=
  mkHeap s (free h) (heap_bytes h) (next_gc_bytes h) (marked h).
Definition mem_slots (m : Mem) : list (option Obj) := slots (HEAP m).

(** [max_heap_from_env]: the parsed [THERA_MAX_HEAP_MB], if there is one. *)
Definition saturating_mul (a b : usize) : usize := Z.min (a * b) (2 ^ 64 - 1).
Definition max_heap_from_env (mb : option usize) : usize :=
  match mb with
  | Some mb => saturating_mul mb (2 ^ 20)
  | None => DEFAULT_MAX_HEAP_BYTES
  end.

Definition set_max_heap (m : Mem) (bytes : usize) : Mem :=
  mkMem (HEAP m) (GC_PENDING m) (GC_PAUSED m) bytes (INTERN m) (GLOBALS m).

Definition over_ceiling (m : Mem) : option (usize * usize) :=
  let limit := MAX_HEAP m in
  let live := heap_bytes (HEAP m) in
  if limit <? live then Some (live, limit) else None.

(** ** Globals *)

Definition set_global_values (m : Mem) (g : list Value) : Mem :=
  mkMem (HEAP m) (GC_PENDING m) (GC_PAUSED m) (MAX_HEAP m) (INTERN m) g.

Definition set_globals (m : Mem) (count : nat) : Mem :=
  set_global_values m (resize [] count Unit).

Definition global_get (m : Mem) (idx : u32) : option Value := GLOBALS m !! Z.to_nat idx.

Definition global_set (m : Mem) (idx : u32) (v : Value) : option Mem :=
  match GLOBALS m !! Z.to_nat idx with
  | Some _ => Some (set_global_values m (<[Z.to_nat idx := v]> (GLOBALS m)))
  | None => None
  end.

Definition live (h : Heap) : nat := length (slots h) - length (free h).
Definition object_count (m : Mem) : nat := live (HEAP m).

Section ops.
Context `{Sizes} {E : Type}.

(** ** Allocation and access *)

Definition alloc (m : Mem) (obj : Obj) : res E (Mem * Value) :=
  let heap := HEAP m in
  let bytes := as_u64 (heap_bytes heap + obj_heap_bytes obj) in
  let pending := GC_PENDING m || (next_gc_bytes heap <=? bytes) || (MAX_HEAP m <=? bytes) in
  let done slots_ free_ handle :=
    Ok (mkMem (mkHeap slots_ free_ bytes (next_gc_bytes heap) (marked heap))
          pending (GC_PAUSED m) (MAX_HEAP m) (INTERN m) (GLOBALS m), Ref handle) in
  match vec_pop (free heap) with
  | Some (free', i) =>
      if decide (i < length (slots heap))%nat
      then done (<[i := Some obj]> (slots heap)) free' i
      else Panic
  | None =>
      let slots' := push (slots heap) (Some obj) in
      if decide (length (slots heap) < max_slots)%nat
      then done slots' (free heap) (Z.to_nat (as_u32 (Z.of_nat (length slots' - 1))))
      else NoFuel
  end.

Definition lookup_obj (s : list (option Obj)) (handle : nat) : res E Obj :=
  match s !! handle with Some (Some o) => Ok o | _ => Panic end.

(** [with_obj(handle, f)] and [clone_obj(handle)] read the same object. *)
Definition with_obj {R} (m : Mem) (handle : nat) (f : Obj → R) : res E R :=
  o ← lookup_obj (mem_slots m) handle; Ok (f o).

Definition put_obj (m : Mem) (handle : nat) (o : option Obj) : Mem :=
  set_heap m (set_slots (HEAP m) (<[handle := o]> (mem_slots m))).

Definition with_obj_mut {R} (m : Mem) (handle : nat) (f : Obj → Obj * R) : res E (Mem * R) :=
  o ← lookup_obj (mem_slots m) handle;
  let (o', r) := f o in
  Ok (put_obj m handle (Some o'), r).

Definition take_obj (m : Mem) (handle : nat) : res E (Mem * Obj) :=
  o ← lookup_obj (mem_slots m) handle;
  Ok (put_obj m handle None, o).

Definition restore_obj (m : Mem) (handle : nat) (obj : Obj) : res E Mem :=
  if decide (handle < length (mem_slots m))%nat
  then Ok (put_obj m handle (Some obj)) else Panic.

Definition clone_obj (m : Mem) (handle : nat) : res E Obj := lookup_obj (mem_slots m) handle.

Definition intern_str (m : Mem) (s : string) : res E (Mem * Value) :=
  match INTERN m !! s with
  | Some v => Ok (m, v)
  | None =>
      '(m, v) ← alloc m (Str s);
      Ok (mkMem (HEAP m) (GC_PENDING m) (GC_PAUSED m) (MAX_HEAP m) (<[s := v]> (INTERN m))
            (GLOBALS m), v)
  end.

(** ** Structural equality *)

(** [Vec<T> == Vec<T>]: lengths first, then elements in order, stopping at the
    first difference. *)
Fixpoint all2 {A} (eqb : A → A → res E bool) (xs ys : list A) : res E bool :=
  match xs, ys with
  | x :: xs', y :: ys' => b ← eqb x y; if b : bool then all2 eqb xs' ys' else Ok false
  | _, _ => Ok true
  end.

Definition vec_eq {A} (eqb : A → A → res E bool) (xs ys : list A) : res E bool :=
  if Nat.eqb (length xs) (length ys) then all2 eqb xs ys else Ok false.

Definition pair_eq (eqb : Value → Value → res E bool) (p q : Value * Value) : res E bool :=
  b ← eqb p.1 q.1; if b : bool then eqb p.2 q.2 else Ok false.

(** [Obj == Obj], the derived [PartialEq]. *)
Definition obj_eq (eqb : Value → Value → res E bool) (a b : Obj) : res E bool :=
  match a, b with
  | Str s, Str t => Ok (bool_decide (s = t))
  | Bytes x, Bytes y => Ok (bool_decide (x = y))
  | BytesBuilder x, BytesBuilder y => Ok (bool_decide (x = y))
  | List xs, List ys => vec_eq eqb xs ys
  | Map m, Map n => vec_eq (pair_eq eqb) (entries m) (entries n)
  | Struct t xs, Struct u ys => if t =? u then vec_eq eqb xs ys else Ok false
  | Enum t v xs, Enum u w ys =>
      if t =? u then if v =? w then vec_eq eqb xs ys else Ok false else Ok false
  | Closure f xs, Closure g ys => if f =? g then vec_eq eqb xs ys else Ok false
  | _, _ => Ok false
  end.

Fixpoint values_eq (fuel : nat) (s : list (option Obj)) (a b : Value) : res E bool :=
  match a, b with
  | Int x, Int y => Ok (x =? y)
  | Double x, Double y => Ok (f64_eq x y)
  | Bool x, Bool y => Ok (eqb x y)
  | Unit, Unit => Ok true
  | Ref x, Ref y =>
      if Nat.eqb x y then Ok true else
      match fuel with
      | O => NoFuel
      | S fuel' =>
          oa ← lookup_obj s x;
          ob ← lookup_obj s y;
          obj_eq (values_eq fuel' s) oa ob
      end
  | _, _ => Ok false
  end.

(** ** Garbage collection *)

Definition pause_gc (m : Mem) : Mem :=
  mkMem (HEAP m) (GC_PENDING m) (as_u64 (GC_PAUSED m + 1)) (MAX_HEAP m) (INTERN m) (GLOBALS m).
Definition resume_gc (m : Mem) : Mem :=
  mkMem (HEAP m) (GC_PENDING m) (as_u64 (GC_PAUSED m - 1)) (MAX_HEAP m) (INTERN m) (GLOBALS m).

Definition should_collect (m : Mem) : bool := GC_PENDING m && (GC_PAUSED m =? 0).

(** The mark bitmap and the worklist. *)
Definition mark (st : list bool * list nat) (v : Value) : res E (list bool * list nat) :=
  let (marked, worklist) := st in
  match v with
  | Ref h =>
      match marked !! h with
      | None => Panic
      | Some true => Ok (marked, worklist)
      | Some false => Ok (<[h := true]> marked, push worklist h)
      end
  | _ => Ok (marked, worklist)
  end.

Fixpoint mark_all (st : list bool * list nat) (vs : list Value) :
    res E (list bool * list nat) :=
  match vs with
  | [] => Ok st
  | v :: vs' => st ← mark st v; mark_all st vs'
  end.

(** [while let Some(handle) = worklist.pop() { .. }] *)
Fixpoint mark_loop (fuel : nat) (s : list (option Obj)) (marked : list bool)
    (worklist : list nat) (live_bytes : usize) : res E (list bool * usize) :=
  match vec_pop worklist with
  | None => Ok (marked, live_bytes)
  | Some (worklist, handle) =>
      match fuel with
      | O => NoFuel
      | S fuel' =>
          match s !! handle with
          | None => Panic
          | Some None => mark_loop fuel' s marked worklist live_bytes
          | Some (Some obj) =>
              '(marked, worklist) ← mark_all (marked, worklist) (for_each_child obj);
              mark_loop fuel' s marked worklist (as_u64 (live_bytes + obj_heap_bytes obj))
          end
      end
  end.

(** The sweep over [slots.iter_mut().enumerate()]. *)
Fixpoint sweep (i : nat) (s : list (option Obj)) (marked : list bool) (free : list nat) :
    res E (list (option Obj) * list nat) :=
  match s with
  | [] => Ok ([], free)
  | slot :: s' =>
      '(slot', free) ←
        match slot with
        | Some obj =>
            b ← or_panic (marked !! i);
            if b : bool then Ok (Some obj, free)
            else Ok (None, push free (Z.to_nat (as_u32 (Z.of_nat i))))
        | None => Ok (None, free)
        end;
      '(s'', free) ← sweep (S i) s' marked free;
      Ok (slot' :: s'', free)
  end.

Definition saturating_sub (a b : usize) : usize := Z.max 0 (a - b).

Definition next_threshold (heap_bytes live_bytes floor : usize) : usize :=
  let reclaimed := saturating_sub heap_bytes live_bytes in
  let grow := if (0 <? heap_bytes) && (as_u64 (reclaimed * 4) <? heap_bytes) then 4 else 2 in
  Z.max (as_u64 (live_bytes * grow)) floor.

Definition collect (m : Mem) (roots : list Value) : res E Mem :=
  let heap := HEAP m in
  let marked := resize [] (length (slots heap)) false in
  st ← mark_all (marked, []) roots;
  st ← mark_all st (snd <$> map_to_list (INTERN m));
  '(marked, worklist) ← mark_all st (GLOBALS m);
  '(marked, live_bytes) ← mark_loop (S (length (slots heap))) (slots heap) marked worklist 0;
  '(slots', free') ← sweep 0 (slots heap) marked (free heap);
  let next := next_threshold (heap_bytes heap) live_bytes MIN_GC_BYTES in
  Ok (mkMem (mkHeap slots' free' live_bytes next marked) false (GC_PAUSED m) (MAX_HEAP m)
        (INTERN m) (GLOBALS m)).

Definition maybe_collect (m : Mem) (roots : list Value) : res E Mem :=
  if should_collect m then collect m roots else Ok m.
End ops.
