(* ===== verification/MapObj.v ===== *)
(** * The map object (src/runtime/src/map.rs)

    Insertion-ordered entries with a per-entry hash and, from [HASH_THRESHOLD]
    entries on, an open-addressing index probed linearly.  Key comparison is a
    parameter of the operations ([eqb], which the runtime instantiates with
    [values_eq] on the current heap); an out-of-bounds index is a [Panic].  The
    probe loops carry fuel [S (length index)]: a probe visits every slot once
    before it repeats, and the load factor leaves an empty one (proved in
    [MapProofs.v]). *)

From Stdlib Require Import ZArith Lia.
From stdpp Require Import base numbers list strings gmap.
From S2P Require Import Prelude Bytes Float64 Value Heap.

Open Scope Z_scope.

Definition HASH_THRESHOLD : nat := 16.
Definition EMPTY : Z := -1.

Definition map_default : MapObj := mkMap [] [] [].
Definition map_len (m : MapObj) : nat := length (entries m).
Definition map_is_empty (m : MapObj) : bool := Nat.eqb (length (entries m)) 0.
Definition set_index (m : MapObj) (ix : list Z) : MapObj := mkMap (entries m) (hashes m) ix.

(** [n.next_power_of_two()] for positive [n]. *)
Definition next_power_of_two (n : Z) : Z := 2 ^ Z.log2_up n.

Definition index_capacity_for (n : nat) : Z :=
  next_power_of_two (Z.max (Z.of_nat n * 2) 32).

Section map.
Context {E : Type} (eqb : Value → Value → res E bool).

(** [self.hashes[i] == hash && values_eq(self.entries[i].0, key)] *)
Definition entry_matches (m : MapObj) (i : nat) (key : Value) (hash : u64) : res E bool :=
  h ← or_panic (hashes m !! i);
  if h =? hash then e ← or_panic (entries m !! i); eqb e.1 key else Ok false.

(** [for i in 0..n { .. }] from [i] on. *)
Fixpoint find_linear (n : nat) (m : MapObj) (i : nat) (key : Value) (hash : u64) :
    res E (option nat) :=
  match n with
  | O => Ok None
  | S n' =>
      b ← entry_matches m i key hash;
      if b : bool then Ok (Some i) else find_linear n' m (S i) key hash
  end.

(** The probe loop from [slot] on. *)
Fixpoint find_probe (fuel : nat) (m : MapObj) (slot : Z) (key : Value) (hash : u64) :
    res E (option nat) :=
  match fuel with
  | O => NoFuel
  | S fuel' =>
      e ← or_panic (index m !! Z.to_nat slot);
      if e =? EMPTY then Ok None else
      let ei := Z.to_nat (as_u64 e) in
      b ← entry_matches m ei key hash;
      if b : bool then Ok (Some ei)
      else find_probe fuel' m (Z.land (slot + 1) (Z.of_nat (length (index m)) - 1)) key hash
  end.

Definition map_find (m : MapObj) (key : Value) (hash : u64) : res E (option nat) :=
  if Nat.eqb (length (index m)) 0 then find_linear (length (entries m)) m 0 key hash else
  let mask := Z.of_nat (length (index m)) - 1 in
  find_probe (S (length (index m))) m (Z.land hash mask) key hash.

Definition map_get (m : MapObj) (key : Value) (hash : u64) : res E (option Value) :=
  o ← map_find m key hash;
  match o with
  | Some i => e ← or_panic (entries m !! i); Ok (Some e.2)
  | None => Ok None
  end.

Definition map_contains (m : MapObj) (key : Value) (hash : u64) : res E bool :=
  o ← map_find m key hash; Ok (bool_decide (is_Some o)).

Definition load_exceeded (m : MapObj) : bool :=
  Nat.leb (length (index m) * 3) (length (entries m) * 4).

(** [while self.index[slot] != EMPTY { .. }] *)
Fixpoint probe_empty (fuel : nat) (ix : list Z) (slot : Z) : res E Z :=
  match fuel with
  | O => NoFuel
  | S fuel' =>
      e ← or_panic (ix !! Z.to_nat slot);
      if e =? EMPTY then Ok slot
      else probe_empty fuel' ix (Z.land (slot + 1) (Z.of_nat (length ix) - 1))
  end.

Definition index_insert (ix : list Z) (entry_index : nat) (hash : u64) : res E (list Z) :=
  let mask := Z.of_nat (length ix) - 1 in
  slot ← probe_empty (S (length ix)) ix (Z.land hash mask);
  Ok (<[Z.to_nat slot := as_signed 32 (Z.of_nat entry_index)]> ix).

(** [for i in 0..n { self.index_insert(i, self.hashes[i]) }] from [i] on. *)
Fixpoint index_insert_all (ix : list Z) (i : nat) (hs : list u64) : res E (list Z) :=
  match hs with
  | [] => Ok ix
  | h :: hs' => ix ← index_insert ix i h; index_insert_all ix (S i) hs'
  end.

Definition rebuild_index (m : MapObj) : res E MapObj :=
  let cap := index_capacity_for (length (entries m)) in
  if Nat.ltb (length (hashes m)) (length (entries m)) then Panic else
  ix ← index_insert_all (replicate (Z.to_nat cap) EMPTY) 0 (take (length (entries m)) (hashes m));
  Ok (set_index m ix).

Definition map_insert (m : MapObj) (key : Value) (hash : u64) (val : Value) : res E MapObj :=
  o ← map_find m key hash;
  match o with
  | Some i =>
      e ← or_panic (entries m !! i);
      Ok (mkMap (<[i := (e.1, val)]> (entries m)) (hashes m) (index m))
  | None =>
      let ei := length (entries m) in
      let m := mkMap (push (entries m) (key, val)) (push (hashes m) hash) (index m) in
      if Nat.eqb (length (index m)) 0 then
        if Nat.leb HASH_THRESHOLD (length (entries m)) then rebuild_index m else Ok m
      else if load_exceeded m then rebuild_index m
      else ix ← index_insert (index m) ei hash; Ok (set_index m ix)
  end.

Definition map_remove (m : MapObj) (key : Value) (hash : u64) : res E (MapObj * option Value) :=
  o ← map_find m key hash;
  match o with
  | None => Ok (m, None)
  | Some i =>
      e ← or_panic (entries m !! i);
      _ ← or_panic (hashes m !! i);
      let m := mkMap (delete i (entries m)) (delete i (hashes m)) (index m) in
      m ← (if Nat.eqb (length (index m)) 0 then Ok m else rebuild_index m);
      Ok (m, Some e.2)
  end.

Definition map_clear (m : MapObj) : MapObj := map_default.

(** [from_pairs] with each key hashed just before its insertion. *)
Definition from_pairs (hash_value : Value → res E u64) (pairs : list (Value * Value)) :
    res E MapObj :=
  foldl (λ r p, m ← r; h ← hash_value p.1; map_insert m p.1 h p.2) (Ok map_default) pairs.
End map.

(** ** Content hashing (FNV-1a) *)

Definition FNV_OFFSET : u64 := 0xcbf29ce484222325.
Definition FNV_PRIME : u64 := 0x00000100000001b3.

Definition mix_byte (h : u64) (b : u8) : u64 := as_u64 (Z.lxor h b * FNV_PRIME).
Definition mix_bytes (h : u64) (bs : list u8) : u64 := foldl mix_byte h bs.
Definition mix_u64 (h : u64) (v : u64) : u64 := mix_bytes h (to_le_bytes 8 v).

Section hash.
Context {E : Type}.

(** [for e in items { hash_into(e, h) }] *)
Fixpoint hash_seq (f : Value → u64 → res E u64) (vs : list Value) (h : u64) : res E u64 :=
  match vs with
  | [] => Ok h
  | v :: vs' => h ← f v h; hash_seq f vs' h
  end.

Definition hash_obj (f : Value → u64 → res E u64) (o : Obj) (h : u64) : res E u64 :=
  match o with
  | Str s => Ok (mix_bytes (mix_byte h 5) (as_bytes s))
  | Bytes b | BytesBuilder b => Ok (mix_bytes (mix_byte h 6) b)
  | List items => hash_seq f items (mix_byte h 7)
  | Map m => hash_seq f (entries m ≫= λ '(k, v), [k; v]) (mix_byte h 8)
  | Struct ty fields => hash_seq f fields (mix_u64 (mix_byte h 9) ty)
  | Enum ty variant fields => hash_seq f fields (mix_u64 (mix_u64 (mix_byte h 10) ty) variant)
  | Closure func _ => Ok (mix_u64 (mix_byte h 11) func)
  end.

Fixpoint hash_into (fuel : nat) (s : list (option Obj)) (v : Value) (h : u64) : res E u64 :=
  match v with
  | Int n => Ok (mix_u64 (mix_byte h 1) (as_u64 n))
  | Double x =>
      let bits := if f64_eq x 0 then 0 else x in
      Ok (mix_u64 (mix_byte h 2) bits)
  | Bool b => Ok (mix_byte (mix_byte h 3) (if b then 1 else 0))
  | Unit => Ok (mix_byte h 4)
  | Ref handle =>
      match fuel with
      | O => NoFuel
      | S fuel' => o ← lookup_obj s handle; hash_obj (hash_into fuel' s) o h
      end
  end.

Definition hash_value (fuel : nat) (s : list (option Obj)) (v : Value) : res E u64 :=
  hash_into fuel s v FNV_OFFSET.
End hash.
