(* ===== verification/HeapProofs.v ===== *)
(** * Correctness of the heap and its collector

    [heap_wf]: the free list is exactly the empty slots, without repetition, and
    handles fit [u32].  [no_dangling]: every handle held by a live object, a root,
    a global or an interned constant points at a live object.  [map_shape]: the vectors
    of a map fit together.  The collector keeps exactly what is reachable, in place, and
    these invariants survive every operation. *)

From Stdlib Require Import ZArith Lia.
From stdpp Require Import base numbers list strings gmap.
From S2P Require Import Prelude Bytes Float64 Value Heap MapObj.

Open Scope Z_scope.

(** ** Specification vocabulary *)

Definition is_live (s : list (option Obj)) (h : nat) : Prop := ∃ o, s !! h = Some (Some o).

Definition live_value (s : list (option Obj)) (v : Value) : Prop :=
  match v with Ref h => is_live s h | _ => True end.

Definition in_range (n : nat) (v : Value) : Prop :=
  match v with Ref h => (h < n)%nat | _ => True end.

Inductive reachable (s : list (option Obj)) (roots : list Value) : nat → Prop :=
  | reach_root h : Ref h ∈ roots → reachable s roots h
  | reach_child h o h' :
      reachable s roots h → s !! h = Some (Some o) → Ref h' ∈ for_each_child o →
      reachable s roots h'.

Record heap_wf (h : Heap) : Prop := {
  wf_free_nodup : NoDup (free h);
  wf_free : ∀ i, i ∈ free h ↔ slots h !! i = Some None;
  wf_size : Z.of_nat (length (slots h)) ≤ 2 ^ 32;
}.

Definition slots_closed (s : list (option Obj)) : Prop :=
  ∀ h o, s !! h = Some (Some o) → Forall (live_value s) (for_each_child o).

(** A map whose lookups stay in bounds: a hash per entry, and an index of a power of two
    slots that hold an entry's position or nothing. *)
Record map_shape (m : MapObj) : Prop := {
  shape_hashes : length (hashes m) = length (entries m);
  shape_len : Z.of_nat (length (entries m)) < 2 ^ 31;
  shape_index : index m = [] ∨
    (∃ k, 0 ≤ k ∧ Z.of_nat (length (index m)) = 2 ^ k) ∧
    Forall (λ e, e = EMPTY ∨ 0 ≤ e < Z.of_nat (length (entries m))) (index m);
}.

(** The shape of an object; only a map can be out of shape. *)
Class ObjShape (o : Obj) : Prop := obj_shape : match o with Map m => map_shape m | _ => True end.
#[export] Hint Extern 0 (ObjShape _) => exact I : core typeclass_instances.

Lemma map_default_shape : map_shape map_default.
Proof. constructor; [done|done|by left]. Qed.

(** Everything the collector scans besides the frames. *)
Definition permanent_roots (m : Mem) : list Value :=
  (snd <$> map_to_list (INTERN m)) ++ GLOBALS m.

Record mem_wf (m : Mem) : Prop := {
  wf_heap : heap_wf (HEAP m);
  wf_closed : slots_closed (mem_slots m);
  wf_shapes : ∀ h o, mem_slots m !! h = Some (Some o) → ObjShape o;
  wf_permanent : Forall (live_value (mem_slots m)) (permanent_roots m);
}.

(** A thread's fresh heap. *)
Lemma Mem_init_wf max : mem_wf (Mem_init max).
Proof.
  constructor; [constructor; cbn; [apply NoDup_nil_2| |lia]|done|done|by apply Forall_nil].
  intros i. split; [by intros ?%elem_of_nil|done].
Qed.

#[export] Instance is_live_dec s h : Decision (is_live s h).
Proof.
  unfold is_live. destruct (s !! h) as [[o|]|]; [left; eauto|right; naive_solver..].
Defined.
#[export] Instance live_value_dec s v : Decision (live_value s v).
Proof. destruct v; cbn; apply _. Defined.

Lemma is_live_lt s h : is_live s h → (h < length s)%nat.
Proof. intros [o Ho]. by apply lookup_lt_Some in Ho. Qed.

Lemma live_in_range s v : live_value s v → in_range (length s) v.
Proof. destruct v; cbn; [done..|]. apply is_live_lt. Qed.

(** ** Marking *)

Section marking.
Context `{Sizes} {E : Type}.

Definition mkd (m : list bool) (h : nat) : Prop := m !! h = Some true.

#[local] Instance mkd_dec m h : Decision (mkd m h).
Proof. unfold mkd. apply _. Defined.

Definition unmarked (m : list bool) : nat := length (filter (λ b, b = false) m).

Lemma unmarked_insert m h : m !! h = Some false → unmarked m = S (unmarked (<[h := true]> m)).
Proof.
  unfold unmarked. revert h. induction m as [|b m IH]; intros [|h] Hh; [done..| |].
  - injection Hh as ->. change (<[0%nat := true]> (false :: m)) with (true :: m).
    rewrite !filter_cons. by rewrite decide_True, decide_False.
  - change (<[S h := true]> (b :: m)) with (b :: <[h := true]> m).
    rewrite !filter_cons. case_decide; cbn [length]; by rewrite (IH h Hh).
Qed.

Lemma mkd_insert m h k : mkd (<[h := true]> m) k ↔ mkd m k ∨ (k = h ∧ (h < length m)%nat).
Proof.
  unfold mkd. rewrite list_lookup_insert. case_decide as Hd; [|naive_solver].
  destruct Hd as [-> ?]. naive_solver.
Qed.

Lemma mark_all_ok vs : ∀ m wl,
  Forall (in_range (length m)) vs →
  ∃ m' new, mark_all (E:=E) (m, wl) vs = Ok (m', wl ++ new) ∧
    length m' = length m ∧ NoDup new ∧
    unmarked m = (unmarked m' + length new)%nat ∧
    (∀ h, mkd m' h ↔ mkd m h ∨ Ref h ∈ vs) ∧
    (∀ h, h ∈ new ↔ Ref h ∈ vs ∧ ¬ mkd m h).
Proof.
  induction vs as [|v vs IH]; intros m wl Hr; cbn [mark_all].
  { exists m, []. rewrite app_nil_r. split_and!; [done|done|by apply NoDup_nil|cbn; lia|set_solver..]. }
  apply Forall_cons in Hr as [Hv Hr].
  assert (Hskip : (∀ h, v = Ref h → mkd m h) →
    ∃ m' new, mark_all (E:=E) (m, wl) vs = Ok (m', wl ++ new) ∧
    length m' = length m ∧ NoDup new ∧
    unmarked m = (unmarked m' + length new)%nat ∧
    (∀ h, mkd m' h ↔ mkd m h ∨ Ref h ∈ v :: vs) ∧
    (∀ h, h ∈ new ↔ Ref h ∈ v :: vs ∧ ¬ mkd m h)).
  { intros Hv'. destruct (IH m wl Hr) as (m' & new & ? & ? & ? & ? & Hm & Hn).
    exists m', new. split_and!; [done..| |]; intros h; [rewrite Hm|rewrite Hn];
      rewrite elem_of_cons; naive_solver. }
  destruct v as [| | | |h]; cbn [mark]; try (apply Hskip; intros; discriminate).
  destruct (lookup_lt_is_Some_2 m h Hv) as [[] Hh]; rewrite Hh.
  { apply Hskip. intros h' [= <-]. done. }
  cbn [mbind res_bind]. destruct (IH (<[h:=true]> m) (push wl h)) as
    (m' & new & Hok & Hlen & Hnd & Hcnt & Hm & Hn).
  { by rewrite length_insert. }
  exists m', (h :: new). rewrite length_insert in Hlen.
  unfold push in Hok. rewrite <-app_assoc in Hok. split_and!; [done|done| | | |].
  - constructor; [|done]. rewrite Hn. intros [_ Hc]. apply Hc. unfold mkd.
    by rewrite list_lookup_insert_eq.
  - rewrite (unmarked_insert m h Hh). cbn [length]. lia.
  - intros k. rewrite Hm, mkd_insert, elem_of_cons. naive_solver.
  - intros k. rewrite !elem_of_cons, Hn, mkd_insert. unfold mkd.
    destruct (decide (k = h)) as [->|]; [rewrite Hh; naive_solver|].
    split; [intros [->|[? ?]]|intros [[[= ->]|?] ?]]; naive_solver.
Qed.

Definition slot_bytes (s : list (option Obj)) (h : nat) : Z :=
  match s !! h with Some (Some o) => obj_heap_bytes o | _ => 0 end.

Definition sum_bytes (s : list (option Obj)) (hs : list nat) : Z :=
  foldr Z.add 0 (slot_bytes s <$> hs).

(** The marked handles not waiting on the worklist have their children marked. *)
Definition tri_color (s : list (option Obj)) (m : list bool) (wl : list nat) : Prop :=
  ∀ h o h', mkd m h → h ∉ wl → s !! h = Some (Some o) → Ref h' ∈ for_each_child o → mkd m h'.

(** What the marking loop makes of the marks [m] and the worklist [wl]: it visits [vs]. *)
Definition marked_from (s : list (option Obj)) (m : list bool) (wl : list nat) (m' : list bool) (vs : list nat) : Prop :=
  length m' = length s ∧ (∀ h, mkd m h → mkd m' h) ∧ tri_color s m' [] ∧
  NoDup vs ∧ (∀ h, h ∈ vs ↔ mkd m' h ∧ (¬ mkd m h ∨ h ∈ wl)) ∧
  (∀ R : nat → Prop, (∀ h, mkd m h → R h) →
    (∀ h o h', R h → s !! h = Some (Some o) → Ref h' ∈ for_each_child o → R h') →
    ∀ h, mkd m' h → R h).

Lemma sum_bytes_cons s h vs : sum_bytes s (h :: vs) = slot_bytes s h + sum_bytes s vs.
Proof. done. Qed.

(** Visiting a live object marks its children, [new] of which were not marked. *)
Lemma marked_from_live s m m1 wl h o new m' vs :
  mkd m h → h ∉ wl → s !! h = Some (Some o) →
  (∀ k, mkd m1 k ↔ mkd m k ∨ Ref k ∈ for_each_child o) →
  (∀ k, k ∈ new ↔ Ref k ∈ for_each_child o ∧ ¬ mkd m k) →
  marked_from s m1 (wl ++ new) m' vs → marked_from s m (wl ++ [h]) m' (h :: vs).
Proof.
  intros Hh Hdis Hs Hm1 Hnew (Hlen' & Hsub & Htri' & Hndv & Hvs & Hsound).
  unfold marked_from. split_and!; [done| |done| | |].
  - intros k Hk. apply Hsub, Hm1. by left.
  - constructor; [|done]. rewrite Hvs. intros [_ [Hn|Hin]].
    + apply Hn, Hm1. by left.
    + apply elem_of_app in Hin as [Hin|Hin]; [done|by apply Hnew in Hin as [_ []]].
  - intros k. rewrite elem_of_cons, Hvs, !elem_of_app, list_elem_of_singleton, Hnew, Hm1.
    assert (mkd m' h) as Hh' by (apply Hsub, Hm1; by left).
    destruct (decide (k = h)) as [->|]; [tauto|].
    destruct (decide (mkd m k)); destruct (decide (Ref k ∈ for_each_child o)); tauto.
  - intros R HR Hstep. apply Hsound; [|done]. intros k [?|?]%Hm1; [auto|].
    eapply Hstep; [by apply HR|done|done].
Qed.

(** Visiting a freed slot does nothing. *)
Lemma marked_from_free s m wl h m' vs :
  mkd m h → h ∉ wl → marked_from s m wl m' vs → marked_from s m (wl ++ [h]) m' (h :: vs).
Proof.
  intros Hh Hdis (Hlen' & Hsub & Htri' & Hndv & Hvs & Hsound). unfold marked_from. split_and!; [done|done|done| | |done].
  - constructor; [|done]. rewrite Hvs. by intros [_ [Hn|Hin]].
  - intros k. rewrite elem_of_cons, Hvs, !elem_of_app, list_elem_of_singleton.
    pose proof (Hsub h Hh). destruct (decide (k = h)) as [->|]; tauto.
Qed.

Lemma tri_color_live s m m1 wl h o new :
  tri_color s m (wl ++ [h]) → s !! h = Some (Some o) →
  (∀ k, mkd m1 k ↔ mkd m k ∨ Ref k ∈ for_each_child o) →
  (∀ k, k ∈ new ↔ Ref k ∈ for_each_child o ∧ ¬ mkd m k) → tri_color s m1 (wl ++ new).
Proof.
  intros Htri Hs Hm1 Hnew k o' k' Hk Hkwl Hso Hk'. apply Hm1. apply Hm1 in Hk.
  destruct (decide (k = h)) as [->|Hne]; [right; congruence|].
  left. assert (mkd m k) as Hmk.
  { destruct Hk as [|Hk]; [done|]. apply dec_stable. intros Hn.
    apply Hkwl, elem_of_app. right. by apply Hnew. }
  eapply Htri; [exact Hmk| |done|done]. set_solver.
Qed.

Lemma mark_loop_ok s fuel : ∀ m wl live,
  length m = length s →
  (∀ h o, s !! h = Some (Some o) → Forall (in_range (length s)) (for_each_child o)) →
  NoDup wl → (∀ h, h ∈ wl → mkd m h) → tri_color s m wl →
  (unmarked m + length wl ≤ fuel)%nat → in_u64 live →
  ∃ m' vs, mark_loop (E:=E) fuel s m wl live = Ok (m', as_u64 (live + sum_bytes s vs)) ∧ marked_from s m wl m' vs.
Proof.
  induction fuel as [|fuel IH]; intros m wl live Hlen Hrange Hnd Hwl Htri Hfuel Hlive;
    cbn [mark_loop].
  all: destruct (vec_pop wl) as [[wl' h]|] eqn:Hpop.
  all: try (apply vec_pop_None in Hpop as ->; exists m, []; unfold sum_bytes, marked_from; cbn [fmap list_fmap foldr];
    rewrite Z.add_0_r, as_unsigned_id by done; split_and!;
      [done|done|done|done|by apply NoDup_nil|set_solver|auto]).
  { apply vec_pop_Some in Hpop as ->. rewrite length_app in Hfuel. cbn in Hfuel. lia. }
  apply vec_pop_Some in Hpop as ->. rewrite length_app in Hfuel. cbn in Hfuel.
  apply NoDup_app in Hnd as (Hnd & Hdis & _).
  assert (mkd m h) as Hh by (apply Hwl; set_solver).
  assert (h ∉ wl') as Hnot by (intros Hin; apply (Hdis h); [done|set_solver]).
  destruct (s !! h) as [[o|]|] eqn:Hs.
  - destruct (mark_all_ok (for_each_child o) m wl') as
      (m1 & new & Hok & Hlen1 & Hnd1 & Hcnt & Hm1 & Hnew); [rewrite Hlen; eauto|].
    rewrite Hok. cbn [mbind res_bind].
    destruct (IH m1 (wl' ++ new) (as_u64 (live + obj_heap_bytes o))) as (m' & vs & Hok' & Hfrom).
    + congruence.
    + done.
    + apply NoDup_app. split_and!; [done| |done]. intros k Hk Hk'. apply Hnew in Hk' as [_ Hk'].
      apply Hk', Hwl. set_solver.
    + intros k Hk. apply Hm1. apply elem_of_app in Hk as [Hk|Hk%Hnew]; [|naive_solver].
      left. apply Hwl. set_solver.
    + by eapply tri_color_live.
    + rewrite length_app. lia.
    + apply as_unsigned_range. lia.
    + exists m', (h :: vs). split; [|by eapply marked_from_live].
      rewrite Hok', sum_bytes_cons. unfold slot_bytes. rewrite Hs. unfold as_unsigned.
      rewrite Zplus_mod_idemp_l. do 3 f_equal. lia.
  - destruct (IH m wl' live) as (m' & vs & Hok' & Hfrom); try done.
    + intros k Hk. apply Hwl. set_solver.
    + intros k o' k' Hk Hkwl Hso Hk'. eapply Htri; [exact Hk| |done|done].
      intros [?| ->%list_elem_of_singleton]%elem_of_app; [done|congruence].
    + lia.
    + exists m', (h :: vs). split; [|by apply marked_from_free].
      rewrite Hok', sum_bytes_cons. unfold slot_bytes. by rewrite Hs, Z.add_0_l.
  - apply lookup_ge_None in Hs. unfold mkd in Hh. apply lookup_lt_Some in Hh. lia.
Qed.

(** ** Sweeping *)

(** What a sweep of [s] from slot [i] makes of it. *)
Definition swept (s : list (option Obj)) (m : list bool) (i : nat) (s' : list (option Obj)) (added : list nat) : Prop :=
  length s' = length s ∧
  (∀ j o, s' !! j = Some (Some o) ↔ s !! j = Some (Some o) ∧ mkd m (i + j)) ∧
  NoDup added ∧
  (∀ k, k ∈ added ↔ ∃ j, k = (i + j)%nat ∧ is_live s j ∧ ¬ mkd m k).

Lemma swept_cons s m i slot slot' extra s' added :
  (∀ o, slot' = Some o ↔ slot = Some o ∧ mkd m i) →
  (∀ k, k ∈ extra ↔ k = i ∧ is_Some slot ∧ ¬ mkd m i) → NoDup extra →
  swept s m (S i) s' added → swept (slot :: s) m i (slot' :: s') (extra ++ added).
Proof.
  intros Hslot Hextra Hnde (Hl & Hs' & Hnd & Hadd). unfold swept. split_and!; [by f_equal/=| | |].
  - intros [|j] o; cbn; [rewrite Nat.add_0_r; naive_solver|]. rewrite Hs'. by rewrite Nat.add_succ_r.
  - apply NoDup_app. split_and!; [done| |done]. intros k Hk (j & Hj & _)%Hadd. apply Hextra in Hk as [-> _]. lia.
  - intros k. rewrite elem_of_app, Hextra, Hadd. split.
    + intros [(-> & [o ->] & Hn)|(j & -> & Hl' & Hn)].
      * exists 0%nat. rewrite Nat.add_0_r. split_and!; [done|by exists o|done].
      * exists (S j). split_and!; [lia|done|done].
    + intros ([|j] & -> & Hl' & Hn); [left|right].
      * rewrite Nat.add_0_r in *. destruct Hl' as [o Ho]. cbn in Ho. simplify_eq. eauto.
      * exists j. split_and!; [lia|done|done].
Qed.

Lemma sweep_ok s m : ∀ i fr,
  (i + length s = length m)%nat → Z.of_nat (i + length s) ≤ 2 ^ 32 →
  ∃ s' added, sweep (E:=E) i s m fr = Ok (s', fr ++ added) ∧ swept s m i s' added.
Proof.
  induction s as [|slot s IH]; intros i fr Hlen Hmax; cbn [sweep].
  { exists [], []. rewrite app_nil_r. unfold swept. split_and!; [done|done|naive_solver|by apply NoDup_nil|].
    intros k. split; [set_solver|]. by intros (j & _ & [o Ho] & _). }
  cbn in Hlen, Hmax.
  assert (∀ slot' extra,
    (∀ o, slot' = Some o ↔ slot = Some o ∧ mkd m i) →
    (∀ k, k ∈ extra ↔ k = i ∧ is_Some slot ∧ ¬ mkd m i) → NoDup extra →
    ∃ s' added, ('(s'', fr') ← sweep (E:=E) (S i) s m (fr ++ extra); Ok (slot' :: s'', fr')) =
      Ok (s', fr ++ added) ∧ swept (slot :: s) m i s' added) as Hgo.
  { intros slot' extra Hslot Hextra Hnde. destruct (IH (S i) (fr ++ extra)) as (s' & added & -> & Hsw); [lia..|].
    exists (slot' :: s'), (extra ++ added). rewrite app_assoc. split; [done|by apply swept_cons]. }
  destruct slot as [o|].
  - destruct (lookup_lt_is_Some_2 m i) as [b Hb]; [lia|]. rewrite Hb. cbn [or_panic mbind res_bind].
    destruct b; cbn [mbind res_bind].
    + destruct (Hgo (Some o) []) as (s' & added & Hok & Hrest).
      * unfold mkd. naive_solver.
      * unfold mkd. set_solver.
      * by apply NoDup_nil.
      * exists s', added. rewrite app_nil_r in Hok. done.
    + rewrite as_unsigned_id by (unfold in_unsigned; lia). rewrite Nat2Z.id.
      apply (Hgo None [i]).
      * unfold mkd. rewrite Hb. naive_solver.
      * intros k. rewrite list_elem_of_singleton. unfold mkd. rewrite Hb. naive_solver.
      * apply NoDup_singleton.
  - cbn [mbind res_bind]. destruct (Hgo None []) as (s' & added & Hok & Hrest).
    + naive_solver.
    + intros k. split; [set_solver|]. by intros (_ & [? ?] & _).
    + by apply NoDup_nil.
    + exists s', added. rewrite app_nil_r in Hok. done.
Qed.

(** ** The collection *)

Definition all_roots (m : Mem) (roots : list Value) : list Value := roots ++ permanent_roots m.

Lemma mark_all_app st xs ys :
  mark_all (E:=E) st (xs ++ ys) = st ← mark_all st xs; mark_all st ys.
Proof.
  revert st. induction xs as [|x xs IH]; intros st; cbn [mark_all app]; [done|].
  destruct (mark st x); cbn [mbind res_bind]; [apply IH|done..].
Qed.

Lemma mkd_resize n h : ¬ mkd (resize [] n false) h.
Proof.
  unfold mkd, resize. rewrite take_nil, app_nil_l. intros Hh.
  apply lookup_replicate in Hh as [? _]. done.
Qed.

Lemma unmarked_le m : (unmarked m ≤ length m)%nat.
Proof. apply length_filter. Qed.

Record collected (m : Mem) (roots : list Value) (m' : Mem) : Prop := {
  gc_len : length (mem_slots m') = length (mem_slots m);
  gc_slots : ∀ h o, mem_slots m' !! h = Some (Some o) ↔
    mem_slots m !! h = Some (Some o) ∧ reachable (mem_slots m) (all_roots m roots) h;
  gc_wf : heap_wf (HEAP m');
  gc_bytes : ∃ hs, NoDup hs ∧
    (∀ h, h ∈ hs ↔ reachable (mem_slots m) (all_roots m roots) h) ∧
    heap_bytes (HEAP m') = as_u64 (sum_bytes (mem_slots m) hs);
  gc_next : next_gc_bytes (HEAP m') =
    next_threshold (heap_bytes (HEAP m)) (heap_bytes (HEAP m')) MIN_GC_BYTES;
  gc_pending : GC_PENDING m' = false;
  gc_rest : GC_PAUSED m' = GC_PAUSED m ∧ MAX_HEAP m' = MAX_HEAP m ∧
    INTERN m' = INTERN m ∧ GLOBALS m' = GLOBALS m;
}.

Lemma swept_wf h m s' added live next :
  heap_wf h → length m = length (slots h) →
  (∀ j o, s' !! j = Some (Some o) ↔ slots h !! j = Some (Some o) ∧ mkd m j) →
  length s' = length (slots h) → NoDup added →
  (∀ k, k ∈ added ↔ ∃ j, k = (0 + j)%nat ∧ is_live (slots h) j ∧ ¬ mkd m k) →
  heap_wf (mkHeap s' (free h ++ added) live next m).
Proof.
  intros [Hnd Hfree Hsize] Hm Hs' Hlen Hnda Hadd. constructor; cbn.
  - apply NoDup_app. split_and!; [done| |done]. intros i Hi (j & -> & [o Ho] & _)%Hadd.
    apply Hfree in Hi. cbn in *. congruence.
  - intros i. rewrite elem_of_app, Hfree, Hadd. split.
    + intros Hi. assert (∀ o, s' !! i ≠ Some (Some o)) as Hno.
      { intros o [Ho Hmk]%Hs'. destruct Hi as [?|(j & -> & _ & ?)]; [congruence|done]. }
      assert (i < length s')%nat as Hi'.
      { rewrite Hlen. destruct Hi as [Hi|(j & -> & Hj & _)]; [by apply lookup_lt_Some in Hi|].
        by apply is_live_lt in Hj. }
      destruct (lookup_lt_is_Some_2 s' i Hi') as [[o|] Ho]; [by destruct (Hno o)|done].
    + intros Hi. assert (i < length (slots h))%nat as Hi'.
      { rewrite <-Hlen. by apply lookup_lt_Some in Hi. }
      destruct (lookup_lt_is_Some_2 (slots h) i Hi') as [[o|] Ho]; [right|by left].
      exists i. split_and!; [done|by exists o|]. intros Hmk.
      assert (s' !! i = Some (Some o)) by (apply Hs'; done). congruence.
  - lia.
Qed.

Lemma collect_ok m roots :
  heap_wf (HEAP m) →
  Forall (in_range (length (mem_slots m))) (all_roots m roots) →
  (∀ h o, mem_slots m !! h = Some (Some o) →
    Forall (in_range (length (mem_slots m))) (for_each_child o)) →
  ∃ m', collect (E:=E) m roots = Ok m' ∧ collected m roots m'.
Proof.
  intros Hwf Hroots Hkids. unfold collect.
  set (s := mem_slots m) in *. change (slots (HEAP m)) with s.
  destruct (mark_all_ok (all_roots m roots) (resize [] (length s) false) []) as
    (m1 & wl & Hok1 & Hlen1 & Hnd1 & Hcnt1 & Hm1 & Hwl); [by rewrite length_resize|].
  rewrite length_resize in Hlen1.
  unfold all_roots, permanent_roots in Hok1. rewrite mark_all_app in Hok1.
  apply bind_ok in Hok1 as (st1 & Hr1 & Hok1). rewrite mark_all_app in Hok1. apply bind_ok in Hok1 as (st2 & Hr2 & Hok1).
  rewrite Hr1. cbn [mbind res_bind]. rewrite Hr2. cbn [mbind res_bind]. rewrite Hok1.
  cbn [mbind res_bind app].
  destruct (mark_loop_ok s (S (length s)) m1 wl 0) as
    (m2 & vs & Hok2 & Hlen2 & Hsub & Htri & Hndv & Hvs & Hsound); try done.
  { intros h Hh. apply Hm1. right. by apply Hwl. }
  { intros h o h' Hh Hn Hs Hc. apply Hm1 in Hh as [Hh|Hh]; [by apply mkd_resize in Hh|].
    destruct Hn. apply Hwl. split; [done|]. apply mkd_resize. }
  { pose proof (unmarked_le (resize [] (length s) false)) as Hle.
    rewrite length_resize in Hle. lia. }
  rewrite Hok2. cbn [mbind res_bind]. rewrite Z.add_0_l.
  assert (∀ h, mkd m2 h ↔ reachable s (all_roots m roots) h) as Hreach.
  { intros h. split.
    - apply Hsound; [|intros; by eapply reach_child].
      intros k [Hk|Hk]%Hm1; [by apply mkd_resize in Hk|by apply reach_root].
    - induction 1 as [h Hh|h o h' _ IH Hs Hc].
      + apply Hsub, Hm1. by right.
      + eapply Htri; [exact IH|set_solver|done|done]. }
  destruct (sweep_ok s m2 0 (free (HEAP m))) as (s' & added & Hok3 & Hlen3 & Hs' & Hnd3 & Hadd).
  { cbn. lia. }
  { apply (wf_size _ Hwf). }
  rewrite Hok3. cbn [mbind res_bind]. eexists. split; [done|]. subst s. unfold mem_slots in *. constructor; unfold mem_slots; cbn.
  - done.
  - intros h o. rewrite Hs', <-Hreach. done.
  - by apply swept_wf.
  - exists vs. split_and!; [done| |done]. intros h. rewrite Hvs, Hreach. split; [tauto|].
    intros Hr. split; [done|]. destruct (decide (mkd m1 h)) as [[Hk|Hk]%Hm1|]; [|right|by left].
    + by apply mkd_resize in Hk.
    + apply Hwl. split; [done|]. apply mkd_resize.
  - done.
  - done.
  - done.
Qed.

(** Every reachable handle of a closed heap is live. *)
Lemma reachable_live s roots h :
  slots_closed s → Forall (live_value s) roots → reachable s roots h → is_live s h.
Proof.
  intros Hc Hr. rewrite Forall_forall in Hr. induction 1 as [h Hh|h o h' _ _ Hs Hh'].
  - apply (Hr _ Hh).
  - specialize (Hc h o Hs). rewrite Forall_forall in Hc. apply (Hc _ Hh').
Qed.

Lemma collected_live m roots m' h :
  collected m roots m' → slots_closed (mem_slots m) →
  Forall (live_value (mem_slots m)) (all_roots m roots) →
  is_live (mem_slots m') h ↔ reachable (mem_slots m) (all_roots m roots) h.
Proof.
  intros Hgc Hc Hr. split.
  - intros [o Ho]. by apply (gc_slots _ _ _ Hgc) in Ho as [_ ?].
  - intros Hh. destruct (reachable_live _ _ _ Hc Hr Hh) as [o Ho]. exists o.
    by apply (gc_slots _ _ _ Hgc).
Qed.

Lemma collect_wf m roots :
  mem_wf m → Forall (live_value (mem_slots m)) roots →
  ∃ m', collect (E:=E) m roots = Ok m' ∧ collected m roots m' ∧ mem_wf m' ∧
    Forall (live_value (mem_slots m')) roots.
Proof.
  intros [Hwf Hc Hsh Hp] Hr.
  assert (Forall (live_value (mem_slots m)) (all_roots m roots)) as Hall.
  { apply Forall_app. done. }
  destruct (collect_ok m roots Hwf) as (m' & Hok & Hgc).
  { eapply Forall_impl; [exact Hall|apply live_in_range]. }
  { intros h o Ho. eapply Forall_impl; [exact (Hc h o Ho)|apply live_in_range]. }
  assert (∀ v, v ∈ all_roots m roots → live_value (mem_slots m') v) as Hlive.
  { intros [| | | |h] Hv; cbn; try done. apply (collected_live _ _ _ _ Hgc Hc Hall).
    by apply reach_root. }
  exists m'. split_and!; [done|done| |].
  - constructor; [apply (gc_wf _ _ _ Hgc)| |intros h o Ho; apply (gc_slots _ _ _ Hgc) in Ho as [Ho _]; by apply (Hsh h)|].
    + intros h o Ho. apply (gc_slots _ _ _ Hgc) in Ho as [Ho Hh].
      apply Forall_forall. intros [| | | |h'] Hv; cbn; try done.
      apply (collected_live _ _ _ _ Hgc Hc Hall). by eapply reach_child.
    + apply Forall_forall. intros v Hv. apply Hlive, elem_of_app. right.
      destruct (gc_rest _ _ _ Hgc) as (_ & _ & Hi & Hg). unfold permanent_roots in *.
      by rewrite Hi, Hg in Hv.
  - apply Forall_forall. intros v Hv. apply Hlive, elem_of_app. by left.
Qed.

(** The threshold a collection sets. *)
Lemma next_threshold_bounds heap live :
  0 ≤ heap → 0 ≤ live → heap * 4 < 2 ^ 64 → live * 4 < 2 ^ 64 →
  MIN_GC_BYTES ≤ next_threshold heap live MIN_GC_BYTES ∧
  2 * live ≤ next_threshold heap live MIN_GC_BYTES ≤ Z.max MIN_GC_BYTES (4 * live).
Proof.
  intros Hh Hl Hh4 Hl4. unfold next_threshold, saturating_sub, MIN_GC_BYTES.
  destruct (_ && _).
  all: rewrite (as_unsigned_id 64 (live * _)) by (unfold in_unsigned; lia); lia.
Qed.

(** ** Allocation *)

Definition has_room (h : Heap) : Prop := free h ≠ [] ∨ (length (slots h) < max_slots)%nat.

Record allocated (m : Mem) (o : Obj) (m' : Mem) (h : nat) : Prop := {
  al_fresh : ¬ is_live (mem_slots m) h;
  al_obj : mem_slots m' !! h = Some (Some o);
  al_frame : ∀ k, k ≠ h → mem_slots m' !! k = mem_slots m !! k;
  al_wf : heap_wf (HEAP m');
  al_rest : GC_PAUSED m' = GC_PAUSED m ∧ MAX_HEAP m' = MAX_HEAP m ∧
    INTERN m' = INTERN m ∧ GLOBALS m' = GLOBALS m;
  al_bytes : heap_bytes (HEAP m') = as_u64 (heap_bytes (HEAP m) + obj_heap_bytes o);
  al_pending : GC_PENDING m' = true ↔
    GC_PENDING m = true ∨ next_gc_bytes (HEAP m) ≤ heap_bytes (HEAP m') ∨
    MAX_HEAP m ≤ heap_bytes (HEAP m');
}.

Lemma alloc_ok m o :
  heap_wf (HEAP m) → has_room (HEAP m) →
  ∃ m' h, alloc (E:=E) m o = Ok (m', Ref h) ∧ allocated m o m' h.
Proof.
  intros [Hnd Hfree Hsize] Hroom. unfold alloc.
  destruct (vec_pop (free (HEAP m))) as [[fr i]|] eqn:Hpop.
  - apply vec_pop_Some in Hpop.
    assert (slots (HEAP m) !! i = Some None) as Hi.
    { apply Hfree. rewrite Hpop. set_solver. }
    rewrite decide_True by (by apply lookup_lt_Some in Hi).
    eexists _, i. split; [done|]. rewrite Hpop in *. apply NoDup_app in Hnd as (Hnd & Hd & _).
    pose proof (lookup_lt_Some _ _ _ Hi) as Hlt.
    constructor; unfold mem_slots; cbn.
    + intros [o' Ho]. congruence.
    + by rewrite list_lookup_insert_eq.
    + intros k Hk. by rewrite list_lookup_insert_ne.
    + constructor; cbn; [done| |by rewrite length_insert].
      intros k. destruct (decide (k = i)) as [->|Hne].
      * rewrite list_lookup_insert_eq by done. split; [|done]. intros Hk. destruct (Hd i); set_solver.
      * rewrite list_lookup_insert_ne, <-Hfree by done. set_solver.
    + done.
    + done.
    + rewrite !orb_true_iff, !Z.leb_le. tauto.
  - apply vec_pop_None in Hpop. destruct Hroom as [?|Hroom]; [done|].
    pose proof max_slots_u32. rewrite decide_True by done. unfold push. rewrite length_app. cbn [length]. rewrite Nat.add_sub, (as_unsigned_id 32), Nat2Z.id.
    2:{ unfold in_unsigned. lia. }
    eexists _, _. split; [done|]. rewrite Hpop in *. constructor; unfold mem_slots; cbn.
    + intros [o' Ho]. apply lookup_lt_Some in Ho. lia.
    + by rewrite lookup_app_r, Nat.sub_diag by lia.
    + intros k Hk. destruct (decide (k < length (slots (HEAP m)))%nat).
      * by rewrite lookup_app_l.
      * rewrite !(proj2 (lookup_ge_None _ _)); [done|lia|rewrite length_app; cbn; lia].
    + constructor; cbn; [done| |rewrite length_app; cbn; lia].
      intros k. split; [set_solver|]. intros Hk. exfalso.
      destruct (decide (k < length (slots (HEAP m)))%nat).
      * rewrite lookup_app_l, <-Hfree in Hk by done. set_solver.
      * rewrite lookup_app_r in Hk by lia. destruct (k - _)%nat as [|[]] in Hk; done.
    + done.
    + done.
    + rewrite !orb_true_iff, !Z.leb_le. tauto.
Qed.

Lemma allocated_live m o m' h k :
  allocated m o m' h → is_live (mem_slots m') k ↔ is_live (mem_slots m) k ∨ k = h.
Proof.
  intros Ha. unfold is_live. destruct (decide (k = h)) as [->|Hne].
  - rewrite (al_obj _ _ _ _ Ha). naive_solver.
  - rewrite (al_frame _ _ _ _ Ha) by done. naive_solver.
Qed.

Lemma allocated_live_value m o m' h v :
  allocated m o m' h → live_value (mem_slots m) v → live_value (mem_slots m') v.
Proof. intros Ha. destruct v; cbn; try done. intros. apply (allocated_live _ _ _ _ _ Ha). auto. Qed.

Lemma alloc_wf m o `{!ObjShape o} :
  mem_wf m → has_room (HEAP m) → Forall (live_value (mem_slots m)) (for_each_child o) →
  ∃ m' h, alloc (E:=E) m o = Ok (m', Ref h) ∧ allocated m o m' h ∧ mem_wf m'.
Proof.
  intros [Hwf Hc Hsh Hp] Hroom Ho. destruct (alloc_ok m o Hwf Hroom) as (m' & h & Hok & Ha).
  exists m', h. split_and!; [done|done|].
  assert (∀ l, Forall (live_value (mem_slots m)) l → Forall (live_value (mem_slots m')) l) as Hmono.
  { intros l Hl. eapply Forall_impl; [exact Hl|]. intros v. by apply (allocated_live_value m o m' h). }
  constructor; [apply (al_wf _ _ _ _ Ha)| | |].
  - intros k o' Hk. destruct (decide (k = h)) as [->|Hne].
    + rewrite (al_obj _ _ _ _ Ha) in Hk. simplify_eq. auto.
    + rewrite (al_frame _ _ _ _ Ha) in Hk by done. eauto.
  - intros k o' Hk. destruct (decide (k = h)) as [->|Hne].
    + rewrite (al_obj _ _ _ _ Ha) in Hk. by simplify_eq.
    + rewrite (al_frame _ _ _ _ Ha) in Hk by done. by apply (Hsh k).
  - destruct (al_rest _ _ _ _ Ha) as (_ & _ & Hi & Hg). unfold permanent_roots in *.
    rewrite Hi, Hg. auto.
Qed.

(** What an operation may do to the values that were live: keep them so. *)
Definition keeps_live (m m' : Mem) : Prop :=
  ∀ v, live_value (mem_slots m) v → live_value (mem_slots m') v.

Lemma keeps_live_refl m : keeps_live m m.
Proof. by intros v. Qed.

Lemma keeps_live_trans m1 m2 m3 : keeps_live m1 m2 → keeps_live m2 m3 → keeps_live m1 m3.
Proof. intros H1 H2 v Hv. auto. Qed.

Lemma keeps_live_Forall m m' l :
  keeps_live m m' → Forall (live_value (mem_slots m)) l → Forall (live_value (mem_slots m')) l.
Proof. intros Hk Hl. eapply Forall_impl; [exact Hl|]. apply Hk. Qed.

#[local] Instance has_room_dec h : Decision (has_room h).
Proof. unfold has_room. destruct (free h); [|left; by left]. destruct (decide (length (slots h) < max_slots)%nat).
  - left. by right.
  - right. intros [?|?]; done.
Defined.

Lemma alloc_no_room m o : ¬ has_room (HEAP m) → alloc (E:=E) m o = NoFuel.
Proof.
  unfold has_room, alloc. intros Hn. destruct (vec_pop (free (HEAP m))) as [[fr i]|] eqn:Hp.
  - apply vec_pop_Some in Hp. destruct Hn. left. rewrite Hp. by destruct fr.
  - rewrite decide_False; [done|]. intros ?. apply Hn. by right.
Qed.

Lemma alloc_safe m o `{!ObjShape o} :
  mem_wf m → Forall (live_value (mem_slots m)) (for_each_child o) →
  safe (λ '(m', v), mem_wf m' ∧ live_value (mem_slots m') v ∧ keeps_live m m') (alloc (E:=E) m o).
Proof.
  intros Hm Ho. destruct (decide (has_room (HEAP m))) as [Hr|Hr]; [|by rewrite alloc_no_room].
  destruct (alloc_wf m o Hm Hr Ho) as (m' & h & -> & Ha & Hwf). cbn. split_and!; [done| |].
  - exists o. apply Ha.
  - intros v. by apply (allocated_live_value m o m' h).
Qed.

(** ** Mutation in place *)

Lemma put_obj_live m h o k :
  is_live (mem_slots m) h → is_live (mem_slots (put_obj m h (Some o))) k ↔ is_live (mem_slots m) k.
Proof.
  intros Hh. pose proof (is_live_lt _ _ Hh) as Hlt. destruct Hh as [o' Ho'].
  unfold is_live, put_obj, mem_slots in *. cbn.
  destruct (decide (k = h)) as [->|]; [rewrite list_lookup_insert_eq by done; naive_solver|].
  by rewrite list_lookup_insert_ne.
Qed.

Lemma put_obj_live_value m h o v :
  is_live (mem_slots m) h →
  live_value (mem_slots (put_obj m h (Some o))) v ↔ live_value (mem_slots m) v.
Proof. intros Hh. destruct v; cbn; [done..|]. by apply put_obj_live. Qed.

Lemma put_obj_wf m h o `{!ObjShape o} :
  mem_wf m → is_live (mem_slots m) h → Forall (live_value (mem_slots m)) (for_each_child o) →
  mem_wf (put_obj m h (Some o)).
Proof.
  intros [[Hnd Hfree Hsize] Hc Hsh Hp] Hh Ho. pose proof (is_live_lt _ _ Hh) as Hlt.
  assert (∀ l, Forall (live_value (mem_slots m)) l →
    Forall (live_value (mem_slots (put_obj m h (Some o)))) l) as Hmono.
  { intros l Hl. eapply Forall_impl; [exact Hl|]. intros v. by apply put_obj_live_value. }
  constructor.
  - constructor; cbn; [done| |by rewrite length_insert].
    intros i. rewrite Hfree. destruct (decide (i = h)) as [->|].
    + rewrite list_lookup_insert_eq by done. destruct Hh as [o' Ho']. unfold mem_slots in Ho'.
      rewrite Ho'. naive_solver.
    + by rewrite list_lookup_insert_ne.
  - intros k o' Hk. unfold put_obj, mem_slots in Hk. cbn in Hk.
    destruct (decide (k = h)) as [->|Hne].
    + rewrite list_lookup_insert_eq in Hk by done. simplify_eq. auto.
    + rewrite list_lookup_insert_ne in Hk by done. eauto.
  - intros k o' Hk. unfold put_obj, mem_slots in Hk. cbn in Hk.
    destruct (decide (k = h)) as [->|Hne].
    + rewrite list_lookup_insert_eq in Hk by done. by simplify_eq.
    + rewrite list_lookup_insert_ne in Hk by done. by apply (Hsh k).
  - unfold permanent_roots in *. apply Hmono. done.
Qed.

Lemma with_obj_mut_wf {R} m h (f : Obj → Obj * R) :
  mem_wf m → is_live (mem_slots m) h →
  (∀ o, mem_slots m !! h = Some (Some o) →
    Forall (live_value (mem_slots m)) (for_each_child (f o).1)) →
  (∀ o, mem_slots m !! h = Some (Some o) → ObjShape o → ObjShape (f o).1) →
  ∃ m' r, with_obj_mut (E:=E) m h f = Ok (m', r) ∧ mem_wf m' ∧
    ∀ v, live_value (mem_slots m') v ↔ live_value (mem_slots m) v.
Proof.
  intros Hm Hh Hf Hsh. pose proof Hh as [o Ho]. specialize (Hf o Ho).
  assert (ObjShape (f o).1) by by apply (Hsh o Ho), (wf_shapes _ Hm h).
  unfold with_obj_mut, lookup_obj. rewrite Ho. cbn [mbind res_bind].
  destruct (f o) as [o' r]. eexists _, r. split_and!; [done|by apply put_obj_wf|].
  intros v. by apply put_obj_live_value.
Qed.

(** [take_obj] and [restore_obj] bracket a mutation: the slot is empty in
    between, and putting the object back restores the heap. *)
Lemma take_restore m h o :
  mem_slots m !! h = Some (Some o) →
  ∃ m1, take_obj (E:=E) m h = Ok (m1, o) ∧ mem_slots m1 !! h = Some None ∧
    ∀ o', restore_obj (E:=E) m1 h o' = Ok (put_obj m h (Some o')).
Proof.
  intros Ho. unfold take_obj, lookup_obj. rewrite Ho. cbn [mbind res_bind].
  eexists. split; [done|]. pose proof (lookup_lt_Some _ _ _ Ho) as Hlt.
  unfold put_obj, restore_obj, mem_slots in *. cbn. split; [by rewrite list_lookup_insert_eq|].
  intros o'. rewrite length_insert, decide_True by done.
  unfold put_obj, set_heap, set_slots, mem_slots. cbn. do 3 f_equal. apply list_insert_insert_eq.
Qed.

(** Every interned constant is the live string it stands for. *)
Definition interned_ok (m : Mem) : Prop :=
  ∀ s v, INTERN m !! s = Some v → ∃ h, v = Ref h ∧ mem_slots m !! h = Some (Some (Str s)).

Lemma allocated_interned m o m' h : allocated m o m' h → interned_ok m → interned_ok m'.
Proof.
  intros Ha Hi s v Hv. destruct (al_rest _ _ _ _ Ha) as (_ & _ & HI & _). rewrite HI in Hv.
  destruct (Hi s v Hv) as (k & -> & Hk). exists k. split; [done|].
  rewrite (al_frame _ _ _ _ Ha); [done|]. intros ->. apply (al_fresh _ _ _ _ Ha). by exists (Str s).
Qed.

Lemma intern_str_safe m s :
  mem_wf m →
  safe (λ '(m', v), mem_wf m' ∧ live_value (mem_slots m') v ∧ keeps_live m m')
    (intern_str (E:=E) m s).
Proof.
  intros Hm. unfold intern_str. destruct (INTERN m !! s) as [v|] eqn:Hs.
  { cbn. split_and!; [done| |apply keeps_live_refl]. pose proof (wf_permanent _ Hm) as Hp.
    unfold permanent_roots in Hp. apply Forall_app in Hp as [Hp _]. rewrite Forall_forall in Hp.
    apply Hp, list_elem_of_fmap. exists (s, v). split; [done|]. by apply elem_of_map_to_list. }
  eapply safe_bind; [apply alloc_safe; [done|done|by constructor]|].
  intros [m' v] ([Hwf Hc Hsh Hp] & Hv & Hk). cbn. split_and!; [|done|done].
  constructor; [done|done|done|]. unfold permanent_roots in *. cbn.
  apply Forall_app in Hp as [Hp1 Hp2]. apply Forall_app. split; [|done].
  apply Forall_forall. intros w ([k x] & -> & Hkx)%list_elem_of_fmap.
  apply elem_of_map_to_list in Hkx. cbn. rewrite lookup_insert in Hkx.
  case_decide; simplify_eq; [done|]. rewrite Forall_forall in Hp1.
  apply Hp1, list_elem_of_fmap. exists (k, x). split; [done|]. by apply elem_of_map_to_list.
Qed.

Lemma intern_str_ok m s :
  mem_wf m → interned_ok m → has_room (HEAP m) →
  ∃ m' h, intern_str (E:=E) m s = Ok (m', Ref h) ∧
    mem_slots m' !! h = Some (Some (Str s)) ∧ INTERN m' !! s = Some (Ref h) ∧
    mem_wf m' ∧ interned_ok m' ∧
    (∀ v, live_value (mem_slots m) v → live_value (mem_slots m') v) ∧
    (is_Some (INTERN m !! s) → m' = m).
Proof.
  intros Hm Hi Hroom. unfold intern_str. destruct (INTERN m !! s) as [v|] eqn:Hs.
  { destruct (Hi s v Hs) as (h & -> & Hh). exists m, h. done. }
  destruct (alloc_wf m (Str s) Hm Hroom) as (m' & h & -> & Ha & [Hwf' Hc' Hsh' Hp']);
    [by constructor|]. cbn [mbind res_bind]. eexists _, h. split; [done|].
  match goal with |- context [mem_slots ?x !! h] => set (m2 := x) in * end.
  change (mem_slots m2) with (mem_slots m').
  assert (mem_slots m' !! h = Some (Some (Str s))) as Hh by apply Ha.
  split_and!; [done|by apply lookup_insert_eq| | | |by intros [? ?]].
  - constructor; [done|done|done|]. unfold permanent_roots; cbn.
    apply Forall_app in Hp' as [Hp1 Hp2]. apply Forall_app. split; [|done].
    apply Forall_fmap. rewrite <-Forall_fmap. apply Forall_forall.
    intros v ([k w] & -> & Hk)%list_elem_of_fmap. cbn.
    apply elem_of_map_to_list in Hk. rewrite lookup_insert in Hk. case_decide; simplify_eq.
    + by eexists.
    + rewrite Forall_forall in Hp1. apply Hp1, list_elem_of_fmap. exists (k, w).
      split; [done|]. by apply elem_of_map_to_list.
  - intros t v Hv. cbn in Hv. rewrite lookup_insert in Hv. case_decide; simplify_eq.
    + exists h. done.
    + by apply (allocated_interned m (Str s) m' h Ha Hi).
  - intros v. apply (allocated_live_value m (Str s) m' h v Ha).
Qed.
End marking.

(** ** Properties *)

(** C6: A collection from the frames' values succeeds, keeps exactly the objects
    reachable from those values, the globals and the interned constants, each
    unchanged at its handle, and leaves a well-formed heap without dangling
    handles. *)
Theorem collect_keeps_reachable `{Sizes} {E} m roots :
  mem_wf m → Forall (live_value (mem_slots m)) roots →
  ∃ m', collect (E:=E) m roots = Ok m' ∧
    (∀ h o, mem_slots m' !! h = Some (Some o) ↔
      mem_slots m !! h = Some (Some o) ∧ reachable (mem_slots m) (all_roots m roots) h) ∧
    mem_wf m' ∧ Forall (live_value (mem_slots m')) roots ∧ GC_PENDING m' = false.
Proof.
  intros Hm Hr. destruct (collect_wf (E:=E) m roots Hm Hr) as (m' & Hok & Hgc & Hwf & Hl).
  exists m'. split_and!; [done|apply Hgc|done|done|apply Hgc].
Qed.

(** C36: After a collection the byte estimate is the sum over the reachable objects
    (in [usize]), and while the estimates before and after are below 2^62 the next
    threshold lies between twice and four times it, with a floor of [MIN_GC_BYTES]. *)
Theorem collect_accounting `{Sizes} {E} m roots :
  mem_wf m → Forall (live_value (mem_slots m)) roots →
  ∃ m' hs, collect (E:=E) m roots = Ok m' ∧ NoDup hs ∧
    (∀ h, h ∈ hs ↔ reachable (mem_slots m) (all_roots m roots) h) ∧
    heap_bytes (HEAP m') = as_u64 (sum_bytes (mem_slots m) hs) ∧
    (0 ≤ heap_bytes (HEAP m) < 2 ^ 62 → heap_bytes (HEAP m') < 2 ^ 62 →
     MIN_GC_BYTES ≤ next_gc_bytes (HEAP m') ∧
     2 * heap_bytes (HEAP m') ≤ next_gc_bytes (HEAP m') ≤
       Z.max MIN_GC_BYTES (4 * heap_bytes (HEAP m'))).
Proof.
  intros Hm Hr. destruct (collect_wf (E:=E) m roots Hm Hr) as (m' & Hok & Hgc & _).
  destruct (gc_bytes _ _ _ Hgc) as (hs & Hnd & Hhs & Hb). exists m', hs.
  split_and!; [done..|]. intros Hh Hl. rewrite (gc_next _ _ _ Hgc).
  assert (0 ≤ heap_bytes (HEAP m')) by (rewrite Hb; by apply as_unsigned_range).
  apply next_threshold_bounds; lia.
Qed.

(** Allocation on a heap with room returns a handle that was not in use, holds
    the new object there, leaves every other slot alone, keeps the heap
    well-formed, and arms the collector exactly when the estimate reaches the
    threshold or the ceiling. *)
Theorem alloc_fresh `{Sizes} {E} m o `{!ObjShape o} :
  mem_wf m → has_room (HEAP m) → Forall (live_value (mem_slots m)) (for_each_child o) →
  ∃ m' h, alloc (E:=E) m o = Ok (m', Ref h) ∧ ¬ is_live (mem_slots m) h ∧
    mem_slots m' !! h = Some (Some o) ∧
    (∀ k, k ≠ h → mem_slots m' !! k = mem_slots m !! k) ∧ mem_wf m' ∧
    (GC_PENDING m' = true ↔ GC_PENDING m = true ∨
      next_gc_bytes (HEAP m) ≤ heap_bytes (HEAP m') ∨ MAX_HEAP m ≤ heap_bytes (HEAP m')).
Proof.
  intros Hm Hroom Ho. destruct (alloc_wf (E:=E) m o Hm Hroom Ho) as (m' & h & Hok & Ha & Hwf).
  exists m', h. split_and!; [done|apply Ha|apply Ha|apply Ha|done|apply Ha].
Qed.

(** Interning a constant returns the same handle every time, allocating the
    string at most once, and the handle always holds that string. *)
Theorem intern_str_stable `{Sizes} {E} m s :
  mem_wf m → interned_ok m → has_room (HEAP m) →
  ∃ m' h, intern_str (E:=E) m s = Ok (m', Ref h) ∧
    mem_slots m' !! h = Some (Some (Str s)) ∧ mem_wf m' ∧ interned_ok m' ∧
    intern_str (E:=E) m' s = Ok (m', Ref h).
Proof.
  intros Hm Hi Hroom.
  destruct (intern_str_ok (E:=E) m s Hm Hi Hroom) as (m' & h & Hok & Hh & Hin & Hwf & Hi' & _).
  exists m', h. split_and!; [done..|]. unfold intern_str. by rewrite Hin.
Qed.

(** A small heap: a list of two strings, one of them shared with a global, one
    unreachable string and a hole. *)
Definition sizes64 : Sizes :=
  {| capacity := λ n, Z.of_nat n; size_of_Obj := 80; size_of_Value := 16; size_of_Entry := 32;
     max_slots := 1024; max_slots_u32 := ltac:(lia) |}.

Definition sample_mem : Mem :=
  mkMem (mkHeap [Some (List [Ref 1; Ref 4]); Some (Str "a"); Some (Str "dead"); None; Some (Str "b")]
           [3%nat] 500 MIN_GC_BYTES [])
    true 0 DEFAULT_MAX_HEAP_BYTES ∅ [Ref 1].

Lemma sample_mem_wf : mem_wf sample_mem.
Proof.
  constructor.
  - constructor; [apply NoDup_singleton| |by vm_compute].
    intros i. cbn [free HEAP sample_mem slots]. rewrite list_elem_of_singleton. do 5 (destruct i as [|i]; [by cbn|]). split; [lia|done].
  - intros h o Hh. do 5 (destruct h as [|h]; [cbn in Hh; simplify_eq; repeat constructor; by eexists|]).
    done.
  - intros h o Hh. do 5 (destruct h as [|h]; [cbn in Hh; by simplify_eq|]). done.
  - repeat constructor. by eexists.
Qed.

Lemma sample_roots : Forall (live_value (mem_slots sample_mem)) [Ref 0].
Proof. repeat constructor. by eexists. Qed.

Lemma collect_keeps_reachable_witness : ∃ m',
  collect (H:=sizes64) (E:=Empty_set) sample_mem [Ref 0] = Ok m' ∧
  (∀ h o, mem_slots m' !! h = Some (Some o) ↔
    mem_slots sample_mem !! h = Some (Some o) ∧
    reachable (mem_slots sample_mem) (all_roots sample_mem [Ref 0]) h) ∧
  mem_wf m' ∧ Forall (live_value (mem_slots m')) [Ref 0] ∧ GC_PENDING m' = false.
Proof.
  apply (collect_keeps_reachable (H:=sizes64) sample_mem [Ref 0]);
    [apply sample_mem_wf|apply sample_roots].
Defined.

Lemma collect_accounting_witness : ∃ m' hs,
  collect (H:=sizes64) (E:=Empty_set) sample_mem [Ref 0] = Ok m' ∧ NoDup hs ∧
  heap_bytes (HEAP m') = as_u64 (sum_bytes (H:=sizes64) (mem_slots sample_mem) hs).
Proof.
  destruct (collect_accounting (H:=sizes64) (E:=Empty_set) sample_mem [Ref 0]
    sample_mem_wf sample_roots) as (m' & hs & Hok & Hnd & _ & Hb & _). eauto.
Defined.

Lemma sample_room : has_room (H:=sizes64) (HEAP sample_mem).
Proof. by left. Qed.

Lemma alloc_fresh_witness : ∃ m' h,
  alloc (H:=sizes64) (E:=Empty_set) sample_mem (List [Ref 4]) = Ok (m', Ref h) ∧
  ¬ is_live (mem_slots sample_mem) h ∧ mem_wf m'.
Proof.
  destruct (alloc_fresh (H:=sizes64) (E:=Empty_set) sample_mem (List [Ref 4])
    sample_mem_wf sample_room) as (m' & h & Hok & Hf & _ & _ & Hwf & _).
  { repeat constructor. by eexists. }
  eauto.
Defined.

Lemma intern_str_stable_witness : ∃ m' h,
  intern_str (H:=sizes64) (E:=Empty_set) sample_mem "lit" = Ok (m', Ref h) ∧
  intern_str (H:=sizes64) (E:=Empty_set) m' "lit" = Ok (m', Ref h).
Proof.
  destruct (intern_str_stable (H:=sizes64) (E:=Empty_set) sample_mem "lit" sample_mem_wf)
    as (m' & h & Hok & _ & _ & _ & Hok'); [|apply sample_room|eauto].
  intros s v Hv. done.
Defined.
