(* ===== verification/Equality.v ===== *)
(** * Laws of structural equality

    [values_eq] (heap.rs) against the reference relation [same]: it answers [true] only
    for the same values, and on a closed acyclic heap always answers and decides [same];
    it is symmetric and transitive, reflexive except for NaN. *)

From Stdlib Require Import ZArith Lia.
From stdpp Require Import base numbers list strings gmap.
From S2P Require Import Prelude Bytes Float64 Value Heap HeapProofs.

Open Scope Z_scope.

(** Two objects of the same shape with [R]-related children in order. *)
Inductive obj_rel (R : Value → Value → Prop) : Obj → Obj → Prop :=
  | rel_str s : obj_rel R (Str s) (Str s)
  | rel_bytes b : obj_rel R (Bytes b) (Bytes b)
  | rel_builder b : obj_rel R (BytesBuilder b) (BytesBuilder b)
  | rel_list xs ys : Forall2 R xs ys → obj_rel R (List xs) (List ys)
  | rel_map m n :
      Forall2 (λ p q, R p.1 q.1 ∧ R p.2 q.2) (entries m) (entries n) → obj_rel R (Map m) (Map n)
  | rel_struct t xs ys : Forall2 R xs ys → obj_rel R (Struct t xs) (Struct t ys)
  | rel_enum t v xs ys : Forall2 R xs ys → obj_rel R (Enum t v xs) (Enum t v ys)
  | rel_closure f xs ys : Forall2 R xs ys → obj_rel R (Closure f xs) (Closure f ys).

(** Structural equality of values on the heap [s]. *)
Inductive same (s : list (option Obj)) : Value → Value → Prop :=
  | same_int n : same s (Int n) (Int n)
  | same_double x y : f64_eq x y = true → same s (Double x) (Double y)
  | same_bool b : same s (Bool b) (Bool b)
  | same_unit : same s Unit Unit
  | same_handle h : same s (Ref h) (Ref h)
  | same_obj h k oa ob :
      s !! h = Some (Some oa) → s !! k = Some (Some ob) → obj_rel (same s) oa ob → same s (Ref h) (Ref k).

Lemma Forall2_on_elems {A} (R S : A → A → Prop) xs ys :
  (∀ x y, x ∈ xs → R x y → S x y) → Forall2 R xs ys → Forall2 S xs ys.
Proof.
  intros Hi Hf. induction Hf as [|x y xs ys Hr _ IH]; constructor.
  - apply Hi; [by left|done].
  - apply IH. intros u v Hu. apply Hi. by right.
Qed.

Lemma obj_rel_on_children (R S : Value → Value → Prop) a b :
  (∀ x y, x ∈ for_each_child a → R x y → S x y) → obj_rel R a b → obj_rel S a b.
Proof.
  intros Hi Hr. destruct Hr as [| | |xs ys Hf|m n Hf|t xs ys Hf|t v xs ys Hf|f xs ys Hf]; constructor; try by eapply Forall2_on_elems.
  eapply Forall2_on_elems; [|exact Hf]. intros [k v] [k' v'] [Hk Hv]%entry_children [? ?]. cbn in *. auto.
Qed.

Section eq.
Context {E : Type}.
Implicit Types eqb : Value → Value → res E bool.

Lemma all2_true {A} (eqb : A → A → res E bool) xs ys :
  length xs = length ys →
  all2 eqb xs ys = Ok true ↔ Forall2 (λ x y, eqb x y = Ok true) xs ys.
Proof.
  revert ys. induction xs as [|x xs IH]; intros [|y ys] Hlen; cbn in *; try done.
  rewrite Forall2_cons, <-IH by lia.
  destruct (eqb x y) as [[]| | |]; cbn; naive_solver.
Qed.

Lemma vec_eq_true {A} (eqb : A → A → res E bool) xs ys :
  vec_eq eqb xs ys = Ok true ↔ Forall2 (λ x y, eqb x y = Ok true) xs ys.
Proof.
  unfold vec_eq. destruct (Nat.eqb_spec (length xs) (length ys)) as [Hl|Hl].
  - by apply all2_true.
  - split; [done|]. intros Hf%Forall2_length. done.
Qed.

Lemma pair_eq_true eqb p q :
  pair_eq eqb p q = Ok true ↔ eqb p.1 q.1 = Ok true ∧ eqb p.2 q.2 = Ok true.
Proof. unfold pair_eq. destruct (eqb p.1 q.1) as [[]| | |]; cbn; naive_solver. Qed.

Lemma obj_eq_true eqb a b :
  obj_eq eqb a b = Ok true ↔ obj_rel (λ x y, eqb x y = Ok true) a b.
Proof.
  split.
  - destruct a, b; cbn; try done; intros Hab;
      repeat match type of Hab with
      | context [?x =? ?y] => destruct (Z.eqb_spec x y); [subst|done]
      | context [bool_decide ?P] => case_bool_decide; [subst|done]
      end; constructor; try by apply vec_eq_true.
    apply vec_eq_true in Hab. eapply Forall2_impl; [exact Hab|].
    intros p q. by apply pair_eq_true.
  - destruct 1; cbn; rewrite ?Z.eqb_refl; rewrite ?bool_decide_true by done; try done;
      apply vec_eq_true; try done.
    eapply Forall2_impl; [done|]. intros p q. by apply pair_eq_true.
Qed.

(** *** Lifting symmetry, transitivity and totality through an object *)

Lemma all2_sym {A} (eqb : A → A → res E bool) xs ys :
  (∀ x y, eqb x y = eqb y x) → all2 eqb xs ys = all2 eqb ys xs.
Proof.
  intros Hs. revert ys. induction xs as [|x xs IH]; intros [|y ys]; cbn; try done.
  rewrite Hs. destruct (eqb y x) as [[]| | |]; cbn; auto.
Qed.

Lemma vec_eq_sym {A} (eqb : A → A → res E bool) xs ys :
  (∀ x y, eqb x y = eqb y x) → vec_eq eqb xs ys = vec_eq eqb ys xs.
Proof. intros Hs. unfold vec_eq. rewrite Nat.eqb_sym. destruct (Nat.eqb _ _); [by apply all2_sym|done]. Qed.

Lemma obj_eq_sym eqb a b : (∀ x y, eqb x y = eqb y x) → obj_eq eqb a b = obj_eq eqb b a.
Proof.
  intros Hs. assert (∀ p q, pair_eq eqb p q = pair_eq eqb q p) as Hp.
  { intros p q. unfold pair_eq. rewrite (Hs p.1), (Hs p.2). destruct (eqb q.1 p.1) as [[]| | |]; cbn; auto. }
  destruct a, b; cbn; try done; rewrite ?(Z.eqb_sym ty), ?(Z.eqb_sym variant), ?(Z.eqb_sym func);
    repeat case_match; try done; try (by apply vec_eq_sym); f_equal; apply bool_decide_ext; done.
Qed.

Lemma Forall2_trans {A} (R S T : A → A → Prop) xs ys zs :
  (∀ x y z, R x y → S y z → T x z) → Forall2 R xs ys → Forall2 S ys zs → Forall2 T xs zs.
Proof.
  intros Ht Hxy. revert zs. induction Hxy as [|x y xs ys Hr _ IH]; intros zs Hyz;
    inversion Hyz; subst; constructor; eauto.
Qed.

Lemma obj_rel_trans (R : Value → Value → Prop) a b c :
  (∀ x y z, R x y → R y z → R x z) → obj_rel R a b → obj_rel R b c → obj_rel R a c.
Proof.
  intros Ht [] Hbc; inversion Hbc; subst; constructor; try by eapply Forall2_trans.
  eapply Forall2_trans; [|done|done]. cbn. intros p q r [? ?] [? ?]. eauto.
Qed.

Lemma all2_total {A} (eqb : A → A → res E bool) xs ys :
  (∀ x y, x ∈ xs → y ∈ ys → ∃ r, eqb x y = Ok r) → ∃ r, all2 eqb xs ys = Ok r.
Proof.
  revert ys. induction xs as [|x xs IH]; intros [|y ys] Ht; cbn; eauto.
  destruct (Ht x y) as [[] ->]; [set_solver..| |]; cbn; [|by eauto].
  apply IH. intros; apply Ht; set_solver.
Qed.

Lemma vec_eq_total {A} (eqb : A → A → res E bool) xs ys :
  (∀ x y, x ∈ xs → y ∈ ys → ∃ r, eqb x y = Ok r) → ∃ r, vec_eq eqb xs ys = Ok r.
Proof. intros Ht. unfold vec_eq. destruct (Nat.eqb _ _); [by apply all2_total|eauto]. Qed.

Lemma obj_eq_total eqb a b :
  (∀ x y, x ∈ for_each_child a → y ∈ for_each_child b → ∃ r, eqb x y = Ok r) →
  ∃ r, obj_eq eqb a b = Ok r.
Proof.
  intros Ht. destruct a, b; cbn [obj_eq]; eauto; repeat case_match; eauto using vec_eq_total.
  apply vec_eq_total. intros [k v] [k' v'] [? ?]%entry_children [? ?]%entry_children.
  unfold pair_eq. cbn. destruct (Ht k k') as [[] ->]; [done..| |]; cbn; [|by eauto].
  by apply Ht.
Qed.

(** More fuel for the children does not change an answer. *)
Lemma all2_mono {A} (e1 e2 : A → A → res E bool) xs ys r :
  (∀ x y r, x ∈ xs → y ∈ ys → e1 x y = Ok r → e2 x y = Ok r) → all2 e1 xs ys = Ok r → all2 e2 xs ys = Ok r.
Proof.
  revert ys. induction xs as [|x xs IH]; intros [|y ys] Hm; cbn; try done.
  intros (b & Hb & Hr)%bind_ok. rewrite (Hm x y b) by (set_solver || done). cbn. destruct b; [|done].
  apply IH; [|done]. set_solver.
Qed.

Lemma vec_eq_mono {A} (e1 e2 : A → A → res E bool) xs ys r :
  (∀ x y r, x ∈ xs → y ∈ ys → e1 x y = Ok r → e2 x y = Ok r) → vec_eq e1 xs ys = Ok r → vec_eq e2 xs ys = Ok r.
Proof. intros Hm. unfold vec_eq. destruct (Nat.eqb _ _); [by apply all2_mono|done]. Qed.

Lemma obj_eq_mono (e1 e2 : Value → Value → res E bool) a b r :
  (∀ x y r, x ∈ for_each_child a → y ∈ for_each_child b → e1 x y = Ok r → e2 x y = Ok r) →
  obj_eq e1 a b = Ok r → obj_eq e2 a b = Ok r.
Proof.
  intros Hm. destruct a, b; cbn; try done; repeat case_match; try done; try (by apply vec_eq_mono).
  apply vec_eq_mono. intros [k v] [k' v'] r' [? ?]%entry_children [? ?]%entry_children.
  unfold pair_eq. cbn [fst snd]. intros (c & Hc & Hr)%bind_ok. rewrite (Hm k k' c) by done. cbn.
  destruct c; [|done]. by apply (Hm v v').
Qed.

(** ** [values_eq] *)

Lemma values_eq_mono s n : ∀ n' a b r,
  (n ≤ n')%nat → values_eq (E:=E) n s a b = Ok r → values_eq (E:=E) n' s a b = Ok r.
Proof.
  induction n as [|n IH]; intros [|n'] a b r Hle; try lia; destruct a, b; cbn; try done;
    (destruct (Nat.eqb _ _); [done|]); try done.
  intros (oa & Ha & (ob & Hb & Hr)%bind_ok)%bind_ok. rewrite Ha, Hb. cbn.
  eapply obj_eq_mono; [|exact Hr]. intros. apply IH; [lia|done].
Qed.

Lemma values_eq_symm s n : ∀ a b, values_eq (E:=E) n s a b = values_eq (E:=E) n s b a.
Proof.
  induction n as [|n IH]; intros a b; destruct a, b; cbn; try done;
    rewrite ?(Z.eqb_sym n0), ?(Z.eqb_sym n1), ?(f64_eq_sym x), ?(Nat.eqb_sym handle); try done.
  all: try (by destruct b, b0).
  destruct (Nat.eqb _ _); [done|]. unfold lookup_obj.
  destruct (s !! handle) as [[oa|]|], (s !! handle0) as [[ob|]|]; cbn; try done.
  by apply obj_eq_sym.
Qed.

Lemma values_eq_trans s n : ∀ a b c,
  values_eq (E:=E) n s a b = Ok true → values_eq (E:=E) n s b c = Ok true →
  values_eq (E:=E) n s a c = Ok true.
Proof.
  induction n as [|n IH]; intros a b c; destruct a, b; try done; destruct c; try done; cbn.
  all: try (intros [= ->%Z.eqb_eq] [= ->%Z.eqb_eq]; by rewrite Z.eqb_refl).
  all: try (intros [= Hab] [= Hbc]; f_equal; by eapply f64_eq_trans).
  all: try (by destruct b, b0, b1).
  all: destruct (Nat.eqb_spec handle handle0) as [->|H1]; [done|];
    destruct (Nat.eqb_spec handle0 handle1) as [->|H2]; try done.
  { destruct (Nat.eqb_spec handle handle1); [done|]. auto. }
  destruct (Nat.eqb_spec handle handle1) as [->|H3]; [done|].
  intros (oa & Ha & (ob & Hb & Hr)%bind_ok)%bind_ok.
  intros (ob' & Hb' & (oc & Hc & Hr')%bind_ok)%bind_ok. rewrite Ha, Hc. cbn.
  assert (ob' = ob) as -> by congruence.
  apply obj_eq_true. apply obj_eq_true in Hr, Hr'. eapply obj_rel_trans; eauto.
Qed.

(** Equality decides on every pair of live values of a heap whose structures are
    finite. *)
Definition acyclic (s : list (option Obj)) (rank : nat → nat) : Prop :=
  ∀ h o h', s !! h = Some (Some o) → Ref h' ∈ for_each_child o → (rank h' < rank h)%nat.

Definition value_rank (rank : nat → nat) (v : Value) : nat :=
  match v with Ref h => S (rank h) | _ => 0 end.

Lemma values_eq_decides s rank n : ∀ a b,
  slots_closed s → acyclic s rank → live_value s a → live_value s b →
  (value_rank rank a ≤ n)%nat → ∃ r, values_eq (E:=E) n s a b = Ok r.
Proof.
  induction n as [|n IH]; intros a b Hc Hac Ha Hb Hn; destruct a, b; cbn in *; eauto; try lia.
  destruct (Nat.eqb _ _); [eauto|]. unfold lookup_obj.
  destruct Ha as [oa Hoa], Hb as [ob Hob]. rewrite Hoa, Hob. cbn.
  pose proof (Hc _ _ Hoa) as Hca. pose proof (Hc _ _ Hob) as Hcb.
  rewrite Forall_forall in Hca, Hcb.
  apply obj_eq_total. intros x y Hx Hy. apply IH; auto.
  destruct x as [| | | |k]; cbn; try lia. pose proof (Hac _ _ _ Hoa Hx). lia.
Qed.
(** ** Against the reference *)

Lemma values_eq_sound s n : ∀ a b, values_eq (E:=E) n s a b = Ok true → same s a b.
Proof.
  induction n as [|n IH]; intros a b; destruct a, b; cbn; try done.
  all: try (by intros [= ->%Z.eqb_eq]; constructor).
  all: try (by intros [= ?]; constructor).
  all: try (intros [= ->%eqb_prop]; constructor).
  all: try (intros _; apply same_unit).
  all: destruct (Nat.eqb_spec handle handle0) as [->|Hne]; [intros _; constructor|]; try done.
  unfold lookup_obj. destruct (s !! handle) as [[oa|]|] eqn:Ha; try done. cbn.
  destruct (s !! handle0) as [[ob|]|] eqn:Hb; try done. cbn. intros Ho%obj_eq_true.
  eapply same_obj; [exact Ha|exact Hb|]. eapply obj_rel_on_children; [|exact Ho]. intros x y _. apply IH.
Qed.

Lemma values_eq_complete s rank n : ∀ a b,
  acyclic s rank → same s a b → (value_rank rank a ≤ n)%nat → values_eq (E:=E) n s a b = Ok true.
Proof.
  induction n as [|n IH]; intros a b Hac Hs Hn; destruct Hs as [m|x y Hxy|b| |h|h k oa ob Ha Hb Hr]; cbn in *;
    rewrite ?Z.eqb_refl, ?Nat.eqb_refl, ?eqb_reflx, ?Hxy; try done; try lia.
  destruct (Nat.eqb h k); [done|]. unfold lookup_obj. rewrite Ha, Hb. cbn.
  apply obj_eq_true. eapply obj_rel_on_children; [|exact Hr]. intros x y Hx Hxy. apply IH; [done|done|].
  destruct x as [| | | |h']; cbn; try lia. pose proof (Hac _ _ _ Ha Hx). lia.
Qed.
End eq.

(** ** Properties *)

(** C38: [values_eq] decides structural equality.  The reference relation [same] is
    defined from the heap alone: integers, booleans and unit by identity, doubles by the
    equality of IEEE 754, references to one object, and references to two objects of the
    same constructor with the same type, variant, function, text or bytes and the same
    children in order.  Whenever [values_eq] answers [true] the values are the same, on
    any heap, cyclic or not.  On a heap without dangling references whose structures are
    finite it always answers, with enough fuel for the depth of the first value, and
    answers [true] exactly for the same values.  Swapping the values changes nothing,
    failures included, and the answer [true] is transitive. *)
Theorem values_eq_structural {E} s :
  (∀ n a b, values_eq (E:=E) n s a b = Ok true → same s a b) ∧
  (∀ rank n a b, slots_closed s → acyclic s rank → live_value s a → live_value s b → (value_rank rank a ≤ n)%nat →
    ∃ r : bool, values_eq (E:=E) n s a b = Ok r ∧ (r = true ↔ same s a b)) ∧
  (∀ n a b, values_eq (E:=E) n s a b = values_eq (E:=E) n s b a) ∧
  (∀ n a b c, values_eq (E:=E) n s a b = Ok true → values_eq (E:=E) n s b c = Ok true →
    values_eq (E:=E) n s a c = Ok true).
Proof.
  split_and!; [intros n; apply values_eq_sound| |intros n; apply values_eq_symm|intros n; apply values_eq_trans].
  intros rank n a b Hc Hac Ha Hb Hn. destruct (values_eq_decides (E:=E) s rank n a b Hc Hac Ha Hb Hn) as [r Hr].
  exists r. split; [done|]. split; [intros ->; by eapply values_eq_sound|]. intros Hs.
  pose proof (values_eq_complete (E:=E) s rank n a b Hac Hs Hn). congruence.
Qed.

(** Three lists of equal contents, and one that differs. *)
Definition three_lists : list (option Obj) :=
  [Some (Str "a"); Some (Str "a"); Some (List [Ref 0; Int 1]); Some (List [Ref 1; Int 1]); Some (List [Ref 1; Int 1]);
   Some (Closure 2 [Int 1]); Some (Closure 3 [Int 1])].

Definition list_rank (h : nat) : nat := if Nat.ltb h 2 then 0 else 1.

Lemma three_lists_ok : slots_closed three_lists ∧ acyclic three_lists list_rank.
Proof.
  split.
  - intros h o Ho. do 7 (destruct h as [|h]; [cbn in Ho; simplify_eq; repeat constructor; by eexists|]). done.
  - intros h o k Ho Hk. do 7 (destruct h as [|h]; [cbn in Ho; simplify_eq; cbn in *; set_solver by (cbn; lia)|]). done.
Qed.

Lemma values_eq_structural_witness :
  values_eq (E:=Empty_set) 2 three_lists (Ref 2) (Ref 4) = Ok true ∧ same three_lists (Ref 2) (Ref 4) ∧
  ¬ same three_lists (Ref 5) (Ref 6).
Proof.
  destruct three_lists_ok as [Hc Hac].
  destruct (values_eq_structural (E:=Empty_set) three_lists) as (Hsound & Hdec & _ & Htrans).
  assert (values_eq (E:=Empty_set) 2 three_lists (Ref 2) (Ref 4) = Ok true) as H24
    by (apply (Htrans 2%nat (Ref 2) (Ref 3) (Ref 4)); reflexivity).
  split; [exact H24|]. split; [exact (Hsound _ _ _ H24)|].
  destruct (Hdec list_rank 2%nat (Ref 5) (Ref 6) Hc Hac) as (r & Hr & Hiff); [by eexists..|cbn; lia|].
  injection Hr as <-. intros Hs%Hiff. discriminate.
Defined.

(** On a closed heap whose structures are finite, comparing two live values
    terminates with an answer, without a panic, and more fuel gives the same
    answer. *)
Theorem values_eq_terminates {E} s rank a b :
  slots_closed s → acyclic s rank → live_value s a → live_value s b →
  ∃ r, ∀ n, (value_rank rank a ≤ n)%nat → values_eq (E:=E) n s a b = Ok r.
Proof.
  intros Hc Hac Ha Hb.
  destruct (values_eq_decides (E:=E) s rank (value_rank rank a) a b Hc Hac Ha Hb) as [r Hr]; [lia|].
  exists r. intros n Hn. by eapply values_eq_mono.
Qed.

Lemma sample_acyclic : acyclic (mem_slots sample_mem) (λ h, if Nat.eqb h 0 then 1%nat else 0%nat).
Proof.
  intros h o h' Hh Hin. do 5 (destruct h as [|h]; [cbn in Hh; simplify_eq; cbn in *; set_solver by lia|]).
  done.
Qed.

Lemma values_eq_terminates_witness : ∃ r, ∀ n, (2 ≤ n)%nat →
  values_eq (E:=Empty_set) n (mem_slots sample_mem) (Ref 0) (Ref 2) = Ok r.
Proof.
  apply (values_eq_terminates (mem_slots sample_mem) (λ h, if Nat.eqb h 0 then 1%nat else 0%nat)
    (Ref 0) (Ref 2)).
  - apply sample_mem_wf.
  - apply sample_acyclic.
  - by eexists.
  - by eexists.
Defined.
