(* ===== verification/MapProofs.v ===== *)
(** * The map object implements an insertion-ordered association list

    [KeyLaws] is what the map needs of key comparison and hashing; the heap
    provides it for live, finite keys (last section).  [map_wf] ties the hashes and
    the probe table to the entries; every operation keeps it and refines the
    association-list operation on the entries, with or without the table. *)

From Stdlib Require Import ZArith Lia.
From stdpp Require Import base numbers list strings gmap.
From S2P Require Import Prelude Bytes Float64 Value Heap HeapProofs Equality MapObj.

Open Scope Z_scope.

(** Comparison answers [beq] on the keys of [dom], which is a partial equivalence
    there, and equal keys have equal 64-bit hashes. *)
Class KeyLaws {E} (eqb : Value → Value → res E bool) (dom : Value → Prop)
    (beq : Value → Value → bool) (hashf : Value → Z) : Prop := {
  key_eqb : ∀ a b, dom a → dom b → eqb a b = Ok (beq a b);
  key_sym : ∀ a b, dom a → dom b → beq a b = true → beq b a = true;
  key_trans : ∀ a b c, dom a → dom b → dom c →
    beq a b = true → beq b c = true → beq a c = true;
  key_hash : ∀ a b, dom a → dom b → beq a b = true → hashf a = hashf b;
  key_hash_range : ∀ a, dom a → in_u64 (hashf a);
}.

(** ** The abstract map *)

Section spec.
Context (beq : Value → Value → bool).

Definition a_find (es : list (Value * Value)) (key : Value) : option nat :=
  fst <$> list_find (λ e, beq e.1 key = true) es.

Definition a_get (es : list (Value * Value)) (key : Value) : option Value :=
  i ← a_find es key; e ← es !! i; Some e.2.

Definition a_insert (es : list (Value * Value)) (key val : Value) : list (Value * Value) :=
  match a_find es key with
  | Some i => alter (λ e, (e.1, val)) i es
  | None => es ++ [(key, val)]
  end.

Definition a_remove (es : list (Value * Value)) (key : Value) : list (Value * Value) :=
  match a_find es key with Some i => delete i es | None => es end.
End spec.

(** ** Linear probing *)

Definition occupied (ix : list Z) : nat := length (filter (λ e, e ≠ EMPTY) ix).

Definition pos (ix : list Z) (h : Z) (d : nat) : nat :=
  Z.to_nat ((h + Z.of_nat d) mod Z.of_nat (length ix)).

(** Entry [i] with hash [h] is found [d] steps from its home slot. *)
Definition at_distance (ix : list Z) (h : Z) (i d : nat) : Prop :=
  ix !! pos ix h d = Some (Z.of_nat i) ∧
  ∀ d', (d' < d)%nat → ix !! pos ix h d' ≠ Some EMPTY.

Definition power_of_two (n : nat) : Prop := ∃ k, 0 ≤ k ∧ Z.of_nat n = 2 ^ k.

Record index_ok (ix : list Z) (hs : list u64) : Prop := {
  ix_pow : power_of_two (length ix);
  ix_range : ∀ p e, ix !! p = Some e → e = EMPTY ∨ 0 ≤ e < Z.of_nat (length hs);
  ix_occupied : occupied ix = length hs;
  ix_reach : ∀ i h, hs !! i = Some h → ∃ d, (d < length ix)%nat ∧ at_distance ix h i d;
}.

Lemma land_mask n z : power_of_two n → Z.land z (Z.of_nat n - 1) = z mod Z.of_nat n.
Proof.
  intros (k & Hk & ->). replace (2 ^ k - 1) with (Z.ones k) by (rewrite Z.ones_equiv; lia).
  by apply Z.land_ones.
Qed.

Lemma power_of_two_pos n : power_of_two n → (0 < n)%nat.
Proof. intros (k & Hk & Hn). pose proof (Z.pow_pos_nonneg 2 k). lia. Qed.

Lemma pos_lt ix h d : (0 < length ix)%nat → (pos ix h d < length ix)%nat.
Proof. intros Hl. unfold pos. pose proof (Z.mod_pos_bound (h + Z.of_nat d) (Z.of_nat (length ix))). lia. Qed.

(** The next slot of a probe. *)
Lemma probe_next ix h d :
  power_of_two (length ix) →
  Z.land (Z.of_nat (pos ix h d) + 1) (Z.of_nat (length ix) - 1) = Z.of_nat (pos ix h (S d)).
Proof.
  intros Hp. rewrite land_mask by done. apply power_of_two_pos in Hp. unfold pos.
  rewrite !Z2Nat.id by (apply Z.mod_pos_bound; lia).
  rewrite Zplus_mod_idemp_l. f_equal. lia.
Qed.

Lemma probe_start ix h :
  power_of_two (length ix) → Z.land h (Z.of_nat (length ix) - 1) = Z.of_nat (pos ix h 0).
Proof.
  intros Hp. rewrite land_mask by done. apply power_of_two_pos in Hp. unfold pos.
  rewrite Z2Nat.id by (apply Z.mod_pos_bound; lia). f_equal. lia.
Qed.

(** Every slot is on every probe path. *)
Lemma pos_surjective ix h p :
  (p < length ix)%nat → ∃ d, (d < length ix)%nat ∧ pos ix h d = p.
Proof.
  intros Hp. exists (Z.to_nat ((Z.of_nat p - h) mod Z.of_nat (length ix))).
  pose proof (Z.mod_pos_bound (Z.of_nat p - h) (Z.of_nat (length ix)) ltac:(lia)).
  split; [lia|]. unfold pos. rewrite Z2Nat.id by lia. rewrite Zplus_mod_idemp_r.
  replace (h + (Z.of_nat p - h)) with (Z.of_nat p) by lia. rewrite Z.mod_small by lia. lia.
Qed.

(** A table that is not full has an empty slot at a first distance. *)
Lemma empty_exists ix : (occupied ix < length ix)%nat → ∃ p, ix !! p = Some EMPTY.
Proof.
  unfold occupied. induction ix as [|e ix IH]; intros Hlt; [cbn in *; lia|].
  destruct (decide (e = EMPTY)) as [->|He]; [by exists 0%nat|].
  rewrite filter_cons, decide_True in Hlt by done. cbn in Hlt.
  destruct IH as [p Hp]; [lia|]. by exists (S p).
Qed.

Lemma first_empty ix h :
  (occupied ix < length ix)%nat →
  ∃ d, (d < length ix)%nat ∧ ix !! pos ix h d = Some EMPTY ∧
    ∀ d', (d' < d)%nat → ix !! pos ix h d' ≠ Some EMPTY.
Proof.
  intros Hocc. destruct (empty_exists ix Hocc) as [p Hp].
  pose proof (lookup_lt_Some _ _ _ Hp) as Hlt. destruct (pos_surjective ix h p Hlt) as (d0 & Hd0 & <-).
  revert Hp. induction d0 as [d0 IH] using lt_wf_ind. intros Hp.
  destruct (decide (Exists (λ d, ix !! pos ix h d = Some EMPTY) (seq 0 d0))) as [Hex|Hno].
  - apply Exists_exists in Hex as (d & [_ Hd]%elem_of_seq & He). apply (IH d); try lia; try done. apply pos_lt. lia.
  - exists d0. split_and!; [done..|]. intros d' Hd' He. apply Hno, Exists_exists. exists d'.
    split; [apply elem_of_seq; lia|done].
Qed.

Lemma occupied_insert ix p e :
  ix !! p = Some EMPTY → e ≠ EMPTY → occupied (<[p := e]> ix) = S (occupied ix).
Proof.
  unfold occupied. intros Hp He. revert p Hp. induction ix as [|x ix IH]; intros [|p] Hp; [done..| |].
  - injection Hp as ->. change (<[0%nat := e]> (EMPTY :: ix)) with (e :: ix).
    rewrite !filter_cons. rewrite decide_True, decide_False by (done || tauto). done.
  - change (<[S p := e]> (x :: ix)) with (x :: <[p := e]> ix). rewrite !filter_cons.
    case_decide; cbn [length]; by rewrite (IH p Hp).
Qed.

Lemma occupied_replicate n : occupied (replicate n EMPTY) = 0%nat.
Proof.
  unfold occupied. induction n as [|n IH]; [done|]. cbn [replicate].
  rewrite filter_cons, decide_False by tauto. done.
Qed.

Section index.
Context {E : Type}.

Lemma probe_empty_ok ix h d fuel k :
  power_of_two (length ix) → ix !! pos ix h (k + d) = Some EMPTY →
  (∀ d', (d' < k + d)%nat → ix !! pos ix h d' ≠ Some EMPTY) → (d < fuel)%nat →
  probe_empty (E:=E) fuel ix (Z.of_nat (pos ix h k)) = Ok (Z.of_nat (pos ix h (k + d))).
Proof.
  intros Hp He Hne. revert k He Hne. revert d. induction fuel as [|fuel IH];
    intros d k He Hne Hd; [lia|]. cbn [probe_empty]. rewrite Nat2Z.id.
  destruct (lookup_lt_is_Some_2 ix (pos ix h k)) as [e Hk].
  { by apply pos_lt, power_of_two_pos. }
  rewrite Hk. cbn [or_panic mbind res_bind]. destruct d as [|d].
  - rewrite Nat.add_0_r in *. assert (e = EMPTY) as -> by congruence. by rewrite Z.eqb_refl.
  - destruct (Z.eqb_spec e EMPTY) as [->|]; [by destruct (Hne k); [lia|]|].
    rewrite probe_next by done. rewrite <-Nat.add_succ_comm in *. apply IH; [done..|lia].
Qed.

(** Filling an empty slot keeps every other entry where it was. *)
Lemma at_distance_insert ix p e h i d :
  (0 < length ix)%nat → ix !! p = Some EMPTY → e ≠ EMPTY → at_distance ix h i d →
  at_distance (<[p := e]> ix) h i d.
Proof.
  intros Hl Hp He [Hat Hpath]. unfold at_distance.
  assert (∀ d, pos (<[p := e]> ix) h d = pos ix h d) as Hpos.
  { intros. unfold pos. by rewrite length_insert. }
  split.
  - rewrite Hpos, list_lookup_insert_ne; [done|]. intros Heq. rewrite <-Heq, Hp in Hat.
    unfold EMPTY in Hat. injection Hat. lia.
  - intros d' Hd'. rewrite Hpos. destruct (decide (p = pos ix h d')) as [->|].
    + rewrite list_lookup_insert_eq by (by apply pos_lt). congruence.
    + rewrite list_lookup_insert_ne by done. auto.
Qed.

Lemma index_insert_ok ix hs h :
  index_ok ix hs → (length hs < length ix)%nat → Z.of_nat (length hs) < 2 ^ 31 →
  ∃ ix', index_insert (E:=E) ix (length hs) h = Ok ix' ∧ length ix' = length ix ∧
    index_ok ix' (hs ++ [h]).
Proof.
  intros [Hp Hr Ho Hreach] Hlen Hmax. pose proof (power_of_two_pos _ Hp) as Hpos.
  destruct (first_empty ix h) as (d & Hd & He & Hne); [lia|].
  unfold index_insert. rewrite probe_start by done.
  rewrite (probe_empty_ok ix h d _ 0) by (done || lia). cbn [Nat.add mbind res_bind].
  rewrite Nat2Z.id, as_signed_id by (done || (unfold in_signed; lia)).
  assert (Z.of_nat (length hs) ≠ EMPTY) as Hne' by (unfold EMPTY; lia).
  eexists. split; [done|]. split; [apply length_insert|]. constructor.
  - by rewrite length_insert.
  - intros p e Hpe. rewrite length_app. cbn. apply list_lookup_insert_Some in Hpe as
      [(_ & <- & _)|[_ Hpe]]; [right; lia|]. destruct (Hr p e Hpe); [by left|right; lia].
  - rewrite occupied_insert, length_app by done. cbn. lia.
  - rewrite length_insert. intros i h' Hi.
    apply lookup_snoc_Some in Hi as [[Hi Hi']|[-> ->]].
    + destruct (Hreach i h' Hi') as (d' & Hd' & Hat). exists d'. split; [done|].
      by apply at_distance_insert.
    + exists d. split; [done|]. split; unfold pos; rewrite length_insert.
      * rewrite list_lookup_insert_eq; [done|]. by apply pos_lt.
      * intros d' Hd''. fold (pos ix h' d). fold (pos ix h' d').
        rewrite list_lookup_insert_ne; [by apply Hne|]. intros Heq.
        apply (Hne d' Hd''). by rewrite <-Heq.
Qed.

Lemma index_insert_all_ok todo : ∀ ix hs,
  index_ok ix hs → (length (hs ++ todo) ≤ length ix)%nat →
  Z.of_nat (length (hs ++ todo)) ≤ 2 ^ 31 →
  ∃ ix', index_insert_all (E:=E) ix (length hs) todo = Ok ix' ∧ length ix' = length ix ∧
    index_ok ix' (hs ++ todo).
Proof.
  induction todo as [|h todo IH]; intros ix hs Hix Hlen Hmax; cbn [index_insert_all].
  { exists ix. rewrite app_nil_r. done. }
  rewrite length_app in Hlen, Hmax. cbn in Hlen, Hmax.
  destruct (index_insert_ok ix hs h Hix) as (ix1 & Hok & Hl1 & Hix1); [lia..|].
  rewrite Hok. cbn [mbind res_bind].
  destruct (IH ix1 (hs ++ [h]) Hix1) as (ix' & Hok' & Hl' & Hix').
  { rewrite !length_app. cbn. lia. }
  { rewrite !length_app. cbn. lia. }
  rewrite length_app, Nat.add_1_r in Hok'. exists ix'. rewrite <-app_assoc in Hix'.
  split_and!; [done|congruence|done].
Qed.

Lemma index_capacity n :
  power_of_two (Z.to_nat (index_capacity_for n)) ∧
  (n * 2 ≤ Z.to_nat (index_capacity_for n))%nat ∧ (32 ≤ Z.to_nat (index_capacity_for n))%nat.
Proof.
  unfold index_capacity_for, next_power_of_two.
  set (t := Z.max (Z.of_nat n * 2) 32). pose proof (Z.log2_up_spec t ltac:(lia)) as [_ Hle].
  split; [|lia]. exists (Z.log2_up t). pose proof (Z.log2_up_nonneg t).
  split; [done|]. rewrite Z2Nat.id; [done|]. apply Z.pow_nonneg. lia.
Qed.

Lemma rebuild_index_ok m :
  length (hashes m) = length (entries m) → Z.of_nat (length (entries m)) ≤ 2 ^ 31 →
  ∃ ix, rebuild_index (E:=E) m = Ok (set_index m ix) ∧ index_ok ix (hashes m) ∧
    (length (entries m) * 2 ≤ length ix)%nat ∧ (32 ≤ length ix)%nat.
Proof.
  intros Hlen Hmax. unfold rebuild_index.
  destruct (Nat.ltb_spec (length (hashes m)) (length (entries m))); [lia|].
  rewrite take_ge by lia. destruct (index_capacity (length (entries m))) as (Hp & Hc1 & Hc2).
  set (cap := Z.to_nat (index_capacity_for (length (entries m)))) in *.
  destruct (index_insert_all_ok (hashes m) (replicate cap EMPTY) []) as (ix & Hok & Hl & Hix).
  - constructor; [by rewrite length_replicate| |apply occupied_replicate|done].
    intros p e [-> _]%lookup_replicate. by left.
  - rewrite length_replicate. cbn. lia.
  - cbn. lia.
  - cbn in Hok. rewrite Hok. cbn [mbind res_bind]. rewrite length_replicate in Hl.
    exists ix. split_and!; [done|done|lia..].
Qed.
End index.

(** ** The operations *)

Section ops.
Context {E : Type} (eqb : Value → Value → res E bool) (dom : Value → Prop)
  (beq : Value → Value → bool) (hashf : Value → Z) `{HK : !KeyLaws eqb dom beq hashf}.

Definition entries_ok (es : list (Value * Value)) : Prop :=
  Forall (λ e, dom e.1) es ∧
  ∀ i j ei ej, es !! i = Some ei → es !! j = Some ej → beq ei.1 ej.1 = true → i ≠ j → False.

Record map_wf (m : MapObj) : Prop := {
  wf_entries : entries_ok (entries m);
  wf_hashes : hashes m = (λ e, hashf e.1) <$> entries m;
  wf_len : Z.of_nat (length (entries m)) < 2 ^ 31;
  wf_index : index m = [] ∨
    index_ok (index m) (hashes m) ∧ (length (entries m) * 4 < length (index m) * 3)%nat;
}.

Lemma map_default_wf : map_wf map_default.
Proof. constructor; cbn; [split; [by constructor|done]|done|lia|by left]. Qed.

(** A stored key that matches is the only one. *)
Lemma match_unique es i j ei ej key :
  entries_ok es → dom key → es !! i = Some ei → es !! j = Some ej →
  beq ei.1 key = true → beq ej.1 key = true → i = j.
Proof.
  intros [Hd Hu] Hk Hi Hj Hbi Hbj. destruct (decide (i = j)) as [|Hne]; [done|].
  pose proof (Forall_lookup_1 _ _ _ _ Hd Hi). pose proof (Forall_lookup_1 _ _ _ _ Hd Hj).
  destruct (Hu i j ei ej Hi Hj); [|done].
  apply (key_trans _ key); [done..|]. by apply key_sym.
Qed.

Lemma a_find_Some es key i :
  entries_ok es → dom key →
  a_find beq es key = Some i ↔ ∃ e, es !! i = Some e ∧ beq e.1 key = true.
Proof.
  intros Hes Hk. unfold a_find. split.
  - intros ([j e] & Hj & ->)%fmap_Some. apply list_find_Some in Hj as (? & ? & _). eauto.
  - intros (e & He & Hb). apply fmap_Some. exists (i, e). split; [|done].
    apply list_find_Some. split_and!; [done|done|]. intros j y Hj Hlt Hy.
    pose proof (match_unique es i j e y key Hes Hk He Hj Hb Hy). lia.
Qed.

Lemma a_find_None es key :
  a_find beq es key = None ↔ ∀ i e, es !! i = Some e → beq e.1 key = false.
Proof.
  unfold a_find. rewrite fmap_None, list_find_None, Forall_lookup.
  split; intros Hn i e He; specialize (Hn i e He); [by apply not_true_is_false|by rewrite Hn].
Qed.

Lemma a_get_found es key i e :
  a_find beq es key = Some i → es !! i = Some e → a_get beq es key = Some e.2.
Proof. intros Hi He. unfold a_get. rewrite Hi. cbn. by rewrite He. Qed.

Lemma a_get_missing es key : a_find beq es key = None → a_get beq es key = None.
Proof. intros Hi. unfold a_get. by rewrite Hi. Qed.

Lemma entry_matches_ok m i e key :
  map_wf m → dom key → entries m !! i = Some e →
  entry_matches eqb m i key (hashf key) = Ok (beq e.1 key).
Proof.
  intros Hm Hk He. unfold entry_matches. rewrite (wf_hashes m Hm), list_lookup_fmap, He.
  cbn [fmap option_fmap option_map or_panic mbind res_bind].
  assert (dom e.1) as Hd by apply (Forall_lookup_1 _ _ _ _ (proj1 (wf_entries m Hm)) He).
  destruct (Z.eqb_spec (hashf e.1) (hashf key)) as [|Hne]; [by apply key_eqb|].
  f_equal. symmetry. apply not_true_is_false. intros Hb. by apply Hne, key_hash.
Qed.

Lemma find_linear_ok m key n : ∀ i,
  map_wf m → dom key → (i + n = length (entries m))%nat →
  (∀ j e, (j < i)%nat → entries m !! j = Some e → beq e.1 key = false) →
  find_linear eqb n m i key (hashf key) = Ok (a_find beq (entries m) key).
Proof.
  induction n as [|n IH]; intros i Hm Hk Hlen Hbefore; cbn [find_linear].
  - f_equal. symmetry. apply a_find_None. intros j e He.
    apply (Hbefore j); [|done]. apply lookup_lt_Some in He. lia.
  - destruct (lookup_lt_is_Some_2 (entries m) i) as [e He]; [lia|].
    rewrite (entry_matches_ok m i e) by done. cbn [mbind res_bind].
    destruct (beq e.1 key) eqn:Hb.
    + f_equal. symmetry. apply a_find_Some; [by apply Hm|done|eauto].
    + apply IH; [done|done|lia|]. intros j e' Hj He'.
      destruct (decide (j = i)) as [->|]; [congruence|]. apply (Hbefore j); [lia|done].
Qed.

(** The entry index stored in a table slot. *)
Lemma slot_entry m p e :
  map_wf m → index_ok (index m) (hashes m) → index m !! p = Some e → e ≠ EMPTY →
  ∃ x, entries m !! Z.to_nat (as_u64 e) = Some x ∧ as_u64 e = e.
Proof.
  intros Hm Hix He Hne. destruct (ix_range _ _ Hix p e He) as [|Hr]; [done|].
  rewrite (wf_hashes m Hm), length_fmap in Hr. pose proof (wf_len m Hm).
  rewrite as_unsigned_id by (unfold in_unsigned; lia).
  destruct (lookup_lt_is_Some_2 (entries m) (Z.to_nat e)) as [x Hx]; [lia|eauto].
Qed.

Lemma find_probe_hit m key i fuel : ∀ k d,
  map_wf m → index_ok (index m) (hashes m) → dom key →
  a_find beq (entries m) key = Some i → at_distance (index m) (hashf key) i (k + d) →
  (d < fuel)%nat →
  find_probe eqb fuel m (Z.of_nat (pos (index m) (hashf key) k)) key (hashf key) = Ok (Some i).
Proof.
  induction fuel as [|fuel IH]; intros k d Hm Hix Hk Hi Hat Hd; [lia|].
  cbn [find_probe]. rewrite Nat2Z.id. pose proof (ix_pow _ _ Hix) as Hp.
  destruct (lookup_lt_is_Some_2 (index m) (pos (index m) (hashf key) k)) as [e He].
  { by apply pos_lt, power_of_two_pos. }
  rewrite He. cbn [or_panic mbind res_bind]. destruct Hat as [Hat Hpath].
  destruct (Z.eqb_spec e EMPTY) as [->|Hne].
  { destruct d as [|d]; [|by destruct (Hpath k); [lia|]]. rewrite Nat.add_0_r in Hat.
    rewrite He in Hat. unfold EMPTY in Hat. injection Hat. lia. }
  destruct (slot_entry m _ e Hm Hix He Hne) as (x & Hx & Hcast).
  rewrite (entry_matches_ok m _ x) by done. cbn [mbind res_bind].
  destruct (beq x.1 key) eqn:Hb.
  { do 2 f_equal. assert (a_find beq (entries m) key = Some (Z.to_nat (as_u64 e))) as Hi'.
    { apply a_find_Some; [by apply Hm|done|eauto]. }
    congruence. }
  destruct d as [|d].
  { exfalso. rewrite Nat.add_0_r in Hat. rewrite He in Hat. injection Hat as ->.
    rewrite Hcast, Nat2Z.id in Hx. apply a_find_Some in Hi as (y & Hy & Hb'); [|by apply Hm|done].
    congruence. }
  rewrite probe_next by done. apply (IH (S k) d); [done..| |lia].
  by rewrite Nat.add_succ_comm.
Qed.

Lemma find_probe_miss m key fuel : ∀ k d,
  map_wf m → index_ok (index m) (hashes m) → dom key →
  a_find beq (entries m) key = None →
  index m !! pos (index m) (hashf key) (k + d) = Some EMPTY → (d < fuel)%nat →
  find_probe eqb fuel m (Z.of_nat (pos (index m) (hashf key) k)) key (hashf key) = Ok None.
Proof.
  induction fuel as [|fuel IH]; intros k d Hm Hix Hk Hi Hat Hd; [lia|].
  cbn [find_probe]. rewrite Nat2Z.id. pose proof (ix_pow _ _ Hix) as Hp.
  destruct (lookup_lt_is_Some_2 (index m) (pos (index m) (hashf key) k)) as [e He].
  { by apply pos_lt, power_of_two_pos. }
  rewrite He. cbn [or_panic mbind res_bind]. destruct (Z.eqb_spec e EMPTY) as [->|Hne]; [done|].
  destruct (slot_entry m _ e Hm Hix He Hne) as (x & Hx & Hcast).
  rewrite (entry_matches_ok m _ x) by done. cbn [mbind res_bind].
  rewrite (proj1 (a_find_None _ _) Hi _ _ Hx).
  destruct d as [|d]; [rewrite Nat.add_0_r in Hat; congruence|].
  rewrite probe_next by done. apply (IH (S k) d); [done..| |lia].
  by rewrite Nat.add_succ_comm.
Qed.

Lemma map_find_ok m key :
  map_wf m → dom key → map_find eqb m key (hashf key) = Ok (a_find beq (entries m) key).
Proof.
  intros Hm Hk. unfold map_find. destruct (wf_index m Hm) as [Hix|[Hix Hload]].
  { rewrite Hix. cbn. apply find_linear_ok; [done|done|done|]. lia. }
  pose proof (power_of_two_pos _ (ix_pow _ _ Hix)).
  destruct (Nat.eqb_spec (length (index m)) 0); [lia|].
  rewrite probe_start by apply Hix.
  destruct (a_find beq (entries m) key) as [i|] eqn:Hi.
  - pose proof Hi as (e & He & Hb)%a_find_Some; [|by apply Hm|done].
    destruct (ix_reach _ _ Hix i (hashf key)) as (d & Hd & Hat).
    { rewrite (wf_hashes m Hm), list_lookup_fmap, He. cbn. f_equal.
      apply key_hash; [apply (Forall_lookup_1 _ _ _ _ (proj1 (wf_entries m Hm)) He)|done..]. }
    apply (find_probe_hit m key i _ 0 d); try done. lia.
  - destruct (first_empty (index m) (hashf key)) as (d & Hd & He & _).
    { rewrite (ix_occupied _ _ Hix), (wf_hashes m Hm), length_fmap. lia. }
    apply (find_probe_miss m key _ 0 d); try done. lia.
Qed.

Lemma a_insert_keys es key val i :
  a_find beq es key = Some i → (a_insert beq es key val).*1 = es.*1.
Proof.
  intros Hi. unfold a_insert. rewrite Hi. apply list_eq. intros j. rewrite !list_lookup_fmap.
  destruct (decide (j = i)) as [->|].
  - rewrite list_lookup_alter_eq. by destruct (es !! i).
  - by rewrite list_lookup_alter_ne.
Qed.

Lemma hashes_of_keys (es es' : list (Value * Value)) :
  es.*1 = es'.*1 → (λ e, hashf e.1) <$> es = (λ e, hashf e.1) <$> es'.
Proof.
  intros Heq. change (λ e, hashf e.1) with (hashf ∘ fst (B:=Value)).
  by rewrite !list_fmap_compose, Heq.
Qed.

Lemma entries_ok_keys (es es' : list (Value * Value)) :
  es.*1 = es'.*1 → entries_ok es → entries_ok es'.
Proof.
  intros Heq [Hd Hu]. split.
  - apply Forall_fmap in Hd. apply Forall_fmap. by rewrite <-Heq.
  - intros i j ei ej Hi Hj.
    assert (∀ i e, es' !! i = Some e → ∃ e0, es !! i = Some e0 ∧ e0.1 = e.1) as Hl.
    { intros i' e He. apply (f_equal (.!! i')) in Heq. rewrite !list_lookup_fmap, He in Heq.
      cbn in Heq. destruct (es !! i') as [e0|] eqn:E0; [|done]. injection Heq as Heq. eauto. }
    destruct (Hl i ei Hi) as (e1 & H1 & <-), (Hl j ej Hj) as (e2 & H2 & <-). eauto.
Qed.

Lemma entries_ok_snoc es key val :
  entries_ok es → dom key → a_find beq es key = None → entries_ok (es ++ [(key, val)]).
Proof.
  intros [Hd Hu] Hk Hn. split; [apply Forall_app; auto|].
  rewrite a_find_None in Hn. intros i j ei ej Hi Hj Hb Hne.
  apply lookup_snoc_Some in Hi as [[_ Hi]|[-> <-]], Hj as [[_ Hj]|[-> <-]]; cbn in *.
  - eauto.
  - by rewrite (Hn i ei Hi) in Hb.
  - apply key_sym in Hb; [by rewrite (Hn j ej Hj) in Hb|done|].
    apply (Forall_lookup_1 _ _ _ _ Hd Hj).
  - done.
Qed.

Lemma entries_ok_delete es i : entries_ok es → entries_ok (delete i es).
Proof.
  intros [Hd Hu]. split; [by apply Forall_delete|].
  intros j k ej ek Hj Hk Hb Hne.
  assert (∀ j e, delete i es !! j = Some e → es !! (if decide (j < i)%nat then j else S j) = Some e) as Hl.
  { intros j' e He. destruct (decide (j' < i)%nat).
    - by rewrite list_lookup_delete_lt in He.
    - by rewrite list_lookup_delete_ge in He by lia. }
  apply Hl in Hj, Hk. eapply Hu; [exact Hj|exact Hk|done|].
  repeat case_decide; lia.
Qed.

(** Replacing the value of a key that is there. *)
Lemma map_update_wf m key val i :
  map_wf m → a_find beq (entries m) key = Some i →
  map_wf (mkMap (a_insert beq (entries m) key val) (hashes m) (index m)).
Proof.
  intros Hm Hi. pose proof (a_insert_keys _ _ val _ Hi) as Hkeys.
  assert (length (a_insert beq (entries m) key val) = length (entries m)) as Hlen.
  { by rewrite <-(length_fmap fst), Hkeys, length_fmap. }
  constructor; cbn.
  - eapply entries_ok_keys; [symmetry; exact Hkeys|by apply Hm].
  - rewrite (wf_hashes m Hm). by apply hashes_of_keys.
  - rewrite Hlen. apply Hm.
  - rewrite Hlen. apply Hm.
Qed.

Lemma a_insert_found (l : list (Value * Value)) key val i e :
  a_find beq l key = Some i → l !! i = Some e → <[i:=(e.1, val)]> l = a_insert beq l key val.
Proof.
  intros Hi He. unfold a_insert. rewrite Hi. apply list_eq. intros j. destruct (decide (j = i)) as [->|].
  - rewrite list_lookup_alter_eq, He, list_lookup_insert_eq; [done|]. by apply lookup_lt_Some in He.
  - by rewrite list_lookup_alter_ne, list_lookup_insert_ne by done.
Qed.

(** Appending an entry keeps the map well formed once its index covers it. *)
Lemma map_append_wf m key val ix :
  map_wf m → dom key → a_find beq (entries m) key = None → Z.of_nat (length (entries m)) < 2 ^ 31 - 1 →
  let m1 := mkMap (push (entries m) (key, val)) (push (hashes m) (hashf key)) ix in
  (ix = [] ∨ index_ok ix (hashes m1) ∧ (length (entries m1) * 4 < length ix * 3)%nat) → map_wf m1.
Proof.
  intros Hm Hk Hi Hmax m1 Hix. constructor; subst m1; cbn [entries hashes index] in *; [| | |done].
  - apply entries_ok_snoc; [by apply Hm|done..].
  - unfold push. rewrite fmap_app, (wf_hashes m Hm). done.
  - unfold push. rewrite length_app. cbn. lia.
Qed.

Lemma map_insert_ok m key val :
  map_wf m → dom key → Z.of_nat (length (entries m)) < 2 ^ 31 - 1 →
  ∃ m', map_insert eqb m key (hashf key) val = Ok m' ∧ map_wf m' ∧
    entries m' = a_insert beq (entries m) key val.
Proof.
  intros Hm Hk Hmax. unfold map_insert. rewrite map_find_ok by done. cbn [mbind res_bind].
  destruct (a_find beq (entries m) key) as [i|] eqn:Hi.
  { pose proof Hi as (e & He & _)%a_find_Some; [|by apply Hm|done]. rewrite He. cbn [or_panic mbind res_bind].
    rewrite (a_insert_found _ key val i e Hi He). eexists. split; [done|]. split; [by eapply map_update_wf|done]. }
  pose proof (λ ix, map_append_wf m key val ix Hm Hk Hi Hmax) as Hwf. cbn zeta in Hwf.
  set (m1 := mkMap (push (entries m) (key, val)) (push (hashes m) (hashf key)) (index m)).
  assert (entries m1 = a_insert beq (entries m) key val) as Hent by (unfold a_insert; by rewrite Hi).
  assert (length (entries m1) = S (length (entries m))) as Hlen.
  { cbn. unfold push. rewrite length_app. cbn. lia. }
  assert (length (hashes m) = length (entries m)) as Hhl by (by rewrite (wf_hashes m Hm), length_fmap).
  assert (∃ m', rebuild_index (E:=E) m1 = Ok m' ∧ map_wf m' ∧ entries m' = entries m1) as Hre.
  { destruct (rebuild_index_ok (E:=E) m1) as (ix & Hok & Hix & Hc1 & Hc2).
    - cbn. unfold push. rewrite !length_app, Hhl. done.
    - rewrite Hlen. lia.
    - exists (set_index m1 ix). split_and!; [done| |done]. apply (Hwf ix). right. split; [done|]. cbn in *. lia. }
  change (index m1) with (index m). rewrite <-Hent.
  destruct (Nat.eqb_spec (length (index m)) 0) as [H0|H0].
  { destruct (Nat.leb _ _); [done|]. eexists. split; [done|]. split; [|done].
    apply nil_length_inv in H0. apply (Hwf (index m)). by left. }
  destruct (load_exceeded m1) eqn:Hload; [done|].
  apply Nat.leb_gt in Hload. cbn [index m1] in Hload.
  destruct (wf_index m Hm) as [Hix|[Hix _]]; [by rewrite Hix in H0|].
  destruct (index_insert_ok (E:=E) (index m) (hashes m) (hashf key)) as (ix & Hok & Hl & Hix');
    [done|lia|rewrite Hhl; lia|].
  rewrite Hhl in Hok. rewrite Hok. cbn [mbind res_bind].
  eexists. split; [done|]. split; [|done]. apply (Hwf ix). right. split; [done|]. cbn in *. lia.
Qed.

Lemma map_remove_ok m key :
  map_wf m → dom key →
  ∃ m', map_remove eqb m key (hashf key) = Ok (m', a_get beq (entries m) key) ∧ map_wf m' ∧
    entries m' = a_remove beq (entries m) key.
Proof.
  intros Hm Hk. unfold map_remove, a_remove. rewrite map_find_ok by done.
  cbn [mbind res_bind]. destruct (a_find beq (entries m) key) as [i|] eqn:Hi.
  2:{ exists m. by rewrite a_get_missing. }
  pose proof Hi as (e & He & _)%a_find_Some; [|by apply Hm|done].
  rewrite (a_get_found _ _ _ _ Hi He), He. rewrite (wf_hashes m Hm), list_lookup_fmap, He.
  cbn [fmap option_fmap option_map or_panic mbind res_bind option_bind].
  set (m1 := mkMap (delete i (entries m)) (delete i ((λ e, hashf e.1) <$> entries m)) (index m)).
  assert (hashes m1 = (λ e, hashf e.1) <$> entries m1) as Hh.
  { cbn. by rewrite list_fmap_delete. }
  assert (length (entries m1) < length (entries m))%nat as Hlen.
  { cbn. rewrite length_delete by eauto. apply lookup_lt_Some in He. lia. }
  assert (∀ ix, (ix = [] ∨ index_ok ix (hashes m1) ∧ (length (entries m1) * 4 < length ix * 3)%nat) →
    map_wf (set_index m1 ix)) as Hwf.
  { intros ix Hix. pose proof (wf_len m Hm). constructor; cbn [entries hashes index set_index]; [|done| |done].
    - by apply entries_ok_delete, Hm.
    - change (delete i (entries m)) with (entries m1). lia. }
  destruct (Nat.eqb_spec (length (index m1)) 0) as [H0|H0].
  { cbn [mbind res_bind]. eexists. split; [done|]. split; [|done].
    apply nil_length_inv in H0. specialize (Hwf (index m1)). apply Hwf. by left. }
  destruct (rebuild_index_ok (E:=E) m1) as (ix & Hok & Hix & Hc1 & Hc2).
  - by rewrite Hh, length_fmap.
  - pose proof (wf_len m Hm). lia.
  - rewrite Hok. cbn [mbind res_bind]. eexists. split; [done|]. split; [|done].
    apply Hwf. right. split; [done|]. lia.
Qed.

Lemma map_get_ok m key :
  map_wf m → dom key → map_get eqb m key (hashf key) = Ok (a_get beq (entries m) key).
Proof.
  intros Hm Hk. unfold map_get. rewrite map_find_ok by done. cbn [mbind res_bind].
  destruct (a_find beq (entries m) key) as [i|] eqn:Hi; [|by rewrite a_get_missing].
  pose proof Hi as (e & He & _)%a_find_Some; [|by apply Hm|done].
  by rewrite (a_get_found _ _ _ _ Hi He), He.
Qed.

Lemma map_contains_ok m key :
  map_wf m → dom key →
  map_contains eqb m key (hashf key) = Ok (bool_decide (is_Some (a_get beq (entries m) key))).
Proof.
  intros Hm Hk. unfold map_contains. rewrite map_find_ok by done. cbn [mbind res_bind].
  destruct (a_find beq (entries m) key) as [i|] eqn:Hi; [|by rewrite a_get_missing].
  pose proof Hi as (e & He & _)%a_find_Some; [|by apply Hm|done].
  by rewrite (a_get_found _ _ _ _ Hi He).
Qed.
End ops.

(** ** The heap satisfies the key laws *)

Definition value_ok (v : Value) : Prop :=
  match v with Int n => in_i64 n | Double x => in_u64 x | _ => True end.

Definition slots_ok (s : list (option Obj)) : Prop :=
  ∀ h o, s !! h = Some (Some o) → Forall value_ok (for_each_child o).

Section hash.
Context {E : Type}.

(** Equal doubles hash alike: they are the same pattern or both zero. *)
Lemma double_bits x y :
  in_u64 x → in_u64 y → f64_eq x y = true →
  (if f64_eq x 0 then 0 else x) = (if f64_eq y 0 then 0 else y).
Proof.
  intros Hx Hy Heq. destruct (f64_eq_spec x y Hx Hy Heq) as [_ [->|(s & t & Hs & Ht)]]; [done|].
  assert (f64_eq x 0 = true) as ->.
  { unfold f64_eq. rewrite Hs. by destruct s. }
  assert (f64_eq y 0 = true) as ->.
  { unfold f64_eq. rewrite Ht. by destruct t. }
  done.
Qed.

Lemma hash_seq_ext (f : Value → u64 → res E u64) xs ys h :
  Forall2 (λ x y, ∀ h, f x h = f y h) xs ys → hash_seq f xs h = hash_seq f ys h.
Proof.
  intros Hxy. revert h. induction Hxy as [|x y xs ys Hf _ IH]; intros h; [done|].
  cbn. rewrite Hf. destruct (f y h); cbn; auto.
Qed.

Lemma Forall2_children {A} (P : A → Prop) (Q : A → A → Prop) xs ys :
  Forall P xs → Forall P ys → Forall2 Q xs ys → Forall2 (λ x y, P x ∧ P y ∧ Q x y) xs ys.
Proof. intros Hx Hy Hq. induction Hq; inversion Hx; inversion Hy; subst; constructor; auto. Qed.

Lemma hash_entries_ext (f : Value → u64 → res E u64) (es es' : list (Value * Value)) h :
  Forall2 (λ p q, (∀ h, f p.1 h = f q.1 h) ∧ (∀ h, f p.2 h = f q.2 h)) es es' →
  hash_seq f (es ≫= λ '(k, v), [k; v]) h = hash_seq f (es' ≫= λ '(k, v), [k; v]) h.
Proof.
  intros Hxy. apply hash_seq_ext. induction Hxy as [|[k v] [k' v'] xs ys [Hk Hv] _ IH]; [constructor|].
  cbn. by repeat constructor.
Qed.

Lemma values_eq_hash s n : ∀ n' a b h,
  slots_ok s → value_ok a → value_ok b → values_eq (E:=E) n s a b = Ok true →
  hash_into (E:=E) n' s a h = hash_into (E:=E) n' s b h.
Proof.
  induction n as [|n IH]; intros n' a b h Hs Ha Hb; destruct a, b; try done; cbn [values_eq].
  all: try (intros [= ->%Z.eqb_eq]; done).
  all: try (intros [= Heq]; destruct n'; cbn [hash_into]; by rewrite (double_bits x x0)).
  all: try (destruct b, b0; done).
  all: destruct (Nat.eqb_spec handle handle0) as [->|_]; [done|]; try done.
  intros (oa & Hoa & (ob & Hob & Hr)%bind_ok)%bind_ok. destruct n' as [|n']; [done|].
  cbn [hash_into]. rewrite Hoa, Hob. cbn [mbind res_bind].
  assert (Forall value_ok (for_each_child oa)) as Hca.
  { unfold lookup_obj in Hoa. repeat case_match; try done. simplify_eq. by eapply Hs. }
  assert (Forall value_ok (for_each_child ob)) as Hcb.
  { unfold lookup_obj in Hob. repeat case_match; try done. simplify_eq. by eapply Hs. }
  apply obj_eq_true in Hr.
  assert (∀ xs ys, Forall value_ok xs → Forall value_ok ys →
    Forall2 (λ x y, values_eq (E:=E) n s x y = Ok true) xs ys →
    Forall2 (λ x y, ∀ h, hash_into (E:=E) n' s x h = hash_into (E:=E) n' s y h) xs ys) as Hmap.
  { intros xs ys Hx Hy Hxy. eapply Forall2_impl; [by apply (Forall2_children value_ok)|].
    intros x y (?&?&?) h'. by apply IH. }
  destruct Hr as [| | |xs ys Hxy|m m' Hxy|t xs ys Hxy|t v xs ys Hxy|]; cbn [hash_obj]; try done.
  all: try (apply hash_seq_ext, Hmap; done).
  apply hash_entries_ext.
  assert (∀ p, p ∈ entries m → value_ok p.1 ∧ value_ok p.2) as Hm.
  { intros [k v] [? ?]%entry_children. rewrite Forall_forall in Hca. auto. }
  assert (∀ p, p ∈ entries m' → value_ok p.1 ∧ value_ok p.2) as Hm'.
  { intros [k v] [? ?]%entry_children. rewrite Forall_forall in Hcb. auto. }
  eapply Forall2_impl.
  { apply (Forall2_children (λ p, value_ok p.1 ∧ value_ok p.2)); [by apply Forall_forall..|exact Hxy]. }
  cbn. intros p q ([? ?] & [? ?] & [? ?]). split; intros; by apply IH.
Qed.

Lemma mix_bytes_range bs h : in_u64 h → in_u64 (mix_bytes h bs).
Proof.
  revert h. induction bs as [|b bs IH]; intros h Hh; cbn; [done|].
  apply IH, as_unsigned_range. lia.
Qed.

Lemma mix_byte_range h b : in_u64 (mix_byte h b).
Proof. apply as_unsigned_range. lia. Qed.

Lemma hash_seq_total (f : Value → u64 → res E u64) vs : ∀ h,
  in_u64 h → (∀ v h, v ∈ vs → in_u64 h → ∃ h', f v h = Ok h' ∧ in_u64 h') →
  ∃ h', hash_seq f vs h = Ok h' ∧ in_u64 h'.
Proof.
  induction vs as [|v vs IH]; intros h Hh Hf; cbn; [eauto|].
  destruct (Hf v h) as (h1 & -> & Hh1); [set_solver|done|]. cbn.
  apply IH; [done|]. intros; apply Hf; set_solver.
Qed.

Lemma hash_into_total s rank n : ∀ v h,
  slots_closed s → acyclic s rank → live_value s v → (value_rank rank v ≤ n)%nat → in_u64 h →
  ∃ h', hash_into (E:=E) n s v h = Ok h' ∧ in_u64 h'.
Proof.
  assert (∀ h b v, in_u64 (mix_u64 (mix_byte h b) v)) as Hmix.
  { intros. apply mix_bytes_range, mix_byte_range. }
  induction n as [|n IH]; intros v h Hc Hac Hv Hn Hh;
    destruct v; cbn [value_rank] in Hn; try lia; cbn [hash_into];
    try (eexists; split; [done|]; first [apply Hmix|apply mix_byte_range]).
  destruct Hv as [o Ho]. unfold lookup_obj. rewrite Ho. cbn [mbind res_bind].
  assert (∀ v h, v ∈ for_each_child o → in_u64 h →
    ∃ h', hash_into (E:=E) n s v h = Ok h' ∧ in_u64 h') as Hkids.
  { intros v h' Hv Hh'. pose proof (Hc _ _ Ho) as Hl. rewrite Forall_forall in Hl.
    apply IH; auto. destruct v as [| | | |k]; cbn; try lia. pose proof (Hac _ _ _ Ho Hv). lia. }
  destruct o; cbn [hash_obj]; try (eexists; split; [done|]);
    try (apply mix_bytes_range, mix_byte_range); try apply Hmix;
    apply hash_seq_total; auto using mix_byte_range.
  apply mix_bytes_range, Hmix.
Qed.
End hash.

Section heap_keys.
Context {E : Type} (s : list (option Obj)) (rank : nat → nat) (n : nat).

(** A usable key: live, finite within the fuel, its scalars in range. *)
Definition key_dom (v : Value) : Prop :=
  live_value s v ∧ (value_rank rank v ≤ n)%nat ∧ value_ok v.

Definition key_beq (a b : Value) : bool :=
  match values_eq (E:=E) n s a b with Ok r => r | _ => false end.

Definition key_hashf (v : Value) : Z :=
  match hash_value (E:=E) n s v with Ok h => h | _ => 0 end.

Lemma key_beq_true a b : key_beq a b = true ↔ values_eq (E:=E) n s a b = Ok true.
Proof. unfold key_beq. destruct (values_eq n s a b) as [[]| | |]; naive_solver. Qed.

Lemma hash_value_key v :
  slots_closed s → acyclic s rank → key_dom v →
  hash_value (E:=E) n s v = Ok (key_hashf v) ∧ in_u64 (key_hashf v).
Proof.
  intros Hc Hac (Hl & Hr & _). unfold key_hashf, hash_value.
  destruct (hash_into_total (E:=E) s rank n v FNV_OFFSET) as (h & -> & Hh); done.
Qed.

Lemma heap_key_laws :
  slots_closed s → acyclic s rank → slots_ok s →
  KeyLaws (values_eq (E:=E) n s) key_dom key_beq key_hashf.
Proof.
  intros Hc Hac Hok. constructor.
  - intros a b (Ha & Hra & _) (Hb & _ & _). unfold key_beq.
    by destruct (values_eq_decides (E:=E) s rank n a b Hc Hac Ha Hb Hra) as [r ->].
  - intros a b _ _. rewrite !key_beq_true. by rewrite values_eq_symm.
  - intros a b c _ _ _. rewrite !key_beq_true. apply values_eq_trans.
  - intros a b (_ & _ & Ha) (_ & _ & Hb). rewrite key_beq_true. intros Heq.
    unfold key_hashf, hash_value. by rewrite (values_eq_hash s n n a b).
  - intros a Ha. by apply hash_value_key.
Qed.
End heap_keys.

(** ** Laws of the abstract map *)

Section abstract.
Context {E : Type} (eqb : Value → Value → res E bool) (dom : Value → Prop)
  (beq : Value → Value → bool) (hashf : Value → Z) `{HK : !KeyLaws eqb dom beq hashf}.

Lemma a_get_Some es key v :
  entries_ok dom beq es → dom key →
  a_get beq es key = Some v ↔ ∃ i e, es !! i = Some e ∧ beq e.1 key = true ∧ e.2 = v.
Proof using HK.
  intros Hes Hk. split.
  - intros Hg. unfold a_get in Hg. destruct (a_find beq es key) as [i|] eqn:Hi; [|done].
    pose proof Hi as (e & He & Hb)%(a_find_Some eqb dom beq hashf); [|done|done].
    cbn in Hg. rewrite He in Hg. injection Hg as <-. eauto.
  - intros (i & e & He & Hb & <-).
    apply (a_get_found beq es key i e); [|done]. apply (a_find_Some eqb dom beq hashf); eauto.
Qed.

Lemma a_insert_lookup es key val i e :
  entries_ok dom beq es → dom key →
  a_insert beq es key val !! i = Some e ↔
    (∃ e0, es !! i = Some e0 ∧ e = if beq e0.1 key then (e0.1, val) else e0) ∨
    (a_find beq es key = None ∧ i = length es ∧ e = (key, val)).
Proof using HK.
  intros Hes Hk. unfold a_insert. destruct (a_find beq es key) as [j|] eqn:Hj.
  - pose proof Hj as (ej & Hej & Hb)%(a_find_Some eqb dom beq hashf); [|done|done].
    destruct (decide (i = j)) as [->|Hne].
    + rewrite list_lookup_alter_eq, Hej. cbn. split.
      * intros [= <-]. left. exists ej. by rewrite Hb.
      * intros [(e0 & [= <-] & ->)|[? _]]; [by rewrite Hb|done].
    + rewrite list_lookup_alter_ne by done. split.
      * intros He. left. exists e. split; [done|]. destruct (beq e.1 key) eqn:Hb'; [|done].
        by destruct Hne; eapply (match_unique eqb dom beq hashf).
      * intros [(e0 & He & ->)|[? _]]; [|done]. destruct (beq e0.1 key) eqn:Hb'; [|done].
        destruct Hne; by eapply (match_unique eqb dom beq hashf).
  - rewrite lookup_snoc_Some. rewrite a_find_None in Hj. split.
    + intros [[_ He]|[-> <-]]; [left; exists e; by rewrite (Hj i e He)|by right].
    + intros [(e0 & He & ->)|(_ & -> & ->)]; [left|by right].
      rewrite (Hj i e0 He). split; [by apply lookup_lt_Some in He|done].
Qed.

Lemma a_get_insert es key key' val :
  entries_ok dom beq es → entries_ok dom beq (a_insert beq es key val) → dom key → dom key' →
  a_get beq (a_insert beq es key val) key' =
    if beq key key' then Some val else a_get beq es key'.
Proof using HK.
  intros Hes Hes' Hk Hk'. apply option_eq. intros v. rewrite a_get_Some by done.
  destruct (beq key key') eqn:Hkk.
  - split.
    + intros (i & e & He & Hb & <-). apply a_insert_lookup in He as
        [(e0 & He0 & ->)|(_ & _ & ->)]; [|done|done|done].
      destruct (beq e0.1 key) eqn:Hb0; [done|]. exfalso.
      assert (dom e0.1) as Hd by apply (Forall_lookup_1 _ _ _ _ (proj1 Hes) He0).
      rewrite (key_trans e0.1 key' key) in Hb0; [done|done|done|done|done|]. by apply key_sym.
    + intros [= <-]. destruct (a_find beq es key) as [i|] eqn:Hi.
      * pose proof Hi as (e0 & He0 & Hb0)%(a_find_Some eqb dom beq hashf); [|done|done].
        exists i, (e0.1, val). split_and!; [|cbn|done].
        -- apply a_insert_lookup; [done..|]. left. exists e0. by rewrite Hb0.
        -- apply (key_trans _ key); [|done..].
           apply (Forall_lookup_1 _ _ _ _ (proj1 Hes) He0).
      * exists (length es), (key, val). split_and!; [|done|done].
        apply a_insert_lookup; [done..|]. by right.
  - rewrite a_get_Some by done. split.
    + intros (i & e & He & Hb & <-). apply a_insert_lookup in He as
        [(e0 & He0 & ->)|(_ & _ & ->)]; [| |done|done].
      * destruct (beq e0.1 key) eqn:Hb0; [|eauto]. exfalso. cbn in Hb.
        assert (dom e0.1) as Hd by apply (Forall_lookup_1 _ _ _ _ (proj1 Hes) He0).
        rewrite (key_trans key e0.1 key') in Hkk; try done. by apply key_sym.
      * cbn in Hb. congruence.
    + intros (i & e & He & Hb & <-). exists i, e. split_and!; [|done|done].
      apply a_insert_lookup; [done..|]. left. exists e. split; [done|].
      destruct (beq e.1 key) eqn:Hb0; [|done]. exfalso.
      assert (dom e.1) as Hd by apply (Forall_lookup_1 _ _ _ _ (proj1 Hes) He).
      rewrite (key_trans key e.1 key') in Hkk; try done. by apply key_sym.
Qed.
End abstract.

(** ** Map literals *)

Lemma length_a_insert beq es key val : (length (a_insert beq es key val) ≤ S (length es))%nat.
Proof.
  unfold a_insert. destruct (a_find beq es key); [rewrite length_alter; lia|].
  rewrite length_app. cbn. lia.
Qed.

Section literal.
Context {E : Type} (s : list (option Obj)) (rank : nat → nat) (n : nat)
  (Hc : slots_closed s) (Hac : acyclic s rank) (Hok : slots_ok s).

Let dom := key_dom s rank n.
Let beq := key_beq (E:=E) s n.
Let hf := key_hashf (E:=E) s n.

Definition literal_entries (es pairs : list (Value * Value)) : list (Value * Value) :=
  foldl (λ es p, a_insert beq es p.1 p.2) es pairs.

Lemma from_pairs_from pairs : ∀ m,
  map_wf dom beq hf m → Forall (λ p, dom p.1) pairs →
  Z.of_nat (length (entries m) + length pairs) < 2 ^ 31 →
  ∃ m', foldl (λ r p, m ← r; h ← hash_value (E:=E) n s p.1;
                      map_insert (values_eq n s) m p.1 h p.2) (Ok m) pairs = Ok m' ∧
    map_wf dom beq hf m' ∧ entries m' = literal_entries (entries m) pairs.
Proof.
  pose proof (heap_key_laws (E:=E) s rank n Hc Hac Hok) as HK.
  induction pairs as [|p pairs IH]; intros m Hm Hd Hlen; [by exists m|].
  apply Forall_cons in Hd as [Hp Hd]. cbn in Hlen. cbn [foldl mbind res_bind].
  destruct (hash_value_key (E:=E) s rank n p.1 Hc Hac Hp) as [-> _]. cbn [mbind res_bind].
  destruct (map_insert_ok _ dom beq hf m p.1 p.2 Hm Hp) as (m1 & Hi & Hm1 & He1); [lia|].
  unfold hf in Hi. rewrite Hi. destruct (IH m1 Hm1 Hd) as (m' & Hm' & Hwf & He); [|exists m'].
  { rewrite He1. pose proof (length_a_insert beq (entries m) p.1 p.2). lia. }
  split_and!; [done|done|]. rewrite He, He1. done.
Qed.
End literal.

(** ** Properties *)

(** C37: Equal values have equal hashes: if [values_eq] answers true, hashing either
    value gives the same result, so a hash mismatch proves inequality. *)
Theorem hash_respects_eq {E} s n n' a b :
  slots_ok s → value_ok a → value_ok b → values_eq (E:=E) n s a b = Ok true →
  hash_value (E:=E) n' s a = hash_value (E:=E) n' s b.
Proof. intros. by apply (values_eq_hash s n). Qed.

Definition sample_slots : list (option Obj) :=
  [Some (Str "k"); Some (Str "k"); Some (List [Ref 0; Double 0]);
   Some (List [Ref 1; Double (2 ^ 63)])].

Definition sample_rank (h : nat) : nat := if Nat.ltb h 2 then 0 else 1.

Lemma sample_slots_ok :
  slots_closed sample_slots ∧ acyclic sample_slots sample_rank ∧ slots_ok sample_slots.
Proof.
  split_and!.
  - intros h o Hh.
    do 4 (destruct h as [|h]; [cbn in Hh; simplify_eq; repeat constructor; by eexists|]). done.
  - intros h o h' Hh Hin.
    do 4 (destruct h as [|h]; [cbn in Hh; simplify_eq; cbn in *; set_solver by (cbn; lia)|]). done.
  - intros h o Hh.
    do 4 (destruct h as [|h]; [cbn in Hh; simplify_eq; by repeat constructor|]). done.
Qed.

(** Two distinct lists, [0.0] against [-0.0], equal strings at different handles. *)
Lemma hash_respects_eq_witness :
  hash_value (E:=Empty_set) 2 sample_slots (Ref 2) = hash_value (E:=Empty_set) 2 sample_slots (Ref 3).
Proof.
  apply (hash_respects_eq sample_slots 2 2 (Ref 2) (Ref 3)); [apply sample_slots_ok|done|done|].
  vm_compute. reflexivity.
Defined.

(** A map literal builds the association list that inserting its pairs in order
    gives, later duplicates overwriting in place, without panic and for any
    number of entries below [2^31]. *)
Theorem from_pairs_refines {E} s rank n pairs :
  slots_closed s → acyclic s rank → slots_ok s →
  Forall (λ p, key_dom s rank n p.1) pairs → Z.of_nat (length pairs) < 2 ^ 31 →
  ∃ m, from_pairs (E:=E) (values_eq n s) (hash_value n s) pairs = Ok m ∧
    map_wf (key_dom s rank n) (key_beq (E:=E) s n) (key_hashf (E:=E) s n) m ∧
    entries m = literal_entries (E:=E) s n [] pairs.
Proof.
  intros Hc Hac Hok Hd Hlen.
  apply (from_pairs_from (E:=E) s rank n Hc Hac Hok pairs map_default); [|done|done].
  apply map_default_wf.
Qed.

(** Twenty integer keys, past the hashing threshold, then two equal string keys. *)
Definition sample_pairs : list (Value * Value) :=
  ((λ i, (Int (Z.of_nat i), Bool true)) <$> seq 0 20) ++ [(Ref 0, Int 1); (Ref 1, Int 2)].

Lemma sample_pairs_dom : Forall (λ p, key_dom sample_slots sample_rank 2 p.1) sample_pairs.
Proof.
  apply Forall_app. split.
  - apply Forall_fmap, Forall_forall. intros i Hi%elem_of_seq. split_and!; [done|cbn; lia|].
    cbn. unfold in_signed. lia.
  - repeat constructor; try (by eexists); cbn; lia.
Qed.

Lemma from_pairs_refines_witness : ∃ m,
  from_pairs (E:=Empty_set) (values_eq 2 sample_slots) (hash_value 2 sample_slots) sample_pairs = Ok m ∧
  entries m = literal_entries (E:=Empty_set) sample_slots 2 [] sample_pairs.
Proof.
  destruct sample_slots_ok as (Hc & Hac & Hok).
  destruct (from_pairs_refines (E:=Empty_set) sample_slots sample_rank 2 sample_pairs Hc Hac Hok
    sample_pairs_dom) as (m & Hm & _ & He); [by vm_compute|eauto].
Defined.

(** C9: On a live heap of finite structures, and a map of fewer than 2^31 - 1 entries,
    [insert] with the key's hash implements the association-list update (an existing key keeps its position), keeps the
    map's invariant across the linear and the hashed representation, and never
    panics or fails to terminate. *)
Theorem map_insert_refines {E} s rank n m key val :
  slots_closed s → acyclic s rank → slots_ok s →
  map_wf (key_dom s rank n) (key_beq (E:=E) s n) (key_hashf (E:=E) s n) m →
  key_dom s rank n key → Z.of_nat (length (entries m)) < 2 ^ 31 - 1 →
  ∃ h m', hash_value (E:=E) n s key = Ok h ∧
    map_insert (E:=E) (values_eq n s) m key h val = Ok m' ∧
    map_wf (key_dom s rank n) (key_beq (E:=E) s n) (key_hashf (E:=E) s n) m' ∧
    entries m' = a_insert (key_beq (E:=E) s n) (entries m) key val.
Proof.
  intros Hc Hac Hok Hm Hk Hlen. pose proof (heap_key_laws (E:=E) s rank n Hc Hac Hok) as HK.
  destruct (hash_value_key (E:=E) s rank n key Hc Hac Hk) as [Hh _].
  destruct (map_insert_ok _ _ _ _ m key val Hm Hk Hlen) as (m' & ? & ? & ?). eauto 10.
Qed.

(** C11: On a live heap of finite structures, [get] and [contains] with the key's hash
    agree with the association list, and looking a key up right after inserting another
    (into a map of fewer than 2^31 - 1 entries) gives the inserted value when the keys
    are equal and the old answer otherwise. *)
Theorem map_get_refines {E} s rank n m key key' val :
  slots_closed s → acyclic s rank → slots_ok s →
  map_wf (key_dom s rank n) (key_beq (E:=E) s n) (key_hashf (E:=E) s n) m →
  key_dom s rank n key → key_dom s rank n key' → Z.of_nat (length (entries m)) < 2 ^ 31 - 1 →
  ∃ h h' m' old, hash_value (E:=E) n s key = Ok h ∧ hash_value (E:=E) n s key' = Ok h' ∧
    map_get (E:=E) (values_eq n s) m key' h' = Ok old ∧
    old = a_get (key_beq (E:=E) s n) (entries m) key' ∧
    map_contains (E:=E) (values_eq n s) m key' h' = Ok (bool_decide (is_Some old)) ∧
    map_insert (E:=E) (values_eq n s) m key h val = Ok m' ∧
    map_get (E:=E) (values_eq n s) m' key' h' =
      Ok (if key_beq (E:=E) s n key key' then Some val else old).
Proof.
  intros Hc Hac Hok Hm Hk Hk' Hlen. pose proof (heap_key_laws (E:=E) s rank n Hc Hac Hok) as HK.
  destruct (hash_value_key (E:=E) s rank n key Hc Hac Hk) as [Hh _].
  destruct (hash_value_key (E:=E) s rank n key' Hc Hac Hk') as [Hh' _].
  destruct (map_insert_ok _ _ _ _ m key val Hm Hk Hlen) as (m' & Hi & Hm' & He).
  eexists _, _, m', _. split_and!; [done|done|exact (map_get_ok _ _ _ _ m key' Hm Hk')|done| |done|].
  - exact (map_contains_ok _ _ _ _ m key' Hm Hk').
  - rewrite (map_get_ok _ _ _ _ m' key' Hm' Hk'), He. f_equal.
    apply (a_get_insert _ (key_dom s rank n) _ (key_hashf (E:=E) s n)); [apply Hm| |done|done].
    rewrite <-He. apply Hm'.
Qed.

(** C12: [remove] with the key's hash returns the value the association list has for
    the key, drops exactly that entry keeping the order of the others, and keeps
    the map's invariant. *)
Theorem map_remove_refines {E} s rank n m key :
  slots_closed s → acyclic s rank → slots_ok s →
  map_wf (key_dom s rank n) (key_beq (E:=E) s n) (key_hashf (E:=E) s n) m →
  key_dom s rank n key →
  ∃ h m', hash_value (E:=E) n s key = Ok h ∧
    map_remove (E:=E) (values_eq n s) m key h =
      Ok (m', a_get (key_beq (E:=E) s n) (entries m) key) ∧
    map_wf (key_dom s rank n) (key_beq (E:=E) s n) (key_hashf (E:=E) s n) m' ∧
    entries m' = a_remove (key_beq (E:=E) s n) (entries m) key.
Proof.
  intros Hc Hac Hok Hm Hk. pose proof (heap_key_laws (E:=E) s rank n Hc Hac Hok) as HK.
  destruct (hash_value_key (E:=E) s rank n key Hc Hac Hk) as [Hh _].
  destruct (map_remove_ok _ _ _ _ m key Hm Hk) as (m' & ? & ? & ?). eauto 10.
Qed.

(** The map of [sample_pairs], hashed. *)
Lemma sample_map : ∃ m,
  map_wf (key_dom sample_slots sample_rank 2) (key_beq (E:=Empty_set) sample_slots 2)
    (key_hashf (E:=Empty_set) sample_slots 2) m ∧
  from_pairs (E:=Empty_set) (values_eq 2 sample_slots) (hash_value 2 sample_slots) sample_pairs = Ok m ∧
  length (entries m) = 21%nat.
Proof.
  destruct sample_slots_ok as (Hc & Hac & Hok).
  destruct (from_pairs_from (E:=Empty_set) sample_slots sample_rank 2 Hc Hac Hok sample_pairs
    map_default) as (m & Hm & Hwf & He); [apply map_default_wf|apply sample_pairs_dom|by vm_compute|].
  exists m. split_and!; [done|done|]. rewrite He. vm_compute. reflexivity.
Qed.

Lemma key_dom_ref0 : key_dom sample_slots sample_rank 2 (Ref 0).
Proof. split_and!; [by eexists|cbn; lia|done]. Qed.

Lemma map_insert_refines_witness : ∃ m h m',
  hash_value (E:=Empty_set) 2 sample_slots (Ref 0) = Ok h ∧
  map_insert (E:=Empty_set) (values_eq 2 sample_slots) m (Ref 0) h Unit = Ok m' ∧
  entries m' = a_insert (key_beq (E:=Empty_set) sample_slots 2) (entries m) (Ref 0) Unit.
Proof.
  destruct sample_slots_ok as (Hc & Hac & Hok). destruct sample_map as (m & Hm & _ & Hl). exists m.
  destruct (map_insert_refines (E:=Empty_set) sample_slots sample_rank 2 m (Ref 0) Unit Hc Hac Hok Hm
    key_dom_ref0) as (h & m' & ? & ? & _ & ?); [rewrite Hl; lia|eauto].
Defined.

Lemma map_get_refines_witness : ∃ m h h' m' old,
  hash_value (E:=Empty_set) 2 sample_slots (Ref 0) = Ok h ∧
  map_insert (E:=Empty_set) (values_eq 2 sample_slots) m (Ref 0) h Unit = Ok m' ∧
  map_get (E:=Empty_set) (values_eq 2 sample_slots) m' (Ref 0) h' =
    Ok (if key_beq (E:=Empty_set) sample_slots 2 (Ref 0) (Ref 0) then Some Unit else old).
Proof.
  destruct sample_slots_ok as (Hc & Hac & Hok). destruct sample_map as (m & Hm & _ & Hl).
  destruct (map_get_refines (E:=Empty_set) sample_slots sample_rank 2 m (Ref 0) (Ref 0) Unit
    Hc Hac Hok Hm key_dom_ref0 key_dom_ref0) as (h & h' & m' & old & ? & _ & _ & _ & _ & ? & ?);
    [rewrite Hl; lia|]. eauto 10.
Defined.

Lemma map_remove_refines_witness : ∃ m h m',
  map_remove (E:=Empty_set) (values_eq 2 sample_slots) m (Ref 0) h =
    Ok (m', a_get (key_beq (E:=Empty_set) sample_slots 2) (entries m) (Ref 0)).
Proof.
  destruct sample_slots_ok as (Hc & Hac & Hok). destruct sample_map as (m & Hm & _ & Hl).
  destruct (map_remove_refines (E:=Empty_set) sample_slots sample_rank 2 m (Ref 0)
    Hc Hac Hok Hm key_dom_ref0) as (h & m' & _ & ? & _). eauto.
Defined.
