(* ===== verification/Builder.v ===== *)
(** * The function assembler (src/runtime/src/builder.rs)

    [FnBuilder] collects instructions, with jumps to labels emitted as
    placeholders and listed as fixups; [finish] patches them.  The reference is a
    two-pass assembler on the sequence of builder calls: a label's address is the
    number of instructions emitted before it was bound, and each jump is emitted
    with its label's address.  [finish] produces exactly the reference code. *)

From Stdlib Require Import ZArith Lia.
From stdpp Require Import base numbers list strings sets.
From S2P Require Import Prelude Bytes Float64 Instr ModuleTable.

Open Scope Z_scope.

Module FnBuilder.
Record FnBuilder := mkBuilder {
  b_name : string;
  b_param_count : u16;
  b_local_count : u16;
  b_code : list Instr;
  label_addrs : list (option nat);
  fixups : list (nat * nat);
}.

(** A builder panics on misuse and has no other error. *)
Abbreviation building A := (res Empty_set A).

Definition new (name : string) (param_count : u16) : FnBuilder :=
  mkBuilder name param_count param_count [] [] [].

(** [*t = addr] on the instruction of a fixup. *)
Definition set_target (i : Instr) (addr : nat) : building Instr :=
  match i with
  | Jump _ => Ok (Jump (Z.of_nat addr))
  | JumpIfTrue _ => Ok (JumpIfTrue (Z.of_nat addr))
  | JumpIfFalse _ => Ok (JumpIfFalse (Z.of_nat addr))
  | _ => Panic
  end.

Fixpoint apply_fixups (labels : list (option nat)) (fixes : list (nat * nat))
    (code : list Instr) : building (list Instr) :=
  match fixes with
  | [] => Ok code
  | (code_idx, label_id) :: fixes' =>
      slot ← or_panic (labels !! label_id);
      addr ← or_panic slot;
      i ← or_panic (code !! code_idx);
      i' ← set_target i addr;
      apply_fixups labels fixes' (<[code_idx := i']> code)
  end.

Definition finish (b : FnBuilder) : building Function :=
  code ← apply_fixups (label_addrs b) (fixups b) (b_code b);
  Ok (Function_new (b_name b) (b_param_count b) (b_local_count b) code).

Definition label (b : FnBuilder) : FnBuilder * nat :=
  (mkBuilder (b_name b) (b_param_count b) (b_local_count b) (b_code b)
     (push (label_addrs b) None) (fixups b), length (label_addrs b)).

Definition bind (b : FnBuilder) (l : nat) : building FnBuilder :=
  slot ← or_panic (label_addrs b !! l);
  match slot with
  | Some _ => Panic
  | None =>
      Ok (mkBuilder (b_name b) (b_param_count b) (b_local_count b) (b_code b)
            (<[l := Some (length (b_code b))]> (label_addrs b)) (fixups b))
  end.

Definition emit (b : FnBuilder) (i : Instr) : FnBuilder :=
  mkBuilder (b_name b) (b_param_count b) (b_local_count b) (push (b_code b) i)
    (label_addrs b) (fixups b).

Definition emit_jump (b : FnBuilder) (i : Instr) (target : nat) : FnBuilder :=
  emit (mkBuilder (b_name b) (b_param_count b) (b_local_count b) (b_code b) (label_addrs b)
          (push (fixups b) (length (b_code b), target))) i.

Definition u16_saturating_add (a b : u16) : u16 := Z.min (a + b) (2 ^ 16 - 1).

Definition bump_locals (b : FnBuilder) (slot : u16) : FnBuilder :=
  mkBuilder (b_name b) (b_param_count b)
    (Z.max (b_local_count b) (u16_saturating_add slot 1)) (b_code b) (label_addrs b) (fixups b).

(** *** The emitting methods *)
Definition const_int (fb : FnBuilder) (n : i64) : FnBuilder := emit fb (ConstInt n).
Definition const_double (fb : FnBuilder) (x : f64) : FnBuilder := emit fb (ConstDouble x).
Definition const_bool (fb : FnBuilder) (b : bool) : FnBuilder := emit fb (ConstBool b).
Definition const_unit (fb : FnBuilder) : FnBuilder := emit fb ConstUnit.
Definition const_str (fb : FnBuilder) (s : string) : FnBuilder := emit fb (ConstStr s).
Definition load (fb : FnBuilder) (slot : u16) : FnBuilder := emit (bump_locals fb slot) (Load slot).
Definition store (fb : FnBuilder) (slot : u16) : FnBuilder := emit (bump_locals fb slot) (Store slot).
Definition add_i64 (fb : FnBuilder) : FnBuilder := emit fb AddI64.
Definition sub_i64 (fb : FnBuilder) : FnBuilder := emit fb SubI64.
Definition mul_i64 (fb : FnBuilder) : FnBuilder := emit fb MulI64.
Definition div_i64 (fb : FnBuilder) : FnBuilder := emit fb DivI64.
Definition mod_i64 (fb : FnBuilder) : FnBuilder := emit fb ModI64.
Definition neg_i64 (fb : FnBuilder) : FnBuilder := emit fb NegI64.
Definition and_i64 (fb : FnBuilder) : FnBuilder := emit fb AndI64.
Definition or_i64 (fb : FnBuilder) : FnBuilder := emit fb OrI64.
Definition xor_i64 (fb : FnBuilder) : FnBuilder := emit fb XorI64.
Definition bnot_i64 (fb : FnBuilder) : FnBuilder := emit fb BNotI64.
Definition shl_i64 (fb : FnBuilder) : FnBuilder := emit fb ShlI64.
Definition shr_i64 (fb : FnBuilder) : FnBuilder := emit fb ShrI64.
Definition ushr_i64 (fb : FnBuilder) : FnBuilder := emit fb UShrI64.
Definition add_f64 (fb : FnBuilder) : FnBuilder := emit fb AddF64.
Definition sub_f64 (fb : FnBuilder) : FnBuilder := emit fb SubF64.
Definition mul_f64 (fb : FnBuilder) : FnBuilder := emit fb MulF64.
Definition div_f64 (fb : FnBuilder) : FnBuilder := emit fb DivF64.
Definition neg_f64 (fb : FnBuilder) : FnBuilder := emit fb NegF64.
Definition eq_i64 (fb : FnBuilder) : FnBuilder := emit fb EqI64.
Definition ne_i64 (fb : FnBuilder) : FnBuilder := emit fb NeI64.
Definition lt_i64 (fb : FnBuilder) : FnBuilder := emit fb LtI64.
Definition le_i64 (fb : FnBuilder) : FnBuilder := emit fb LeI64.
Definition gt_i64 (fb : FnBuilder) : FnBuilder := emit fb GtI64.
Definition ge_i64 (fb : FnBuilder) : FnBuilder := emit fb GeI64.
Definition eq_f64 (fb : FnBuilder) : FnBuilder := emit fb EqF64.
Definition ne_f64 (fb : FnBuilder) : FnBuilder := emit fb NeF64.
Definition lt_f64 (fb : FnBuilder) : FnBuilder := emit fb LtF64.
Definition le_f64 (fb : FnBuilder) : FnBuilder := emit fb LeF64.
Definition gt_f64 (fb : FnBuilder) : FnBuilder := emit fb GtF64.
Definition ge_f64 (fb : FnBuilder) : FnBuilder := emit fb GeF64.
Definition not (fb : FnBuilder) : FnBuilder := emit fb Not.
Definition i64_to_f64 (fb : FnBuilder) : FnBuilder := emit fb I64ToF64.
Definition f64_to_i64 (fb : FnBuilder) : FnBuilder := emit fb F64ToI64.
Definition pop (fb : FnBuilder) : FnBuilder := emit fb Pop.
Definition dup (fb : FnBuilder) : FnBuilder := emit fb Dup.
Definition call (fb : FnBuilder) (func : u32) (argc : u8) : FnBuilder := emit fb (Call func argc).
Definition call_native (fb : FnBuilder) (native : u32) (argc : u8) : FnBuilder := emit fb (CallNative native argc).
Definition call_indirect (fb : FnBuilder) (argc : u8) : FnBuilder := emit fb (CallIndirect argc).
Definition call_virtual (fb : FnBuilder) (selector : string) (argc : u8) : FnBuilder := emit fb (CallVirtual selector argc).
Definition closure_new (fb : FnBuilder) (func : u32) (captures : u8) : FnBuilder := emit fb (ClosureNew func captures).
Definition enum_new (fb : FnBuilder) (ty : u32) (variant : u16) (field_count : u8) : FnBuilder := emit fb (EnumNew ty variant field_count).
Definition enum_tag (fb : FnBuilder) : FnBuilder := emit fb EnumTag.
Definition enum_get (fb : FnBuilder) (idx : u16) : FnBuilder := emit fb (EnumGet idx).
Definition struct_new (fb : FnBuilder) (ty : u32) : FnBuilder := emit fb (StructNew ty).
Definition field_get (fb : FnBuilder) (idx : u16) : FnBuilder := emit fb (FieldGet idx).
Definition field_set (fb : FnBuilder) (idx : u16) : FnBuilder := emit fb (FieldSet idx).
Definition list_new (fb : FnBuilder) (count : u32) : FnBuilder := emit fb (ListNew count).
Definition list_get (fb : FnBuilder) : FnBuilder := emit fb ListGet.
Definition list_set (fb : FnBuilder) : FnBuilder := emit fb ListSet.
Definition jump (fb : FnBuilder) (target : nat) : FnBuilder := emit_jump fb (Jump 0) target.
Definition jump_if_true (fb : FnBuilder) (target : nat) : FnBuilder := emit_jump fb (JumpIfTrue 0) target.
Definition jump_if_false (fb : FnBuilder) (target : nat) : FnBuilder := emit_jump fb (JumpIfFalse 0) target.
Definition ret (fb : FnBuilder) : FnBuilder := emit fb Return.

(** ** The reference assembler *)

(** A builder call: an instruction, a jump to a label, a new label, a binding. *)
Inductive jump_kind := KJump | KIfTrue | KIfFalse.

Inductive cmd :=
  | CInstr (i : Instr)
  | CJump (k : jump_kind) (l : nat)
  | CLabel
  | CBind (l : nat).

Definition jump_instr (k : jump_kind) (addr : nat) : Instr :=
  match k with
  | KJump => Jump (Z.of_nat addr)
  | KIfTrue => JumpIfTrue (Z.of_nat addr)
  | KIfFalse => JumpIfFalse (Z.of_nat addr)
  end.

(** The method that emits an instruction; the builder has none for the
    globals, [ListLen] and raw jumps. *)
Definition emit_method (fb : FnBuilder) (i : Instr) : option FnBuilder :=
  match i with
  | ConstInt n => Some (const_int fb n)
  | ConstDouble x => Some (const_double fb x)
  | ConstBool b => Some (const_bool fb b)
  | ConstUnit => Some (const_unit fb)
  | ConstStr s => Some (const_str fb s)
  | Load slot => Some (load fb slot)
  | Store slot => Some (store fb slot)
  | AddI64 => Some (add_i64 fb)
  | SubI64 => Some (sub_i64 fb)
  | MulI64 => Some (mul_i64 fb)
  | DivI64 => Some (div_i64 fb)
  | ModI64 => Some (mod_i64 fb)
  | NegI64 => Some (neg_i64 fb)
  | AndI64 => Some (and_i64 fb)
  | OrI64 => Some (or_i64 fb)
  | XorI64 => Some (xor_i64 fb)
  | BNotI64 => Some (bnot_i64 fb)
  | ShlI64 => Some (shl_i64 fb)
  | ShrI64 => Some (shr_i64 fb)
  | UShrI64 => Some (ushr_i64 fb)
  | AddF64 => Some (add_f64 fb)
  | SubF64 => Some (sub_f64 fb)
  | MulF64 => Some (mul_f64 fb)
  | DivF64 => Some (div_f64 fb)
  | NegF64 => Some (neg_f64 fb)
  | EqI64 => Some (eq_i64 fb)
  | NeI64 => Some (ne_i64 fb)
  | LtI64 => Some (lt_i64 fb)
  | LeI64 => Some (le_i64 fb)
  | GtI64 => Some (gt_i64 fb)
  | GeI64 => Some (ge_i64 fb)
  | EqF64 => Some (eq_f64 fb)
  | NeF64 => Some (ne_f64 fb)
  | LtF64 => Some (lt_f64 fb)
  | LeF64 => Some (le_f64 fb)
  | GtF64 => Some (gt_f64 fb)
  | GeF64 => Some (ge_f64 fb)
  | Not => Some (not fb)
  | I64ToF64 => Some (i64_to_f64 fb)
  | F64ToI64 => Some (f64_to_i64 fb)
  | Pop => Some (pop fb)
  | Dup => Some (dup fb)
  | Call func argc => Some (call fb func argc)
  | CallNative native argc => Some (call_native fb native argc)
  | CallIndirect argc => Some (call_indirect fb argc)
  | CallVirtual selector argc => Some (call_virtual fb selector argc)
  | ClosureNew func captures => Some (closure_new fb func captures)
  | EnumNew ty variant field_count => Some (enum_new fb ty variant field_count)
  | EnumTag => Some (enum_tag fb)
  | EnumGet idx => Some (enum_get fb idx)
  | StructNew ty => Some (struct_new fb ty)
  | FieldGet idx => Some (field_get fb idx)
  | FieldSet idx => Some (field_set fb idx)
  | ListNew count => Some (list_new fb count)
  | ListGet => Some (list_get fb)
  | ListSet => Some (list_set fb)
  | Return => Some (ret fb)
  | _ => None
  end.

Definition step (b : FnBuilder) (c : cmd) : building FnBuilder :=
  match c with
  | CInstr i => or_panic (emit_method b i)
  | CJump KJump l => Ok (jump b l)
  | CJump KIfTrue l => Ok (jump_if_true b l)
  | CJump KIfFalse l => Ok (jump_if_false b l)
  | CLabel => Ok (label b).1
  | CBind l => bind b l
  end.

Fixpoint run (b : FnBuilder) (cs : list cmd) : building FnBuilder :=
  match cs with
  | [] => Ok b
  | c :: cs' => b ← step b c; run b cs'
  end.

(** The number of instructions a call emits. *)
Definition emits (c : cmd) : nat := match c with CInstr _ | CJump _ _ => 1 | _ => 0 end.

(** The address a label is bound to, counting from [here]. *)
Fixpoint address (here : nat) (cs : list cmd) (l : nat) : option nat :=
  match cs with
  | [] => None
  | CBind l' :: cs' => if Nat.eqb l l' then Some here else address here cs' l
  | c :: cs' => address (here + emits c) cs' l
  end.

(** Second pass: emit with the addresses known. *)
Fixpoint assemble (addr : nat → option nat) (cs : list cmd) : list Instr :=
  match cs with
  | [] => []
  | CInstr i :: cs' => i :: assemble addr cs'
  | CJump k l :: cs' => jump_instr k (default 0%nat (addr l)) :: assemble addr cs'
  | _ :: cs' => assemble addr cs'
  end.

(** The slots a call touches decide the frame size. *)
Definition touches (c : cmd) : option u16 :=
  match c with CInstr (Load s) | CInstr (Store s) => Some s | _ => None end.

Fixpoint frame_size (locals : u16) (cs : list cmd) : u16 :=
  match cs with
  | [] => locals
  | c :: cs' =>
      frame_size (match touches c with
                  | Some s => Z.max locals (u16_saturating_add s 1)
                  | None => locals
                  end) cs'
  end.

(** ** Lemmas *)

(** The fixups of a sequence of calls. *)
Fixpoint jump_sites (here : nat) (cs : list cmd) : list (nat * nat) :=
  match cs with
  | [] => []
  | CJump _ l :: cs' => (here, l) :: jump_sites (S here) cs'
  | c :: cs' => jump_sites (here + emits c) cs'
  end.

Definition placeholders (cs : list cmd) : list Instr := assemble (λ _, None) cs.

Definition with_slot (b : FnBuilder) (o : option u16) : FnBuilder :=
  match o with Some s => bump_locals b s | None => b end.

Lemma with_slot_spec b o :
  b_name (with_slot b o) = b_name b ∧ b_param_count (with_slot b o) = b_param_count b ∧
  b_code (with_slot b o) = b_code b ∧ label_addrs (with_slot b o) = label_addrs b ∧
  fixups (with_slot b o) = fixups b ∧
  b_local_count (with_slot b o) =
    match o with Some s => Z.max (b_local_count b) (u16_saturating_add s 1) | None => b_local_count b end.
Proof. by destruct o. Qed.

Lemma emit_method_spec b i b' :
  emit_method b i = Some b' → b' = emit (with_slot b (touches (CInstr i))) i.
Proof. by destruct i; intros [= <-]. Qed.

Lemma run_bound_once cs : ∀ b b' l a, run b cs = Ok b' →
  label_addrs b !! l = Some (Some a) → address (length (b_code b)) cs l = None.
Proof.
  induction cs as [|c cs IH]; intros b b' l a Hrun Hl; [done|]. cbn [run] in Hrun.
  apply bind_ok in Hrun as (b1 & Hs & Hrun). destruct c as [i|k t| |t]; cbn [address].
  - cbn [step] in Hs. apply or_panic_ok, emit_method_spec in Hs as ->.
    specialize (IH _ _ l a Hrun). destruct (with_slot_spec b (touches (CInstr i))) as (_&_&H1&H2&_).
    cbn [label_addrs b_code emit] in IH. unfold push in IH. rewrite length_app, H1, H2 in IH. by apply IH.
  - assert (label_addrs b1 = label_addrs b ∧ length (b_code b1) = (length (b_code b) + 1)%nat) as [H1 H2].
    { destruct k; injection Hs as <-; cbn; unfold push; by rewrite length_app. }
    cbn [emits]. rewrite <-H2. eapply IH; [done|]. by rewrite H1.
  - injection Hs as <-. cbn [emits]. rewrite Nat.add_0_r. eapply (IH _ _ l a Hrun). cbn.
    by apply lookup_app_l_Some.
  - cbn [step] in Hs. unfold bind in Hs. apply bind_ok in Hs as (slot & Hslot & Hs).
    apply or_panic_ok in Hslot. destruct slot; [done|]. injection Hs as <-.
    destruct (Nat.eqb_spec l t) as [->|Hne]; [congruence|].
    apply (IH _ _ l a Hrun). cbn. by rewrite list_lookup_insert_ne.
Qed.

Lemma run_spec cs : ∀ b b', run b cs = Ok b' →
  b_name b' = b_name b ∧ b_param_count b' = b_param_count b ∧
  b_local_count b' = frame_size (b_local_count b) cs ∧
  b_code b' = b_code b ++ placeholders cs ∧
  fixups b' = fixups b ++ jump_sites (length (b_code b)) cs ∧
  (∀ l a, label_addrs b' !! l = Some (Some a) ↔
     label_addrs b !! l = Some (Some a) ∨ address (length (b_code b)) cs l = Some a).
Proof.
  induction cs as [|c cs IH]; intros b b' Hrun.
  { injection Hrun as <-. cbn. rewrite !app_nil_r. split_and!; [done..|]. naive_solver. }
  cbn [run] in Hrun. apply bind_ok in Hrun as (b1 & Hs & Hrun).
  pose proof (run_bound_once cs b1 b') as Honce. destruct (IH b1 b' Hrun) as (Hn & Hp & Hl & Hc & Hf & Ha).
  rewrite Hn, Hp, Hl, Hc, Hf. destruct c as [i|k t| |t]; cbn [step] in Hs.
  - apply or_panic_ok, emit_method_spec in Hs as ->. unfold placeholders.
    cbn [assemble jump_sites address frame_size emits].
    destruct (with_slot_spec b (touches (CInstr i))) as (H1&H2&H3&H4&H5&H6).
    cbn [b_name b_param_count b_local_count b_code fixups label_addrs emit] in *.
    unfold push in *. rewrite ?H1, ?H2, ?H3, ?H4, ?H5, ?H6 in *.
    rewrite length_app in *. rewrite <-!app_assoc. split_and!; try done.
  - assert (b1 = emit_jump b (jump_instr k 0) t) as -> by (destruct k; by injection Hs).
    unfold placeholders. cbn [assemble jump_sites address frame_size emits touches].
    cbn in *; unfold push in *; rewrite length_app in *; rewrite <-!app_assoc; cbn in *.
    rewrite Nat.add_1_r in *. split_and!; done.
  - injection Hs as <-. unfold placeholders.
    cbn [assemble jump_sites address frame_size emits touches]. rewrite Nat.add_0_r.
    split_and!; [done..|]. intros l a. rewrite Ha. cbn [label label_addrs fst b_code].
    unfold push. rewrite lookup_snoc_Some. split; [|intros [Hla|?]; [left|by right]].
    + intros [[[_ ?]|[_ ?]]|?]; [by left|done|by right].
    + left. split; [|done]. by apply lookup_lt_Some in Hla.
  - unfold bind in Hs. apply bind_ok in Hs as (slot & Hslot & Hs). apply or_panic_ok in Hslot.
    destruct slot; [done|]. injection Hs as <-. unfold placeholders.
    cbn [assemble jump_sites address frame_size emits touches]. rewrite Nat.add_0_r.
    split_and!; [done..|]. intros l a. rewrite Ha. cbn [label_addrs b_code].
    specialize (Honce l (length (b_code b)) Hrun). cbn [label_addrs b_code] in Honce.
    pose proof (lookup_lt_Some _ _ _ Hslot).
    destruct (Nat.eqb_spec l t) as [->|Hne].
    + rewrite list_lookup_insert_eq in * by done. rewrite Honce by done. rewrite Hslot. naive_solver.
    + by rewrite list_lookup_insert_ne by done.
Qed.

Lemma set_target_jump k a n : set_target (jump_instr k a) n = Ok (jump_instr k n).
Proof. by destruct k. Qed.

(** The labels a sequence of calls jumps to. *)
Definition referenced (cs : list cmd) : list nat :=
  omap (λ c, match c with CJump _ l => Some l | _ => None end) cs.

Lemma apply_fixups_ok labels addr cs : ∀ pre,
  (∀ l, l ∈ referenced cs → ∃ a, addr l = Some a ∧ labels !! l = Some (Some a)) →
  apply_fixups labels (jump_sites (length pre) cs) (pre ++ placeholders cs) =
    Ok (pre ++ assemble addr cs).
Proof.
  induction cs as [|c cs IH]; intros pre Hl; [done|].
  destruct c as [i|k t| |t]; cbn [jump_sites emits]; unfold placeholders; cbn [assemble].
  - specialize (IH (pre ++ [i])). rewrite length_app, <-!app_assoc in IH. apply IH, Hl.
  - destruct (Hl t) as (a & Ha & Hlt). { cbn. set_solver. }
    cbn [apply_fixups]. rewrite Hlt. cbn [or_panic mbind res_bind].
    rewrite list_lookup_middle by done. cbn [or_panic mbind res_bind].
    rewrite set_target_jump. cbn [mbind res_bind]. rewrite Ha. cbn [default].
    replace (length pre) with (length pre + 0)%nat at 2 by lia.
    rewrite insert_app_r. cbn.
    specialize (IH (pre ++ [jump_instr k a])). rewrite length_app, <-!app_assoc in IH.
    rewrite Nat.add_1_r in IH. apply IH. intros l Hin. apply Hl. cbn. set_solver.
  - rewrite Nat.add_0_r. apply IH, Hl.
  - rewrite Nat.add_0_r. apply IH, Hl.
Qed.

(** A fixup whose label is not bound stops [finish]. *)
Lemma apply_fixups_panic labels cs : ∀ code,
  (∃ l, l ∈ referenced cs ∧ ∀ a, labels !! l ≠ Some (Some a)) →
  apply_fixups labels (jump_sites (length code) cs) (code ++ placeholders cs) = Panic.
Proof.
  induction cs as [|c cs IH]; intros code (l & Hin & Hl); [by apply elem_of_nil in Hin|].
  destruct c as [i|k t| |t]; cbn [jump_sites emits]; unfold placeholders; cbn [assemble].
  - specialize (IH (code ++ [i])). rewrite length_app, <-app_assoc in IH. apply IH. by exists l.
  - cbn [apply_fixups]. destruct (labels !! t) as [[a|]|] eqn:Ht; [|done|done].
    cbn [or_panic mbind res_bind]. rewrite list_lookup_middle by done.
    cbn [or_panic mbind res_bind]. rewrite set_target_jump. cbn [mbind res_bind].
    replace (length code) with (length code + 0)%nat at 2 by lia. rewrite insert_app_r. cbn.
    specialize (IH (code ++ [jump_instr k a])).
    rewrite length_app, Nat.add_1_r, <-app_assoc in IH. apply IH.
    exists l. split; [|done]. cbn in Hin. apply elem_of_cons in Hin as [->|Hin]; [congruence|done].
  - rewrite Nat.add_0_r. apply IH. by exists l.
  - rewrite Nat.add_0_r. apply IH. by exists l.
Qed.

Lemma frame_size_ge cs : ∀ n, n ≤ frame_size n cs.
Proof.
  induction cs as [|c cs IH]; intros n; cbn; [lia|].
  etrans; [|apply IH]. destruct (touches c); lia.
Qed.

Lemma frame_size_le cs : ∀ n, n ≤ 2 ^ 16 - 1 → frame_size n cs ≤ 2 ^ 16 - 1.
Proof.
  induction cs as [|c cs IH]; intros n Hn; cbn [frame_size]; [done|]. apply IH.
  destruct (touches c); [|done]. unfold u16_saturating_add. lia.
Qed.

Lemma frame_size_covers cs : ∀ n c s,
  c ∈ cs → touches c = Some s → Z.min (s + 1) (2 ^ 16 - 1) ≤ frame_size n cs.
Proof.
  induction cs as [|c cs IH]; intros n c' s Hin Ht; [by apply elem_of_nil in Hin|].
  apply elem_of_cons in Hin as [<-|Hin]; cbn [frame_size]; [|eauto].
  rewrite Ht. etrans; [|apply frame_size_ge]. unfold u16_saturating_add. lia.
Qed.
End FnBuilder.

(** ** Properties *)

(** C40: When every label that is jumped to was bound, [finish] returns the function
    the two-pass reference assembler produces: each jump carries the number of
    instructions emitted before its label was bound, other instructions are
    unchanged, and the frame covers the parameters and every slot used below 65535.  For
    slot 65535 it does not: the count saturates, and a function that uses that slot gets
    a frame of 65535 slots, one too few. *)
Theorem builder_assembles name params cs b :
  FnBuilder.run (FnBuilder.new name params) cs = Ok b →
  Forall (λ l, is_Some (FnBuilder.address 0 cs l)) (FnBuilder.referenced cs) →
  FnBuilder.finish b = Ok (Function_new name params (FnBuilder.frame_size params cs)
    (FnBuilder.assemble (FnBuilder.address 0 cs) cs)) ∧
  params ≤ FnBuilder.frame_size params cs ∧
  (∀ c s, c ∈ cs → FnBuilder.touches c = Some s → s < 2 ^ 16 - 1 → s < FnBuilder.frame_size params cs) ∧
  (∀ c, c ∈ cs → FnBuilder.touches c = Some (2 ^ 16 - 1) → params ≤ 2 ^ 16 - 1 →
    FnBuilder.frame_size params cs = 2 ^ 16 - 1).
Proof.
  intros Hrun Href. destruct (FnBuilder.run_spec cs _ _ Hrun) as (Hn & Hp & Hl & Hc & Hf & Ha).
  split_and!.
  - unfold FnBuilder.finish. rewrite Hc, Hf, Hn, Hp, Hl. cbn.
    rewrite (FnBuilder.apply_fixups_ok _ (FnBuilder.address 0 cs) cs []); [done|].
    rewrite Forall_forall in Href. intros l Hin. destruct (Href l Hin) as [a Hla].
    exists a. split; [done|]. apply Ha. by right.
  - apply FnBuilder.frame_size_ge.
  - intros c s Hin Ht Hs. pose proof (FnBuilder.frame_size_covers cs params c s Hin Ht). lia.
  - intros c Hin Ht Hp'. pose proof (FnBuilder.frame_size_covers cs params c _ Hin Ht).
    pose proof (FnBuilder.frame_size_le cs params Hp'). lia.
Qed.

(** A loop with a forward exit. *)
Definition sample_cmds : list FnBuilder.cmd :=
  [FnBuilder.CLabel; FnBuilder.CLabel; FnBuilder.CBind 0; FnBuilder.CInstr (Load 3);
   FnBuilder.CJump FnBuilder.KIfFalse 1; FnBuilder.CJump FnBuilder.KJump 0;
   FnBuilder.CBind 1; FnBuilder.CInstr Return].

Example sample_code :
  FnBuilder.assemble (FnBuilder.address 0 sample_cmds) sample_cmds =
    [Load 3; JumpIfFalse 3; Jump 0; Return] ∧
  FnBuilder.frame_size 1 sample_cmds = 4.
Proof. split; reflexivity. Qed.

Definition sample_builder : FnBuilder.FnBuilder :=
  match FnBuilder.run (FnBuilder.new "loop" 1) sample_cmds with
  | Ok b => b
  | _ => FnBuilder.new "loop" 1
  end.

Lemma builder_assembles_witness :
  FnBuilder.finish sample_builder =
    Ok (Function_new "loop" 1 (FnBuilder.frame_size 1 sample_cmds)
      (FnBuilder.assemble (FnBuilder.address 0 sample_cmds) sample_cmds)).
Proof.
  refine (proj1 (builder_assembles "loop" 1 sample_cmds sample_builder _ _)).
  - vm_compute. reflexivity.
  - apply (bool_decide_unpack _). vm_compute. exact I.
Defined.

(** [finish] panics when a label that was jumped to was never bound, rather
    than emit a wrong target. *)
Theorem builder_unbound_panics name params cs b l :
  FnBuilder.run (FnBuilder.new name params) cs = Ok b →
  l ∈ FnBuilder.referenced cs → FnBuilder.address 0 cs l = None →
  FnBuilder.finish b = Panic.
Proof.
  intros Hrun Hin Hl. destruct (FnBuilder.run_spec cs _ _ Hrun) as (_ & _ & _ & Hc & Hf & Ha).
  unfold FnBuilder.finish. rewrite Hc, Hf. cbn.
  rewrite (FnBuilder.apply_fixups_panic _ cs []); [done|].
  exists l. split; [done|]. intros a [Hla|Hla]%Ha; [done|cbn in Hla; congruence].
Qed.

Lemma builder_unbound_panics_witness : ∃ b,
  FnBuilder.run (FnBuilder.new "f" 0) [FnBuilder.CLabel; FnBuilder.CJump FnBuilder.KJump 0] = Ok b ∧
  FnBuilder.finish b = Panic.
Proof.
  eexists. split; [reflexivity|].
  eapply (builder_unbound_panics "f" 0 [FnBuilder.CLabel; FnBuilder.CJump FnBuilder.KJump 0] _ 0);
    [reflexivity| |reflexivity]. apply list_elem_of_here.
Defined.
