(* ===== verification/Trap.v ===== *)
(** * Runtime faults (src/runtime/src/interp/mod.rs)

    [Trap] with its messages, and the type names that appear in them. *)

From Stdlib Require Import ZArith Lia.
From stdpp Require Import base numbers list strings gmap pretty.
From S2P Require Import Prelude Bytes Float64 Instr ModuleTable Value Heap.

Open Scope Z_scope.

Inductive Trap :=
  | DivByZero
  | IndexOutOfBounds (index : i64) (len : nat)
  | MissingKey (key : string)
  | ClosedChannel
  | OutOfMemory (live_bytes limit_bytes : usize)
  | StackOverflow
  | TypeError (expected found : string)
  | Bug (msg : string).

#[export] Instance Trap_eq_dec : EqDecision Trap.
Proof. solve_decision. Defined.

Definition MAX_CALL_DEPTH : nat := Z.to_nat 1000000.

(** [fmt_mib] prints a byte count as a decimal fraction of a MiB; the Rust library
    formats it. *)
Definition trap_message (fmt_mib : usize → string) (t : Trap) : string :=
  match t with
  | DivByZero => "division by zero"
  | IndexOutOfBounds index len =>
      "index out of range: the index is " +:+ pretty index +:+ " but the length is " +:+ pretty len
  | MissingKey key => "key not found: " +:+ key
  | ClosedChannel => "send on a closed channel"
  | OutOfMemory live limit =>
      "out of memory: the live heap is " +:+ fmt_mib live +:+ " but the limit is " +:+
      fmt_mib limit +:+ " (THERA_MAX_HEAP_MB)"
  | StackOverflow =>
      "stack overflow: the call stack reached " +:+ pretty 1000000%N +:+ " frames"
  | TypeError expected found =>
      "runtime type error: expected " +:+ expected +:+ ", found " +:+ found
  | Bug msg => "internal error (malformed bytecode): " +:+ msg
  end.

Definition bug (msg : string) : Trap := Bug msg.

Definition obj_type_name (obj : Obj) (module : option Module) : string :=
  match obj with
  | Str _ => "String"
  | Bytes _ => "Bytes"
  | BytesBuilder _ => "BytesBuilder"
  | List _ => "List"
  | Map _ => "Map"
  | Closure _ _ => "a function"
  | Struct ty _ =>
      match m ← module; types m !! Z.to_nat ty with
      | Some t => ty_name t
      | None => "a struct"
      end
  | Enum ty _ _ =>
      match m ← module; enum_def m ty with
      | Some d => enum_name d
      | None => "an enum"
      end
  end.

Definition value_type_name (m : Mem) (v : Value) (module : option Module) : res Trap string :=
  match v with
  | Int _ => Ok "Int"
  | Double _ => Ok "Double"
  | Bool _ => Ok "Bool"
  | Unit => Ok "Unit"
  | Ref h => with_obj m h (λ obj, obj_type_name obj module)
  end.

(** [Err(type_error(expected, found, module))] *)
Definition type_error {A} (m : Mem) (expected : string) (found : Value) (module : option Module) :
    res Trap A :=
  name ← value_type_name m found module; Err (TypeError expected name).
