(* ===== verification/Scheduler.v ===== *)
(** * The cooperative fiber scheduler (src/runtime/src/interp/mod.rs)

    [Scheduler] and its operations.  A [VecDeque] is a list with its front first,
    [poll_blocked] a finite map from socket handle to waiters, an [Instant] an
    integer.  An [Await] park carries the job a worker thread runs and the [finish]
    closure that turns the job's payload into a value, back on the Thera thread:
    it may allocate and change what lies outside the heap.  [Job], [Payload] and
    that outside, [Ext], are parameters here.  An out-of-bounds fiber or channel id, and the code's
    [expect] and [unreachable!], are panics. *)

From Stdlib Require Import ZArith Lia.
From stdpp Require Import base numbers list strings gmap.
From S2P Require Import Prelude Bytes Float64 Instr ModuleTable Value Heap Trap.

Open Scope Z_scope.

Abbreviation Instant := Z (only parsing).

Record Frame := mkFrame { func : nat; pc : nat; base : nat }.

Definition MAIN_FIBER : nat := 0.

Section sched.
Context {Job Payload Ext : Type}.

Definition IoFinish : Type := Payload → Ext → Mem → res Trap (Ext * Mem * Value).

Inductive ParkRequest :=
  | BlockRetry
  | YieldReady
  | Timer (deadline : Instant)
  | Await (job : Job) (finish : IoFinish)
  | Ready (handle : i64)
  | Multi (deadline : option Instant) (handles : list i64).

Record ParkSources := mkSources { timer : bool; handles : list i64 }.

Inductive FiberState :=
  | NotStarted (closure : Value)
  | Suspended (vstack : list Value) (frames : list Frame)
  | Running
  | Done (v : Value).

Record Fiber := mkFiber {
  state : FiberState;
  pending : option IoFinish;
  queued : bool;
  park_sources : option ParkSources;
}.

Record Chan := mkChan { buffer : list Value; chan_capacity : nat; closed : bool }.

Record Scheduler := mkSched {
  fibers : list Fiber;
  ready : list nat;
  blocked : list nat;
  timers : list (Instant * nat);
  io_blocked : usize;
  poll_blocked : gmap Z (list nat);
  channels : list Chan;
}.

Definition Scheduler_new : Scheduler := mkSched [] [] [] [] 0 ∅ [].

(** Field updates. *)
Definition set_state (f : Fiber) (st : FiberState) : Fiber :=
  mkFiber st (pending f) (queued f) (park_sources f).
Definition set_pending (f : Fiber) (p : option IoFinish) : Fiber :=
  mkFiber (state f) p (queued f) (park_sources f).
Definition set_queued (f : Fiber) (b : bool) : Fiber :=
  mkFiber (state f) (pending f) b (park_sources f).
Definition set_sources (f : Fiber) (p : option ParkSources) : Fiber :=
  mkFiber (state f) (pending f) (queued f) p.

Definition set_fibers (s : Scheduler) (fs : list Fiber) : Scheduler :=
  mkSched fs (ready s) (blocked s) (timers s) (io_blocked s) (poll_blocked s) (channels s).
Definition set_ready (s : Scheduler) (r : list nat) : Scheduler :=
  mkSched (fibers s) r (blocked s) (timers s) (io_blocked s) (poll_blocked s) (channels s).
Definition set_blocked (s : Scheduler) (b : list nat) : Scheduler :=
  mkSched (fibers s) (ready s) b (timers s) (io_blocked s) (poll_blocked s) (channels s).
Definition set_timers (s : Scheduler) (t : list (Instant * nat)) : Scheduler :=
  mkSched (fibers s) (ready s) (blocked s) t (io_blocked s) (poll_blocked s) (channels s).
Definition set_io_blocked (s : Scheduler) (n : usize) : Scheduler :=
  mkSched (fibers s) (ready s) (blocked s) (timers s) n (poll_blocked s) (channels s).
Definition set_poll_blocked (s : Scheduler) (p : gmap Z (list nat)) : Scheduler :=
  mkSched (fibers s) (ready s) (blocked s) (timers s) (io_blocked s) p (channels s).
Definition set_channels (s : Scheduler) (c : list Chan) : Scheduler :=
  mkSched (fibers s) (ready s) (blocked s) (timers s) (io_blocked s) (poll_blocked s) c.

(** [self.fibers[id]], mutated. *)
Definition upd_fiber (s : Scheduler) (id : nat) (f : Fiber → Fiber) : res Trap Scheduler :=
  x ← or_panic (fibers s !! id); Ok (set_fibers s (<[id := f x]> (fibers s))).

(** ** Waking *)

Definition make_ready (s : Scheduler) (id : nat) : res Trap Scheduler :=
  f ← or_panic (fibers s !! id);
  if queued f then Ok s else
  s ← upd_fiber s id (λ f, set_queued f true);
  Ok (set_ready s (ready s ++ [id])).

Fixpoint make_ready_all (s : Scheduler) (ids : list nat) : res Trap Scheduler :=
  match ids with
  | [] => Ok s
  | id :: ids' => s ← make_ready s id; make_ready_all s ids'
  end.

Definition wake_all (s : Scheduler) : res Trap Scheduler :=
  make_ready_all (set_blocked s []) (blocked s).

Definition wake_poll (s : Scheduler) (handle : i64) : res Trap Scheduler :=
  match poll_blocked s !! handle with
  | Some waiters => make_ready_all (set_poll_blocked s (delete handle (poll_blocked s))) waiters
  | None => Ok s
  end.

(** ** Channels *)

Inductive SendOutcome := Sent | Full | Closed.
Inductive RecvOutcome := Got (v : Value) | Empty | Drained.

Definition channel_new (s : Scheduler) (capacity : nat) : Scheduler * nat :=
  (set_channels s (channels s ++ [mkChan [] (capacity `max` 1) false]), length (channels s)).

Definition chan_send (s : Scheduler) (id : nat) (value : Value) :
    res Trap (Scheduler * SendOutcome) :=
  ch ← or_panic (channels s !! id);
  if closed ch then Ok (s, Closed)
  else if Nat.ltb (length (buffer ch)) (chan_capacity ch) then
    let ch := mkChan (buffer ch ++ [value]) (chan_capacity ch) (closed ch) in
    s ← wake_all (set_channels s (<[id := ch]> (channels s)));
    Ok (s, Sent)
  else Ok (s, Full).

Definition chan_receive (s : Scheduler) (id : nat) : res Trap (Scheduler * RecvOutcome) :=
  ch ← or_panic (channels s !! id);
  match buffer ch with
  | v :: rest =>
      let ch := mkChan rest (chan_capacity ch) (closed ch) in
      s ← wake_all (set_channels s (<[id := ch]> (channels s)));
      Ok (s, Got v)
  | [] => Ok (s, if closed ch then Drained else Empty)
  end.

Definition chan_close (s : Scheduler) (id : nat) : res Trap Scheduler :=
  ch ← or_panic (channels s !! id);
  wake_all (set_channels s (<[id := mkChan (buffer ch) (chan_capacity ch) true]> (channels s))).

Definition chan_ready (s : Scheduler) (id : nat) : res Trap bool :=
  ch ← or_panic (channels s !! id);
  Ok (negb (Nat.eqb (length (buffer ch)) 0) || closed ch).

(** ** Fibers *)

Definition spawn (s : Scheduler) (closure : Value) : res Trap (Scheduler * nat) :=
  let id := length (fibers s) in
  s ← make_ready (set_fibers s (fibers s ++ [mkFiber (NotStarted closure) None false None])) id;
  Ok (s, id).

Definition fiber_result (s : Scheduler) (id : nat) : option Value :=
  match state <$> fibers s !! id with Some (Done v) => Some v | _ => None end.

Definition complete (s : Scheduler) (id : nat) (value : Value) : res Trap Scheduler :=
  s ← upd_fiber s id (λ f, set_state f (Done value));
  wake_all s.

(** [self.poll_blocked.entry(handle).or_default().push(id)] *)
Definition poll_push (p : gmap Z (list nat)) (handle : i64) (id : nat) : gmap Z (list nat) :=
  <[handle := default [] (p !! handle) ++ [id]]> p.

Definition park (s : Scheduler) (id : nat) (vstack : list Value) (frames : list Frame)
    (req : ParkRequest) : res Trap Scheduler :=
  s ← upd_fiber s id (λ f, set_state f (Suspended vstack frames));
  match req with
  | YieldReady => make_ready s id
  | BlockRetry => Ok (set_blocked s (blocked s ++ [id]))
  | Timer deadline => Ok (set_timers s (timers s ++ [(deadline, id)]))
  | Ready handle => Ok (set_poll_blocked s (poll_push (poll_blocked s) handle id))
  | Multi deadline hs =>
      let s := set_blocked s (blocked s ++ [id]) in
      let s := match deadline with
               | Some d => set_timers s (timers s ++ [(d, id)])
               | None => s
               end in
      let s := set_poll_blocked s (foldl (λ p h, poll_push p h id) (poll_blocked s) hs) in
      upd_fiber s id (λ f, set_sources f (Some (mkSources (bool_decide (is_Some deadline)) hs)))
  | Await _ _ => Panic
  end.

Definition park_io (s : Scheduler) (id : nat) (vstack : list Value) (frames : list Frame)
    (finish : IoFinish) : res Trap Scheduler :=
  s ← upd_fiber s id (λ f, set_state f (Suspended vstack frames));
  s ← upd_fiber s id (λ f, set_pending f (Some finish));
  Ok (set_io_blocked s (as_u64 (io_blocked s + 1))).

(** One handle of [unlist]'s sweep. *)
Definition poll_drop (id : nat) (p : gmap Z (list nat)) (h : i64) : gmap Z (list nat) :=
  match p !! h with
  | Some waiters =>
      match filter (λ f, f ≠ id) waiters with
      | [] => delete h p
      | ws => <[h := ws]> p
      end
  | None => p
  end.

Definition unlist (s : Scheduler) (id : nat) : res Trap Scheduler :=
  f ← or_panic (fibers s !! id);
  match park_sources f with
  | None => Ok s
  | Some sources =>
      s ← upd_fiber s id (λ f, set_sources f None);
      let s := set_blocked s (filter (λ f, f ≠ id) (blocked s)) in
      let s := if timer sources then set_timers s (filter (λ t, t.2 ≠ id) (timers s)) else s in
      Ok (set_poll_blocked s (foldl (poll_drop id) (poll_blocked s) (handles sources)))
  end.

Definition take_pending (s : Scheduler) (id : nat) : res Trap (Scheduler * IoFinish) :=
  f ← or_panic (fibers s !! id);
  finish ← or_panic (pending f);
  s ← upd_fiber s id (λ f, set_pending f None);
  Ok (s, finish).

Definition deliver (s : Scheduler) (id : nat) (value : Value) : res Trap Scheduler :=
  f ← or_panic (fibers s !! id);
  match state f with
  | Suspended vstack frames =>
      '(below, _) ← or_panic (vec_pop vstack);
      s ← upd_fiber s id (λ f, set_state f (Suspended (push below value) frames));
      make_ready (set_io_blocked s (as_u64 (io_blocked s - 1))) id
  | _ => Panic
  end.

(** ** Timers *)

Definition earliest_deadline (s : Scheduler) : option Instant :=
  match (timers s).*1 with
  | [] => None
  | d :: ds => Some (foldl Z.min d ds)
  end.

Definition wake_due_timers (s : Scheduler) (now : Instant) : res Trap (Scheduler * bool) :=
  let due := (filter (λ t, t.1 ≤ now) (timers s)).*2 in
  s ← make_ready_all (set_timers s (filter (λ t, ¬ t.1 ≤ now) (timers s))) due;
  Ok (s, negb (Nat.eqb (length due) 0)).

(** The first half of [next_ready]: pop the front of the queue and mark it
    running, returning what it was. *)
Definition dequeue (s : Scheduler) : res Trap (option (Scheduler * nat * FiberState)) :=
  match ready s with
  | [] => Ok None
  | id :: rest =>
      s ← upd_fiber (set_ready s rest) id (λ f, set_queued f false);
      s ← unlist s id;
      f ← or_panic (fibers s !! id);
      s ← upd_fiber s id (λ f, set_state f Running);
      Ok (Some (s, id, state f))
  end.

(** ** Roots *)

Definition fiber_roots (f : Fiber) : list Value :=
  match state f with
  | NotStarted c => [c]
  | Done v => [v]
  | Suspended vstack _ => vstack
  | Running => []
  end.

Definition gather_scheduler_roots (s : Scheduler) : list Value :=
  (fibers s ≫= fiber_roots) ++ (channels s ≫= buffer).

(** [Scheduler::new()] with the main fiber running, as [Vm::run] installs it. *)
Definition Scheduler_main : Scheduler :=
  set_fibers Scheduler_new [mkFiber Running None false None].
End sched.

Arguments ParkRequest : clear implicits.
Arguments Fiber : clear implicits.
Arguments Scheduler : clear implicits.
Arguments IoFinish : clear implicits.
