(* ===== verification/SchedulerProofs.v ===== *)
(** * The scheduler's invariant

    [sched_inv]: the ready queue holds each runnable fiber once and [queued] says
    so; a fiber on a wait list is suspended and not awaiting a worker; a fiber
    parked on one source is listed at most once over all lists; one parked on
    several is listed only where its [park_sources] say; a suspended fiber is on
    some list or awaits a worker, so no fiber is lost.  Every operation of the
    scheduler keeps the invariant and cannot panic, and the fiber a dequeue returns
    is never running or finished and is on no list. *)

From Stdlib Require Import ZArith Lia.
From stdpp Require Import base numbers list strings gmap.
From S2P Require Import Prelude Bytes Float64 Instr ModuleTable Value Heap Trap Scheduler.

Open Scope Z_scope.

(** ** Occurrences in a list *)

Definition occ (l : list nat) (id : nat) : nat := length (filter (λ x, x = id) l).

Lemma occ_app l k id : occ (l ++ k) id = (occ l id + occ k id)%nat.
Proof. unfold occ. by rewrite filter_app, length_app. Qed.

Lemma occ_perm l k id : l ≡ₚ k → occ l id = occ k id.
Proof. intros Hp. unfold occ. by rewrite Hp. Qed.

Lemma occ_cons x l id : occ (x :: l) id = ((if decide (x = id) then 1 else 0) + occ l id)%nat.
Proof. unfold occ. rewrite filter_cons. by case_decide. Qed.

Lemma occ_elem l id : id ∈ l ↔ (0 < occ l id)%nat.
Proof.
  induction l as [|x l IH]; [unfold occ; cbn; split; [intros ?%elem_of_nil; done|lia]|].
  rewrite elem_of_cons, occ_cons, IH. case_decide; naive_solver lia.
Qed.

Lemma occ_not_elem l id : id ∉ l ↔ occ l id = 0%nat.
Proof. rewrite occ_elem. lia. Qed.

Lemma occ_filter_ne l id k : occ (filter (λ f, f ≠ id) l) k = if decide (k = id) then 0%nat else occ l k.
Proof.
  induction l as [|x l IH]; [by case_decide|]. rewrite filter_cons, occ_cons.
  repeat case_decide; subst; rewrite ?occ_cons, IH; repeat case_decide; naive_solver lia.
Qed.

Section inv.
Context {Payload Ext : Type}.
Implicit Types s : Scheduler Payload Ext.

(** ** Wait lists *)

Definition poll_waiters (p : gmap Z (list nat)) : list nat := map_to_list p ≫= snd.

Definition wait_list s : list nat :=
  blocked s ++ (timers s).*2 ++ poll_waiters (poll_blocked s).

Lemma poll_waiters_delete p h ws :
  p !! h = Some ws → poll_waiters p ≡ₚ ws ++ poll_waiters (delete h p).
Proof.
  intros Hp. unfold poll_waiters. rewrite <-(map_to_list_delete p h ws Hp). done.
Qed.

Lemma poll_waiters_insert p h ws :
  p !! h = None → poll_waiters (<[h := ws]> p) ≡ₚ ws ++ poll_waiters p.
Proof. intros Hp. unfold poll_waiters. rewrite (map_to_list_insert p h ws Hp). done. Qed.

Lemma poll_waiters_elem p id :
  id ∈ poll_waiters p ↔ ∃ h ws, p !! h = Some ws ∧ id ∈ ws.
Proof.
  unfold poll_waiters. rewrite list_elem_of_bind. split.
  - intros ([h ws] & Hin & Hp). apply elem_of_map_to_list in Hp. eauto.
  - intros (h & ws & Hp & Hin). exists (h, ws). split; [done|]. by apply elem_of_map_to_list.
Qed.

Lemma poll_push_waiters p h id : poll_waiters (poll_push p h id) ≡ₚ id :: poll_waiters p.
Proof.
  unfold poll_push. destruct (p !! h) as [ws|] eqn:Hp; cbn [default].
  - rewrite <-insert_delete_eq, poll_waiters_insert by apply lookup_delete_eq.
    rewrite (poll_waiters_delete p h ws Hp). rewrite <-app_assoc. cbn.
    by rewrite Permutation_middle.
  - by rewrite poll_waiters_insert.
Qed.

Lemma poll_drop_lookup id p h h' ws :
  poll_drop id p h !! h' = Some ws →
  ∃ ws0, p !! h' = Some ws0 ∧ (∀ k, k ∈ ws → k ∈ ws0) ∧ (h' = h → id ∉ ws).
Proof.
  unfold poll_drop. destruct (p !! h) as [ws1|] eqn:Hp.
  2:{ intros Hl. exists ws. split_and!; [done|done|]. intros ->. congruence. }
  destruct (filter (λ f, f ≠ id) ws1) as [|w ws2] eqn:Hf.
  - intros [Hne Hl]%lookup_delete_Some. exists ws. split_and!; [done|done|]. by intros ->.
  - intros Hl. apply lookup_insert_Some in Hl as [[<- <-]|[Hne Hl]].
    + exists ws1. split_and!; [done| |]; rewrite <-Hf.
      * intros k Hk. apply list_elem_of_filter in Hk. naive_solver.
      * intros _ Hk. apply list_elem_of_filter in Hk. naive_solver.
    + exists ws. split_and!; [done|done|]. by intros ->.
Qed.

Lemma poll_drop_occ id p h k :
  k ≠ id → occ (poll_waiters (poll_drop id p h)) k = occ (poll_waiters p) k.
Proof.
  intros Hk. unfold poll_drop. destruct (p !! h) as [ws|] eqn:Hp; [|done].
  rewrite (occ_perm _ _ k (poll_waiters_delete p h ws Hp)), occ_app.
  pose proof (occ_filter_ne ws id k) as Hocc. rewrite decide_False in Hocc by done.
  destruct (filter (λ f, f ≠ id) ws) as [|w ws2] eqn:Hf.
  - rewrite <-Hocc. done.
  - rewrite <-insert_delete_eq.
    rewrite (occ_perm _ _ k (poll_waiters_insert _ h _ (lookup_delete_eq p h))), occ_app. lia.
Qed.

Lemma poll_drops_lookup id hs : ∀ p h' ws,
  foldl (poll_drop id) p hs !! h' = Some ws →
  ∃ ws0, p !! h' = Some ws0 ∧ (∀ k, k ∈ ws → k ∈ ws0) ∧ (h' ∈ hs → id ∉ ws).
Proof.
  induction hs as [|h hs IH]; intros p h' ws Hl; cbn in Hl; [exists ws; set_solver|].
  destruct (IH _ _ _ Hl) as (ws1 & H1 & Hsub1 & Hn1).
  destruct (poll_drop_lookup _ _ _ _ _ H1) as (ws0 & H0 & Hsub0 & Hn0).
  exists ws0. split_and!; [done|auto|]. intros [->|Hin]%elem_of_cons; [|auto].
  intros Hin. apply Hn0; auto.
Qed.

Lemma poll_drops_occ id hs k : ∀ p,
  k ≠ id → occ (poll_waiters (foldl (poll_drop id) p hs)) k = occ (poll_waiters p) k.
Proof.
  induction hs as [|h hs IH]; intros p Hk; cbn; [done|]. rewrite IH by done. by apply poll_drop_occ.
Qed.

Lemma poll_pushes id hs : ∀ p,
  poll_waiters (foldl (λ p h, poll_push p h id) p hs) ≡ₚ replicate (length hs) id ++ poll_waiters p.
Proof.
  induction hs as [|h hs IH]; intros p; cbn; [done|]. rewrite IH, poll_push_waiters.
  by rewrite Permutation_middle.
Qed.

Lemma poll_pushes_lookup id hs k : ∀ p h ws,
  foldl (λ p h, poll_push p h id) p hs !! h = Some ws → k ∈ ws →
  (k = id ∧ h ∈ hs) ∨ ∃ ws0, p !! h = Some ws0 ∧ k ∈ ws0.
Proof.
  induction hs as [|h0 hs IH]; intros p h ws Hl Hin; cbn in Hl; [eauto|].
  destruct (IH _ _ _ Hl Hin) as [[-> ?]|(ws0 & Hp & Hin0)]; [left; set_solver|].
  unfold poll_push in Hp. apply lookup_insert_Some in Hp as [[-> <-]|[_ Hp]]; [|eauto].
  apply elem_of_app in Hin0 as [Hin0|Hin0]; [|left; set_solver].
  right. destruct (p !! h) as [ws0|]; cbn in Hin0; [eauto|set_solver].
Qed.

(** ** The invariant *)

Definition runnable (f : Fiber Payload Ext) : Prop :=
  pending f = None ∧ match state f with NotStarted _ | Suspended _ _ => True | _ => False end.

Definition parked (f : Fiber Payload Ext) : Prop :=
  pending f = None ∧ match state f with Suspended _ _ => True | _ => False end.

Definition is_pending (f : Fiber Payload Ext) : Prop := is_Some (pending f).
#[local] Instance is_pending_dec f : Decision (is_pending f).
Proof. unfold is_pending. apply _. Defined.

(** [extra] are fibers taken off a wait list and not yet made ready. *)
Record inv_gen s (extra : list nat) : Prop := {
  inv_nodup : NoDup (ready s);
  inv_queued : ∀ id f, fibers s !! id = Some f → queued f = true ↔ id ∈ ready s;
  inv_ready : ∀ id, id ∈ ready s → ∃ f, fibers s !! id = Some f ∧ runnable f;
  inv_extra : ∀ id, id ∈ extra → ∃ f, fibers s !! id = Some f ∧ runnable f;
  inv_wait : ∀ id, id ∈ wait_list s → ∃ f, fibers s !! id = Some f ∧ parked f;
  inv_single : ∀ id f, fibers s !! id = Some f → park_sources f = None →
    (occ (ready s ++ extra ++ wait_list s) id ≤ 1)%nat;
  inv_multi : ∀ id f ps, fibers s !! id = Some f → park_sources f = Some ps →
    (id ∈ (timers s).*2 → timer ps = true) ∧
    ∀ h ws, poll_blocked s !! h = Some ws → id ∈ ws → h ∈ handles ps;
  inv_pending : ∀ id f, fibers s !! id = Some f → is_pending f →
    ∃ vs v fs, state f = Suspended (vs ++ [v]) fs;
  inv_io : io_blocked s = Z.of_nat (length (filter is_pending (fibers s)));
  inv_alive : ∀ id f, fibers s !! id = Some f →
    match state f with NotStarted _ | Suspended _ _ => True | _ => False end →
    id ∈ ready s ++ extra ++ wait_list s ∨ is_pending f;
  inv_running : ∀ id f, fibers s !! id = Some f → state f = Running → park_sources f = None;
  inv_size : Z.of_nat (length (fibers s)) < 2 ^ 64;
}.

Definition sched_inv s : Prop := inv_gen s [].

Definition no_sources s (id : nat) : Prop :=
  ∀ f, fibers s !! id = Some f → park_sources f = None.

Lemma parked_runnable f : parked f → runnable f.
Proof. intros [? ?]. split; [done|]. by destruct (state f). Qed.

(** Moving fibers between the wait lists and [extra]. *)
Lemma inv_gen_move s e s' e' :
  fibers s' = fibers s → ready s' = ready s → io_blocked s' = io_blocked s →
  e' ++ wait_list s' ≡ₚ e ++ wait_list s →
  (∀ id, id ∈ wait_list s' → id ∈ wait_list s ∨ ∃ f, fibers s !! id = Some f ∧ parked f) →
  (∀ id, id ∈ (timers s').*2 → id ∈ (timers s).*2 ∨ no_sources s id) →
  (∀ id h ws, poll_blocked s' !! h = Some ws → id ∈ ws →
    (∃ ws0, poll_blocked s !! h = Some ws0 ∧ id ∈ ws0) ∨ no_sources s id) →
  inv_gen s e → inv_gen s' e'.
Proof.
  intros Hf Hr Hio Hw Hwl Ht Hp Hinv. constructor; rewrite ?Hf, ?Hr, ?Hio; try apply Hinv.
  - intros id Hid. assert (id ∈ e ++ wait_list s) as [Hin|Hin]%elem_of_app.
    { rewrite <-Hw. set_solver. }
    + by apply (inv_extra _ _ Hinv).
    + destruct (inv_wait _ _ Hinv id Hin) as (f & ? & ?). eauto using parked_runnable.
  - intros id [Hin|?]%Hwl; [by apply (inv_wait _ _ Hinv)|done].
  - intros id f Hid Hps. rewrite occ_app, (occ_perm _ _ id Hw), <-occ_app.
    by apply (inv_single _ _ Hinv id f).
  - intros id f ps Hid Hps. destruct (inv_multi _ _ Hinv id f ps Hid Hps) as [H1 H2]. split.
    + intros [?|Hn]%Ht; [auto|]. rewrite (Hn f Hid) in Hps. done.
    + intros h ws Hh Hin. destruct (Hp id h ws Hh Hin) as [(ws0 & ? & ?)|Hn]; [eauto|].
      rewrite (Hn f Hid) in Hps. done.
  - intros id f Hid Hst. rewrite elem_of_app, Hw, <-elem_of_app. by apply (inv_alive _ _ Hinv id f).
Qed.

(** Updating a fiber that keeps what the counts see. *)
Lemma length_filter_insert (P : Fiber Payload Ext → Prop) `{!∀ x, Decision (P x)} l i x y :
  l !! i = Some x → (P x ↔ P y) → length (filter P (<[i := y]> l)) = length (filter P l).
Proof.
  revert i. induction l as [|z l IH]; intros [|i] Hi Hxy; [done..| |].
  - injection Hi as ->. change (<[0%nat := y]> (x :: l)) with (y :: l). rewrite !filter_cons.
    repeat case_decide; naive_solver.
  - change (<[S i := y]> (z :: l)) with (z :: <[i := y]> l). rewrite !filter_cons.
    case_decide; cbn [length]; by rewrite (IH i).
Qed.

Lemma length_filter_insert_new (P : Fiber Payload Ext → Prop) `{!∀ x, Decision (P x)} l i x y :
  l !! i = Some x → ¬ P x → P y → length (filter P (<[i := y]> l)) = S (length (filter P l)).
Proof.
  revert i. induction l as [|z l IH]; intros [|i] Hi Hx Hy; [done..| |].
  - injection Hi as ->. change (<[0%nat := y]> (x :: l)) with (y :: l). rewrite !filter_cons.
    by rewrite decide_True, decide_False.
  - change (<[S i := y]> (z :: l)) with (z :: <[i := y]> l). rewrite !filter_cons.
    case_decide; cbn [length]; by rewrite (IH i).
Qed.

Lemma upd_fiber_ok s id f g :
  fibers s !! id = Some f → upd_fiber s id g = Ok (set_fibers s (<[id := g f]> (fibers s))).
Proof. intros Hf. unfold upd_fiber. by rewrite Hf. Qed.

(** ** Waking *)

Lemma requeue_inv s id extra :
  inv_gen s (id :: extra) → id ∈ ready s → inv_gen s extra.
Proof.
  intros Hinv Hq. destruct Hinv. constructor; try done.
  - intros k Hk. apply inv_extra0. set_solver.
  - intros k g Hk Hps. specialize (inv_single0 k g Hk Hps). revert inv_single0.
    change (id :: extra) with ([id] ++ extra). rewrite !occ_app. lia.
  - intros k g Hk Hst. destruct (inv_alive0 k g Hk Hst) as [Hin|?]; [left|by right].
    rewrite !elem_of_app in *. rewrite elem_of_cons in Hin. naive_solver.
Qed.

(** Putting a fiber on the ready queue changes only its flag. *)
Lemma set_queued_old s id f k g :
  fibers s !! id = Some f → <[id := set_queued f true]> (fibers s) !! k = Some g →
  ∃ g0, fibers s !! k = Some g0 ∧ state g = state g0 ∧ pending g = pending g0 ∧ park_sources g = park_sources g0.
Proof. intros Hf Hk. apply list_lookup_insert_Some in Hk as [(-> & <- & _)|[_ Hk]]; eauto. Qed.

Lemma set_queued_keeps (P : Fiber Payload Ext → Prop) s id f k :
  fibers s !! id = Some f → (P f → P (set_queued f true)) → (∃ g, fibers s !! k = Some g ∧ P g) →
  ∃ g, <[id := set_queued f true]> (fibers s) !! k = Some g ∧ P g.
Proof.
  intros Hf HP (g & Hg & Hr). pose proof (lookup_lt_Some _ _ _ Hf). destruct (decide (k = id)) as [->|].
  - rewrite list_lookup_insert_eq by done. assert (g = f) as -> by congruence. eauto.
  - rewrite list_lookup_insert_ne by done. eauto.
Qed.

Lemma enqueue_inv s id f extra :
  inv_gen s (id :: extra) → fibers s !! id = Some f → id ∉ ready s → runnable f →
  inv_gen (set_ready (set_fibers s (<[id := set_queued f true]> (fibers s))) (ready s ++ [id])) extra.
Proof.
  intros Hinv Hf Hnr Hpark. pose proof (lookup_lt_Some _ _ _ Hf) as Hlt.
  pose proof (λ k g, set_queued_old s id f k g Hf) as Hold.
  assert (∀ k, (∃ g, fibers s !! k = Some g ∧ runnable g) →
    ∃ g, <[id := set_queued f true]> (fibers s) !! k = Some g ∧ runnable g) as Hrun.
  { intros k. by apply set_queued_keeps. }
  constructor; cbn.
  - apply NoDup_app. split_and!; [apply Hinv| |apply NoDup_singleton]. set_solver.
  - intros k g Hk. apply list_lookup_insert_Some in Hk as [(-> & <- & _)|[Hne Hk]].
    + cbn. set_solver.
    + rewrite (inv_queued _ _ Hinv k g Hk). set_solver.
  - intros k [Hk|Hk]%elem_of_app; [by apply Hrun, (inv_ready _ _ Hinv)|].
    apply list_elem_of_singleton in Hk as ->. apply Hrun. eauto.
  - intros k Hk. apply Hrun, (inv_extra _ _ Hinv). set_solver.
  - intros k Hk. by apply set_queued_keeps, (inv_wait _ _ Hinv k Hk).
  - intros k g Hk Hps. destruct (Hold k g Hk) as (g0 & Hg0 & _ & _ & Hps').
    pose proof (inv_single _ _ Hinv k g0 Hg0 ltac:(congruence)) as Ho. revert Ho.
    change (occ (ready s ++ ([id] ++ extra) ++ wait_list s) k ≤ 1 →
      occ ((ready s ++ [id]) ++ extra ++ wait_list s) k ≤ 1)%nat. rewrite !occ_app. lia.
  - intros k g ps Hk Hps. destruct (Hold k g Hk) as (g0 & Hg0 & _ & _ & Hps').
    apply (inv_multi _ _ Hinv k g0 ps); congruence.
  - intros k g Hk Hpd. destruct (Hold k g Hk) as (g0 & Hg0 & Hst & Hpd' & _).
    unfold is_pending in Hpd. rewrite Hpd' in Hpd. rewrite Hst. by apply (inv_pending _ _ Hinv k g0).
  - rewrite (inv_io _ _ Hinv). f_equal. symmetry. by apply (length_filter_insert _ _ _ f).
  - intros k g Hk Hst. destruct (Hold k g Hk) as (g0 & Hg0 & Hst' & Hpd' & _).
    unfold is_pending. rewrite Hst' in Hst. rewrite Hpd'.
    destruct (inv_alive _ _ Hinv k g0 Hg0 Hst) as [Hin|?]; [left|by right].
    revert Hin. change (k ∈ ready s ++ (id :: extra) ++ wait_list s → k ∈ (ready s ++ [id]) ++ extra ++ wait_list s).
    rewrite !elem_of_app, elem_of_cons, list_elem_of_singleton. tauto.
  - intros k g Hk Hst. destruct (Hold k g Hk) as (g0 & Hg0 & Hst' & _ & Hps').
    rewrite Hps'. apply (inv_running _ _ Hinv k g0); congruence.
  - rewrite length_insert. apply Hinv.
Qed.

Lemma make_ready_inv s id extra :
  inv_gen s (id :: extra) → ∃ s', make_ready s id = Ok s' ∧ inv_gen s' extra ∧
    channels s' = channels s ∧ (∀ i, state <$> fibers s' !! i = state <$> fibers s !! i).
Proof.
  intros Hinv. destruct (inv_extra _ _ Hinv id) as (f & Hf & Hpark); [set_solver|].
  unfold make_ready. rewrite Hf. cbn [or_panic mbind res_bind].
  pose proof (inv_queued _ _ Hinv id f Hf) as Hiff. destruct (queued f) eqn:Hq.
  - exists s. split_and!; [done| |done|done]. apply (requeue_inv s id); [done|by apply Hiff].
  - rewrite (upd_fiber_ok s id f _ Hf). cbn [mbind res_bind]. eexists. split; [done|].
    split_and!; [|done|].
    + apply (enqueue_inv s id f extra); [done|done| |done]. intros Hin. by apply Hiff in Hin.
    + intros i. cbn. pose proof (lookup_lt_Some _ _ _ Hf). destruct (decide (i = id)) as [->|].
      * by rewrite list_lookup_insert_eq, Hf.
      * by rewrite list_lookup_insert_ne.
Qed.

Lemma make_ready_all_inv ids : ∀ s extra,
  inv_gen s (ids ++ extra) → ∃ s', make_ready_all s ids = Ok s' ∧ inv_gen s' extra ∧
    channels s' = channels s ∧ (∀ i, state <$> fibers s' !! i = state <$> fibers s !! i).
Proof.
  induction ids as [|id ids IH]; intros s extra Hinv; cbn; [by exists s|].
  destruct (make_ready_inv s id _ Hinv) as (s1 & -> & Hinv1 & Hc1 & Hs1). cbn.
  destruct (IH s1 extra Hinv1) as (s2 & -> & Hinv2 & Hc2 & Hs2). exists s2.
  split_and!; [done|done|congruence|]. intros i. by rewrite Hs2, Hs1.
Qed.

(** What a wake leaves alone: the channels and every fiber's state. *)
Definition same_fibers s s' : Prop :=
  channels s' = channels s ∧ ∀ i, state <$> fibers s' !! i = state <$> fibers s !! i.

Lemma wake_all_inv s :
  sched_inv s → ∃ s', wake_all s = Ok s' ∧ sched_inv s' ∧ same_fibers s s'.
Proof.
  intros Hinv. destruct (make_ready_all_inv (blocked s) (set_blocked s []) []) as
    (s' & Hok & Hinv' & Hc & Hst); [|by exists s'].
  apply (inv_gen_move s []); try done; [by rewrite app_nil_r| |by eauto..].
  unfold wait_list. cbn. set_solver.
Qed.

(** The waiters of a handle, taken out of the table. *)
Lemma wake_poll_taken s h ws :
  sched_inv s → poll_blocked s !! h = Some ws →
  inv_gen (set_poll_blocked s (delete h (poll_blocked s))) (ws ++ []).
Proof.
  intros Hinv Hp.
  assert (ws ++ wait_list (set_poll_blocked s (delete h (poll_blocked s))) ≡ₚ wait_list s) as Hw.
  { unfold wait_list. cbn. rewrite (poll_waiters_delete _ _ _ Hp).
    rewrite !app_assoc. apply Permutation_app_tail. rewrite <-!app_assoc.
    rewrite (Permutation_app_comm ws). by rewrite <-!app_assoc. }
  apply (inv_gen_move s []); try done.
  - by rewrite app_nil_r, Hw.
  - intros id Hid. left. rewrite <-Hw. set_solver.
  - by left.
  - intros id h' ws'. cbn. intros [_ ?]%lookup_delete_Some. eauto.
Qed.

Lemma wake_poll_inv s h :
  sched_inv s → ∃ s', wake_poll s h = Ok s' ∧ sched_inv s' ∧ same_fibers s s'.
Proof.
  intros Hinv. unfold wake_poll. destruct (poll_blocked s !! h) as [ws|] eqn:Hp; [|by exists s].
  destruct (make_ready_all_inv ws _ [] (wake_poll_taken s h ws Hinv Hp)) as (s' & Hok & Hinv' & Hc & Hst).
  by exists s'.
Qed.

Lemma wake_due_timers_inv s now :
  sched_inv s → ∃ s' b, wake_due_timers s now = Ok (s', b) ∧ sched_inv s' ∧ same_fibers s s'.
Proof.
  intros Hinv. unfold wake_due_timers.
  set (due := (filter (λ t : Z * nat, t.1 ≤ now) (timers s)).*2).
  destruct (make_ready_all_inv due
    (set_timers s (filter (λ t : Z * nat, ¬ t.1 ≤ now) (timers s))) []) as
    (s' & Hok & Hinv' & Hc & Hst); [|rewrite Hok; cbn; by eexists s', _].
  assert (filter (λ t : Z * nat, t.1 ≤ now) (timers s) ++
    filter (λ t : Z * nat, ¬ t.1 ≤ now) (timers s) ≡ₚ timers s) as Hsplit.
  { induction (timers s) as [|t ts IH]; [done|]. rewrite !filter_cons.
    repeat case_decide; try done; cbn; [by rewrite IH|].
    by rewrite <-Permutation_middle, IH. }
  assert (due ++ wait_list (set_timers s (filter (λ t : Z * nat, ¬ t.1 ≤ now) (timers s)))
    ≡ₚ wait_list s) as Hw.
  { unfold wait_list, due. cbn.
    rewrite (Permutation_app_swap_app _ (blocked s)). apply Permutation_app_head.
    rewrite app_assoc, <-fmap_app. by rewrite Hsplit. }
  apply (inv_gen_move s []); try done; [by rewrite app_nil_r, Hw| | |by eauto].
  - intros id Hid. left. rewrite <-Hw. set_solver.
  - cbn. intros id (t & -> & Ht)%list_elem_of_fmap.
    left. apply list_elem_of_fmap. exists t. split; [done|]. apply list_elem_of_filter in Ht. tauto.
Qed.

(** Every fiber's state, as an operation leaves it. *)
Definition same_states s s' : Prop := ∀ i, state <$> fibers s' !! i = state <$> fibers s !! i.
Definition same_states_but s s' (id : nat) : Prop :=
  ∀ i, i ≠ id → state <$> fibers s' !! i = state <$> fibers s !! i.

(** ** Channels *)

Lemma set_channels_inv s c : sched_inv s → sched_inv (set_channels s c).
Proof. apply inv_gen_move; by eauto. Qed.

Lemma chan_send_inv s id v :
  sched_inv s → (id < length (channels s))%nat →
  ∃ s' o, chan_send s id v = Ok (s', o) ∧ sched_inv s' ∧ same_states s s'.
Proof.
  intros Hinv Hid. unfold chan_send. destruct (lookup_lt_is_Some_2 _ _ Hid) as [ch ->].
  cbn [or_panic mbind res_bind]. destruct (closed ch); [by eexists s, _|].
  destruct (Nat.ltb _ _); [|by eexists s, _].
  match goal with |- context [wake_all ?x] => destruct (wake_all_inv x) as (s' & -> & Hinv' & _ & Hst) end.
  { by apply set_channels_inv. }
  cbn. by eexists s', _.
Qed.

Lemma chan_receive_inv s id :
  sched_inv s → (id < length (channels s))%nat →
  ∃ s' o, chan_receive s id = Ok (s', o) ∧ sched_inv s' ∧ same_states s s'.
Proof.
  intros Hinv Hid. unfold chan_receive. destruct (lookup_lt_is_Some_2 _ _ Hid) as [ch ->].
  cbn [or_panic mbind res_bind]. destruct (buffer ch) as [|v rest]; [by eexists s, _|].
  match goal with |- context [wake_all ?x] => destruct (wake_all_inv x) as (s' & -> & Hinv' & _ & Hst) end.
  { by apply set_channels_inv. }
  cbn. by eexists s', _.
Qed.

Lemma chan_close_inv s id :
  sched_inv s → (id < length (channels s))%nat → ∃ s', chan_close s id = Ok s' ∧ sched_inv s' ∧ same_states s s'.
Proof.
  intros Hinv Hid. unfold chan_close. destruct (lookup_lt_is_Some_2 _ _ Hid) as [ch ->].
  cbn [or_panic mbind res_bind].
  match goal with |- context [wake_all ?x] => destruct (wake_all_inv x) as (s' & -> & Hinv' & _ & Hst) end.
  { by apply set_channels_inv. }
  by exists s'.
Qed.

(** ** Spawning, completing and parking *)

(** A fiber on no list, seen from the invariant. *)
Lemma not_listed s id f :
  sched_inv s → fibers s !! id = Some f → ¬ runnable f → id ∉ ready s ∧ id ∉ wait_list s.
Proof.
  intros Hinv Hf Hr. split; intros Hin.
  - destruct (inv_ready _ _ Hinv id Hin) as (g & Hg & ?). congruence.
  - destruct (inv_wait _ _ Hinv id Hin) as (g & Hg & Hp & Hst). apply Hr.
    assert (g = f) as -> by congruence. split; [done|]. by destruct (state f).
Qed.

(** A fiber that was just added, before it is woken. *)
Lemma spawned_inv s c :
  sched_inv s → Z.of_nat (length (fibers s)) < 2 ^ 64 - 1 →
  inv_gen (set_fibers s (fibers s ++ [mkFiber (NotStarted c) None false None])) [length (fibers s)].
Proof.
  intros Hinv Hsize. set (fb := mkFiber (NotStarted c) None false None : Fiber Payload Ext).
  set (s1 := set_fibers s (fibers s ++ [fb])). set (id := length (fibers s)).
  assert (∀ k f, (fibers s ++ [fb]) !! k = Some f →
    fibers s !! k = Some f ∧ k ≠ id ∨ k = id ∧ f = fb) as Hcase.
  { intros k f [[? ?]|[-> <-]]%lookup_snoc_Some; [left; split; [done|unfold id; lia]|by right]. }
  assert (∀ k f, fibers s !! k = Some f → (fibers s ++ [fb]) !! k = Some f) as Hkeep.
  { intros. by apply lookup_app_l_Some. }
  assert (∀ k, k ∈ ready s ++ wait_list s → k ≠ id) as Hfresh.
  { intros k [Hk|Hk]%elem_of_app ->.
    - destruct (inv_ready _ _ Hinv _ Hk) as (f & Hf%lookup_lt_Some & _). unfold id in Hf. lia.
    - destruct (inv_wait _ _ Hinv _ Hk) as (f & Hf%lookup_lt_Some & _). unfold id in Hf. lia. }
  constructor; cbn [fibers ready blocked timers io_blocked poll_blocked set_fibers s1]; try apply Hinv.
  - intros k f [[Hk _]|[-> ->]]%Hcase; [by apply (inv_queued _ _ Hinv)|].
    split; [done|]. intros Hin. by destruct (Hfresh id); [set_solver|].
  - intros k Hk. destruct (inv_ready _ _ Hinv k Hk) as (f & ? & ?). eauto.
  - intros k ->%list_elem_of_singleton. exists fb. split; [|done].
    unfold id. by rewrite lookup_app_r, Nat.sub_diag by lia.
  - intros k Hk. destruct (inv_wait _ _ Hinv k Hk) as (f & ? & ?). eauto.
  - intros k f Hk Hps. change (occ (ready s ++ [id] ++ wait_list s) k ≤ 1)%nat.
    rewrite !occ_app, occ_cons. apply Hcase in Hk as [[Hk Hne]|[-> ->]].
    + pose proof (inv_single _ _ Hinv k f Hk Hps) as Ho. cbn [app] in Ho. rewrite occ_app in Ho.
      rewrite decide_False by done. unfold occ at 2. cbn. lia.
    + rewrite decide_True by done. rewrite (proj1 (occ_not_elem (ready s) id)), (proj1 (occ_not_elem (wait_list s) id)).
      * done.
      * intros Hin. by destruct (Hfresh id); [set_solver|].
      * intros Hin. by destruct (Hfresh id); [set_solver|].
  - intros k f ps [[Hk _]|[-> ->]]%Hcase; [by apply (inv_multi _ _ Hinv)|done].
  - intros k f [[Hk _]|[-> ->]]%Hcase; [by apply (inv_pending _ _ Hinv k)|]. by intros [? ?].
  - rewrite filter_app, length_app. rewrite (inv_io _ _ Hinv).
    rewrite (filter_cons_False _ fb) by (by intros [? ?]). cbn. lia.
  - intros k f [[Hk _]|[-> ->]]%Hcase Hst.
    + destruct (inv_alive _ _ Hinv k f Hk Hst) as [Hin|?]; [left|by right].
      revert Hin. change (k ∈ ready s ++ wait_list s → k ∈ ready s ++ [id] ++ wait_list s).
      set_solver.
    + left. change (id ∈ ready s ++ [id] ++ wait_list s). set_solver.
  - intros k f [[Hk _]|[-> ->]]%Hcase; [by apply (inv_running _ _ Hinv k)|done].
  - rewrite length_app. cbn. lia.
Qed.

Lemma spawn_inv s c :
  sched_inv s → Z.of_nat (length (fibers s)) < 2 ^ 64 - 1 →
  ∃ s', spawn s c = Ok (s', length (fibers s)) ∧ sched_inv s' ∧
    state <$> fibers s' !! length (fibers s) = Some (NotStarted c) ∧
    same_states_but s s' (length (fibers s)).
Proof.
  intros Hinv Hsize. unfold spawn.
  set (fb := mkFiber (NotStarted c) None false None : Fiber Payload Ext).
  set (s1 := set_fibers s (fibers s ++ [fb])). set (id := length (fibers s)).
  pose proof (spawned_inv s c Hinv Hsize : inv_gen s1 [id]) as Hinv1.
  destruct (make_ready_inv s1 id [] Hinv1) as (s' & -> & Hinv' & _ & Hst). cbn.
  exists s'. split_and!; [done|done| |].
  - rewrite Hst. cbn. by rewrite lookup_app_r, Nat.sub_diag by lia.
  - intros i Hi. rewrite Hst. cbn. destruct (decide (i < length (fibers s))%nat).
    + by rewrite lookup_app_l.
    + rewrite !lookup_ge_None_2; [done| |]; rewrite ?length_app; cbn; lia.
Qed.

Definition startable (f : Fiber Payload Ext) : Prop :=
  match state f with NotStarted _ | Suspended _ _ => True | _ => False end.

(** Replacing a fiber that is on no list. *)
Lemma update_inv s id f g io extra :
  sched_inv s → fibers s !! id = Some f → ¬ runnable f → queued g = queued f →
  io = Z.of_nat (length (filter is_pending (<[id := g]> (fibers s)))) →
  (is_pending g → ∃ vs v fs, state g = Suspended (vs ++ [v]) fs) →
  (state g = Running → park_sources g = None) →
  (extra = [] ∨ extra = [id] ∧ runnable g) → (startable g → extra = [id] ∨ is_pending g) →
  inv_gen (set_io_blocked (set_fibers s (<[id := g]> (fibers s))) io) extra.
Proof.
  intros Hinv Hf Hnr Hq Hio Hpd Hrn Hex Hst.
  destruct (not_listed s id f Hinv Hf Hnr) as [Hnready Hnwait].
  pose proof (lookup_lt_Some _ _ _ Hf) as Hlt.
  assert (∀ k h, <[id := g]> (fibers s) !! k = Some h → k = id ∧ h = g ∨ k ≠ id ∧ fibers s !! k = Some h)
    as Hcase.
  { intros k h [(-> & <- & _)|[? ?]]%list_lookup_insert_Some; auto. }
  assert (∀ k h, k ≠ id → fibers s !! k = Some h → <[id := g]> (fibers s) !! k = Some h) as Hkeep.
  { intros. by rewrite list_lookup_insert_ne. }
  assert (∀ k, k ≠ id → k ∉ extra) as Hexo by (intros k ?; destruct Hex as [->|[-> _]]; set_solver).
  constructor; cbn [fibers ready blocked timers io_blocked poll_blocked set_fibers set_io_blocked];
    try apply Hinv; try done.
  - intros k h [[-> ->]|[Hne Hk]]%Hcase; [|by apply (inv_queued _ _ Hinv)].
    rewrite Hq. by apply (inv_queued _ _ Hinv).
  - intros k Hk. destruct (inv_ready _ _ Hinv k Hk) as (h & Hh & ?).
    exists h. split; [|done]. apply Hkeep; [set_solver|done].
  - intros k Hk. destruct Hex as [->|[-> Hr]]; [set_solver|].
    apply list_elem_of_singleton in Hk as ->. exists g. by rewrite list_lookup_insert_eq.
  - intros k Hk. destruct (inv_wait _ _ Hinv k Hk) as (h & Hh & ?).
    exists h. split; [|done]. apply Hkeep; [|done]. intros ->. by apply Hnwait.
  - intros k h Hk Hps. change (occ (ready s ++ extra ++ wait_list s) k ≤ 1)%nat.
    rewrite !occ_app. apply Hcase in Hk as [[-> ->]|[Hne Hk]].
    + rewrite (proj1 (occ_not_elem _ _) Hnready), (proj1 (occ_not_elem _ _) Hnwait).
      destruct Hex as [->|[-> _]]; [unfold occ; cbn; lia|].
      rewrite occ_cons, decide_True by done. unfold occ. cbn. lia.
    + pose proof (inv_single _ _ Hinv k h Hk Hps) as Ho. cbn [app] in Ho. rewrite occ_app in Ho.
      rewrite (proj1 (occ_not_elem _ _) (Hexo k Hne)). lia.
  - intros k h ps [[-> ->]|[Hne Hk]]%Hcase Hps; [|by apply (inv_multi _ _ Hinv k h)].
    split.
    + intros Hin. destruct Hnwait. unfold wait_list. set_solver.
    + intros h ws Hh Hin. destruct Hnwait. unfold wait_list.
      rewrite !elem_of_app, poll_waiters_elem. right; right. by exists h, ws.
  - intros k h [[-> ->]|[Hne Hk]]%Hcase; [done|by apply (inv_pending _ _ Hinv k)].
  - intros k h [[-> ->]|[Hne Hk]]%Hcase Hs.
    + destruct (Hst Hs) as [->|?]; [left|by right].
      change (id ∈ ready s ++ [id] ++ wait_list s). set_solver.
    + destruct (inv_alive _ _ Hinv k h Hk Hs) as [Hin|?]; [left|by right].
      revert Hin. change (k ∈ ready s ++ wait_list s → k ∈ ready s ++ extra ++ wait_list s).
      set_solver.
  - intros k h [[-> ->]|[Hne Hk]]%Hcase; [done|by apply (inv_running _ _ Hinv k)].
  - rewrite length_insert. apply Hinv.
Qed.

Lemma set_io_same s fs :
  set_io_blocked (set_fibers s fs) (io_blocked s) = set_fibers s fs.
Proof. done. Qed.

(** The running fiber, as the invariant sees it. *)
Lemma running_facts s id f :
  sched_inv s → fibers s !! id = Some f → state f = Running →
  ¬ runnable f ∧ pending f = None ∧ park_sources f = None.
Proof.
  intros Hinv Hf Hst. split_and!.
  - intros [_ Hr]. by rewrite Hst in Hr.
  - destruct (pending f) eqn:Hp; [|done]. destruct (inv_pending _ _ Hinv id f Hf) as (?&?&?&?);
      [by eexists|congruence].
  - by apply (inv_running _ _ Hinv id f).
Qed.

Lemma complete_inv s id f v :
  sched_inv s → fibers s !! id = Some f → state f = Running →
  ∃ s', complete s id v = Ok s' ∧ sched_inv s' ∧ fiber_result s' id = Some v ∧
    same_states_but s s' id.
Proof.
  intros Hinv Hf Hst. destruct (running_facts s id f Hinv Hf Hst) as (Hr & Hp & Hps).
  unfold complete. rewrite (upd_fiber_ok s id f _ Hf). cbn [mbind res_bind].
  match goal with |- context [wake_all ?x] => destruct (wake_all_inv x) as (s' & -> & Hinv' & _ & Hs') end.
  { rewrite <-set_io_same. eapply update_inv; try done.
    - rewrite (inv_io _ _ Hinv). f_equal. symmetry. by apply (length_filter_insert _ _ _ f).
    - unfold is_pending. cbn. rewrite Hp. by intros [? ?].
    - by left. }
  exists s'. split_and!; [done|done| |].
  - unfold fiber_result. rewrite Hs'. cbn.
    rewrite list_lookup_insert_eq by (by apply lookup_lt_Some in Hf). done.
  - intros i Hi. rewrite Hs'. cbn. by rewrite list_lookup_insert_ne.
Qed.

Lemma suspend_inv s id f vs fs :
  sched_inv s → fibers s !! id = Some f → state f = Running →
  inv_gen (set_fibers s (<[id := set_state f (Suspended vs fs)]> (fibers s))) [id].
Proof.
  intros Hinv Hf Hst. destruct (running_facts s id f Hinv Hf Hst) as (Hr & Hp & Hps).
  rewrite <-set_io_same. eapply update_inv; try done.
  - rewrite (inv_io _ _ Hinv). f_equal. symmetry. by apply (length_filter_insert _ _ _ f).
  - unfold is_pending. cbn. rewrite Hp. by intros [? ?].
  - right. split; [done|]. split; done.
  - by left.
Qed.

(** Replacing one fiber and its places on the lists. *)
Record relisted s s' (id : nat) (g : Fiber Payload Ext) : Prop := {
  rl_fibers : fibers s' = <[id := g]> (fibers s);
  rl_nodup : NoDup (ready s');
  rl_ready : ∀ k, k ≠ id → occ (ready s') k = occ (ready s) k;
  rl_wait : ∀ k, k ≠ id → occ (wait_list s') k = occ (wait_list s) k;
  rl_timers : ∀ k, k ≠ id → k ∈ (timers s').*2 → k ∈ (timers s).*2;
  rl_poll : ∀ k h ws, k ≠ id → poll_blocked s' !! h = Some ws → k ∈ ws →
    ∃ ws0, poll_blocked s !! h = Some ws0 ∧ k ∈ ws0;
  rl_io : io_blocked s' = Z.of_nat (length (filter is_pending (fibers s')));
}.

Record placed s' (id : nat) (g : Fiber Payload Ext) : Prop := {
  pl_queued : queued g = true ↔ id ∈ ready s';
  pl_ready : id ∈ ready s' → runnable g;
  pl_wait : id ∈ wait_list s' → parked g;
  pl_single : park_sources g = None → (occ (ready s' ++ wait_list s') id ≤ 1)%nat;
  pl_multi : ∀ ps, park_sources g = Some ps →
    (id ∈ (timers s').*2 → timer ps = true) ∧
    ∀ h ws, poll_blocked s' !! h = Some ws → id ∈ ws → h ∈ handles ps;
  pl_pending : is_pending g → ∃ vs v fs, state g = Suspended (vs ++ [v]) fs;
  pl_alive : startable g → id ∈ ready s' ++ wait_list s' ∨ is_pending g;
  pl_running : state g = Running → park_sources g = None;
}.

Lemma relist_inv s s' id f g :
  sched_inv s → fibers s !! id = Some f → relisted s s' id g → placed s' id g → sched_inv s'.
Proof.
  intros Hinv Hf Hrl Hpl. pose proof (lookup_lt_Some _ _ _ Hf) as Hlt.
  assert (∀ k h, fibers s' !! k = Some h → k = id ∧ h = g ∨ k ≠ id ∧ fibers s !! k = Some h) as Hcase.
  { rewrite (rl_fibers _ _ _ _ Hrl). intros k h [(-> & <- & _)|[? ?]]%list_lookup_insert_Some; auto. }
  assert (∀ k, k ≠ id → fibers s' !! k = fibers s !! k) as Hkeep.
  { intros. rewrite (rl_fibers _ _ _ _ Hrl). by rewrite list_lookup_insert_ne. }
  assert (fibers s' !! id = Some g) as Hid.
  { rewrite (rl_fibers _ _ _ _ Hrl). by rewrite list_lookup_insert_eq. }
  assert (∀ k, k ≠ id → k ∈ ready s' ↔ k ∈ ready s) as Hready.
  { intros k Hk. by rewrite !occ_elem, (rl_ready _ _ _ _ Hrl k Hk). }
  assert (∀ k, k ≠ id → k ∈ wait_list s' ↔ k ∈ wait_list s) as Hwait.
  { intros k Hk. by rewrite !occ_elem, (rl_wait _ _ _ _ Hrl k Hk). }
  constructor; try apply Hrl.
  - intros k h [[-> ->]|[Hne Hk]]%Hcase; [apply Hpl|]. rewrite Hready by done. by apply (inv_queued _ _ Hinv).
  - intros k Hk. destruct (decide (k = id)) as [->|Hne]; [exists g; split; [done|by apply Hpl]|].
    rewrite Hkeep by done. apply (inv_ready _ _ Hinv). by apply Hready.
  - intros k Hk%elem_of_nil. done.
  - intros k Hk. destruct (decide (k = id)) as [->|Hne]; [exists g; split; [done|by apply Hpl]|].
    rewrite Hkeep by done. apply (inv_wait _ _ Hinv). by apply Hwait.
  - intros k h [[-> ->]|[Hne Hk]]%Hcase; [apply Hpl|]. cbn [app].
    rewrite occ_app, (rl_ready _ _ _ _ Hrl), (rl_wait _ _ _ _ Hrl), <-occ_app by done.
    by apply (inv_single _ _ Hinv k h).
  - intros k h ps [[-> ->]|[Hne Hk]]%Hcase Hps; [by apply Hpl|].
    destruct (inv_multi _ _ Hinv k h ps Hk Hps) as [H1 H2]. split.
    + intros Hin. apply H1. by apply (rl_timers _ _ _ _ Hrl).
    + intros h' ws Hh Hin. destruct (rl_poll _ _ _ _ Hrl k h' ws Hne Hh Hin) as (ws0 & ? & ?). eauto.
  - intros k h [[-> ->]|[Hne Hk]]%Hcase; [apply Hpl|by apply (inv_pending _ _ Hinv k)].
  - intros k h [[-> ->]|[Hne Hk]]%Hcase Hst; [by apply Hpl|].
    destruct (inv_alive _ _ Hinv k h Hk Hst) as [Hin|?]; [left|by right].
    cbn [app] in *. rewrite elem_of_app in *. rewrite Hready, Hwait by done. done.
  - intros k h [[-> ->]|[Hne Hk]]%Hcase; [apply Hpl|by apply (inv_running _ _ Hinv k)].
  - rewrite (rl_fibers _ _ _ _ Hrl), length_insert. apply Hinv.
Qed.

(** ** Parking *)

(** The running fiber parked on one wait list. *)
Lemma park_one_inv s s' id f vs fs :
  sched_inv s → fibers s !! id = Some f → state f = Running →
  fibers s' = <[id := set_state f (Suspended vs fs)]> (fibers s) →
  ready s' = ready s → io_blocked s' = io_blocked s →
  wait_list s' ≡ₚ id :: wait_list s →
  (∀ k, k ∈ (timers s').*2 → k ∈ (timers s).*2 ∨ k = id) →
  (∀ k h ws, poll_blocked s' !! h = Some ws → k ∈ ws →
    (∃ ws0, poll_blocked s !! h = Some ws0 ∧ k ∈ ws0) ∨ k = id) →
  sched_inv s'.
Proof.
  intros Hinv Hf Hst Hfs Hr Hio Hw Ht Hp.
  destruct (running_facts s id f Hinv Hf Hst) as (Hnr & Hpd & Hps).
  pose proof (suspend_inv s id f vs fs Hinv Hf Hst) as Hsus.
  assert (∀ g, <[id := set_state f (Suspended vs fs)]> (fibers s) !! id = Some g → park_sources g = None) as Hns.
  { intros g. rewrite list_lookup_insert_eq by (by apply lookup_lt_Some in Hf). by intros [= <-]. }
  refine (inv_gen_move _ [id] s' [] _ _ _ _ _ _ _ Hsus); cbn [fibers ready io_blocked set_fibers app]; try done.
  - intros k Hk. rewrite Hw in Hk. apply elem_of_cons in Hk as [->|Hk]; [right|by left].
    eexists. rewrite list_lookup_insert_eq by (by apply lookup_lt_Some in Hf). split; [done|]. by split.
  - intros k [? | ->]%Ht; [by left|]. right. exact Hns.
  - intros k h ws Hh Hin. destruct (Hp k h ws Hh Hin) as [? | ->]; [by left|]. right. exact Hns.
Qed.

(** The running fiber parked on several sources at once. *)
Lemma park_multi_inv s s' id f vs fs d hs :
  sched_inv s → fibers s !! id = Some f → state f = Running →
  fibers s' = <[id := set_sources (set_state f (Suspended vs fs)) (Some (mkSources (bool_decide (is_Some d)) hs))]>
    (fibers s) →
  ready s' = ready s → io_blocked s' = io_blocked s → blocked s' = blocked s ++ [id] →
  timers s' = timers s ++ (if d is Some t then [(t, id)] else []) →
  poll_blocked s' = foldl (λ p h, poll_push p h id) (poll_blocked s) hs →
  sched_inv s'.
Proof.
  intros Hinv Hf Hst Hfs Hr Hio Hb Ht Hp.
  destruct (running_facts s id f Hinv Hf Hst) as (Hnr & Hpd & Hps).
  destruct (not_listed s id f Hinv Hf Hnr) as [Hnready Hnwait].
  eapply (relist_inv s s' id f); [done|done| |].
  - constructor; [exact Hfs|rewrite Hr; apply Hinv|by rewrite Hr| | | |].
    + intros k Hk. unfold wait_list. rewrite Hb, Ht, Hp, fmap_app, !occ_app.
      rewrite (occ_perm _ _ k (poll_pushes id hs _)), occ_app, occ_cons, decide_False by done.
      rewrite (proj1 (occ_not_elem (replicate _ _) k)).
      2:{ intros Hin. by apply elem_of_replicate in Hin as [-> _]. }
      destruct d as [t|]; cbn [fmap list_fmap]; rewrite ?occ_cons; rewrite ?decide_False by done;
        unfold occ at 3; cbn; unfold occ; cbn; lia.
    + intros k Hk. rewrite Ht, fmap_app, elem_of_app. intros [?|Hin]; [done|].
      destruct d; cbn in Hin; set_solver.
    + intros k h ws Hk. rewrite Hp. intros Hh Hin.
      by destruct (poll_pushes_lookup id hs k _ h ws Hh Hin) as [[-> _]|?].
    + rewrite Hio, (inv_io _ _ Hinv), Hfs. f_equal. symmetry. by apply (length_filter_insert _ _ _ f).
  - constructor; cbn.
    + rewrite Hr. by apply (inv_queued _ _ Hinv).
    + by rewrite Hr.
    + by intros _.
    + done.
    + intros ps [= <-]. cbn. split.
      * rewrite Ht, fmap_app, elem_of_app. intros [Hin|Hin].
        -- destruct Hnwait. unfold wait_list. rewrite !elem_of_app. auto.
        -- destruct d; [done|]. by apply elem_of_nil in Hin.
      * intros h ws. rewrite Hp. intros Hh Hin.
        destruct (poll_pushes_lookup id hs id _ h ws Hh Hin) as [[_ ?]|(ws0 & ? & ?)]; [done|].
        destruct Hnwait. unfold wait_list. rewrite !elem_of_app, poll_waiters_elem.
        right; right. by exists h, ws0.
    + unfold is_pending. cbn. rewrite Hpd. by intros [? ?].
    + intros _. left. unfold wait_list. rewrite Hb. set_solver.
    + done.
Qed.

Lemma park_inv {Job} s id f vs fs (req : ParkRequest Job Payload Ext) :
  sched_inv s → fibers s !! id = Some f → state f = Running →
  (∀ job fin, req ≠ Await job fin) →
  ∃ s', park s id vs fs req = Ok s' ∧ sched_inv s' ∧ channels s' = channels s ∧
    state <$> fibers s' !! id = Some (Suspended vs fs) ∧ same_states_but s s' id.
Proof.
  intros Hinv Hf Hst Hreq. unfold park. rewrite (upd_fiber_ok s id f _ Hf). cbn [mbind res_bind].
  pose proof (lookup_lt_Some _ _ _ Hf) as Hlt.
  assert (fibers (set_fibers s (<[id:=set_state f (Suspended vs fs)]> (fibers s))) !! id =
    Some (set_state f (Suspended vs fs))) as Hid by (cbn; by rewrite list_lookup_insert_eq).
  assert (∀ s1, fibers s1 = <[id := set_state f (Suspended vs fs)]> (fibers s) →
    state <$> fibers s1 !! id = Some (Suspended vs fs) ∧ same_states_but s s1 id) as Hres.
  { intros s1 Hs1. unfold same_states_but. rewrite Hs1, list_lookup_insert_eq by done.
    split; [done|]. intros i Hi. by rewrite list_lookup_insert_ne. }
  destruct req as [| |d|job fin|h|d hs].
  - eexists. split; [done|]. split; [|split; [done|by apply Hres]].
    apply (park_one_inv s _ id f vs fs Hinv Hf Hst); try done; [|auto|eauto].
    unfold wait_list. cbn. solve_Permutation.
  - destruct (make_ready_inv _ id [] (suspend_inv s id f vs fs Hinv Hf Hst)) as (s' & -> & Hs' & Hc & Hst').
    exists s'. split_and!; [done|done|done|by rewrite Hst', Hid|].
    intros i Hi. rewrite Hst'. cbn. by rewrite list_lookup_insert_ne.
  - eexists. split; [done|]. split; [|split; [done|by apply Hres]].
    apply (park_one_inv s _ id f vs fs Hinv Hf Hst); try done; [| |eauto]; cbn.
    + unfold wait_list. cbn. rewrite fmap_app. cbn. solve_Permutation.
    + intros k. rewrite fmap_app. set_solver.
  - by destruct (Hreq job fin).
  - eexists. split; [done|]. split; [|split; [done|by apply Hres]].
    apply (park_one_inv s _ id f vs fs Hinv Hf Hst); try done; [|auto|]; cbn.
    + unfold wait_list. cbn. rewrite poll_push_waiters. solve_Permutation.
    + intros k h' ws Hh Hin. destruct (poll_pushes_lookup id [h] k _ h' ws Hh Hin) as [[-> _]|?]; auto.
  - rewrite (upd_fiber_ok _ id (set_state f (Suspended vs fs))) by (by destruct d).
    eexists. split_and!; [done| |by destruct d| |].
    + apply (park_multi_inv s _ id f vs fs d hs Hinv Hf Hst); try (by destruct d).
      * destruct d; cbn; by rewrite list_insert_insert_eq.
      * destruct d; cbn; by rewrite ?app_nil_r.
    + destruct d; cbn; rewrite list_lookup_insert_eq; rewrite ?length_insert; done.
    + intros i Hi. destruct d; cbn; by rewrite !list_lookup_insert_ne.
Qed.

(** ** Worker I/O *)

Lemma filter_length_le (P : Fiber Payload Ext → Prop) `{!∀ x, Decision (P x)} l :
  (length (filter P l) ≤ length l)%nat.
Proof. induction l as [|x l IH]; [done|]. rewrite filter_cons. case_decide; cbn; lia. Qed.

Lemma length_filter_insert_gone (P : Fiber Payload Ext → Prop) `{!∀ x, Decision (P x)} l i x y :
  l !! i = Some x → P x → ¬ P y → length (filter P l) = S (length (filter P (<[i := y]> l))).
Proof.
  intros Hl Hx Hy. rewrite <-(length_filter_insert_new P (<[i := y]> l) i y x); [|by rewrite list_lookup_insert_eq by (by apply lookup_lt_Some in Hl)|done|done].
  by rewrite list_insert_insert_eq, list_insert_id.
Qed.

Lemma park_io_inv s id f vs v fs fin :
  sched_inv s → fibers s !! id = Some f → state f = Running →
  ∃ s', park_io s id (vs ++ [v]) fs fin = Ok s' ∧ sched_inv s' ∧
    fibers s' !! id = Some (set_pending (set_state f (Suspended (vs ++ [v]) fs)) (Some fin)) ∧
    same_states_but s s' id.
Proof.
  intros Hinv Hf Hst. destruct (running_facts s id f Hinv Hf Hst) as (Hr & Hp & Hps).
  pose proof (lookup_lt_Some _ _ _ Hf) as Hlt.
  unfold park_io. rewrite (upd_fiber_ok s id f _ Hf). cbn [mbind res_bind].
  rewrite (upd_fiber_ok _ id (set_state f (Suspended (vs ++ [v]) fs))).
  2:{ cbn. by rewrite list_lookup_insert_eq. }
  cbn [mbind res_bind fibers set_fibers]. rewrite list_insert_insert_eq.
  assert (length (filter is_pending (<[id := set_pending (set_state f (Suspended (vs ++ [v]) fs)) (Some fin)]> (fibers s)))
    = S (length (filter is_pending (fibers s)))) as Hn.
  { apply (length_filter_insert_new _ _ _ f); [done|unfold is_pending; rewrite Hp; by intros [? ?]|by eexists]. }
  eexists. split_and!; [done| |cbn; by rewrite list_lookup_insert_eq|].
  2:{ intros i Hi. cbn. by rewrite list_lookup_insert_ne. }
  change (sched_inv (set_io_blocked (set_fibers s (<[id := set_pending (set_state f (Suspended (vs ++ [v]) fs)) (Some fin)]> (fibers s))) (as_u64 (io_blocked s + 1)))).
  eapply (update_inv s id f); try done.
  - rewrite Hn, (inv_io _ _ Hinv), as_unsigned_id; [lia|].
    pose proof (filter_length_le is_pending (fibers s)). pose proof (inv_size _ _ Hinv).
    pose proof (filter_length_le is_pending (<[id := set_pending (set_state f (Suspended (vs ++ [v]) fs)) (Some fin)]> (fibers s))) as Hl.
    rewrite length_insert, Hn in Hl. unfold in_unsigned. lia.
  - intros _. by eexists _, _, _.
  - by left.
  - intros _. right. by eexists.
Qed.

Lemma make_ready_listed s s' id e : inv_gen s e → make_ready s id = Ok s' → id ∈ ready s'.
Proof.
  intros Hinv. unfold make_ready. destruct (fibers s !! id) as [f|] eqn:Hf; [|done].
  cbn [or_panic mbind res_bind]. destruct (queued f) eqn:Hq.
  - intros [= <-]. by apply (inv_queued _ _ Hinv id f).
  - rewrite (upd_fiber_ok s id f _ Hf). cbn. intros [= <-]. cbn. set_solver.
Qed.

(** A worker's payload arrives: the placeholder is replaced and the fiber readied. *)
Lemma deliver_inv s id f fin :
  sched_inv s → fibers s !! id = Some f → pending f = Some fin →
  ∃ s1, take_pending s id = Ok (s1, fin) ∧
  ∀ v, ∃ s2 below fs, deliver s1 id v = Ok s2 ∧ sched_inv s2 ∧
    state <$> fibers s2 !! id = Some (Suspended (below ++ [v]) fs) ∧ id ∈ ready s2 ∧
    same_states_but s s2 id.
Proof.
  intros Hinv Hf Hp. pose proof (lookup_lt_Some _ _ _ Hf) as Hlt.
  unfold take_pending. rewrite Hf. cbn [or_panic mbind res_bind]. rewrite Hp. cbn [or_panic mbind res_bind].
  rewrite (upd_fiber_ok s id f _ Hf). cbn [mbind res_bind]. eexists. split; [done|]. intros v.
  destruct (inv_pending _ _ Hinv id f Hf) as (below & v0 & fs & Hst); [by eexists|].
  unfold deliver. cbn [fibers set_fibers]. rewrite list_lookup_insert_eq by done.
  cbn [or_panic mbind res_bind state set_pending]. rewrite Hst, vec_pop_snoc. cbn [or_panic mbind res_bind].
  rewrite (upd_fiber_ok _ id (set_pending f None)) by (cbn; by rewrite list_lookup_insert_eq).
  cbn [mbind res_bind fibers set_fibers]. rewrite list_insert_insert_eq.
  set (g := set_state (set_pending f None) (Suspended (push below v) fs)).
  assert (length (filter is_pending (fibers s)) = S (length (filter is_pending (<[id := g]> (fibers s))))) as Hn.
  { apply (length_filter_insert_gone _ _ _ f); [done|by eexists|by intros [? ?]]. }
  set (s1 := set_io_blocked (set_fibers s (<[id := g]> (fibers s))) (as_u64 (io_blocked s - 1))).
  assert (inv_gen s1 [id]) as Hinv1.
  { eapply (update_inv s id f); try done.
    - intros [? _]. congruence.
    - rewrite (inv_io _ _ Hinv), Hn, as_unsigned_id; [lia|].
      pose proof (filter_length_le is_pending (fibers s)). pose proof (inv_size _ _ Hinv).
      unfold in_unsigned. lia.
    - by intros [? ?].
    - right. by split.
    - by left. }
  destruct (make_ready_inv s1 id [] Hinv1) as (s2 & Hs2 & Hinv2 & _ & Hst2).
  exists s2, below, fs. split_and!; [exact Hs2|done| | |].
  - rewrite Hst2. cbn. by rewrite list_lookup_insert_eq.
  - by apply (make_ready_listed s1 s2 id [id]).
  - intros i Hi. rewrite Hst2. cbn. by rewrite list_lookup_insert_ne.
Qed.

(** ** Dequeuing *)

Lemma timers_filter_occ (l : list (Instant * nat)) id k :
  k ≠ id → occ (filter (λ t, t.2 ≠ id) l).*2 k = occ l.*2 k.
Proof.
  intros Hk. induction l as [|[t x] l IH]; [done|]. rewrite filter_cons. cbn [snd fmap list_fmap].
  case_decide; cbn [snd fmap list_fmap]; rewrite !occ_cons; [by rewrite IH|].
  rewrite decide_False by naive_solver. done.
Qed.

(** What [unlist] leaves: the fiber on no wait list, the others where they were. *)
Lemma unlist_ok s id f :
  fibers s !! id = Some f →
  (∀ ps, park_sources f = Some ps → (id ∈ (timers s).*2 → timer ps = true) ∧
    ∀ h ws, poll_blocked s !! h = Some ws → id ∈ ws → h ∈ handles ps) →
  (park_sources f = None → id ∉ wait_list s) →
  ∃ s', unlist s id = Ok s' ∧ fibers s' = <[id := set_sources f None]> (fibers s) ∧
    ready s' = ready s ∧ io_blocked s' = io_blocked s ∧ channels s' = channels s ∧
    id ∉ wait_list s' ∧
    (∀ k, k ≠ id → occ (wait_list s') k = occ (wait_list s) k) ∧
    (∀ k, k ∈ (timers s').*2 → k ∈ (timers s).*2) ∧
    (∀ k h ws, poll_blocked s' !! h = Some ws → k ∈ ws → ∃ ws0, poll_blocked s !! h = Some ws0 ∧ k ∈ ws0).
Proof.
  intros Hf Hm Hn. unfold unlist. rewrite Hf. cbn [or_panic mbind res_bind].
  destruct (park_sources f) as [ps|] eqn:Hps.
  2:{ exists s. split_and!; try done; [|by apply Hn|eauto].
      rewrite list_insert_id; [done|]. rewrite Hf. f_equal. destruct f; cbn in *; by subst. }
  rewrite (upd_fiber_ok s id f _ Hf). cbn [mbind res_bind].
  destruct (Hm ps eq_refl) as [Ht Hh]. clear Hm Hn.
  assert (∀ k h ws, foldl (poll_drop id) (poll_blocked s) (handles ps) !! h = Some ws → k ∈ ws →
    ∃ ws0, poll_blocked s !! h = Some ws0 ∧ k ∈ ws0 ∧ k ≠ id) as Hpoll.
  { intros k h ws Hl Hin. destruct (poll_drops_lookup _ _ _ _ _ Hl) as (ws0 & H0 & Hsub & Hni).
    exists ws0. split_and!; [done|auto|]. intros ->. apply Hni; [|done]. eauto. }
  eexists. split; [done|]. split_and!; try by destruct (timer ps).
  - unfold wait_list. rewrite !elem_of_app, poll_waiters_elem. intros [Hin|[Hin|(h & ws & Hl & Hin)]].
    + destruct (timer ps); cbn in Hin; apply list_elem_of_filter in Hin; naive_solver.
    + destruct (timer ps); cbn in Hin; [|by discriminate Ht].
      apply list_elem_of_fmap in Hin as ([t x] & -> & Hin%list_elem_of_filter). naive_solver.
    + destruct (timer ps); cbn in Hl; destruct (Hpoll _ _ _ Hl Hin) as (? & _ & _ & ?); done.
  - intros k Hk. unfold wait_list. rewrite !occ_app. f_equal; [|f_equal].
    + trans (occ (filter (λ f, f ≠ id) (blocked s)) k); [by destruct (timer ps)|].
      by rewrite occ_filter_ne, decide_False.
    + destruct (timer ps); [|done]. by apply timers_filter_occ.
    + destruct (timer ps); cbn; by apply poll_drops_occ.
  - intros k. destruct (timer ps); cbn; [|done].
    intros ([t x] & -> & Hin%list_elem_of_filter)%list_elem_of_fmap. apply list_elem_of_fmap. exists (t, x). naive_solver.
  - intros k h ws Hl Hin. destruct (timer ps); cbn in Hl; destruct (Hpoll _ _ _ Hl Hin) as (ws0 & ? & ? & _); eauto.
Qed.

Lemma dequeue_inv s id rest :
  sched_inv s → ready s = id :: rest →
  ∃ s' f, fibers s !! id = Some f ∧ runnable f ∧ dequeue s = Ok (Some (s', id, state f)) ∧
    sched_inv s' ∧ ready s' = rest ∧ channels s' = channels s ∧
    id ∉ ready s' ∧ id ∉ wait_list s' ∧
    state <$> fibers s' !! id = Some Running ∧
    (∀ k, k ≠ id → fibers s' !! k = fibers s !! k).
Proof.
  intros Hinv Hr. destruct (inv_ready _ _ Hinv id) as (f & Hf & Hrun); [rewrite Hr; set_solver|].
  pose proof (lookup_lt_Some _ _ _ Hf) as Hlt.
  pose proof (inv_nodup _ _ Hinv) as Hnd. rewrite Hr in Hnd. apply NoDup_cons in Hnd as [Hnr Hnd].
  unfold dequeue. rewrite Hr. rewrite (upd_fiber_ok _ id f) by done.
  cbn [mbind res_bind fibers set_fibers set_ready].
  destruct (unlist_ok (set_fibers (set_ready s rest) (<[id:=set_queued f false]> (fibers s))) id (set_queued f false))
    as (s1 & -> & Hfs & Hrd & Hio & Hch & Hnw & Hocc & Ht & Hp).
  { cbn. by rewrite list_lookup_insert_eq. }
  { intros ps Hps. apply (inv_multi _ _ Hinv id f ps Hf Hps). }
  { intros Hps. pose proof (inv_single _ _ Hinv id f Hf Hps) as Ho. cbn [app] in Ho.
    rewrite Hr, occ_app, occ_cons, decide_True in Ho by done.
    change (id ∉ wait_list s). apply occ_not_elem. lia. }
  cbn [fibers set_fibers] in Hfs. rewrite list_insert_insert_eq in Hfs.
  cbn [mbind res_bind]. rewrite Hfs, list_lookup_insert_eq by done. cbn [or_panic mbind res_bind].
  rewrite (upd_fiber_ok _ id (set_sources (set_queued f false) None)) by (by rewrite Hfs, list_lookup_insert_eq).
  cbn [mbind res_bind]. rewrite Hfs, list_insert_insert_eq.
  eexists _, f. split_and!; [done|done|done| |done|done| |done| |].
  - eapply (relist_inv s _ id f); [done|done| |].
    + constructor; cbn [fibers set_fibers ready]; [done|by rewrite Hrd| | | | |].
      * intros k Hk. rewrite Hrd, Hr. cbn [ready set_fibers set_ready].
        rewrite occ_cons, decide_False by done. done.
      * intros k Hk. exact (Hocc k Hk).
      * intros k Hk. apply Ht.
      * intros k h ws Hk. apply Hp.
      * change (io_blocked s1 = Z.of_nat (length (filter is_pending (<[id := set_state (set_sources (set_queued f false) None) Running]> (fibers s))))).
        rewrite Hio. cbn. rewrite (inv_io _ _ Hinv). f_equal. symmetry. by apply (length_filter_insert _ _ _ f).
    + constructor; cbn [fibers set_fibers ready queued park_sources state set_state set_sources]; try done.
      * rewrite Hrd. split; [done|]. intros Hin. by destruct Hnr.
      * rewrite Hrd. intros Hin. by destruct Hnr.
      * intros _. rewrite occ_app, Hrd. cbn [ready set_fibers set_ready].
        rewrite (proj1 (occ_not_elem rest id) Hnr).
        change (0 + occ (wait_list s1) id ≤ 1)%nat. rewrite (proj1 (occ_not_elem _ id) Hnw). lia.
      * unfold is_pending. cbn. destruct Hrun as [-> _]. by intros [? ?].
  - cbn. rewrite Hrd. done.
  - cbn. by rewrite list_lookup_insert_eq.
  - intros k Hk. cbn. by rewrite list_lookup_insert_ne.
Qed.
End inv.
