(* ===== verification/SchedulerSpec.v ===== *)
(** * The scheduler as a transition system

    [sched_step] is one call on the scheduler in the state the driver makes it in:
    the operations of the running fiber's natives, its completion or park, and,
    while no fiber runs, the wakes of the idle loop and the dequeue.  The theorems
    hold of every state reachable from the one [Vm::run] installs: the invariant of
    SchedulerProofs.v, that at most the current fiber is running, that no operation
    panics, that no fiber is lost and that a deadlock is reported exactly when no
    fiber can be woken. *)

From Stdlib Require Import ZArith Lia.
From stdpp Require Import base numbers list strings gmap relations.
From S2P Require Import Prelude Bytes Float64 Instr ModuleTable Value Heap Trap.
From S2P Require Import Scheduler SchedulerProofs.

Open Scope Z_scope.

Section spec.
Context {Payload Ext : Type}.
Implicit Types s : Scheduler Payload Ext.

(** The scheduler and the fiber the driver runs, if any. *)
Definition Config : Type := Scheduler Payload Ext * option nat.

Inductive sched_step : Config → Config → Prop :=
  | step_spawn s c closure s' id :
      Z.of_nat (length (fibers s)) < 2 ^ 64 - 1 →
      spawn s closure = Ok (s', id) → sched_step (s, Some c) (s', Some c)
  | step_channel_new s c cap s' id :
      channel_new s cap = (s', id) → sched_step (s, Some c) (s', Some c)
  | step_send s c ch v s' o :
      chan_send s ch v = Ok (s', o) → sched_step (s, Some c) (s', Some c)
  | step_receive s c ch s' o :
      chan_receive s ch = Ok (s', o) → sched_step (s, Some c) (s', Some c)
  | step_close s c ch s' :
      chan_close s ch = Ok s' → sched_step (s, Some c) (s', Some c)
  | step_wake_poll s cur h s' :
      wake_poll s h = Ok s' → sched_step (s, cur) (s', cur)
  | step_complete s c v s' :
      complete s c v = Ok s' → sched_step (s, Some c) (s', None)
  | step_park {Job} s c vs fs (req : ParkRequest Job Payload Ext) s' :
      (∀ job fin, req ≠ Await job fin) → park s c vs fs req = Ok s' → sched_step (s, Some c) (s', None)
  | step_park_io s c vs v fs fin s' :
      park_io s c (vs ++ [v]) fs fin = Ok s' → sched_step (s, Some c) (s', None)
  | step_timers s now s' b :
      wake_due_timers s now = Ok (s', b) → sched_step (s, None) (s', None)
  | step_deliver s id s1 fin v s' :
      take_pending s id = Ok (s1, fin) → deliver s1 id v = Ok s' → sched_step (s, None) (s', None)
  | step_dequeue s s' id st :
      dequeue s = Ok (Some (s', id, st)) → sched_step (s, None) (s', Some id).

Definition reachable_config (c : Config) : Prop :=
  rtc sched_step (Scheduler_main, Some MAIN_FIBER) c.

(** The running fiber is the driver's, and the main fiber exists. *)
Definition running_is s (cur : option nat) : Prop :=
  (∀ id, state <$> fibers s !! id = Some Running ↔ cur = Some id) ∧
  is_Some (state <$> fibers s !! MAIN_FIBER).

Definition config_ok (c : Config) : Prop := sched_inv c.1 ∧ running_is c.1 c.2.

Lemma main_ok : config_ok (Scheduler_main, Some MAIN_FIBER).
Proof.
  split; cbn.
  - constructor; cbn; try done.
    + apply NoDup_nil_2.
    + intros [|id] f; cbn; [|done]. intros [= <-]. cbn. set_solver.
    + set_solver.
    + set_solver.
    + set_solver.
    + intros id f _ _. change (occ [] id ≤ 1)%nat. unfold occ. cbn. lia.
    + intros [|id] f ps; cbn; [|done]. by intros [= <-].
    + intros [|id] f; cbn; [|done]. intros [= <-]. by intros [? ?].
    + intros [|id] f; cbn; [|done]. by intros [= <-].
    + intros [|id] f; cbn; [|done]. by intros [= <-].
  - split; [|by eexists]. intros [|id]; cbn; [done|]. split; [done|by intros [=]].
Qed.

Lemma running_same s s' cur : same_states s s' → running_is s cur → running_is s' cur.
Proof. intros Hs [Hr Hm]. split; [|by rewrite Hs]. intros id. rewrite Hs. apply Hr. Qed.

(** A step that changes one fiber's state only. *)
Lemma running_but s s' id cur cur' st :
  same_states_but s s' id → state <$> fibers s' !! id = Some st → running_is s cur →
  (st = Running ↔ cur' = Some id) → (∀ k, k ≠ id → cur' = Some k ↔ cur = Some k) →
  running_is s' cur'.
Proof.
  intros Hs Hid [Hr Hm] Hst Hk. split; [intros k|].
  2:{ destruct (decide (MAIN_FIBER = id)) as [->|Hne]; [by rewrite Hid|by rewrite Hs]. }
  destruct (decide (k = id)) as [->|Hne].
  - rewrite Hid, <-Hst. naive_solver.
  - rewrite Hs by done. rewrite Hk by done. apply Hr.
Qed.

Lemma running_fiber s c : running_is s (Some c) → ∃ f, fibers s !! c = Some f ∧ state f = Running.
Proof.
  intros [Hr _]. destruct (proj1 (fmap_Some _ _ _) (proj2 (Hr c) eq_refl)) as (f & ? & ?). eauto.
Qed.

Lemma chan_bound {A} s id (k : Chan → res Trap A) x :
  (ch ← or_panic (channels s !! id); k ch) = Ok x → (id < length (channels s))%nat.
Proof. intros (ch & Hch%or_panic_ok & _)%bind_ok. by apply lookup_lt_Some in Hch. Qed.

(** The fiber an operation leaves unfinished is not running. *)
Lemma leave_running s s' c st :
  same_states_but s s' c → state <$> fibers s' !! c = Some st → st ≠ Running →
  running_is s (Some c) → running_is s' None.
Proof.
  intros Hs Hid Hst Hr. apply (running_but s s' c (Some c) None st Hs Hid Hr); [done|].
  intros k Hk. split; [done|]. intros [=]. congruence.
Qed.

Lemma result_state s id v : fiber_result s id = Some v → state <$> fibers s !! id = Some (Done v).
Proof.
  unfold fiber_result. destruct (state <$> fibers s !! id) as [[| | |w]|]; try done. by intros [= ->].
Qed.

Lemma take_pending_inv s id s1 fin :
  take_pending s id = Ok (s1, fin) → ∃ f, fibers s !! id = Some f ∧ pending f = Some fin.
Proof.
  unfold take_pending. intros (f & Hf%or_panic_ok & H)%bind_ok.
  apply bind_ok in H as (fin' & Hp%or_panic_ok & H). apply bind_ok in H as (s2 & _ & [= _ ->]). eauto.
Qed.

Lemma sched_step_ok c c' : sched_step c c' → config_ok c → config_ok c'.
Proof.
  intros Hstep [Hinv Hr]. destruct Hstep as [s c v s' id Hsz H|s c cap s' id H|s c ch v s' o H|s c ch s' o H|s c ch s' H|s cur h s' H|s c v s' H|Job s c vs fs req s' Hreq H|s c vs v fs fin s' H|s now s' b H|s id s1 fin v s' H1 H2|s s' id st H];
    unfold config_ok; cbn [fst snd] in *.
  - destruct (spawn_inv s v Hinv Hsz) as (s2 & H2 & Hinv2 & Hst & Hbut).
    rewrite H2 in H. injection H as -> <-. split; [done|].
    refine (running_but s s' _ (Some c) _ _ Hbut Hst Hr _ _); [|done].
    split; [done|]. intros [= ->]. destruct (running_fiber _ _ Hr) as (f & Hf%lookup_lt_Some & _). lia.
  - injection H as <- <-. split; [by apply set_channels_inv|done].
  - destruct (chan_send_inv s ch v Hinv (chan_bound s ch _ _ H)) as (s2 & o2 & H2 & Hinv2 & Hst).
    rewrite H2 in H. injection H as -> ->. eauto using running_same.
  - destruct (chan_receive_inv s ch Hinv (chan_bound s ch _ _ H)) as (s2 & o2 & H2 & Hinv2 & Hst).
    rewrite H2 in H. injection H as -> ->. eauto using running_same.
  - destruct (chan_close_inv s ch Hinv (chan_bound s ch _ _ H)) as (s2 & H2 & Hinv2 & Hst).
    rewrite H2 in H. injection H as ->. eauto using running_same.
  - destruct (wake_poll_inv s h Hinv) as (s2 & H2 & Hinv2 & _ & Hst).
    rewrite H2 in H. injection H as ->. eauto using running_same.
  - destruct (running_fiber s c Hr) as (f & Hf & Hrun).
    destruct (complete_inv s c f v Hinv Hf Hrun) as (s2 & H2 & Hinv2 & Hres%result_state & Hbut).
    rewrite H2 in H. injection H as ->. eauto using leave_running.
  - destruct (running_fiber s c Hr) as (f & Hf & Hrun).
    destruct (park_inv s c f vs fs req Hinv Hf Hrun Hreq) as (s2 & H2 & Hinv2 & _ & Hst & Hbut).
    rewrite H2 in H. injection H as ->. eauto using leave_running.
  - destruct (running_fiber s c Hr) as (f & Hf & Hrun).
    destruct (park_io_inv s c f vs v fs fin Hinv Hf Hrun) as (s2 & H2 & Hinv2 & Hst & Hbut).
    rewrite H2 in H. injection H as ->. split; [done|].
    by refine (leave_running s s' c _ Hbut _ _ Hr); [rewrite Hst|].
  - destruct (wake_due_timers_inv s now Hinv) as (s2 & b2 & H2 & Hinv2 & _ & Hst).
    rewrite H2 in H. injection H as -> ->. eauto using running_same.
  - destruct (take_pending_inv s id s1 fin H1) as (f & Hf & Hp).
    destruct (deliver_inv s id f fin Hinv Hf Hp) as (s1' & H1' & Hd).
    rewrite H1' in H1. injection H1 as ->. destruct (Hd v) as (s2 & below & fs & Hd2 & Hinv2 & Hst & _ & Hbut).
    rewrite Hd2 in H2. injection H2 as ->. split; [done|].
    apply (running_but s s' id None None _ Hbut Hst Hr); [done|]. intros k _. done.
  - destruct (ready s) as [|i rest] eqn:Hrd; [unfold dequeue in H; by rewrite Hrd in H|].
    destruct (dequeue_inv s i rest Hinv Hrd) as (s2 & f & Hf & Hrun & H2 & Hinv2 & _ & _ & _ & _ & Hst & Hbut).
    rewrite H2 in H. injection H as -> -> <-. split; [done|].
    refine (running_but s s' id None _ _ _ Hst Hr _ _); [|done|].
    + intros k Hk. by rewrite Hbut.
    + intros k Hk. naive_solver.
Qed.

Lemma sched_steps_ok c c' : rtc sched_step c c' → config_ok c → config_ok c'.
Proof. induction 1; eauto using sched_step_ok. Qed.

Lemma reachable_ok c : reachable_config c → config_ok c.
Proof. intros Hr. exact (sched_steps_ok _ _ Hr main_ok). Qed.

(** An unfinished fiber, as the invariant places it. *)
Lemma unfinished_placed s cur id f :
  config_ok (s, cur) → fibers s !! id = Some f → fiber_result s id = None →
  cur = Some id ∨ id ∈ ready s ∨ id ∈ wait_list s ∨ is_pending f.
Proof.
  intros [Hinv [Hr _]] Hf Hres. cbn [fst snd] in *. unfold fiber_result in Hres.
  pose proof (Hr id) as Hrid. rewrite Hf in Hres, Hrid. cbn in Hres, Hrid.
  destruct (state f) as [c|vs fs| |v] eqn:Hst; try done; [| |left; by apply Hrid];
    right; destruct (inv_alive _ _ Hinv id f Hf) as [Hin|?]; rewrite ?Hst; auto;
    cbn [app] in Hin; apply elem_of_app in Hin; tauto.
Qed.

Lemma no_pending_fibers s id f :
  sched_inv s → io_blocked s = 0 → fibers s !! id = Some f → ¬ is_pending f.
Proof.
  intros Hinv Hio Hf Hp. rewrite (inv_io _ _ Hinv) in Hio.
  assert (f ∈ filter is_pending (fibers s)) as Hin.
  { apply list_elem_of_filter. split; [done|]. by eapply list_elem_of_lookup_2. }
  destruct (filter is_pending (fibers s)); [by apply elem_of_nil in Hin|done].
Qed.

(** ** The ready queue only grows at its end *)

Definition appends s s' : Prop := ∃ woken, ready s' = ready s ++ woken.

Lemma appends_refl s s' : ready s' = ready s → appends s s'.
Proof. intros H. exists []. by rewrite app_nil_r. Qed.

Lemma appends_trans s1 s2 s3 : appends s1 s2 → appends s2 s3 → appends s1 s3.
Proof. intros [w H] [w' H']. exists (w ++ w'). by rewrite H', H, app_assoc. Qed.

Lemma upd_appends s id f s' : upd_fiber s id f = Ok s' → appends s s'.
Proof. unfold upd_fiber. intros (x & _ & [= <-])%bind_ok. by apply appends_refl. Qed.

Lemma make_ready_appends s id s' : make_ready s id = Ok s' → appends s s'.
Proof.
  unfold make_ready. intros (f & _ & H)%bind_ok. destruct (queued f); [injection H as <-; by apply appends_refl|].
  apply bind_ok in H as (s1 & Hu & [= <-]). apply upd_appends in Hu as [w Hu]. exists (w ++ [id]). cbn. by rewrite Hu, app_assoc.
Qed.

Lemma make_ready_all_appends ids : ∀ s s', make_ready_all s ids = Ok s' → appends s s'.
Proof.
  induction ids as [|id ids IH]; intros s s'; cbn; [intros [= <-]; by apply appends_refl|].
  intros (s1 & H1%make_ready_appends & H2%IH)%bind_ok. by eapply appends_trans.
Qed.

Lemma wake_all_appends s s0 s' : wake_all s0 = Ok s' → ready s0 = ready s → appends s s'.
Proof. intros [w H]%make_ready_all_appends. intros Hs. exists w. rewrite H. cbn. by rewrite Hs. Qed.

Lemma park_appends {Job} s id vs fs (req : ParkRequest Job Payload Ext) s' : park s id vs fs req = Ok s' → appends s s'.
Proof.
  unfold park. intros (s1 & H1%upd_appends & H)%bind_ok. eapply appends_trans; [exact H1|]. clear H1. revert H.
  destruct req as [| | | |job fin|d hs]; try (intros [= <-]; by apply appends_refl); [apply make_ready_appends|].
  intros [w H]%upd_appends. exists w. rewrite H. by destruct d.
Qed.

(** The fiber that a step begins to run. *)
Definition ran (c c' : Config) : list nat := match c.2, c'.2 with None, Some id => [id] | _, _ => [] end.

Lemma unlist_ready s id s' : unlist s id = Ok s' → ready s' = ready s.
Proof.
  unfold unlist. intros (f & _ & H)%bind_ok. destruct (park_sources f) as [src|]; [|by injection H as <-].
  apply bind_ok in H as (s1 & Hu & [= <-]). unfold upd_fiber in Hu. apply bind_ok in Hu as (x & _ & [= <-]).
  by destruct (timer src).
Qed.

Lemma dequeue_front s s' id st : dequeue s = Ok (Some (s', id, st)) → ready s = id :: ready s'.
Proof.
  unfold dequeue. destruct (ready s) as [|i rest]; [done|].
  intros (s1 & H1 & (s2 & H2%unlist_ready & (f & _ & (s3 & H3 & [= <- <- _])%bind_ok)%bind_ok)%bind_ok)%bind_ok.
  unfold upd_fiber in *. apply bind_ok in H1 as (x & _ & [= <-]). apply bind_ok in H3 as (y & _ & [= <-]).
  cbn in *. by rewrite H2.
Qed.

Lemma step_appends c c' : sched_step c c' → ∃ woken, ran c c' ++ ready c'.1 = ready c.1 ++ woken.
Proof.
  intros Hstep. destruct Hstep as [s c v s' id Hsz H|s c cap s' id H|s c ch v s' o H|s c ch s' o H|s c ch s' H|s cur h s' H|s c v s' H|Job s c vs fs req s' Hreq H|s c vs v fs fin s' H|s now s' b H|s id s1 fin v s' H1 H2|s s' id st H];
    unfold ran; cbn [fst snd].
  - unfold spawn in H. apply bind_ok in H as (s1 & H1%make_ready_appends & [= <- _]). exact H1.
  - injection H as <- _. by apply appends_refl.
  - unfold chan_send in H. apply bind_ok in H as (k & _ & H). destruct (closed k); [injection H as <- _; by apply appends_refl|].
    destruct (Nat.ltb _ _); [|injection H as <- _; by apply appends_refl].
    apply bind_ok in H as (s1 & H1 & [= <- _]). by apply (wake_all_appends _ _ _ H1).
  - unfold chan_receive in H. apply bind_ok in H as (k & _ & H). destruct (buffer k); [injection H as <- _; by apply appends_refl|].
    apply bind_ok in H as (s1 & H1 & [= <- _]). by apply (wake_all_appends _ _ _ H1).
  - unfold chan_close in H. apply bind_ok in H as (k & _ & H). by apply (wake_all_appends _ _ _ H).
  - unfold wake_poll in H. destruct cur, (poll_blocked s !! h); try (injection H as <-; by apply appends_refl);
      apply make_ready_all_appends in H as [w H]; by exists w.
  - unfold complete in H. apply bind_ok in H as (s1 & H1%upd_appends & H2). eapply appends_trans; [exact H1|].
    by apply (wake_all_appends _ _ _ H2).
  - by eapply park_appends.
  - unfold park_io in H. apply bind_ok in H as (s1 & H1%upd_appends & H). apply bind_ok in H as (s2 & H2%upd_appends & [= <-]).
    by eapply appends_trans; [exact H1|].
  - unfold wake_due_timers in H. apply bind_ok in H as (s1 & H1%make_ready_all_appends & [= <- _]). exact H1.
  - unfold take_pending in H1. apply bind_ok in H1 as (f & _ & H1). apply bind_ok in H1 as (fin' & _ & H1).
    apply bind_ok in H1 as (s2 & H3%upd_appends & [= <- _]). eapply appends_trans; [exact H3|].
    unfold deliver in H2. apply bind_ok in H2 as (g & _ & H2). destruct (state g); try done.
    apply bind_ok in H2 as ([below x] & _ & H2). apply bind_ok in H2 as (s3 & H4%upd_appends & H2).
    eapply appends_trans; [exact H4|]. apply make_ready_appends in H2 as [w H2]. by exists w.
  - exists []. rewrite app_nil_r. by rewrite (dequeue_front _ _ _ _ H).
Qed.

(** Steps of the scheduler, with the fibers run on the way. *)
Inductive runs : Config → list nat → Config → Prop :=
  | runs_none c : runs c [] c
  | runs_step c c1 c' ids : sched_step c c1 → runs c1 ids c' → runs c (ran c c1 ++ ids) c'.

Lemma runs_append c ids c' : runs c ids c' → ∃ woken, ids ++ ready c'.1 = ready c.1 ++ woken.
Proof.
  induction 1 as [c|c c1 c' ids Hs _ [w IH]]; [exists []; by rewrite app_nil_r|].
  destruct (step_appends c c1 Hs) as [w1 H1]. exists (w1 ++ w). by rewrite <-app_assoc, IH, !app_assoc, H1.
Qed.

Lemma runs_reachable c ids c' : runs c ids c' → reachable_config c → reachable_config c'.
Proof. induction 1; [done|]. intros Hr. apply IHruns. eapply rtc_r; [exact Hr|done]. Qed.

(** ** The properties *)

(** C7: In every state the scheduler can reach, the invariant holds (the ready queue
    holds each runnable fiber once, wait lists hold only parked fibers, the count of
    fibers awaiting a worker is exact, no suspended fiber is off every list) and the
    only running fiber is the one the driver runs. *)
Theorem scheduler_invariant s cur :
  reachable_config (s, cur) →
  sched_inv s ∧ ∀ id, state <$> fibers s !! id = Some Running ↔ cur = Some id.
Proof. intros Hr%reachable_ok. split; apply Hr. Qed.

(** A dequeue never panics and never schedules a running or finished fiber: on an
    empty queue it reports none; otherwise it takes the queue's front, a fiber not yet
    started or suspended, makes it the running one, and leaves it on no queue and no
    wait list, so that no stale registration can wake what it parks on next. *)
Theorem dequeue_runnable s :
  reachable_config (s, None) →
  match ready s with
  | [] => dequeue s = Ok None
  | id :: rest => ∃ s' st, dequeue s = Ok (Some (s', id, st)) ∧
      (match st with NotStarted _ | Suspended _ _ => True | _ => False end) ∧
      reachable_config (s', Some id) ∧ ready s' = rest ∧
      state <$> fibers s' !! id = Some Running ∧ id ∉ ready s' ∧ id ∉ wait_list s'
  end.
Proof.
  intros Hr. destruct (reachable_ok _ Hr) as [Hinv _]. cbn [fst] in Hinv.
  destruct (ready s) as [|id rest] eqn:Hrd; [unfold dequeue; by rewrite Hrd|].
  destruct (dequeue_inv s id rest Hinv Hrd) as (s' & f & Hf & Hrun & H & _ & Hrest & _ & Hn & Hw & Hst & _).
  exists s', (state f). split_and!; try done; [apply Hrun|].
  eapply rtc_r; [exact Hr|]. by eapply step_dequeue.
Qed.

(** C8: The ready queue is fair.  From any reachable state, however the scheduler goes on,
    the fibers are run in the order of the queue and then in the order they are woken:
    those run so far, followed by the queue, are the queue of before followed by those
    woken since.  So a fiber at position [k] of the queue is the [k]-th to run (counting
    from 0), and not sooner, whatever the others do and whoever is woken in between; and
    when no fiber runs and the queue is not empty, its front can be run. *)
Theorem ready_queue_fifo c ids c' :
  reachable_config c → runs c ids c' →
  (∃ woken, ids ++ ready c'.1 = ready c.1 ++ woken) ∧
  (∀ k id, ready c.1 !! k = Some id → (k < length ids)%nat → ids !! k = Some id ∧ id ∉ take k ids) ∧
  (∀ id rest, c'.2 = None → ready c'.1 = id :: rest → ∃ s, sched_step c' (s, Some id) ∧ ready s = rest).
Proof.
  intros Hr Hruns. pose proof (runs_append c ids c' Hruns) as [woken Hw].
  destruct (reachable_ok _ Hr) as [Hinv _]. split_and!; [by exists woken| |].
  - intros k id Hk Hlen. assert (k < length (ready c.1))%nat as Hkr by by eapply lookup_lt_Some.
    assert (take (S k) ids = take (S k) (ready c.1)) as Ht.
    { rewrite <-(take_app_le ids (ready c'.1)), Hw, take_app_le by lia. done. }
    assert (ids !! k = Some id) as Hi.
    { rewrite <-(lookup_take_lt ids (S k)), Ht, lookup_take_lt by lia. done. }
    split; [done|]. assert (take k ids = take k (ready c.1)) as ->.
    { apply (f_equal (take k)) in Ht. by rewrite !take_take, !Nat.min_l in Ht by lia. }
    intros [j Hj]%list_elem_of_lookup. assert (j < k)%nat as Hjk.
    { apply lookup_lt_Some in Hj. rewrite length_take in Hj. lia. }
    rewrite lookup_take_lt in Hj by done. pose proof (NoDup_lookup _ _ _ _ (inv_nodup _ _ Hinv) Hj Hk). lia.
  - intros id rest Hc Hrd. destruct c' as [s cur]. cbn [fst snd] in *. subst cur.
    destruct (reachable_ok _ (runs_reachable _ _ _ Hruns Hr)) as [Hinv' _].
    destruct (dequeue_inv s id rest Hinv' Hrd) as (s' & f & _ & _ & H & _ & Hrest & _).
    exists s'. split; [by eapply step_dequeue|done].
Qed.

(** C13: The driver's deadlock verdict is exact.  With nothing ready, no timer, no
    worker job and no socket waiter, and the main fiber unfinished, some fiber is
    blocked (so the driver reports the deadlock and never its spawned-only tail), and
    every unfinished fiber is blocked on another fiber. *)
Theorem deadlock_exact s :
  reachable_config (s, None) → fiber_result s MAIN_FIBER = None →
  ready s = [] → earliest_deadline s = None → io_blocked s = 0 → poll_blocked s = ∅ →
  blocked s ≠ [] ∧
  ∀ id f, fibers s !! id = Some f → fiber_result s id = None → id ∈ blocked s.
Proof.
  intros Hr%reachable_ok Hmain Hrd Hdl Hio Hpoll.
  assert (timers s = []) as Ht.
  { unfold earliest_deadline in Hdl. by destruct (timers s). }
  assert (∀ id f, fibers s !! id = Some f → fiber_result s id = None → id ∈ blocked s) as Hall.
  { intros id f Hf Hres.
    destruct (unfinished_placed s None id f Hr Hf Hres) as [?|[Hin|[Hin|Hin]]]; [done| | |].
    - rewrite Hrd in Hin. by apply elem_of_nil in Hin.
    - unfold wait_list in Hin. rewrite Ht, Hpoll in Hin. cbn in Hin.
      change (id ∈ blocked s ++ []) in Hin. by rewrite app_nil_r in Hin.
    - by destruct (no_pending_fibers s id f (proj1 Hr) Hio Hf). }
  split; [|done]. destruct Hr as [_ [_ (st & (f & Hf & _)%fmap_Some)]]. cbn in Hf.
  specialize (Hall _ f Hf Hmain). intros Hb. rewrite Hb in Hall. by apply elem_of_nil in Hall.
Qed.

(** No scheduler operation panics where the driver and the natives call it: from
    the running fiber, spawning (below the id space), channel operations on an
    existing channel, completing and parking all succeed; while idle, waking timers
    and sockets and delivering a worker's completion all succeed. *)
Theorem scheduler_never_panics s cur :
  reachable_config (s, cur) →
  (∀ h, ∃ s', wake_poll s h = Ok s') ∧
  (∀ now, ∃ r, wake_due_timers s now = Ok r) ∧
  (∀ c, Z.of_nat (length (fibers s)) < 2 ^ 64 - 1 → ∃ r, spawn s c = Ok r) ∧
  (∀ ch, (ch < length (channels s))%nat →
    (∀ v, ∃ r, chan_send s ch v = Ok r) ∧ (∃ r, chan_receive s ch = Ok r) ∧
    (∃ s', chan_close s ch = Ok s')) ∧
  (∀ c, cur = Some c →
    (∀ v, ∃ s', complete s c v = Ok s') ∧
    (∀ Job vs fs (req : ParkRequest Job Payload Ext), (∀ job fin, req ≠ Await job fin) → ∃ s', park s c vs fs req = Ok s') ∧
    (∀ vs v fs fin, ∃ s', park_io s c (vs ++ [v]) fs fin = Ok s')) ∧
  (∀ id f, fibers s !! id = Some f → is_Some (pending f) →
    ∃ s1 fin, take_pending s id = Ok (s1, fin) ∧ ∀ v, ∃ s', deliver s1 id v = Ok s').
Proof.
  intros [Hinv Hr]%reachable_ok. cbn [fst snd] in *. split_and!.
  - intros h. destruct (wake_poll_inv s h Hinv) as (s' & ? & _). eauto.
  - intros now. destruct (wake_due_timers_inv s now Hinv) as (s' & b & ? & _). eauto.
  - intros c Hsz. destruct (spawn_inv s c Hinv Hsz) as (s' & ? & _). eauto.
  - intros ch Hch. split_and!.
    + intros v. destruct (chan_send_inv s ch v Hinv Hch) as (s' & o & ? & _). eauto.
    + destruct (chan_receive_inv s ch Hinv Hch) as (s' & o & ? & _). eauto.
    + destruct (chan_close_inv s ch Hinv Hch) as (s' & ? & _). eauto.
  - intros c ->. destruct (running_fiber s c Hr) as (f & Hf & Hrun). split_and!.
    + intros v. destruct (complete_inv s c f v Hinv Hf Hrun) as (s' & ? & _). eauto.
    + intros Job vs fs req Hq. destruct (park_inv s c f vs fs req Hinv Hf Hrun Hq) as (s' & ? & _). eauto.
    + intros vs v fs fin. destruct (park_io_inv s c f vs v fs fin Hinv Hf Hrun) as (s' & ? & _). eauto.
  - intros id f Hf [fin Hp]. destruct (deliver_inv s id f fin Hinv Hf Hp) as (s1 & H1 & Hd).
    exists s1, fin. split; [done|]. intros v. destruct (Hd v) as (s2 & _ & _ & ? & _). eauto.
Qed.

(** ** Channels *)

(** A fiber's operations on one channel, in order, with the values the channel
    accepted and the values it gave out. *)
Inductive ChanOp := OpSend (v : Value) | OpReceive | OpClose.

Fixpoint run_ops s (id : nat) (ops : list ChanOp) :
    res Trap (Scheduler Payload Ext * list Value * list Value) :=
  match ops with
  | [] => Ok (s, [], [])
  | OpSend v :: ops' =>
      '(s, o) ← chan_send s id v;
      '(s, sent, got) ← run_ops s id ops';
      Ok (s, match o with Sent => v :: sent | _ => sent end, got)
  | OpReceive :: ops' =>
      '(s, o) ← chan_receive s id;
      '(s, sent, got) ← run_ops s id ops';
      Ok (s, sent, match o with Got v => v :: got | _ => got end)
  | OpClose :: ops' => s ← chan_close s id; run_ops s id ops'
  end.

Definition chan_ok (ch : Chan) : Prop := (length (buffer ch) ≤ chan_capacity ch)%nat.

Lemma wake_channels s c : sched_inv s → ∃ s', wake_all (set_channels s c) = Ok s' ∧ sched_inv s' ∧ channels s' = c.
Proof.
  intros Hinv. destruct (wake_all_inv (set_channels s c)) as (s' & H & Hinv' & Hc & _);
    [by apply set_channels_inv|]. by exists s'.
Qed.

(** One operation, on a channel's own state. *)
Lemma chan_send_ok s id ch v :
  sched_inv s → channels s !! id = Some ch → chan_ok ch →
  ∃ s' o ch', chan_send s id v = Ok (s', o) ∧ sched_inv s' ∧ channels s' = <[id := ch']> (channels s) ∧
    chan_ok ch' ∧ closed ch' = closed ch ∧
    match o with
    | Sent => closed ch = false ∧ buffer ch' = buffer ch ++ [v]
    | Full => closed ch = false ∧ ch' = ch ∧ (chan_capacity ch ≤ length (buffer ch))%nat
    | Closed => closed ch = true ∧ ch' = ch
    end.
Proof.
  intros Hinv Hch Hok. unfold chan_send. rewrite Hch. cbn [or_panic mbind res_bind].
  destruct (closed ch) eqn:Hcl.
  { exists s, Closed, ch. rewrite list_insert_id by done. by split_and!. }
  destruct (Nat.ltb_spec (length (buffer ch)) (chan_capacity ch)).
  2:{ exists s, Full, ch. rewrite list_insert_id by done. by split_and!. }
  destruct (wake_channels s (<[id := mkChan (buffer ch ++ [v]) (chan_capacity ch) false]> (channels s)) Hinv)
    as (s' & -> & Hinv' & Hc).
  cbn [mbind res_bind]. exists s', Sent, (mkChan (buffer ch ++ [v]) (chan_capacity ch) false).
  split_and!; try done. unfold chan_ok. cbn. rewrite length_app. cbn. lia.
Qed.

Lemma chan_receive_ok s id ch :
  sched_inv s → channels s !! id = Some ch → chan_ok ch →
  ∃ s' o ch', chan_receive s id = Ok (s', o) ∧ sched_inv s' ∧ channels s' = <[id := ch']> (channels s) ∧
    chan_ok ch' ∧ closed ch' = closed ch ∧
    match o with
    | Got v => buffer ch = v :: buffer ch'
    | Empty => ch' = ch ∧ buffer ch = [] ∧ closed ch = false
    | Drained => ch' = ch ∧ buffer ch = [] ∧ closed ch = true
    end.
Proof.
  intros Hinv Hch Hok. unfold chan_receive. rewrite Hch. cbn [or_panic mbind res_bind].
  destruct (buffer ch) as [|v rest] eqn:Hb.
  { exists s, (if closed ch then Drained else Empty), ch. rewrite list_insert_id by done.
    split_and!; try done. by destruct (closed ch). }
  destruct (wake_channels s (<[id := mkChan rest (chan_capacity ch) (closed ch)]> (channels s)) Hinv)
    as (s' & -> & Hinv' & Hc).
  cbn [mbind res_bind]. exists s', (Got v), (mkChan rest (chan_capacity ch) (closed ch)).
  split_and!; try done. unfold chan_ok in *. rewrite Hb in Hok. cbn in *. lia.
Qed.

Lemma run_ops_fifo id ops : ∀ s ch,
  sched_inv s → channels s !! id = Some ch → chan_ok ch →
  ∃ s' sent got ch', run_ops s id ops = Ok (s', sent, got) ∧
    channels s' = <[id := ch']> (channels s) ∧ chan_ok ch' ∧
    buffer ch ++ sent = got ++ buffer ch' ∧ (closed ch = true → sent = [] ∧ closed ch' = true).
Proof.
  induction ops as [|[v| |] ops IH]; intros s ch Hinv Hch Hok; cbn [run_ops].
  - exists s, [], [], ch. rewrite list_insert_id by done. rewrite app_nil_r. by split_and!.
  - destruct (chan_send_ok s id ch v Hinv Hch Hok) as (s1 & o & ch1 & -> & Hinv1 & Hc1 & Hok1 & Hcl1 & Ho).
    destruct (IH s1 ch1 Hinv1) as (s2 & sent & got & ch2 & H2 & Hc2 & Hok2 & Hbuf & Hcl2); [|done|].
    { rewrite Hc1. apply list_lookup_insert_eq. by apply lookup_lt_Some in Hch. }
    cbn [mbind res_bind]. rewrite H2. cbn [mbind res_bind]. eexists _, _, _, ch2. split; [done|].
    rewrite Hc2, Hc1, list_insert_insert_eq. split; [done|]. split; [done|]. rewrite Hcl1 in Hcl2.
    destruct o; [|by destruct Ho as (_ & -> & _)|by destruct Ho as [_ ->]].
    destruct Ho as [Hcl Ho]. rewrite Ho, <-app_assoc in Hbuf. split; [done|]. congruence.
  - destruct (chan_receive_ok s id ch Hinv Hch Hok) as (s1 & o & ch1 & -> & Hinv1 & Hc1 & Hok1 & Hcl1 & Ho).
    destruct (IH s1 ch1 Hinv1) as (s2 & sent & got & ch2 & H2 & Hc2 & Hok2 & Hbuf & Hcl2); [|done|].
    { rewrite Hc1. apply list_lookup_insert_eq. by apply lookup_lt_Some in Hch. }
    cbn [mbind res_bind]. rewrite H2. cbn [mbind res_bind]. eexists _, _, _, ch2. split; [done|].
    rewrite Hc2, Hc1, list_insert_insert_eq. split; [done|]. split; [done|]. rewrite Hcl1 in Hcl2.
    destruct o; [|by destruct Ho as [-> _]..]. rewrite Ho. cbn. by rewrite Hbuf.
  - unfold chan_close. rewrite Hch. cbn [or_panic mbind res_bind].
    destruct (wake_channels s (<[id := mkChan (buffer ch) (chan_capacity ch) true]> (channels s)) Hinv)
      as (s1 & -> & Hinv1 & Hc1). cbn [mbind res_bind].
    destruct (IH s1 (mkChan (buffer ch) (chan_capacity ch) true) Hinv1) as (s2 & sent & got & ch2 & H2 & Hc2 & Hok2 & Hbuf & Hcl2); [|done|].
    { rewrite Hc1. apply list_lookup_insert_eq. by apply lookup_lt_Some in Hch. }
    exists s2, sent, got, ch2. rewrite Hc2, Hc1, list_insert_insert_eq. split_and!; try done.
    intros _. by apply Hcl2.
Qed.

(** C14: A channel is a bounded FIFO queue.  Over any sequence of sends, receives and
    closes on a channel within its capacity, the values given out are exactly the
    oldest of those buffered or accepted, in order, the rest are still buffered, the
    buffer never exceeds the capacity, no other channel changes, and a closed channel
    accepts nothing more and stays closed. *)
Theorem channel_fifo s cur id ch ops :
  reachable_config (s, cur) → channels s !! id = Some ch →
  (length (buffer ch) ≤ chan_capacity ch)%nat →
  ∃ s' sent got ch', run_ops s id ops = Ok (s', sent, got) ∧
    channels s' = <[id := ch']> (channels s) ∧
    buffer ch ++ sent = got ++ buffer ch' ∧
    (length (buffer ch') ≤ chan_capacity ch')%nat ∧
    (closed ch = true → sent = [] ∧ closed ch' = true).
Proof.
  intros [Hinv _]%reachable_ok Hch Hok.
  destruct (run_ops_fifo id ops s ch Hinv Hch Hok) as (s' & sent & got & ch' & ? & ? & ? & ? & ?).
  by exists s', sent, got, ch'.
Qed.
End spec.

(** ** Concrete runs *)

(** The main fiber spawns one fiber, opens a channel of capacity one, and parks. *)
Definition main0 : Scheduler unit unit := Scheduler_main.
Definition spawned : Scheduler unit unit :=
  mkSched [mkFiber Running None false None; mkFiber (NotStarted Unit) None true None]
    [1%nat] [] [] 0 ∅ [].
Definition opened : Scheduler unit unit := (channel_new spawned 1).1.
Definition waiting : Scheduler unit unit :=
  mkSched [mkFiber (Suspended [] []) None false None; mkFiber (NotStarted Unit) None true None]
    [1%nat] [0%nat] [] 0 ∅ [mkChan [] 1 false].
Definition deadlocked : Scheduler unit unit :=
  mkSched [mkFiber (Suspended [] []) None false None] [] [0%nat] [] 0 ∅ [].

Lemma opened_reachable : reachable_config (opened, Some 0%nat).
Proof.
  apply (rtc_l _ _ (spawned, Some 0%nat)); [by apply (step_spawn _ _ Unit _ 1)|].
  apply (rtc_l _ _ (opened, Some 0%nat)); [by apply (step_channel_new _ _ 1 _ 0)|]. apply rtc_refl.
Qed.

Lemma waiting_reachable : reachable_config (waiting, None).
Proof.
  eapply rtc_r; [exact opened_reachable|]. by apply (step_park (Job := unit) _ _ [] [] BlockRetry).
Qed.

Lemma deadlocked_reachable : reachable_config (deadlocked, None).
Proof.
  apply (rtc_l _ _ (deadlocked, None)); [by apply (step_park (Job := unit) _ _ [] [] BlockRetry)|]. apply rtc_refl.
Qed.

Lemma scheduler_invariant_witness : NoDup (ready waiting) ∧ io_blocked waiting = 0.
Proof.
  destruct (scheduler_invariant waiting None waiting_reachable) as [Hinv _].
  split; [exact (inv_nodup _ _ Hinv)|reflexivity].
Defined.

(** Fiber 1, alone in the queue, runs, wakes the main fiber by a send and yields: the
    main fiber runs next, and fiber 1 is behind it. *)
Lemma ready_queue_fifo_witness : ∃ s', runs (waiting, None) [1%nat; 0%nat] (s', Some 0%nat) ∧
  (∃ woken, [1%nat; 0%nat] ++ ready s' = [1%nat] ++ woken) ∧ ready s' = [1%nat].
Proof.
  assert (Hex : { s' | runs (waiting, None) [1%nat; 0%nat] (s', Some 0%nat) ∧ ready s' = [1%nat] }).
  { eexists. split; [|shelve]. refine (runs_step (waiting, None) (_, Some 1%nat) (_, Some 0%nat) [0%nat] _ _); [by eapply step_dequeue|].
    refine (runs_step _ (_, Some 1%nat) (_, Some 0%nat) [0%nat] _ _); [by apply (step_send _ _ 0 (Int 1) _ Sent)|].
    refine (runs_step _ (_, None) (_, Some 0%nat) [0%nat] _ _);
      [by apply (step_park _ 1 [] [] (@YieldReady unit unit unit))|].
    refine (runs_step _ (_, Some 0%nat) (_, Some 0%nat) [] _ _); [by eapply step_dequeue|apply runs_none].
    Unshelve. reflexivity. }
  destruct Hex as (s' & Hr & Hq). exists s'. split; [exact Hr|]. split; [|exact Hq].
  exact (proj1 (ready_queue_fifo _ _ _ waiting_reachable Hr)).
Defined.

Lemma dequeue_runnable_witness :
  ∃ s' st, dequeue waiting = Ok (Some (s', 1%nat, st)) ∧
    (match st with NotStarted _ | Suspended _ _ => True | _ => False end) ∧
    reachable_config (s', Some 1%nat) ∧ ready s' = [] ∧
    state <$> fibers s' !! 1%nat = Some Running ∧ 1%nat ∉ ready s' ∧ 1%nat ∉ wait_list s'.
Proof. exact (dequeue_runnable waiting waiting_reachable). Defined.

Lemma deadlock_exact_witness : blocked deadlocked ≠ [].
Proof.
  exact (proj1 (deadlock_exact deadlocked deadlocked_reachable eq_refl eq_refl eq_refl eq_refl eq_refl)).
Defined.

Lemma scheduler_never_panics_witness : ∃ s', wake_poll waiting 3 = Ok s'.
Proof. exact (proj1 (scheduler_never_panics waiting None waiting_reachable) 3). Defined.

(** Two sends into a channel of one slot and a receive: the second send is refused. *)
Lemma channel_fifo_witness : ∃ s' sent got ch',
  run_ops opened 0 [OpSend (Int 1); OpSend (Int 2); OpReceive] = Ok (s', sent, got) ∧
  channels s' = <[0%nat := ch']> (channels opened) ∧
  [] ++ sent = got ++ buffer ch' ∧ (length (buffer ch') ≤ chan_capacity ch')%nat ∧
  (false = true → sent = [] ∧ closed ch' = true).
Proof.
  exact (channel_fifo opened (Some 0%nat) 0 (mkChan [] 1 false)
    [OpSend (Int 1); OpSend (Int 2); OpReceive] opened_reachable eq_refl (le_S _ _ (le_n 0))).
Defined.

Example channel_run : ∃ s',
  run_ops opened 0 [OpSend (Int 1); OpSend (Int 2); OpReceive] = Ok (s', [Int 1], [Int 1]).
Proof. eexists. reflexivity. Qed.
