(* ===== verification/Render.v ===== *)
(** * Renderings and primitive ordering (src/runtime/src/interp/mod.rs, natives.rs)

    The text forms of primitive values, the quoted form of strings, and the
    built-in [Ord] of the four primitive types.  A string is its UTF-8 bytes; the
    characters [quote_str] escapes are ASCII, and no byte of a longer UTF-8 sequence
    is, so the loop over characters is a loop over bytes.  [f64_to_string] and
    [value_debug] stand for the Rust library's printing of doubles and the derived
    [Debug] of [Value]. *)

From Stdlib Require Import ZArith Lia Ascii.
From stdpp Require Import base numbers list strings pretty.
From S2P Require Import Prelude Bytes Float64 Instr ModuleTable Value Heap Trap.

Open Scope Z_scope.

(** ** Strings *)

Definition ch_quote : ascii := "'".
Definition ch_backslash : ascii := "\".
Definition ch_dollar : ascii := "$".
Definition ch_brace : ascii := "{".

(** One lower-case hexadecimal digit, and [{b:02x}] and [{:x}] of a byte. *)
Definition hex_digit (n : Z) : string :=
  String (ascii_of_byte (if n <? 10 then 48 + n else 87 + n)) "".
Definition hex2 (b : u8) : string := hex_digit (b / 16) +:+ hex_digit (b mod 16).
Definition hex (b : u8) : string :=
  if b <? 16 then hex_digit b else hex2 b.

Definition hex_join (bytes : list u8) : string := String.concat " " (hex2 <$> bytes).

(** The escape of one character, given whether a brace follows. *)
Definition quote_char (c : ascii) (brace_next : bool) : string :=
  let b := byte_of_ascii c in
  if (b =? 92) then "\\"
  else if (b =? 39) then "\'"
  else if (b =? 36) && brace_next then "\$"
  else if (b =? 10) then "\n"
  else if (b =? 9) then "\t"
  else if (b =? 13) then "\r"
  else if (b =? 8) then "\b"
  else if (b =? 12) then "\f"
  else if (b =? 11) then "\v"
  else if (b =? 0) then "\0"
  else if (b <? 32) || (b =? 127) then "\u{" +:+ hex b +:+ "}"
  else String c "".

Definition starts_brace (s : string) : bool :=
  match s with String c _ => byte_of_ascii c =? 123 | _ => false end.

Fixpoint quote_body (s : string) : string :=
  match s with
  | EmptyString => EmptyString
  | String c s' => quote_char c (starts_brace s') +:+ quote_body s'
  end.

Definition quote_str (s : string) : string := "'" +:+ quote_body s +:+ "'".

(** [String::cmp]: lexicographic on the bytes. *)
Fixpoint bytes_cmp (a b : list u8) : comparison :=
  match a, b with
  | [], [] => Eq
  | [], _ :: _ => Lt
  | _ :: _, [] => Gt
  | x :: a', y :: b' => match x ?= y with Eq => bytes_cmp a' b' | c => c end
  end.

Definition bool_cmp (a b : bool) : comparison :=
  match a, b with
  | true, false => Gt
  | false, true => Lt
  | _, _ => Eq
  end.

(** ** Values *)

Definition has_builtin_display (m : Mem) (v : Value) : res Trap bool :=
  match v with
  | Int _ | Double _ | Bool _ | Unit => Ok true
  | Ref h => with_obj m h (λ obj, match obj with Str _ => true | _ => false end)
  end.

Section render.
Variable f64_to_string : f64 → string.
Variable value_debug : Value → string.

Definition bool_to_string (b : bool) : string := if b then "true" else "false".

Definition display_string (m : Mem) (v : Value) : res Trap string :=
  match v with
  | Int n => Ok (pretty n)
  | Double x => Ok (format_double f64_to_string x)
  | Bool b => Ok (bool_to_string b)
  | Unit => Ok "()"
  | Ref h =>
      r ← with_obj m h (λ obj,
        match obj with
        | Str s => Ok s
        | _ => Err (bug "display: type has no built-in Display")
        end);
      r
  end.

Definition str_contents (m : Mem) (v : Value) : res Trap string :=
  match v with
  | Ref h =>
      r ← with_obj m h (λ obj,
        match obj with Str s => Ok s | _ => Err (bug "expected string") end);
      r
  | v => Err (bug ("expected string, found " +:+ value_debug v))
  end.

(** The ordering of two primitives, before it is put on the heap. *)
Definition primitive_cmp (m : Mem) (a b : Value) : res Trap comparison :=
  match a, b with
  | Int x, Int y => Ok (x ?= y)
  | Double x, Double y => Ok (f64_total_cmp x y)
  | Bool x, Bool y => Ok (bool_cmp x y)
  | Ref _, Ref _ =>
      s ← str_contents m a;
      t ← str_contents m b;
      Ok (bytes_cmp (as_bytes s) (as_bytes t))
  | _, _ => Err (bug "call.virtual compare: no Ord impl for the receiver's type")
  end.

Definition primitive_ordering `{Sizes} (m : Mem) (a b : Value) : res Trap (Mem * Value) :=
  ord ← primitive_cmp m a b; alloc m (ordering_obj ord).
End render.

(** ** Lemmas *)

Lemma bytes_cmp_refl a : bytes_cmp a a = Eq.
Proof. induction a as [|x a IH]; cbn; [done|]. by rewrite Z.compare_refl. Qed.

Lemma bytes_cmp_eq a : ∀ b, bytes_cmp a b = Eq → a = b.
Proof.
  induction a as [|x a IH]; intros [|y b]; cbn; try done.
  destruct (Z.compare_spec x y) as [->|?|?]; try done. intros H. by rewrite (IH b H).
Qed.

Lemma bytes_cmp_antisym a : ∀ b, bytes_cmp b a = CompOpp (bytes_cmp a b).
Proof.
  induction a as [|x a IH]; intros [|y b]; cbn; try done.
  rewrite Z.compare_antisym. destruct (x ?= y); cbn; [apply IH|done|done].
Qed.

Lemma bytes_cmp_trans a : ∀ b c, bytes_cmp a b = Lt → bytes_cmp b c = Lt → bytes_cmp a c = Lt.
Proof.
  induction a as [|x a IH]; intros [|y b] [|z c]; cbn; try done.
  destruct (Z.compare_spec x y), (Z.compare_spec y z), (Z.compare_spec x z); try lia; try done.
  apply IH.
Qed.
