(* ===== verification/Interp.v ===== *)
(** * The interpreter loop (src/runtime/src/interp/mod.rs)

    The loop over the explicit frame stack: [step] is one iteration of [run_loop]
    (fetch, advance the program counter, execute), a function on [Loop], the loop's
    hoisted stacks with the active frame and the world.  It is written one group of
    instructions at a time.  [World] is everything outside the [Vm]: the
    thread-local heap and scheduler, the [PARK] flag a native sets to suspend the
    fiber, the output, and [Ext], the rest of the machine, which only natives read
    and write.  The native table is a parameter of the development ([natives]):
    whatever functions it holds, they act on the world.

    [run_loop], the structural [debug] fallback and the nested [call]s it makes are
    mutually recursive in the code; here [run_loop] takes fuel, one unit per
    instruction of the deepest activation, and gives the fallback the loop at the
    remaining fuel.  Rust's own recursion in [debug_value] is bounded by the same
    fuel, so a cyclic value exhausts it as it exhausts the machine's stack. *)

From Stdlib Require Import ZArith Lia.
From stdpp Require Import base numbers list strings gmap pretty.
From S2P Require Import Prelude Bytes Float64 Instr ModuleTable Value Heap Trap Scheduler.
From S2P Require Import Render.

Open Scope Z_scope.

(** ** Operand-stack helpers *)

(** [a.checked_sub(b)] *)
Definition checked_sub (a b : nat) : option nat := if Nat.leb b a then Some (a - b)%nat else None.

Definition truncate {A} (n : nat) (l : list A) : list A := take n l.

Definition checked_list_index (i : i64) (len : nat) : res Trap nat :=
  if (i <? 0) || (Z.of_nat len <=? as_u64 i) then Err (IndexOutOfBounds i len)
  else Ok (Z.to_nat (as_u64 i)).

(** A lookup of the module that cannot fail with an error, in the loop's monad. *)
Definition lift {A} (r : res Empty_set A) : res Trap A :=
  match r with
  | Ok a => Ok a
  | Err e => match e with end
  | Panic => Panic
  | NoFuel => NoFuel
  end.

Section helpers.
Variable m : Mem.
Variable module : Module.

Definition pop (stack : list Value) : res Trap (list Value * Value) :=
  ok_or (vec_pop stack) (bug "stack underflow").

Definition pop_int (stack : list Value) : res Trap (list Value * i64) :=
  '(stack, v) ← pop stack;
  match v with Int n => Ok (stack, n) | v => type_error m "Int" v (Some module) end.

Definition pop_double (stack : list Value) : res Trap (list Value * f64) :=
  '(stack, v) ← pop stack;
  match v with Double x => Ok (stack, x) | v => type_error m "Double" v (Some module) end.

Definition pop_bool (stack : list Value) : res Trap (list Value * bool) :=
  '(stack, v) ← pop stack;
  match v with Bool b => Ok (stack, b) | v => type_error m "Bool" v (Some module) end.

Definition pop_two_int (stack : list Value) : res Trap (list Value * (i64 * i64)) :=
  '(stack, b) ← pop_int stack;
  '(stack, a) ← pop_int stack;
  Ok (stack, (a, b)).

Definition pop_two_double (stack : list Value) : res Trap (list Value * (f64 * f64)) :=
  '(stack, b) ← pop_double stack;
  '(stack, a) ← pop_double stack;
  Ok (stack, (a, b)).

Definition cmp_int (stack : list Value) (f : i64 → i64 → bool) : res Trap (list Value) :=
  '(stack, (a, b)) ← pop_two_int stack; Ok (push stack (Bool (f a b))).

Definition cmp_double (stack : list Value) (f : f64 → f64 → bool) : res Trap (list Value) :=
  '(stack, (a, b)) ← pop_two_double stack; Ok (push stack (Bool (f a b))).

(** [Err(Trap::TypeError { expected, found: obj_type_name(other, ..) })] *)
Definition obj_type_error {A} (expected : string) (found : Obj) (mo : option Module) : res Trap A :=
  Err (TypeError expected (obj_type_name found mo)).

Definition pop_enum_variant (stack : list Value) : res Trap (list Value * u16) :=
  '(stack, v) ← pop stack;
  match v with
  | Ref h =>
      r ← with_obj m h (λ obj,
        match obj with
        | Enum _ variant _ => Ok (stack, variant)
        | other => obj_type_error "an enum" other (Some module)
        end);
      r
  | v => type_error m "an enum" v (Some module)
  end.

Definition closure_parts (v : Value) : res Trap (u32 * list Value) :=
  match v with
  | Ref h =>
      r ← with_obj m h (λ obj,
        match obj with
        | Closure func captures => Ok (func, captures)
        | other => obj_type_error "a function" other (Some module)
        end);
      r
  | v => type_error m "a function" v (Some module)
  end.

Definition dispatch_type_id (v : Value) : res Trap (option u32) :=
  match v with
  | Ref h =>
      with_obj m h (λ obj,
        match obj with
        | Struct ty _ => Some ty
        | Enum ty _ _ => Some (Z.lor ENUM_DISPATCH_BASE ty)
        | _ => None
        end)
  | _ => Ok None
  end.

Definition enum_field (v : Value) (idx : nat) : res Trap Value :=
  match v with
  | Ref h =>
      r ← with_obj m h (λ obj,
        match obj with
        | Enum _ _ fields =>
            ok_or (fields !! idx) (bug ("enum.get: field " +:+ pretty idx +:+ " out of range"))
        | other => obj_type_error "an enum" other (Some module)
        end);
      r
  | v => type_error m "an enum" v (Some module)
  end.

Definition struct_field (v : Value) (idx : nat) (mo : option Module) : res Trap Value :=
  match v with
  | Ref h =>
      r ← with_obj m h (λ obj,
        match obj with
        | Struct _ fields =>
            ok_or (fields !! idx) (bug ("field.get: field " +:+ pretty idx +:+ " out of range"))
        | other => obj_type_error "a struct" other mo
        end);
      r
  | v => type_error m "a struct" v mo
  end.

(** The object [o] after an in-place write, and the write's result. *)
Definition try_write (o : Obj) (r : res Trap Obj) : Obj * res Trap unit :=
  match r with
  | Ok o' => (o', Ok tt)
  | Err e => (o, Err e)
  | Panic => (o, Panic)
  | NoFuel => (o, NoFuel)
  end.

Definition set_struct_field (v : Value) (idx : nat) (value : Value) : res Trap Mem :=
  match v with
  | Ref h =>
      '(m', r) ← with_obj_mut m h (λ obj, try_write obj
        match obj with
        | Struct ty fields =>
            _ ← ok_or (fields !! idx) (bug ("field.set: field " +:+ pretty idx +:+ " out of range"));
            Ok (Struct ty (<[idx := value]> fields))
        | other => obj_type_error "a struct" other (Some module)
        end);
      _ ← (r : res Trap unit);
      Ok m'
  | v => type_error m "a struct" v (Some module)
  end.

(** ** The list instructions *)

Definition list_get (list : Value) (idx : i64) : res Trap Value :=
  match list with
  | Ref h =>
      r ← with_obj m h (λ obj,
        match obj with
        | List items =>
            i ← checked_list_index idx (length items);
            or_panic (items !! i)
        | other => obj_type_error "a List" other (Some module)
        end);
      r
  | v => type_error m "a List" v (Some module)
  end.

Definition list_set (list : Value) (idx : i64) (value : Value) : res Trap Mem :=
  match list with
  | Ref h =>
      '(m', r) ← with_obj_mut m h (λ obj, try_write obj
        match obj with
        | List items =>
            i ← checked_list_index idx (length items);
            _ ← or_panic (items !! i);
            Ok (List (<[i := value]> items))
        | other => obj_type_error "a List" other (Some module)
        end);
      _ ← (r : res Trap unit);
      Ok m'
  | v => type_error m "a List" v (Some module)
  end.

Definition list_len (list : Value) : res Trap i64 :=
  match list with
  | Ref h =>
      r ← with_obj m h (λ obj,
        match obj with
        | List items => Ok (as_i64 (Z.of_nat (length items)))
        | other => obj_type_error "a List" other (Some module)
        end);
      r
  | v => type_error m "a List" v (Some module)
  end.
End helpers.

(** ** The world and the loop's state *)

Section interp.
Context `{Sizes} {Job Payload Ext : Type}.
Variable f64_to_string : f64 → string.
Variable value_debug : Value → string.

Record World := mkWorld {
  w_mem : Mem;
  w_sched : Scheduler Payload Ext;
  w_park : option (ParkRequest Job Payload Ext);
  w_out : list u8;
  w_ext : Ext;
}.

Definition set_w_mem (w : World) (m : Mem) : World :=
  mkWorld m (w_sched w) (w_park w) (w_out w) (w_ext w).
Definition set_w_sched (w : World) (s : Scheduler Payload Ext) : World :=
  mkWorld (w_mem w) s (w_park w) (w_out w) (w_ext w).
Definition set_w_park (w : World) (p : option (ParkRequest Job Payload Ext)) : World :=
  mkWorld (w_mem w) (w_sched w) p (w_out w) (w_ext w).

Definition Native : Type := World → list Value → res Trap (World * Value).
Variable natives : list Native.

(** [self] of the [Vm], with the world it reaches. *)
Record Vm := mkVm { vm_frames : list Frame; vm_vstack : list Value; vm_world : World }.

(** The loop: the active frame, the hoisted stacks, the world. *)
Record Loop := mkLoop {
  l_frame : Frame;
  l_vstack : list Value;
  l_frames : list Frame;
  l_world : World;
}.

Inductive RunOutcome := RDone (v : Value) | RParked (req : ParkRequest Job Payload Ext).

(** One iteration continues the loop or exits it, handing the stacks back. *)
Inductive Flow := Continue (l : Loop) | Exit (o : RunOutcome) (vm : Vm).

Definition l_mem (l : Loop) : Mem := w_mem (l_world l).
Definition set_vstack (l : Loop) (vs : list Value) : Loop :=
  mkLoop (l_frame l) vs (l_frames l) (l_world l).
Definition set_world (l : Loop) (w : World) : Loop :=
  mkLoop (l_frame l) (l_vstack l) (l_frames l) w.
Definition set_mem (l : Loop) (m : Mem) : Loop := set_world l (set_w_mem (l_world l) m).
Definition set_pc (l : Loop) (p : nat) : Loop :=
  mkLoop (mkFrame (func (l_frame l)) p (base (l_frame l))) (l_vstack l) (l_frames l) (l_world l).
Definition l_push (l : Loop) (v : Value) : Loop := set_vstack l (push (l_vstack l) v).
Definition l_vm (l : Loop) : Vm := mkVm (l_frames l) (l_vstack l) (l_world l).

(** [poll_gc!]: collect at a safepoint, then enforce the heap ceiling. *)
Definition poll_gc (l : Loop) : res Trap Loop :=
  if should_collect (l_mem l) then
    m ← collect (l_mem l) (l_vstack l ++ gather_scheduler_roots (w_sched (l_world l)));
    match over_ceiling m with
    | Some (live_bytes, limit_bytes) => Err (OutOfMemory live_bytes limit_bytes)
    | None => Ok (set_mem l m)
    end
  else Ok l.

(** Push a freshly allocated object. *)
Definition push_alloc (l : Loop) (o : Obj) : res Trap Loop :=
  '(m, v) ← alloc (l_mem l) o; Ok (l_push (set_mem l m) v).

(** The stack split [n] from its top. *)
Definition split_args (l : Loop) (n : nat) (msg : string) : res Trap (list Value * list Value) :=
  base ← ok_or (checked_sub (length (l_vstack l)) n) (bug msg);
  Ok (take base (l_vstack l), drop base (l_vstack l)).

(** ** Calls *)

Definition enter_frame (vstack : list Value) (module : Module) (func argc : nat) :
    res Trap (list Value * Frame) :=
  f ← ok_or (functions module !! func) (bug ("call: no function at index " +:+ pretty func));
  if negb (Z.of_nat argc =? param_count f) then
    Err (bug ("call: function '" +:+ fn_name f +:+ "' expects " +:+ pretty (param_count f) +:+
      " args, got " +:+ pretty argc))
  else
    base ← ok_or (checked_sub (length vstack) argc) (bug "call: operand stack underflow");
    Ok (resize vstack (base + Z.to_nat (local_count f))%nat Unit, mkFrame func 0 base).

Definition push_frame (vstack : list Value) (module : Module) (func : nat) (args : list Value) :
    res Trap (list Value * Frame) :=
  enter_frame (vstack ++ args) module func (length args).

(** [enter_call!] *)
Definition enter_call (l : Loop) (module : Module) (callee : Frame) : res Trap Flow :=
  if Nat.leb MAX_CALL_DEPTH (length (l_frames l)) then Err StackOverflow else
  _ ← or_panic (functions module !! func callee);
  Ok (Continue (mkLoop callee (l_vstack l) (push (l_frames l) (l_frame l)) (l_world l))).

Definition call_function (l : Loop) (module : Module) (func argc : nat) : res Trap Flow :=
  '(vstack, callee) ← enter_frame (l_vstack l) module func argc;
  enter_call (set_vstack l vstack) module callee.

Definition step_call (module : Module) (l : Loop) (func : u32) (argc : u8) : res Trap Flow :=
  l ← poll_gc l;
  call_function l module (Z.to_nat func) (Z.to_nat argc).

Definition step_call_native (l : Loop) (native : u32) (argc : u8) : res Trap Flow :=
  l ← poll_gc l;
  base ← ok_or (checked_sub (length (l_vstack l)) (Z.to_nat argc))
    (bug "call.native: operand stack underflow");
  f ← ok_or (natives !! Z.to_nat native) (bug ("call.native: no native at index " +:+ pretty native));
  '(w, ret) ← (f : Native) (l_world l) (drop base (l_vstack l));
  let park := w_park w in
  let l := set_world l (set_w_park w None) in
  let answered := push (truncate base (l_vstack l)) ret in
  match park with
  | None => Ok (Continue (set_vstack l answered))
  | Some ((BlockRetry | Ready _) as req) =>
      let l := set_pc l (pc (l_frame l) - 1) in
      Ok (Exit (RParked req) (mkVm (push (l_frames l) (l_frame l)) (l_vstack l) (l_world l)))
  | Some req =>
      Ok (Exit (RParked req) (mkVm (push (l_frames l) (l_frame l)) answered (l_world l)))
  end.

Definition step_call_indirect (module : Module) (l : Loop) (argc : u8) : res Trap Flow :=
  l ← poll_gc l;
  let argc := Z.to_nat argc in
  closure_slot ← ok_or (checked_sub (length (l_vstack l)) (argc + 1))
    (bug "call.indirect: operand stack underflow");
  closure ← or_panic (l_vstack l !! closure_slot);
  '(func, captures) ← closure_parts (l_mem l) module closure;
  let total := (length captures + argc)%nat in
  let vstack := take closure_slot (l_vstack l) ++ captures ++ drop (closure_slot + 1) (l_vstack l) in
  call_function (set_vstack l vstack) module (Z.to_nat func) total.

(** [fallback] is [virtual_fallback] on [self] with the stacks handed back. *)
Definition step_call_virtual
    (fallback : Vm → string → list Value → res Trap (Vm * Value))
    (module : Module) (l : Loop) (selector : string) (argc : u8) : res Trap Flow :=
  l ← poll_gc l;
  let argc := Z.to_nat argc in
  base ← ok_or (checked_sub (length (l_vstack l)) argc)
    (bug "call.virtual: operand stack underflow");
  recv ← or_panic (l_vstack l !! base);
  ty ← dispatch_type_id (l_mem l) recv;
  target ← match ty with
           | Some ty => lift (dispatch_target module ty selector)
           | None => Ok None
           end;
  match target with
  | Some func => call_function l module (Z.to_nat func) argc
  | None =>
      let args := drop base (l_vstack l) in
      '(vm, ret) ← fallback (l_vm (set_vstack l (truncate base (l_vstack l)))) selector args;
      Ok (Continue (mkLoop (l_frame l) (push (vm_vstack vm) ret) (vm_frames vm) (vm_world vm)))
  end.

(** ** Data instructions *)

Definition step_const_local (l : Loop) (i : Instr) : res Trap Loop :=
  let vs := l_vstack l in
  let b := base (l_frame l) in
  match i with
  | ConstInt n => Ok (l_push l (Int n))
  | ConstDouble x => Ok (l_push l (Double x))
  | ConstBool b => Ok (l_push l (Bool b))
  | ConstUnit => Ok (l_push l Unit)
  | ConstStr s =>
      l ← poll_gc l;
      '(m, v) ← intern_str (l_mem l) s;
      Ok (l_push (set_mem l m) v)
  | Load slot =>
      v ← ok_or (vs !! (b + Z.to_nat slot)%nat)
        (bug ("load: slot " +:+ pretty slot +:+ " out of range"));
      Ok (l_push l v)
  | Store slot =>
      '(vs, v) ← pop vs;
      _ ← ok_or (vs !! (b + Z.to_nat slot)%nat)
        (bug ("store: slot " +:+ pretty slot +:+ " out of range"));
      Ok (set_vstack l (<[(b + Z.to_nat slot)%nat := v]> vs))
  | GlobalGet idx =>
      v ← ok_or (global_get (l_mem l) idx)
        (bug ("global.get: slot " +:+ pretty idx +:+ " out of range"));
      Ok (l_push l v)
  | GlobalSet idx =>
      '(vs, v) ← pop vs;
      m ← ok_or (global_set (l_mem l) idx v)
        (bug ("global.set: slot " +:+ pretty idx +:+ " out of range"));
      Ok (set_mem (set_vstack l vs) m)
  | _ => Ok l
  end.

(** Instructions on the operand stack alone. *)
Definition step_int (module : Module) (m : Mem) (vs : list Value) (i : Instr) :
    res Trap (list Value) :=
  let binary (f : i64 → i64 → i64) :=
    '(vs, (a, b)) ← pop_two_int m module vs; Ok (push vs (Int (f a b))) in
  let divide (f : i64 → i64 → i64) :=
    '(vs, (a, b)) ← pop_two_int m module vs;
    if b =? 0 then Err DivByZero else Ok (push vs (Int (f a b))) in
  let unary (f : i64 → i64) :=
    '(vs, a) ← pop_int m module vs; Ok (push vs (Int (f a))) in
  match i with
  | AddI64 => binary wrapping_add
  | SubI64 => binary wrapping_sub
  | MulI64 => binary wrapping_mul
  | DivI64 => divide wrapping_div
  | ModI64 => divide wrapping_rem
  | NegI64 => unary wrapping_neg
  | AndI64 => binary Z.land
  | OrI64 => binary Z.lor
  | XorI64 => binary Z.lxor
  | BNotI64 => unary Z.lnot
  | ShlI64 => binary (λ a b, wrapping_shl a (as_u32 (Z.land b 63)))
  | ShrI64 => binary (λ a b, wrapping_shr a (as_u32 (Z.land b 63)))
  | UShrI64 => binary (λ a b, as_i64 (Z.shiftr (as_u64 a) (as_u32 (Z.land b 63))))
  | EqI64 => cmp_int m module vs Z.eqb
  | NeI64 => cmp_int m module vs (λ a b, negb (a =? b))
  | LtI64 => cmp_int m module vs Z.ltb
  | LeI64 => cmp_int m module vs Z.leb
  | GtI64 => cmp_int m module vs (λ a b, b <? a)
  | GeI64 => cmp_int m module vs (λ a b, b <=? a)
  | _ => Ok vs
  end.

Definition step_double (module : Module) (m : Mem) (vs : list Value) (i : Instr) :
    res Trap (list Value) :=
  let binary (f : f64 → f64 → f64) :=
    '(vs, (a, b)) ← pop_two_double m module vs; Ok (push vs (Double (f a b))) in
  match i with
  | AddF64 => binary f64_add
  | SubF64 => binary f64_sub
  | MulF64 => binary f64_mul
  | DivF64 => binary f64_div
  | NegF64 => '(vs, a) ← pop_double m module vs; Ok (push vs (Double (f64_neg a)))
  | EqF64 => cmp_double m module vs f64_eq
  | NeF64 => cmp_double m module vs (λ a b, negb (f64_eq a b))
  | LtF64 => cmp_double m module vs f64_lt
  | LeF64 => cmp_double m module vs f64_le
  | GtF64 => cmp_double m module vs (λ a b, f64_lt b a)
  | GeF64 => cmp_double m module vs (λ a b, f64_le b a)
  | _ => Ok vs
  end.

Definition step_stack (module : Module) (m : Mem) (vs : list Value) (i : Instr) :
    res Trap (list Value) :=
  match i with
  | Not => '(vs, b) ← pop_bool m module vs; Ok (push vs (Bool (negb b)))
  | I64ToF64 => '(vs, a) ← pop_int m module vs; Ok (push vs (Double (f64_of_i64 a)))
  | F64ToI64 => '(vs, a) ← pop_double m module vs; Ok (push vs (Int (i64_of_f64 a)))
  | Pop => '(vs, _) ← pop vs; Ok vs
  | Dup => v ← ok_or (last vs) (bug "dup: empty stack"); Ok (push vs v)
  | _ => Ok vs
  end.

(** Enums, structs, lists and closures. *)
Definition step_object (module : Module) (l : Loop) (i : Instr) : res Trap Loop :=
  let vs := l_vstack l in
  match i with
  | EnumNew ty variant field_count =>
      l ← poll_gc l;
      '(vs, fields) ← split_args l (Z.to_nat field_count) "enum.new: operand stack underflow";
      push_alloc (set_vstack l vs) (Enum ty variant fields)
  | EnumTag =>
      '(vs, variant) ← pop_enum_variant (l_mem l) module vs;
      Ok (set_vstack l (push vs (Int variant)))
  | EnumGet idx =>
      '(vs, v) ← pop vs;
      x ← enum_field (l_mem l) module v (Z.to_nat idx);
      Ok (set_vstack l (push vs x))
  | StructNew ty =>
      l ← poll_gc l;
      t ← ok_or (types module !! Z.to_nat ty) (bug ("struct.new: no type at index " +:+ pretty ty));
      '(vs, fields) ← split_args l (Z.to_nat (field_count t)) "struct.new: operand stack underflow";
      push_alloc (set_vstack l vs) (Struct ty fields)
  | FieldGet idx =>
      '(vs, v) ← pop vs;
      x ← struct_field (l_mem l) v (Z.to_nat idx) (Some module);
      Ok (set_vstack l (push vs x))
  | FieldSet idx =>
      '(vs, value) ← pop vs;
      '(vs, obj) ← pop vs;
      m ← set_struct_field (l_mem l) module obj (Z.to_nat idx) value;
      Ok (set_mem (set_vstack l vs) m)
  | ListNew count =>
      l ← poll_gc l;
      '(vs, items) ← split_args l (Z.to_nat count) "list.new: operand stack underflow";
      push_alloc (set_vstack l vs) (List items)
  | ListGet =>
      '(vs, idx) ← pop_int (l_mem l) module vs;
      '(vs, list) ← pop vs;
      x ← list_get (l_mem l) module list idx;
      Ok (set_vstack l (push vs x))
  | ListSet =>
      '(vs, value) ← pop vs;
      '(vs, idx) ← pop_int (l_mem l) module vs;
      '(vs, list) ← pop vs;
      m ← list_set (l_mem l) module list idx value;
      Ok (set_mem (set_vstack l vs) m)
  | ListLen =>
      '(vs, list) ← pop vs;
      n ← list_len (l_mem l) module list;
      Ok (set_vstack l (push vs (Int n)))
  | ClosureNew func captures =>
      l ← poll_gc l;
      '(vs, captured) ← split_args l (Z.to_nat captures) "closure.new: operand stack underflow";
      push_alloc (set_vstack l vs) (Closure func captured)
  | _ => Ok l
  end.

(** ** Control *)

Definition jump (l : Loop) (target : nat) : res Trap Loop :=
  l ← (if Nat.ltb target (pc (l_frame l)) then poll_gc l else Ok l);
  Ok (set_pc l target).

Definition step_jump (module : Module) (l : Loop) (i : Instr) : res Trap Loop :=
  match i with
  | Jump target => jump l (Z.to_nat target)
  | JumpIfTrue target =>
      '(vs, b) ← pop_bool (l_mem l) module (l_vstack l);
      if b : bool then jump (set_vstack l vs) (Z.to_nat target) else Ok (set_vstack l vs)
  | JumpIfFalse target =>
      '(vs, b) ← pop_bool (l_mem l) module (l_vstack l);
      if b : bool then Ok (set_vstack l vs) else jump (set_vstack l vs) (Z.to_nat target)
  | _ => Ok l
  end.

Definition step_return (module : Module) (base_depth : nat) (l : Loop) : res Trap Flow :=
  f ← or_panic (functions module !! func (l_frame l));
  let floor := (base (l_frame l) + Z.to_nat (local_count f))%nat in
  let value :=
    if Nat.ltb floor (length (l_vstack l)) then default Unit (last (l_vstack l)) else Unit in
  let vstack := truncate (base (l_frame l)) (l_vstack l) in
  if Nat.eqb (length (l_frames l)) base_depth
  then Ok (Exit (RDone value) (mkVm (l_frames l) vstack (l_world l)))
  else
    '(frames, frame) ← or_panic (vec_pop (l_frames l));
    _ ← or_panic (functions module !! func frame);
    Ok (Continue (mkLoop frame (push vstack value) frames (l_world l))).

(** ** One iteration *)

Definition step (fallback : Vm → string → list Value → res Trap (Vm * Value))
    (module : Module) (base_depth : nat) (l : Loop) : res Trap Flow :=
  f ← or_panic (functions module !! func (l_frame l));
  instr ← ok_or (code f !! pc (l_frame l)) (bug "pc ran off the end of the instruction stream");
  let l := set_pc l (pc (l_frame l) + 1) in
  let on_stack vs := vs ← vs; Ok (Continue (set_vstack l vs)) in
  let continue l := l ← l; Ok (Continue l) in
  match instr with
  | ConstInt _ | ConstDouble _ | ConstBool _ | ConstUnit | ConstStr _ | Load _ | Store _
  | GlobalGet _ | GlobalSet _ => continue (step_const_local l instr)
  | AddI64 | SubI64 | MulI64 | DivI64 | ModI64 | NegI64 | AndI64 | OrI64 | XorI64 | BNotI64
  | ShlI64 | ShrI64 | UShrI64 | EqI64 | NeI64 | LtI64 | LeI64 | GtI64 | GeI64 =>
      on_stack (step_int module (l_mem l) (l_vstack l) instr)
  | AddF64 | SubF64 | MulF64 | DivF64 | NegF64 | EqF64 | NeF64 | LtF64 | LeF64 | GtF64 | GeF64 =>
      on_stack (step_double module (l_mem l) (l_vstack l) instr)
  | Not | I64ToF64 | F64ToI64 | Pop | Dup =>
      on_stack (step_stack module (l_mem l) (l_vstack l) instr)
  | Call func argc => step_call module l func argc
  | CallNative native argc => step_call_native l native argc
  | CallIndirect argc => step_call_indirect module l argc
  | CallVirtual selector argc => step_call_virtual fallback module l selector argc
  | EnumNew _ _ _ | EnumTag | EnumGet _ | StructNew _ | FieldGet _ | FieldSet _ | ListNew _
  | ListGet | ListSet | ListLen | ClosureNew _ _ => continue (step_object module l instr)
  | Jump _ | JumpIfTrue _ | JumpIfFalse _ => continue (step_jump module l instr)
  | Return => step_return module base_depth l
  end.

(** ** The structural fallback *)

Definition vm_mem (vm : Vm) : Mem := w_mem (vm_world vm).
Definition set_vm_mem (vm : Vm) (m : Mem) : Vm :=
  mkVm (vm_frames vm) (vm_vstack vm) (set_w_mem (vm_world vm) m).

(** [self.call] as the nested renderings use it. *)
Definition Call_fn : Type := Vm → nat → list Value → res Trap (Vm * Value).

(** [parts.push(self.debug_value(module, item)?)] over a list. *)
Fixpoint debug_items (dbg : Vm → Value → res Trap (Vm * string)) (vm : Vm) (items : list Value) :
    res Trap (Vm * list string) :=
  match items with
  | [] => Ok (vm, [])
  | v :: items' =>
      '(vm, s) ← dbg vm v;
      '(vm, ss) ← debug_items dbg vm items';
      Ok (vm, s :: ss)
  end.

Definition debug_list (dbg : Vm → Value → res Trap (Vm * string)) (vm : Vm) (items : list Value) :
    res Trap (Vm * string) :=
  '(vm, parts) ← debug_items dbg vm items; Ok (vm, String.concat ", " parts).

Fixpoint debug_entries (dbg : Vm → Value → res Trap (Vm * string)) (vm : Vm)
    (es : list (Value * Value)) : res Trap (Vm * list string) :=
  match es with
  | [] => Ok (vm, [])
  | (k, v) :: es' =>
      '(vm, sk) ← dbg vm k;
      '(vm, sv) ← dbg vm v;
      '(vm, ss) ← debug_entries dbg vm es';
      Ok (vm, (sk +:+ ": " +:+ sv) :: ss)
  end.

(** The variant name of an enum value: the table's, the built-in one, or the tag. *)
Definition variant_name (module : Module) (ty : u32) (variant : u16) : string :=
  match d ← enum_def module ty; variants d !! Z.to_nat variant with
  | Some name => name
  | None =>
      if ty =? TY_RESULT then if variant =? TAG_OK then "Ok" else "Err"
      else if ty =? TY_OPTION then if variant =? TAG_SOME then "Some" else "None"
      else "variant" +:+ pretty variant
  end.

(** The rendering of an object cloned out of the heap. *)
Definition debug_obj (dbg : Vm → Value → res Trap (Vm * string)) (module : Module) (vm : Vm)
    (o : Obj) : res Trap (Vm * string) :=
  match o with
  | Str s => Ok (vm, quote_str s)
  | Bytes b => Ok (vm, "Bytes[" +:+ hex_join b +:+ "]")
  | BytesBuilder b => Ok (vm, "BytesBuilder[" +:+ hex_join b +:+ "]")
  | List items => '(vm, s) ← debug_list dbg vm items; Ok (vm, "[" +:+ s +:+ "]")
  | Map m =>
      if Nat.eqb (length (entries m)) 0 then Ok (vm, "[:]") else
      '(vm, parts) ← debug_entries dbg vm (entries m);
      Ok (vm, "[" +:+ String.concat ", " parts +:+ "]")
  | Struct ty fields =>
      let def := types module !! Z.to_nat ty in
      let name := match def with Some t => ty_name t | None => "<struct>" end in
      let named := match def with
                   | Some t => if Nat.eqb (length (field_names t)) (length fields)
                               then Some (field_names t) else None
                   | None => None
                   end in
      match fields with
      | [] => Ok (vm, name +:+ " {}")
      | _ =>
          match named with
          | Some names =>
              '(vm, parts) ← debug_items dbg vm fields;
              let parts := zip_with (λ n s, n +:+ ": " +:+ s) names parts in
              Ok (vm, name +:+ " { " +:+ String.concat ", " parts +:+ " }")
          | None => '(vm, s) ← debug_list dbg vm fields; Ok (vm, name +:+ " { " +:+ s +:+ " }")
          end
      end
  | Enum ty variant fields =>
      let variant := variant_name module ty variant in
      match fields with
      | [] => Ok (vm, variant)
      | _ => '(vm, s) ← debug_list dbg vm fields; Ok (vm, variant +:+ "(" +:+ s +:+ ")")
      end
  | Closure _ _ => Ok (vm, "<fn>")
  end.

(** The dispatched [debug] implementation of a value, if it has one. *)
Definition debug_target (m : Mem) (module : Module) (v : Value) : res Trap (option u32) :=
  ty ← dispatch_type_id m v;
  match ty with
  | Some ty => lift (dispatch_target module ty "debug")
  | None => Ok None
  end.

Fixpoint debug_value (fuel : nat) (call : Call_fn) (module : Module) (vm : Vm) (v : Value) :
    res Trap (Vm * string) :=
  match fuel with
  | O => NoFuel
  | S fuel' =>
      target ← debug_target (vm_mem vm) module v;
      match target with
      | Some func =>
          '(vm, ret) ← call vm (Z.to_nat func) [v];
          match ret with
          | Ref h =>
              r ← with_obj (vm_mem vm) h (λ obj,
                match obj with
                | Str s => Ok (vm, s)
                | _ => Err (bug "debug impl did not return a String")
                end);
              r
          | _ => Err (bug "debug impl did not return a String")
          end
      | None =>
          match v with
          | Int n => Ok (vm, pretty n)
          | Double x => Ok (vm, format_double f64_to_string x)
          | Bool b => Ok (vm, bool_to_string b)
          | Unit => Ok (vm, "()")
          | Ref h =>
              o ← clone_obj (vm_mem vm) h;
              debug_obj (debug_value fuel' call module) module vm o
          end
      end
  end.

Definition vm_alloc (vm : Vm) (o : Obj) : res Trap (Vm * Value) :=
  '(m, v) ← alloc (vm_mem vm) o; Ok (set_vm_mem vm m, v).

(** The fallback proper, under the pause. *)
Definition fallback_body (fuel : nat) (call : Call_fn) (module : Module) (vm : Vm)
    (selector : string) (args : list Value) : res Trap (Vm * Value) :=
  recv ← or_panic (head args);
  if bool_decide (selector = "to_string") then
    builtin ← has_builtin_display (vm_mem vm) recv;
    if builtin : bool then
      s ← display_string f64_to_string (vm_mem vm) recv;
      vm_alloc vm (Str s)
    else
      '(vm, s) ← debug_value fuel call module vm recv;
      vm_alloc vm (Str s)
  else if bool_decide (selector = "debug") then
    '(vm, s) ← debug_value fuel call module vm recv;
    vm_alloc vm (Str s)
  else if bool_decide (selector = "eq") then
    match args with
    | [a; b] => r ← values_eq fuel (mem_slots (vm_mem vm)) a b; Ok (vm, Bool r)
    | _ => Err (bug "call.virtual eq: expected 2 args")
    end
  else if bool_decide (selector = "compare") then
    match args with
    | [a; b] =>
        '(m, v) ← primitive_ordering value_debug (vm_mem vm) a b;
        Ok (set_vm_mem vm m, v)
    | _ => Err (bug "call.virtual compare: expected 2 args")
    end
  else
    Err (bug ("call.virtual: no impl of '" +:+ selector +:+ "' for the receiver's type")).

Definition virtual_fallback (fuel : nat) (call : Call_fn) (module : Module) (vm : Vm)
    (selector : string) (args : list Value) : res Trap (Vm * Value) :=
  '(vm, v) ← fallback_body fuel call module (set_vm_mem vm (pause_gc (vm_mem vm))) selector args;
  Ok (set_vm_mem vm (resume_gc (vm_mem vm)), v).

(** ** The loop and nested calls *)

Definition call_with (run : nat → Loop → res Trap (RunOutcome * Vm)) (module : Module) : Call_fn :=
  λ vm func args,
    '(vstack, frame) ← push_frame (vm_vstack vm) module func args;
    '(o, vm) ← run (length (vm_frames vm)) (mkLoop frame vstack (vm_frames vm) (vm_world vm));
    match o with
    | RDone value => Ok (vm, value)
    | RParked _ => Err (bug "fiber parked in a non-schedulable context")
    end.

Fixpoint run_loop (fuel : nat) (module : Module) (base_depth : nat) (l : Loop) :
    res Trap (RunOutcome * Vm) :=
  match fuel with
  | O => NoFuel
  | S fuel' =>
      let call := call_with (run_loop fuel' module) module in
      flow ← step (virtual_fallback fuel' call module) module base_depth l;
      match flow with
      | Continue l => run_loop fuel' module base_depth l
      | Exit o vm => Ok (o, vm)
      end
  end.

Definition call (fuel : nat) (module : Module) : Call_fn := call_with (run_loop fuel module) module.
End interp.
