(* ===== verification/InterpProofs.v ===== *)
(** * The interpreter cannot panic

    [loop_ok]: the heap is well formed, every value on the stack, in the globals, in
    the intern table and in the scheduler is live, and every frame names a function.
    A step from such a state gives such a state, or a [Trap], or exhausts fuel or
    memory; it never reads a dangling handle or an absent slot, so a collection at any
    safepoint is sound, and so is the structural fallback, whose values live outside
    the roots while collection is paused.  Natives and completion handlers are assumed
    to keep the same state ([native_ok], [finish_ok]). *)

From Stdlib Require Import ZArith Lia.
From stdpp Require Import base numbers list strings gmap pretty.
From S2P Require Import Prelude Bytes Float64 Instr ModuleTable Value Heap HeapProofs Trap.
From S2P Require Import Scheduler SchedulerProofs SchedulerSpec Render Interp.

Open Scope Z_scope.

Abbreviation live m v := (live_value (mem_slots m) v).
Abbreviation lives m vs := (Forall (live_value (mem_slots m)) vs).

(** ** Safety of binds *)

Lemma safe_and {E A} (P Q : A → Prop) (r : res E A) :
  safe P r → (∀ a, r = Ok a → Q a) → safe (λ a, P a ∧ Q a) r.
Proof. destruct r; cbn; auto. Qed.

Lemma safe_ok_or {E A} (P : A → Prop) (o : option A) (e : E) :
  (∀ a, o = Some a → P a) → safe P (ok_or o e).
Proof. destruct o; cbn; auto. Qed.

Lemma safe_or_panic {E A} (P : A → Prop) (o : option A) a :
  o = Some a → P a → safe (E := E) P (or_panic o).
Proof. by intros -> ?. Qed.

Lemma safe_join {E A} (P : A → Prop) (r : res E (res E A)) :
  safe (safe P) r → safe P (x ← r; x).
Proof. destruct r; cbn; auto. Qed.

(** What a step may do to memory: keep the pause count, and while it is not zero,
    every live value. *)
Definition mem_rel (m m' : Mem) : Prop :=
  GC_PAUSED m' = GC_PAUSED m ∧ (GC_PAUSED m ≠ 0 → keeps_live m m').

Lemma mem_rel_refl m : mem_rel m m.
Proof. split; [done|]. intros _. apply keeps_live_refl. Qed.

Lemma mem_rel_trans m1 m2 m3 : mem_rel m1 m2 → mem_rel m2 m3 → mem_rel m1 m3.
Proof.
  intros [H1 K1] [H2 K2]. split; [congruence|]. intros Hp.
  eapply keeps_live_trans; [by apply K1|]. apply K2. congruence.
Qed.

(** Comparing values to a depth of [fuel] reads no empty slot, if no value met at each
    depth leads to one. *)
Lemma values_eq_on (D : nat → Value → Prop) s :
  (∀ n k, D (S n) (Ref k) → ∃ o, s !! k = Some (Some o) ∧ Forall (D n) (for_each_child o)) →
  ∀ fuel a b, D fuel a → D fuel b → safe (E := Trap) (λ _, True) (values_eq fuel s a b).
Proof.
  intros HD. induction fuel as [|fuel IH]; intros a b Ha Hb; destruct a, b; try done; cbn [values_eq].
  { by destruct (Nat.eqb _ _). }
  destruct (Nat.eqb _ _); [done|].
  destruct (HD _ _ Ha) as (oa & Hoa & Hca), (HD _ _ Hb) as (ob & Hob & Hcb).
  unfold lookup_obj. rewrite Hoa, Hob. cbn [mbind res_bind].
  assert (∀ xs ys, Forall (D fuel) xs → Forall (D fuel) ys →
    safe (E := Trap) (λ _, True) (vec_eq (values_eq fuel s) xs ys)) as Hvec.
  { intros xs ys Hxs Hys. unfold vec_eq. destruct (Nat.eqb _ _); [|done].
    revert ys Hys. induction Hxs as [|x xs Hx Hxs IHx]; intros [|y ys] Hys; try done.
    apply Forall_cons in Hys as [Hy Hys]. cbn [all2].
    eapply safe_bind; [by apply IH|]. intros [] _; [by apply IHx|done]. }
  destruct oa, ob; try done; cbn [obj_eq for_each_child] in *; repeat case_match; try done; auto.
  unfold vec_eq. destruct (Nat.eqb _ _); [|done].
  remember (entries m0) as ys eqn:Hys. clear Hys. clear Hoa.
  revert ys Hcb. induction (entries m) as [|[k x] xs IHx]; intros [|[k' y] ys] Hcb; try done.
  cbn in Hca, Hcb. inversion Hca as [|? ? Hk Hca']. inversion Hca' as [|? ? Hx Hca2].
  inversion Hcb as [|? ? Hk' Hcb']. inversion Hcb' as [|? ? Hy Hcb2]. subst. cbn [all2].
  eapply (safe_bind (λ _, True)).
  - unfold pair_eq. cbn [fst snd]. eapply safe_bind; [by apply IH|]. intros [] _; [by apply IH|done].
  - intros [] _; [by apply IHx|done].
Qed.

Section helpers.
Context `{Sizes}.
Variable m : Mem.
Variable module : Module.
Hypothesis Hm : mem_wf m.

(** Reading an object whose handle is live. *)
Lemma with_obj_safe {R} h (g : Obj → R) (P : R → Prop) :
  live m (Ref h) →
  (∀ o, mem_slots m !! h = Some (Some o) → lives m (for_each_child o) → P (g o)) →
  safe (E := Trap) P (with_obj m h g).
Proof.
  intros [o Ho] HP. unfold with_obj, lookup_obj. rewrite Ho. cbn.
  apply HP; [done|]. by apply (wf_closed _ Hm h).
Qed.

Lemma type_error_safe {A} s v mo (P : A → Prop) : live m v → safe P (type_error m s v mo).
Proof.
  intros Hv. unfold type_error. eapply (safe_bind (λ _, True)); [|done].
  destruct v; cbn [value_type_name]; try done. by eapply with_obj_safe.
Qed.

Lemma pop_safe vs : lives m vs → safe (λ '(vs', v), lives m vs' ∧ live m v) (pop vs).
Proof.
  intros Hvs. apply safe_ok_or. intros [vs' v] Hp. apply vec_pop_Some in Hp. subst.
  apply Forall_app in Hvs as [? Hv]. by rewrite Forall_singleton in Hv.
Qed.

(** A pop of one kind of value: traps on another kind. *)
Ltac pop_kind :=
  eapply safe_bind; [by apply pop_safe|]; intros [vs' v] [Hvs' Hv];
  destruct v; try (by apply type_error_safe); try done.

Lemma pop_int_safe vs : lives m vs → safe (λ '(vs', _), lives m vs') (pop_int m module vs).
Proof. intros Hvs. unfold pop_int. pop_kind. Qed.

Lemma pop_double_safe vs : lives m vs → safe (λ '(vs', _), lives m vs') (pop_double m module vs).
Proof. intros Hvs. unfold pop_double. pop_kind. Qed.

Lemma pop_bool_safe vs : lives m vs → safe (λ '(vs', _), lives m vs') (pop_bool m module vs).
Proof. intros Hvs. unfold pop_bool. pop_kind. Qed.

Lemma pop_two_int_safe vs : lives m vs → safe (λ '(vs', _), lives m vs') (pop_two_int m module vs).
Proof.
  intros Hvs. unfold pop_two_int. eapply safe_bind; [by apply pop_int_safe|]. intros [vs1 b] Hvs1.
  eapply safe_bind; [by apply pop_int_safe|]. by intros [vs2 a] ?.
Qed.

Lemma pop_two_double_safe vs :
  lives m vs → safe (λ '(vs', _), lives m vs') (pop_two_double m module vs).
Proof.
  intros Hvs. unfold pop_two_double. eapply safe_bind; [by apply pop_double_safe|]. intros [vs1 b] Hvs1.
  eapply safe_bind; [by apply pop_double_safe|]. by intros [vs2 a] ?.
Qed.

Lemma lives_push vs v : lives m vs → live m v → lives m (push vs v).
Proof. intros. apply Forall_app. split; [done|]. by rewrite Forall_singleton. Qed.

Lemma cmp_int_safe vs f : lives m vs → safe (λ vs', lives m vs') (cmp_int m module vs f).
Proof.
  intros Hvs. eapply safe_bind; [by apply pop_two_int_safe|]. intros [vs' [a b]] ?. by apply lives_push.
Qed.

Lemma cmp_double_safe vs f : lives m vs → safe (λ vs', lives m vs') (cmp_double m module vs f).
Proof.
  intros Hvs. eapply safe_bind; [by apply pop_two_double_safe|]. intros [vs' [a b]] ?. by apply lives_push.
Qed.

Lemma lives_lookup vs i v : lives m vs → vs !! i = Some v → live m v.
Proof. intros Hvs Hi. rewrite Forall_forall in Hvs. apply Hvs. by eapply list_elem_of_lookup_2. Qed.

Lemma lives_last vs v : lives m vs → last vs = Some v → live m v.
Proof. intros Hvs [vs' ->]%last_Some. apply Forall_app in Hvs as [_ Hv]. by rewrite Forall_singleton in Hv. Qed.

Lemma closure_parts_safe v :
  live m v → safe (λ '(_, captures), lives m captures) (closure_parts m module v).
Proof.
  intros Hv. destruct v; try (by apply type_error_safe). cbn [closure_parts].
  apply safe_join, with_obj_safe; [done|]. by intros [] _ ?.
Qed.

Lemma pop_enum_variant_safe vs :
  lives m vs → safe (λ '(vs', _), lives m vs') (pop_enum_variant m module vs).
Proof.
  intros Hvs. unfold pop_enum_variant. pop_kind.
  apply safe_join, with_obj_safe; [done|]. by intros [] _ ?.
Qed.

Lemma enum_field_safe v i : live m v → safe (λ x, live m x) (enum_field m module v i).
Proof.
  intros Hv. destruct v; try (by apply type_error_safe). cbn [enum_field].
  apply safe_join, with_obj_safe; [done|]. intros [] _ Hc; try done.
  apply safe_ok_or. intros a Ha. by eapply lives_lookup.
Qed.

Lemma struct_field_safe v i mo : live m v → safe (λ x, live m x) (struct_field m v i mo).
Proof.
  intros Hv. destruct v; try (by apply type_error_safe). cbn [struct_field].
  apply safe_join, with_obj_safe; [done|]. intros [] _ Hc; try done.
  apply safe_ok_or. intros a Ha. by eapply lives_lookup.
Qed.

(** [items[checked_list_index(idx, items.len())?]] is in bounds. *)
Lemma checked_list_index_ok i len n : checked_list_index i len = Ok n → (n < len)%nat.
Proof.
  unfold checked_list_index. destruct (i <? 0); cbn; [done|].
  destruct (Z.leb_spec (Z.of_nat len) (as_u64 i)) as [|Hlt]; [done|]. intros [= <-].
  pose proof (as_unsigned_range 64 i ltac:(lia)) as [? ?]. lia.
Qed.

Lemma list_get_safe v i : live m v → safe (λ x, live m x) (list_get m module v i).
Proof.
  intros Hv. destruct v; try (by apply type_error_safe). cbn [list_get].
  apply safe_join, with_obj_safe; [done|]. intros [] _ Hc; try done.
  destruct (checked_list_index i (length items)) as [n| | |] eqn:Hn; cbn [mbind res_bind]; try done.
  - apply checked_list_index_ok in Hn as [x Hx]%lookup_lt_is_Some_2.
    eapply safe_or_panic; [done|]. by eapply lives_lookup.
  - unfold checked_list_index in Hn. by case_match.
Qed.

Lemma list_len_safe v : live m v → safe (λ _, True) (list_len m module v).
Proof.
  intros Hv. destruct v; try (by apply type_error_safe). cbn [list_len].
  apply safe_join, with_obj_safe; [done|]. by intros [] _ ?.
Qed.

(** An in-place write keeps the heap well formed and the live set. *)
Definition rewritten (m' : Mem) : Prop :=
  mem_wf m' ∧ mem_rel m m' ∧ keeps_live m m'.

Lemma try_write_safe h (g : Obj → res Trap Obj) :
  live m (Ref h) →
  (∀ o, mem_slots m !! h = Some (Some o) → lives m (for_each_child o) →
    safe (λ o', lives m (for_each_child o') ∧ ObjShape o') (g o)) →
  safe rewritten ('(m', r) ← with_obj_mut m h (λ obj, try_write obj (g obj)); _ ← (r : res Trap unit); Ok m').
Proof.
  intros [o Ho] Hg. specialize (Hg o Ho (wf_closed _ Hm h o Ho)).
  destruct (with_obj_mut_wf (E := Trap) m h (λ obj, try_write obj (g obj)) Hm) as (m' & r & Hok & Hwf & Hl).
  { by exists o. }
  { intros o2 Ho2. assert (o2 = o) as -> by congruence. pose proof (wf_closed _ Hm h o Ho).
    destruct (g o); cbn in *; try done. by destruct Hg. }
  { intros o2 Ho2 Hsh. assert (o2 = o) as -> by congruence. destruct (g o); cbn in *; try done. by destruct Hg. }
  rewrite Hok. cbn [mbind res_bind].
  unfold with_obj_mut, lookup_obj in Hok. rewrite Ho in Hok. cbn [mbind res_bind] in Hok.
  destruct (g o) as [o'| | |]; cbn in Hok, Hg; injection Hok as Hm' <-; cbn; try done.
  split_and!; [done| |by intros v ?%Hl]. split; [by rewrite <-Hm'|]. by intros _ v ?%Hl.
Qed.

Lemma set_struct_field_safe v i x :
  live m v → live m x → safe rewritten (set_struct_field m module v i x).
Proof.
  intros Hv Hx. destruct v; try (by apply type_error_safe). cbn [set_struct_field].
  apply try_write_safe; [done|]. intros [] _ Hc; try done.
  eapply (safe_bind (λ _, True)); [by apply safe_ok_or|]. intros _ _. split; [by apply Forall_insert|done].
Qed.

Lemma list_set_safe v i x :
  live m v → live m x → safe rewritten (list_set m module v i x).
Proof.
  intros Hv Hx. destruct v; try (by apply type_error_safe). cbn [list_set].
  apply try_write_safe; [done|]. intros [] _ Hc; try done.
  destruct (checked_list_index i (length items)) as [n| | |] eqn:Hn; cbn [mbind res_bind]; try done.
  - apply checked_list_index_ok in Hn as [y Hy]%lookup_lt_is_Some_2. rewrite Hy. cbn.
    split; [by apply Forall_insert|done].
  - unfold checked_list_index in Hn. by case_match.
Qed.

Lemma alloc_paused o m' v : alloc (E := Trap) m o = Ok (m', v) → GC_PAUSED m' = GC_PAUSED m.
Proof. intros Hok. unfold alloc in Hok. repeat case_match; by simplify_eq. Qed.

Lemma alloc_step o :
  ObjShape o → lives m (for_each_child o) →
  safe (λ '(m', v), mem_wf m' ∧ live m' v ∧ keeps_live m m' ∧ mem_rel m m') (alloc (E := Trap) m o).
Proof.
  intros Hsh Ho. pose proof (alloc_safe (E := Trap) m o Hm Ho) as Hs.
  destruct (alloc m o) as [[m' v]| | |] eqn:Hok; cbn in *; try done.
  destruct Hs as (? & ? & ?). split_and!; try done. split; [|done]. by eapply alloc_paused.
Qed.

Lemma intern_step s :
  safe (λ '(m', v), mem_wf m' ∧ live m' v ∧ keeps_live m m' ∧ mem_rel m m') (intern_str (E := Trap) m s).
Proof.
  pose proof (intern_str_safe (E := Trap) m s Hm) as Hs.
  destruct (intern_str m s) as [[m' v]| | |] eqn:Hok; cbn in *; try done.
  destruct Hs as (? & ? & ?). split_and!; try done. split; [|done].
  unfold intern_str in Hok. destruct (INTERN m !! s); [by simplify_eq|].
  apply bind_ok in Hok as ([m1 v1] & Hal%alloc_paused & [= <- <-]). done.
Qed.

Lemma dispatch_type_id_safe v : live m v → safe (λ _, True) (dispatch_type_id m v).
Proof. intros Hv. destruct v; try done. by apply with_obj_safe. Qed.

Lemma has_builtin_display_safe v : live m v → safe (λ _, True) (has_builtin_display m v).
Proof. intros Hv. destruct v; try done. by apply with_obj_safe. Qed.

Lemma display_string_safe fs v : live m v → safe (λ _, True) (display_string fs m v).
Proof.
  intros Hv. destruct v; try done. apply safe_join, with_obj_safe; [done|]. by intros [].
Qed.

Lemma str_contents_safe vd v : live m v → safe (λ _, True) (str_contents vd m v).
Proof.
  intros Hv. destruct v; try done. apply safe_join, with_obj_safe; [done|]. by intros [].
Qed.

Lemma primitive_cmp_safe vd a b : live m a → live m b → safe (λ _, True) (primitive_cmp vd m a b).
Proof.
  intros Ha Hb. destruct a, b; try done. cbn [primitive_cmp].
  eapply safe_bind; [by apply str_contents_safe|]. intros s _.
  eapply safe_bind; [by apply str_contents_safe|]. done.
Qed.

Lemma values_eq_safe fuel a b : live m a → live m b →
  safe (E := Trap) (λ _, True) (values_eq fuel (mem_slots m) a b).
Proof.
  apply (values_eq_on (λ _, live_value (mem_slots m))). intros n k [o Ho]. exists o. split; [done|].
  by apply (wf_closed _ Hm k).
Qed.
End helpers.

(** ** Well-formed worlds and loops *)

(** What the bytecode must satisfy for the loop never to panic: an in-sync dispatch
    index, and a receiver in every [call.virtual]. *)
Record module_safe (module : Module) : Prop := {
  safe_dispatch : dispatch_synced module;
  safe_dispatch_len : Z.of_nat (length (dispatch module)) ≤ 2 ^ 32;
  safe_receivers : ∀ f s n, f ∈ functions module → CallVirtual s n ∈ code f → 1 ≤ n;
}.

Definition frame_ok (module : Module) (f : Frame) : Prop := (func f < length (functions module))%nat.

(** What is known of the machine outside the heap: the fibers whose job is with the
    worker threads, the payloads these may still hand over for a fiber, the payloads a
    job may have, the states that are sane, those where the readiness poller exists, and
    which changes leave all this alone. *)
Record Outside (Job Payload Ext : Type) := mkOutside {
  inflight : Ext → list nat;
  owes : Ext → nat → Payload → Prop;
  answers : Job → Payload → Prop;
  sane : Ext → Prop;
  polling : Ext → Prop;
  kept : Ext → Ext → Prop;
  owes_inflight : ∀ e id p, owes e id p → id ∈ inflight e;
  kept_refl : ∀ e, kept e e;
  kept_trans : ∀ e1 e2 e3, kept e1 e2 → kept e2 e3 → kept e1 e3;
  kept_inflight : ∀ e e', kept e e' → inflight e' ≡ₚ inflight e;
  kept_owes : ∀ e e', kept e e' → ∀ id p, owes e' id p → owes e id p;
  kept_sane : ∀ e e', kept e e' → sane e → sane e';
  kept_polling : ∀ e e', kept e e' → polling e → polling e';
}.
Arguments mkOutside {_ _ _} _ _ _ _ _ _ _ _ _ _ _ _ _.
Arguments inflight {_ _ _} _ _.
Arguments owes {_ _ _} _ _ _ _.
Arguments answers {_ _ _} _ _ _.
Arguments sane {_ _ _} _ _.
Arguments polling {_ _ _} _ _.
Arguments kept {_ _ _} _ _ _.

Section world.
Context `{Sizes} {Job Payload Ext : Type}.
Variable outside : Outside Job Payload Ext.
Variable module : Module.

#[local] Abbreviation World := (World (Job := Job) (Payload := Payload) (Ext := Ext)).
#[local] Abbreviation Vm := (Vm (Job := Job) (Payload := Payload) (Ext := Ext)).
#[local] Abbreviation Loop := (Loop (Job := Job) (Payload := Payload) (Ext := Ext)).
#[local] Abbreviation Flow := (Flow (Job := Job) (Payload := Payload) (Ext := Ext)).

(** A completion handler given the payload [p] may allocate and change the outside; it
    keeps memory well formed and the other jobs. *)
Definition finish_ok (fin : IoFinish Payload Ext) (p : Payload) : Prop :=
  ∀ e m, sane outside e → mem_wf m →
  safe (λ '(e', m', v), kept outside e e' ∧ mem_wf m' ∧ live m' v ∧ keeps_live m m' ∧ mem_rel m m')
    (fin p e m).

(** The handler of a job takes every payload the job may have, and who waits on a socket
    has a poller to wait with. *)
Definition park_ok (e : Ext) (req : ParkRequest Job Payload Ext) : Prop :=
  match req with
  | Await job fin => ∀ p, answers outside job p → finish_ok fin p
  | Ready _ => polling outside e
  | Multi _ handles => handles ≠ [] → polling outside e
  | _ => True
  end.

(** The fibers' saved frames. *)
Definition fiber_ok (f : Fiber Payload Ext) : Prop :=
  match state f with Suspended _ frames => Forall (frame_ok module) frames | _ => True end.

(** The worker threads hold exactly the jobs of the fibers that await one, and each
    fiber's handler takes what they may hand over for it; while a fiber waits on a
    socket the poller exists. *)
Record io_ok (e : Ext) (fibers : list (Fiber Payload Ext)) (polls : gmap Z (list nat)) : Prop := {
  io_sane : sane outside e;
  io_polls : polls ≠ ∅ → polling outside e;
  io_nodup : NoDup (inflight outside e);
  io_pending : ∀ id, id ∈ inflight outside e ↔ ∃ f, fibers !! id = Some f ∧ is_pending f;
  io_finish : ∀ id fin, pending <$> fibers !! id = Some (Some fin) →
    ∀ p, owes outside e id p → finish_ok fin p;
}.

Record world_ok (cur : option nat) (w : World) : Prop := {
  wd_mem : mem_wf (w_mem w);
  wd_roots : lives (w_mem w) (gather_scheduler_roots (w_sched w));
  wd_sched : config_ok (w_sched w, cur);
  wd_fibers : Forall fiber_ok (fibers (w_sched w));
  wd_park : ∀ req, w_park w = Some req → park_ok (w_ext w) req;
  wd_io : io_ok (w_ext w) (fibers (w_sched w)) (poll_blocked (w_sched w));
}.

Record loop_ok (cur : option nat) (depth : nat) (l : Loop) : Prop := {
  lp_world : world_ok cur (l_world l);
  lp_park : w_park (l_world l) = None;
  lp_stack : lives (l_mem l) (l_vstack l);
  lp_frame : frame_ok module (l_frame l);
  lp_frames : Forall (frame_ok module) (l_frames l);
  lp_depth : (depth ≤ length (l_frames l))%nat;
}.

Record vm_ok (cur : option nat) (vm : Vm) : Prop := {
  vm_world_ok : world_ok cur (vm_world vm);
  vm_park_ok : w_park (vm_world vm) = None;
  vm_stack_ok : lives (w_mem (vm_world vm)) (vm_vstack vm);
  vm_frames_ok : Forall (frame_ok module) (vm_frames vm);
}.

(** How the loop may be left. *)
Definition outcome_ok (depth : nat) (o : RunOutcome) (vm : Vm) : Prop :=
  match o with
  | RDone v => live (w_mem (vm_world vm)) v ∧ length (vm_frames vm) = depth
  | RParked req => park_ok (w_ext (vm_world vm)) req ∧ ∀ job fin, req = Await job fin → vm_vstack vm ≠ []
  end.

Definition flow_ok (cur : option nat) (depth : nat) (m : Mem) (f : Flow) : Prop :=
  match f with
  | Continue l => loop_ok cur depth l ∧ mem_rel m (l_mem l)
  | Exit o vm => vm_ok cur vm ∧ outcome_ok depth o vm ∧ mem_rel m (w_mem (vm_world vm))
  end.

Definition native_ok (cur : option nat) (f : Native (Job := Job) (Payload := Payload) (Ext := Ext)) : Prop :=
  ∀ w args, world_ok cur w → w_park w = None → lives (w_mem w) args →
  safe (λ '(w', v), world_ok cur w' ∧ live (w_mem w') v ∧
    keeps_live (w_mem w) (w_mem w') ∧ mem_rel (w_mem w) (w_mem w')) (f w args).

Lemma world_ok_mem cur (w : World) m :
  world_ok cur w → mem_wf m → lives m (gather_scheduler_roots (w_sched w)) →
  world_ok cur (set_w_mem w m).
Proof. intros [Hm Hr Hs Hf Hp Hio] Hm' Hr'. constructor; done. Qed.

Lemma loop_ok_mem cur d (l : Loop) m :
  loop_ok cur d l → mem_wf m → keeps_live (l_mem l) m → loop_ok cur d (set_mem l m).
Proof.
  intros [Hw Hpk Hs Hf Hfs Hd] Hm Hk. constructor; try done.
  - apply world_ok_mem; [done|done|]. eapply keeps_live_Forall; [exact Hk|apply Hw].
  - cbn. by eapply keeps_live_Forall.
Qed.

Lemma loop_ok_stack cur d (l : Loop) vs :
  loop_ok cur d l → lives (l_mem l) vs → loop_ok cur d (set_vstack l vs).
Proof. intros [Hw Hpk Hs Hf Hfs Hd] Hvs. by constructor. Qed.

Lemma loop_ok_push cur d (l : Loop) v :
  loop_ok cur d l → live (l_mem l) v → loop_ok cur d (l_push l v).
Proof. intros Hl Hv. apply loop_ok_stack; [done|]. apply lives_push; [apply Hl|done]. Qed.

Lemma loop_ok_pc cur d (l : Loop) p : loop_ok cur d l → loop_ok cur d (set_pc l p).
Proof. intros [Hw Hpk Hs Hf Hfs Hd]. by constructor. Qed.

(** ** Safepoints and allocation *)

Lemma poll_gc_safe cur d (l : Loop) :
  loop_ok cur d l →
  safe (λ l', loop_ok cur d l' ∧ mem_rel (l_mem l) (l_mem l') ∧ l_vstack l' = l_vstack l ∧
    l_frames l' = l_frames l ∧ l_frame l' = l_frame l) (poll_gc l).
Proof.
  intros Hl. unfold poll_gc. destruct (should_collect (l_mem l)) eqn:Hsc.
  2:{ cbn. split_and!; [done|apply mem_rel_refl|done..]. }
  destruct (collect_wf (E := Trap) (l_mem l) (l_vstack l ++ gather_scheduler_roots (w_sched (l_world l))))
    as (m & -> & Hgc & Hwf & Hl').
  { apply Hl. }
  { apply Forall_app. split; apply Hl. }
  cbn [mbind res_bind]. destruct (over_ceiling m) as [[? ?]|]; [done|].
  apply Forall_app in Hl' as [Hvs Hroots]. cbn. split_and!; try done.
  - destruct Hl as [Hw Hpk Hs Hf Hfs Hd]. constructor; try done. by apply world_ok_mem.
  - destruct (gc_rest _ _ _ Hgc) as [Hpa _]. split; [done|]. intros Hn. exfalso. apply Hn.
    unfold should_collect in Hsc. apply andb_prop in Hsc as [_ Hz]. by apply Z.eqb_eq in Hz.
Qed.

Lemma push_alloc_safe cur d (l : Loop) o :
  ObjShape o → loop_ok cur d l → lives (l_mem l) (for_each_child o) →
  safe (λ l', loop_ok cur d l' ∧ mem_rel (l_mem l) (l_mem l')) (push_alloc l o).
Proof.
  intros Hsh Hl Ho. unfold push_alloc.
  eapply safe_bind; [by apply alloc_step; [apply Hl|..]|]. intros [m v] (Hm & Hv & Hk & Hr).
  cbn. split; [|done]. apply loop_ok_push; [|done]. by apply loop_ok_mem.
Qed.

Lemma split_args_safe (l : Loop) n msg :
  lives (l_mem l) (l_vstack l) →
  safe (λ '(vs, args), lives (l_mem l) vs ∧ lives (l_mem l) args) (split_args l n msg).
Proof.
  intros Hvs. unfold split_args. eapply (safe_bind (λ _, True)); [by apply safe_ok_or|].
  intros b _. split; [by apply Forall_take|by apply Forall_drop].
Qed.

(** ** The instruction groups *)

Definition same_kind (l l' : Loop) : Prop := mem_rel (l_mem l) (l_mem l').

Lemma keep_step cur d (l l' : Loop) :
  loop_ok cur d l' → l_mem l' = l_mem l → loop_ok cur d l' ∧ same_kind l l'.
Proof. intros Hl Hm. split; [done|]. unfold same_kind. rewrite Hm. apply mem_rel_refl. Qed.

(** A step after a safepoint. *)
Lemma after_gc cur d (l : Loop) (k : Loop → res Trap Loop) :
  loop_ok cur d l →
  (∀ l1, loop_ok cur d l1 → safe (λ l', loop_ok cur d l' ∧ same_kind l1 l') (k l1)) →
  safe (λ l', loop_ok cur d l' ∧ same_kind l l') (l ← poll_gc l; k l).
Proof.
  intros Hl Hk. eapply safe_bind; [by apply (poll_gc_safe cur d)|]. intros l1 (Hl1 & Hr1 & _).
  eapply safe_mono; [by apply Hk|]. intros l2 [? Hr2]. split; [done|]. by eapply mem_rel_trans.
Qed.

Lemma step_const_local_safe cur d (l : Loop) i :
  loop_ok cur d l →
  safe (λ l', loop_ok cur d l' ∧ same_kind l l') (step_const_local l i).
Proof.
  intros Hl. pose proof (wd_mem _ _ (lp_world _ _ _ Hl)) as Hm. pose proof (lp_stack _ _ _ Hl) as Hvs.
  destruct i; cbn [step_const_local]; try (apply keep_step; [|done]; try done; by apply loop_ok_push).
  - apply (after_gc cur d l); [done|]. intros l1 Hl1.
    eapply safe_bind; [apply intern_step, Hl1|]. intros [m v] (Hm1 & Hv & Hk & Hr). split; [|done].
    apply loop_ok_push; [|done]. by apply loop_ok_mem.
  - eapply safe_bind; [apply safe_ok_or; intros a Ha; exact (lives_lookup _ _ _ _ Hvs Ha)|].
    intros v Hv. apply keep_step; [|done]. by apply loop_ok_push.
  - eapply safe_bind; [by apply pop_safe|]. intros [vs v] [Hvs1 Hv].
    eapply (safe_bind (λ _, True)); [by apply safe_ok_or|]. intros _ _.
    apply keep_step; [|done]. apply loop_ok_stack; [done|]. by apply Forall_insert.
  - eapply safe_bind; [apply safe_ok_or; intros a Ha; refine (lives_lookup _ (GLOBALS (l_mem l)) _ _ _ Ha)|].
    + pose proof (wf_permanent _ Hm) as Hp. by apply Forall_app in Hp as [_ ?].
    + intros v Hv. apply keep_step; [|done]. by apply loop_ok_push.
  - eapply safe_bind; [by apply pop_safe|]. intros [vs v] [Hvs1 Hv].
    unfold global_set. destruct (GLOBALS (l_mem l) !! Z.to_nat idx) eqn:Hg; [|done].
    cbn [ok_or mbind res_bind]. split; [|split; [done|by intros _ ?]].
    apply loop_ok_mem; [by apply loop_ok_stack| |by intros ?].
    destruct Hm as [Hh Hc Hsh Hp]. constructor; [done..|]. cbn. unfold permanent_roots in *.
    apply Forall_app in Hp as [? ?]. apply Forall_app. split; [done|]. by apply Forall_insert.
Qed.

Lemma step_int_safe m vs i :
  mem_wf m → lives m vs → safe (λ vs', lives m vs') (step_int module m vs i).
Proof.
  intros Hm Hvs.
  assert (∀ f, safe (λ vs', lives m vs')
    ('(vs, (a, b)) ← pop_two_int m module vs; Ok (push vs (Int (f a b))))) as Hbin.
  { intros f. eapply safe_bind; [by apply pop_two_int_safe|]. intros [vs' [a b]] ?. by apply lives_push. }
  assert (∀ f, safe (λ vs', lives m vs')
    ('(vs, (a, b)) ← pop_two_int m module vs;
     if b =? 0 then Err DivByZero else Ok (push vs (Int (f a b))))) as Hdiv.
  { intros f. eapply safe_bind; [by apply pop_two_int_safe|]. intros [vs' [a b]] ?.
    destruct (b =? 0); [done|]. by apply lives_push. }
  assert (∀ f, safe (λ vs', lives m vs')
    ('(vs, a) ← pop_int m module vs; Ok (push vs (Int (f a))))) as Hun.
  { intros f. eapply safe_bind; [by apply pop_int_safe|]. intros [vs' a] ?. by apply lives_push. }
  destruct i; cbn [step_int]; try done; try apply Hbin; try apply Hdiv; try apply Hun;
    by apply cmp_int_safe.
Qed.

Lemma step_double_safe m vs i :
  mem_wf m → lives m vs → safe (λ vs', lives m vs') (step_double module m vs i).
Proof.
  intros Hm Hvs.
  assert (∀ f, safe (λ vs', lives m vs')
    ('(vs, (a, b)) ← pop_two_double m module vs; Ok (push vs (Double (f a b))))) as Hbin.
  { intros f. eapply safe_bind; [by apply pop_two_double_safe|]. intros [vs' [a b]] ?. by apply lives_push. }
  destruct i; cbn [step_double]; try done; try apply Hbin; try (by apply cmp_double_safe).
  eapply safe_bind; [by apply pop_double_safe|]. intros [vs' a] ?. by apply lives_push.
Qed.

Lemma step_stack_safe m vs i :
  mem_wf m → lives m vs → safe (λ vs', lives m vs') (step_stack module m vs i).
Proof.
  intros Hm Hvs. destruct i; cbn [step_stack]; try done.
  - eapply safe_bind; [by apply pop_bool_safe|]. intros [vs' b] ?. by apply lives_push.
  - eapply safe_bind; [by apply pop_int_safe|]. intros [vs' b] ?. by apply lives_push.
  - eapply safe_bind; [by apply pop_double_safe|]. intros [vs' b] ?. by apply lives_push.
  - eapply safe_bind; [by apply pop_safe|]. by intros [vs' b] [? _].
  - eapply safe_bind; [apply safe_ok_or; intros a Ha; exact (lives_last _ _ _ Hvs Ha)|].
    intros v Hv. by apply lives_push.
Qed.

(** An allocating instruction: split the fields off and push the new object. *)
Lemma build_safe cur d (l : Loop) n msg (mk : list Value → Obj) :
  (∀ vs, ObjShape (mk vs)) → loop_ok cur d l → (∀ vs, for_each_child (mk vs) = vs) →
  safe (λ l', loop_ok cur d l' ∧ same_kind l l')
    ('(vs, fields) ← split_args l n msg; push_alloc (set_vstack l vs) (mk fields)).
Proof.
  intros Hsh Hl Hmk. eapply safe_bind; [apply split_args_safe, Hl|]. intros [vs fields] [Hvs Hfs].
  apply push_alloc_safe; [done|by apply loop_ok_stack|]. by rewrite Hmk.
Qed.

(** A step that puts a value read from a popped object back on the stack. *)
Lemma read_safe cur d (l : Loop) vs (r : res Trap Value) :
  loop_ok cur d l → lives (l_mem l) vs → safe (λ x, live (l_mem l) x) r →
  safe (λ l', loop_ok cur d l' ∧ same_kind l l') (x ← r; Ok (set_vstack l (push vs x))).
Proof.
  intros Hl Hvs Hr. eapply safe_bind; [exact Hr|]. intros x Hx.
  apply keep_step; [|done]. apply loop_ok_stack; [done|]. by apply lives_push.
Qed.

Lemma write_safe cur d (l : Loop) vs (r : res Trap Mem) :
  loop_ok cur d l → lives (l_mem l) vs → safe (rewritten (l_mem l)) r →
  safe (λ l', loop_ok cur d l' ∧ same_kind l l') (m ← r; Ok (set_mem (set_vstack l vs) m)).
Proof.
  intros Hl Hvs Hr. eapply safe_bind; [exact Hr|]. intros m (Hm & Hrel & Hk).
  split; [|done]. apply loop_ok_mem; [by apply loop_ok_stack|done|done].
Qed.

Lemma step_object_safe cur d (l : Loop) i :
  loop_ok cur d l → safe (λ l', loop_ok cur d l' ∧ same_kind l l') (step_object module l i).
Proof.
  intros Hl. pose proof (wd_mem _ _ (lp_world _ _ _ Hl)) as Hm. pose proof (lp_stack _ _ _ Hl) as Hvs.
  destruct i; cbn [step_object]; try (by apply keep_step);
    try (apply (after_gc cur d l); [done|]; intros l1 Hl1; by apply build_safe).
  - eapply safe_bind; [by apply pop_enum_variant_safe|]. intros [vs v] Hvs1.
    apply keep_step; [|done]. apply loop_ok_stack; [done|]. by apply lives_push.
  - eapply safe_bind; [by apply pop_safe|]. intros [vs v] [Hvs1 Hv].
    apply read_safe; [done..|]. by apply enum_field_safe.
  - apply (after_gc cur d l); [done|]; intros l1 Hl1.
    eapply (safe_bind (λ _, True)); [by apply safe_ok_or|]. intros t _. by apply build_safe.
  - eapply safe_bind; [by apply pop_safe|]. intros [vs v] [Hvs1 Hv].
    apply read_safe; [done..|]. by apply struct_field_safe.
  - eapply safe_bind; [by apply pop_safe|]. intros [vs v] [Hvs1 Hv].
    eapply safe_bind; [by apply pop_safe|]. intros [vs2 o] [Hvs2 Ho].
    apply write_safe; [done..|]. by apply set_struct_field_safe.
  - eapply safe_bind; [by apply pop_int_safe|]. intros [vs n] Hvs1.
    eapply safe_bind; [by apply pop_safe|]. intros [vs2 o] [Hvs2 Ho].
    apply read_safe; [done..|]. by apply list_get_safe.
  - eapply safe_bind; [by apply pop_safe|]. intros [vs v] [Hvs1 Hv].
    eapply safe_bind; [by apply pop_int_safe|]. intros [vs1 n] Hvs2.
    eapply safe_bind; [by apply pop_safe|]. intros [vs2 o] [Hvs3 Ho].
    apply write_safe; [done..|]. by apply list_set_safe.
  - eapply safe_bind; [by apply pop_safe|]. intros [vs v] [Hvs1 Hv].
    eapply safe_bind; [by apply list_len_safe|]. intros n _.
    apply keep_step; [|done]. apply loop_ok_stack; [done|]. by apply lives_push.
Qed.

Lemma jump_safe cur d (l : Loop) t :
  loop_ok cur d l → safe (λ l', loop_ok cur d l' ∧ same_kind l l') (jump l t).
Proof.
  intros Hl. unfold jump. destruct (Nat.ltb _ _).
  - apply (after_gc cur d l); [done|]; intros l1 Hl1. apply keep_step; [|done]. by apply loop_ok_pc.
  - apply keep_step; [|done]. by apply loop_ok_pc.
Qed.

Lemma step_jump_safe cur d (l : Loop) i :
  loop_ok cur d l → safe (λ l', loop_ok cur d l' ∧ same_kind l l') (step_jump module l i).
Proof.
  intros Hl. pose proof (wd_mem _ _ (lp_world _ _ _ Hl)) as Hm. pose proof (lp_stack _ _ _ Hl) as Hvs.
  destruct i; cbn [step_jump]; try (by apply keep_step); [by apply jump_safe| |];
    (eapply safe_bind; [by apply pop_bool_safe|]; intros [vs b] Hvs1;
     assert (loop_ok cur d (set_vstack l vs)) by (by apply loop_ok_stack);
     destruct b; [|]; try (by apply keep_step); by apply (jump_safe cur d (set_vstack l vs))).
Qed.

(** ** Calls *)

Lemma enter_frame_safe m vs fn argc :
  lives m vs → safe (λ '(vs', f), lives m vs' ∧ frame_ok module f) (enter_frame vs module fn argc).
Proof.
  intros Hvs. unfold enter_frame. destruct (functions module !! fn) as [f|] eqn:Hf; [|done].
  cbn [ok_or mbind res_bind]. destruct (negb _); [done|].
  eapply (safe_bind (λ _, True)); [by apply safe_ok_or|]. intros b _. cbn [safe]. split.
  - unfold resize. apply Forall_app. split; [by apply Forall_take|]. by apply Forall_replicate.
  - unfold frame_ok. cbn. by apply lookup_lt_Some in Hf.
Qed.

Lemma push_frame_safe m vs fn args :
  lives m vs → lives m args →
  safe (λ '(vs', f), lives m vs' ∧ frame_ok module f) (push_frame vs module fn args).
Proof. intros Hvs Ha. apply enter_frame_safe. by apply Forall_app. Qed.

Lemma frame_code f : frame_ok module f → ∃ fn, functions module !! func f = Some fn.
Proof. intros Hf. by apply lookup_lt_is_Some_2 in Hf as [? ?]; eauto. Qed.

Lemma enter_call_safe cur d (l : Loop) callee :
  loop_ok cur d l → frame_ok module callee →
  safe (flow_ok cur d (l_mem l)) (enter_call l module callee).
Proof.
  intros [Hw Hpk Hs Hf Hfs Hd] Hc. unfold enter_call. destruct (Nat.leb _ _); [done|].
  destruct (frame_code callee Hc) as [fn ->]. cbn. split; [|apply mem_rel_refl].
  constructor; try done; cbn.
  - apply Forall_app. split; [done|]. by rewrite Forall_singleton.
  - unfold push. rewrite length_app. cbn. lia.
Qed.

Lemma call_function_safe cur d (l : Loop) fn argc :
  loop_ok cur d l → safe (flow_ok cur d (l_mem l)) (call_function l module fn argc).
Proof.
  intros Hl. unfold call_function. eapply safe_bind; [apply enter_frame_safe, Hl|].
  intros [vs f] [Hvs Hf]. apply (enter_call_safe cur d (set_vstack l vs)); [|done]. by apply loop_ok_stack.
Qed.

(** A control transfer after a safepoint. *)
Lemma after_gc_flow cur d (l : Loop) (k : Loop → res Trap Flow) :
  loop_ok cur d l →
  (∀ l1, loop_ok cur d l1 → safe (flow_ok cur d (l_mem l1)) (k l1)) →
  safe (flow_ok cur d (l_mem l)) (l ← poll_gc l; k l).
Proof.
  intros Hl Hk. eapply safe_bind; [by apply (poll_gc_safe cur d)|]. intros l1 (Hl1 & Hr1 & _).
  eapply safe_mono; [by apply Hk|]. intros [l2|o vm]; cbn.
  - intros [? ?]. split; [done|]. by eapply mem_rel_trans.
  - intros (? & ? & ?). split_and!; [done|done|]. by eapply mem_rel_trans.
Qed.

Lemma step_call_safe cur d (l : Loop) fn argc :
  loop_ok cur d l → safe (flow_ok cur d (l_mem l)) (step_call module l fn argc).
Proof. intros Hl. apply after_gc_flow; [done|]. intros. by apply call_function_safe. Qed.

Lemma step_call_indirect_safe cur d (l : Loop) argc :
  loop_ok cur d l → safe (flow_ok cur d (l_mem l)) (step_call_indirect module l argc).
Proof.
  intros Hl. apply after_gc_flow; [done|]. clear l Hl. intros l Hl.
  pose proof (lp_stack _ _ _ Hl) as Hvs.
  unfold checked_sub. destruct (Nat.leb_spec (Z.to_nat argc + 1) (length (l_vstack l))); [|done].
  cbn [ok_or mbind res_bind].
  destruct (lookup_lt_is_Some_2 (l_vstack l) (length (l_vstack l) - (Z.to_nat argc + 1))) as [c Hc]; [lia|].
  rewrite Hc. cbn [or_panic mbind res_bind].
  eapply safe_bind; [apply (closure_parts_safe (l_mem l)); [apply Hl|by eapply lives_lookup]|].
  intros [fn captures] Hcap. apply (call_function_safe cur d (set_vstack l _)).
  apply loop_ok_stack; [done|]. rewrite !Forall_app. split_and!; [by apply Forall_take|done|by apply Forall_drop].
Qed.

Lemma world_ok_unpark cur (w : World) : world_ok cur w → world_ok cur (set_w_park w None).
Proof. intros [Hm Hr Hs Hf Hp Hio]. by constructor. Qed.

(** The module's code calls the native at this index. *)
Definition native_called (i : u32) : Prop := ∃ f argc, f ∈ functions module ∧ CallNative i argc ∈ code f.

(** Every native the module's code can call keeps the world well formed. *)
Definition calls_ok (cur : option nat) (natives : list Native) : Prop :=
  ∀ i f, native_called i → natives !! Z.to_nat i = Some f → native_ok cur f.

Lemma Forall_calls_ok cur natives : Forall (native_ok cur) natives → calls_ok cur natives.
Proof. intros Hn i f _ Hf. by eapply Forall_lookup_1. Qed.

Lemma step_call_native_safe natives cur d (l : Loop) n argc :
  (∀ f, natives !! Z.to_nat n = Some f → native_ok cur f) → loop_ok cur d l →
  safe (flow_ok cur d (l_mem l)) (step_call_native natives l n argc).
Proof.
  intros Hnat Hl. apply after_gc_flow; [done|]. clear l Hl. intros l Hl.
  eapply (safe_bind (λ _, True)); [by apply safe_ok_or|]. intros b _.
  eapply safe_bind.
  { apply safe_ok_or. exact Hnat. }
  intros f Hf. destruct Hl as [Hw Hpk Hs Hfr Hfs Hd].
  eapply safe_bind; [apply Hf; [done|done|by apply Forall_drop]|].
  intros [w ret] (Hw' & Hret & Hk & Hrel). cbn zeta.
  assert (lives (w_mem w) (l_vstack l)) as Hvs by by eapply keeps_live_Forall.
  assert (lives (w_mem w) (push (truncate b (l_vstack l)) ret)) as Hans.
  { apply lives_push; [by apply Forall_take|done]. }
  assert (∀ p, Forall (frame_ok module) (push (l_frames l) (mkFrame (func (l_frame l)) p (base (l_frame l))))) as Hall.
  { intros p. apply Forall_app. split; [done|]. by rewrite Forall_singleton. }
  assert (Forall (frame_ok module) (push (l_frames l) (l_frame l))) as Hall0.
  { destruct (l_frame l) as [fn p b0]. apply (Hall p). }
  pose proof (world_ok_unpark _ _ Hw') as Hw2.
  destruct (w_park w) as [req|] eqn:Hp; [|split; [by constructor|done]].
  pose proof (wd_park _ _ Hw' req Hp) as Hreq.
  assert (push (truncate b (l_vstack l)) ret ≠ []) as Hne.
  { unfold push. intros Heq%(f_equal length). rewrite length_app in Heq. cbn in Heq. lia. }
  destruct req; (split; [constructor; try done; apply Hall|]); (split; [|exact Hrel]); (split; [exact Hreq|]); by intros ? ?.
Qed.

Lemma step_return_safe cur d (l : Loop) :
  loop_ok cur d l → safe (flow_ok cur d (l_mem l)) (step_return module d l).
Proof.
  intros [Hw Hpk Hs Hf Hfs Hd]. unfold step_return. destruct (frame_code _ Hf) as [fn ->].
  cbn [or_panic mbind res_bind].
  assert (live (l_mem l) (if Nat.ltb (base (l_frame l) + Z.to_nat (local_count fn)) (length (l_vstack l))
    then default Unit (last (l_vstack l)) else Unit)) as Hv.
  { destruct (Nat.ltb _ _); [|done]. destruct (last (l_vstack l)) eqn:Hl; [|done].
    by apply (lives_last _ _ _ Hs). }
  assert (lives (l_mem l) (truncate (base (l_frame l)) (l_vstack l))) as Ht by by apply Forall_take.
  destruct (Nat.eqb_spec (length (l_frames l)) d) as [Heq|Hne].
  - cbn. split_and!; [by constructor|done|done|apply mem_rel_refl].
  - destruct (vec_pop (l_frames l)) as [[fs f]|] eqn:Hp.
    2:{ apply vec_pop_None in Hp. rewrite Hp in *. cbn in *. lia. }
    apply vec_pop_Some in Hp. rewrite Hp in Hfs, Hd, Hne. apply Forall_app in Hfs as [Hfs Hf2].
    rewrite Forall_singleton in Hf2. destruct (frame_code _ Hf2) as [fn2 Hfn2].
    cbn [or_panic mbind res_bind]. rewrite Hfn2. cbn [or_panic mbind res_bind safe].
    split; [|apply mem_rel_refl]. constructor; try done.
    + by apply lives_push.
    + cbn. rewrite length_app in Hd, Hne. cbn in *. lia.
Qed.

(** ** The fallback *)

(** A stretch of nested execution: the frames keep their depth, and nothing live dies
    while collection is paused. *)
Definition vm_next (cur : option nat) (vm vm' : Vm) : Prop :=
  vm_ok cur vm' ∧ length (vm_frames vm') = length (vm_frames vm) ∧ mem_rel (vm_mem vm) (vm_mem vm').

Definition paused (m : Mem) : Prop := GC_PAUSED m ≠ 0.

(** The pause counter cannot wrap within the fuel. *)
Definition pause_room (fuel : nat) (m : Mem) : Prop :=
  0 ≤ GC_PAUSED m ∧ GC_PAUSED m + Z.of_nat fuel < 2 ^ 64.

Lemma vm_next_refl cur vm : vm_ok cur vm → vm_next cur vm vm.
Proof. intros. split_and!; [done|done|apply mem_rel_refl]. Qed.

Lemma vm_next_trans cur vm1 vm2 vm3 : vm_next cur vm1 vm2 → vm_next cur vm2 vm3 → vm_next cur vm1 vm3.
Proof.
  intros (? & L1 & R1) (? & L2 & R2). split_and!; [done|congruence|]. by eapply mem_rel_trans.
Qed.

Lemma vm_next_paused cur vm vm' : vm_next cur vm vm' → paused (vm_mem vm) → paused (vm_mem vm').
Proof. intros (_ & _ & Hp & _). unfold paused. by rewrite Hp. Qed.

Lemma vm_next_room cur k vm vm' : vm_next cur vm vm' → pause_room k (vm_mem vm) → pause_room k (vm_mem vm').
Proof. intros (_ & _ & Hp & _). unfold pause_room. by rewrite Hp. Qed.

Lemma vm_next_live cur vm vm' v :
  vm_next cur vm vm' → paused (vm_mem vm) → live (vm_mem vm) v → live (vm_mem vm') v.
Proof. intros (_ & _ & _ & Hk) Hp. by apply Hk. Qed.

Lemma vm_next_lives cur vm vm' vs :
  vm_next cur vm vm' → paused (vm_mem vm) → lives (vm_mem vm) vs → lives (vm_mem vm') vs.
Proof. intros (_ & _ & _ & Hk) Hp. apply keeps_live_Forall. by apply Hk. Qed.

Definition call_ok (cur : option nat) (k : nat) (call : Call_fn) : Prop :=
  ∀ vm fn args, vm_ok cur vm → pause_room k (vm_mem vm) → lives (vm_mem vm) args →
  safe (λ '(vm', v), vm_next cur vm vm' ∧ live (vm_mem vm') v) (call vm fn args).

Lemma vm_mem_wf cur vm : vm_ok cur vm → mem_wf (vm_mem vm).
Proof. intros Hvm. apply Hvm. Qed.

Lemma vm_ok_mem cur (vm : Vm) m :
  vm_ok cur vm → mem_wf m → keeps_live (vm_mem vm) m → vm_ok cur (set_vm_mem vm m).
Proof.
  intros [Hw Hpk Hs Hf] Hm Hk. constructor; try done.
  - apply world_ok_mem; [done|done|]. eapply keeps_live_Forall; [exact Hk|apply Hw].
  - cbn. by eapply keeps_live_Forall.
Qed.

Lemma vm_next_mem cur (vm : Vm) m :
  vm_ok cur vm → mem_wf m → keeps_live (vm_mem vm) m → mem_rel (vm_mem vm) m →
  vm_next cur vm (set_vm_mem vm m).
Proof. intros. split_and!; [by apply vm_ok_mem|done|done]. Qed.

Lemma vm_alloc_safe cur (vm0 vm : Vm) s :
  vm_next cur vm0 vm →
  safe (λ '(vm', v), vm_next cur vm0 vm' ∧ live (vm_mem vm') v) (vm_alloc vm (Str s)).
Proof.
  intros Hn. pose proof (proj1 Hn) as Hvm. unfold vm_alloc.
  eapply safe_bind; [apply alloc_step; [by eapply vm_mem_wf|done|by apply Forall_nil]|].
  intros [m v] (Hm & Hv & Hk & Hr). split; [|done].
  eapply vm_next_trans; [done|]. by apply vm_next_mem.
Qed.

Lemma lift_dispatch ty sel : module_safe module → ∃ t, lift (dispatch_target module ty sel) = Ok t.
Proof. intros [Hs Hl _]. rewrite dispatch_target_flat by done. cbn. eauto. Qed.

Lemma debug_target_safe m v :
  module_safe module → mem_wf m → live m v → safe (λ _, True) (debug_target m module v).
Proof.
  intros Hms Hm Hv. eapply safe_bind; [by apply dispatch_type_id_safe|]. intros [ty|] _; [|done].
  destruct (lift_dispatch ty "debug" Hms) as [t ->]. done.
Qed.

(** Rendering values one after another, from a state where all of them are live. *)
Definition dbg_ok (cur : option nat) (k : nat) (dbg : Vm → Value → res Trap (Vm * string)) : Prop :=
  ∀ vm v, vm_ok cur vm → paused (vm_mem vm) → pause_room k (vm_mem vm) → live (vm_mem vm) v →
  safe (λ '(vm', _), vm_next cur vm vm') (dbg vm v).

Lemma debug_items_safe cur k dbg items : ∀ vm,
  dbg_ok cur k dbg → vm_ok cur vm → paused (vm_mem vm) → pause_room k (vm_mem vm) →
  lives (vm_mem vm) items → safe (λ '(vm', _), vm_next cur vm vm') (debug_items dbg vm items).
Proof.
  induction items as [|v items IH]; intros vm Hd Hvm Hp Hr Hl; cbn [debug_items]; [by apply vm_next_refl|].
  apply Forall_cons in Hl as [Hv Hl]. eapply safe_bind; [by apply Hd|]. intros [vm1 s] Hn1.
  eapply safe_bind.
  { apply IH; [done|apply Hn1|by eapply vm_next_paused|by eapply vm_next_room|by eapply vm_next_lives]. }
  intros [vm2 ss] Hn2. by eapply vm_next_trans.
Qed.

Lemma debug_entries_safe cur k dbg es : ∀ vm,
  dbg_ok cur k dbg → vm_ok cur vm → paused (vm_mem vm) → pause_room k (vm_mem vm) →
  lives (vm_mem vm) (es ≫= λ '(k, v), [k; v]) →
  safe (λ '(vm', _), vm_next cur vm vm') (debug_entries dbg vm es).
Proof.
  induction es as [|[x v] es IH]; intros vm Hd Hvm Hp Hr Hl; cbn [debug_entries]; [by apply vm_next_refl|].
  cbn in Hl. apply Forall_cons in Hl as [Hx Hl]. apply Forall_cons in Hl as [Hv Hl].
  eapply safe_bind; [by apply Hd|]. intros [vm1 s1] Hn1.
  eapply safe_bind.
  { apply Hd; [apply Hn1|by eapply vm_next_paused|by eapply vm_next_room|by eapply vm_next_live]. }
  intros [vm2 s2] Hn2'. assert (vm_next cur vm vm2) as Hn2 by by eapply vm_next_trans.
  eapply safe_bind.
  { apply IH; [done|apply Hn2|by eapply vm_next_paused|by eapply vm_next_room|by eapply vm_next_lives]. }
  intros [vm3 ss] Hn3. by eapply vm_next_trans.
Qed.

Lemma debug_list_safe cur k dbg items vm :
  dbg_ok cur k dbg → vm_ok cur vm → paused (vm_mem vm) → pause_room k (vm_mem vm) →
  lives (vm_mem vm) items → safe (λ '(vm', _), vm_next cur vm vm') (debug_list dbg vm items).
Proof.
  intros. eapply safe_bind; [by eapply debug_items_safe|]. by intros [vm' parts] ?.
Qed.

Lemma debug_obj_safe cur k dbg vm o :
  dbg_ok cur k dbg → vm_ok cur vm → paused (vm_mem vm) → pause_room k (vm_mem vm) →
  lives (vm_mem vm) (for_each_child o) →
  safe (λ '(vm', _), vm_next cur vm vm') (debug_obj dbg module vm o).
Proof.
  intros Hd Hvm Hp Hr Hl. pose proof (vm_next_refl _ _ Hvm).
  assert (∀ items g, lives (vm_mem vm) items → safe (λ '(vm', _), vm_next cur vm vm')
    ('(vm, s) ← debug_list dbg vm items; Ok (vm, g s : string))) as Hlist.
  { intros items g Hi. eapply safe_bind; [by eapply debug_list_safe|]. by intros [vm' s] ?. }
  destruct o; cbn [debug_obj for_each_child] in *; try done.
  - by apply Hlist.
  - destruct (Nat.eqb _ _); [done|]. eapply safe_bind; [by eapply debug_entries_safe|]. by intros [vm' s] ?.
  - destruct fields as [|f0 fields]; [done|].
    match goal with |- safe _ (match ?x with _ => _ end) => destruct x end; [|by apply Hlist].
    eapply safe_bind; [by eapply debug_items_safe|]. by intros [vm' s] ?.
  - destruct fields as [|f0 fields]; [done|]. by apply Hlist.
Qed.

Lemma debug_value_safe fs cur k fuel call :
  module_safe module → call_ok cur k call → dbg_ok cur k (debug_value fs fuel call module).
Proof.
  intros Hms Hc. induction fuel as [|fuel IH]; intros vm v Hvm Hp Hr Hv; cbn [debug_value]; [done|].
  pose proof (vm_mem_wf _ _ Hvm) as Hm.
  eapply safe_bind; [by apply debug_target_safe|]. intros [fn|] _.
  - eapply safe_bind; [apply Hc; [done|done|by constructor]|]. intros [vm' ret] [Hn Hret].
    destruct ret; try done. apply safe_join, with_obj_safe; [eapply vm_mem_wf, Hn|done|].
    by intros [] _ _.
  - pose proof (vm_next_refl _ _ Hvm). destruct v as [| | | |h]; try done.
    destruct Hv as [o Ho]. unfold clone_obj, lookup_obj. rewrite Ho. cbn [mbind res_bind].
    eapply debug_obj_safe; [done..|]. by apply (wf_closed _ Hm h).
Qed.

Lemma fallback_body_safe fs vd cur k fuel call vm sel args :
  module_safe module → call_ok cur k call → vm_ok cur vm → paused (vm_mem vm) →
  pause_room k (vm_mem vm) → lives (vm_mem vm) args → args ≠ [] →
  safe (λ '(vm', v), vm_next cur vm vm' ∧ live (vm_mem vm') v)
    (fallback_body fs vd fuel call module vm sel args).
Proof.
  intros Hms Hc Hvm Hp Hr Hl Hne. pose proof (vm_mem_wf _ _ Hvm) as Hm.
  pose proof (vm_next_refl _ _ Hvm) as Hn. unfold fallback_body.
  destruct args as [|recv rest]; [done|]. apply Forall_cons in Hl as [Hrecv Hrest].
  cbn [head or_panic mbind res_bind].
  assert (safe (λ '(vm', v), vm_next cur vm vm' ∧ live (vm_mem vm') v)
    ('(vm, s) ← debug_value fs fuel call module vm recv; vm_alloc vm (Str s))) as Hdbg.
  { eapply safe_bind; [by eapply debug_value_safe|]. intros [vm1 s] Hn1. by eapply vm_alloc_safe. }
  repeat case_bool_decide; try done.
  - eapply safe_bind; [by apply has_builtin_display_safe|]. intros [] _; [|done].
    eapply safe_bind; [by apply display_string_safe|]. intros s _. by apply vm_alloc_safe.
  - destruct rest as [|b [|? ?]]; try done. apply Forall_cons in Hrest as [Hb _].
    eapply safe_bind; [by apply values_eq_safe|]. intros r _. done.
  - destruct rest as [|b [|? ?]]; try done. apply Forall_cons in Hrest as [Hb _].
    eapply safe_bind.
    { unfold primitive_ordering. eapply safe_bind; [by apply primitive_cmp_safe|]. intros o _.
      apply alloc_step; [done|done|]. cbn. by apply Forall_nil. }
    intros [m v] (Hm' & Hv & Hk & Hrel). split; [|done]. by apply vm_next_mem.
Qed.

Lemma mem_wf_pause m : mem_wf m → mem_wf (pause_gc m).
Proof. intros [? ? ?]. by constructor. Qed.

Lemma mem_wf_resume m : mem_wf m → mem_wf (resume_gc m).
Proof. intros [? ? ?]. by constructor. Qed.

(** The pause brackets the fallback: nothing live before it dies. *)
Lemma virtual_fallback_safe fs vd cur k fuel call vm sel args :
  module_safe module → call_ok cur k call → vm_ok cur vm →
  pause_room (S k) (vm_mem vm) → lives (vm_mem vm) args → args ≠ [] →
  safe (λ '(vm', v), vm_next cur vm vm' ∧ live (vm_mem vm') v ∧ keeps_live (vm_mem vm) (vm_mem vm'))
    (virtual_fallback fs vd fuel call module vm sel args).
Proof.
  intros Hms Hc Hvm [Hr0 Hr] Hl Hne. unfold virtual_fallback.
  assert (GC_PAUSED (pause_gc (vm_mem vm)) = GC_PAUSED (vm_mem vm) + 1) as Hpa.
  { cbn. apply as_unsigned_id. unfold in_unsigned. lia. }
  set (vm0 := set_vm_mem vm (pause_gc (vm_mem vm))).
  assert (vm_ok cur vm0) as Hvm0.
  { apply vm_ok_mem; [done|by apply mem_wf_pause, vm_mem_wf with cur|by intros ?]. }
  eapply safe_bind.
  { eapply (fallback_body_safe fs vd cur k fuel call vm0 sel args); try done.
    - unfold paused. change (vm_mem vm0) with (pause_gc (vm_mem vm)). lia.
    - unfold pause_room. change (vm_mem vm0) with (pause_gc (vm_mem vm)). lia. }
  intros [vm' v] [(Hvm' & Hlen & Hpa' & Hk) Hv].
  change (vm_mem vm0) with (pause_gc (vm_mem vm)) in *.
  assert (keeps_live (vm_mem vm) (vm_mem vm')) as Hkl.
  { intros x Hx. apply Hk; [lia|exact Hx]. }
  assert (GC_PAUSED (resume_gc (vm_mem vm')) = GC_PAUSED (vm_mem vm)) as Hres.
  { cbn [resume_gc GC_PAUSED]. rewrite Hpa', Hpa. rewrite as_unsigned_id; [lia|]. unfold in_unsigned. lia. }
  split_and!; [|exact Hv|exact Hkl]. split_and!.
  - apply vm_ok_mem; [done|by apply mem_wf_resume, vm_mem_wf with cur|by intros ?].
  - exact Hlen.
  - split; [exact Hres|]. intros _. exact Hkl.
Qed.

Definition fallback_ok (cur : option nat)
    (fallback : Vm → string → list Value → res Trap (Vm * Value)) (k : nat) : Prop :=
  ∀ vm sel args, vm_ok cur vm → pause_room k (vm_mem vm) → lives (vm_mem vm) args → args ≠ [] →
  safe (λ '(vm', v), vm_next cur vm vm' ∧ live (vm_mem vm') v ∧ keeps_live (vm_mem vm) (vm_mem vm'))
    (fallback vm sel args).

Lemma step_call_virtual_safe fallback k cur d (l : Loop) sel argc :
  module_safe module → fallback_ok cur fallback k → pause_room k (l_mem l) → loop_ok cur d l →
  1 ≤ argc →
  safe (flow_ok cur d (l_mem l)) (step_call_virtual fallback module l sel argc).
Proof.
  intros Hms Hfb Hroom Hl Hargc. unfold step_call_virtual.
  eapply safe_bind; [by apply (poll_gc_safe cur d)|]. intros l1 (Hl1 & Hr1 & _).
  assert (pause_room k (l_mem l1)) as Hroom1 by (unfold pause_room; by rewrite (proj1 Hr1)).
  apply (safe_mono (flow_ok cur d (l_mem l1))).
  2:{ intros [l2|o vm]; cbn.
      - intros [? ?]. split; [done|]. by eapply mem_rel_trans.
      - intros (? & ? & ?). split_and!; [done|done|]. by eapply mem_rel_trans. }
  clear l Hroom Hl Hr1. rename l1 into l, Hl1 into Hl, Hroom1 into Hroom.
  pose proof (lp_stack _ _ _ Hl) as Hvs. pose proof (wd_mem _ _ (lp_world _ _ _ Hl)) as Hm.
  unfold checked_sub. destruct (Nat.leb_spec (Z.to_nat argc) (length (l_vstack l))); [|done].
  cbn [ok_or mbind res_bind]. set (b := (length (l_vstack l) - Z.to_nat argc)%nat).
  destruct (lookup_lt_is_Some_2 (l_vstack l) b) as [recv Hrecv]; [unfold b; lia|].
  rewrite Hrecv. cbn [or_panic mbind res_bind].
  eapply safe_bind; [apply (dispatch_type_id_safe (l_mem l)); [done|by eapply lives_lookup]|].
  intros ty _. eapply (safe_bind (λ _, True)).
  { destruct ty as [ty|]; [|done]. by destruct (lift_dispatch ty sel Hms) as [t ->]. }
  intros [fn|] _; [by apply call_function_safe|].
  eapply safe_bind.
  { apply Hfb.
    - destruct Hl as [Hw Hpk Hs Hf Hfs Hd]. constructor; try done. by apply Forall_take.
    - exact Hroom.
    - by apply Forall_drop.
    - intros Hnil%(f_equal length). rewrite length_drop in Hnil. cbn in Hnil. unfold b in Hnil. lia. }
  intros [vm ret] ((Hvm & Hlen & Hrel) & Hret & Hk). cbn. split; [|done].
  destruct Hvm as [Hw Hpk Hs Hf]. destruct Hl as [_ _ _ Hfr _ Hd]. constructor; try done.
  - by apply lives_push.
  - cbn in Hlen. cbn. lia.
Qed.

(** ** One iteration *)

Lemma continue_safe cur d (l : Loop) (r : res Trap Loop) :
  safe (λ l', loop_ok cur d l' ∧ same_kind l l') r →
  safe (flow_ok cur d (l_mem l)) (l' ← r; Ok (Continue l')).
Proof. intros Hr. eapply safe_bind; [exact Hr|]. done. Qed.

Lemma on_stack_safe cur d (l : Loop) (r : res Trap (list Value)) :
  loop_ok cur d l → safe (λ vs, lives (l_mem l) vs) r →
  safe (flow_ok cur d (l_mem l)) (vs ← r; Ok (Continue (set_vstack l vs))).
Proof.
  intros Hl Hr. eapply safe_bind; [exact Hr|]. intros vs Hvs.
  split; [by apply loop_ok_stack|apply mem_rel_refl].
Qed.

Lemma step_safe natives fallback k cur d (l : Loop) :
  module_safe module → calls_ok cur natives → fallback_ok cur fallback k →
  pause_room k (l_mem l) → loop_ok cur d l →
  safe (flow_ok cur d (l_mem l)) (step natives fallback module d l).
Proof.
  intros Hms Hnat Hfb Hroom Hl. unfold step.
  destruct (frame_code _ (lp_frame _ _ _ Hl)) as [f Hf]. rewrite Hf. cbn [or_panic mbind res_bind].
  destruct (code f !! pc (l_frame l)) as [i|] eqn:Hi; [|done]. cbn [ok_or mbind res_bind].
  set (l1 := set_pc l (pc (l_frame l) + 1)). change (l_mem l) with (l_mem l1) in *.
  assert (loop_ok cur d l1) as Hl1 by by apply loop_ok_pc.
  pose proof (wd_mem _ _ (lp_world _ _ _ Hl1)) as Hm. pose proof (lp_stack _ _ _ Hl1) as Hvs.
  destruct i;
    first [ apply continue_safe; first [by apply step_const_local_safe | by apply step_object_safe
                                      | by apply step_jump_safe]
          | apply on_stack_safe; [done|]; first [by apply step_int_safe | by apply step_double_safe
                                               | by apply step_stack_safe]
          | by apply step_call_safe | by apply step_call_indirect_safe
          | by apply step_return_safe | idtac ].
  - apply step_call_native_safe; [|done]. intros g. apply Hnat. exists f, argc.
    split; by eapply list_elem_of_lookup_2.
  - apply (step_call_virtual_safe fallback k); try done.
    apply (safe_receivers _ Hms f selector); by eapply list_elem_of_lookup_2.
Qed.

(** ** Running *)

Lemma call_with_safe cur k run :
  (∀ d l, loop_ok cur d l → pause_room k (l_mem l) →
    safe (λ '(o, vm), vm_ok cur vm ∧ outcome_ok d o vm ∧ mem_rel (l_mem l) (vm_mem vm)) (run d l)) →
  call_ok cur k (call_with run module).
Proof.
  intros Hrun vm fn args [Hw Hpk Hs Hf] Hroom Hargs. unfold call_with.
  eapply safe_bind; [by apply (push_frame_safe (vm_mem vm))|]. intros [vs fr] [Hvs Hfr].
  eapply safe_bind.
  { apply Hrun; [by constructor|exact Hroom]. }
  intros [o vm'] (Hvm' & Ho & Hrel). destruct o as [v|req]; [|done]. destruct Ho as [Hv Hlen].
  split; [|done]. by split_and!.
Qed.

Lemma pause_room_S k m : pause_room (S k) m → pause_room k m.
Proof. unfold pause_room. lia. Qed.

Lemma run_loop_safe fs vd natives cur fuel :
  module_safe module → calls_ok cur natives →
  ∀ d l, loop_ok cur d l → pause_room fuel (l_mem l) →
  safe (λ '(o, vm), vm_ok cur vm ∧ outcome_ok d o vm ∧ mem_rel (l_mem l) (vm_mem vm))
    (run_loop fs vd natives fuel module d l).
Proof.
  intros Hms Hnat. induction fuel as [|k IH]; intros d l Hl Hroom; cbn [run_loop]; [done|].
  eapply safe_bind.
  { eapply (step_safe natives _ (S k)); try done.
    intros vm sel args Hvm Hr Hargs Hne. apply (virtual_fallback_safe fs vd cur k); try done.
    by apply call_with_safe. }
  intros [l'|o vm]; cbn.
  - intros [Hl' Hrel]. eapply safe_mono.
    + apply IH; [done|]. apply pause_room_S. unfold pause_room. by rewrite (proj1 Hrel).
    + intros [o vm] (? & ? & ?). split_and!; [done|done|]. by eapply mem_rel_trans.
  - by intros (? & ? & ?).
Qed.
End world.
