(* ===== verification/Driver.v ===== *)
(** * The scheduler driver (src/runtime/src/interp/mod.rs)

    [Vm::run]: the main fiber, the switch between fibers at each park or completion,
    and the idle loop that waits for the outside when nothing is ready.  [Machine] is
    the outside: the clock, the operating system's readiness poll and the worker
    threads' completion queue, each a function on the rest of the machine's state.
    Durations and instants are integers. *)

From Stdlib Require Import ZArith Lia.
From stdpp Require Import base numbers list strings gmap pretty.
From S2P Require Import Prelude Bytes Float64 Instr ModuleTable Value Heap Trap Scheduler.
From S2P Require Import Render Interp.

Open Scope Z_scope.

(** The operating system and the threads, as the driver meets them. *)
Record Machine (Job Payload Ext : Type) := mkMachine {
  now : Ext → Ext * Instant;
  sleep : Ext → Z → Ext;
  submit : Ext → nat → Job → Ext;
  poll_wait : Ext → option Z → Ext * res Trap (list i64);
  await_completions : Ext → option Z → Ext * res Trap (list (nat * Payload));
  drain_completions : Ext → Ext * list (nat * Payload);
  reset : Ext → Ext;
}.
Arguments now {_ _ _} _ _.
Arguments sleep {_ _ _} _ _ _.
Arguments submit {_ _ _} _ _ _ _.
Arguments poll_wait {_ _ _} _ _ _.
Arguments await_completions {_ _ _} _ _ _.
Arguments drain_completions {_ _ _} _ _.
Arguments reset {_ _ _} _ _.

Section driver.
Context `{Sizes} {Job Payload Ext : Type}.
Variable f64_to_string : f64 → string.
Variable value_debug : Value → string.
Variable natives : list (Native (Job := Job) (Payload := Payload) (Ext := Ext)).
Variable machine : Machine Job Payload Ext.

#[local] Abbreviation World := (World (Job := Job) (Payload := Payload) (Ext := Ext)).
#[local] Abbreviation Vm := (Vm (Job := Job) (Payload := Payload) (Ext := Ext)).
#[local] Abbreviation Loop := (Loop (Job := Job) (Payload := Payload) (Ext := Ext)).

Definition set_w_ext (w : World) (e : Ext) : World :=
  mkWorld (w_mem w) (w_sched w) (w_park w) (w_out w) e.

Definition read_clock (w : World) : World * Instant :=
  let (e, t) := now machine (w_ext w) in (set_w_ext w e, t).

(** ** Switching fibers *)

(** The frames, the value stack and the world of a run between fibers. *)
Definition next_ready (module : Module) (vm : Vm) : res Trap (option (nat * Loop)) :=
  popped ← dequeue (w_sched (vm_world vm));
  match popped with
  | None => Ok None
  | Some (s, id, st) =>
      let w := set_w_sched (vm_world vm) s in
      match st with
      | NotStarted closure =>
          '(func, locals) ← closure_parts (w_mem w) module closure;
          '(vstack, active) ← push_frame (vm_vstack vm) module (Z.to_nat func) locals;
          Ok (Some (id, mkLoop active vstack (vm_frames vm) w))
      | Suspended vstack frames =>
          '(frames, active) ← ok_or (vec_pop frames) (bug "resumed a fiber with an empty stack");
          Ok (Some (id, mkLoop active vstack frames w))
      | Running | Done _ => Err (bug "scheduled a running or finished fiber")
      end
  end.

(** ** Waiting *)

Fixpoint deliver_completions (w : World) (completions : list (nat * Payload)) : res Trap World :=
  match completions with
  | [] => Ok w
  | (fiber_id, payload) :: rest =>
      '(s, finish) ← take_pending (w_sched w) fiber_id;
      '(e, m, value) ← (finish : IoFinish Payload Ext) payload (w_ext w) (w_mem w);
      s ← deliver s fiber_id value;
      deliver_completions (set_w_sched (set_w_mem (set_w_ext w e) m) s) rest
  end.

Fixpoint wake_handles (s : Scheduler Payload Ext) (handles : list i64) : res Trap (Scheduler Payload Ext) :=
  match handles with
  | [] => Ok s
  | h :: handles' => s ← wake_poll s h; wake_handles s handles'
  end.

Definition wake_timers (w : World) : res Trap World :=
  let (w, t) := read_clock w in
  '(s, _) ← wake_due_timers (w_sched w) t;
  Ok (set_w_sched w s).

Definition saturating_duration (deadline t : Instant) : Z := Z.max 0 (deadline - t).

(** One round of the idle loop with nothing ready: wait on what can still make
    progress, or report that nothing can. *)
Definition idle (w : World) : res Trap (option World) :=
  let deadline := earliest_deadline (w_sched w) in
  let io_pending := 0 <? io_blocked (w_sched w) in
  let poll_pending := negb (bool_decide (poll_blocked (w_sched w) = ∅)) in
  let (w, timeout) :=
    match deadline with
    | Some d => let (w, t) := read_clock w in (w, Some (saturating_duration d t))
    | None => (w, None)
    end in
  if poll_pending then
    let (e, polled) := poll_wait machine (w_ext w) timeout in
    let w := set_w_ext w e in
    handles ← (polled : res Trap (list i64));
    s ← wake_handles (w_sched w) handles;
    let w := set_w_sched w s in
    let (e, completions) := drain_completions machine (w_ext w) in
    w ← deliver_completions (set_w_ext w e) completions;
    w ← wake_timers w;
    Ok (Some w)
  else if io_pending then
    let (e, completions) := await_completions machine (w_ext w) timeout in
    completions ← (completions : res Trap (list (nat * Payload)));
    w ← deliver_completions (set_w_ext w e) completions;
    w ← wake_timers w;
    Ok (Some w)
  else
    match deadline with
    | Some d =>
        let (w, t) := read_clock w in
        let w := if t <? d then set_w_ext w (sleep machine (w_ext w) (d - t)) else w in
        w ← wake_timers w;
        Ok (Some w)
    | None => Ok None
    end.

Inductive Pick := Switch (id : nat) (l : Loop) | Stop (w : World) (v : Value).

(** The inner loop of [drive]: find a fiber to run. *)
Fixpoint pick (fuel : nat) (module : Module) (vm : Vm) : res Trap Pick :=
  match fuel with
  | O => NoFuel
  | S fuel' =>
      next ← next_ready module vm;
      match next with
      | Some (id, l) => Ok (Switch id l)
      | None =>
          waited ← idle (vm_world vm);
          match waited with
          | Some w => pick fuel' module (mkVm (vm_frames vm) (vm_vstack vm) w)
          | None =>
              if negb (bool_decide (blocked (w_sched (vm_world vm)) = []))
              then Err (bug "all fibers blocked (deadlock)")
              else Ok (Stop (vm_world vm) Unit)
          end
      end
  end.

(** A fiber's completion or park, recorded in the scheduler. *)
Definition finish_fiber (vm : Vm) (id : nat) (v : Value) : res Trap Vm :=
  s ← complete (w_sched (vm_world vm)) id v;
  Ok (mkVm (vm_frames vm) (vm_vstack vm) (set_w_sched (vm_world vm) s)).

Definition park_fiber (vm : Vm) (id : nat) (req : ParkRequest Job Payload Ext) : res Trap Vm :=
  let w := vm_world vm in
  match req with
  | Await job finish =>
      s ← park_io (w_sched w) id (vm_vstack vm) (vm_frames vm) finish;
      Ok (mkVm [] [] (set_w_ext (set_w_sched w s) (submit machine (w_ext w) id job)))
  | other =>
      s ← park (w_sched w) id (vm_vstack vm) (vm_frames vm) other;
      Ok (mkVm [] [] (set_w_sched w s))
  end.

Fixpoint drive_loop (fuel : nat) (module : Module) (current : nat) (active : Loop) :
    res Trap (World * Value) :=
  match fuel with
  | O => NoFuel
  | S fuel' =>
      '(o, vm) ← run_loop f64_to_string value_debug natives fuel' module 0 active;
      '(vm, result) ←
        match o with
        | RDone value =>
            vm ← finish_fiber vm current value;
            Ok (vm, if Nat.eqb current MAIN_FIBER then Some value else None)
        | RParked req => vm ← park_fiber vm current req; Ok (vm, None)
        end;
      match result with
      | Some value => Ok (vm_world vm, value)
      | None =>
          next ← pick fuel' module vm;
          match next with
          | Switch id l => drive_loop fuel' module id l
          | Stop w v => Ok (w, v)
          end
      end
  end.

Definition drive (fuel : nat) (module : Module) (vm : Vm) (func : nat) (args : list Value) :
    res Trap (World * Value) :=
  '(vstack, active) ← push_frame (vm_vstack vm) module func args;
  drive_loop fuel module MAIN_FIBER (mkLoop active vstack (vm_frames vm) (vm_world vm)).

(** [Vm::new(..).run(module, func, args)]: the scheduler is fresh, and afterwards it
    and the machine's pool, poller and sockets are reset. *)
Definition run (fuel : nat) (module : Module) (w : World) (func : nat) (args : list Value) :
    res Trap (World * Value) :=
  '(w, v) ← drive fuel module (mkVm [] [] (set_w_sched w Scheduler_main)) func args;
  Ok (set_w_ext (set_w_sched w Scheduler_new) (reset machine (w_ext w)), v).

(** Allocate the globals and run the init thunk, if the module has one. *)
Definition init_module (fuel : nat) (module : Module) (w : World) : res Trap World :=
  let w := set_w_mem w (set_globals (w_mem w) (Z.to_nat (global_count module))) in
  match init_index module with
  | Some idx => '(w, _) ← run fuel module w idx []; Ok w
  | None => Ok w
  end.

(** Evaluate a bare instruction stream as the only function of a module; its output is
    discarded.  The counts are truncated to [u16]. *)
Definition eval_module (code : list Instr) (locals : nat) : Module :=
  let n := as_u16 (Z.of_nat locals) in Module_new [Function_new "<eval>" n n code].

Definition eval (fuel : nat) (w : World) (code : list Instr) (locals : list Value) : res Trap (World * Value) :=
  '(vm, v) ← call f64_to_string value_debug natives fuel (eval_module code (length locals)) (mkVm [] [] w) 0%nat locals;
  let w' := vm_world vm in
  Ok (mkWorld (w_mem w') (w_sched w') (w_park w') (w_out w) (w_ext w'), v).
End driver.
