(* ===== verification/DriverProofs.v ===== *)
(** * A whole run cannot panic

    The scheduler's invariant, the interpreter's, and the worker threads' account of
    the jobs in flight fit together: a run of any function of a well-formed module,
    from any well-formed heap, ends in a value or a trap (or exhausts its fuel or the
    machine's memory) and never panics.  [machine_ok] is what the threads guarantee:
    each submitted job is completed at most once, under the id it was submitted
    with. *)

From Stdlib Require Import ZArith Lia.
From stdpp Require Import base numbers list strings gmap relations pretty.
From S2P Require Import Prelude Bytes Float64 Instr ModuleTable Value Heap HeapProofs Trap.
From S2P Require Import Scheduler SchedulerProofs SchedulerSpec Render Interp InterpProofs Driver.

Open Scope Z_scope.

(** The completions [cs] were among the jobs of [e] and are no longer among those of
    [e']. *)
Definition handed_over {Job Payload Ext : Type} (outside : Outside Job Payload Ext) (e : Ext)
    (cs : list (nat * Payload)) (e' : Ext) : Prop :=
  cs.*1 ++ inflight outside e' ≡ₚ inflight outside e ∧
  (∀ c, c ∈ cs → owes outside e c.1 c.2) ∧ (∀ id p, owes outside e' id p → owes outside e id p) ∧
  (sane outside e → sane outside e') ∧ (polling outside e → polling outside e').

Record machine_ok {Job Payload Ext : Type} (outside : Outside Job Payload Ext)
    (machine : Machine Job Payload Ext) : Prop := {
  mk_now : ∀ e, kept outside e (now machine e).1;
  mk_sleep : ∀ e t, kept outside e (sleep machine e t);
  mk_submit : ∀ e id job, inflight outside (submit machine e id job) ≡ₚ id :: inflight outside e;
  mk_owes : ∀ e id job id' p, owes outside (submit machine e id job) id' p →
    owes outside e id' p ∨ id' = id ∧ answers outside job p;
  mk_sane : ∀ e id job, sane outside e → sane outside (submit machine e id job);
  mk_polling : ∀ e id job, polling outside e → polling outside (submit machine e id job);
  mk_poll : ∀ e t, kept outside e (poll_wait machine e t).1;
  mk_poll_safe : ∀ e t, sane outside e → polling outside e → safe (λ _, True) (poll_wait machine e t).2;
  mk_await : ∀ e t, sane outside e → inflight outside e ≠ [] →
    safe (λ cs, handed_over outside e cs (await_completions machine e t).1) (await_completions machine e t).2;
  mk_drain : ∀ e, handed_over outside e (drain_completions machine e).2 (drain_completions machine e).1;
  mk_reset : ∀ e, inflight outside (reset machine e) = [];
  mk_reset_sane : ∀ e, sane outside e → sane outside (reset machine e);
}.

(** ** What a scheduler operation leaves of the fibers *)

Section sched.
Context {Payload Ext : Type} (R : Prop).
Implicit Types s : Scheduler Payload Ext.

(** The channels and the completion handlers stay; a state is an old one or satisfies
    [Q]; a fiber comes to wait on a socket only if [R]. *)
Record sched_rel (Q : FiberState → Prop) s s' : Prop := {
  sr_channels : channels s' = channels s;
  sr_pending : ∀ k, pending <$> fibers s' !! k = pending <$> fibers s !! k;
  sr_state : ∀ k st, state <$> fibers s' !! k = Some st → Q st ∨ state <$> fibers s !! k = Some st;
  sr_polls : poll_blocked s' ≠ ∅ → R ∨ poll_blocked s ≠ ∅;
}.

Lemma sched_rel_refl Q s : sched_rel Q s s.
Proof. constructor; auto. Qed.

Lemma sched_rel_trans Q s1 s2 s3 : sched_rel Q s1 s2 → sched_rel Q s2 s3 → sched_rel Q s1 s3.
Proof.
  intros [C1 P1 S1 B1] [C2 P2 S2 B2]. constructor; [congruence|intros k; by rewrite P2| |].
  - intros k st [?|?]%S2; auto.
  - intros [?|?]%B2; auto.
Qed.

Lemma sched_rel_polls Q s s' :
  fibers s' = fibers s → channels s' = channels s →
  (poll_blocked s' ≠ ∅ → R ∨ poll_blocked s ≠ ∅) → sched_rel Q s s'.
Proof. intros Hf Hc Hp. constructor; [done|by rewrite Hf|rewrite Hf; auto|done]. Qed.

Lemma sched_rel_lists Q s s' :
  fibers s' = fibers s → channels s' = channels s → poll_blocked s' = poll_blocked s → sched_rel Q s s'.
Proof. intros Hf Hc Hp. apply sched_rel_polls; [done|done|]. rewrite Hp. by right. Qed.

Lemma upd_fiber_rel Q s id g s' :
  upd_fiber s id g = Ok s' → (∀ f, pending (g f) = pending f) →
  (∀ f, fibers s !! id = Some f → Q (state (g f)) ∨ state (g f) = state f) → sched_rel Q s s'.
Proof.
  unfold upd_fiber. intros (f & Hf%or_panic_ok & [= <-])%bind_ok Hp Hq.
  pose proof (lookup_lt_Some _ _ _ Hf) as Hlt. constructor; [done| | |by right]; cbn.
  - intros k. destruct (decide (k = id)) as [->|]; [|by rewrite list_lookup_insert_ne].
    rewrite list_lookup_insert_eq, Hf by done. cbn. by rewrite Hp.
  - intros k st. destruct (decide (k = id)) as [->|]; [|rewrite list_lookup_insert_ne by done; auto].
    rewrite list_lookup_insert_eq, Hf by done. cbn. intros [= <-].
    destruct (Hq f Hf) as [?| ->]; auto.
Qed.

Lemma make_ready_rel Q s id s' : make_ready s id = Ok s' → sched_rel Q s s'.
Proof.
  unfold make_ready. intros (f & _ & H)%bind_ok. destruct (queued f).
  - injection H as <-. apply sched_rel_refl.
  - apply bind_ok in H as (s1 & H1 & [= <-]).
    eapply sched_rel_trans; [by eapply upd_fiber_rel; eauto|]. by apply sched_rel_lists.
Qed.

Lemma make_ready_all_rel Q ids : ∀ s s', make_ready_all s ids = Ok s' → sched_rel Q s s'.
Proof.
  induction ids as [|id ids IH]; intros s s'; cbn [make_ready_all].
  - intros [= <-]. apply sched_rel_refl.
  - intros (s1 & H1 & H2)%bind_ok. eapply sched_rel_trans; [by eapply make_ready_rel|by apply IH].
Qed.

Lemma wake_all_rel Q s s' : wake_all s = Ok s' → sched_rel Q s s'.
Proof.
  intros Hw. eapply sched_rel_trans; [by apply (sched_rel_lists Q s (set_blocked s []))|].
  by eapply make_ready_all_rel.
Qed.

Lemma wake_poll_rel Q s h s' : wake_poll s h = Ok s' → sched_rel Q s s'.
Proof.
  unfold wake_poll. destruct (poll_blocked s !! h) as [ws|].
  - intros Hw. eapply sched_rel_trans; [|by eapply make_ready_all_rel]. apply sched_rel_polls; [done|done|].
    cbn. intros Hd. right. intros He. apply Hd. by rewrite He, delete_empty.
  - intros [= <-]. apply sched_rel_refl.
Qed.

Lemma wake_due_rel Q s t s' b : wake_due_timers s t = Ok (s', b) → sched_rel Q s s'.
Proof.
  unfold wake_due_timers. intros (s1 & H1 & [= <- _])%bind_ok.
  eapply sched_rel_trans; [|by eapply make_ready_all_rel]. by apply sched_rel_lists.
Qed.

Lemma complete_rel (Q : FiberState → Prop) s id v s' :
  Q (Done v) → complete s id v = Ok s' → sched_rel Q s s'.
Proof.
  intros HQ (s1 & H1 & H2)%bind_ok. eapply sched_rel_trans; [|by eapply wake_all_rel].
  eapply upd_fiber_rel; [done|done|]. by left.
Qed.

Lemma park_rel {Job} (Q : FiberState → Prop) s id vs fs (req : ParkRequest Job Payload Ext) s' :
  (match req with Ready _ => R | Multi _ handles => handles ≠ [] → R | _ => True end) →
  Q (Suspended vs fs) → park s id vs fs req = Ok s' → sched_rel Q s s'.
Proof.
  intros HR HQ (s1 & H1 & H2)%bind_ok. eapply sched_rel_trans.
  { eapply upd_fiber_rel; [done|done|]. by left. }
  destruct req; try (injection H2 as <-; first [by apply sched_rel_lists|by apply sched_rel_polls; [..|left]]);
    [by eapply make_ready_rel|done|].
  eapply sched_rel_trans; [|eapply upd_fiber_rel; [exact H2|done|by right]].
  destruct handles as [|h hs]; [by destruct deadline; apply sched_rel_lists|].
  assert R as HR' by by apply HR.
  destruct deadline; (apply sched_rel_polls; [done|done|intros _; by left]).
Qed.

(** Dropping a fiber's entries adds none. *)
Lemma poll_drops_empty id hs : foldl (poll_drop id) ∅ hs = ∅.
Proof. induction hs as [|h hs IH]; [done|]. cbn [foldl]. unfold poll_drop at 2. by rewrite lookup_empty. Qed.

Lemma unlist_rel Q s id s' : unlist s id = Ok s' → sched_rel Q s s'.
Proof.
  unfold unlist. intros (f & _ & H)%bind_ok. destruct (park_sources f) as [ps|].
  - apply bind_ok in H as (s1 & H1 & [= <-]).
    eapply sched_rel_trans; [eapply upd_fiber_rel; [exact H1|done|by right]|].
    apply sched_rel_polls; [by destruct (timer ps)..|]. cbn. intros Hd. right. intros He. apply Hd.
    destruct (timer ps); cbn [poll_blocked set_timers set_blocked]; rewrite He; apply poll_drops_empty.
  - injection H as <-. apply sched_rel_refl.
Qed.

Lemma dequeue_rel (Q : FiberState → Prop) s s' id st :
  Q Running → dequeue s = Ok (Some (s', id, st)) →
  sched_rel Q s s' ∧ state <$> fibers s !! id = Some st.
Proof.
  intros HQ. unfold dequeue. destruct (ready s) as [|i rest]; [done|].
  intros (s1 & H1 & H)%bind_ok. apply bind_ok in H as (s2 & H2 & H).
  apply bind_ok in H as (f & Hf%or_panic_ok & H). apply bind_ok in H as (s3 & H3 & [= <- <- <-]).
  assert (sched_rel (λ _, False) s s2) as [_ _ Hst _].
  { eapply sched_rel_trans; [by apply (sched_rel_lists _ s (set_ready s rest))|].
    eapply sched_rel_trans; [eapply upd_fiber_rel; [exact H1|done|by right]|]. by eapply unlist_rel. }
  split.
  - eapply sched_rel_trans; [by apply (sched_rel_lists _ s (set_ready s rest))|].
    eapply sched_rel_trans; [eapply upd_fiber_rel; [exact H1|done|by right]|].
    eapply sched_rel_trans; [by eapply unlist_rel|]. eapply upd_fiber_rel; [exact H3|done|]. by left.
  - destruct (Hst i (state f)) as [[]|?]; [by rewrite Hf|done].
Qed.
End sched.

(** ** The world between fibers *)

Section driver.
Context `{Sizes} {Job Payload Ext : Type}.
Variable f64_to_string : f64 → string.
Variable value_debug : Value → string.
Variable natives : list (Native (Job := Job) (Payload := Payload) (Ext := Ext)).
Variable machine : Machine Job Payload Ext.
Variable outside : Outside Job Payload Ext.
Variable module : Module.
Hypothesis Hmachine : machine_ok outside machine.

#[local] Abbreviation World := (World (Job := Job) (Payload := Payload) (Ext := Ext)).
#[local] Abbreviation Vm := (Vm (Job := Job) (Payload := Payload) (Ext := Ext)).
#[local] Abbreviation Loop := (Loop (Job := Job) (Payload := Payload) (Ext := Ext)).

Definition state_roots (st : FiberState) : list Value :=
  match st with NotStarted c => [c] | Done v => [v] | Suspended vs _ => vs | Running => [] end.

Definition state_ok (m : Mem) (st : FiberState) : Prop :=
  lives m (state_roots st) ∧
  match st with Suspended _ frames => Forall (frame_ok module) frames | _ => True end.

Lemma roots_ok m (s : Scheduler Payload Ext) :
  lives m (gather_scheduler_roots s) ↔
  (∀ k st, state <$> fibers s !! k = Some st → lives m (state_roots st)) ∧
  Forall (λ c, lives m (buffer c)) (channels s).
Proof.
  unfold gather_scheduler_roots. rewrite Forall_app, !Forall_bind. split; intros [H1 H2]; split; try done.
  - intros k st (f & Hf & ->)%fmap_Some.
    rewrite Forall_lookup in H1. by apply (H1 k f).
  - apply Forall_lookup. intros k f Hf. apply (H1 k (state f)). by rewrite Hf.
Qed.

Lemma world_state inf cur (w : World) k st :
  world_ok inf module cur w → state <$> fibers (w_sched w) !! k = Some st → state_ok (w_mem w) st.
Proof.
  intros Hw Hk. pose proof (wd_roots _ _ _ _ Hw) as [Hr _]%roots_ok. split; [by eapply Hr|].
  apply fmap_Some in Hk as (f & Hf & ->). pose proof (wd_fibers _ _ _ _ Hw) as Hfs.
  rewrite Forall_lookup in Hfs. exact (Hfs k f Hf).
Qed.

Lemma pending_iff (s s' : Scheduler Payload Ext) id :
  (∀ k, pending <$> fibers s' !! k = pending <$> fibers s !! k) →
  (∃ f, fibers s' !! id = Some f ∧ is_pending f) ↔ (∃ f, fibers s !! id = Some f ∧ is_pending f).
Proof.
  assert (∀ t : Scheduler Payload Ext, (∃ f, fibers t !! id = Some f ∧ is_pending f) ↔
    ∃ p, pending <$> fibers t !! id = Some p ∧ is_Some p) as Hiff.
  { intros t. split.
    - intros (f & Hf & Hp). exists (pending f). by rewrite Hf.
    - intros (p & (f & Hf & ->)%fmap_Some & Hp). eauto. }
  intros Hp. by rewrite !Hiff, Hp.
Qed.

(** The world under a scheduler operation, in memory that may have grown. *)
Lemma world_sched inf cur cur' (w : World) s' :
  world_ok inf module cur w → sched_rel (polling inf (w_ext w)) (state_ok (w_mem w)) (w_sched w) s' →
  config_ok (s', cur') → world_ok inf module cur' (set_w_sched w s').
Proof.
  intros Hw [Hc Hp Hs Hpoll] Hcfg.
  assert (∀ k st, state <$> fibers s' !! k = Some st → state_ok (w_mem w) st) as Hst.
  { intros k st Hk. destruct (Hs k st Hk) as [?|?]; [done|]. by eapply world_state. }
  constructor; cbn; try done; try apply Hw.
  - apply roots_ok. split; [intros k st Hk; by eapply Hst|]. rewrite Hc.
    by pose proof (wd_roots _ _ _ _ Hw) as [_ ?]%roots_ok.
  - apply Forall_lookup. intros k f Hf. apply (Hst k (state f)). by rewrite Hf.
  - destruct (wd_io _ _ _ _ Hw) as [Hsane Hpo Hnd Hio Hfin]. split; [done| |done| |].
    + intros [?|?]%Hpoll; auto.
    + intros id. rewrite Hio. symmetry. by apply pending_iff.
    + intros id fin Hid. apply Hfin. by rewrite <-Hp.
Qed.

Lemma park_ok_kept inf e e' (req : ParkRequest Job Payload Ext) :
  kept inf e e' → park_ok inf e req → park_ok inf e' req.
Proof. intros He. destruct req; cbn; eauto using kept_polling. Qed.

Lemma world_ext inf cur (w : World) e :
  world_ok inf module cur w → kept inf (w_ext w) e → world_ok inf module cur (set_w_ext w e).
Proof.
  intros [Hm Hr Hs Hf Hp [Hsane Hpo Hnd Hio Hfin]] He. pose proof (kept_inflight _ _ _ inf _ _ He) as Hin.
  constructor; try done; cbn.
  { intros req Hreq. by eapply park_ok_kept, Hp. }
  split.
  - by eapply kept_sane.
  - intros Hb. eapply kept_polling; eauto.
  - by rewrite Hin.
  - intros id. by rewrite Hin, Hio.
  - intros id fin Hid p Ho. apply (Hfin id fin Hid). by eapply kept_owes.
Qed.

(** Memory only grows while no fiber runs. *)
Definition grows (m m' : Mem) : Prop := keeps_live m m' ∧ GC_PAUSED m' = GC_PAUSED m.

Lemma grows_refl m : grows m m.
Proof. split; [apply keeps_live_refl|done]. Qed.

Lemma grows_trans m1 m2 m3 : grows m1 m2 → grows m2 m3 → grows m1 m3.
Proof. intros [K1 P1] [K2 P2]. split; [by eapply keeps_live_trans|congruence]. Qed.

(** An idle world: no fiber runs, no park is requested. *)
Definition idle_ok (m0 : Mem) (w : World) : Prop :=
  world_ok outside module None w ∧ w_park w = None ∧ grows m0 (w_mem w).

Lemma read_clock_ok m0 w : idle_ok m0 w → idle_ok m0 (read_clock machine w).1.
Proof.
  intros (Hw & Hp & Hg). unfold read_clock. pose proof (mk_now _ _ Hmachine (w_ext w)) as Hn.
  destruct (now machine (w_ext w)) as [e t]. cbn in *. split_and!; try done.
  by apply world_ext.
Qed.

Lemma wake_timers_safe m0 w : idle_ok m0 w → safe (idle_ok m0) (wake_timers machine w).
Proof.
  intros Hi. unfold wake_timers. apply read_clock_ok in Hi.
  destruct (read_clock machine w) as [w1 t]. cbn in Hi. destruct Hi as (Hw & Hp & Hg).
  destruct (wd_sched _ _ _ _ Hw) as [Hinv Hr]; cbn [fst snd] in Hinv, Hr.
  destruct (wake_due_timers_inv _ t Hinv) as (s' & b & Hok & Hinv' & _ & Hst). rewrite Hok.
  cbn. split_and!; [|done|done]. eapply world_sched; [done|by eapply wake_due_rel|].
  split; [done|]. by eapply running_same.
Qed.

Lemma wake_handles_safe m0 hs : ∀ w,
  idle_ok m0 w → safe (λ s, idle_ok m0 (set_w_sched w s)) (wake_handles (w_sched w) hs).
Proof.
  induction hs as [|h hs IH]; intros w (Hw & Hp & Hg); cbn [wake_handles].
  - cbn. split_and!; [|done|done]. eapply world_sched; [done|apply sched_rel_refl|apply Hw].
  - destruct (wd_sched _ _ _ _ Hw) as [Hinv Hr]; cbn [fst snd] in Hinv, Hr.
    destruct (wake_poll_inv _ h Hinv) as (s' & Hok & Hinv' & _ & Hst). rewrite Hok. cbn [mbind res_bind].
    apply (IH (set_w_sched w s')). split_and!; [|done|done]. eapply world_sched; [done|by eapply wake_poll_rel|].
    split; [done|]. by eapply running_same.
Qed.

(** What delivering a completion leaves: the fiber no longer awaits, the rest stays. *)
Lemma deliver_fibers (s s1 s2 : Scheduler Payload Ext) id fin v :
  take_pending s id = Ok (s1, fin) → deliver s1 id v = Ok s2 →
  channels s2 = channels s ∧
  (∀ k, pending <$> fibers s2 !! k = if decide (k = id) then (λ _, None) <$> fibers s !! k else pending <$> fibers s !! k) ∧
  (∀ k st, state <$> fibers s2 !! k = Some st →
    state <$> fibers s !! k = Some st ∨
    ∃ below v0 fs, state <$> fibers s !! k = Some (Suspended (below ++ [v0]) fs) ∧
      st = Suspended (below ++ [v]) fs) ∧
  (poll_blocked s2 ≠ ∅ → poll_blocked s ≠ ∅).
Proof.
  unfold take_pending. intros (f & Hf%or_panic_ok & H1)%bind_ok H2.
  apply bind_ok in H1 as (fin' & _ & H1). apply bind_ok in H1 as (sa & Ha & [= <- ->]).
  rewrite (upd_fiber_ok s id f _ Hf) in Ha. injection Ha as <-.
  pose proof (lookup_lt_Some _ _ _ Hf) as Hlt. unfold deliver in H2. cbn [fibers set_fibers] in H2.
  rewrite list_lookup_insert_eq in H2 by done. cbn [or_panic mbind res_bind state set_pending] in H2.
  destruct (state f) as [|vs fs| |] eqn:Hst; try done.
  apply bind_ok in H2 as ([below v0] & Hpop%or_panic_ok & H2). apply vec_pop_Some in Hpop. subst vs.
  rewrite (upd_fiber_ok _ id (set_pending f None)) in H2 by (cbn; by rewrite list_lookup_insert_eq).
  cbn [mbind res_bind fibers set_fibers] in H2. rewrite list_insert_insert_eq in H2.
  apply (make_ready_rel False (λ _, False)) in H2 as [Hc Hp Hs Hb]. cbn in Hc, Hp, Hs, Hb. split_and!; [done| | |tauto].
  - intros k. rewrite Hp. destruct (decide (k = id)) as [->|]; [|by rewrite list_lookup_insert_ne].
    by rewrite list_lookup_insert_eq, Hf.
  - intros k st Hk. destruct (Hs k st Hk) as [[]|Hk2].
    destruct (decide (k = id)) as [->|]; [|left; by rewrite list_lookup_insert_ne in Hk2].
    rewrite list_lookup_insert_eq in Hk2 by done. injection Hk2 as <-. right.
    exists below, v0, fs. rewrite Hf. cbn. by rewrite Hst.
Qed.

(** The outside with the completions [cs] handed over and not yet delivered. *)
Definition taken (cs : list (nat * Payload)) : Outside Job Payload Ext.
Proof.
  refine (mkOutside (λ e, cs.*1 ++ inflight outside e)
    (λ e id p, owes outside e id p ∨ (id, p) ∈ cs) (answers outside) (sane outside) (polling outside)
    (kept outside) _ _ _ _ _ _ _).
  - intros e id p [Ho|Hc]; apply elem_of_app; [right; by eapply owes_inflight|left].
    by apply (list_elem_of_fmap_2 fst _ (id, p)).
  - apply kept_refl.
  - apply kept_trans.
  - intros e e' He. by rewrite (kept_inflight _ _ _ _ _ _ He).
  - intros e e' He id p [Ho|Hc]; [left|by right]. by eapply kept_owes.
  - apply kept_sane.
  - apply kept_polling.
Defined.

Lemma delivered_pending (s s2 : Scheduler Payload Ext) id f k :
  fibers s !! id = Some f →
  (∀ k, pending <$> fibers s2 !! k = if decide (k = id) then (λ _, None) <$> fibers s !! k else pending <$> fibers s !! k) →
  (∃ g, fibers s2 !! k = Some g ∧ is_pending g) ↔
    k ≠ id ∧ ∃ g, fibers s !! k = Some g ∧ is_pending g.
Proof.
  intros Hf Hpe. pose proof (Hpe k) as Hpk. destruct (decide (k = id)) as [->|Hne].
  - split; [|tauto]. intros (g & Hg2 & Hpg). rewrite Hg2, Hf in Hpk. cbn in Hpk.
    injection Hpk as Hpk. unfold is_pending in Hpg. rewrite Hpk in Hpg. by destruct Hpg.
  - destruct (fibers s2 !! k) as [g|] eqn:Hg2, (fibers s !! k) as [g0|] eqn:Hg0;
      cbn in Hpk; try done; [|naive_solver]. injection Hpk as Hpk. unfold is_pending.
    split; [intros (? & [= <-] & Hx); split; [done|]; exists g0; by rewrite <-Hpk|].
    intros (_ & ? & [= <-] & Hx). exists g. by rewrite Hpk.
Qed.

(** One completion, with the rest still to come. *)
Lemma deliver_one_safe m0 id p cs (w : World) :
  world_ok (taken ((id, p) :: cs)) module None w → w_park w = None → grows m0 (w_mem w) →
  ∃ s1 fin, take_pending (w_sched w) id = Ok (s1, fin) ∧
  safe (λ '(e, m, v), ∃ s2, deliver s1 id v = Ok s2 ∧
    world_ok (taken cs) module None (set_w_sched (set_w_mem (set_w_ext w e) m) s2) ∧ grows m0 m)
    (fin p (w_ext w) (w_mem w)).
Proof.
  intros Hw Hp Hg. destruct (wd_io _ _ _ _ Hw) as [Hsane Hpo Hnd Hio Hfn]; cbn in Hsane, Hpo, Hnd, Hio, Hfn.
  apply NoDup_cons in Hnd as [Hni Hnd].
  destruct (proj1 (Hio id)) as (f & Hf & fin & Hfin); [set_solver|].
  destruct (wd_sched _ _ _ _ Hw) as [Hinv Hr]; cbn [fst snd] in Hinv, Hr.
  destruct (deliver_inv _ id f fin Hinv Hf Hfin) as (s1 & Hs1 & Hd).
  exists s1, fin. split; [done|].
  assert (finish_ok outside fin p) as Hfok.
  { apply (Hfn id); [rewrite Hf; cbn; by rewrite Hfin|right; by left]. }
  eapply safe_mono; [apply Hfok; [done|apply Hw]|]. intros [[e m] v] (Hke & Hm & Hv & Hk & Hrel).
  destruct (Hd v) as (s2 & below & fs & Hs2 & Hinv2 & Hst2 & _ & Hbut). exists s2. split; [done|].
  assert (grows m0 m) as Hgm by (eapply grows_trans; [done|]; split; [done|apply Hrel]).
  split; [|done]. destruct (deliver_fibers _ _ _ _ _ _ Hs1 Hs2) as (Hch & Hpe & Hst & Hpb).
  assert (∀ k st, state <$> fibers s2 !! k = Some st → state_ok m st) as Hall.
  { intros k st Hks. destruct (Hst k st Hks) as [Hold|(b & v0 & fr & Hold & ->)].
    - destruct (world_state _ _ _ _ _ Hw Hold) as [Hl Hfr]. split; [|done]. by eapply keeps_live_Forall.
    - destruct (world_state _ _ _ _ _ Hw Hold) as [Hl Hfr]. split; [|done]. cbn in *.
      apply Forall_app in Hl as [Hl _]. apply Forall_app. split; [by eapply keeps_live_Forall|].
      by rewrite Forall_singleton. }
  constructor; cbn; try done.
  - apply roots_ok. split; [intros k st Hks; by eapply Hall|]. rewrite Hch.
    pose proof (wd_roots _ _ _ _ Hw) as [_ Hb]%roots_ok. eapply Forall_impl; [exact Hb|].
    intros c. by apply keeps_live_Forall.
  - split; [done|]. cbn. apply (running_but (w_sched w) s2 id None None _ Hbut Hst2 Hr); [done|]. done.
  - apply Forall_lookup. intros k f' Hf'. apply (Hall k). by rewrite Hf'.
  - by rewrite Hp.
  - pose proof (kept_inflight _ _ _ outside _ _ Hke) as Hie. split; cbn;
      [by eapply kept_sane|intros Hb; eapply kept_polling; by eauto|by rewrite Hie| |].
    2: { intros k fin' Hk2 q Hq. rewrite Hpe in Hk2. destruct (decide (k = id)) as [->|Hne]; [by rewrite Hf in Hk2|].
      apply (Hfn k fin' Hk2). destruct Hq as [Hq|Hq]; [left; by eapply kept_owes|right; by right]. }
    intros k. rewrite Hie, (delivered_pending (w_sched w) s2 id f k Hf Hpe), <-Hio, elem_of_cons. split; [|naive_solver].
    intros Hk2. split; [|by right]. intros ->. by apply Hni.
Qed.

Lemma deliver_completions_safe m0 cs : ∀ w,
  world_ok (taken cs) module None w → w_park w = None → grows m0 (w_mem w) →
  safe (idle_ok m0) (deliver_completions w cs).
Proof.
  induction cs as [|[id p] cs IH]; intros w Hw Hp Hg; cbn [deliver_completions].
  - split_and!; [|done|done]. destruct Hw as [Hm Hr Hs Hf Hpk [Hsane Hpo Hnd Hio Hfin]]. constructor; try done.
    split; try done. intros id fin Hid q Hq. apply (Hfin id fin Hid). by left.
  - destruct (deliver_one_safe m0 id p cs w Hw Hp Hg) as (s1 & fin & -> & Hfin). cbn [mbind res_bind].
    eapply safe_bind; [exact Hfin|]. intros [[e m] v] (s2 & -> & Hw2 & Hg2). cbn [mbind res_bind]. by apply IH.
Qed.

(** The completions a machine operation hands over, and what it keeps in flight. *)
Lemma world_completions (w : World) e (cs : list (nat * Payload)) :
  world_ok outside module None w → handed_over outside (w_ext w) cs e →
  world_ok (taken cs) module None (set_w_ext w e : World).
Proof.
  intros [Hm Hr Hs Hf Hp [Hsane Hpo Hnd Hio Hfin]] (He & Hcs & Hown & Hsn & Hpl). constructor; try done; cbn.
  { intros req Hreq. pose proof (Hp req Hreq). destruct req; cbn in *; auto. }
  split; cbn; [by auto|by auto|..].
  - by rewrite He.
  - intros id. by rewrite He, Hio.
  - intros id fin Hid p [Ho|Hc]; apply (Hfin id fin Hid); [by apply Hown|by apply (Hcs (id, p))].
Qed.

(** A fiber that waits for a job has one in flight. *)
Lemma io_waits m0 (w w1 : World) :
  idle_ok m0 w1 → w_sched w1 = w_sched w → (0 <? io_blocked (w_sched w)) = true →
  inflight outside (w_ext w1) ≠ [].
Proof.
  intros (Hw1 & _) Hsch Hio%Z.ltb_lt Hnil. destruct (wd_sched _ _ _ _ Hw1) as [Hinv _].
  pose proof (inv_io _ _ Hinv) as Hn. cbn [fst] in Hn. rewrite Hsch in Hn.
  match type of Hn with _ = Z.of_nat (length ?l) => remember l as pend eqn:Hf end.
  destruct pend as [|f l]; [cbn in Hn; lia|].
  assert (f ∈ f :: l) as Hin by by left. rewrite Hf in Hin.
  apply list_elem_of_filter in Hin as [Hp [id Hid]%list_elem_of_lookup].
  assert (id ∈ inflight outside (w_ext w1)) as Hid2.
  { apply (io_pending _ _ _ _ (wd_io _ _ _ _ Hw1)). exists f. by rewrite Hsch. }
  rewrite Hnil in Hid2. by apply elem_of_nil in Hid2.
Qed.

Lemma idle_safe m0 w :
  idle_ok m0 w → safe (λ o, match o with Some w' => idle_ok m0 w' | None => True end) (idle machine w).
Proof.
  intros Hi. unfold idle.
  set (timed := match earliest_deadline (w_sched w) with
    | Some d => let (w, t) := read_clock machine w in (w, Some (saturating_duration d t))
    | None => (w, None) end).
  assert (idle_ok m0 timed.1 ∧ w_sched timed.1 = w_sched w) as [Ht Hsch].
  { unfold timed. destruct (earliest_deadline (w_sched w)) as [d|]; [|done].
    pose proof (read_clock_ok m0 w Hi) as Hc. unfold read_clock in *. by destruct (now machine (w_ext w)). }
  clearbody timed. destruct timed as [w1 timeout]. cbn [fst] in Ht, Hsch.
  destruct Ht as (Hw1 & Hp1 & Hg1).
  pose proof (io_sane _ _ _ _ (wd_io _ _ _ _ Hw1)) as Hsane.
  assert (∀ w2, idle_ok m0 w2 → safe (λ o, match o with Some w' => idle_ok m0 w' | None => True end)
    (w ← wake_timers machine w2; Ok (Some w))) as Hwake.
  { intros w2 H2. eapply safe_bind; [by apply wake_timers_safe|]. done. }
  destruct (bool_decide (poll_blocked (w_sched w) = ∅)) eqn:Hpoll; cbn [negb].
  - destruct (0 <? io_blocked (w_sched w)) eqn:Hio.
    + pose proof (mk_await _ _ Hmachine (w_ext w1) timeout Hsane) as Haw.
      destruct (await_completions machine (w_ext w1) timeout) as [e' cs]. cbn [fst snd] in Haw.
      eapply safe_bind; [apply Haw|]; [by apply (io_waits m0 w w1)|]. intros cs' Hcs.
      eapply safe_bind; [|by apply Hwake]. apply deliver_completions_safe; [|done|done].
      by apply world_completions.
    + destruct (earliest_deadline (w_sched w)) as [d|]; [|done].
      pose proof (read_clock_ok m0 w1 ltac:(by split_and!)) as Hc.
      destruct (read_clock machine w1) as [w2 t]. cbn in Hc. apply Hwake.
      destruct (t <? d); [|done]. destruct Hc as (Hw2 & Hp2 & Hg2). split_and!; [|done|done].
      apply world_ext; [done|]. apply (mk_sleep _ _ Hmachine).
  - apply bool_decide_eq_false in Hpoll.
    pose proof (mk_poll _ _ Hmachine (w_ext w1) timeout) as Hkept.
    pose proof (mk_poll_safe _ _ Hmachine (w_ext w1) timeout Hsane) as Hps.
    destruct (poll_wait machine (w_ext w1) timeout) as [e polled]. cbn [fst snd] in Hkept, Hps.
    assert (idle_ok m0 (set_w_ext w1 e)) as He by (split_and!; [by apply world_ext|done|done]).
    eapply safe_bind; [apply Hps|]; [apply (io_polls _ _ _ _ (wd_io _ _ _ _ Hw1)); by rewrite Hsch|]. intros hs _.
    eapply safe_bind; [by apply (wake_handles_safe m0 hs (set_w_ext w1 e))|]. intros s (Hw2 & Hp2 & Hg2).
    set (w2 := set_w_sched (set_w_ext w1 e) s) in *.
    pose proof (mk_drain _ _ Hmachine (w_ext w2)) as Hdr.
    destruct (drain_completions machine (w_ext w2)) as [e' cs]. cbn [fst snd] in Hdr.
    eapply safe_bind; [|by apply Hwake]. apply deliver_completions_safe; [|done|done].
    by apply world_completions.
Qed.

(** The Vm between fibers. *)
Definition between_ok (m0 : Mem) (vm : Vm) : Prop :=
  idle_ok m0 (vm_world vm) ∧ lives (w_mem (vm_world vm)) (vm_vstack vm) ∧ Forall (frame_ok module) (vm_frames vm).

Lemma next_ready_safe m0 vm :
  between_ok m0 vm →
  safe (λ o, match o with
    | Some (id, l) => loop_ok outside module (Some id) 0 l ∧ grows m0 (l_mem l)
    | None => True end) (next_ready module vm).
Proof.
  intros ((Hw & Hp & Hg) & Hvs & Hfr). unfold next_ready.
  destruct (wd_sched _ _ _ _ Hw) as [Hinv Hr]; cbn [fst snd] in Hinv, Hr.
  destruct (ready (w_sched (vm_world vm))) as [|i rest] eqn:Hrd.
  { unfold dequeue. by rewrite Hrd. }
  destruct (dequeue_inv _ i rest Hinv Hrd) as (s & f & Hf & Hrun & Hdq & Hinv' & _ & _ & _ & _ & Hst & Hbut).
  rewrite Hdq. cbn [mbind res_bind].
  destruct (dequeue_rel (polling outside (w_ext (vm_world vm))) (state_ok (w_mem (vm_world vm))) _ _ _ _ ltac:(by split) Hdq) as [Hrel Hold].
  destruct (world_state _ _ _ _ _ Hw Hold) as [Hroots Hframes].
  assert (world_ok outside module (Some i) (set_w_sched (vm_world vm) s)) as Hw'.
  { eapply world_sched; [done|done|]. eapply (sched_step_ok (w_sched (vm_world vm), None)); [|by split].
    by eapply step_dequeue. }
  destruct (state f) as [c|vs fs| |v] eqn:Hsf; [| |by destruct Hrun as [_ Hx]; rewrite Hsf in Hx..].
  - cbn in Hroots. rewrite Forall_singleton in Hroots.
    eapply safe_bind; [apply (closure_parts_safe (w_mem (vm_world vm))); [apply Hw|done]|].
    intros [fn locals] Hl. eapply safe_bind; [by apply (push_frame_safe module (w_mem (vm_world vm)))|].
    intros [vs fr] [Hvs' Hfr']. split; [|done]. constructor; try done. cbn. lia.
  - destruct (vec_pop fs) as [[fs' a]|] eqn:Hpop; [|done]. apply vec_pop_Some in Hpop. subst fs.
    apply Forall_app in Hframes as [Hfs Ha]. rewrite Forall_singleton in Ha.
    split; [|done]. constructor; try done. cbn. lia.
Qed.

Lemma pick_safe m0 fuel : ∀ vm,
  between_ok m0 vm →
  safe (λ p, match p with
    | Switch id l => loop_ok outside module (Some id) 0 l ∧ grows m0 (l_mem l)
    | Stop w v => idle_ok m0 w ∧ live (w_mem w) v end) (pick machine fuel module vm).
Proof.
  induction fuel as [|fuel IH]; intros vm Hb; cbn [pick]; [done|].
  eapply safe_bind; [by eapply next_ready_safe|]. intros [[id l]|] Hn; [done|].
  destruct Hb as (Hi & Hvs & Hfr).
  eapply safe_bind; [apply (idle_safe (w_mem (vm_world vm))); split_and!; [apply Hi|apply Hi|apply grows_refl]|].
  intros [w|] Hw; [|by destruct (negb _)].
  destruct Hw as (Hw & Hp & Hg). apply IH. split_and!; [|cbn; eapply keeps_live_Forall; [apply Hg|done]|done].
  split_and!; [done|done|]. eapply grows_trans; [apply Hi|done].
Qed.

(** ** Leaving a fiber *)

Lemma running_of cur (w : World) :
  world_ok outside module (Some cur) w →
  ∃ f, fibers (w_sched w) !! cur = Some f ∧ state f = Running ∧ sched_inv (w_sched w) ∧
    running_is (w_sched w) (Some cur).
Proof.
  intros Hw. destruct (wd_sched _ _ _ _ Hw) as [Hinv Hr]; cbn [fst snd] in Hinv, Hr.
  destruct (running_fiber _ _ Hr) as (f & ? & ?). eauto.
Qed.

Lemma finish_fiber_safe cur vm v :
  vm_ok outside module (Some cur) vm → live (vm_mem vm) v →
  safe (λ vm', between_ok (vm_mem vm) vm' ∧ vm_mem vm' = vm_mem vm) (finish_fiber vm cur v).
Proof.
  intros [Hw Hp Hvs Hfr] Hv. destruct (running_of _ _ Hw) as (f & Hf & Hst & Hinv & Hr).
  unfold finish_fiber. destruct (complete_inv _ cur f v Hinv Hf Hst) as (s' & Hok & _). rewrite Hok.
  cbn [mbind res_bind safe]. split; [|done]. split_and!; [|done|done]. split_and!; [|done|apply grows_refl].
  eapply world_sched; [done| |].
  - eapply complete_rel; [|done]. split; [|done]. cbn. by rewrite Forall_singleton.
  - eapply (sched_step_ok (_, Some cur)); [by eapply step_complete|]. by split.
Qed.

Lemma park_io_fibers (s s' : Scheduler Payload Ext) id f vs fs fin :
  fibers s !! id = Some f → park_io s id vs fs fin = Ok s' →
  fibers s' = <[id := set_pending (set_state f (Suspended vs fs)) (Some fin)]> (fibers s) ∧
  channels s' = channels s ∧ poll_blocked s' = poll_blocked s.
Proof.
  intros Hf. pose proof (lookup_lt_Some _ _ _ Hf) as Hlt. unfold park_io.
  rewrite (upd_fiber_ok s id f _ Hf). cbn [mbind res_bind].
  rewrite (upd_fiber_ok _ id (set_state f (Suspended vs fs))) by (cbn; by rewrite list_lookup_insert_eq).
  cbn [mbind res_bind fibers set_fibers]. rewrite list_insert_insert_eq. by intros [= <-].
Qed.

(** The job of the fiber that parks is submitted. *)
Lemma submit_io_ok e (s s' : Scheduler Payload Ext) cur f g job fin :
  io_ok outside e (fibers s) (poll_blocked s) → fibers s !! cur = Some f → pending f = None →
  (∀ p, answers outside job p → finish_ok outside fin p) →
  fibers s' = <[cur := g]> (fibers s) → pending g = Some fin → poll_blocked s' = poll_blocked s →
  io_ok outside (submit machine e cur job) (fibers s') (poll_blocked s').
Proof.
  intros [Hsane Hpo Hnd Hio Hfn] Hf Hnp Hfin Hfs Hg Hpb. pose proof (lookup_lt_Some _ _ _ Hf) as Hlt.
  assert (cur ∉ inflight outside e) as Hni.
  { rewrite Hio. intros (f' & Hf' & [fin' Hp']). congruence. }
  assert (∀ k h, fibers s' !! k = Some h → k = cur ∧ h = g ∨ k ≠ cur ∧ fibers s !! k = Some h) as Hcase.
  { rewrite Hfs. intros k h [(-> & <- & _)|[? ?]]%list_lookup_insert_Some; auto. }
  split.
  - by apply (mk_sane _ _ Hmachine).
  - rewrite Hpb. intros Hb. apply (mk_polling _ _ Hmachine). auto.
  - rewrite (mk_submit _ _ Hmachine). by apply NoDup_cons.
  - intros id. rewrite (mk_submit _ _ Hmachine), elem_of_cons, Hio, Hfs. split.
    + intros [->|(h & Hh & Hph)].
      * rewrite list_lookup_insert_eq by done. exists g. split; [done|]. by eexists.
      * exists h. split; [|done]. rewrite list_lookup_insert_ne; [done|]. intros ->. apply Hni, Hio. eauto.
    + rewrite <-Hfs. intros (h & Hh & Hph). destruct (Hcase id h Hh) as [[-> _]|[_ Hh2]]; [by left|right; eauto].
  - intros id fin' (h & Hh & Hph)%fmap_Some p [Ho|[-> Ha]]%(mk_owes _ _ Hmachine).
    + destruct (Hcase id h Hh) as [[-> ->]|[_ Hh2]]; [|apply (Hfn id fin'); [by rewrite Hh2, Hph|done]].
      destruct Hni. by eapply owes_inflight.
    + destruct (Hcase cur h Hh) as [[_ ->]|[? _]]; [|done]. rewrite Hg in Hph. injection Hph as ->. by apply Hfin.
Qed.

Lemma park_await_safe cur vm job fin :
  vm_ok outside module (Some cur) vm → park_ok outside (w_ext (vm_world vm)) (Await job fin) → vm_vstack vm ≠ [] →
  safe (λ vm', between_ok (vm_mem vm) vm' ∧ vm_mem vm' = vm_mem vm) (park_fiber machine vm cur (Await job fin)).
Proof.
  intros [Hw Hp Hvs Hfr] Hfin Hne. destruct (running_of _ _ Hw) as (f & Hf & Hst & Hinv & Hr).
  destruct (running_facts _ cur f Hinv Hf Hst) as (_ & Hnp & _).
  destruct (exists_last Hne) as (vs & v & Hvsv). unfold park_fiber. rewrite Hvsv.
  destruct (park_io_inv _ cur f vs v (vm_frames vm) fin Hinv Hf Hst) as (s' & Hok & _). rewrite Hok.
  destruct (park_io_fibers _ _ _ _ _ _ _ Hf Hok) as (Hfs & Hch & Hpb). pose proof (lookup_lt_Some _ _ _ Hf) as Hlt.
  cbn [mbind res_bind safe]. split; [|done].
  split_and!; [|apply Forall_nil; done|apply Forall_nil; done]. split_and!; [|done|apply grows_refl].
  assert (∀ k g, fibers s' !! k = Some g →
    k = cur ∧ g = set_pending (set_state f (Suspended (vs ++ [v]) (vm_frames vm))) (Some fin) ∨
    k ≠ cur ∧ fibers (w_sched (vm_world vm)) !! k = Some g) as Hcase.
  { rewrite Hfs. intros k g [(-> & <- & _)|[? ?]]%list_lookup_insert_Some; auto. }
  pose proof (wd_fibers _ _ _ _ Hw) as Hfib. rewrite Forall_lookup in Hfib.
  constructor; cbn; try done; try apply Hw.
  - apply roots_ok. pose proof (wd_roots _ _ _ _ Hw) as [Hro Hbuf]%roots_ok. split; [|by rewrite Hch].
    intros k st (g & Hg & ->)%fmap_Some. destruct (Hcase k g Hg) as [[-> ->]|[_ Hg2]].
    + cbn. by rewrite <-Hvsv.
    + apply (Hro k). by rewrite Hg2.
  - eapply (sched_step_ok (_, Some cur)); [by eapply step_park_io|]. by split.
  - apply Forall_lookup. intros k g Hg. by destruct (Hcase k g Hg) as [[-> ->]|[_ Hg2]]; [|apply (Hfib k)].
  - intros req. by rewrite Hp.
  - by eapply submit_io_ok; [apply Hw|..].
Qed.

Lemma park_fiber_safe cur vm req :
  vm_ok outside module (Some cur) vm → park_ok outside (w_ext (vm_world vm)) req → (∀ job fin, req = Await job fin → vm_vstack vm ≠ []) →
  safe (λ vm', between_ok (vm_mem vm) vm' ∧ vm_mem vm' = vm_mem vm) (park_fiber machine vm cur req).
Proof.
  intros Hvm Hreq Hne. assert ((∃ job fin, req = Await job fin) ∨ ∀ job fin, req ≠ Await job fin) as [(job & fin & ->)|Hna].
  { destruct req; first [right; by intros|left; by eexists _, _]. }
  { apply park_await_safe; [done|done|by eapply Hne]. }
  destruct Hvm as [Hw Hp Hvs Hfr]. destruct (running_of _ _ Hw) as (f & Hf & Hst & Hinv & Hr).
  destruct (park_inv _ cur f (vm_vstack vm) (vm_frames vm) req Hinv Hf Hst Hna) as (s' & Hok & _).
  assert (park_fiber machine vm cur req =
    (s ← park (w_sched (vm_world vm)) cur (vm_vstack vm) (vm_frames vm) req;
     Ok (mkVm [] [] (set_w_sched (vm_world vm) s)))) as ->.
  { destruct req; try done. by destruct (Hna job finish). }
  rewrite Hok. cbn [mbind res_bind safe]. split; [|done].
  split_and!; [|apply Forall_nil; done|apply Forall_nil; done]. split_and!; [|done|apply grows_refl].
  eapply world_sched; [done| |].
  - eapply park_rel; [|by split|done]. by destruct req.
  - eapply (sched_step_ok (_, Some cur)); [by eapply step_park|]. by split.
Qed.

(** ** The whole run *)

Hypothesis Hmodule : module_safe module.
Hypothesis Hnatives : ∀ cur, calls_ok outside module (Some cur) natives.

Definition finished_ok (m0 : Mem) (r : World * Value) : Prop :=
  mem_wf (w_mem r.1) ∧ live (w_mem r.1) r.2 ∧ w_park r.1 = None ∧ GC_PAUSED (w_mem r.1) = GC_PAUSED m0 ∧
  sane outside (w_ext r.1).

Lemma drive_loop_safe fuel : ∀ current l,
  loop_ok outside module (Some current) 0 l → pause_room fuel (l_mem l) →
  safe (finished_ok (l_mem l))
    (drive_loop f64_to_string value_debug natives machine fuel module current l).
Proof.
  induction fuel as [|fuel IH]; intros current l Hl Hroom; cbn [drive_loop]; [done|].
  apply pause_room_S in Hroom.
  eapply safe_bind; [by eapply (run_loop_safe outside module f64_to_string value_debug)|].
  intros [o vm] (Hvm & Ho & Hrel).
  apply (safe_bind (λ '(vm', r), between_ok (vm_mem vm) vm' ∧ vm_mem vm' = vm_mem vm ∧
    ∀ v, r = Some v → live (vm_mem vm') v)).
  { destruct o as [v|req]; destruct Ho as [Ho1 Ho2].
    - eapply safe_bind; [by apply finish_fiber_safe|]. intros vm' [Hb Hm]. cbn. split_and!; [done|done|].
      intros v' Hv'. rewrite Hm. case_match; by simplify_eq.
    - eapply safe_bind; [by apply park_fiber_safe|]. intros vm' [Hb Hm]. by split_and!. }
  intros [vm' [v|]] (Hb & Hm & Hv).
  - split_and!; cbn; [apply Hb|by apply Hv|apply Hb| |].
    + unfold vm_mem in Hm. rewrite Hm. apply Hrel.
    + destruct Hb as [(Hw & _) _]. exact (io_sane _ _ _ _ (wd_io _ _ _ _ Hw)).
  - eapply safe_bind; [by eapply pick_safe|].
    assert (GC_PAUSED (vm_mem vm) = GC_PAUSED (l_mem l)) as Hpa by apply Hrel.
    intros [id l'|w v].
    + intros [Hl' [_ Hg]]. eapply safe_mono.
      * apply IH; [done|]. unfold pause_room. by rewrite Hg, Hpa.
      * intros r (? & ? & ? & Hr & ?). split_and!; try done. by rewrite Hr, Hg.
    + intros ((Hw & Hp & [_ Hg]) & Hvl). split_and!; cbn; [apply Hw|done|done|by rewrite Hg|].
      exact (io_sane _ _ _ _ (wd_io _ _ _ _ Hw)).
Qed.

(** A world at rest, between two runs. *)
Record rest_ok (w : World) : Prop := {
  rt_mem : mem_wf (w_mem w);
  rt_park : w_park w = None;
  rt_io : inflight outside (w_ext w) = [];
  rt_sane : sane outside (w_ext w);
}.

Lemma main_world_ok (w : World) :
  rest_ok w → world_ok outside module (Some MAIN_FIBER) (set_w_sched w Scheduler_main).
Proof.
  intros [Hm Hp Hio Hsane]. constructor; [done|by apply Forall_nil| | | |].
  - apply main_ok.
  - cbn. constructor; [done|by apply Forall_nil].
  - cbn. by rewrite Hp.
  - split; cbn; rewrite ?Hio; [done|done|apply NoDup_nil_2| |].
    + intros id. split; [by intros ?%elem_of_nil|].
      intros (f & Hf & Hpf). destruct id as [|id]; cbn in Hf; [|done]. simplify_eq. by destruct Hpf.
    + intros id fin (f & Hf & Hpf)%fmap_Some. destruct id as [|id]; cbn in Hf; [|done]. by simplify_eq.
Qed.

Lemma run_safe fuel w fn args :
  rest_ok w → pause_room fuel (w_mem w) → lives (w_mem w) args →
  safe (λ '(w', v), rest_ok w' ∧ live (w_mem w') v ∧ GC_PAUSED (w_mem w') = GC_PAUSED (w_mem w))
    (run f64_to_string value_debug natives machine fuel module w fn args).
Proof.
  intros Hw Hroom Hargs. unfold run, drive. pose proof (main_world_ok w Hw) as Hmain.
  apply (safe_bind (finished_ok (w_mem w))).
  { eapply safe_bind; [by apply (push_frame_safe module (w_mem w) [])|]. intros [vs fr] [Hvs Hfr].
    apply (drive_loop_safe fuel MAIN_FIBER (mkLoop fr vs [] (set_w_sched w Scheduler_main))); [|exact Hroom]. constructor; try done. apply Hw. }
  intros [w' v] (Hm & Hv & Hp & Hg & Hs). split_and!; [|done|done]. constructor; [done|done| |].
  - apply (mk_reset _ _ Hmachine).
  - by apply (mk_reset_sane _ _ Hmachine).
Qed.

Lemma set_globals_ok (w : World) n : rest_ok w → rest_ok (set_w_mem w (set_globals (w_mem w) n)).
Proof.
  intros [[Hh Hc Hsh Hp] Hpk Hio Hs]. constructor; [|done|done|done]. constructor; [done|done|done|].
  cbn. unfold permanent_roots in *. cbn. apply Forall_app in Hp as [? _]. apply Forall_app. split; [done|].
  unfold resize. rewrite take_nil. apply Forall_app. split; [by apply Forall_nil|]. by apply Forall_replicate.
Qed.
End driver.

(** ** The properties *)

(** C4: A run never panics.  For a module whose dispatch index is in sync and whose
    every [call.virtual] has a receiver, natives that keep the world well formed where the
    code calls them, and
    worker threads that complete each job at most once: running any function on any
    live arguments from a well-formed heap, through any schedule of fibers, collections
    at any safepoint, worker completions, timers and socket events, ends in a value or
    a trap (or exhausts its fuel or the machine's memory).  A value returned is live, the
    heap is well formed again and collection is paused no deeper than before. *)
Theorem run_never_panics `{Sizes} {Job Payload Ext} f64_to_string value_debug
    (natives : list (Native (Job := Job) (Payload := Payload) (Ext := Ext))) (machine : Machine Job Payload Ext)
    (outside : Outside Job Payload Ext) module fuel w fn args :
  machine_ok outside machine → module_safe module →
  (∀ cur, calls_ok outside module (Some cur) natives) →
  rest_ok outside w → pause_room fuel (w_mem w) → lives (w_mem w) args →
  safe (λ '(w', v), rest_ok outside w' ∧ live (w_mem w') v ∧ GC_PAUSED (w_mem w') = GC_PAUSED (w_mem w))
    (run f64_to_string value_debug natives machine fuel module w fn args).
Proof. intros. by apply run_safe. Qed.

(** Initialising a module never panics: the globals are allocated, the init thunk
    runs as a main fiber of its own, and the world is left at rest, ready for the
    entry's run. *)
Theorem init_never_panics `{Sizes} {Job Payload Ext} f64_to_string value_debug
    (natives : list (Native (Job := Job) (Payload := Payload) (Ext := Ext))) (machine : Machine Job Payload Ext)
    (outside : Outside Job Payload Ext) module fuel w :
  machine_ok outside machine → module_safe module →
  (∀ cur, calls_ok outside module (Some cur) natives) →
  rest_ok outside w → pause_room fuel (w_mem w) →
  safe (λ w', rest_ok outside w' ∧ GC_PAUSED (w_mem w') = GC_PAUSED (w_mem w))
    (init_module f64_to_string value_debug natives machine fuel module w).
Proof.
  intros Hma Hmo Hn Hw Hroom. unfold init_module.
  pose proof (set_globals_ok outside w (Z.to_nat (global_count module)) Hw) as Hw'.
  destruct (init_index module) as [idx|]; [|done]. eapply safe_bind.
  - by apply (run_safe f64_to_string value_debug natives machine outside module).
  - intros [w' v] (Hr & _ & Hg). done.
Qed.

(** Evaluating a snippet never panics either, if every [call.virtual] in it has a
    receiver: with no fiber to schedule, a native that parks is a trap. *)
Theorem eval_never_panics `{Sizes} {Job Payload Ext} f64_to_string value_debug
    (natives : list (Native (Job := Job) (Payload := Payload) (Ext := Ext)))
    (outside : Outside Job Payload Ext) fuel w code locals :
  let module := eval_module code (length locals) in
  (∀ s n, CallVirtual s n ∈ code → 1 ≤ n) →
  calls_ok outside module None natives →
  world_ok outside module None w → w_park w = None → pause_room fuel (w_mem w) → lives (w_mem w) locals →
  safe (λ '(w', v), mem_wf (w_mem w') ∧ live (w_mem w') v ∧ w_out w' = w_out w)
    (eval f64_to_string value_debug natives fuel w code locals).
Proof.
  intros module Hc Hn Hw Hp Hroom Hl. unfold eval, call.
  assert (module_safe module) as Hms.
  { constructor; [intros ty; cbn; by rewrite lookup_empty|cbn; lia|].
    intros f s n ->%list_elem_of_singleton. apply Hc. }
  eapply safe_bind.
  - apply (call_with_safe outside module None fuel); [|constructor; try done; apply Forall_nil_2|done|done].
    intros d l. by apply run_loop_safe.
  - intros [vm v] [Hvm Hv]. cbn. split_and!; [apply Hvm|done|done].
Qed.

(** ** A concrete run *)

(** A native that yields and one that reads a file on a worker thread; a machine whose
    only state is the list of jobs in flight, which it completes when waited for. *)
Definition demo_yield : Native (Job := unit) (Payload := unit) (Ext := list nat) :=
  λ w _, Ok (set_w_park w (Some YieldReady), Unit).

Definition demo_finish : IoFinish unit (list nat) := λ _ e m,
  '(m, v) ← alloc (H := sizes64) m (Str "data"); Ok (e, m, v).

Definition demo_read : Native (Job := unit) (Payload := unit) (Ext := list nat) :=
  λ w _, Ok (set_w_park w (Some (Await tt demo_finish)), Unit).

Definition demo_natives : list (Native (Job := unit) (Payload := unit) (Ext := list nat)) := [demo_yield; demo_read].

Definition demo_machine : Machine unit unit (list nat) := {|
  now := λ e, (e, 0);
  sleep := λ e _, e;
  submit := λ e id _, id :: e;
  poll_wait := λ e _, (e, Ok []);
  await_completions := λ e _, ([], Ok ((λ id, (id, tt)) <$> e));
  drain_completions := λ e, ([], (λ id, (id, tt)) <$> e);
  reset := λ _, [] |}.

Definition demo_main : Function :=
  Function_new "main" 0 0 [CallNative 0 0; Pop; CallNative 1 0; CallVirtual "debug" 1; Return].

Definition demo_module : Module := Module_new [demo_main].

Definition demo_world : World (Job := unit) (Payload := unit) (Ext := list nat) :=
  mkWorld (Mem_init DEFAULT_MAX_HEAP_BYTES) Scheduler_new None [] [].

Definition demo_outside : Outside unit unit (list nat).
Proof.
  by refine (mkOutside (λ e, e) (λ e id _, id ∈ e) (λ _ _, True) (λ _, True) (λ _, True) (λ e e', e' = e)
    _ _ _ _ _ _ _); intros; subst.
Defined.

Lemma demo_machine_ok : machine_ok demo_outside demo_machine.
Proof.
  assert (∀ e : list nat, handed_over demo_outside e ((λ id, (id, tt)) <$> e) []) as Hall.
  { intros e. split_and!; cbn.
    - by rewrite <-list_fmap_compose, list_fmap_id, app_nil_r.
    - by intros c (id & -> & ?)%list_elem_of_fmap.
    - by intros id p ?%elem_of_nil.
    - done.
    - done. }
  constructor; cbn; try done; intros; try by apply Hall. set_solver.
Qed.

Lemma demo_module_safe : module_safe demo_module.
Proof.
  constructor; [intros ty; cbn; by rewrite lookup_empty|cbn; lia|].
  intros f s n Hf Hi. apply list_elem_of_singleton in Hf as ->. cbn in Hi.
  repeat (apply elem_of_cons in Hi as [Hi|Hi]; [try done; by injection Hi as -> ->|]).
  by apply elem_of_nil in Hi.
Qed.

Lemma demo_natives_ok cur :
  Forall (native_ok demo_outside demo_module cur) demo_natives.
Proof.
  assert (∀ (w : World (Job := unit) (Payload := unit) (Ext := list nat)) req,
    world_ok demo_outside demo_module cur w → park_ok demo_outside (w_ext w) req →
    world_ok demo_outside demo_module cur (set_w_park w (Some req))) as Hpark.
  { intros w req [Hm Hr Hs Hf Hp Hio] Hreq. constructor; try done. cbn. by intros ? [= <-]. }
  constructor; [|constructor; [|by apply Forall_nil]].
  - intros w args Hw _ _. cbn. split_and!; [by apply Hpark|done|apply keeps_live_refl|apply mem_rel_refl].
  - intros w args Hw _ _. cbn. split_and!; [|done|apply keeps_live_refl|apply mem_rel_refl].
    apply Hpark; [done|]. intros p _ e m _ Hm.
    eapply safe_bind; [apply alloc_step; [done|done|by apply Forall_nil]|]. by intros [m' v].
Qed.

Lemma demo_rest : rest_ok demo_outside demo_world.
Proof.
  constructor; [apply Mem_init_wf|done|done|done].
Qed.

Lemma run_never_panics_witness :
  safe (λ '(w', v), rest_ok demo_outside w' ∧ live (w_mem w') v ∧
      GC_PAUSED (w_mem w') = GC_PAUSED (w_mem demo_world))
    (run (H := sizes64) (λ _, ""%string) (λ _, ""%string) demo_natives demo_machine 30 demo_module demo_world 0 []).
Proof.
  apply (run_never_panics (H := sizes64)); [exact demo_machine_ok|exact demo_module_safe
    |intros cur; apply Forall_calls_ok, demo_natives_ok|exact demo_rest|split; cbn; lia|by apply Forall_nil].
Defined.

Lemma init_never_panics_witness :
  safe (λ w', rest_ok demo_outside w' ∧ GC_PAUSED (w_mem w') = GC_PAUSED (w_mem demo_world))
    (init_module (H := sizes64) (λ _, ""%string) (λ _, ""%string) demo_natives demo_machine 30 demo_module demo_world).
Proof.
  apply (init_never_panics (H := sizes64)); [exact demo_machine_ok|exact demo_module_safe
    |intros cur; apply Forall_calls_ok, demo_natives_ok|exact demo_rest|split; cbn; lia].
Defined.

(** The run yields, reads through a worker and returns the text's debug rendering. *)
Example demo_run : ∃ w h,
  run (H := sizes64) (λ _, ""%string) (λ _, ""%string) demo_natives demo_machine 30 demo_module demo_world 0 []
    = Ok (w, Ref h) ∧ mem_slots (w_mem w) !! h = Some (Some (Str "'data'")).
Proof. eexists _, _. split; vm_compute; reflexivity. Qed.
