(* ===== verification/NativesBase.v ===== *)
(** * What the native functions share (src/runtime/src/interp/natives.rs, value.rs)

    Argument checks, the accessors that read or change one heap object, and the
    constructors of values.  A native that touches only the heap is a function
    [MemNative]; [on_mem] makes it a native of the interpreter.  [value_debug] prints
    a value as Rust's derived [Debug] does. *)

From Stdlib Require Import ZArith Lia.
From stdpp Require Import base numbers list strings gmap pretty.
From S2P Require Import Prelude Bytes Float64 Instr ModuleTable Value Heap MapObj Trap Scheduler.
From S2P Require Import Render Interp.

Open Scope Z_scope.

Definition MemNative : Type := Mem → list Value → res Trap (Mem * Value).

(** ** Argument checks *)

Definition expects (who what : string) (args : list Value) : Trap :=
  bug (who +:+ " expects " +:+ what +:+ ", got " +:+ pretty (length args)).

Definition expect_no_args (args : list Value) (who : string) : res Trap unit :=
  match args with [] => Ok tt | _ => Err (expects who "0 arguments" args) end.

Definition expect_one (args : list Value) (who : string) : res Trap Value :=
  match args with [v] => Ok v | _ => Err (expects who "1 argument" args) end.

Definition args2 (args : list Value) (who : string) : res Trap (Value * Value) :=
  match args with [a; b] => Ok (a, b) | _ => Err (expects who "2 arguments" args) end.

Definition args3 (args : list Value) (who : string) : res Trap (Value * Value * Value) :=
  match args with [a; b; c] => Ok (a, b, c) | _ => Err (expects who "3 arguments" args) end.

(** [list[i]]'s check. *)
Definition checked_index (i : i64) (len : nat) : res Trap nat :=
  if (i <? 0) || (Z.of_nat len <=? as_u64 i) then Err (IndexOutOfBounds i len)
  else Ok (Z.to_nat (as_u64 i)).

Section base.
Context `{Sizes}.
Variable value_debug : Value → string.

Definition as_int (v : Value) (who : string) : res Trap i64 :=
  match v with
  | Int n => Ok n
  | _ => Err (bug (who +:+ ": expected Int, found " +:+ value_debug v))
  end.

Definition as_double (v : Value) (who : string) : res Trap f64 :=
  match v with
  | Double x => Ok x
  | _ => Err (bug (who +:+ ": expected Double, found " +:+ value_debug v))
  end.

(** ** New values *)

Definition new_str (m : Mem) (s : string) : res Trap (Mem * Value) := alloc m (Str s).
Definition new_bytes (m : Mem) (b : list u8) : res Trap (Mem * Value) := alloc m (Bytes b).
Definition new_bytes_builder (m : Mem) : res Trap (Mem * Value) := alloc m (BytesBuilder []).
Definition new_list (m : Mem) (items : list Value) : res Trap (Mem * Value) := alloc m (List items).
Definition some (m : Mem) (v : Value) : res Trap (Mem * Value) := alloc m (some_obj v).
Definition none (m : Mem) : res Trap (Mem * Value) := alloc m none_obj.
Definition ok (m : Mem) (v : Value) : res Trap (Mem * Value) := alloc m (ok_obj v).
Definition err (m : Mem) (v : Value) : res Trap (Mem * Value) := alloc m (err_obj v).

(** [Value::some(v)] or [Value::none()]. *)
Definition option_value (m : Mem) (o : option Value) : res Trap (Mem * Value) :=
  match o with Some v => some m v | None => none m end.

(** [parts.map(Value::new_str)], one allocation per part in order. *)
Fixpoint new_strs (m : Mem) (parts : list string) : res Trap (Mem * list Value) :=
  match parts with
  | [] => Ok (m, [])
  | s :: parts' =>
      '(m, v) ← new_str m s;
      '(m, vs) ← new_strs m parts';
      Ok (m, v :: vs)
  end.

Definition string_list (m : Mem) (parts : list string) : res Trap (Mem * Value) :=
  '(m, vs) ← new_strs m parts; new_list m vs.

Definition int_list (m : Mem) (items : list i64) : res Trap (Mem * Value) :=
  new_list m (Int <$> items).

(** [items.map(f).collect::<Result<_, _>>()] *)
Fixpoint try_map {A B} (f : A → res Trap B) (xs : list A) : res Trap (list B) :=
  match xs with
  | [] => Ok []
  | x :: xs' => y ← f x; ys ← try_map f xs'; Ok (y :: ys)
  end.

(** ** Access to one object *)

Definition with_bytes {R} (m : Mem) (v : Value) (who : string) (f : list u8 → R) : res Trap R :=
  match v with
  | Ref h =>
      r ← with_obj m h (λ obj,
        match obj with
        | Bytes b => Ok (f b)
        | _ => Err (bug (who +:+ ": expected Bytes"))
        end);
      r
  | v => Err (bug (who +:+ ": expected Bytes, found " +:+ value_debug v))
  end.

Definition bytes_contents (m : Mem) (v : Value) (who : string) : res Trap (list u8) :=
  with_bytes m v who id.

(** A mutation of one object in place: [f] gives the new object and the result, or
    the error of an object of another kind. *)
Definition with_mut {R} (m : Mem) (h : nat) (f : Obj → Obj * res Trap R) : res Trap (Mem * R) :=
  '(m, r) ← with_obj_mut m h f;
  r ← (r : res Trap R);
  Ok (m, r).

Definition with_builder_mut {R} (m : Mem) (v : Value) (who : string) (f : list u8 → list u8 * R) :
    res Trap (Mem * R) :=
  match v with
  | Ref h =>
      with_mut m h (λ obj,
        match obj with
        | BytesBuilder buf => let (buf, r) := f buf in (BytesBuilder buf, Ok r)
        | _ => (obj, Err (bug (who +:+ ": expected BytesBuilder")))
        end)
  | v => Err (bug (who +:+ ": expected BytesBuilder, found " +:+ value_debug v))
  end.

(** [with_list] clones the list out, [with_list_ref] borrows it: the same read. *)
Definition with_list {R} (m : Mem) (v : Value) (who : string) (f : list Value → res Trap R) :
    res Trap R :=
  match v with
  | Ref h =>
      obj ← clone_obj m h;
      match obj with
      | List items => f items
      | _ => Err (bug (who +:+ ": expected list"))
      end
  | _ => Err (bug (who +:+ ": expected list"))
  end.

Definition with_list_ref {R} (m : Mem) (v : Value) (who : string) (f : list Value → res Trap R) :
    res Trap R :=
  match v with
  | Ref h =>
      r ← with_obj m h (λ obj,
        match obj with
        | List items => f items
        | _ => Err (bug (who +:+ ": expected list"))
        end);
      r
  | _ => Err (bug (who +:+ ": expected list"))
  end.

Definition with_list_mut {R} (m : Mem) (v : Value) (who : string)
    (f : list Value → list Value * res Trap R) : res Trap (Mem * R) :=
  match v with
  | Ref h =>
      with_mut m h (λ obj,
        match obj with
        | List items => let (items, r) := f items in (List items, r)
        | _ => (obj, Err (bug (who +:+ ": expected list")))
        end)
  | _ => Err (bug (who +:+ ": expected list"))
  end.

Definition map_handle (v : Value) (who : string) : res Trap nat :=
  match v with Ref h => Ok h | _ => Err (bug (who +:+ ": expected map")) end.

Definition with_map_ref {R} (m : Mem) (v : Value) (who : string) (f : MapObj → res Trap R) :
    res Trap R :=
  h ← map_handle v who;
  r ← with_obj m h (λ obj,
    match obj with
    | Map mp => f mp
    | _ => Err (bug (who +:+ ": expected map"))
    end);
  r.

(** The map is out of its slot while [f] runs: [f] sees the heap without it. *)
Definition with_map_taken {R} (m : Mem) (v : Value) (who : string)
    (f : Mem → MapObj → res Trap (MapObj * R)) : res Trap (Mem * R) :=
  h ← map_handle v who;
  '(m, obj) ← take_obj m h;
  match obj with
  | Map mp =>
      '(mp, r) ← f m mp;
      m ← restore_obj m h (Map mp);
      Ok (m, r)
  | _ =>
      m ← restore_obj m h obj;
      Err (bug (who +:+ ": expected map"))
  end.

Definition as_option (m : Mem) (v : Value) (who : string) : res Trap (u16 * list Value) :=
  match v with
  | Ref h =>
      r ← with_obj m h (λ obj,
        match obj with
        | Enum ty variant fields =>
            if ty =? TY_OPTION then Ok (variant, fields)
            else Err (bug (who +:+ ": expected Option"))
        | _ => Err (bug (who +:+ ": expected Option"))
        end);
      r
  | _ => Err (bug (who +:+ ": expected Option"))
  end.

(** ** As natives of the interpreter *)

Definition on_mem {Job Payload Ext} (f : MemNative) : Native (Job := Job) (Payload := Payload) (Ext := Ext) :=
  λ w args, '(m, v) ← f (w_mem w) args; Ok (set_w_mem w m, v).
End base.
