(* ===== verification/NativesText.v ===== *)
(** * String natives (src/runtime/src/interp/natives.rs)

    The text natives and the [String] methods, over the string operations of Rust's
    library they use: a string is its bytes ([Bytes]) and its characters ([Utf8]).
    The two case mappings and the parsing of doubles need Unicode and decimal tables
    of the library and are not modelled. *)

From Stdlib Require Import ZArith Lia Ascii.
From stdpp Require Import base numbers list strings gmap pretty.
From S2P Require Import Prelude Bytes Float64 Instr ModuleTable Value Utf8 Heap MapObj Trap Scheduler.
From S2P Require Import Render Interp NativesBase.

Open Scope Z_scope.

(** ** Library operations on strings *)

(** [s.starts_with(p)], [s.ends_with(p)], [s.contains(p)], on the bytes. *)
Definition starts_with (s p : list u8) : bool := bool_decide (p `prefix_of` s).
Definition ends_with (s p : list u8) : bool := bool_decide (p `suffix_of` s).

Fixpoint contains (s p : list u8) : bool :=
  starts_with s p || match s with [] => false | _ :: s' => contains s' p end.

Fixpoint drop_whitespace (cps : list Z) : list Z :=
  match cps with
  | [] => []
  | c :: cps' => if is_whitespace c then drop_whitespace cps' else cps
  end.

Definition trim_start (cps : list Z) : list Z := drop_whitespace cps.
Definition trim_end (cps : list Z) : list Z := reverse (drop_whitespace (reverse cps)).
Definition trim (cps : list Z) : list Z := trim_end (trim_start cps).

(** [s.split(sep)] for a separator that is not empty: [acc] is the part being read,
    [skip] the bytes of a separator still to pass over. *)
Fixpoint split_bytes (sep : list u8) (skip : nat) (acc s : list u8) : list (list u8) :=
  match s with
  | [] => [acc]
  | b :: s' =>
      match skip with
      | S k => split_bytes sep k acc s'
      | O =>
          if starts_with s sep then acc :: split_bytes sep (length sep - 1) [] s'
          else split_bytes sep 0 (acc ++ [b]) s'
      end
  end.

(** With the empty separator the parts are the characters, between two empty ones. *)
Definition split (s sep : string) : list string :=
  match as_bytes sep with
  | [] => [""] ++ ((λ c, of_chars [c]) <$> chars s) ++ [""]
  | sep => of_bytes <$> split_bytes sep 0 [] (as_bytes s)
  end.

Definition newline : u8 := 10.

(** [s.strip_suffix('\n').unwrap_or(s)] *)
Definition strip_newline (s : list u8) : list u8 :=
  match vec_pop s with
  | Some (s', b) => if b =? newline then s' else s
  | None => s
  end.

(** [s.split_whitespace()]: the runs between whitespace that are not empty. *)
Fixpoint split_ws (acc : list Z) (cps : list Z) : list (list Z) :=
  let word := match acc with [] => [] | _ => [acc] end in
  match cps with
  | [] => word
  | c :: cps' => if is_whitespace c then word ++ split_ws [] cps' else split_ws (acc ++ [c]) cps'
  end.

(** [s.parse::<i64>()] *)
Fixpoint parse_digits (acc : Z) (l : list u8) : option Z :=
  match l with
  | [] => Some acc
  | b :: l' => if between 48 b 57 then parse_digits (acc * 10 + (b - 48)) l' else None
  end.

Definition parse_i64 (s : string) : option i64 :=
  let '(neg, digits) :=
    match as_bytes s with
    | b :: l => if b =? 45 then (true, l) else if b =? 43 then (false, l) else (false, b :: l)
    | [] => (false, [])
    end in
  match digits with
  | [] => None
  | _ =>
      n ← parse_digits 0 digits;
      let n := if neg : bool then - n else n in
      if bool_decide (in_i64 n) then Some n else None
  end.

(** [s.get(a..b)] and [&s[a..b]] *)
Definition str_get (s : string) (a b : nat) : option string :=
  let l := as_bytes s in
  if Nat.leb a b && Nat.leb b (length l) && is_char_boundary l a && is_char_boundary l b
  then Some (of_bytes (take (b - a) (drop a l))) else None.

Definition str_index (s : string) (a b : nat) : res Trap string := or_panic (str_get s a b).

(** The loop of [native_str_slice] over the characters' offsets. *)
Fixpoint slice_scan (first last : Z) (cp_idx : Z) (ixs : list (nat * Z)) (byte_start byte_end : nat) :
    nat * nat :=
  match ixs with
  | [] => (byte_start, byte_end)
  | (byte_idx, _) :: ixs' =>
      let byte_start := if cp_idx =? first then byte_idx else byte_start in
      if cp_idx =? last then (byte_start, byte_idx)
      else slice_scan first last (cp_idx + 1) ixs' byte_start byte_end
  end.

Definition clamp (x lo hi : Z) : Z := if x <? lo then lo else if hi <? x then hi else x.

(** [u32::try_from(cp).ok().and_then(char::from_u32)] *)
Definition char_from (cp : i64) : option Z := if is_scalar cp then Some cp else None.
Definition REPLACEMENT : Z := 65533.

Section text.
Context `{Sizes}.
Variable f64_to_string : f64 → string.
Variable value_debug : Value → string.
Variable fuel : nat.

#[local] Abbreviation str_contents := (str_contents value_debug).
#[local] Abbreviation as_int := (as_int value_debug).

(** ** Renderings *)

Definition display_native (who : string) : MemNative := λ m args,
  v ← expect_one args who;
  s ← display_string f64_to_string m v;
  new_str m s.

Definition native_int_to_string : MemNative := display_native "int_to_string".
Definition native_double_to_string : MemNative := display_native "double_to_string".
Definition native_bool_to_string : MemNative := display_native "bool_to_string".

Definition native_str_identity : MemNative := λ m args,
  v ← expect_one args "str_identity";
  _ ← str_contents m v;
  Ok (m, v).

Definition native_string_debug : MemNative := λ m args,
  v ← expect_one args "string_debug";
  s ← str_contents m v;
  new_str m (quote_str s).

Definition native_bytes_debug : MemNative := λ m args,
  v ← expect_one args "bytes_debug";
  b ← bytes_contents value_debug m v "bytes_debug";
  new_str m ("Bytes[" +:+ hex_join b +:+ "]").

(** [for a in args { s.push_str(&str_contents(a)?) }] *)
Fixpoint concat_args (m : Mem) (args : list Value) (s : string) : res Trap string :=
  match args with
  | [] => Ok s
  | a :: args' => t ← str_contents m a; concat_args m args' (s +:+ t)
  end.

Definition native_str_concat : MemNative := λ m args,
  s ← concat_args m args ""; new_str m s.

Definition native_eq : MemNative := λ m args,
  '(a, b) ← args2 args "eq";
  r ← values_eq fuel (mem_slots m) a b;
  Ok (m, Bool r).

(** ** String methods *)

(** A method of one string whose result is [f] of it on the heap. *)
Definition str_to_value (who : string) (f : Mem → string → res Trap (Mem * Value)) : MemNative :=
  λ m args, v ← expect_one args who; s ← str_contents m v; f m s.

(** A test of two strings, on their bytes. *)
Definition str_test (who : string) (f : list u8 → list u8 → bool) : MemNative := λ m args,
  '(a, b) ← args2 args who;
  s ← str_contents m a;
  t ← str_contents m b;
  Ok (m, Bool (f (as_bytes s) (as_bytes t))).

Definition native_str_len : MemNative :=
  str_to_value "str_len" (λ m s, Ok (m, Int (as_i64 (Z.of_nat (length (chars s)))))).
Definition native_str_byte_len : MemNative :=
  str_to_value "str_byte_len" (λ m s, Ok (m, Int (as_i64 (Z.of_nat (length (as_bytes s)))))).
Definition native_str_trim : MemNative :=
  str_to_value "str_trim" (λ m s, new_str m (of_chars (trim (chars s)))).
Definition native_str_trim_start : MemNative :=
  str_to_value "str_trim_start" (λ m s, new_str m (of_chars (trim_start (chars s)))).
Definition native_str_trim_end : MemNative :=
  str_to_value "str_trim_end" (λ m s, new_str m (of_chars (trim_end (chars s)))).

Definition native_str_compare : MemNative := λ m args,
  '(a, b) ← args2 args "str_compare";
  s ← str_contents m a;
  t ← str_contents m b;
  alloc m (ordering_obj (bytes_cmp (as_bytes s) (as_bytes t))).

Definition native_str_contains : MemNative := str_test "str_contains" contains.
Definition native_str_starts_with : MemNative := str_test "str_starts_with" starts_with.
Definition native_str_ends_with : MemNative := str_test "str_ends_with" ends_with.

Definition native_str_lines : MemNative :=
  str_to_value "str_lines" (λ m s,
    match as_bytes s with
    | [] => new_list m []
    | l => string_list m (of_bytes <$> split_bytes [newline] 0 [] (strip_newline l))
    end).

Definition native_str_split_whitespace : MemNative :=
  str_to_value "str_split_whitespace" (λ m s, string_list m (of_chars <$> split_ws [] (chars s))).

Definition native_str_split : MemNative := λ m args,
  '(s, sep) ← args2 args "str_split";
  s ← str_contents m s;
  sep ← str_contents m sep;
  string_list m (split s sep).

Definition native_str_chars : MemNative := str_to_value "str_chars" (λ m s, int_list m (chars s)).
Definition native_str_bytes : MemNative := str_to_value "str_bytes" (λ m s, new_bytes m (as_bytes s)).

(** [for item in items { s.push(..) }] *)
Fixpoint push_chars (who : string) (s : list Z) (items : list Value) : res Trap (list Z) :=
  match items with
  | [] => Ok s
  | item :: items' =>
      cp ← as_int item who;
      push_chars who (push s (default REPLACEMENT (char_from cp))) items'
  end.

Definition native_str_from_chars : MemNative := λ m args,
  v ← expect_one args "str_from_chars";
  s ← with_list m v "str_from_chars" (push_chars "str_from_chars" []);
  new_str m (of_chars s).

(** As [push_chars], returning early with [None] at an element that is no character. *)
Fixpoint try_push_chars (who : string) (s : list Z) (items : list Value) : res Trap (option (list Z)) :=
  match items with
  | [] => Ok (Some s)
  | item :: items' =>
      cp ← as_int item who;
      match char_from cp with
      | Some c => try_push_chars who (push s c) items'
      | None => Ok None
      end
  end.

Definition native_str_try_from_chars : MemNative := λ m args,
  v ← expect_one args "str_try_from_chars";
  s ← with_list m v "str_try_from_chars" (try_push_chars "str_try_from_chars" []);
  match s with
  | Some s => '(m, v) ← new_str m (of_chars s); some m v
  | None => none m
  end.

Definition native_str_to_int : MemNative :=
  str_to_value "str_to_int" (λ m s, option_value m (Int <$> parse_i64 s)).

Definition native_str_slice : MemNative := λ m args,
  '(sv, startv, endv) ← args3 args "str_slice";
  s ← str_contents m sv;
  first ← as_int startv "str_slice";
  last ← as_int endv "str_slice";
  let first := Z.max first 0 in
  let last := Z.max last 0 in
  if last <=? first then new_str m "" else
  let len := length (as_bytes s) in
  let (byte_start, byte_end) := slice_scan first last 0 (char_indices s) len len in
  t ← str_index s byte_start byte_end;
  new_str m t.

Definition native_str_byte_slice : MemNative := λ m args,
  '(sv, startv, endv) ← args3 args "str_byte_slice";
  s ← str_contents m sv;
  first ← as_int startv "str_byte_slice";
  last ← as_int endv "str_byte_slice";
  let len := as_i64 (Z.of_nat (length (as_bytes s))) in
  let a := Z.to_nat (clamp first 0 len) in
  let b := (Z.to_nat (clamp last 0 len) `max` a)%nat in
  new_str m (default "" (str_get s a b)).
End text.
