(* ===== verification/NativesColl.v ===== *)
(** * Collection and number natives (src/runtime/src/interp/natives.rs)

    Byte buffers and builders, lists, maps and the numeric conversions.  A map's keys
    are hashed before the map is touched; a mutation takes the map out of its slot,
    so comparing keys meanwhile sees the heap without it. *)

From Stdlib Require Import ZArith Lia.
From stdpp Require Import base numbers list strings gmap pretty.
From S2P Require Import Prelude Bytes Float64 Instr ModuleTable Value Utf8 Heap MapObj Trap Scheduler.
From S2P Require Import Render Interp NativesBase NativesText.

Open Scope Z_scope.

Section coll.
Context `{Sizes}.
Variable f64_to_string : f64 → string.
Variable value_debug : Value → string.
Variable fuel : nat.

#[local] Abbreviation str_contents := (str_contents value_debug).
#[local] Abbreviation as_int := (as_int value_debug).
#[local] Abbreviation as_double := (as_double value_debug).
#[local] Abbreviation with_bytes := (with_bytes value_debug).
#[local] Abbreviation bytes_contents := (bytes_contents value_debug).
#[local] Abbreviation with_builder_mut := (with_builder_mut value_debug).

(** ** Bytes *)

Definition native_bytes_len : MemNative := λ m args,
  v ← expect_one args "bytes_len";
  r ← with_bytes m v "bytes_len" (λ b, Int (as_i64 (Z.of_nat (length b))));
  Ok (m, r).

(** [usize::try_from(i).ok().and_then(|i| xs.get(i))] *)
Definition get_at {A} (xs : list A) (i : i64) : option A :=
  if 0 <=? i then xs !! Z.to_nat i else None.

Definition native_bytes_get : MemNative := λ m args,
  '(bv, iv) ← args2 args "bytes_get";
  i ← as_int iv "bytes_get";
  byte ← with_bytes m bv "bytes_get" (λ b, get_at b i);
  option_value m (Int <$> byte).

Definition native_bytes_slice : MemNative := λ m args,
  '(bv, sv, ev) ← args3 args "bytes_slice";
  first ← as_int sv "bytes_slice";
  last ← as_int ev "bytes_slice";
  out ← with_bytes m bv "bytes_slice" (λ b,
    let len := as_i64 (Z.of_nat (length b)) in
    let s := Z.to_nat (clamp first 0 len) in
    let e := (Z.to_nat (clamp last 0 len) `max` s)%nat in
    take (e - s) (drop s b));
  new_bytes m out.

Definition native_bytes_concat : MemNative := λ m args,
  '(av, bv) ← args2 args "bytes_concat";
  a ← bytes_contents m av "bytes_concat";
  b ← bytes_contents m bv "bytes_concat";
  new_bytes m (a ++ b).

Definition native_bytes_to_string : MemNative := λ m args,
  v ← expect_one args "bytes_to_string";
  b ← bytes_contents m v "bytes_to_string";
  if utf8_valid b then '(m, v) ← new_str m (of_bytes b); ok m v
  else '(m, v) ← new_str m "bytes are not valid UTF-8"; err m v.

Definition native_bytes_to_list : MemNative := λ m args,
  v ← expect_one args "bytes_to_list";
  b ← bytes_contents m v "bytes_to_list";
  int_list m b.

Definition native_bytes_empty : MemNative := λ m _, new_bytes m [].

(** The loop of [native_bytes_from_list]: the bytes, or the message of the first
    value out of range. *)
Fixpoint collect_bytes (out : list u8) (items : list Value) : res Trap (string + list u8) :=
  match items with
  | [] => Ok (inr out)
  | item :: items' =>
      n ← as_int item "bytes_from_list";
      if between 0 n 255 then collect_bytes (push out (as_u8 n)) items'
      else Ok (inl ("byte value out of range (0..=255): " +:+ pretty n))
  end.

Definition native_bytes_from_list : MemNative := λ m args,
  v ← expect_one args "bytes_from_list";
  built ← with_list m v "bytes_from_list" (collect_bytes []);
  match built with
  | inr bytes => '(m, v) ← new_bytes m bytes; ok m v
  | inl msg => '(m, v) ← new_str m msg; err m v
  end.

(** ** Bytes builders *)

Definition native_bytesbuilder_new : MemNative := λ m _, new_bytes_builder m.

Definition native_bytesbuilder_write_u8 : MemNative := λ m args,
  '(bv, nv) ← args2 args "bytesbuilder_write_u8";
  n ← as_int nv "bytesbuilder_write_u8";
  '(m, _) ← with_builder_mut m bv "bytesbuilder_write_u8" (λ buf, (push buf (n mod 256), tt));
  Ok (m, Unit).

Definition native_bytesbuilder_write_bytes : MemNative := λ m args,
  '(bv, dv) ← args2 args "bytesbuilder_write_bytes";
  data ← bytes_contents m dv "bytesbuilder_write_bytes";
  '(m, _) ← with_builder_mut m bv "bytesbuilder_write_bytes" (λ buf, (buf ++ data, tt));
  Ok (m, Unit).

Definition native_bytesbuilder_write_str : MemNative := λ m args,
  '(bv, sv) ← args2 args "bytesbuilder_write_str";
  s ← str_contents m sv;
  '(m, _) ← with_builder_mut m bv "bytesbuilder_write_str" (λ buf, (buf ++ as_bytes s, tt));
  Ok (m, Unit).

Definition native_bytesbuilder_len : MemNative := λ m args,
  v ← expect_one args "bytesbuilder_len";
  with_builder_mut m v "bytesbuilder_len" (λ buf, (buf, Int (as_i64 (Z.of_nat (length buf))))).

Definition native_bytesbuilder_finish : MemNative := λ m args,
  v ← expect_one args "bytesbuilder_finish";
  '(m, bytes) ← with_builder_mut m v "bytesbuilder_finish" (λ buf, (buf, buf));
  new_bytes m bytes.

(** ** Lists *)

Definition native_list_index : MemNative := λ m args,
  '(list, idx) ← args2 args "list index";
  i ← as_int idx "list index";
  v ← with_list_ref m list "list index" (λ items,
    n ← checked_index i (length items); or_panic (items !! n));
  Ok (m, v).

Definition native_list_get : MemNative := λ m args,
  '(list, idx) ← args2 args "list.get";
  i ← as_int idx "list.get";
  o ← with_list m list "list.get" (λ items,
    match checked_index i (length items) with
    | Ok n => v ← or_panic (items !! n); Ok (Some v)
    | _ => Ok None
    end);
  option_value m o.

Definition native_list_len : MemNative := λ m args,
  v ← expect_one args "list.len";
  n ← with_list_ref m v "list.len" (λ items, Ok (Int (as_i64 (Z.of_nat (length items)))));
  Ok (m, n).

Definition native_list_set : MemNative := λ m args,
  '(list, idx, val) ← args3 args "list set";
  i ← as_int idx "list set";
  with_list_mut m list "list set" (λ items,
    match checked_index i (length items) with
    | Ok n => if decide (n < length items)%nat then (<[n := val]> items, Ok Unit) else (items, Panic)
    | Err e => (items, Err e)
    | Panic => (items, Panic)
    | NoFuel => (items, NoFuel)
    end).

Definition native_list_push : MemNative := λ m args,
  '(list, val) ← args2 args "list push";
  with_list_mut m list "list push" (λ items, (push items val, Ok Unit)).

Definition native_list_pop : MemNative := λ m args,
  v ← expect_one args "list.pop";
  '(m, popped) ← with_list_mut m v "list.pop" (λ items,
    match vec_pop items with
    | Some (rest, x) => (rest, Ok (Some x))
    | None => (items, Ok None)
    end);
  option_value m popped.

Definition native_list_clear : MemNative := λ m args,
  v ← expect_one args "list.clear";
  with_list_mut m v "list.clear" (λ _, ([], Ok Unit)).

Definition native_list_join : MemNative := λ m args,
  '(list, sep) ← args2 args "list.join";
  sep ← str_contents m sep;
  s ← with_list m list "list.join" (λ items,
    parts ← try_map (display_string f64_to_string m) items;
    Ok (String.concat sep parts));
  new_str m s.

(** ** Maps *)

#[local] Abbreviation eqb m := (values_eq (E := Trap) fuel (mem_slots m)).
#[local] Abbreviation hash m := (hash_value (E := Trap) fuel (mem_slots m)).

Definition native_map_keys : MemNative := λ m args,
  v ← expect_one args "map.keys";
  keys ← with_map_ref m v "map.keys" (λ mp, Ok ((entries mp).*1));
  new_list m keys.

Definition native_map_values : MemNative := λ m args,
  v ← expect_one args "map.values";
  vals ← with_map_ref m v "map.values" (λ mp, Ok ((entries mp).*2));
  new_list m vals.

Definition native_map_remove : MemNative := λ m args,
  '(map, key) ← args2 args "map.remove";
  h ← hash m key;
  '(m, removed) ← with_map_taken m map "map.remove" (λ m mp, map_remove (eqb m) mp key h);
  option_value m removed.

Definition native_map_clear : MemNative := λ m args,
  v ← expect_one args "map.clear";
  with_map_taken m v "map.clear" (λ _ mp, Ok (map_clear mp, Unit)).

(** The arguments two by two. *)
Fixpoint chunks2 (args : list Value) : list (Value * Value) :=
  match args with
  | k :: v :: args' => (k, v) :: chunks2 args'
  | _ => []
  end.

Definition native_map_new : MemNative := λ m args,
  if negb (Nat.even (length args))
  then Err (bug "map literal: expected an even number of arguments") else
  mp ← from_pairs (eqb m) (hash m) (chunks2 args);
  alloc m (Map mp).

Definition key_label (m : Mem) (v : Value) : res Trap string :=
  match v with
  | Int n => Ok (pretty n)
  | Double x => Ok (format_double f64_to_string x)
  | Bool b => Ok (bool_to_string b)
  | Unit => Ok "void"
  | Ref h => with_obj m h (λ obj, match obj with Str s => "'" +:+ s +:+ "'" | _ => "<key>" end)
  end.

Definition native_map_index : MemNative := λ m args,
  '(map, key) ← args2 args "map index";
  h ← hash m key;
  found ← with_map_ref m map "map index" (λ mp, map_get (eqb m) mp key h);
  match found with
  | Some v => Ok (m, v)
  | None => s ← key_label m key; Err (MissingKey s)
  end.

Definition native_map_get : MemNative := λ m args,
  '(map, key) ← args2 args "map.get";
  h ← hash m key;
  found ← with_map_ref m map "map.get" (λ mp, map_get (eqb m) mp key h);
  option_value m found.

Definition native_map_len : MemNative := λ m args,
  v ← expect_one args "map.len";
  n ← with_map_ref m v "map.len" (λ mp, Ok (Int (as_i64 (Z.of_nat (map_len mp)))));
  Ok (m, n).

Definition native_map_has : MemNative := λ m args,
  '(map, key) ← args2 args "map.has";
  h ← hash m key;
  b ← with_map_ref m map "map.has" (λ mp, map_contains (eqb m) mp key h);
  Ok (m, Bool b).

Definition native_map_set : MemNative := λ m args,
  '(map, key, val) ← args3 args "map set";
  h ← hash m key;
  with_map_taken m map "map set" (λ m mp, mp ← map_insert (eqb m) mp key h val; Ok (mp, Unit)).

(** ** Numbers *)

Definition native_int_to_double : MemNative := λ m args,
  v ← expect_one args "int_to_double"; n ← as_int v "int_to_double"; Ok (m, Double (f64_of_i64 n)).

Definition native_double_to_int : MemNative := λ m args,
  v ← expect_one args "double_to_int"; x ← as_double v "double_to_int"; Ok (m, Int (i64_of_f64 x)).

Definition native_double_to_bits : MemNative := λ m args,
  v ← expect_one args "double_to_bits"; x ← as_double v "double_to_bits"; Ok (m, Int (as_i64 x)).
End coll.
