(* ===== verification/NativesFiber.v ===== *)
(** * Fiber, channel, time and console natives (src/runtime/src/interp/natives.rs)

    The natives that act on the scheduler, suspend the running fiber or write to the
    program's streams.  [Console] is the interface of the rest of the machine they
    use: the capture stack of [thera test], whether a write to the real streams
    fails, the clocks, and the counter [COUNTER] of entropy requests.  Instants count nanoseconds. *)

From Stdlib Require Import ZArith Lia.
From stdpp Require Import base numbers list strings gmap pretty.
From S2P Require Import Prelude Bytes Float64 Instr ModuleTable Value Utf8 Heap MapObj Trap Scheduler.
From S2P Require Import Render Interp Driver NativesBase NativesText.

Open Scope Z_scope.

(** [CAPTURE] with the laws of a field; a stream write, a flush and a clock reading
    leave it alone. *)
Class Console (Ext : Type) := {
  CAPTURE : Ext → list (list u8);
  set_capture : Ext → list (list u8) → Ext;
  out_error : Ext → list u8 → option string;
  flush_out : Ext → Ext * option string;
  stderr_write : Ext → list u8 → Ext * option string;
  instant_now : Ext → Ext * Instant;
  unix_millis : Ext → Ext * i64;
  unix_nanos : Ext → Ext * u64;
  count_entropy : Ext → Ext * u64;
  capture_set e c : CAPTURE (set_capture e c) = c;
}.

Section fiber.
Context `{Sizes} {Job Payload Ext : Type} `{Console Ext}.
Variable value_debug : Value → string.

#[local] Abbreviation World := (World (Job := Job) (Payload := Payload) (Ext := Ext)).
#[local] Abbreviation Native := (Native (Job := Job) (Payload := Payload) (Ext := Ext)).
#[local] Abbreviation str_contents := (str_contents value_debug).
#[local] Abbreviation as_int := (as_int value_debug).

Definition set_w_out (w : World) (out : list u8) : World :=
  mkWorld (w_mem w) (w_sched w) (w_park w) out (w_ext w).

(** ** Console output *)

(** [emit_stdout]: to the innermost capture buffer, or to the program's output; the
    error of a write that fails. *)
Definition emit_stdout (w : World) (bytes : list u8) : World * option string :=
  match vec_pop (CAPTURE (w_ext w)) with
  | Some (rest, buf) => (set_w_ext w (set_capture (w_ext w) (push rest (buf ++ bytes))), None)
  | None =>
      match out_error (w_ext w) bytes with
      | Some e => (w, Some e)
      | None => (set_w_out w (w_out w ++ bytes), None)
      end
  end.

Definition print_native (who : string) (tail : list u8) : Native := λ w args,
  v ← expect_one args who;
  s ← str_contents (w_mem w) v;
  let (w, e) := emit_stdout w (as_bytes s ++ tail) in
  match e with
  | Some e => Err (bug (who +:+ ": " +:+ e))
  | None => Ok (w, Unit)
  end.

Definition native_println : Native := print_native "println" [newline].
Definition native_print : Native := print_native "print" [].

(** The program's output is flushed first, whatever comes of it. *)
Definition eprint_native (who : string) (tail : list u8) : Native := λ w args,
  v ← expect_one args who;
  s ← str_contents (w_mem w) v;
  let (ext, _) := flush_out (w_ext w) in
  let (ext, e) := stderr_write ext (as_bytes s ++ tail) in
  match e with
  | Some e => Err (bug (who +:+ ": " +:+ e))
  | None => Ok (set_w_ext w ext, Unit)
  end.

Definition native_eprintln : Native := eprint_native "eprintln" [newline].
Definition native_eprint : Native := eprint_native "eprint" [].

Definition native_test_capture_begin : Native := λ w args,
  match args with
  | [] => Ok (set_w_ext w (set_capture (w_ext w) (push (CAPTURE (w_ext w)) [])), Unit)
  | _ => Err (bug "test_capture_begin expects 0 arguments")
  end.

Definition native_test_capture_end : Native := λ w args,
  match args with
  | [] =>
      '(rest, buf) ← ok_or (vec_pop (CAPTURE (w_ext w))) (bug "test_capture_end: no active capture");
      let w := set_w_ext w (set_capture (w_ext w) rest) in
      '(m, v) ← new_str (w_mem w) (of_bytes (utf8_lossy buf));
      Ok (set_w_mem w m, v)
  | _ => Err (bug "test_capture_end expects 0 arguments")
  end.

(** The [Result] of writing [data] to a stream that answered [e]. *)
Definition write_result (w : World) (stream : string) (data : list u8) (e : option string) :
    res Trap (World * Value) :=
  '(m, v) ←
    match e with
    | None => ok (w_mem w) (Int (as_i64 (Z.of_nat (length data))))
    | Some e => '(m, v) ← new_str (w_mem w) (stream +:+ ": " +:+ e); err m v
    end;
  Ok (set_w_mem w m, v).

Definition native_io_stdout_write : Native := λ w args,
  v ← expect_one args "io_stdout_write";
  data ← bytes_contents value_debug (w_mem w) v "io_stdout_write";
  let (w, e) := emit_stdout w data in
  let (w, e) :=
    match e with
    | Some e => (w, Some e)
    | None => let (ext, e) := flush_out (w_ext w) in (set_w_ext w ext, e)
    end in
  write_result w "stdout" data e.

Definition native_io_stderr_write : Native := λ w args,
  v ← expect_one args "io_stderr_write";
  data ← bytes_contents value_debug (w_mem w) v "io_stderr_write";
  let (ext, e) := stderr_write (w_ext w) data in
  write_result (set_w_ext w ext) "stderr" data e.

(** ** Fibers *)

(** [n as usize] as an index. *)
Definition as_index (n : i64) : nat := Z.to_nat (as_u64 n).

Definition park_with (w : World) (req : ParkRequest Job Payload Ext) : World := set_w_park w (Some req).

Definition native_fiber_spawn : Native := λ w args,
  closure ← expect_one args "fiber_spawn";
  '(s, id) ← spawn (w_sched w) closure;
  Ok (set_w_sched w s, Int (as_i64 (Z.of_nat id))).

Definition native_fiber_join : Native := λ w args,
  v ← expect_one args "fiber_join";
  id ← as_int v "fiber_join";
  match fiber_result (w_sched w) (as_index id) with
  | Some value => Ok (w, value)
  | None => Ok (park_with w BlockRetry, Unit)
  end.

Definition native_fiber_is_done : Native := λ w args,
  v ← expect_one args "fiber_is_done";
  id ← as_int v "fiber_is_done";
  Ok (w, Bool (bool_decide (is_Some (fiber_result (w_sched w) (as_index id))))).

Definition native_fiber_yield : Native := λ w args,
  _ ← expect_no_args args "fiber_yield";
  Ok (park_with w YieldReady, Unit).

(** ** Channels *)

Definition native_channel_new : Native := λ w args,
  v ← expect_one args "channel_new";
  cap ← as_int v "channel_new";
  let (s, id) := channel_new (w_sched w) (if cap <? 0 then 0%nat else Z.to_nat cap) in
  Ok (set_w_sched w s, Int (as_i64 (Z.of_nat id))).

Definition native_chan_is_ready : Native := λ w args,
  v ← expect_one args "chan_is_ready";
  id ← as_int v "chan_is_ready";
  b ← chan_ready (w_sched w) (as_index id);
  Ok (w, Bool b).

Definition native_channel_send : Native := λ w args,
  '(idv, value) ← args2 args "channel_send";
  id ← as_int idv "channel_send";
  '(s, outcome) ← chan_send (w_sched w) (as_index id) value;
  let w := set_w_sched w s in
  match outcome with
  | Sent => Ok (w, Unit)
  | Full => Ok (park_with w BlockRetry, Unit)
  | Closed => Err ClosedChannel
  end.

Definition native_channel_receive : Native := λ w args,
  v ← expect_one args "channel_receive";
  id ← as_int v "channel_receive";
  '(s, outcome) ← chan_receive (w_sched w) (as_index id);
  let w := set_w_sched w s in
  match outcome with
  | Got value => '(m, v) ← some (w_mem w) value; Ok (set_w_mem w m, v)
  | Drained => '(m, v) ← none (w_mem w); Ok (set_w_mem w m, v)
  | Empty => Ok (park_with w BlockRetry, Unit)
  end.

Definition native_channel_close : Native := λ w args,
  v ← expect_one args "channel_close";
  id ← as_int v "channel_close";
  s ← chan_close (w_sched w) (as_index id);
  Ok (set_w_sched w s, Unit).

(** ** Time *)

(** [Instant::now() + Duration::from_millis(millis)] *)
Definition deadline_after (w : World) (millis : u64) : World * Instant :=
  let (e, t) := instant_now (w_ext w) in (set_w_ext w e, t + millis * 1000000).

Definition native_time_now_millis : Native := λ w args,
  _ ← expect_no_args args "time_now_millis";
  let (e, millis) := unix_millis (w_ext w) in
  Ok (set_w_ext w e, Int millis).

Definition native_time_sleep_millis : Native := λ w args,
  v ← expect_one args "time_sleep_millis";
  millis ← as_int v "time_sleep_millis";
  if 0 <? millis then
    let (w, deadline) := deadline_after w (as_u64 millis) in
    Ok (park_with w (Timer deadline), Unit)
  else Ok (w, Unit).

Definition native_select_park : Native := λ w args,
  '(hv, dv) ← args2 args "select_park";
  handles ← with_list (w_mem w) hv "select_park" (try_map (λ v, as_int v "select_park"));
  deadline_millis ← as_int dv "select_park";
  let (w, deadline) :=
    if deadline_millis <? 0 then (w, None)
    else
      let (e, now) := unix_millis (w_ext w) in
      let remaining := Z.max (as_i64 (deadline_millis - now)) 0 in
      let (w, d) := deadline_after (set_w_ext w e) remaining in
      (w, Some d) in
  Ok (park_with w (Multi deadline handles), Unit).
(** ** Random seeds *)

Definition splitmix64_mix (z : u64) : u64 :=
  let z := as_u64 (Z.lxor z (Z.shiftr z 30) * 0xBF58476D1CE4E5B9) in
  let z := as_u64 (Z.lxor z (Z.shiftr z 27) * 0x94D049BB133111EB) in
  Z.lxor z (Z.shiftr z 31).

Definition native_random_seed_entropy : Native := λ w args,
  _ ← expect_no_args args "random_seed_entropy";
  let (e, nanos) := unix_nanos (w_ext w) in
  let (e, n) := count_entropy e in
  let seed := splitmix64_mix (as_u64 (nanos + as_u64 (n * 0x9E3779B97F4A7C15))) in
  Ok (set_w_ext w e, Int (as_i64 seed)).
End fiber.
