(* ===== verification/System.v ===== *)
(** * The operating system, the process's statics and the blocking calls

    What the I/O natives of src/runtime/src/interp/natives.rs and interp/tls.rs use of
    the outside.  [SystemTypes] and the classes after it are the operating system and
    the crates: opaque types with one function per call, each a state transformer.
    [Statics] holds the process-wide variables, which worker threads share with the
    Thera thread.  A job is a [Syscall] on them whose result is boxed with its type,
    as [Box<dyn Any>] is, and [park_syscall] hands it to the driver. *)

From Stdlib Require Import ZArith Lia.
From stdpp Require Import base numbers list strings gmap pretty.
From S2P Require Import Prelude Bytes Float64 Instr ModuleTable Value Heap MapObj Trap Scheduler.
From S2P Require Import Render Interp Driver NativesBase NativesFiber.

Open Scope Z_scope.

(** ** Errors and opaque types *)

(** [std::io::ErrorKind], the kinds the code names. *)
Inductive ErrorKind :=
  | NotFound | PermissionDenied | AlreadyExists | NotADirectory | IsADirectory
  | WouldBlock | NotConnected | ConnectionRefused | ConnectionReset | ConnectionAborted
  | BrokenPipe | AddrInUse | AddrNotAvailable | TimedOut | Interrupted | UnexpectedEof | WriteZero | Other.

#[export] Instance ErrorKind_eq_dec : EqDecision ErrorKind.
Proof. solve_decision. Defined.

(** [std::io::Error]: its kind and its Display text. *)
Record IoError := mkIoError { err_kind : ErrorKind; err_text : string }.

(** [std::io::Result<A>] *)
Definition io (A : Type) : Type := IoError + A.

Definition io_map {A B} (f : A → B) (r : io A) : io B :=
  match r with inl e => inl e | inr a => inr (f a) end.

Class SystemTypes := {
  Os : Type;
  PathBuf : Type;
  DirEntry : Type;
  File : Type;
  Child : Type;
  ChildStdin : Type;
  ChildStdout : Type;
  ChildStderr : Type;
  Regex : Type;
}.

(** [FileType]'s three questions. *)
Record FileType := mkFileType { is_symlink : bool; is_dir : bool; is_file : bool }.

(** [Metadata]: the modification time in milliseconds since the epoch, if the platform
    reports one that is not before it. *)
Record Metadata := mkMetadata { m_type : FileType; m_len : u64; m_modified : option Z }.

Inductive SeekFrom := Start (n : u64) | Current (n : i64) | End_ (n : i64).

(** The captured output of a child: its exit code, if it was not killed. *)
Record Output := mkOutput { o_code : option Z; o_stdout : list u8; o_stderr : list u8 }.

(** What [fs.temp_file]'s job returns. *)
Inductive TempFileOutcome :=
  | Created (s : string)
  | FsError (path : string) (e : IoError)
  | Exhausted (msg : string).

(** ** State transformers *)

Definition Syscall (S A : Type) : Type := S → S * A.

#[export] Instance syscall_ret S : MRet (Syscall S) := λ A a s, (s, a).
#[export] Instance syscall_bind S : MBind (Syscall S) := λ A B f c s, let (s, a) := c s in f a s.

(** [r?] in a job that returns an [io::Result]. *)
Definition and_then {S A B} (c : Syscall S (io A)) (f : A → Syscall S (io B)) : Syscall S (io B) :=
  r ← c; match r with inl e => mret (inl e) | inr a => f a end.

(** ** The process *)

Section statics.
Context `{SystemTypes}.

Record RunningProcess := mkProcess {
  child : Child;
  p_stdin : option ChildStdin;
  p_stdout : option ChildStdout;
  p_stderr : option ChildStderr;
}.

(** The operating system and the process's [static]s. *)
Record Statics := mkStatics {
  os : Os;
  NEXT_FILE_ID : i64;
  file_registry : gmap Z File;
  TEMP_FILE_COUNTER : i64;
  NEXT_PROCESS_ID : i64;
  process_registry : gmap Z RunningProcess;
  NEXT_REGEX_ID : i64;
  regex_registry : gmap Z Regex;
  PROGRAM_ARGS : option (list string);
  START : option Instant;
}.

Definition set_os (g : Statics) (o : Os) : Statics :=
  mkStatics o (NEXT_FILE_ID g) (file_registry g) (TEMP_FILE_COUNTER g) (NEXT_PROCESS_ID g)
    (process_registry g) (NEXT_REGEX_ID g) (regex_registry g) (PROGRAM_ARGS g) (START g).
Definition set_files (g : Statics) (n : i64) (fs : gmap Z File) : Statics :=
  mkStatics (os g) n fs (TEMP_FILE_COUNTER g) (NEXT_PROCESS_ID g)
    (process_registry g) (NEXT_REGEX_ID g) (regex_registry g) (PROGRAM_ARGS g) (START g).
Definition set_temp_counter (g : Statics) (n : i64) : Statics :=
  mkStatics (os g) (NEXT_FILE_ID g) (file_registry g) n (NEXT_PROCESS_ID g)
    (process_registry g) (NEXT_REGEX_ID g) (regex_registry g) (PROGRAM_ARGS g) (START g).
Definition set_processes (g : Statics) (n : i64) (ps : gmap Z RunningProcess) : Statics :=
  mkStatics (os g) (NEXT_FILE_ID g) (file_registry g) (TEMP_FILE_COUNTER g) n ps
    (NEXT_REGEX_ID g) (regex_registry g) (PROGRAM_ARGS g) (START g).
Definition set_regexes (g : Statics) (n : i64) (rs : gmap Z Regex) : Statics :=
  mkStatics (os g) (NEXT_FILE_ID g) (file_registry g) (TEMP_FILE_COUNTER g) (NEXT_PROCESS_ID g)
    (process_registry g) n rs (PROGRAM_ARGS g) (START g).
Definition set_args (g : Statics) (args : option (list string)) : Statics :=
  mkStatics (os g) (NEXT_FILE_ID g) (file_registry g) (TEMP_FILE_COUNTER g) (NEXT_PROCESS_ID g)
    (process_registry g) (NEXT_REGEX_ID g) (regex_registry g) args (START g).
Definition set_start (g : Statics) (t : option Instant) : Statics :=
  mkStatics (os g) (NEXT_FILE_ID g) (file_registry g) (TEMP_FILE_COUNTER g) (NEXT_PROCESS_ID g)
    (process_registry g) (NEXT_REGEX_ID g) (regex_registry g) (PROGRAM_ARGS g) t.

(** A call of the operating system. *)
Definition on_os {A} (c : Syscall Os A) : Syscall Statics A := λ g,
  let (o, a) := c (os g) in (set_os g o, a).

(** [fetch_add(1)] on the two counters a file handle or name comes from. *)
Definition next_file_id : Syscall Statics i64 := λ g,
  (set_files g (wrapping_add (NEXT_FILE_ID g) 1) (file_registry g), NEXT_FILE_ID g).
Definition next_temp : Syscall Statics i64 := λ g,
  (set_temp_counter g (wrapping_add (TEMP_FILE_COUNTER g) 1), TEMP_FILE_COUNTER g).
Definition next_process_id : Syscall Statics i64 := λ g,
  (set_processes g (wrapping_add (NEXT_PROCESS_ID g) 1) (process_registry g), NEXT_PROCESS_ID g).
Definition next_regex_id : Syscall Statics i64 := λ g,
  (set_regexes g (wrapping_add (NEXT_REGEX_ID g) 1) (regex_registry g), NEXT_REGEX_ID g).

(** ** Boxed payloads *)

(** The types of the workers' payloads: what [TypeId] tells apart. *)
Inductive TypeId :=
  | TUnit | TString | TU64 | TBytes | TNames | TMetadata | TFile | TTempFileOutcome | TOutput
  | TExitStatus | TChildStdin | TChildStdout | TChildStderr
  | TIo (t : TypeId) | TOption (t : TypeId) | TPair (a b : TypeId).

#[export] Instance TypeId_eq_dec : EqDecision TypeId.
Proof. solve_decision. Defined.

Fixpoint type_of (t : TypeId) : Type :=
  match t with
  | TUnit => unit
  | TString => string
  | TU64 => u64
  | TBytes => list u8
  | TNames => list string
  | TMetadata => Metadata
  | TFile => File
  | TTempFileOutcome => TempFileOutcome
  | TOutput => Output
  | TExitStatus => option Z
  | TChildStdin => ChildStdin
  | TChildStdout => ChildStdout
  | TChildStderr => ChildStderr
  | TIo t => io (type_of t)
  | TOption t => option (type_of t)
  | TPair a b => type_of a * type_of b
  end.

(** [Box<dyn Any + Send>] *)
Definition Payload : Type := {t : TypeId & type_of t}.

Definition boxed (t : TypeId) (x : type_of t) : Payload := existT t x.

(** [payload.downcast::<T>()] *)
Definition downcast (t : TypeId) (p : Payload) : option (type_of t) :=
  match decide (projT1 p = t) with
  | left e => Some (eq_rect _ type_of (projT2 p) _ e)
  | right _ => None
  end.

Lemma downcast_boxed t x : downcast t (boxed t x) = Some x.
Proof.
  unfold downcast, boxed. cbn [projT1]. destruct (decide (t = t)) as [e|]; [|done].
  by rewrite (proof_irrel e eq_refl).
Qed.

(** [IoJob] *)
Definition Job : Type := Syscall Statics Payload.
End statics.

(** Where the statics are in the rest of the machine. *)
Class Process (Ext : Type) `{SystemTypes} := {
  statics : Ext → Statics;
  set_statics : Ext → Statics → Ext;
  statics_set e g : statics (set_statics e g) = g;
}.

Section park.
Context `{Sizes} `{SystemTypes} {Ext : Type} `{!Process Ext}.

#[local] Abbreviation World := (World (Job := Job) (Payload := Payload) (Ext := Ext)).

(** A builder: it runs on the Thera thread, where it may allocate and use the statics. *)
Definition Build (T : Type) : Type := T → Ext → Mem → res Trap (Ext * Mem * Value).

(** A builder that only allocates. *)
Definition building {T} (f : T → Mem → res Trap (Mem * Value)) : Build T := λ x e m,
  '(m, v) ← f x m; Ok (e, m, v).

(** A [Syscall] on the Thera thread itself. *)
Definition in_ext {A} (c : Syscall Statics A) (e : Ext) : Ext * A :=
  let (g, a) := c (statics e) in (set_statics e g, a).
Definition in_world {A} (c : Syscall Statics A) (w : World) : World * A :=
  let (e, a) := in_ext c (w_ext w) in (set_w_ext w e, a).

(** The result of the last allocations. *)
Definition returning (w : World) (r : res Trap (Mem * Value)) : res Trap (World * Value) :=
  '(m, v) ← r; Ok (set_w_mem w m, v).

(** [park_syscall(job, build)] *)
Definition park_syscall (t : TypeId) (w : World) (job : Syscall Statics (type_of t))
    (build : Build (type_of t)) : World :=
  park_with w
    (Await (x ← job; mret (boxed t x))
      (λ p e m, x ← or_panic (downcast t p); build x e m)).

(** ** Calls on the Thera thread *)

Lemma statics_in_ext {A} (c : Syscall Statics A) (e : Ext) : statics (in_ext c e).1 = (c (statics e)).1.
Proof. unfold in_ext. destruct (c (statics e)). apply statics_set. Qed.

Lemma snd_in_ext {A} (c : Syscall Statics A) (e : Ext) : (in_ext c e).2 = (c (statics e)).2.
Proof. unfold in_ext. by destruct (c (statics e)). Qed.

Lemma in_world_eq {A} (c : Syscall Statics A) (w : World) :
  in_world c w = (set_w_ext w (in_ext c (w_ext w)).1, (c (statics (w_ext w))).2).
Proof. unfold in_world. rewrite <-snd_in_ext. by destruct (in_ext c (w_ext w)). Qed.
End park.
