(* ===== verification/NativesFs.v ===== *)
(** * File-system, file-handle and stdin natives (src/runtime/src/interp/natives.rs)

    Each blocking native checks its arguments on the Thera thread, parks with a job and
    maps the job's result to [Ok] or [Err] when it is delivered.  An open file is in the
    registry under its handle, except while a job uses it: the native takes it out and
    the builder puts it back. *)

From Stdlib Require Import ZArith Lia.
From stdpp Require Import base numbers list strings gmap pretty.
From S2P Require Import Prelude Bytes Float64 Instr ModuleTable Value Heap MapObj Trap Scheduler.
From S2P Require Import Render Interp Driver NativesBase NativesText NativesFiber System.

Open Scope Z_scope.

(** [std::fs], [std::io::stdin], [std::env::temp_dir] and the clock. *)
Class FileSystem `{SystemTypes} := {
  read_to_string : string → Syscall Os (io string);
  fs_read : string → Syscall Os (io (list u8));
  fs_write : string → list u8 → Syscall Os (io unit);
  path_exists : string → Syscall Os bool;
  path_is_dir : string → Syscall Os bool;
  read_dir : string → Syscall Os (io (list (io DirEntry)));
  file_name : DirEntry → string;
  file_type : DirEntry → Syscall Os (io FileType);
  fs_metadata : string → Syscall Os (io Metadata);
  fs_symlink_metadata : string → Syscall Os (io Metadata);
  create_dir : string → Syscall Os (io unit);
  create_dir_all : string → Syscall Os (io unit);
  remove_dir : string → Syscall Os (io unit);
  remove_dir_all : string → Syscall Os (io unit);
  remove_file : string → Syscall Os (io unit);
  fs_rename : string → string → Syscall Os (io unit);
  fs_copy : string → string → Syscall Os (io u64);
  temp_dir : Syscall Os PathBuf;
  path_join : PathBuf → string → PathBuf;
  to_string_lossy : PathBuf → string;
  system_nanos : Syscall Os Z;
  file_open : string → Syscall Os (io File);
  file_create : string → Syscall Os (io File);
  file_create_new : PathBuf → Syscall Os (io File);
  file_read_into : File → list u8 → Syscall Os (File * list u8 * io nat);
  file_write_all : File → list u8 → Syscall Os (File * io unit);
  file_flush : File → Syscall Os (File * io unit);
  file_seek : File → SeekFrom → Syscall Os (File * io u64);
  file_drop : File → Syscall Os unit;
  stdin_read_into : list u8 → Syscall Os (list u8 * io nat);
}.

Definition kind_sep : string := String (Ascii.ascii_of_nat 1) "".

(** [1 << 20]: the most a read asks for at once. *)
Definition READ_LIMIT : Z := Z.shiftl 1 20.

Definition zeroed (n : Z) : list u8 := replicate (Z.to_nat n) 0.

Section fs.
Context `{Sizes} `{SystemTypes} {Ext : Type} `{!Process Ext} `{!FileSystem}.
Variable value_debug : Value → string.

#[local] Abbreviation World := (World (Job := Job) (Payload := Payload) (Ext := Ext)).
#[local] Abbreviation Native := (Native (Job := Job) (Payload := Payload) (Ext := Ext)).
#[local] Abbreviation str_contents := (str_contents value_debug).
#[local] Abbreviation bytes_contents := (bytes_contents value_debug).
#[local] Abbreviation as_int := (as_int value_debug).

(** ** Results *)

Definition fs_kind (e : IoError) : string :=
  match err_kind e with
  | NotFound => "not_found"
  | PermissionDenied => "permission_denied"
  | AlreadyExists => "already_exists"
  | NotADirectory => "not_a_directory"
  | IsADirectory => "is_a_directory"
  | _ => "other"
  end.

(** [Value::err(Value::new_str(..))] *)
Definition err_str (m : Mem) (s : string) : res Trap (Mem * Value) :=
  '(m, v) ← new_str m s; err m v.

Definition fs_err (m : Mem) (path : string) (e : IoError) : res Trap (Mem * Value) :=
  err_str m (fs_kind e +:+ kind_sep +:+ path +:+ ": " +:+ err_text e).

(** [match res { Ok(x) => Value::ok(new(x)), Err(e) => fs_err(&path, &e) }] *)
Definition fs_result {A} (path : string) (new : A → Mem → res Trap (Mem * Value)) :
    Build (Ext := Ext) (io A) :=
  building (λ r m,
    match r with
    | inr x => '(m, v) ← new x m; ok m v
    | inl e => fs_err m path e
    end).

Definition unit_value (_ : unit) (m : Mem) : res Trap (Mem * Value) := Ok (m, Unit).
Definition text_value (s : string) (m : Mem) : res Trap (Mem * Value) := new_str m s.
Definition bytes_value (b : list u8) (m : Mem) : res Trap (Mem * Value) := new_bytes m b.
Definition names_value (names : list string) (m : Mem) : res Trap (Mem * Value) := string_list m names.

(** ** Whole files and directories *)

Definition native_fs_read_text : Native := λ w args,
  v ← expect_one args "fs_read_text";
  path ← str_contents (w_mem w) v;
  Ok (park_syscall (TIo TString) w (on_os (read_to_string path)) (fs_result path text_value), Unit).

Definition native_fs_write_text : Native := λ w args,
  '(path, contents) ← args2 args "fs_write_text";
  path ← str_contents (w_mem w) path;
  contents ← str_contents (w_mem w) contents;
  Ok (park_syscall (TIo TUnit) w (on_os (fs_write path (as_bytes contents))) (fs_result path unit_value), Unit).

Definition native_fs_read_bytes : Native := λ w args,
  v ← expect_one args "fs_read_bytes";
  path ← str_contents (w_mem w) v;
  Ok (park_syscall (TIo TBytes) w (on_os (fs_read path)) (fs_result path bytes_value), Unit).

Definition native_fs_write_bytes : Native := λ w args,
  '(path, data) ← args2 args "fs_write_bytes";
  path ← str_contents (w_mem w) path;
  data ← bytes_contents (w_mem w) data "fs_write_bytes";
  Ok (park_syscall (TIo TUnit) w (on_os (fs_write path data)) (fs_result path unit_value), Unit).

(** Not blocking enough to park. *)
Definition native_fs_exists : Native := λ w args,
  v ← expect_one args "fs_exists";
  path ← str_contents (w_mem w) v;
  let (w, b) := in_world (on_os (path_exists path)) w in
  Ok (w, Bool b).

(** [for entry in read_dir(&path)? { names.push(f(entry?)) }] *)
Fixpoint dir_entries (f : DirEntry → Syscall Os string) (entries : list (io DirEntry))
    (names : list string) : Syscall Os (io (list string)) :=
  match entries with
  | [] => mret (inr names)
  | inl e :: _ => mret (inl e)
  | inr entry :: entries' => name ← f entry; dir_entries f entries' (push names name)
  end.

Definition dir_names (path : string) (f : DirEntry → Syscall Os string) : Syscall Os (io (list string)) :=
  and_then (read_dir path) (λ entries, dir_entries f entries []).

Definition native_fs_list_dir : Native := λ w args,
  v ← expect_one args "fs_list_dir";
  path ← str_contents (w_mem w) v;
  Ok (park_syscall (TIo TNames) w (on_os (dir_names path (λ entry, mret (file_name entry))))
        (fs_result path names_value), Unit).

(** The kind a directory entry carries; 3 if it cannot be determined. *)
Definition entry_kind (t : io FileType) : Z :=
  match t with
  | inr t => if is_symlink t then 2 else if is_dir t then 1 else if is_file t then 0 else 3
  | inl _ => 3
  end.

Definition entry_text (entry : DirEntry) : Syscall Os string :=
  t ← file_type entry;
  mret (pretty (entry_kind t) +:+ kind_sep +:+ file_name entry).

Definition native_fs_read_dir : Native := λ w args,
  v ← expect_one args "fs_read_dir";
  path ← str_contents (w_mem w) v;
  Ok (park_syscall (TIo TNames) w (on_os (dir_names path entry_text)) (fs_result path names_value), Unit).

Definition metadata_fields (md : Metadata) (m : Mem) : res Trap (Mem * Value) :=
  let t := m_type md in
  let kind := if is_symlink t then 2 else if is_dir t then 1 else if is_file t then 0 else 3 in
  let modified := match m_modified md with Some ms => as_i64 ms | None => 0 end in
  new_list m [Int kind; Int (as_i64 (m_len md)); Int modified].

Definition native_fs_metadata : Native := λ w args,
  v ← expect_one args "fs_metadata";
  path ← str_contents (w_mem w) v;
  Ok (park_syscall (TIo TMetadata) w (on_os (fs_metadata path)) (fs_result path metadata_fields), Unit).

Definition native_fs_symlink_metadata : Native := λ w args,
  v ← expect_one args "fs_symlink_metadata";
  path ← str_contents (w_mem w) v;
  Ok (park_syscall (TIo TMetadata) w (on_os (fs_symlink_metadata path)) (fs_result path metadata_fields), Unit).

Definition native_fs_create_dir : Native := λ w args,
  v ← expect_one args "fs_create_dir";
  path ← str_contents (w_mem w) v;
  Ok (park_syscall (TIo TUnit) w (on_os (create_dir path)) (fs_result path unit_value), Unit).

Definition native_fs_create_dir_all : Native := λ w args,
  v ← expect_one args "fs_create_dir_all";
  path ← str_contents (w_mem w) v;
  Ok (park_syscall (TIo TUnit) w (on_os (create_dir_all path)) (fs_result path unit_value), Unit).

Definition remove_path (path : string) : Syscall Os (io unit) :=
  b ← path_is_dir path;
  if b : bool then remove_dir path else remove_file path.

Definition native_fs_remove : Native := λ w args,
  v ← expect_one args "fs_remove";
  path ← str_contents (w_mem w) v;
  Ok (park_syscall (TIo TUnit) w (on_os (remove_path path)) (fs_result path unit_value), Unit).

Definition native_fs_remove_dir_all : Native := λ w args,
  v ← expect_one args "fs_remove_dir_all";
  path ← str_contents (w_mem w) v;
  Ok (park_syscall (TIo TUnit) w (on_os (remove_dir_all path)) (fs_result path unit_value), Unit).

Definition native_fs_rename : Native := λ w args,
  '(src, dst) ← args2 args "fs_rename";
  src ← str_contents (w_mem w) src;
  dst ← str_contents (w_mem w) dst;
  Ok (park_syscall (TIo TUnit) w (on_os (fs_rename src dst)) (fs_result src unit_value), Unit).

Definition native_fs_copy : Native := λ w args,
  '(src, dst) ← args2 args "fs_copy";
  src ← str_contents (w_mem w) src;
  dst ← str_contents (w_mem w) dst;
  Ok (park_syscall (TIo TU64) w (on_os (fs_copy src dst)) (fs_result src (λ _, unit_value tt)), Unit).

Definition native_fs_temp_dir : Native := λ w _,
  let (w, dir) := in_world (on_os temp_dir) w in
  returning w (new_str (w_mem w) (to_string_lossy dir)).

(** ** Open files *)

(** [file_registry().insert(id, file)]: a file already there is dropped. *)
Definition insert_file (id : i64) (f : File) : Syscall Statics unit := λ g,
  let g' := set_files g (NEXT_FILE_ID g) (<[id := f]> (file_registry g)) in
  match file_registry g !! id with
  | Some old => on_os (file_drop old) g'
  | None => (g', tt)
  end.

Definition register_file (f : File) (e : Ext) (m : Mem) : res Trap (Ext * Mem * Value) :=
  let (e, id) := in_ext next_file_id e in
  let (e, _) := in_ext (insert_file id f) e in
  '(m, v) ← ok m (Int id);
  Ok (e, m, v).

Definition file_closed_err (m : Mem) : res Trap (Mem * Value) :=
  err_str m ("other" +:+ kind_sep +:+ "file is closed").

(** [match res { Ok(f) => register_file(f), Err(e) => fs_err(&path, &e) }] *)
Definition opened (path : string) : Build (Ext := Ext) (io File) := λ r e m,
  match r with
  | inr f => register_file f e m
  | inl er => '(m, v) ← fs_err m path er; Ok (e, m, v)
  end.

Definition native_fs_open : Native := λ w args,
  v ← expect_one args "fs_open";
  path ← str_contents (w_mem w) v;
  Ok (park_syscall (TIo TFile) w (on_os (file_open path)) (opened path), Unit).

Definition native_fs_create : Native := λ w args,
  v ← expect_one args "fs_create";
  path ← str_contents (w_mem w) v;
  Ok (park_syscall (TIo TFile) w (on_os (file_create path)) (opened path), Unit).

(** [for _ in 0..attempts { .. }] *)
Fixpoint temp_attempts (attempts : nat) (dir : PathBuf) (prefix : string) (stamp : Z)
    (last : option IoError) : Syscall Statics TempFileOutcome :=
  match attempts with
  | O =>
      mret (Exhausted match last with
        | Some e => err_text e
        | None => "could not create a unique temp file"
        end)
  | S attempts' =>
      n ← next_temp;
      let path := path_join dir (prefix +:+ pretty stamp +:+ "_" +:+ pretty n) in
      r ← on_os (file_create_new path);
      match r with
      | inr f =>
          id ← next_file_id;
          _ ← insert_file id f;
          mret (Created (pretty id +:+ kind_sep +:+ to_string_lossy path))
      | inl e =>
          if decide (err_kind e = AlreadyExists)
          then temp_attempts attempts' dir prefix stamp (Some e)
          else mret (FsError (to_string_lossy path) e)
      end
  end.

Definition TEMP_ATTEMPTS : nat := 64.

Definition temp_file_job (prefix : string) : Syscall Statics TempFileOutcome :=
  dir ← on_os temp_dir;
  stamp ← on_os system_nanos;
  temp_attempts TEMP_ATTEMPTS dir prefix stamp None.

Definition temp_outcome (o : TempFileOutcome) (m : Mem) : res Trap (Mem * Value) :=
  match o with
  | Created s => '(m, v) ← new_str m s; ok m v
  | FsError p e => fs_err m p e
  | Exhausted msg => err_str m ("other" +:+ kind_sep +:+ msg)
  end.

Definition native_fs_temp_file : Native := λ w args,
  v ← expect_one args "fs_temp_file";
  prefix ← str_contents (w_mem w) v;
  Ok (park_syscall TTempFileOutcome w (temp_file_job prefix) (building temp_outcome), Unit).

(** [file_registry().remove(&handle)] *)
Definition take_file (handle : i64) : Syscall Statics (option File) := λ g,
  (set_files g (NEXT_FILE_ID g) (delete handle (file_registry g)), file_registry g !! handle).

Definition return_file (handle : i64) (f : File) : Syscall Statics unit := insert_file handle f.

(** [file.read(&mut buf).map(|n| { buf.truncate(n); buf })] *)
Definition file_read_job (max : Z) (f : File) : Syscall Statics (File * io (list u8)) :=
  '(f, buf, r) ← on_os (file_read_into f (zeroed (Z.min max READ_LIMIT)));
  mret (f, io_map (λ n, truncate n buf) r).

Definition native_file_read : Native := λ w args,
  '(hv, maxv) ← args2 args "file_read";
  handle ← as_int hv "file_read";
  max ← as_int maxv "file_read";
  let max := Z.max max 0 in
  if max =? 0 then returning w ('(m, v) ← new_bytes (w_mem w) []; ok m v)
  else
    let (w, taken) := in_world (take_file handle) w in
    match taken with
    | None => returning w (file_closed_err (w_mem w))
    | Some f =>
        Ok (park_syscall (TPair TFile (TIo TBytes)) w (file_read_job max f)
              (λ '(f, r) e m,
                let (e, _) := in_ext (return_file handle f) e in
                fs_result "<file>" bytes_value r e m), Unit)
    end.

Definition file_write_job (data : list u8) (f : File) : Syscall Statics (File * io unit) :=
  '(f, r) ← on_os (file_write_all f data);
  match r with
  | inr _ => on_os (file_flush f)
  | inl e => mret (f, inl e)
  end.

Definition native_file_write : Native := λ w args,
  '(hv, dv) ← args2 args "file_write";
  handle ← as_int hv "file_write";
  data ← bytes_contents (w_mem w) dv "file_write";
  let n := as_i64 (Z.of_nat (length data)) in
  let (w, taken) := in_world (take_file handle) w in
  match taken with
  | None => returning w (file_closed_err (w_mem w))
  | Some f =>
      Ok (park_syscall (TPair TFile (TIo TUnit)) w (file_write_job data f)
            (λ '(f, r) e m,
              let (e, _) := in_ext (return_file handle f) e in
              fs_result "<file>" (λ _ m, Ok (m, Int n)) r e m), Unit)
  end.

Definition seek_target (whence offset : i64) : option SeekFrom :=
  if whence =? 0 then Some (Start (Z.max offset 0))
  else if whence =? 1 then Some (Current offset)
  else if whence =? 2 then Some (End_ offset)
  else None.

Definition native_file_seek : Native := λ w args,
  '(hv, wv, ov) ← args3 args "file_seek";
  handle ← as_int hv "file_seek";
  whence ← as_int wv "file_seek";
  offset ← as_int ov "file_seek";
  target ← ok_or (seek_target whence offset) (bug ("file_seek: invalid whence " +:+ pretty whence));
  let (w, taken) := in_world (take_file handle) w in
  match taken with
  | None => returning w (file_closed_err (w_mem w))
  | Some f =>
      Ok (park_syscall (TPair TFile (TIo TU64)) w (on_os (file_seek f target))
            (λ '(f, r) e m,
              let (e, _) := in_ext (return_file handle f) e in
              fs_result "<file>" (λ pos m, Ok (m, Int (as_i64 pos))) r e m), Unit)
  end.

(** A file taken out of the registry for good is dropped, which closes it. *)
Definition native_file_close : Native := λ w args,
  v ← expect_one args "file_close";
  handle ← as_int v "file_close";
  let (w, taken) := in_world (take_file handle) w in
  match taken with
  | Some f =>
      let (w, _) := in_world (on_os (file_drop f)) w in
      returning w (ok (w_mem w) Unit)
  | None => returning w (file_closed_err (w_mem w))
  end.

(** ** Standard input *)

Definition stdin_job (max : i64) : Syscall Os (io (list u8)) :=
  '(buf, r) ← stdin_read_into (zeroed (Z.max max 0));
  mret (io_map (λ n, truncate n buf) r).

Definition native_io_stdin_read : Native := λ w args,
  v ← expect_one args "io_stdin_read";
  max ← as_int v "io_stdin_read";
  Ok (park_syscall (TIo TBytes) w (on_os (stdin_job max))
        (building (λ r m,
          match r with
          | inr buf => '(m, v) ← new_bytes m buf; ok m v
          | inl e => err_str m ("stdin: " +:+ err_text e)
          end)), Unit).
End fs.
