(* ===== verification/NativesEnv.v ===== *)
(** * Environment and terminal natives (src/runtime/src/interp/natives.rs)

    Variables, arguments, directories and the terminal.  They call the operating system
    inline.  The standard library panics when a variable is set under an impossible
    name and when the variables listed are not all Unicode; so do these natives.
    [env.exit] never returns to the interpreter, and the monotonic clock of the time
    natives is here because its start is a static. *)

From Stdlib Require Import ZArith Lia.
From stdpp Require Import base numbers list strings gmap pretty.
From S2P Require Import Prelude Bytes Float64 Instr ModuleTable Value Heap MapObj Trap Scheduler.
From S2P Require Import Render Interp Driver NativesBase NativesText NativesFiber System NativesFs.

Open Scope Z_scope.

(** [std::env], [stdout().is_terminal()] and the crate [terminal_size].  A listed
    variable is [None] if its name or value is not Unicode. *)
Class Environment `{SystemTypes} := {
  env_var : string → Syscall Os (option string);
  env_set_var : string → string → Syscall Os unit;
  env_vars : Syscall Os (list (option (string * string)));
  env_current_dir : Syscall Os (io PathBuf);
  env_current_exe : Syscall Os (io PathBuf);
  env_set_current_dir : string → Syscall Os (io unit);
  OS : string;
  is_terminal : Syscall Os bool;
  terminal_size : Syscall Os (option (u16 * u16));
}.

(** [c] occurs in [s]. *)
Definition has_byte (c : u8) (s : string) : bool := bool_decide (c ∈ as_bytes s).

(** [std::env::set_var] panics on an empty name, a name with [=] or NUL, a value with
    NUL. *)
Definition set_var_panics (name value : string) : bool :=
  bool_decide (name = "") || has_byte 61 name || has_byte 0 name || has_byte 0 value.

Section env.
Context `{Sizes} `{SystemTypes} {Ext : Type} `{!Process Ext} `{!FileSystem} `{!Environment}.
Variable value_debug : Value → string.
Variable fuel : nat.

#[local] Abbreviation World := (World (Job := Job) (Payload := Payload) (Ext := Ext)).
#[local] Abbreviation Native := (Native (Job := Job) (Payload := Payload) (Ext := Ext)).
#[local] Abbreviation str_contents := (str_contents value_debug).
#[local] Abbreviation eqb m := (values_eq (E := Trap) fuel (mem_slots m)).
#[local] Abbreviation hash m := (hash_value (E := Trap) fuel (mem_slots m)).

Definition some_str (m : Mem) (s : string) : res Trap (Mem * Value) :=
  '(m, v) ← new_str m s; some m v.

Definition ok_str (m : Mem) (s : string) : res Trap (Mem * Value) :=
  '(m, v) ← new_str m s; ok m v.

Definition native_env_get : Native := λ w args,
  v ← expect_one args "env_get";
  name ← str_contents (w_mem w) v;
  let (w, value) := in_world (on_os (env_var name)) w in
  returning w match value with Some s => some_str (w_mem w) s | None => none (w_mem w) end.

Definition native_env_set : Native := λ w args,
  '(name, value) ← args2 args "env_set";
  name ← str_contents (w_mem w) name;
  value ← str_contents (w_mem w) value;
  if set_var_panics name value then Panic
  else
    let (w, _) := in_world (on_os (env_set_var name value)) w in
    Ok (w, Unit).

(** [std::env::vars().map(|(k, v)| (Value::new_str(k), Value::new_str(v))).collect()] *)
Fixpoint var_entries (m : Mem) (vars : list (option (string * string))) :
    res Trap (Mem * list (Value * Value)) :=
  match vars with
  | [] => Ok (m, [])
  | None :: _ => Panic
  | Some (k, v) :: vars' =>
      '(m, kv) ← new_str m k;
      '(m, vv) ← new_str m v;
      '(m, entries) ← var_entries m vars';
      Ok (m, (kv, vv) :: entries)
  end.

(** [Value::new_map(entries)] *)
Definition new_map (m : Mem) (entries : list (Value * Value)) : res Trap (Mem * Value) :=
  mp ← from_pairs (eqb m) (hash m) entries;
  alloc m (Map mp).

Definition native_env_vars : Native := λ w args,
  _ ← expect_no_args args "env_vars";
  let (w, vars) := in_world (on_os env_vars) w in
  returning w ('(m, entries) ← var_entries (w_mem w) vars; new_map m entries).

(** [set_program_args(args)]: only the first call counts. *)
Definition set_program_args (args : list string) : Syscall Statics unit := λ g,
  match PROGRAM_ARGS g with
  | Some _ => (g, tt)
  | None => (set_args g (Some args), tt)
  end.

Definition native_env_args : Native := λ w args,
  _ ← expect_no_args args "env_args";
  let argv := default [] (PROGRAM_ARGS (statics (w_ext w))) in
  returning w (string_list (w_mem w) argv).

Definition native_env_current_dir : Native := λ w args,
  _ ← expect_no_args args "env_current_dir";
  let (w, r) := in_world (on_os env_current_dir) w in
  returning w
    match r with
    | inr p => ok_str (w_mem w) (to_string_lossy p)
    | inl e => err_str (w_mem w) (err_text e)
    end.

Definition native_env_current_exe : Native := λ w args,
  _ ← expect_no_args args "env_current_exe";
  let (w, r) := in_world (on_os env_current_exe) w in
  returning w
    match r with
    | inr p => some_str (w_mem w) (to_string_lossy p)
    | inl _ => none (w_mem w)
    end.

Definition native_env_set_current_dir : Native := λ w args,
  v ← expect_one args "env_set_current_dir";
  path ← str_contents (w_mem w) v;
  let (w, r) := in_world (on_os (env_set_current_dir path)) w in
  returning w
    match r with
    | inr _ => ok (w_mem w) Unit
    | inl e => err_str (w_mem w) (path +:+ ": " +:+ err_text e)
    end.

Definition native_env_os : Native := λ w args,
  _ ← expect_no_args args "env_os";
  returning w (new_str (w_mem w) OS).

(** [std::process::exit] ends the process: the native has no result. *)
Definition native_env_exit : Native := λ w args,
  v ← expect_one args "env_exit";
  _ ← as_int value_debug v "env_exit";
  NoFuel.

Definition native_term_is_tty : Native := λ w args,
  _ ← expect_no_args args "term_is_tty";
  let (w, b) := in_world (on_os is_terminal) w in
  Ok (w, Bool b).

Definition native_term_size : Native := λ w args,
  _ ← expect_no_args args "term_size";
  let (w, size) := in_world (on_os terminal_size) w in
  returning w
    match size with
    | Some (cols, rows) => '(m, v) ← new_list (w_mem w) [Int cols; Int rows]; some m v
    | None => none (w_mem w)
    end.

(** ** The monotonic clock *)

Section monotonic.
Context `{!Console Ext}.

(** [START.get_or_init(Instant::now)] *)
Definition start_instant (w : World) : World * Instant :=
  match START (statics (w_ext w)) with
  | Some t => (w, t)
  | None =>
      let (e, t) := instant_now (w_ext w) in
      let (w, _) := in_world (λ g, (set_start g (Some t), tt)) (set_w_ext w e) in
      (w, t)
  end.

(** [start.elapsed().as_nanos() as i64]: a duration is never negative. *)
Definition native_time_monotonic_nanos : Native := λ w args,
  _ ← expect_no_args args "time_monotonic_nanos";
  let (w, start) := start_instant w in
  let (e, t) := instant_now (w_ext w) in
  Ok (set_w_ext w e, Int (as_i64 (saturating_duration t start))).
End monotonic.
End env.
