(* ===== verification/NativesLib.v ===== *)
(** * Natives over library functions (src/runtime/src/interp/natives.rs)

    The arithmetic of doubles, parsing and case mapping of the standard library, the
    digest crates and the regex crate are parameters; what the natives do around them
    is modelled, with the registry of compiled patterns. *)

From Stdlib Require Import ZArith Lia.
From stdpp Require Import base numbers list strings gmap pretty.
From S2P Require Import Prelude Bytes Float64 Instr ModuleTable Value Heap MapObj Trap Scheduler.
From S2P Require Import Render Interp Driver NativesBase NativesText NativesFiber System NativesFs NativesEnv.

Open Scope Z_scope.

(** [f64]'s functions, [str::parse::<f64>] and [str]'s case mappings. *)
Class MathLib := {
  f64_sqrt : f64 → f64; f64_floor : f64 → f64; f64_ceil : f64 → f64; f64_round : f64 → f64;
  f64_trunc : f64 → f64; f64_exp : f64 → f64; f64_ln : f64 → f64; f64_log10 : f64 → f64;
  f64_sin : f64 → f64; f64_cos : f64 → f64; f64_tan : f64 → f64;
  f64_asin : f64 → f64; f64_acos : f64 → f64; f64_atan : f64 → f64;
  f64_powf : f64 → f64 → f64; f64_atan2 : f64 → f64 → f64; f64_hypot : f64 → f64 → f64;
  parse_f64 : string → option f64;
  to_uppercase : string → string;
  to_lowercase : string → string;
}.

(** The crates [sha2], [sha1], [md-5] and [crc32fast]. *)
Class Digests := {
  sha256 : list u8 → list u8;
  sha1 : list u8 → list u8;
  md5 : list u8 → list u8;
  crc32 : list u8 → u32;
}.

(** A match: its byte offsets in the text. *)
Definition Match : Type := usize * usize.

(** The crate [regex]. *)
Class RegexLib `{SystemTypes} := {
  regex_new : string → string + Regex;
  is_match : Regex → string → bool;
  find : Regex → string → option Match;
  find_iter : Regex → string → list Match;
  captures : Regex → string → option (list (option Match));
  replace : Regex → string → string → string;
  replace_all : Regex → string → string → string;
}.

(** ** Numbers and strings *)

Section lib.
Context `{Sizes} `{!MathLib} `{!Digests}.
Variable value_debug : Value → string.

#[local] Abbreviation str_contents := (str_contents value_debug).
#[local] Abbreviation as_double := (as_double value_debug).

Definition math_unary (who : string) (f : f64 → f64) : MemNative := λ m args,
  v ← expect_one args who;
  x ← as_double v who;
  Ok (m, Double (f x)).

Definition native_math_sqrt : MemNative := math_unary "math_sqrt" f64_sqrt.
Definition native_math_floor : MemNative := math_unary "math_floor" f64_floor.
Definition native_math_ceil : MemNative := math_unary "math_ceil" f64_ceil.
Definition native_math_round : MemNative := math_unary "math_round" f64_round.
Definition native_math_trunc : MemNative := math_unary "math_trunc" f64_trunc.
Definition native_math_exp : MemNative := math_unary "math_exp" f64_exp.
Definition native_math_ln : MemNative := math_unary "math_ln" f64_ln.
Definition native_math_log10 : MemNative := math_unary "math_log10" f64_log10.
Definition native_math_sin : MemNative := math_unary "math_sin" f64_sin.
Definition native_math_cos : MemNative := math_unary "math_cos" f64_cos.
Definition native_math_tan : MemNative := math_unary "math_tan" f64_tan.
Definition native_math_asin : MemNative := math_unary "math_asin" f64_asin.
Definition native_math_acos : MemNative := math_unary "math_acos" f64_acos.
Definition native_math_atan : MemNative := math_unary "math_atan" f64_atan.

Definition native_math_pow : MemNative := λ m args,
  '(b, e) ← args2 args "math_pow";
  b ← as_double b "math_pow";
  e ← as_double e "math_pow";
  Ok (m, Double (f64_powf b e)).

Definition native_math_atan2 : MemNative := λ m args,
  '(y, x) ← args2 args "math_atan2";
  y ← as_double y "math_atan2";
  x ← as_double x "math_atan2";
  Ok (m, Double (f64_atan2 y x)).

Definition native_math_hypot : MemNative := λ m args,
  '(x, y) ← args2 args "math_hypot";
  x ← as_double x "math_hypot";
  y ← as_double y "math_hypot";
  Ok (m, Double (f64_hypot x y)).

Definition native_str_to_double : MemNative := λ m args,
  v ← expect_one args "str_to_double";
  s ← str_contents m v;
  option_value m (Double <$> parse_f64 s).

Definition native_str_to_uppercase : MemNative := λ m args,
  v ← expect_one args "str_to_uppercase";
  s ← str_contents m v;
  new_str m (to_uppercase s).

Definition native_str_to_lowercase : MemNative := λ m args,
  v ← expect_one args "str_to_lowercase";
  s ← str_contents m v;
  new_str m (to_lowercase s).

(** ** Digests *)

Definition native_hash_sha256 : MemNative := λ m args,
  v ← expect_one args "hash.sha256";
  digest ← with_bytes value_debug m v "hash.sha256" sha256;
  new_bytes m digest.

Definition native_hash_sha1 : MemNative := λ m args,
  v ← expect_one args "hash.sha1";
  digest ← with_bytes value_debug m v "hash.sha1" sha1;
  new_bytes m digest.

Definition native_hash_md5 : MemNative := λ m args,
  v ← expect_one args "hash.md5";
  digest ← with_bytes value_debug m v "hash.md5" md5;
  new_bytes m digest.

Definition native_hash_crc32 : MemNative := λ m args,
  v ← expect_one args "hash.crc32";
  checksum ← with_bytes value_debug m v "hash.crc32" crc32;
  Ok (m, Int checksum).
End lib.

(** ** Regular expressions *)

Section regex.
Context `{Sizes} `{SystemTypes} {Ext : Type} `{!Process Ext} `{!RegexLib}.
Variable value_debug : Value → string.

#[local] Abbreviation World := (World (Job := Job) (Payload := Payload) (Ext := Ext)).
#[local] Abbreviation Native := (Native (Job := Job) (Payload := Payload) (Ext := Ext)).
#[local] Abbreviation str_contents := (str_contents value_debug).
#[local] Abbreviation as_int := (as_int value_debug).

Definition with_regex {R} (w : World) (handle : i64) (who : string) (f : Regex → R) : res Trap R :=
  match regex_registry (statics (w_ext w)) !! handle with
  | Some re => Ok (f re)
  | None => Err (bug (who +:+ ": unknown regex handle " +:+ pretty handle))
  end.

(** [regex_registry().insert(id, re)] *)
Definition insert_regex (id : i64) (re : Regex) : Syscall Statics unit := λ g,
  (set_regexes g (NEXT_REGEX_ID g) (<[id := re]> (regex_registry g)), tt).

Definition native_regex_compile : Native := λ w args,
  v ← expect_one args "regex_compile";
  pattern ← str_contents (w_mem w) v;
  match regex_new pattern with
  | inr re =>
      let (w, id) := in_world next_regex_id w in
      let (w, _) := in_world (insert_regex id re) w in
      returning w (ok (w_mem w) (Int id))
  | inl e => returning w (err_str (w_mem w) e)
  end.

(** The arguments [handle] and [text]. *)
Definition regex_args (w : World) (args : list Value) (who : string) : res Trap (i64 * string) :=
  '(hv, tv) ← args2 args who;
  handle ← as_int hv who;
  text ← str_contents (w_mem w) tv;
  Ok (handle, text).

Definition native_regex_is_match : Native := λ w args,
  '(handle, text) ← regex_args w args "regex_is_match";
  b ← with_regex w handle "regex_is_match" (λ re, is_match re text);
  Ok (w, Bool b).

Definition offsets (p : Match) : list Value := [Int (as_i64 p.1); Int (as_i64 p.2)].

Definition native_regex_find : Native := λ w args,
  '(handle, text) ← regex_args w args "regex_find";
  found ← with_regex w handle "regex_find" (λ re, find re text);
  returning w (new_list (w_mem w) match found with Some p => offsets p | None => [] end).

Definition native_regex_find_all : Native := λ w args,
  '(handle, text) ← regex_args w args "regex_find_all";
  found ← with_regex w handle "regex_find_all" (λ re, find_iter re text);
  returning w (new_list (w_mem w) (found ≫= offsets)).

(** A group that did not take part is [-1, -1]. *)
Definition group_offsets (g : option Match) : list Value :=
  match g with Some p => offsets p | None => [Int (-1); Int (-1)] end.

Definition native_regex_captures : Native := λ w args,
  '(handle, text) ← regex_args w args "regex_captures";
  caps ← with_regex w handle "regex_captures" (λ re, captures re text);
  returning w (new_list (w_mem w) match caps with Some gs => gs ≫= group_offsets | None => [] end).

(** The arguments [handle], [text] and [replacement]. *)
Definition regex_args3 (w : World) (args : list Value) (who : string) : res Trap (i64 * string * string) :=
  '(hv, tv, rv) ← args3 args who;
  handle ← as_int hv who;
  text ← str_contents (w_mem w) tv;
  repl ← str_contents (w_mem w) rv;
  Ok (handle, text, repl).

Definition native_regex_replace : Native := λ w args,
  '(handle, text, repl) ← regex_args3 w args "regex_replace";
  s ← with_regex w handle "regex_replace" (λ re, replace re text repl);
  returning w (new_str (w_mem w) s).

Definition native_regex_replace_all : Native := λ w args,
  '(handle, text, repl) ← regex_args3 w args "regex_replace_all";
  s ← with_regex w handle "regex_replace_all" (λ re, replace_all re text repl);
  returning w (new_str (w_mem w) s).
End regex.
