(* ===== verification/NativesProcess.v ===== *)
(** * Child-process natives (src/runtime/src/interp/natives.rs)

    A started process is in the registry under its handle with the ends of its pipes.
    A read or write takes the pipe out of its entry, parks, and the builder puts it
    back if the entry is still there.  Dropping an end of a pipe closes it. *)

From Stdlib Require Import ZArith Lia.
From stdpp Require Import base numbers list strings gmap pretty.
From S2P Require Import Prelude Bytes Float64 Instr ModuleTable Value Utf8 Heap MapObj Trap Scheduler.
From S2P Require Import Render Interp Driver NativesBase NativesText NativesFiber System NativesFs NativesEnv.

Open Scope Z_scope.

Inductive Stdio := Piped | Inherit.

(** [std::process::Command] as the natives fill it in. *)
Record Command := mkCommand {
  cmd_name : string;
  cmd_args : list string;
  cmd_dir : option string;
  cmd_envs : gmap string string;
  cmd_stdin : option Stdio;
  cmd_stdout : option Stdio;
  cmd_stderr : option Stdio;
}.

(** [std::process]: an exit code is [None] for a child ended by a signal. *)
Class Processes `{SystemTypes} := {
  command_output : Command → Syscall Os (io Output);
  command_status : Command → Syscall Os (io (option Z));
  command_spawn : Command → Syscall Os (io (Child * option ChildStdin * option ChildStdout * option ChildStderr));
  child_wait : Child → Syscall Os (Child * io (option Z));
  child_kill : Child → Syscall Os (Child * io unit);
  stdin_write_all : ChildStdin → list u8 → Syscall Os (ChildStdin * io unit);
  stdin_flush : ChildStdin → Syscall Os (ChildStdin * io unit);
  stdout_read_into : ChildStdout → list u8 → Syscall Os (ChildStdout * list u8 * io nat);
  stderr_read_into : ChildStderr → list u8 → Syscall Os (ChildStderr * list u8 * io nat);
  drop_stdin : ChildStdin → Syscall Os unit;
  drop_stdout : ChildStdout → Syscall Os unit;
  drop_stderr : ChildStderr → Syscall Os unit;
}.

(** Dropping an [Option]. *)
Definition drop_option {S A} (drop : A → Syscall S unit) (o : option A) : Syscall S unit :=
  match o with Some x => drop x | None => mret tt end.

Section process.
Context `{Sizes} `{SystemTypes} {Ext : Type} `{!Process Ext} `{!FileSystem} `{!Processes} `{!Console Ext}.
Variable value_debug : Value → string.

#[local] Abbreviation World := (World (Job := Job) (Payload := Payload) (Ext := Ext)).
#[local] Abbreviation Native := (Native (Job := Job) (Payload := Payload) (Ext := Ext)).
#[local] Abbreviation str_contents := (str_contents value_debug).
#[local] Abbreviation bytes_contents := (bytes_contents value_debug).
#[local] Abbreviation as_int := (as_int value_debug).

(** ** Results *)

Definition proc_err_io (m : Mem) (msg : string) : res Trap (Mem * Value) :=
  err_str m ("io" +:+ kind_sep +:+ msg).

Definition proc_err (m : Mem) (e : IoError) (msg : string) : res Trap (Mem * Value) :=
  err_str m ((if decide (err_kind e = NotFound) then "not_found" else "io") +:+ kind_sep +:+ msg).

(** [status.code().unwrap_or(-1)] *)
Definition exit_code (c : option Z) : Z := default (-1) c.

(** [match res { Ok(x) => Value::ok(new(x)), Err(e) => proc_err(&e, format!("{what}: {e}")) }] *)
Definition proc_result {A} (what : string) (new : A → Mem → res Trap (Mem * Value)) (r : io A) (m : Mem) :
    res Trap (Mem * Value) :=
  match r with
  | inr x => '(m, v) ← new x m; ok m v
  | inl e => proc_err m e (what +:+ ": " +:+ err_text e)
  end.

Definition code_value (c : option Z) (m : Mem) : res Trap (Mem * Value) := Ok (m, Int (exit_code c)).

(** ** Arguments *)

Definition get_process_id (m : Mem) (process_val : Value) : res Trap i64 :=
  id_val ← struct_field m process_val 0 None;
  match id_val with
  | Int id => Ok id
  | _ => Err (bug "expected process id to be an Int")
  end.

Definition expect_string_list (m : Mem) (v : Value) (who : string) : res Trap (list string) :=
  with_list m v who (try_map (str_contents m)).

(** The payload of [Some], if it is one. *)
Definition some_payload (m : Mem) (v : Value) (who : string) : res Trap (option Value) :=
  '(variant, fields) ← as_option m v who;
  if variant =? TAG_SOME then
    first ← ok_or (fields !! 0%nat) (bug (who +:+ ": missing Some field"));
    Ok (Some first)
  else Ok None.

Definition expect_option_string (m : Mem) (v : Value) (who : string) : res Trap (option string) :=
  first ← some_payload m v who;
  match first with
  | Some first => s ← str_contents m first; Ok (Some s)
  | None => Ok None
  end.

(** [for (k, val) in m.entries() { map.insert(str_contents(k)?, str_contents(val)?) }] *)
Fixpoint string_map (m : Mem) (entries : list (Value * Value)) (map : gmap string string) :
    res Trap (gmap string string) :=
  match entries with
  | [] => Ok map
  | (k, val) :: entries' =>
      k ← str_contents m k;
      val ← str_contents m val;
      string_map m entries' (<[k := val]> map)
  end.

Definition expect_option_map (m : Mem) (v : Value) (who : string) : res Trap (option (gmap string string)) :=
  first ← some_payload m v who;
  match first with
  | Some first => map ← with_map_ref m first who (λ mp, string_map m (entries mp) ∅); Ok (Some map)
  | None => Ok None
  end.

(** An argument that may be left out. *)
Definition optional {A} (args : list Value) (i : nat) (dflt : A) (f : Value → res Trap A) : res Trap A :=
  match args !! i with Some v => f v | None => Ok dflt end.

(** The common head of [process_run], [process_exec] and [process_start]: the command
    with its arguments, directory and environment. *)
Definition command_of (m : Mem) (args : list Value) (who : string) : res Trap Command :=
  if Nat.eqb (length args) 0 || Nat.ltb 4 (length args)
  then Err (bug (who +:+ " expects between 1 and 4 arguments, got " +:+ pretty (length args)))
  else
    v ← or_panic (args !! 0%nat);
    name ← str_contents m v;
    cargs ← optional args 1 [] (λ v, expect_string_list m v (who +:+ ": args"));
    dir ← optional args 2 None (λ v, expect_option_string m v (who +:+ ": working_dir"));
    env ← optional args 3 None (λ v, expect_option_map m v (who +:+ ": env"));
    Ok (mkCommand name cargs dir (default ∅ env) None None None).

Definition with_stdio (c : Command) (i o e : option Stdio) : Command :=
  mkCommand (cmd_name c) (cmd_args c) (cmd_dir c) (cmd_envs c) i o e.

(** ** Running a child to its end *)

Definition lossy (b : list u8) : string := of_bytes (utf8_lossy b).

(** [Value::new_struct(0, [exit_code, stdout, stderr])] *)
Definition output_value (o : Output) (m : Mem) : res Trap (Mem * Value) :=
  '(m, out) ← new_str m (lossy (o_stdout o));
  '(m, err) ← new_str m (lossy (o_stderr o));
  alloc m (Struct 0 [Int (exit_code (o_code o)); out; err]).

Definition failed_to (verb name : string) : string := "failed to " +:+ verb +:+ " '" +:+ name +:+ "'".

Definition native_process_run : Native := λ w args,
  command ← command_of (w_mem w) args "process_run";
  let command := with_stdio command None (Some Piped) (Some Piped) in
  Ok (park_syscall (TIo TOutput) w (on_os (command_output command))
        (building (proc_result (failed_to "run" (cmd_name command)) output_value)), Unit).

(** Our own output is flushed first, whatever comes of it. *)
Definition native_process_exec : Native := λ w args,
  command ← command_of (w_mem w) args "process_exec";
  let (e, _) := flush_out (w_ext w) in
  let w := set_w_ext w e in
  let command := with_stdio command (Some Inherit) (Some Inherit) (Some Inherit) in
  Ok (park_syscall (TIo TExitStatus) w (on_os (command_status command))
        (building (proc_result (failed_to "run" (cmd_name command)) code_value)), Unit).

(** ** Running processes *)

Definition update_process (id : i64) (o : option RunningProcess) : Syscall Statics unit := λ g,
  (set_processes g (NEXT_PROCESS_ID g) (partial_alter (λ _, o) id (process_registry g)), tt).

Definition get_process (id : i64) : Syscall Statics (option RunningProcess) := λ g,
  (g, process_registry g !! id).

(** [process_registry().remove(&id)] *)
Definition remove_process (id : i64) : Syscall Statics (option RunningProcess) :=
  p ← get_process id;
  _ ← update_process id None;
  mret p.

Definition set_stdin (p : RunningProcess) (s : option ChildStdin) : RunningProcess :=
  mkProcess (child p) s (p_stdout p) (p_stderr p).
Definition set_stdout (p : RunningProcess) (s : option ChildStdout) : RunningProcess :=
  mkProcess (child p) (p_stdin p) s (p_stderr p).
Definition set_stderr (p : RunningProcess) (s : option ChildStderr) : RunningProcess :=
  mkProcess (child p) (p_stdin p) (p_stdout p) s.

(** The pipes' ends that are left in an entry are dropped with it. *)
Definition drop_pipes (p : RunningProcess) : Syscall Os unit :=
  _ ← drop_option drop_stdin (p_stdin p);
  _ ← drop_option drop_stdout (p_stdout p);
  drop_option drop_stderr (p_stderr p).

Definition native_process_start : Native := λ w args,
  command ← command_of (w_mem w) args "process_start";
  let command := with_stdio command (Some Piped) (Some Piped) (Some Piped) in
  let (w, spawned) := in_world (on_os (command_spawn command)) w in
  match spawned with
  | inr (c, i, o, e) =>
      let (w, id) := in_world next_process_id w in
      let (w, _) := in_world (update_process id (Some (mkProcess c i o e))) w in
      returning w ('(m, proc) ← alloc (w_mem w) (Struct 0 [Int id]); ok m proc)
  | inl e =>
      returning w (proc_err (w_mem w) e (failed_to "start" (cmd_name command) +:+ ": " +:+ err_text e))
  end.

Definition process_text (id : i64) (tail : string) : string := "process " +:+ pretty id +:+ tail.

(** The job captures [running.child] alone, so the pipes are dropped as the native
    returns, before the child is waited for. *)
Definition native_process_wait : Native := λ w args,
  process_val ← expect_one args "process_wait";
  id ← get_process_id (w_mem w) process_val;
  let (w, removed) := in_world (remove_process id) w in
  match removed with
  | None =>
      returning w (proc_err_io (w_mem w) (process_text id " not found (it may have already been waited on)"))
  | Some running =>
      let (w, _) := in_world (on_os (drop_pipes running)) w in
      Ok (park_syscall (TIo TExitStatus) w ('(_, r) ← on_os (child_wait (child running)); mret r)
            (building (proc_result ("failed to wait for " +:+ process_text id "") code_value)), Unit)
  end.

Definition native_process_kill : Native := λ w args,
  process_val ← expect_one args "process_kill";
  id ← get_process_id (w_mem w) process_val;
  let (w, removed) := in_world (remove_process id) w in
  match removed with
  | None => returning w (proc_err_io (w_mem w) (process_text id " not found"))
  | Some running =>
      let (w, killed) := in_world (on_os (child_kill (child running))) w in
      match killed with
      | (c, inr _) =>
          let (w, _) := in_world (on_os (child_wait c)) w in
          let (w, _) := in_world (on_os (drop_pipes running)) w in
          returning w (ok (w_mem w) Unit)
      | (_, inl e) =>
          let (w, _) := in_world (on_os (drop_pipes running)) w in
          returning w (proc_err (w_mem w) e ("failed to kill " +:+ process_text id "" +:+ ": " +:+ err_text e))
      end
  end.

(** ** Pipes *)

(** [stdin.write_all(&data).and_then(|()| stdin.flush())] *)
Definition stdin_write_job (data : list u8) (s : ChildStdin) : Syscall Statics (ChildStdin * io unit) :=
  '(s, r) ← on_os (stdin_write_all s data);
  match r with
  | inr _ => on_os (stdin_flush s)
  | inl e => mret (s, inl e)
  end.

(** [if let Some(running) = registry.get_mut(&id) { running.stdin = Some(stdin) }]: the
    pipe is dropped if the entry is gone, and so is one it replaces. *)
Definition restore_stdin (id : i64) (s : ChildStdin) : Syscall Statics unit :=
  p ← get_process id;
  match p with
  | Some p =>
      _ ← update_process id (Some (set_stdin p (Some s)));
      on_os (drop_option drop_stdin (p_stdin p))
  | None => on_os (drop_stdin s)
  end.

Definition native_process_stdin_write : Native := λ w args,
  '(id_val, data_val) ← args2 args "process_stdin_write";
  id ← as_int id_val "process_stdin_write";
  data ← bytes_contents (w_mem w) data_val "process_stdin_write";
  let n := as_i64 (Z.of_nat (length data)) in
  let (w, running) := in_world (get_process id) w in
  match running with
  | None => returning w (proc_err_io (w_mem w) (process_text id " not found"))
  | Some p =>
      match p_stdin p with
      | None => returning w (proc_err_io (w_mem w) (process_text id " stdin is not available"))
      | Some s =>
          let (w, _) := in_world (update_process id (Some (set_stdin p None))) w in
          Ok (park_syscall (TPair TChildStdin (TIo TUnit)) w (stdin_write_job data s)
                (λ '(s, r) e m,
                  let (e, _) := in_ext (restore_stdin id s) e in
                  building (proc_result ("failed to write to " +:+ process_text id " stdin")
                    (λ _ m, Ok (m, Int n))) r e m), Unit)
      end
  end.

Definition native_process_stdin_close : Native := λ w args,
  v ← expect_one args "process_stdin_close";
  id ← as_int v "process_stdin_close";
  let (w, running) := in_world (get_process id) w in
  match running with
  | Some p =>
      let (w, _) := in_world (update_process id (Some (set_stdin p None))) w in
      let (w, _) := in_world (on_os (drop_option drop_stdin (p_stdin p))) w in
      returning w (ok (w_mem w) Unit)
  | None => returning w (proc_err_io (w_mem w) (process_text id " not found"))
  end.

(** A pipe that is drained or was missing is gone; one that fails is kept. *)
Definition read_pipe_owned {R} (read : R → list u8 → Syscall Os (R * list u8 * io nat))
    (drop : R → Syscall Os unit) (stream : option R) (max : Z) : Syscall Os (option R * io (list u8)) :=
  match stream with
  | None => mret (None, inr [])
  | Some s =>
      '(s, buf, r) ← read s (zeroed (Z.max 1 (Z.min max READ_LIMIT)));
      match r with
      | inr O => _ ← drop s; mret (None, inr [])
      | inr n => mret (Some s, inr (truncate n buf))
      | inl e => mret (Some s, inl e)
      end
  end.

(** [if let Some(running) = registry.get_mut(&id) { restore(running, stream) }] *)
Definition restore_pipe {R} (id : i64) (get : RunningProcess → option R)
    (set : RunningProcess → option R → RunningProcess) (drop : R → Syscall Os unit)
    (stream : option R) : Syscall Statics unit :=
  p ← get_process id;
  match p with
  | Some p =>
      _ ← update_process id (Some (set p stream));
      on_os (drop_option drop (get p))
  | None => on_os (drop_option drop stream)
  end.

(** [park_pipe_read], with its caller's head: the pipe is taken out of its entry. *)
Definition park_pipe_read (who : string) (t : TypeId)
    (read : type_of t → list u8 → Syscall Os (type_of t * list u8 * io nat))
    (drop : type_of t → Syscall Os unit) (get : RunningProcess → option (type_of t))
    (set : RunningProcess → option (type_of t) → RunningProcess) : Native := λ w args,
  '(id_val, max_val) ← args2 args who;
  id ← as_int id_val who;
  max ← as_int max_val who;
  let max := Z.max max 0 in
  let (w, running) := in_world (get_process id) w in
  match running with
  | None => returning w (proc_err_io (w_mem w) (process_text id " not found"))
  | Some p =>
      let stream := get p in
      let (w, _) := in_world (update_process id (Some (set p None))) w in
      Ok (park_syscall (TPair (TOption t) (TIo TBytes)) w (on_os (read_pipe_owned read drop stream max))
            (λ '(stream, r) e m,
              let (e, _) := in_ext (restore_pipe id get set drop stream) e in
              building (proc_result ("failed to read from " +:+ process_text id "") bytes_value) r e m), Unit)
  end.

Definition native_process_stdout_read : Native :=
  park_pipe_read "process_stdout_read" TChildStdout stdout_read_into drop_stdout p_stdout set_stdout.

Definition native_process_stderr_read : Native :=
  park_pipe_read "process_stderr_read" TChildStderr stderr_read_into drop_stderr p_stderr set_stderr.
End process.
