(* ===== verification/Tls.v ===== *)
(** * The TLS session and its pump (src/runtime/src/interp/tls.rs)

    A session is a [rustls] connection, which owns the handshake and the buffers, and a
    pump that moves bytes between it and a non-blocking socket.  [Rustls] is the crate's
    interface.  A pump step threads the connection and the operating system and keeps
    both when it fails; its loops run on fuel. *)

From Stdlib Require Import ZArith Lia.
From stdpp Require Import base numbers list strings gmap pretty.
From S2P Require Import Prelude Bytes Value Interp System NativesFs.

Open Scope Z_scope.

(** Addresses, [mio]'s sockets and poller, and the types of [rustls]. *)
Class NetTypes := {
  SocketAddr : Type;
  TcpListener : Type;
  TcpStream : Type;
  Poll : Type;
  Registry : Type;
  Waker : Type;
  Connection : Type;
  ClientConfig : Type;
  ServerConfig : Type;
  Certificate : Type;
  PrivateKey : Type;
}.

(** The [rustls] connection, with its errors as their Display texts: [reader_read] and
    [writer_write] are the plaintext ends, [write_tls] and [read_tls] the ends at the
    socket. *)
Class Rustls `{SystemTypes} `{NetTypes} := {
  wants_write : Connection → bool;
  is_handshaking : Connection → bool;
  reader_read : Connection → list u8 → Connection * list u8 * io nat;
  first_chunk : Connection → io (list u8);
  writer_write : Connection → list u8 → Connection * io nat;
  write_tls : TcpStream → Connection → Syscall Os (Connection * io nat);
  read_tls : TcpStream → Connection → Syscall Os (Connection * io nat);
  process_new_packets : Connection → Connection * (string + unit);
  send_close_notify : Connection → Connection;
  server_name_ok : string → bool;
  client_connection : ClientConfig → string → string + Connection;
  server_connection : ServerConfig → string + Connection;
  bundled_roots : list Certificate;
  add_root : list Certificate → Certificate → string + list Certificate;
  client_config_with : list Certificate → ClientConfig;
  pem_certificates : string → list (string + Certificate);
  pem_private_key : string → string + PrivateKey;
  server_config_with : list Certificate → PrivateKey → string + ServerConfig;
}.

Inductive Progress (T : Type) := Finished (x : T) | Blocked.
Arguments Finished {_} _.
Arguments Blocked {_}.

Inductive TlsError :=
  | Io (e : IoError)
  | Protocol (e : string)
  | Hostname (h : string)
  | Roots (why : string)
  | Identity (why : string)
  | Truncated (where_ : string).

Inductive Fill := Fed | FillBlocked | Eof.

Section tls.
Context `{SystemTypes} `{NetTypes} `{!Rustls}.

(** ** Pump steps *)

Definition PumpState : Type := Connection * Os.

(** A step of the pump: the state survives an error. *)
Definition Pump (A : Type) : Type := PumpState → PumpState * res TlsError A.

#[export] Instance pump_ret : MRet Pump := λ A a s, (s, Ok a).
#[export] Instance pump_bind : MBind Pump := λ A B f c s,
  match c s with
  | (s, Ok a) => f a s
  | (s, Err e) => (s, Err e)
  | (s, Panic) => (s, Panic)
  | (s, NoFuel) => (s, NoFuel)
  end.

Definition fail {A} (e : TlsError) : Pump A := λ s, (s, Err e).
Definition no_fuel {A} : Pump A := λ s, (s, NoFuel).
Definition asks (f : Connection → bool) : Pump bool := λ s, (s, Ok (f s.1)).

(** A change of the connection alone. *)
Definition on_conn {A} (f : Connection → Connection * A) : Pump A := λ s,
  let (c, a) := f s.1 in ((c, s.2), Ok a).

(** A call that moves ciphertext. *)
Definition at_socket {A} (f : Connection → Syscall Os (Connection * A)) : Pump A := λ s,
  let '(o, (c, a)) := f s.1 s.2 in ((c, o), Ok a).

(** [let _ = step;] *)
Definition ignoring {A} (p : Pump A) : Pump unit := λ s, ((p s).1, Ok tt).

Variable sock : TcpStream.

(** [TlsSession::drain] *)
Fixpoint drain (fuel : nat) : Pump bool :=
  match fuel with
  | O => no_fuel
  | S fuel' =>
      w ← asks wants_write;
      if w : bool then
        r ← at_socket (write_tls sock);
        match r with
        | inr O => mret false
        | inr _ => drain fuel'
        | inl e => if decide (err_kind e = WouldBlock) then mret false else fail (Io e)
        end
      else mret true
  end.

(** [TlsSession::fill]: after a protocol error the alert is sent, as far as it goes. *)
Definition fill (fuel : nat) : Pump Fill :=
  r ← at_socket (read_tls sock);
  match r with
  | inr O => mret Eof
  | inr _ =>
      p ← on_conn process_new_packets;
      match p with
      | inr _ => mret Fed
      | inl e => _ ← ignoring (drain fuel); fail (Protocol e)
      end
  | inl e => if decide (err_kind e = WouldBlock) then mret FillBlocked else fail (Io e)
  end.

(** [TlsSession::handshake] *)
Fixpoint handshake (fuel : nat) : Pump (Progress unit) :=
  match fuel with
  | O => no_fuel
  | S fuel' =>
      flushed ← drain fuel;
      if negb flushed then mret Blocked else
      h ← asks is_handshaking;
      if negb h then mret (Finished tt) else
      f ← fill fuel;
      match f with
      | Fed => handshake fuel'
      | FillBlocked => mret Blocked
      | Eof => fail (Truncated "during the TLS handshake")
      end
  end.

(** The attempt at the head of [read]'s loop: [None] when nothing is decrypted yet. *)
Definition read_plaintext (buf : list u8) : Pump (list u8 * option (list u8)) :=
  '(buf, r) ← on_conn (λ c, let '(c, buf, r) := reader_read c buf in (c, (buf, r)));
  match r with
  | inr n => mret (buf, Some (truncate n buf))
  | inl e =>
      if decide (err_kind e = WouldBlock) then mret (buf, None)
      else if decide (err_kind e = UnexpectedEof) then fail (Truncated "without a TLS close_notify")
      else fail (Io e)
  end.

Fixpoint read_loop (fuel : nat) (buf : list u8) : Pump (Progress (list u8)) :=
  match fuel with
  | O => no_fuel
  | S fuel' =>
      '(buf, plain) ← read_plaintext buf;
      match plain with
      | Some chunk => mret (Finished chunk)
      | None =>
          flushed ← drain fuel;
          if negb flushed then mret Blocked else
          f ← fill fuel;
          match f with
          | Fed | Eof => read_loop fuel' buf
          | FillBlocked => mret Blocked
          end
      end
  end.

(** [TlsSession::read] *)
Definition tls_read (fuel : nat) (max : Z) : Pump (Progress (list u8)) := read_loop fuel (zeroed max).

(** [TlsSession::write] *)
Definition tls_write (fuel : nat) (data : list u8) : Pump (Progress nat) :=
  _ ← drain fuel;
  r ← on_conn (λ c, writer_write c data);
  match r with
  | inl e => fail (Io e)
  | inr O =>
      w ← asks wants_write;
      if w : bool then mret Blocked
      else fail (Io (mkIoError WriteZero "the TLS session accepted no plaintext"))
  | inr taken => _ ← drain fuel; mret (Finished taken)
  end.

(** [TlsSession::close] *)
Definition tls_close (fuel : nat) : Pump (Progress unit) :=
  _ ← on_conn (λ c, (send_close_notify c, tt));
  flushed ← drain fuel;
  mret (if flushed : bool then Finished tt else Blocked).

(** [TlsSession::has_plaintext] *)
Definition has_plaintext (c : Connection) : bool :=
  match first_chunk c with
  | inl e => negb (bool_decide (err_kind e = WouldBlock))
  | inr _ => true
  end.

(** ** Sessions and their configuration *)

(** [TlsSession::client] and [TlsSession::server] *)
Definition client_session (config : ClientConfig) (host : string) : TlsError + Connection :=
  if server_name_ok host then
    match client_connection config host with inl e => inl (Protocol e) | inr c => inr c end
  else inl (Hostname host).

Definition server_session (config : ServerConfig) : TlsError + Connection :=
  match server_connection config with inl e => inl (Protocol e) | inr c => inr c end.

(** [for cert in pem_slice_iter(pem) { roots.add(cert?)? }] *)
Fixpoint add_roots (roots : list Certificate) (certs : list (string + Certificate)) :
    TlsError + list Certificate :=
  match certs with
  | [] => inr roots
  | inl e :: _ => inl (Roots ("could not read the PEM: " +:+ e))
  | inr cert :: certs' =>
      match add_root roots cert with
      | inl e => inl (Protocol e)
      | inr roots => add_roots roots certs'
      end
  end.

Definition root_store (extra_pem : string) : TlsError + list Certificate :=
  if decide (extra_pem = "") then inr bundled_roots else
  match add_roots bundled_roots (pem_certificates extra_pem) with
  | inl e => inl e
  | inr roots =>
      if Nat.eqb (length roots) (length bundled_roots)
      then inl (Roots "no CERTIFICATE block in the supplied roots")
      else inr roots
  end.

(** The configuration every production connection shares. *)
Definition default_client_config : ClientConfig := client_config_with bundled_roots.

Definition client_config (extra_roots_pem : string) : TlsError + ClientConfig :=
  if decide (extra_roots_pem = "") then inr default_client_config else
  match root_store extra_roots_pem with
  | inl e => inl e
  | inr roots => inr (client_config_with roots)
  end.

(** [collect::<Result<Vec<_>, _>>()] *)
Fixpoint all_certificates (certs : list (string + Certificate)) : string + list Certificate :=
  match certs with
  | [] => inr []
  | inl e :: _ => inl e
  | inr c :: certs' =>
      match all_certificates certs' with inl e => inl e | inr cs => inr (c :: cs) end
  end.

Definition server_config (cert_chain_pem key_pem : string) : TlsError + ServerConfig :=
  match all_certificates (pem_certificates cert_chain_pem) with
  | inl e => inl (Identity ("could not read the certificate PEM: " +:+ e))
  | inr [] => inl (Identity "no CERTIFICATE block in the supplied chain")
  | inr chain =>
      match pem_private_key key_pem with
      | inl e => inl (Identity ("could not read the private key PEM: " +:+ e))
      | inr key =>
          match server_config_with chain key with
          | inl e => inl (Protocol e)
          | inr config => inr config
          end
      end
  end.
End tls.
