(* ===== verification/NativesSocket.v ===== *)
(** * Socket and TLS natives (src/runtime/src/interp/natives.rs, interp/mod.rs)

    Sockets never block: each native makes its call at once and parks on the readiness
    poller only when the call would block, to be run again when the socket is ready.
    Open sockets and the poller belong to the Thera thread ([Local]).  A handle doubles
    as the poller's token. *)

From Stdlib Require Import ZArith Lia.
From stdpp Require Import base numbers list strings gmap pretty.
From S2P Require Import Prelude Bytes Float64 Instr ModuleTable Value Heap MapObj Trap Scheduler.
From S2P Require Import Render Interp Driver NativesBase NativesText NativesFiber System NativesFs NativesEnv.
From S2P Require Import Tls.

Open Scope Z_scope.

(** What is registered with the poller. *)
Inductive Source `{NetTypes} :=
  | OfListener (l : TcpListener)
  | OfStream (s : TcpStream).

(** [mio], [std::net]'s addresses and name resolution. *)
Class Network `{SystemTypes} `{NetTypes} := {
  parse_addr : string → option SocketAddr;
  addr_text : SocketAddr → string;
  listener_bind : SocketAddr → Syscall Os (io TcpListener);
  listener_accept : TcpListener → Syscall Os (io TcpStream);
  listener_addr : TcpListener → Syscall Os (io SocketAddr);
  stream_connect : SocketAddr → Syscall Os (io TcpStream);
  stream_take_error : TcpStream → Syscall Os (io (option IoError));
  stream_peer_addr : TcpStream → Syscall Os (io SocketAddr);
  stream_local_addr : TcpStream → Syscall Os (io SocketAddr);
  stream_read : TcpStream → list u8 → Syscall Os (list u8 * io nat);
  stream_write : TcpStream → list u8 → Syscall Os (io nat);
  stream_peek : TcpStream → Syscall Os (io nat);
  drop_source : Source → Syscall Os unit;
  to_socket_addrs : string → u16 → Syscall Os (io (list SocketAddr));
  poll_new : Syscall Os (io Poll);
  registry_clone : Poll → Syscall Os (io Registry);
  waker_new : Poll → Z → Syscall Os (io Waker);
  register : Registry → Source → u64 → Syscall Os (io unit);
  deregister : Registry → Source → Syscall Os (io unit);
}.

Section types.
Context `{NetTypes}.

(** [enum Socket] *)
Inductive Socket :=
  | Listener (l : TcpListener)
  | Stream (s : TcpStream)
  | Tls (stream : TcpStream) (session : Connection).

(** [POLLER], [REGISTRY] and [WAKER], which are set and reset together. *)
Record Poller := mkPoller { poll : Poll; registry : Registry; waker : Waker }.

(** The thread-locals of the sockets and the poller. *)
Record Locals := mkLocals {
  SOCKETS : gmap Z Socket;
  NEXT_SOCKET_ID : i64;
  POLLER : option Poller;
}.

Definition source_of (s : Socket) : Source :=
  match s with
  | Listener l => OfListener l
  | Stream s | Tls s _ => OfStream s
  end.

(** What a run leaves behind is cleared after it. *)
Definition reset_sockets (l : Locals) : Locals := mkLocals ∅ 1 (POLLER l).
Definition reset_poller (l : Locals) : Locals := mkLocals (SOCKETS l) (NEXT_SOCKET_ID l) None.
End types.

Class Local (Ext : Type) `{Process Ext} `{NetTypes} := {
  locals : Ext → Locals;
  set_locals : Ext → Locals → Ext;
  locals_set e l : locals (set_locals e l) = l;
  locals_statics e g : locals (set_statics e g) = locals e;
  statics_locals e l : statics (set_locals e l) = statics e;
}.

Definition WAKE_TOKEN : Z := 0.

Section sockets.
Context `{Sizes} `{SystemTypes} `{NetTypes} {Ext : Type} `{!Process Ext} `{!Local Ext}.
Context `{!FileSystem} `{!Network} `{!Rustls}.
Variable value_debug : Value → string.
Variable fuel : nat.

#[local] Abbreviation World := (World (Job := Job) (Payload := Payload) (Ext := Ext)).
#[local] Abbreviation Native := (Native (Job := Job) (Payload := Payload) (Ext := Ext)).
#[local] Abbreviation str_contents := (str_contents value_debug).
#[local] Abbreviation bytes_contents := (bytes_contents value_debug).
#[local] Abbreviation as_int := (as_int value_debug).

(** ** Results *)

Definition socket_kind (e : IoError) : string :=
  match err_kind e with
  | ConnectionRefused => "refused"
  | ConnectionReset => "reset"
  | ConnectionAborted => "reset"
  | BrokenPipe => "reset"
  | AddrInUse => "addr_in_use"
  | AddrNotAvailable => "addr_unavailable"
  | TimedOut => "timed_out"
  | PermissionDenied => "permission_denied"
  | _ => "other"
  end.

Definition socket_err (m : Mem) (e : IoError) : res Trap (Mem * Value) :=
  err_str m (socket_kind e +:+ kind_sep +:+ err_text e).

Definition socket_closed_err (m : Mem) : res Trap (Mem * Value) :=
  err_str m ("closed" +:+ kind_sep +:+ "socket is closed").

Definition wrong_socket_kind (want : string) : IoError := mkIoError Other ("not " +:+ want).

Definition tls_err (m : Mem) (e : TlsError) : res Trap (Mem * Value) :=
  match e with
  | Io e => socket_err m e
  | Protocol e => err_str m ("tls" +:+ kind_sep +:+ e)
  | Hostname h => err_str m ("tls" +:+ kind_sep +:+ "not a valid host name for a TLS certificate: " +:+ h)
  | Roots why => err_str m ("tls" +:+ kind_sep +:+ "unusable trusted roots: " +:+ why)
  | Identity why => err_str m ("tls" +:+ kind_sep +:+ "unusable server identity: " +:+ why)
  | Truncated where_ => err_str m ("tls" +:+ kind_sep +:+ "the peer closed the connection " +:+ where_)
  end.

Definition socket_addr_err (m : Mem) (addr : string) : res Trap (Mem * Value) :=
  err_str m ("addr" +:+ kind_sep +:+ "not an <ip>:<port> address: " +:+ addr).

(** ** The poller and the registry of sockets *)

Definition update_locals (w : World) (l : Locals) : World := set_w_ext w (set_locals (w_ext w) l).

Definition my_locals (w : World) : Locals := locals (w_ext w).

Definition set_SOCKETS (w : World) (s : gmap Z Socket) : World :=
  update_locals w (mkLocals s (NEXT_SOCKET_ID (my_locals w)) (POLLER (my_locals w))).

Definition new_poller : Syscall Os (io Poller) :=
  and_then poll_new (λ p,
  and_then (registry_clone p) (λ r,
  and_then (waker_new p WAKE_TOKEN) (λ k, mret (inr (mkPoller p r k))))).

(** [ensure_poller], with the poller it leaves installed. *)
Definition ensure_poller (w : World) : World * io Poller :=
  match POLLER (my_locals w) with
  | Some p => (w, inr p)
  | None =>
      let (w, r) := in_world (on_os new_poller) w in
      match r with
      | inr p => (update_locals w (mkLocals (SOCKETS (my_locals w)) (NEXT_SOCKET_ID (my_locals w)) (Some p)), inr p)
      | inl e => (w, inl e)
      end
  end.

Definition with_registry {A} (w : World) (f : Registry → Syscall Os (io A)) : World * io A :=
  match ensure_poller w with
  | (w, inr p) => in_world (on_os (f (registry p))) w
  | (w, inl e) => (w, inl e)
  end.

(** A socket that cannot be registered is dropped. *)
Definition register_socket (w : World) (sock : Socket) : res Trap (World * Value) :=
  let l := my_locals w in
  let id := NEXT_SOCKET_ID l in
  let w := update_locals w (mkLocals (SOCKETS l) (wrapping_add id 1) (POLLER l)) in
  let (w, registered) := with_registry w (λ r, register r (source_of sock) (as_u64 id)) in
  match registered with
  | inl e =>
      let (w, _) := in_world (on_os (drop_source (source_of sock))) w in
      returning w (socket_err (w_mem w) e)
  | inr _ =>
      let w := set_SOCKETS w (<[id := sock]> (SOCKETS (my_locals w))) in
      returning w (ok (w_mem w) (Int id))
  end.

(** [with_socket(handle, f)] *)
Definition with_socket {T} (w : World) (handle : i64) (f : Socket → Syscall Os T) : World * option T :=
  match SOCKETS (my_locals w) !! handle with
  | None => (w, None)
  | Some sock => let (w, x) := in_world (on_os (f sock)) w in (w, Some x)
  end.

(** [super::park_ready(handle); Ok(Value::Unit)] *)
Definition wait_ready (w : World) (handle : i64) : res Trap (World * Value) :=
  Ok (park_with w (Ready handle), Unit).

(** The end every socket operation shares: closed, done, not ready, failed. *)
Definition socket_outcome {A} (waits : ErrorKind → bool) (handle : i64) (r : World * option (io A))
    (done : World → A → res Trap (World * Value)) : res Trap (World * Value) :=
  let (w, r) := r in
  match r with
  | None => returning w (socket_closed_err (w_mem w))
  | Some (inr x) => done w x
  | Some (inl e) =>
      if waits (err_kind e) then wait_ready w handle else returning w (socket_err (w_mem w) e)
  end.

Definition would_block (k : ErrorKind) : bool := bool_decide (k = WouldBlock).
Definition never (_ : ErrorKind) : bool := false.

(** ** Plain sockets *)

Definition native_socket_listen : Native := λ w args,
  v ← expect_one args "socket_listen";
  addr ← str_contents (w_mem w) v;
  match parse_addr addr with
  | None => returning w (socket_addr_err (w_mem w) addr)
  | Some parsed =>
      let (w, r) := in_world (on_os (listener_bind parsed)) w in
      match r with
      | inr l => register_socket w (Listener l)
      | inl e => returning w (socket_err (w_mem w) e)
      end
  end.

Definition native_socket_accept : Native := λ w args,
  v ← expect_one args "socket_accept";
  handle ← as_int v "socket_accept";
  socket_outcome would_block handle
    (with_socket w handle (λ sock,
      match sock with
      | Listener l => listener_accept l
      | Stream _ | Tls _ _ => mret (inl (wrong_socket_kind "a listener"))
      end))
    (λ w stream, register_socket w (Stream stream)).

Definition native_socket_connect : Native := λ w args,
  v ← expect_one args "socket_connect";
  addr ← str_contents (w_mem w) v;
  match parse_addr addr with
  | None => returning w (socket_addr_err (w_mem w) addr)
  | Some parsed =>
      let (w, r) := in_world (on_os (stream_connect parsed)) w in
      match r with
      | inr s => register_socket w (Stream s)
      | inl e => returning w (socket_err (w_mem w) e)
      end
  end.

(** The state of a connect: its error, or whether the peer is known yet. *)
Definition connect_state (s : TcpStream) : Syscall Os (io unit) :=
  r ← stream_take_error s;
  match r with
  | inr (Some e) | inl e => mret (inl e)
  | inr None => a ← stream_peer_addr s; mret (io_map (λ _, tt) a)
  end.

Definition native_socket_connect_finish : Native := λ w args,
  v ← expect_one args "socket_connect_finish";
  handle ← as_int v "socket_connect_finish";
  socket_outcome (λ k, would_block k || bool_decide (k = NotConnected)) handle
    (with_socket w handle (λ sock,
      match sock with
      | Stream s => connect_state s
      | Listener _ | Tls _ _ => mret (inl (wrong_socket_kind "a connecting stream"))
      end))
    (λ w _, returning w (ok (w_mem w) Unit)).

(** [s.read(&mut buf).map(|n| { buf.truncate(n); buf })] *)
Definition read_up_to (s : TcpStream) (max : Z) : Syscall Os (io (list u8)) :=
  '(buf, r) ← stream_read s (zeroed (Z.min max READ_LIMIT));
  mret (io_map (λ n, truncate n buf) r).

Definition ok_bytes (m : Mem) (b : list u8) : res Trap (Mem * Value) :=
  '(m, v) ← new_bytes m b; ok m v.

Definition native_socket_read : Native := λ w args,
  '(hv, maxv) ← args2 args "socket_read";
  handle ← as_int hv "socket_read";
  max ← as_int maxv "socket_read";
  let max := Z.max max 0 in
  if max =? 0 then returning w (ok_bytes (w_mem w) []) else
  socket_outcome would_block handle
    (with_socket w handle (λ sock,
      match sock with
      | Stream s => read_up_to s max
      | Listener _ | Tls _ _ => mret (inl (wrong_socket_kind "a plain stream"))
      end))
    (λ w buf, returning w (ok_bytes (w_mem w) buf)).

Definition native_socket_write : Native := λ w args,
  '(hv, dv) ← args2 args "socket_write";
  handle ← as_int hv "socket_write";
  data ← bytes_contents (w_mem w) dv "socket_write";
  match data with
  | [] => returning w (ok (w_mem w) (Int 0))
  | _ =>
      socket_outcome would_block handle
        (with_socket w handle (λ sock,
          match sock with
          | Stream s => stream_write s data
          | Listener _ | Tls _ _ => mret (inl (wrong_socket_kind "a plain stream"))
          end))
        (λ w n, returning w (ok (w_mem w) (Int (as_i64 (Z.of_nat n)))))
  end.

Definition wake_poll_waiters (w : World) (handle : i64) : res Trap World :=
  s ← wake_poll (w_sched w) handle;
  Ok (set_w_sched w s).

Definition close_socket_entry (w : World) (handle : i64) : res Trap (World * bool) :=
  match SOCKETS (my_locals w) !! handle with
  | None => Ok (w, false)
  | Some sock =>
      let w := set_SOCKETS w (delete handle (SOCKETS (my_locals w))) in
      let (w, _) := with_registry w (λ r, deregister r (source_of sock)) in
      let (w, _) := in_world (on_os (drop_source (source_of sock))) w in
      w ← wake_poll_waiters w handle;
      Ok (w, true)
  end.

Definition native_socket_close : Native := λ w args,
  v ← expect_one args "socket_close";
  handle ← as_int v "socket_close";
  '(w, b) ← close_socket_entry w handle;
  returning w (if b : bool then ok (w_mem w) Unit else socket_closed_err (w_mem w)).

Definition native_socket_local_addr : Native := λ w args,
  v ← expect_one args "socket_local_addr";
  handle ← as_int v "socket_local_addr";
  socket_outcome never handle
    (with_socket w handle (λ sock,
      match sock with
      | Listener l => listener_addr l
      | Stream s | Tls s _ => stream_local_addr s
      end))
    (λ w a, returning w (ok_str (w_mem w) (addr_text a))).

Definition native_socket_peer_addr : Native := λ w args,
  v ← expect_one args "socket_peer_addr";
  handle ← as_int v "socket_peer_addr";
  socket_outcome never handle
    (with_socket w handle (λ sock,
      match sock with
      | Stream s | Tls s _ => stream_peer_addr s
      | Listener _ => mret (inl (wrong_socket_kind "a stream"))
      end))
    (λ w a, returning w (ok_str (w_mem w) (addr_text a))).

Definition peek_ready (s : TcpStream) : Syscall Os bool :=
  r ← stream_peek s;
  mret match r with inr _ => true | inl e => negb (would_block (err_kind e)) end.

(** A closed handle is ready. *)
Definition native_socket_is_ready : Native := λ w args,
  v ← expect_one args "socket_is_ready";
  handle ← as_int v "socket_is_ready";
  let (w, b) :=
    with_socket w handle (λ sock,
      match sock with
      | Stream s => peek_ready s
      | Tls s session => if has_plaintext session then mret true else peek_ready s
      | Listener _ => mret false
      end) in
  Ok (w, Bool (default true b)).

Definition resolve_job (host : string) (port : u16) : Syscall Os (io string) :=
  r ← to_socket_addrs host port;
  mret (io_map (λ l, String.concat kind_sep (addr_text <$> l)) r).

Definition native_socket_resolve : Native := λ w args,
  '(hv, pv) ← args2 args "socket_resolve";
  host ← str_contents (w_mem w) hv;
  port ← as_int pv "socket_resolve";
  if negb ((0 <=? port) && (port <=? 65535))
  then returning w (socket_addr_err (w_mem w) (host +:+ ":" +:+ pretty port))
  else
    Ok (park_syscall (TIo TString) w (on_os (resolve_job host port))
          (building (λ r m,
            match r with
            | inr joined =>
                if decide (joined = "") then err_str m ("dns" +:+ kind_sep +:+ "no addresses for " +:+ host)
                else ok_str m joined
            | inl e => err_str m ("dns" +:+ kind_sep +:+ host +:+ ": " +:+ err_text e)
            end)), Unit).

(** ** TLS *)

(** [with_tls(handle, f)]: the outcome of the pump on the session of [handle], which
    keeps the connection it leaves, or the error value. *)
Definition with_tls {T} (w : World) (handle : i64) (f : TcpStream → Pump T) :
    res Trap (World * (Value + res TlsError T)) :=
  match SOCKETS (my_locals w) !! handle with
  | None =>
      '(m, v) ← socket_closed_err (w_mem w);
      Ok (set_w_mem w m, inl v)
  | Some (Tls stream session) =>
      let g := statics (w_ext w) in
      let '((session, o), r) := f stream (session, os g) in
      let w := set_w_ext w (set_statics (w_ext w) (set_os g o)) in
      let w := set_SOCKETS w (<[handle := Tls stream session]> (SOCKETS (my_locals w))) in
      Ok (w, inr r)
  | Some _ =>
      '(m, v) ← socket_err (w_mem w) (wrong_socket_kind "a TLS stream");
      Ok (set_w_mem w m, inl v)
  end.

Definition tls_outcome {T} (w : World) (handle : i64) (outcome : res TlsError (Progress T))
    (done : T → Mem → res Trap (Mem * Value)) : res Trap (World * Value) :=
  match outcome with
  | Ok (Finished x) => returning w ('(m, v) ← done x (w_mem w); ok m v)
  | Ok Blocked => wait_ready w handle
  | Err e => returning w (tls_err (w_mem w) e)
  | Panic => Panic
  | NoFuel => NoFuel
  end.

(** The end of [tls_connect] and [tls_accept]: a plain stream is wrapped in place. *)
Definition wrap_socket (w : World) (handle : i64) (session : Connection) : res Trap (World * Value) :=
  match SOCKETS (my_locals w) !! handle with
  | None => returning w (socket_closed_err (w_mem w))
  | Some (Stream stream) =>
      let w := set_SOCKETS w (<[handle := Tls stream session]> (SOCKETS (my_locals w))) in
      returning w (ok (w_mem w) (Int handle))
  | Some _ => returning w (socket_err (w_mem w) (wrong_socket_kind "an unwrapped stream"))
  end.

Definition native_tls_connect : Native := λ w args,
  '(hv, host_v, roots_v) ← args3 args "tls_connect";
  handle ← as_int hv "tls_connect";
  host ← str_contents (w_mem w) host_v;
  roots_pem ← str_contents (w_mem w) roots_v;
  match client_config roots_pem with
  | inl e => returning w (tls_err (w_mem w) e)
  | inr config =>
      match client_session config host with
      | inl e => returning w (tls_err (w_mem w) e)
      | inr session => wrap_socket w handle session
      end
  end.

Definition native_tls_accept : Native := λ w args,
  '(hv, cert_v, key_v) ← args3 args "tls_accept";
  handle ← as_int hv "tls_accept";
  cert_pem ← str_contents (w_mem w) cert_v;
  key_pem ← str_contents (w_mem w) key_v;
  match server_config cert_pem key_pem with
  | inl e => returning w (tls_err (w_mem w) e)
  | inr config =>
      match server_session config with
      | inl e => returning w (tls_err (w_mem w) e)
      | inr session => wrap_socket w handle session
      end
  end.

Definition native_tls_handshake : Native := λ w args,
  v ← expect_one args "tls_handshake";
  handle ← as_int v "tls_handshake";
  '(w, r) ← with_tls w handle (λ stream, handshake stream fuel);
  match r with
  | inl err => Ok (w, err)
  | inr outcome => tls_outcome w handle outcome unit_value
  end.

Definition native_tls_read : Native := λ w args,
  '(hv, maxv) ← args2 args "tls_read";
  handle ← as_int hv "tls_read";
  max ← as_int maxv "tls_read";
  let max := Z.max max 0 in
  if max =? 0 then returning w (ok_bytes (w_mem w) []) else
  '(w, r) ← with_tls w handle (λ stream, tls_read stream fuel (Z.min max READ_LIMIT));
  match r with
  | inl err => Ok (w, err)
  | inr outcome => tls_outcome w handle outcome bytes_value
  end.

Definition native_tls_write : Native := λ w args,
  '(hv, dv) ← args2 args "tls_write";
  handle ← as_int hv "tls_write";
  data ← bytes_contents (w_mem w) dv "tls_write";
  match data with
  | [] => returning w (ok (w_mem w) (Int 0))
  | _ =>
      '(w, r) ← with_tls w handle (λ stream, tls_write stream fuel data);
      match r with
      | inl err => Ok (w, err)
      | inr outcome => tls_outcome w handle outcome (λ n m, Ok (m, Int (as_i64 (Z.of_nat n))))
      end
  end.

Definition native_tls_close : Native := λ w args,
  v ← expect_one args "tls_close";
  handle ← as_int v "tls_close";
  '(w, r) ← with_tls w handle (λ stream, tls_close stream fuel);
  match r with
  | inl err => Ok (w, err)
  | inr (Ok Blocked) => wait_ready w handle
  | inr (Ok (Finished _)) =>
      '(w, _) ← close_socket_entry w handle;
      returning w (ok (w_mem w) Unit)
  | inr (Err e) =>
      '(w, _) ← close_socket_entry w handle;
      returning w (tls_err (w_mem w) e)
  | inr Panic => Panic
  | inr NoFuel => NoFuel
  end.
End sockets.
