(* ===== verification/NativesAll.v ===== *)
(** * The native table with its functions (src/runtime/src/interp/natives.rs)

    Every native of the runtime under the name it is bound by, in index order, and the
    list a [Vm] is made with. *)

From Stdlib Require Import ZArith Lia.
From stdpp Require Import base numbers list strings gmap pretty.
From S2P Require Import Prelude Bytes Float64 Value Heap Scheduler Interp NativesBase NativesTable NativesText.
From S2P Require Import NativesColl NativesFiber System NativesFs NativesEnv NativesLib NativesProcess Tls NativesSocket.

Open Scope Z_scope.

Section all.
Context `{Sizes} `{SystemTypes} `{NetTypes} {Ext : Type} `{!Process Ext} `{!Local Ext} `{!Console Ext}.
Context `{!FileSystem} `{!Environment} `{!MathLib} `{!Digests} `{!RegexLib} `{!Processes} `{!Network} `{!Rustls}.
Variables (f64_to_string : f64 → string) (vd : Value → string) (fuel tls_fuel : nat).

#[local] Abbreviation Native := (Native (Job := Job) (Payload := Payload) (Ext := Ext)).

(** [NATIVES] *)
Definition native_table : list (string * Native) := [
    ("println", native_println vd); ("print", native_print vd); ("str_concat", on_mem (native_str_concat vd));
    ("list_index", on_mem (native_list_index vd)); ("list_get", on_mem (native_list_get vd));
    ("list_len", on_mem native_list_len); ("list_set", on_mem (native_list_set vd));
    ("map_new", on_mem (native_map_new fuel)); ("map_index", on_mem (native_map_index f64_to_string fuel));
    ("map_get", on_mem (native_map_get fuel)); ("map_len", on_mem native_map_len);
    ("map_has", on_mem (native_map_has fuel)); ("map_set", on_mem (native_map_set fuel));
    ("eq", on_mem (native_eq fuel)); ("str_len", on_mem (native_str_len vd));
    ("str_byte_len", on_mem (native_str_byte_len vd)); ("str_trim", on_mem (native_str_trim vd));
    ("str_compare", on_mem (native_str_compare vd)); ("str_trim_start", on_mem (native_str_trim_start vd));
    ("str_trim_end", on_mem (native_str_trim_end vd)); ("str_contains", on_mem (native_str_contains vd));
    ("str_starts_with", on_mem (native_str_starts_with vd)); ("str_ends_with", on_mem (native_str_ends_with vd));
    ("str_to_uppercase", on_mem (native_str_to_uppercase vd));
    ("str_to_lowercase", on_mem (native_str_to_lowercase vd)); ("str_lines", on_mem (native_str_lines vd));
    ("str_split_whitespace", on_mem (native_str_split_whitespace vd)); ("str_split", on_mem (native_str_split vd));
    ("str_slice", on_mem (native_str_slice vd)); ("str_chars", on_mem (native_str_chars vd));
    ("str_bytes", on_mem (native_str_bytes vd)); ("str_from_chars", on_mem (native_str_from_chars vd));
    ("str_try_from_chars", on_mem (native_str_try_from_chars vd));
    ("int_to_double", on_mem (native_int_to_double vd)); ("double_to_int", on_mem (native_double_to_int vd));
    ("double_to_bits", on_mem (native_double_to_bits vd)); ("math_sqrt", on_mem (native_math_sqrt vd));
    ("math_pow", on_mem (native_math_pow vd)); ("math_floor", on_mem (native_math_floor vd));
    ("math_ceil", on_mem (native_math_ceil vd)); ("math_round", on_mem (native_math_round vd));
    ("math_trunc", on_mem (native_math_trunc vd)); ("math_exp", on_mem (native_math_exp vd));
    ("math_ln", on_mem (native_math_ln vd)); ("math_log10", on_mem (native_math_log10 vd));
    ("math_sin", on_mem (native_math_sin vd)); ("math_cos", on_mem (native_math_cos vd));
    ("math_tan", on_mem (native_math_tan vd)); ("math_asin", on_mem (native_math_asin vd));
    ("math_acos", on_mem (native_math_acos vd)); ("math_atan", on_mem (native_math_atan vd));
    ("math_atan2", on_mem (native_math_atan2 vd)); ("math_hypot", on_mem (native_math_hypot vd));
    ("str_to_int", on_mem (native_str_to_int vd)); ("str_to_double", on_mem (native_str_to_double vd));
    ("fs_read_text", native_fs_read_text vd); ("fs_write_text", native_fs_write_text vd);
    ("fs_read_bytes", native_fs_read_bytes vd); ("fs_write_bytes", native_fs_write_bytes vd);
    ("fs_exists", native_fs_exists vd); ("fs_list_dir", native_fs_list_dir vd);
    ("fs_read_dir", native_fs_read_dir vd); ("fs_metadata", native_fs_metadata vd);
    ("fs_symlink_metadata", native_fs_symlink_metadata vd); ("fs_create_dir", native_fs_create_dir vd);
    ("fs_create_dir_all", native_fs_create_dir_all vd); ("fs_remove", native_fs_remove vd);
    ("fs_remove_dir_all", native_fs_remove_dir_all vd); ("fs_rename", native_fs_rename vd);
    ("fs_copy", native_fs_copy vd); ("fs_temp_dir", native_fs_temp_dir); ("fs_temp_file", native_fs_temp_file vd);
    ("fs_open", native_fs_open vd); ("fs_create", native_fs_create vd); ("file_read", native_file_read vd);
    ("file_write", native_file_write vd); ("file_seek", native_file_seek vd); ("file_close", native_file_close vd);
    ("time_now_millis", native_time_now_millis); ("time_monotonic_nanos", native_time_monotonic_nanos);
    ("time_sleep_millis", native_time_sleep_millis vd); ("random_seed_entropy", native_random_seed_entropy);
    ("env_get", native_env_get vd); ("env_set", native_env_set vd); ("env_vars", native_env_vars fuel);
    ("env_args", native_env_args); ("env_current_dir", native_env_current_dir);
    ("env_current_exe", native_env_current_exe); ("env_set_current_dir", native_env_set_current_dir vd);
    ("env_os", native_env_os); ("env_exit", native_env_exit vd); ("term_is_tty", native_term_is_tty);
    ("term_size", native_term_size); ("map_keys", on_mem native_map_keys); ("map_values", on_mem native_map_values);
    ("map_remove", on_mem (native_map_remove fuel)); ("map_clear", on_mem native_map_clear);
    ("list_join", on_mem (native_list_join f64_to_string vd)); ("list_push", on_mem native_list_push);
    ("list_pop", on_mem native_list_pop); ("list_clear", on_mem native_list_clear);
    ("process_run", native_process_run vd); ("process_exec", native_process_exec vd);
    ("process_start", native_process_start vd); ("process_wait", native_process_wait);
    ("process_kill", native_process_kill); ("process_stdin_write", native_process_stdin_write vd);
    ("process_stdin_close", native_process_stdin_close vd); ("process_stdout_read", native_process_stdout_read vd);
    ("process_stderr_read", native_process_stderr_read vd); ("bytes_len", on_mem (native_bytes_len vd));
    ("bytes_get", on_mem (native_bytes_get vd)); ("bytes_slice", on_mem (native_bytes_slice vd));
    ("bytes_concat", on_mem (native_bytes_concat vd)); ("bytes_to_string", on_mem (native_bytes_to_string vd));
    ("bytes_to_list", on_mem (native_bytes_to_list vd)); ("bytes_empty", on_mem native_bytes_empty);
    ("bytes_from_list", on_mem (native_bytes_from_list vd)); ("bytesbuilder_new", on_mem native_bytesbuilder_new);
    ("bytesbuilder_write_u8", on_mem (native_bytesbuilder_write_u8 vd));
    ("bytesbuilder_write_bytes", on_mem (native_bytesbuilder_write_bytes vd));
    ("bytesbuilder_write_str", on_mem (native_bytesbuilder_write_str vd));
    ("bytesbuilder_len", on_mem (native_bytesbuilder_len vd));
    ("bytesbuilder_finish", on_mem (native_bytesbuilder_finish vd)); ("io_stdin_read", native_io_stdin_read vd);
    ("io_stdout_write", native_io_stdout_write vd); ("io_stderr_write", native_io_stderr_write vd);
    ("eprintln", native_eprintln vd); ("eprint", native_eprint vd);
    ("int_to_string", on_mem (native_int_to_string f64_to_string));
    ("double_to_string", on_mem (native_double_to_string f64_to_string));
    ("bool_to_string", on_mem (native_bool_to_string f64_to_string));
    ("str_identity", on_mem (native_str_identity vd)); ("string_debug", on_mem (native_string_debug vd));
    ("bytes_debug", on_mem (native_bytes_debug vd)); ("test_capture_begin", native_test_capture_begin);
    ("test_capture_end", native_test_capture_end); ("fiber_spawn", native_fiber_spawn);
    ("fiber_join", native_fiber_join vd); ("fiber_yield", native_fiber_yield); ("channel_new", native_channel_new vd);
    ("channel_send", native_channel_send vd); ("channel_receive", native_channel_receive vd);
    ("channel_close", native_channel_close vd); ("hash_sha256", on_mem (native_hash_sha256 vd));
    ("hash_sha1", on_mem (native_hash_sha1 vd)); ("hash_md5", on_mem (native_hash_md5 vd));
    ("hash_crc32", on_mem (native_hash_crc32 vd)); ("str_byte_slice", on_mem (native_str_byte_slice vd));
    ("regex_compile", native_regex_compile vd); ("regex_is_match", native_regex_is_match vd);
    ("regex_find", native_regex_find vd); ("regex_find_all", native_regex_find_all vd);
    ("regex_captures", native_regex_captures vd); ("regex_replace", native_regex_replace vd);
    ("regex_replace_all", native_regex_replace_all vd); ("socket_listen", native_socket_listen vd);
    ("socket_accept", native_socket_accept vd); ("socket_connect", native_socket_connect vd);
    ("socket_connect_finish", native_socket_connect_finish vd); ("socket_read", native_socket_read vd);
    ("socket_write", native_socket_write vd); ("socket_close", native_socket_close vd);
    ("socket_local_addr", native_socket_local_addr vd); ("socket_peer_addr", native_socket_peer_addr vd);
    ("socket_resolve", native_socket_resolve vd); ("socket_is_ready", native_socket_is_ready vd);
    ("fiber_is_done", native_fiber_is_done vd); ("chan_is_ready", native_chan_is_ready vd);
    ("select_park", native_select_park vd); ("tls_connect", native_tls_connect vd);
    ("tls_accept", native_tls_accept vd); ("tls_handshake", native_tls_handshake vd tls_fuel);
    ("tls_read", native_tls_read vd tls_fuel); ("tls_write", native_tls_write vd tls_fuel);
    ("tls_close", native_tls_close vd tls_fuel)
  ].

Lemma native_table_names : native_table.*1 = NATIVES.
Proof. reflexivity. Qed.

Definition default_natives : list Native := native_table.*2.
End all.
