(* ===== verification/Main.v ===== *)
(** * The command line (src/runtime/src/main.rs)

    [main] picks between the version, the demo writer, running a bytecode file and
    booting the front-end; a command ends with an exit code.  [Launch] is what only the
    command line asks of the outside: the paths around the executable and the blob that
    the build script embeds.  A trap ends the process at once, so its world is not
    kept: [Trapped] holds the line that goes to stderr before the exit code 1.
    [eprintln!] and [println!] panic when their stream fails.  The file helpers and
    [LoadError] of src/runtime/src/codec.rs are here too. *)

From Stdlib Require Import ZArith Lia.
From stdpp Require Import base numbers list strings gmap pretty.
From S2P Require Import Prelude Bytes Float64 Serialize Instr ModuleTable NativesTable Codec Value Utf8 Heap Builder.
From S2P Require Import Trap Scheduler Render Interp Driver NativesBase NativesText NativesFiber System NativesFs NativesEnv.

Open Scope Z_scope.

Abbreviation ExitCode := u8 (only parsing).
Definition SUCCESS : ExitCode := 0.
Definition FAILURE : ExitCode := 1.

(** [LoadError] *)
Inductive LoadError := LoadIo (e : IoError) | LoadDecode (e : DecodeError).

(** [{e:?}] of a [DecodeError], given [{:?}] of a string. *)
Definition decode_error_debug (str_debug : string → string) (e : DecodeError) : string :=
  match e with
  | Serialize.UnexpectedEof => "UnexpectedEof"
  | VarintOverflow => "VarintOverflow"
  | InvalidUtf8 => "InvalidUtf8"
  | BadMagic => "BadMagic"
  | UnsupportedVersion v => "UnsupportedVersion(" +:+ pretty v +:+ ")"
  | UnknownOpcode op => "UnknownOpcode(" +:+ pretty op +:+ ")"
  | ConstIndexOutOfRange => "ConstIndexOutOfRange"
  | UnknownNative name => "UnknownNative(" +:+ str_debug name +:+ ")"
  end.

Definition load_error_text (str_debug : string → string) (e : LoadError) : string :=
  match e with
  | LoadIo e => "I/O error: " +:+ err_text e
  | LoadDecode e => "decode error: " +:+ decode_error_debug str_debug e
  end.

(** The paths around the executable, and what the build bakes in. *)
Class Launch `{SystemTypes} := {
  canonicalize : PathBuf → Syscall Os (io PathBuf);
  path_parent : PathBuf → option PathBuf;
  path_read : PathBuf → Syscall Os (io (list u8));
  path_read_to_string : PathBuf → Syscall Os (io string);
  FRONTEND_BC : list u8;
  CARGO_PKG_VERSION : string;
}.

Section files.
Context `{Layout} `{SystemTypes} `{!FileSystem}.

(** An encoder that panics ends the process before the file is written. *)
Definition write_module_to_file (path : string) (m : Module) : Syscall Os (res Trap (io unit)) :=
  match encode_module m with
  | Ok bytes => r ← fs_write path bytes; mret (Ok r)
  | Err e => match e with end
  | Panic => mret Panic
  | NoFuel => mret NoFuel
  end.

Definition read_module_from_file (path : string) : Syscall Os (res LoadError Module) :=
  r ← fs_read path;
  mret match r with
  | inl e => Err (LoadIo e)
  | inr bytes =>
      match decode_module bytes with
      | Ok m => Ok m
      | Err e => Err (LoadDecode e)
      | Panic => Panic
      | NoFuel => NoFuel
      end
  end.
End files.

(** ** The demo *)

(** [double(x) = x * 2;  main() { println('double(21) = ' + int_to_string(double(21))); return 0; }] *)
Definition demo_module : FnBuilder.building Module :=
  let main := FnBuilder.new "main" 0 in
  let main := FnBuilder.const_str main "double(21) = " in
  let main := FnBuilder.const_int main 21 in
  let main := FnBuilder.call main 1 1 in
  let main := FnBuilder.call_native main NATIVE_INT_TO_STRING 1 in
  let main := FnBuilder.call_native main NATIVE_STR_CONCAT 2 in
  let main := FnBuilder.call_native main NATIVE_PRINTLN 1 in
  let main := FnBuilder.pop main in
  let main := FnBuilder.const_int main 0 in
  let main := FnBuilder.ret main in
  let double := FnBuilder.new "double" 1 in
  let double := FnBuilder.load double 0 in
  let double := FnBuilder.const_int double 2 in
  let double := FnBuilder.mul_i64 double in
  let double := FnBuilder.ret double in
  main ← FnBuilder.finish main;
  double ← FnBuilder.finish double;
  Ok (Module_new [main; double]).

Section main.
Context `{Sizes} `{Layout} `{SystemTypes} {Ext : Type} `{!Process Ext} `{!Console Ext}.
Context `{!FileSystem} `{!Environment} `{!Launch}.
Variables (f64_to_string : f64 → string) (value_debug : Value → string) (obj_debug : Obj → string).
Variables (str_debug : string → string) (fmt_mib : usize → string).
Variable natives : list (Native (Job := Job) (Payload := Payload) (Ext := Ext)).
Variable machine : Machine Job Payload Ext.

#[local] Abbreviation World := (World (Job := Job) (Payload := Payload) (Ext := Ext)).

(** How a command ends. *)
Inductive Ended := Exited (w : World) (code : ExitCode) | Trapped (line : string) (code : ExitCode).

(** [eprintln!] *)
Definition eprintln (w : World) (line : string) : res Trap World :=
  let (e, failed) := stderr_write (w_ext w) (as_bytes line ++ [newline]) in
  match failed with
  | Some _ => Panic
  | None => Ok (set_w_ext w e)
  end.

(** Lines for stderr, and then the exit code. *)
Fixpoint report (w : World) (lines : list string) (code : ExitCode) : res Trap Ended :=
  match lines with
  | [] => Ok (Exited w code)
  | line :: lines' => w ← eprintln w line; report w lines' code
  end.

Definition trapped (trap : Trap) : Ended :=
  Trapped ("thera: trap: " +:+ trap_message fmt_mib trap) FAILURE.

(** ** Results *)

Fixpoint render (fuel : nat) (m : Mem) (v : Value) : res Trap string :=
  match v with
  | Int n => Ok (pretty n)
  | Double x => Ok (format_double f64_to_string x)
  | Bool b => Ok (if b : bool then "true" else "false")
  | Unit => Ok "()"
  | Ref h =>
      match fuel with
      | O => NoFuel
      | S fuel' =>
          o ← clone_obj m h;
          match o with
          | Str s => Ok s
          | Struct _ [field] => render fuel' m field
          | other => Ok (obj_debug other)
          end
      end
  end.

Definition exit_code (fuel : nat) (w : World) (v : Value) : res Trap Ended :=
  match v with
  | Int n => Ok (Exited w (as_u8 n))
  | Ref h =>
      o ← clone_obj (w_mem w) h;
      match o with
      | Enum ty variant fields =>
          if decide (ty = TY_RESULT ∧ variant = TAG_OK) then
            match fields with
            | Int n :: _ => Ok (Exited w (as_u8 n))
            | _ => Ok (Exited w SUCCESS)
            end
          else if decide (ty = TY_RESULT) then
            text ← match fields with [] => Ok "" | e :: _ => render fuel (w_mem w) e end;
            report w ["error: " +:+ text] FAILURE
          else Ok (Exited w SUCCESS)
      | _ => Ok (Exited w SUCCESS)
      end
  | _ => Ok (Exited w SUCCESS)
  end.

(** [init_module] and [run]: what both commands do with a module and its entry. *)
Definition start (fuel : nat) (module : Module) (entry : nat) (w : World) (call_args : list Value) :
    res Trap Ended :=
  match init_module f64_to_string value_debug natives machine fuel module w with
  | Err trap => Ok (trapped trap)
  | Panic => Panic
  | NoFuel => NoFuel
  | Ok w =>
      match run f64_to_string value_debug natives machine fuel module w entry call_args with
      | Ok (w, v) => exit_code fuel w v
      | Err trap => Ok (trapped trap)
      | Panic => Panic
      | NoFuel => NoFuel
      end
  end.

(** ** Running a bytecode file *)

Definition usage : list string := ["usage: thera-rt [--entry NAME] <file.thera-bc> [args]"].

(** The split of the arguments into the entry's name and the rest. *)
Definition split_entry (args : list string) : option (option string * list string) :=
  match args with
  | [] => Some (None, args)
  | flag :: tail =>
      if decide (flag = "--entry") then
        match tail with
        | name :: rest => Some (Some name, rest)
        | [] => None
        end
      else Some (None, args)
  end.

Definition cmd_run (fuel : nat) (w : World) (args : list string) : res Trap Ended :=
  match split_entry args with
  | None => report w usage 2
  | Some (_, []) => report w usage 2
  | Some (explicit_entry, path :: rest) =>
      let (w, loaded) := in_world (on_os (read_module_from_file path)) w in
      match loaded with
      | Err e => report w ["thera: cannot load " +:+ path +:+ ": " +:+ load_error_text str_debug e] FAILURE
      | Panic => Panic
      | NoFuel => NoFuel
      | Ok module =>
          let entry :=
            match explicit_entry with
            | Some name => function_index module name
            | None => entry_index module
            end in
          match entry with
          | None =>
              report w ["thera: " +:+ path +:+ " has no '" +:+ default "main" explicit_entry +:+ "' function"] FAILURE
          | Some entry =>
              let (w, _) := in_world (set_program_args rest) w in
              '(m, argv) ← new_strs (w_mem w) rest;
              let w := set_w_mem w m in
              f ← or_panic (functions module !! entry);
              if decide (param_count f = 0) then start fuel module entry w []
              else if decide (param_count f = 1) then
                '(m, list) ← new_list (w_mem w) argv;
                start fuel module entry (set_w_mem w m) [list]
              else
                report w ["thera: main takes " +:+ pretty (param_count f) +:+
                  " parameters; only 0 or 1 (args) is supported"] FAILURE
          end
      end
  end.

(** ** The front-end *)

Definition cmd_frontend (fuel : nat) (w : World) (blob : list u8) (args : list string) : res Trap Ended :=
  match decode_module blob with
  | Err e => report w ["thera: the front-end is corrupt: " +:+ decode_error_debug str_debug e] FAILURE
  | Panic => Panic
  | NoFuel => NoFuel
  | Ok module =>
      match entry_index module with
      | None => report w ["thera: the embedded front-end has no 'main' function"] FAILURE
      | Some entry =>
          let (w, _) := in_world (set_program_args args) w in
          '(m, argv) ← string_list (w_mem w) args;
          let w := set_w_mem w m in
          f ← or_panic (functions module !! entry);
          if decide (param_count f = 0) then start fuel module entry w []
          else if decide (param_count f = 1) then start fuel module entry w [argv]
          else
            report w ["thera: the front-end's main takes " +:+ pretty (param_count f) +:+
              " parameters; expected 0 or 1"] FAILURE
      end
  end.

(** [cmd_emit_demo] *)
Definition cmd_emit_demo (w : World) (path : option string) : res Trap Ended :=
  match path with
  | None => report w ["usage: thera-rt emit-demo <file.thera-bc>"] 2
  | Some path =>
      match demo_module with
      | Ok module =>
          let (w, written) := in_world (on_os (write_module_to_file path module)) w in
          written ← written;
          match written with
          | inl e => report w ["thera: cannot write " +:+ path +:+ ": " +:+ err_text e] FAILURE
          | inr _ => Ok (Exited w SUCCESS)
          end
      | Err e => match e with end
      | Panic => Panic
      | NoFuel => NoFuel
      end
  end.

(** ** The entry point *)

(** The directory of the executable itself, not of a link to it. *)
Definition exe_dir : Syscall Os (option PathBuf) :=
  exe ← env_current_exe;
  match exe with
  | inl _ => mret None
  | inr exe =>
      real ← canonicalize exe;
      mret (path_parent match real with inr p => p | inl _ => exe end)
  end.

Definition load_frontend : Syscall Os (option (list u8)) :=
  match FRONTEND_BC with
  | _ :: _ => mret (Some FRONTEND_BC)
  | [] =>
      dir ← exe_dir;
      match dir with
      | None => mret None
      | Some dir =>
          r ← path_read (path_join (path_join dir "inc") "frontend.thera-bc");
          mret match r with inr bytes => Some bytes | inl _ => None end
      end
  end.

Definition version_string : Syscall Os string :=
  dir ← exe_dir;
  match dir with
  | None => mret CARGO_PKG_VERSION
  | Some dir =>
      r ← path_read_to_string (path_join (path_join dir "..") "version");
      mret match r with
      | inr text =>
          let v := of_chars (trim (chars text)) in
          if decide (v = "") then CARGO_PKG_VERSION else v
      | inl _ => CARGO_PKG_VERSION
      end
  end.

Definition is_bytecode_path (arg : string) : bool := ends_with (as_bytes arg) (as_bytes ".thera-bc").

(** [println!] *)
Definition println (w : World) (line : string) : res Trap World :=
  let bytes := as_bytes line ++ [newline] in
  match out_error (w_ext w) bytes with
  | Some _ => Panic
  | None => Ok (set_w_out w (w_out w ++ bytes))
  end.

(** [&args[1..]] *)
Definition args_from_1 (args : list string) : res Trap (list string) :=
  match args with [] => Panic | _ :: rest => Ok rest end.

(** Boot the front-end, or say how the bare runtime is used. *)
Definition boot (fuel : nat) (w : World) (args : list string) : res Trap Ended :=
  let (w, frontend) := in_world (on_os load_frontend) w in
  match frontend with
  | Some bytes => rest ← args_from_1 args; cmd_frontend fuel w bytes rest
  | None =>
      match args !! 1%nat with
      | None => report w (usage ++ ["       thera-rt emit-demo <file.thera-bc>"]) 2
      | Some other =>
          report w (["thera-rt: '" +:+ other +:+ "' is not a bytecode file (.thera-bc)";
            "this is the bare runtime; build the SDK for the `thera` front-end"] ++ usage) 2
      end
  end.

(** [std::env::args().collect()]: an argument that is not Unicode, [None] here, panics. *)
Definition env_args (os_args : list (option string)) : res Trap (list string) := or_panic (mapM id os_args).

Definition main (fuel : nat) (w : World) (os_args : list (option string)) : res Trap Ended :=
  args ← env_args os_args;
  match args !! 1%nat with
  | None => boot fuel w args
  | Some arg =>
      if decide (arg = "--version" ∨ arg = "-V") then
        let (w, v) := in_world (on_os version_string) w in
        w ← println w ("thera " +:+ v);
        Ok (Exited w SUCCESS)
      else if decide (arg = "emit-demo") then cmd_emit_demo w (args !! 2%nat)
      else if decide (arg = "--entry") then rest ← args_from_1 args; cmd_run fuel w rest
      else if is_bytecode_path arg then rest ← args_from_1 args; cmd_run fuel w rest
      else boot fuel w args
  end.
End main.
