(* ===== verification/Pool.v ===== *)
(** * The worker pool and the readiness poller (src/runtime/src/interp/mod.rs)

    [Runtime] is the machine below the driver: the process's statics, the Thera
    thread's locals, and the worker threads with their two queues.  Workers take jobs
    and finish them in an order nobody chooses: a schedule lists the worker steps
    between two calls of the Thera thread, and everything here is a function of it.
    [runtime] is the driver's [Machine].  A job's own effects happen in one step; the
    operating system's part of waiting is the parameter [Host]. *)

From Stdlib Require Import ZArith Lia.
From stdpp Require Import base numbers list strings gmap pretty.
From S2P Require Import Prelude Bytes Float64 Value Trap Scheduler Interp Driver NativesBase NativesFiber.
From S2P Require Import System NativesFs NativesEnv Tls NativesSocket.

Open Scope Z_scope.

Definition WORKER_COUNT : nat := 4.

(** The clocks, the program's streams, and the poller's own calls.  A poll returns the
    tokens of its events. *)
Class Host `{SystemTypes} `{NetTypes} := {
  host_instant : Syscall Os Instant;
  host_millis : Syscall Os i64;
  host_nanos : Syscall Os u64;
  host_sleep : Z → Syscall Os unit;
  host_out_error : Os → list u8 → option string;
  host_flush : Syscall Os (option string);
  host_stderr : list u8 → Syscall Os (option string);
  poll_events : Poll → option Z → Syscall Os (Poll * io (list u64));
  waker_wake : Waker → Syscall Os (io unit);
}.

Section pool.
Context `{SystemTypes} `{NetTypes} `{!FileSystem} `{!Network} `{!Rustls} `{!Host}.

(** ** Workers *)

(** [WorkerPool]: the jobs sent and not yet taken, those that workers run, the
    completions sent and not yet received, and how many worker threads live. *)
Record Pool := mkPool {
  job_queue : list (nat * Job);
  busy : list (nat * Job);
  done_queue : list (nat * Payload);
  alive : nat;
}.

(** [WorkerPool::new] *)
Definition new_pool : Pool := mkPool [] [] [] WORKER_COUNT.

(** What a worker thread may do next: receive a job, or finish the one it runs. *)
Inductive WorkerStep := Take | Finish (i : nat).

(** [wake_poller] *)
Definition wake_poller (slot : option Poller) : Syscall Statics unit :=
  match slot with
  | Some p => _ ← on_os (waker_wake (waker p)); mret tt
  | None => mret tt
  end.

(** One turn of a worker's loop.  A completion the driver no longer receives ends the
    worker ([connected] is false). *)
Definition worker_step (connected : bool) (slot : option Poller) (a : WorkerStep) (p : Pool) :
    Syscall Statics Pool :=
  match a with
  | Take =>
      match job_queue p with
      | next :: rest =>
          if Nat.ltb (length (busy p)) (alive p)
          then mret (mkPool rest (push (busy p) next) (done_queue p) (alive p))
          else mret p
      | [] => mret p
      end
  | Finish i =>
      match busy p !! i with
      | Some (id, job) =>
          payload ← job;
          if connected then
            _ ← wake_poller slot;
            mret (mkPool (job_queue p) (delete i (busy p)) (push (done_queue p) (id, payload)) (alive p))
          else mret (mkPool (job_queue p) (delete i (busy p)) (done_queue p) (pred (alive p)))
      | None => mret p
      end
  end.

(** ** The machine *)

(** A step of the present pool, or of one a run left behind. *)
Inductive Act := Current (a : WorkerStep) | Old (k : nat) (a : WorkerStep).

Record Runtime := mkRuntime {
  r_statics : Statics;
  r_locals : Locals;
  r_capture : list (list u8);
  r_counter : u64;
  WORKER_POOL : option Pool;
  torn_down : list Pool;
  r_turn : nat;
}.

Definition set_r_statics (e : Runtime) (g : Statics) : Runtime :=
  mkRuntime g (r_locals e) (r_capture e) (r_counter e) (WORKER_POOL e) (torn_down e) (r_turn e).
Definition set_r_locals (e : Runtime) (l : Locals) : Runtime :=
  mkRuntime (r_statics e) l (r_capture e) (r_counter e) (WORKER_POOL e) (torn_down e) (r_turn e).
Definition set_r_capture (e : Runtime) (c : list (list u8)) : Runtime :=
  mkRuntime (r_statics e) (r_locals e) c (r_counter e) (WORKER_POOL e) (torn_down e) (r_turn e).
Definition set_r_counter (e : Runtime) (n : u64) : Runtime :=
  mkRuntime (r_statics e) (r_locals e) (r_capture e) n (WORKER_POOL e) (torn_down e) (r_turn e).
Definition set_pools (e : Runtime) (p : option Pool) (old : list Pool) : Runtime :=
  mkRuntime (r_statics e) (r_locals e) (r_capture e) (r_counter e) p old (r_turn e).
Definition next_turn (e : Runtime) : Runtime :=
  mkRuntime (r_statics e) (r_locals e) (r_capture e) (r_counter e) (WORKER_POOL e) (torn_down e) (S (r_turn e)).

#[export] Instance runtime_process : Process Runtime :=
  {| statics := r_statics; set_statics := set_r_statics; statics_set e g := eq_refl |}.

#[export] Instance runtime_local : Local Runtime :=
  {| locals := r_locals; set_locals := set_r_locals; locals_set e l := eq_refl;
     locals_statics e g := eq_refl; statics_locals e l := eq_refl |}.

Definition host_call {A} (c : Syscall Os A) (e : Runtime) : Runtime * A := in_ext (on_os c) e.

#[export] Instance runtime_console : Console Runtime :=
  {| CAPTURE := r_capture;
     set_capture := set_r_capture;
     out_error e b := host_out_error (os (r_statics e)) b;
     flush_out e := host_call host_flush e;
     stderr_write e b := host_call (host_stderr b) e;
     instant_now e := host_call host_instant e;
     unix_millis e := host_call host_millis e;
     unix_nanos e := host_call host_nanos e;
     count_entropy e := (set_r_counter e (as_u64 (r_counter e + 1)), r_counter e);
     capture_set e c := eq_refl |}.

Definition run_act (e : Runtime) (a : Act) : Runtime :=
  match a with
  | Current a =>
      match WORKER_POOL e with
      | Some p =>
          let (g, p) := worker_step true (POLLER (r_locals e)) a p (r_statics e) in
          set_pools (set_r_statics e g) (Some p) (torn_down e)
      | None => e
      end
  | Old k a =>
      match torn_down e !! k with
      | Some p =>
          let (g, p) := worker_step false (POLLER (r_locals e)) a p (r_statics e) in
          set_pools (set_r_statics e g) (WORKER_POOL e) (<[k := p]> (torn_down e))
      | None => e
      end
  end.

Definition run_acts (e : Runtime) (acts : list Act) : Runtime := fold_left run_act acts e.

(** The worker steps of each turn. *)
Variable schedule : nat → list Act.

Definition interleave (e : Runtime) : Runtime := run_acts (next_turn e) (schedule (r_turn e)).

(** [submit_io_job] *)
Definition submit_io_job (e : Runtime) (id : nat) (job : Job) : Runtime :=
  let p := default new_pool (WORKER_POOL e) in
  set_pools e (Some (mkPool (push (job_queue p) (id, job)) (busy p) (done_queue p) (alive p))) (torn_down e).

(** Every completion there is. *)
Definition receive_all (e : Runtime) (p : Pool) : Runtime * list (nat * Payload) :=
  (set_pools e (Some (mkPool (job_queue p) (busy p) [] (alive p))) (torn_down e), done_queue p).

(** A turn of the schedule is all the workers do while the thread waits.  [recv] returns
    when there is a completion, and [try_recv] takes the others; a [recv_timeout] may end
    with none.  If nothing is completed by the end of the turn, a [recv] without a
    timeout waits on: the run goes no further. *)
Definition await_completions (e : Runtime) (timeout : option Z) : Runtime * res Trap (list (nat * Payload)) :=
  match WORKER_POOL e with
  | None => (e, Panic)
  | Some _ =>
      let e := interleave e in
      match WORKER_POOL e with
      | None => (e, Panic)
      | Some p =>
          match timeout, done_queue p with
          | None, [] => (e, NoFuel)
          | _, _ => let (e, cs) := receive_all e p in (e, Ok cs)
          end
      end
  end.

Definition drain_completions (e : Runtime) : Runtime * list (nat * Payload) :=
  let e := interleave e in
  match WORKER_POOL e with
  | None => (e, [])
  | Some p => receive_all e p
  end.

Definition poll_wait (e : Runtime) (timeout : option Z) : Runtime * res Trap (list i64) :=
  match POLLER (r_locals e) with
  | None => (e, Panic)
  | Some p =>
      let e := interleave e in
      let '(e, (pl, r)) := host_call (poll_events (poll p) timeout) e in
      let l := r_locals e in
      let e := set_r_locals e (mkLocals (SOCKETS l) (NEXT_SOCKET_ID l) (Some (mkPoller pl (registry p) (waker p)))) in
      match r with
      | inr tokens => (e, Ok (as_i64 <$> filter (λ t, t ≠ WAKE_TOKEN) tokens))
      | inl er =>
          if decide (err_kind er = Interrupted) then (e, Ok [])
          else (e, Err (bug ("readiness poller failed: " +:+ err_text er)))
      end
  end.

(** [reset_worker_pool]: the threads go on without their driver. *)
Definition reset_worker_pool (e : Runtime) : Runtime :=
  match WORKER_POOL e with
  | Some p => set_pools e None (push (torn_down e) p)
  | None => e
  end.

(** Clearing the registry drops its sockets, in no particular order. *)
Definition drop_sockets (e : Runtime) : Runtime :=
  foldr (λ s e, (host_call (drop_source (source_of s)) e).1) e (map_to_list (SOCKETS (r_locals e))).*2.

(** The end of [Vm::run]. *)
Definition reset_run (e : Runtime) : Runtime :=
  let e := reset_worker_pool e in
  let e := set_r_locals e (reset_poller (r_locals e)) in
  let e := drop_sockets e in
  set_r_locals e (reset_sockets (r_locals e)).

Definition runtime : Machine Job Payload Runtime := {|
  now e := host_call host_instant (interleave e);
  sleep e t := interleave (host_call (host_sleep t) e).1;
  submit := submit_io_job;
  Driver.poll_wait := poll_wait;
  Driver.await_completions := await_completions;
  Driver.drain_completions := drain_completions;
  reset := reset_run;
|}.
End pool.
