(* ===== verification/Demo.v ===== *)
(** * A small system for the witnesses

    Instances of the outside's interfaces: files in a finite map, a clock that ticks, a
    network whose sockets block while [sim_blocks] is positive, children whose pipes
    hold bytes, and a toy TLS connection that queues its plaintext.  They show that the
    hypotheses of the theorems can hold; nothing else uses them. *)

From Stdlib Require Import ZArith Lia.
From stdpp Require Import base numbers list strings gmap pretty.
From S2P Require Import Prelude Bytes Float64 Value Interp NativesFiber System NativesFs NativesEnv NativesLib NativesProcess.
From S2P Require Import Tls NativesSocket Main Pool.

Open Scope Z_scope.

Record Sim := mkSim { sim_files : gmap string string; sim_clock : Z; sim_blocks : nat; sim_dropped : nat }.

Definition tick (o : Sim) : Sim := mkSim (sim_files o) (sim_clock o + 1) (sim_blocks o) (sim_dropped o).
Definition put_files (o : Sim) (fs : gmap string string) : Sim :=
  mkSim fs (sim_clock o) (sim_blocks o) (sim_dropped o).

(** The toy connection: what is still to be sent, the plaintext it took, how many
    messages the handshake still needs, and whether the peer is notified of a close. *)
Record Toy := mkToy { toy_out : list u8; toy_fed : list u8; toy_shakes : nat; toy_notified : bool }.

#[export] Instance demo_types : SystemTypes := {|
  Os := Sim; PathBuf := string; DirEntry := string; File := string; Child := nat;
  ChildStdin := list u8; ChildStdout := list u8; ChildStderr := list u8; Regex := string |}.

#[export] Instance demo_net : NetTypes := {|
  SocketAddr := string; TcpListener := string; TcpStream := string; Poll := unit; Registry := unit;
  Waker := unit; Connection := Toy; ClientConfig := unit; ServerConfig := unit;
  Certificate := string; PrivateKey := string |}.

Definition says {A} (a : A) : Syscall Sim A := λ o, (o, a).
Definition unsupported {A} : Syscall Sim (io A) := says (inl (mkIoError Other "unsupported")).
Definition clock : Syscall Sim Z := λ o, (tick o, sim_clock o).
Definition dropping {A} (_ : A) : Syscall Sim unit := λ o,
  (mkSim (sim_files o) (sim_clock o) (sim_blocks o) (S (sim_dropped o)), tt).

Definition lookup_file (p : string) : Syscall Sim (io string) := λ o,
  (o, match sim_files o !! p with Some s => inr s | None => inl (mkIoError NotFound "not found") end).
Definition store_file (p : string) (s : string) : Syscall Sim (io unit) := λ o,
  (put_files o (<[p := s]> (sim_files o)), inr tt).
Definition create_file (p : string) : Syscall Sim (io string) := λ o,
  match sim_files o !! p with
  | Some _ => (o, inl (mkIoError AlreadyExists "exists"))
  | None => (put_files o (<[p := ""%string]> (sim_files o)), inr p)
  end.

(** Fill the head of a buffer. *)
Definition fill_buffer (data buf : list u8) : list u8 * nat :=
  let n := Nat.min (length data) (length buf) in (take n data ++ drop n buf, n).

#[export] Instance demo_fs : FileSystem := {|
  read_to_string := lookup_file;
  fs_read p := r ← lookup_file p; mret (io_map as_bytes r);
  fs_write p b := store_file p (of_bytes b);
  path_exists p o := (o, bool_decide (is_Some (sim_files o !! p)));
  path_is_dir _ := says false;
  read_dir _ := says (inr [inr "a.txt"; inr "b.txt"]);
  file_name e := e;
  file_type _ := says (inr (mkFileType false false true));
  fs_metadata _ := unsupported;
  fs_symlink_metadata _ := unsupported;
  create_dir _ := unsupported; create_dir_all _ := unsupported;
  remove_dir _ := unsupported; remove_dir_all _ := unsupported; remove_file _ := unsupported;
  fs_rename _ _ := unsupported; fs_copy _ _ := unsupported;
  temp_dir := says "/tmp"%string;
  path_join d n := (d +:+ "/" +:+ n)%string;
  to_string_lossy p := p;
  system_nanos := clock;
  file_open p := r ← lookup_file p; mret (io_map (λ _, p) r);
  file_create p := r ← store_file p ""; mret (io_map (λ _, p) r);
  file_create_new := create_file;
  file_read_into f buf := r ← lookup_file f;
    mret match r with
      | inr s => let (b, n) := fill_buffer (as_bytes s) buf in (f, b, inr n)
      | inl e => (f, buf, inl e)
      end;
  file_write_all f b := _ ← store_file f (of_bytes b); mret (f, inr tt);
  file_flush f := says (f, inr tt);
  file_seek f _ := says (f, inr 0);
  file_drop := dropping;
  stdin_read_into buf := says (buf, inr 0%nat) |}.

#[export] Instance demo_env : Environment := {|
  env_var _ := says None; env_set_var _ _ := says tt; env_vars := says [];
  env_current_dir := says (inr "/"%string); env_current_exe := unsupported;
  env_set_current_dir _ := unsupported; OS := "linux"; is_terminal := says false; terminal_size := says None |}.

#[export] Instance demo_math : MathLib := {|
  f64_sqrt x := x; f64_floor x := x; f64_ceil x := x; f64_round x := x; f64_trunc x := x; f64_exp x := x;
  f64_ln x := x; f64_log10 x := x; f64_sin x := x; f64_cos x := x; f64_tan x := x; f64_asin x := x;
  f64_acos x := x; f64_atan x := x; f64_powf x _ := x; f64_atan2 x _ := x; f64_hypot x _ := x;
  parse_f64 _ := None; to_uppercase s := s; to_lowercase s := s |}.

#[export] Instance demo_digests : Digests := {|
  sha256 b := b; sha1 b := b; md5 b := b; crc32 _ := 0 |}.

#[export] Instance demo_regex : RegexLib := {|
  regex_new p := inr p; is_match _ _ := false; find _ _ := None; find_iter _ _ := [];
  captures _ _ := None; replace _ t _ := t; replace_all _ t _ := t |}.

#[export] Instance demo_processes : Processes := {|
  command_output _ := says (inr (mkOutput (Some 0) [] []));
  command_status _ := says (inr (Some 0));
  command_spawn _ := says (inr (0%nat, Some [], Some [104; 105], Some []));
  child_wait c := says (c, inr (Some 0));
  child_kill c := says (c, inr tt);
  stdin_write_all s b := says (s ++ b, inr tt);
  stdin_flush s := says (s, inr tt);
  stdout_read_into s buf := says (let (b, n) := fill_buffer s buf in (drop n s, b, inr n));
  stderr_read_into s buf := says (let (b, n) := fill_buffer s buf in (drop n s, b, inr n));
  drop_stdin := dropping; drop_stdout := dropping; drop_stderr := dropping |}.

(** A call on a socket: it blocks [sim_blocks] times. *)
Definition blocking {A} (a : A) : Syscall Sim (io A) := λ o,
  match sim_blocks o with
  | O => (o, inr a)
  | S n => (mkSim (sim_files o) (sim_clock o) n (sim_dropped o), inl (mkIoError WouldBlock "would block"))
  end.

#[export] Instance demo_network : Network := {|
  parse_addr a := Some a; addr_text a := a;
  listener_bind a := says (inr a); listener_accept l := blocking "peer"%string; listener_addr l := says (inr l);
  stream_connect a := says (inr a); stream_take_error _ := says (inr None);
  stream_peer_addr s := blocking s; stream_local_addr s := says (inr s);
  stream_read _ buf := r ← blocking 0%nat; mret (buf, r);
  stream_write _ b := blocking (length b);
  stream_peek _ := blocking 0%nat;
  drop_source := dropping;
  to_socket_addrs h _ := says (inr [h]);
  poll_new := says (inr tt); registry_clone _ := says (inr tt); waker_new _ _ := says (inr tt);
  register _ _ _ := says (inr tt); deregister _ _ := says (inr tt) |}.

(** One byte of ciphertext is sent per call. *)
#[export] Instance demo_rustls : Rustls := {|
  wants_write c := bool_decide (toy_out c ≠ []);
  is_handshaking c := bool_decide (toy_shakes c ≠ 0%nat);
  reader_read c buf := (c, buf, inr 0%nat);
  first_chunk _ := inr [];
  writer_write c d := (mkToy (toy_out c ++ d) (toy_fed c ++ d) (toy_shakes c) (toy_notified c), inr (length d));
  write_tls _ c := r ← blocking (Nat.min 1 (length (toy_out c)));
    mret match r with inr n => (mkToy (drop n (toy_out c)) (toy_fed c) (toy_shakes c) (toy_notified c), inr n) | inl e => (c, inl e) end;
  read_tls _ c := r ← blocking 1%nat; mret (mkToy (toy_out c) (toy_fed c) (pred (toy_shakes c)) (toy_notified c), r);
  process_new_packets c := (c, inr tt);
  send_close_notify c := mkToy (toy_out c ++ [0]) (toy_fed c) (toy_shakes c) true;
  server_name_ok name := negb (existsb (Z.eqb 32) (as_bytes name));
  client_connection _ _ := inr (mkToy [1; 2] [] 1 false);
  server_connection _ := inr (mkToy [1; 2] [] 1 false);
  bundled_roots := []; add_root rs c := inr (c :: rs); client_config_with _ := tt;
  pem_certificates _ := []; pem_private_key k := inr k; server_config_with _ _ := inr tt |}.

#[export] Instance demo_host : Host := {|
  host_instant := clock; host_millis := clock; host_nanos := clock;
  host_sleep t := λ o, (mkSim (sim_files o) (sim_clock o + t) (sim_blocks o) (sim_dropped o), tt);
  host_out_error _ _ := None; host_flush := says None; host_stderr _ := says None;
  poll_events _ _ := says (tt, inr [0; 1]); waker_wake _ := says (inr tt) |}.

(** A bare runtime that does not know where it is. *)
#[export] Instance demo_launch : Launch := {|
  canonicalize p := says (inr p); path_parent _ := None; path_read := fs_read; path_read_to_string := read_to_string;
  FRONTEND_BC := []; CARGO_PKG_VERSION := "0.1.0" |}.

(** Two files, and nothing running. *)
Definition demo_sim : Sim := mkSim (<["a.txt" := "hello"]> (<["b.txt" := "bye"]> ∅)) 0 0 0.

Definition demo_statics : Statics := mkStatics demo_sim 1 ∅ 0 1 ∅ 1 ∅ None None.

Definition demo_runtime : Runtime :=
  mkRuntime demo_statics (mkLocals ∅ 1 None) [] 0 None [] 0.

(** The workers take and finish one job at every turn. *)
Definition eager (_ : nat) : list Act := [Current Take; Current (Finish 0)].
(** The workers do nothing until somebody sleeps on them. *)
Definition lazy_workers (_ : nat) : list Act := [].
