(* ===== verification/NativesFacts.v ===== *)
(** * Lemmas the proofs about natives share

    Reading an object that is there, and a run of allocations on a heap with room
    for them. *)

From Stdlib Require Import ZArith Lia.
From stdpp Require Import base numbers list strings gmap.
From S2P Require Import Prelude Bytes Float64 Instr ModuleTable Value Utf8 Heap MapObj Trap Scheduler.
From S2P Require Import Render Interp NativesBase HeapProofs.

Open Scope Z_scope.

(** ** One object *)

(** The object at a handle. *)
Abbreviation holds m h o := (mem_slots m !! h = Some (Some o)).

Lemma lookup_holds {E} m h o : holds m h o → lookup_obj (E:=E) (mem_slots m) h = Ok o.
Proof. intros Hh. unfold lookup_obj. by rewrite Hh. Qed.

Lemma with_obj_holds {E R} m h o (f : Obj → R) : holds m h o → with_obj (E:=E) m h f = Ok (f o).
Proof. intros Hh. unfold with_obj. by rewrite (lookup_holds m h o Hh). Qed.

Lemma str_contents_holds vd m h s : holds m h (Str s) → str_contents vd m (Ref h) = Ok s.
Proof. intros Hh. cbn. by rewrite (with_obj_holds m h _ _ Hh). Qed.

Lemma with_list_holds {R} m h items who (f : list Value → res Trap R) :
  holds m h (List items) → with_list m (Ref h) who f = f items.
Proof. intros Hh. cbn. unfold clone_obj. by rewrite (lookup_holds m h _ Hh). Qed.

Lemma with_list_ref_holds {R} m h items who (f : list Value → res Trap R) :
  holds m h (List items) → with_list_ref m (Ref h) who f = f items.
Proof. intros Hh. cbn. rewrite (with_obj_holds m h _ _ Hh). done. Qed.

(** ** Several allocations *)

Section room.
Context `{Sizes} {E : Type}.

(** The heap has room for [n] more objects. *)
Definition rooms (n : nat) (h : Heap) : Prop :=
  (n ≤ length (free h) + (max_slots - length (slots h)))%nat.

Lemma rooms_has_room n h : rooms (S n) h → has_room h.
Proof. unfold rooms, has_room. destruct (free h); cbn; [right; lia|by left]. Qed.

Lemma alloc_rooms n m o :
  heap_wf (HEAP m) → rooms (S n) (HEAP m) →
  ∃ m' h, alloc (E:=E) m o = Ok (m', Ref h) ∧ allocated m o m' h ∧ rooms n (HEAP m').
Proof.
  intros Hwf Hn. destruct (alloc_ok (E:=E) m o Hwf (rooms_has_room n _ Hn)) as (m' & h & Ha & Hal).
  exists m', h. split_and!; [done|done|]. unfold alloc in Ha. unfold rooms in *.
  destruct (vec_pop (free (HEAP m))) as [[fr i]|] eqn:Hp; case_decide; try done; injection Ha as <- _; cbn.
  - apply vec_pop_Some in Hp. rewrite Hp, length_app in Hn. rewrite length_insert. cbn in Hn. lia.
  - apply vec_pop_None in Hp. rewrite Hp in *. unfold push. rewrite length_app. cbn in *. lia.
Qed.

(** An allocation leaves what was there. *)
Lemma allocated_holds m o m' h k o' : allocated m o m' h → holds m k o' → holds m' k o'.
Proof.
  intros Ha Hk. rewrite (al_frame _ _ _ _ Ha); [done|]. intros ->. apply (al_fresh _ _ _ _ Ha). by exists o'.
Qed.

(** Everything that was on the heap still is, unchanged. *)
Definition extends (m m' : Mem) : Prop := ∀ k o, holds m k o → holds m' k o.

Lemma extends_refl m : extends m m.
Proof. by intros k o. Qed.

Lemma extends_trans m1 m2 m3 : extends m1 m2 → extends m2 m3 → extends m1 m3.
Proof. intros H1 H2 k o ?. auto. Qed.
End room.

#[export] Hint Resolve extends_refl : thera.

(** [v] is the string [s] on the heap. *)
Definition str_at (m : Mem) (v : Value) (s : string) : Prop := ∃ h, v = Ref h ∧ holds m h (Str s).

Lemma extends_str_at m m' vs ps : extends m m' → Forall2 (str_at m) vs ps → Forall2 (str_at m') vs ps.
Proof.
  intros He Hf. eapply Forall2_impl; [exact Hf|]. intros v s (h & -> & Hh). exists h. split; [done|]. by apply He.
Qed.

Section strs.
Context `{Sizes}.

Lemma new_strs_ok ps : ∀ n m,
  heap_wf (HEAP m) → rooms (length ps + n) (HEAP m) →
  ∃ m' vs, new_strs m ps = Ok (m', vs) ∧ heap_wf (HEAP m') ∧ rooms n (HEAP m') ∧ extends m m' ∧
    Forall2 (str_at m') vs ps.
Proof.
  induction ps as [|s ps IH]; intros n m Hwf Hn; cbn [new_strs length] in *.
  { exists m, []. split_and!; auto with thera. }
  destruct (alloc_rooms (E:=Trap) (length ps + n) m (Str s) Hwf Hn) as (m1 & h & Ha & Hal & Hn1).
  unfold new_str. rewrite Ha. cbn [mbind res_bind].
  destruct (IH n m1 (al_wf _ _ _ _ Hal) Hn1) as (m' & vs & Hs & Hwf' & Hn' & He & Hf). rewrite Hs.
  exists m', (Ref h :: vs). split_and!; try done.
  - eapply extends_trans; [|exact He]. intros k o. by apply (allocated_holds _ _ _ _ _ _ Hal).
  - constructor; [|done]. exists h. split; [done|]. apply He, (al_obj _ _ _ _ Hal).
Qed.

Lemma string_list_ok ps n m :
  heap_wf (HEAP m) → rooms (length ps + S n) (HEAP m) →
  ∃ m' l vs, string_list m ps = Ok (m', Ref l) ∧ heap_wf (HEAP m') ∧ rooms n (HEAP m') ∧ extends m m' ∧
    holds m' l (List vs) ∧ Forall2 (str_at m') vs ps.
Proof.
  intros Hwf Hn. destruct (new_strs_ok ps (S n) m Hwf Hn) as (m1 & vs & Hs & Hwf1 & Hn1 & He & Hf).
  destruct (alloc_rooms (E:=Trap) n m1 (List vs) Hwf1 Hn1) as (m' & l & Ha & Hal & Hn').
  exists m', l, vs. unfold string_list, new_list. rewrite Hs. cbn [mbind res_bind]. rewrite Ha.
  assert (extends m1 m') as He'. { intros k o. by apply (allocated_holds _ _ _ _ _ _ Hal). }
  split_and!; [done|apply (al_wf _ _ _ _ Hal)|done|by eapply extends_trans|apply (al_obj _ _ _ _ Hal)|].
  by eapply extends_str_at.
Qed.
End strs.
