(* ===== verification/NativesTextProofs.v ===== *)
(** * What the string natives compute

    Slicing by code points, the round trips of a string through its code points and
    of an integer through its decimal text, and splitting against joining. *)

From Stdlib Require Import ZArith Lia Ascii.
From stdpp Require Import base numbers list strings gmap pretty.
From S2P Require Import Prelude Bytes Float64 Instr ModuleTable Value Utf8 Heap MapObj Trap Scheduler.
From S2P Require Import Render Interp NativesBase NativesText NativesColl HeapProofs NativesFacts.

Open Scope Z_scope.

(** ** Slices by code points *)

(** The byte offset of code point [n]. *)
Definition offset (cps : list Z) (n : nat) : nat := length (encode_chars (take n cps)).

Lemma offset_S c cps n : offset (c :: cps) (S n) = (length (encode_char c) + offset cps n)%nat.
Proof. unfold offset. cbn [take]. by rewrite encode_chars_cons, length_app. Qed.

Lemma slice_scan_from a b cps : (a < b)%nat → ∀ k i bs be,
  slice_scan (Z.of_nat a) (Z.of_nat b) (Z.of_nat k) (char_indices_from i cps) bs be =
  (if decide (k ≤ a < k + length cps)%nat then i + offset cps (a - k) else bs,
   if decide (k ≤ b < k + length cps)%nat then i + offset cps (b - k) else be)%nat.
Proof.
  intros Hab. induction cps as [|c cps IH]; intros k i bs be; cbn [char_indices_from slice_scan length].
  { by rewrite !decide_False by lia. }
  destruct (Z.eqb_spec (Z.of_nat k) (Z.of_nat b)) as [Hb|Hb].
  { assert (k = b) as -> by lia. destruct (Z.eqb_spec (Z.of_nat b) (Z.of_nat a)); [lia|].
    rewrite decide_False, decide_True, Nat.sub_diag by lia. cbn. f_equal. lia. }
  replace (Z.of_nat k + 1) with (Z.of_nat (S k)) by lia. rewrite IH.
  assert (∀ n, (k < n)%nat → offset (c :: cps) (n - k) = length (encode_char c) + offset cps (n - S k))%nat as Hoff.
  { intros n Hn. replace (n - k)%nat with (S (n - S k)) by lia. apply offset_S. }
  f_equal.
  - destruct (Z.eqb_spec (Z.of_nat k) (Z.of_nat a)).
    + assert (k = a) as -> by lia. rewrite decide_False, decide_True, Nat.sub_diag by lia. cbn. lia.
    + destruct (decide (k ≤ a < k + S (length cps))%nat).
      * rewrite decide_True, Hoff by lia. lia.
      * by rewrite decide_False by lia.
  - destruct (decide (k ≤ b < k + S (length cps))%nat).
    + rewrite decide_True, Hoff by lia. lia.
    + by rewrite decide_False by lia.
Qed.

Lemma offset_ge cps n : (length cps ≤ n)%nat → offset cps n = length (encode_chars cps).
Proof. intros. unfold offset. by rewrite take_ge. Qed.

Lemma slice_scan_ok a b cps : (a < b)%nat →
  let len := length (encode_chars cps) in
  slice_scan (Z.of_nat a) (Z.of_nat b) 0 (char_indices_from 0 cps) len len = (offset cps a, offset cps b).
Proof.
  intros Hab len. subst len. change 0 with (Z.of_nat 0). rewrite slice_scan_from by done.
  rewrite !Nat.sub_0_r. f_equal; case_decide; try done; rewrite offset_ge by lia; done.
Qed.

Lemma offset_boundary cps n : scalars cps → is_char_boundary (encode_chars cps) (offset cps n) = true.
Proof.
  intros Hcps. unfold is_char_boundary, offset.
  assert (encode_chars cps = encode_chars (take n cps) ++ encode_chars (drop n cps)) as ->.
  { by rewrite <-encode_chars_app, take_drop. }
  rewrite lookup_app_r, Nat.sub_diag by lia.
  assert (scalars (drop n cps)) as Hd by by apply Forall_drop.
  destruct (drop n cps) as [|c d]; [cbn; rewrite app_nil_r; apply Nat.eqb_refl|].
  inversion Hd as [|?? Hc _]; subst. rewrite encode_chars_cons.
  destruct (char_bytes_cont c (encode_char c)) as (b & rest & -> & Hb & _); [by apply encode_char_bytes|].
  cbn. by rewrite Hb.
Qed.

Lemma offset_mono cps a b : (a ≤ b)%nat → (offset cps a ≤ offset cps b)%nat.
Proof.
  intros Hab. unfold offset. replace (take a cps) with (take a (take b cps)) by (rewrite take_take; f_equal; lia).
  rewrite <-(take_drop a (take b cps)) at 2. rewrite encode_chars_app, length_app. lia.
Qed.

Lemma str_get_chars s a b : is_utf8 s → (a ≤ b)%nat →
  str_get s (offset (chars s) a) (offset (chars s) b) = Some (of_chars (take (b - a) (drop a (chars s)))).
Proof.
  intros Hs Hab. pose proof (utf8_chars s Hs) as [Hsc _]. unfold str_get.
  rewrite (utf8_bytes_chars s Hs). set (cps := chars s) in *.
  rewrite !offset_boundary by done. pose proof (offset_mono cps a b Hab).
  pose proof (offset_mono cps b (length cps `max` b) ltac:(lia)) as Hlen.
  rewrite (offset_ge cps (length cps `max` b)) in Hlen by lia.
  rewrite !(proj2 (Nat.leb_le _ _)) by lia. cbn [andb]. f_equal. unfold of_chars. f_equal.
  set (mid := take (b - a) (drop a cps)).
  assert (take b cps = take a cps ++ mid) as Hb.
  { subst mid. rewrite <-(take_drop a (take b cps)), take_take, skipn_firstn_comm. do 2 f_equal. lia. }
  assert (encode_chars cps = encode_chars (take a cps) ++ encode_chars mid ++ encode_chars (drop b cps)) as Heq.
  { rewrite <-(take_drop b cps) at 1. rewrite Hb, !encode_chars_app. by rewrite (assoc_L app). }
  rewrite Heq, drop_app_length' by done. apply take_app_length'.
  unfold offset. rewrite Hb, encode_chars_app, length_app. lia.
Qed.

(** ** Code points of a list *)

Lemma push_chars_ok vd who cps : ∀ acc,
  push_chars vd who acc (Int <$> cps) = Ok (acc ++ ((λ c, default REPLACEMENT (char_from c)) <$> cps)).
Proof.
  induction cps as [|c cps IH]; intros acc; cbn; [by rewrite app_nil_r|].
  rewrite IH. unfold push. by rewrite <-(assoc_L app).
Qed.

Lemma try_push_chars_ok vd who cps : ∀ acc,
  try_push_chars vd who acc (Int <$> cps) =
  Ok (if bool_decide (scalars cps) then Some (acc ++ cps) else None).
Proof.
  induction cps as [|c cps IH]; intros acc; cbn [fmap list_fmap try_push_chars as_int mbind res_bind].
  { rewrite bool_decide_true by constructor. by rewrite app_nil_r. }
  unfold char_from. destruct (is_scalar c) eqn:Hc.
  - rewrite IH. unfold push. rewrite <-(assoc_L app).
    rewrite (bool_decide_ext (scalars (c :: cps)) (scalars cps)); [done|].
    rewrite Forall_cons. naive_solver.
  - rewrite bool_decide_false; [done|]. rewrite Forall_cons, Hc. naive_solver.
Qed.

Lemma scalars_replace cps : scalars cps → ((λ c, if is_scalar c then c else REPLACEMENT) <$> cps) = cps.
Proof.
  induction 1 as [|c cps Hc _ IH]; [done|]. cbn. by rewrite Hc, IH.
Qed.

(** ** Decimal text *)

Definition digit (b : u8) : Prop := 48 ≤ b ≤ 57.
Definition digits_value (acc : Z) (ds : list u8) : Z := foldl (λ a b, a * 10 + (b - 48)) acc ds.

#[local] Instance digit_dec b : Decision (digit b).
Proof. unfold digit. apply _. Defined.

Lemma parse_digits_exact ds : ∀ acc,
  parse_digits acc ds = if bool_decide (Forall digit ds) then Some (digits_value acc ds) else None.
Proof.
  induction ds as [|b ds IH]; intros acc; cbn [parse_digits].
  { by rewrite bool_decide_true by constructor. }
  unfold between. destruct ((48 <=? b) && (b <=? 57)) eqn:Hb.
  - rewrite IH. rewrite (bool_decide_ext (Forall digit (b :: ds)) (Forall digit ds)); [done|].
    rewrite Forall_cons. unfold digit at 1. split; [naive_solver|]. split; [lia|done].
  - rewrite bool_decide_false; [done|]. rewrite Forall_cons. unfold digit at 1. lia.
Qed.

Lemma digit_char n : (n < 10)%N → byte_of_ascii (pretty_N_char n) = 48 + Z.of_N n.
Proof.
  intros Hn. assert (n = 0 ∨ n = 1 ∨ n = 2 ∨ n = 3 ∨ n = 4 ∨ n = 5 ∨ n = 6 ∨ n = 7 ∨ n = 8 ∨ n = 9)%N
    as Hcase by lia. by repeat destruct Hcase as [->|Hcase]; [..|subst].
Qed.

(** Printing [x] in front of [s]: digits, and reading them gives [x]. *)
Lemma pretty_digits x : ∀ s, ∃ ds, as_bytes (pretty_N_go x s) = ds ++ as_bytes s ∧ Forall digit ds ∧
  digits_value 0 ds = Z.of_N x ∧ ((0 < x)%N → ds ≠ []).
Proof.
  induction (N.lt_wf_0 x) as [x _ IH]. intros s. assert (x = 0 ∨ 0 < x)%N as [->|Hx] by lia.
  { exists []. by split_and!. }
  rewrite pretty_N_go_step by done.
  destruct (IH (x `div` 10)%N) with (s := String (pretty_N_char (x `mod` 10)) s) as (ds & He & Hd & Hv & _).
  { by apply N.div_lt. }
  assert (x `mod` 10 < 10)%N as Hm by by apply N.mod_lt.
  exists (ds ++ [48 + Z.of_N (x `mod` 10)%N]). split_and!.
  - rewrite He, <-(assoc_L app). cbn [as_bytes app]. by rewrite digit_char.
  - apply Forall_app. split; [done|]. constructor; [clear -Hm; unfold digit; revert Hm; generalize (x `mod` 10)%N; lia|constructor].
  - unfold digits_value in *. rewrite foldl_app, Hv. cbn [foldl]. pose proof (N.div_mod x 10 ltac:(done)). lia.
  - by destruct ds.
Qed.

Lemma pretty_N_digits x : ∃ ds, as_bytes (pretty x) = ds ∧ Forall digit ds ∧
  digits_value 0 ds = Z.of_N x ∧ ds ≠ [].
Proof.
  unfold pretty, pretty_N. case_decide as Hx.
  { subst. exists [48]. split_and!; [done|repeat constructor; lia|done|done]. }
  destruct (pretty_digits x "") as (ds & He & ? & ? & ?). cbn in He. rewrite app_nil_r in He.
  exists ds. split_and!; try done. auto with lia.
Qed.

(** What [parse] makes of a sign and digits. *)
Definition sign (neg : bool) : list u8 := if neg then [45] else [].

Lemma parse_i64_digits s neg ds :
  as_bytes s = sign neg ++ ds → ds ≠ [] → Forall digit ds →
  parse_i64 s = let n := if neg then - digits_value 0 ds else digits_value 0 ds in
                if bool_decide (in_i64 n) then Some n else None.
Proof.
  intros Hs Hne Hds. unfold parse_i64. rewrite Hs. destruct ds as [|d ds]; [done|].
  assert (digit d) as Hd by by inversion Hds.
  destruct neg; cbn [sign app].
  - change (45 =? 45) with true. cbn iota. rewrite parse_digits_exact, bool_decide_true by done. done.
  - unfold digit in Hd. replace (d =? 45) with false by lia. replace (d =? 43) with false by lia.
    rewrite parse_digits_exact, bool_decide_true by done. done.
Qed.

Lemma parse_pretty n : in_i64 n → parse_i64 (pretty n) = Some n.
Proof.
  intros Hn. destruct n as [|p|p].
  - done.
  - destruct (pretty_N_digits (Npos p)) as (ds & He & Hd & Hv & Hne).
    rewrite (parse_i64_digits _ false ds); [|done..]. cbn zeta. rewrite Hv. cbn.
    by rewrite bool_decide_true.
  - destruct (pretty_N_digits (Npos p)) as (ds & He & Hd & Hv & Hne).
    rewrite (parse_i64_digits _ true ds); [|by cbn; rewrite <-He|done..]. cbn zeta. rewrite Hv. cbn.
    by rewrite bool_decide_true.
Qed.

(** ** Splitting and joining *)

(** [parts.join(sep)] on bytes. *)
Fixpoint join_bytes (sep : list u8) (parts : list (list u8)) : list u8 :=
  match parts with
  | [] => []
  | [p] => p
  | p :: ps => p ++ sep ++ join_bytes sep ps
  end.

Lemma as_bytes_concat sep ps : as_bytes (String.concat sep ps) = join_bytes (as_bytes sep) (as_bytes <$> ps).
Proof.
  induction ps as [|p ps IH]; [done|]. destruct ps as [|q ps]; [done|].
  change (as_bytes (p +:+ sep +:+ String.concat sep (q :: ps)) =
    as_bytes p ++ as_bytes sep ++ join_bytes (as_bytes sep) (as_bytes <$> q :: ps)).
  by rewrite !as_bytes_app, IH.
Qed.

Lemma split_skip sep s : ∀ k acc, split_bytes sep k acc s = split_bytes sep 0 acc (drop k s).
Proof.
  induction s as [|b s IH]; intros [|k] acc; try done. cbn [split_bytes drop]. apply IH.
Qed.

Section split.
Context (sep : list u8) (Hsep : sep ≠ []).

(** The two steps of the scan. *)
Lemma split_at acc rest : split_bytes sep 0 acc (sep ++ rest) = acc :: split_bytes sep 0 [] rest.
Proof.
  destruct sep as [|x sep'] eqn:Es; [done|]. cbn [app split_bytes]. unfold starts_with.
  rewrite bool_decide_true by by exists rest. rewrite split_skip. f_equal. f_equal.
  cbn [length]. rewrite Nat.sub_succ, Nat.sub_0_r. by rewrite drop_app_length.
Qed.

Lemma split_pass acc b s : ¬ sep `prefix_of` b :: s →
  split_bytes sep 0 acc (b :: s) = split_bytes sep 0 (acc ++ [b]) s.
Proof. intros Hp. cbn [split_bytes]. unfold starts_with. by rewrite bool_decide_false. Qed.

(** Induction along the scan: at the end, at a separator, past a byte. *)
Lemma split_ind (P : list u8 → list u8 → Prop) :
  (∀ acc, P acc []) →
  (∀ acc rest, P [] rest → P acc (sep ++ rest)) →
  (∀ acc b s, ¬ sep `prefix_of` b :: s → P (acc ++ [b]) s → P acc (b :: s)) →
  ∀ s acc, P acc s.
Proof.
  intros Hnil Hsplit Hpass s. remember (length s) as n eqn:Hn. revert s Hn.
  induction (Nat.lt_wf_0 n) as [n _ IH]. intros s -> acc. destruct s as [|b s]; [done|].
  destruct (decide (sep `prefix_of` b :: s)) as [[rest Hr]|Hp].
  - rewrite Hr. apply Hsplit. apply (IH (length rest)); [|done]. rewrite Hr, length_app.
    destruct sep; [done|cbn; lia].
  - apply Hpass; [done|]. apply (IH (length s)); [cbn; lia|done].
Qed.

Lemma split_nonempty s acc : split_bytes sep 0 acc s ≠ [].
Proof.
  revert s acc. apply (split_ind (λ acc s, split_bytes sep 0 acc s ≠ [])); [done| |].
  - intros acc rest _. by rewrite split_at.
  - intros acc b s Hp IH. by rewrite split_pass.
Qed.

Lemma join_split s acc : join_bytes sep (split_bytes sep 0 acc s) = acc ++ s.
Proof.
  revert s acc. apply (split_ind (λ acc s, join_bytes sep (split_bytes sep 0 acc s) = acc ++ s)).
  - intros acc. cbn. by rewrite app_nil_r.
  - intros acc rest IH. rewrite split_at. pose proof (split_nonempty rest []) as Hne.
    destruct (split_bytes sep 0 [] rest) as [|p ps] eqn:Es; [done|].
    change (acc ++ sep ++ join_bytes sep (p :: ps) = acc ++ sep ++ rest). by rewrite IH.
  - intros acc b s Hp IH. rewrite split_pass, IH by done. by rewrite <-(assoc_L app).
Qed.

Lemma split_Forall (Q : u8 → Prop) s acc :
  Forall Q acc → Forall Q s → Forall (Forall Q) (split_bytes sep 0 acc s).
Proof.
  revert s acc. apply (split_ind (λ acc s, Forall Q acc → Forall Q s → Forall (Forall Q) (split_bytes sep 0 acc s))).
  - intros acc Ha _. by constructor.
  - intros acc rest IH Ha [_ Hr]%Forall_app. rewrite split_at. constructor; [done|]. by apply IH.
  - intros acc b s Hp IH Ha [Hb Hs]%Forall_cons. rewrite split_pass by done. apply IH; [|done].
    apply Forall_app. by split; [|constructor].
Qed.

Lemma contains_true s p : contains s p = true ↔ ∃ i, p `prefix_of` drop i s.
Proof.
  induction s as [|b s IH]; cbn [contains]; unfold starts_with; rewrite orb_true_iff, bool_decide_eq_true.
  - split; [intros [?|?]; [by exists 0%nat|done]|]. intros [i Hi]. left. by rewrite drop_nil in Hi.
  - rewrite IH. split; [intros [?|[i ?]]; [by exists 0%nat|by exists (S i)]|].
    intros [[|i] Hi]; [by left|right; eauto].
Qed.

(** No part contains the separator. *)
Lemma split_parts_free s acc :
  (∀ i, (i < length acc)%nat → ¬ sep `prefix_of` drop i (acc ++ s)) →
  Forall (λ p, contains p sep = false) (split_bytes sep 0 acc s).
Proof.
  assert (∀ acc s, (∀ i, (i < length acc)%nat → ¬ sep `prefix_of` drop i (acc ++ s)) → contains acc sep = false)
    as Hfree.
  { intros a t Ha. apply not_true_is_false. rewrite contains_true. intros [i Hi].
    destruct (decide (i < length a)%nat) as [Hlt|Hge].
    - apply (Ha i Hlt). rewrite drop_app_le by lia. destruct Hi as [r Hr]. rewrite Hr.
      exists (r ++ t). by rewrite (assoc_L app).
    - rewrite drop_ge in Hi by lia. by apply prefix_nil_inv in Hi. }
  revert s acc. apply (split_ind (λ acc s,
    (∀ i, (i < length acc)%nat → ¬ sep `prefix_of` drop i (acc ++ s)) →
    Forall (λ p, contains p sep = false) (split_bytes sep 0 acc s))).
  - intros acc Ha. constructor; [by apply (Hfree acc [])|constructor].
  - intros acc rest IH Ha. rewrite split_at. constructor; [by eapply Hfree|]. apply IH. cbn. lia.
  - intros acc b s Hp IH Ha. rewrite split_pass by done. apply IH. intros i Hi.
    rewrite <-(assoc_L app). cbn [app]. rewrite length_app in Hi. cbn in Hi.
    destruct (decide (i < length acc)%nat) as [Hlt|Hge]; [by apply Ha|].
    replace i with (length acc) by lia. by rewrite drop_app_length.
Qed.
End split.

Lemma split_nonempty_sep s sep : sep ≠ "" →
  split s sep = of_bytes <$> split_bytes (as_bytes sep) 0 [] (as_bytes s) ∧ as_bytes sep ≠ [].
Proof. intros Hne. destruct sep as [|c sep]; [done|]. by split. Qed.

Lemma as_bytes_split s sep : sep ≠ "" →
  as_bytes <$> split s sep = split_bytes (as_bytes sep) 0 [] (as_bytes s).
Proof.
  intros [-> Hne]%(split_nonempty_sep s). rewrite <-list_fmap_compose.
  pose proof (split_Forall (as_bytes sep) Hne in_u8 (as_bytes s) [] (Forall_nil_2 _) (as_bytes_range s)) as Hr.
  induction Hr as [|p ps Hp _ IH]; [done|]. cbn. by rewrite as_bytes_of_bytes, IH.
Qed.

Lemma concat_split s sep : sep ≠ "" → String.concat sep (split s sep) = s.
Proof.
  intros Hne. apply as_bytes_inj. rewrite as_bytes_concat, as_bytes_split by done.
  apply (join_split (as_bytes sep)). by destruct sep.
Qed.

Lemma split_free s sep : sep ≠ "" →
  Forall (λ p, contains (as_bytes p) (as_bytes sep) = false) (split s sep).
Proof.
  intros Hne. pose proof (split_parts_free (as_bytes sep) ltac:(by destruct sep) (as_bytes s) []) as Hf.
  rewrite <-as_bytes_split, Forall_fmap in Hf by done. apply Hf. cbn. lia.
Qed.

(** ** Properties *)

Section props.
Context `{Sizes}.
Variables (f64_to_string : f64 → string) (value_debug : Value → string).

Lemma display_strings m vs ps :
  Forall2 (str_at m) vs ps → try_map (display_string f64_to_string m) vs = Ok ps.
Proof.
  induction 1 as [|v p vs ps (h & -> & Hh) _ IH]; [done|]. cbn.
  by rewrite (with_obj_holds m h _ _ Hh), IH.
Qed.

Lemma list_join_ok m l vs hsep ps sep :
  holds m l (List vs) → Forall2 (str_at m) vs ps → holds m hsep (Str sep) →
  native_list_join f64_to_string value_debug m [Ref l; Ref hsep] = new_str m (String.concat sep ps).
Proof.
  intros Hl Hf Hsep. unfold native_list_join. cbn [args2 mbind res_bind].
  rewrite (str_contents_holds _ m hsep sep Hsep). cbn [mbind res_bind].
  rewrite (with_list_holds m l vs) by done. by rewrite (display_strings m vs ps Hf).
Qed.
End props.

Definition text_mem : Mem :=
  mkMem (mkHeap [Some (Str "a, b,, c"); Some (Str ", "); Some (Str "h"); Some (Str "-42")] [] 500 MIN_GC_BYTES [])
    false 0 DEFAULT_MAX_HEAP_BYTES ∅ [].

Lemma text_mem_wf : heap_wf (HEAP text_mem).
Proof.
  constructor; [constructor| |by vm_compute].
  intros i. split; [intros []%not_elem_of_nil|]. do 4 (destruct i as [|i]; [done|]). done.
Qed.

(** C16: Splitting a string on a separator that is not empty and joining the parts with
    the same separator gives the string back; no part contains the separator; on a
    heap with room for the parts neither native fails. *)
Theorem str_split_join `{Sizes} f64_to_string value_debug n m hs hsep s sep :
  heap_wf (HEAP m) → holds m hs (Str s) → holds m hsep (Str sep) → sep ≠ "" →
  rooms (length (split s sep) + S n) (HEAP m) →
  ∃ m' l vs, native_str_split value_debug m [Ref hs; Ref hsep] = Ok (m', Ref l) ∧
    holds m' l (List vs) ∧ Forall2 (str_at m') vs (split s sep) ∧
    Forall (λ p, contains (as_bytes p) (as_bytes sep) = false) (split s sep) ∧
    native_list_join f64_to_string value_debug m' [Ref l; Ref hsep] = new_str m' s.
Proof.
  intros Hwf Hs Hsep Hne Hn. unfold native_str_split. cbn [args2 mbind res_bind].
  rewrite (str_contents_holds _ m hs s Hs), (str_contents_holds _ m hsep sep Hsep). cbn [mbind res_bind].
  destruct (string_list_ok (split s sep) n m Hwf Hn) as (m' & l & vs & -> & _ & _ & He & Hl & Hf).
  exists m', l, vs. split_and!; [done|done|done|by apply split_free|].
  rewrite (list_join_ok _ _ m' l vs hsep (split s sep) sep) by auto. by rewrite concat_split.
Qed.

Lemma str_split_join_witness : ∃ m' l vs,
  native_str_split (H:=sizes64) (λ _, "") text_mem [Ref 0; Ref 1] = Ok (m', Ref l) ∧ holds m' l (List vs) ∧
  native_list_join (H:=sizes64) (λ _, "") (λ _, "") m' [Ref l; Ref 1] = new_str (H:=sizes64) m' "a, b,, c".
Proof.
  destruct (str_split_join (H:=sizes64) (λ _, "") (λ _, "") 0 text_mem 0 1 "a, b,, c" ", ")
    as (m' & l & vs & ? & ? & _ & _ & ?);
    [apply text_mem_wf|done|done|done|unfold rooms; vm_compute; lia|eauto 10].
Defined.

(** C17: [slice] takes the code points of a half-open range, clamped to the string:
    negative bounds count as zero, a reversed range is empty, and the byte range the
    native computes never splits a character, so it never panics. *)
Theorem str_slice_code_points `{Sizes} value_debug m h s first last :
  holds m h (Str s) → is_utf8 s →
  native_str_slice value_debug m [Ref h; Int first; Int last] =
    new_str m (of_chars (take (Z.to_nat last - Z.to_nat first) (drop (Z.to_nat first) (chars s)))).
Proof.
  intros Hh Hs. unfold native_str_slice. cbn [args3 mbind res_bind as_int].
  rewrite (str_contents_holds _ m h s Hh). cbn [mbind res_bind].
  destruct (Z.leb_spec (Z.max last 0) (Z.max first 0)) as [Hle|Hlt].
  { by replace (Z.to_nat last - Z.to_nat first)%nat with 0%nat by lia. }
  replace (Z.max last 0) with (Z.of_nat (Z.to_nat last)) by lia.
  replace (Z.max first 0) with (Z.of_nat (Z.to_nat first)) by lia.
  unfold char_indices. rewrite (utf8_bytes_chars s Hs), slice_scan_ok by lia.
  unfold str_index. rewrite str_get_chars by (done || lia). done.
Qed.

Lemma str_slice_code_points_witness :
  native_str_slice (H:=sizes64) (λ _, "") text_mem [Ref 0; Int (-3); Int 4] = new_str (H:=sizes64) text_mem "a, b".
Proof. apply (str_slice_code_points (H:=sizes64) (λ _, "") text_mem 0 "a, b,, c" (-3) 4); done. Defined.

(** [chars] lists the code points of a string and [from_chars] of that list is the
    string again; [from_chars] of any integers replaces exactly those that are no
    Unicode scalar value, [try_from_chars] gives [None] exactly when there is one. *)
Theorem str_chars_roundtrip `{Sizes} value_debug m h s l cps :
  holds m h (Str s) → is_utf8 s → holds m l (List (Int <$> cps)) →
  native_str_chars value_debug m [Ref h] = new_list m (Int <$> chars s) ∧
  (cps = chars s → native_str_from_chars value_debug m [Ref l] = new_str m s) ∧
  (scalars cps → ∃ t, native_str_from_chars value_debug m [Ref l] = new_str m t ∧ is_utf8 t ∧ chars t = cps) ∧
  native_str_from_chars value_debug m [Ref l] =
    new_str m (of_chars ((λ c, if is_scalar c then c else REPLACEMENT) <$> cps)) ∧
  native_str_try_from_chars value_debug m [Ref l] =
    if decide (scalars cps) then '(m, v) ← new_str m (of_chars cps); some m v else none m.
Proof.
  intros Hh Hs Hl. pose proof (utf8_chars s Hs) as [Hsc Hback].
  assert (native_str_from_chars value_debug m [Ref l] =
    new_str m (of_chars ((λ c, if is_scalar c then c else REPLACEMENT) <$> cps))) as Hfrom.
  { unfold native_str_from_chars. cbn [expect_one mbind res_bind].
    rewrite (with_list_holds m l _ _ _ Hl), push_chars_ok. cbn [mbind res_bind app].
    do 2 f_equal. apply list_fmap_ext. intros ? c _. cbn beta. unfold char_from. by destruct (is_scalar c). }
  pose proof (scalars_replace cps) as Hid.
  split_and!.
  - unfold native_str_chars, str_to_value, int_list. cbn [expect_one mbind res_bind].
    by rewrite (str_contents_holds _ m h s Hh).
  - intros ->. rewrite Hfrom, Hid by done. by rewrite Hback.
  - intros Hcps. exists (of_chars cps). rewrite Hfrom, Hid by done.
    auto using of_chars_utf8, chars_of_chars.
  - done.
  - unfold native_str_try_from_chars. cbn [expect_one mbind res_bind].
    rewrite (with_list_holds m l _ _ _ Hl), try_push_chars_ok. cbn [mbind res_bind app].
    case_decide; [by rewrite bool_decide_true|by rewrite bool_decide_false].
Qed.

Definition chars_mem : Mem :=
  mkMem (mkHeap [Some (Str "hi"); Some (List [Int 104; Int 105])] [] 500 MIN_GC_BYTES [])
    false 0 DEFAULT_MAX_HEAP_BYTES ∅ [].

Lemma str_chars_roundtrip_witness :
  native_str_chars (H:=sizes64) (λ _, "") chars_mem [Ref 0] = new_list (H:=sizes64) chars_mem [Int 104; Int 105] ∧
  native_str_from_chars (H:=sizes64) (λ _, "") chars_mem [Ref 1] = new_str (H:=sizes64) chars_mem "hi".
Proof.
  destruct (str_chars_roundtrip (H:=sizes64) (λ _, "") chars_mem 0 "hi" 1 [104; 105])
    as (Hc & Hf & _); [done..|]. split; [exact Hc|]. by apply Hf.
Defined.

(** C30: An [Int]'s text parses back to it, and parsing is exact: an optional minus
    sign and decimal digits give their value when it fits in 64 bits and [None]
    when it does not, so no text wraps around. *)
Theorem int_text_roundtrip `{Sizes} f64_to_string value_debug m h s n :
  in_i64 n → holds m h (Str s) →
  native_int_to_string f64_to_string m [Int n] = new_str m (pretty n) ∧
  (s = pretty n → native_str_to_int value_debug m [Ref h] = some m (Int n)) ∧
  (∀ neg ds, as_bytes s = sign neg ++ ds → ds ≠ [] → Forall digit ds →
    native_str_to_int value_debug m [Ref h] =
    let k := if neg then - digits_value 0 ds else digits_value 0 ds in
    if decide (in_i64 k) then some m (Int k) else none m).
Proof.
  intros Hn Hh. split; [done|].
  unfold native_str_to_int, str_to_value. cbn [expect_one mbind res_bind].
  rewrite (str_contents_holds _ m h s Hh). cbn [mbind res_bind]. split.
  - intros ->. by rewrite parse_pretty.
  - intros neg ds Hs Hne Hds. rewrite (parse_i64_digits s neg ds Hs Hne Hds). cbn zeta.
    case_decide; [by rewrite bool_decide_true|by rewrite bool_decide_false].
Qed.

Lemma int_text_roundtrip_witness :
  native_int_to_string (H:=sizes64) (λ _, "") text_mem [Int (-42)] = new_str (H:=sizes64) text_mem "-42" ∧
  native_str_to_int (H:=sizes64) (λ _, "") text_mem [Ref 3] = some (H:=sizes64) text_mem (Int (-42)).
Proof.
  destruct (int_text_roundtrip (H:=sizes64) (λ _, "") (λ _, "") text_mem 3 "-42" (-42))
    as (Hp & Ht & _); [done|done|].
  split; [exact Hp|by apply Ht].
Defined.
