(* ===== verification/NativesMapProofs.v ===== *)
(** * The map natives on the heap

    A mutation takes the map out of its slot and puts the changed one back, so the
    keys are compared on a heap with a hole.  A key that cannot reach the map does
    not notice ([values_eq_hole]): the natives then do what the association list
    does.  A key that reaches the map does: the last property. *)

From Stdlib Require Import ZArith Lia.
From stdpp Require Import base numbers list strings gmap.
From S2P Require Import Prelude Bytes Float64 Instr ModuleTable Value Heap HeapProofs Equality.
From S2P Require Import MapObj MapProofs Trap Scheduler Render Interp NativesBase NativesText NativesColl NativesFacts.

Open Scope Z_scope.

(** ** Comparison does not see what a key cannot reach *)

Definition avoids (s : list (option Obj)) (hm : nat) (v : Value) : Prop := ¬ reachable s [v] hm.

Lemma reachable_step s k o v h :
  s !! k = Some (Some o) → v ∈ for_each_child o → reachable s [v] h → reachable s [Ref k] h.
Proof.
  intros Hk Hv. induction 1 as [h Hh|h o' h' _ IH Ho' Hh'].
  - apply list_elem_of_singleton in Hh as <-. eapply reach_child; [|exact Hk|exact Hv]. apply reach_root. set_solver.
  - by eapply reach_child.
Qed.

Lemma avoids_child s hm k o v :
  s !! k = Some (Some o) → v ∈ for_each_child o → avoids s hm (Ref k) → avoids s hm v.
Proof. intros Hk Hv Ha Hr. apply Ha. by eapply reachable_step. Qed.

Lemma avoids_self s hm k : avoids s hm (Ref k) → k ≠ hm.
Proof. intros Ha ->. apply Ha, reach_root. set_solver. Qed.

Lemma lookup_hole {E} s hm x k : k ≠ hm → lookup_obj (E:=E) (<[hm := x]> s) k = lookup_obj s k.
Proof. intros Hne. unfold lookup_obj. by rewrite list_lookup_insert_ne. Qed.

Lemma values_eq_hole {E} s hm x n : ∀ a b r,
  avoids s hm a → avoids s hm b →
  values_eq (E:=E) n s a b = Ok r → values_eq (E:=E) n (<[hm := x]> s) a b = Ok r.
Proof.
  induction n as [|n IH]; intros a b r Ha Hb; destruct a as [| | | |i], b as [| | | |j]; cbn; try done;
    (destruct (Nat.eqb _ _); [done|]); try done.
  apply avoids_self in Ha as Hi. apply avoids_self in Hb as Hj. rewrite !lookup_hole by done.
  intros (oa & Hoa & (ob & Hob & Hr)%bind_ok)%bind_ok. rewrite Hoa, Hob. cbn.
  unfold lookup_obj in Hoa, Hob.
  destruct (s !! i) as [[oi|]|] eqn:Hsi, (s !! j) as [[oj|]|] eqn:Hsj; simplify_eq.
  eapply obj_eq_mono; [|exact Hr]. intros u v q Hu Hv. 
  apply IH; [exact (avoids_child s hm i oa u Hsi Hu Ha)|exact (avoids_child s hm j ob v Hsj Hv Hb)].
Qed.

(** In a heap of finite structures an object does not reach what it is part of. *)
Lemma reachable_rank s rank v h :
  acyclic s rank → reachable s [v] h → (S (rank h) ≤ value_rank rank v)%nat.
Proof.
  intros Hac. induction 1 as [h Hh|h o h' _ IH Ho Hh'].
  { by apply list_elem_of_singleton in Hh as <-. }
  specialize (Hac _ _ _ Ho Hh'). lia.
Qed.

Lemma child_avoids s rank hm o v :
  acyclic s rank → s !! hm = Some (Some o) → v ∈ for_each_child o → avoids s hm v.
Proof.
  intros Hac Ho Hv Hr%(reachable_rank s rank); [|done]. destruct v as [| | | |k]; cbn in Hr; try lia.
  specialize (Hac _ _ _ Ho Hv). lia.
Qed.

Lemma key_is_child e mp : e ∈ entries mp → e.1 ∈ for_each_child (Map mp).
Proof.
  intros He. cbn. apply list_elem_of_bind. exists e. split; [|done]. destruct e. set_solver.
Qed.

(** ** The key laws on the heap with a hole *)

Section hole.
Context {E : Type} (s : list (option Obj)) (rank : nat → nat) (n hm : nat) (x : option Obj)
  (Hc : slots_closed s) (Hac : acyclic s rank) (Hok : slots_ok s).

(** A usable key that cannot reach the map. *)
Definition free_key (v : Value) : Prop := key_dom s rank n v ∧ avoids s hm v.

#[local] Instance hole_key_laws :
  KeyLaws (values_eq (E:=E) n (<[hm := x]> s)) free_key (key_beq (E:=E) s n) (key_hashf (E:=E) s n).
Proof.
  destruct (heap_key_laws (E:=E) s rank n Hc Hac Hok) as [Heqb Hsym Htrans Hhash Hrange].
  constructor; unfold free_key; [|naive_solver..].
  intros a b [Ha Hav] [Hb Hbv]. apply values_eq_hole; auto.
Qed.

(** The keys of a map on the heap do not reach it. *)
Lemma map_keys_free mp :
  s !! hm = Some (Some (Map mp)) →
  map_wf (key_dom s rank n) (key_beq (E:=E) s n) (key_hashf (E:=E) s n) mp →
  map_wf free_key (key_beq (E:=E) s n) (key_hashf (E:=E) s n) mp.
Proof.
  intros Hm [[Hdom Hinj] Hh Hl Hi]. constructor; try done. split; [|done].
  apply Forall_forall. intros e He. rewrite Forall_forall in Hdom. split; [by apply Hdom|].
  eapply child_avoids; [done|done|by apply key_is_child].
Qed.

Lemma map_wf_weaken (D1 D2 : Value → Prop) beq hf mp :
  (∀ v, D1 v → D2 v) → map_wf D1 beq hf mp → map_wf D2 beq hf mp.
Proof.
  intros HD [[Hdom Hinj] Hh Hl Hi]. constructor; try done. split; [|done].
  eapply Forall_impl; [exact Hdom|]. cbn. auto.
Qed.
End hole.

(** ** The natives *)

Section natives.
Context `{Sizes} (n : nat) (m : Mem) (rank : nat → nat) (hm : nat) (mp : MapObj).
Abbreviation s := (mem_slots m).
Abbreviation beq := (key_beq (E:=Trap) s n).
Abbreviation hashf := (key_hashf (E:=Trap) s n).
Context (Hc : slots_closed s) (Hac : acyclic s rank) (Hok : slots_ok s)
  (Hm : holds m hm (Map mp)) (Hwf : map_wf (key_dom s rank n) beq hashf mp).

Lemma with_map_taken_holds {R} who (f : Mem → MapObj → res Trap (MapObj * R)) mp' r :
  f (put_obj m hm None) mp = Ok (mp', r) →
  with_map_taken m (Ref hm) who f = Ok (put_obj m hm (Some (Map mp')), r).
Proof.
  intros Hf. destruct (take_restore (E:=Trap) m hm _ Hm) as (m1 & Ht & _ & Hr).
  unfold with_map_taken. cbn [map_handle mbind res_bind]. rewrite Ht. cbn [mbind res_bind].
  assert (m1 = put_obj m hm None) as ->.
  { unfold take_obj in Ht. rewrite (lookup_holds m hm _ Hm) in Ht. by injection Ht as <-. }
  rewrite Hf. cbn [mbind res_bind]. by rewrite Hr.
Qed.

Lemma map_set_ok key val :
  free_key s rank n hm key → Z.of_nat (length (entries mp)) < 2 ^ 31 - 1 →
  ∃ mp', native_map_set n m [Ref hm; key; val] = Ok (put_obj m hm (Some (Map mp')), Unit) ∧
    map_wf (free_key s rank n hm) beq hashf mp' ∧ entries mp' = a_insert beq (entries mp) key val.
Proof.
  intros Hk Hlen. pose proof (hole_key_laws (E:=Trap) s rank n hm None Hc Hac Hok).
  destruct (map_insert_ok _ _ _ _ mp key val (map_keys_free s rank n hm Hac mp Hm Hwf) Hk Hlen)
    as (mp' & Hi & Hwf' & He).
  exists mp'. split_and!; [|done|done]. unfold native_map_set. cbn [args3 mbind res_bind].
  destruct (hash_value_key (E:=Trap) s rank n key Hc Hac (proj1 Hk)) as [-> _]. cbn [mbind res_bind].
  apply with_map_taken_holds. change (mem_slots (put_obj m hm None)) with (<[hm := None]> s).
  by rewrite Hi.
Qed.

Lemma map_remove_native_ok key :
  free_key s rank n hm key →
  ∃ mp', native_map_remove n m [Ref hm; key] =
      option_value (put_obj m hm (Some (Map mp'))) (a_get beq (entries mp) key) ∧
    map_wf (free_key s rank n hm) beq hashf mp' ∧ entries mp' = a_remove beq (entries mp) key.
Proof.
  intros Hk. pose proof (hole_key_laws (E:=Trap) s rank n hm None Hc Hac Hok).
  destruct (map_remove_ok _ _ _ _ mp key (map_keys_free s rank n hm Hac mp Hm Hwf) Hk)
    as (mp' & Hi & Hwf' & He).
  exists mp'. split_and!; [|done|done]. unfold native_map_remove. cbn [args2 mbind res_bind].
  destruct (hash_value_key (E:=Trap) s rank n key Hc Hac (proj1 Hk)) as [-> _]. cbn [mbind res_bind].
  erewrite with_map_taken_holds; [reflexivity|].
  change (mem_slots (put_obj m hm None)) with (<[hm := None]> s). by rewrite Hi.
Qed.

Lemma with_map_ref_holds {R} who (f : MapObj → res Trap R) : with_map_ref m (Ref hm) who f = f mp.
Proof. unfold with_map_ref. cbn [map_handle mbind res_bind]. by rewrite (with_obj_holds m hm _ _ Hm). Qed.

Lemma map_lookup_ok key :
  key_dom s rank n key →
  hash_value (E:=Trap) n s key = Ok (hashf key) ∧
  map_get (values_eq (E:=Trap) n s) mp key (hashf key) = Ok (a_get beq (entries mp) key) ∧
  map_contains (values_eq (E:=Trap) n s) mp key (hashf key) =
    Ok (bool_decide (is_Some (a_get beq (entries mp) key))).
Proof.
  intros Hk. pose proof (heap_key_laws (E:=Trap) s rank n Hc Hac Hok).
  split_and!; [by apply (hash_value_key s rank)|by apply (map_get_ok _ (key_dom s rank n))|
    by apply (map_contains_ok _ (key_dom s rank n))].
Qed.
End natives.

(** ** Properties *)

(** C10: [map[key] = v] and [map.remove] through the heap, with the map taken out of its
    slot meanwhile.  On a heap without dangling references whose structures are all
    finite, for a map of fewer than 2^31 - 1 entries and a live key that cannot reach the
    map itself, they never panic, put back a well-formed map whose entries are those of the association
    list's operation, and change nothing else on the heap; the keys compare as
    before. *)
Theorem native_map_mutations_refine `{Sizes} n m rank hm mp key val :
  slots_closed (mem_slots m) → acyclic (mem_slots m) rank → slots_ok (mem_slots m) →
  holds m hm (Map mp) →
  map_wf (key_dom (mem_slots m) rank n) (key_beq (E:=Trap) (mem_slots m) n) (key_hashf (E:=Trap) (mem_slots m) n) mp →
  key_dom (mem_slots m) rank n key → avoids (mem_slots m) hm key →
  Z.of_nat (length (entries mp)) < 2 ^ 31 - 1 →
  ∃ mp1 mp2,
    native_map_set n m [Ref hm; key; val] = Ok (put_obj m hm (Some (Map mp1)), Unit) ∧
    entries mp1 = a_insert (key_beq (E:=Trap) (mem_slots m) n) (entries mp) key val ∧
    native_map_remove n m [Ref hm; key] =
      option_value (put_obj m hm (Some (Map mp2))) (a_get (key_beq (E:=Trap) (mem_slots m) n) (entries mp) key) ∧
    entries mp2 = a_remove (key_beq (E:=Trap) (mem_slots m) n) (entries mp) key ∧
    ∀ mp', mp' = mp1 ∨ mp' = mp2 →
      map_wf (free_key (mem_slots m) rank n hm) (key_beq (E:=Trap) (mem_slots m) n)
        (key_hashf (E:=Trap) (mem_slots m) n) mp' ∧
      ∀ a b, free_key (mem_slots m) rank n hm a → free_key (mem_slots m) rank n hm b →
        values_eq (E:=Trap) n (mem_slots (put_obj m hm (Some (Map mp')))) a b =
        values_eq (E:=Trap) n (mem_slots m) a b.
Proof.
  intros Hc Hac Hok Hm Hwf Hk Hav Hlen.
  destruct (map_set_ok n m rank hm mp Hc Hac Hok Hm Hwf key val (conj Hk Hav) Hlen) as (mp1 & Hs & Hw1 & He1).
  destruct (map_remove_native_ok n m rank hm mp Hc Hac Hok Hm Hwf key (conj Hk Hav)) as (mp2 & Hr & Hw2 & He2).
  exists mp1, mp2. split_and!; [done..|]. intros mp' Hmp'. split; [by destruct Hmp' as [-> | ->]|].
  intros a b [(Hla & Hra & _) Haa] [(Hlb & _ & _) Hbb].
  destruct (values_eq_decides (E:=Trap) (mem_slots m) rank n a b Hc Hac Hla Hlb Hra) as [r Hab].
  rewrite Hab. by apply values_eq_hole.
Qed.

(** Reading a map through its handle: [get], [has], [index], [len], [keys] and
    [values] give what the association list gives and leave the heap alone but for
    the object they return; a missing key is [None], [false] or the trap naming the
    key. *)
Theorem native_map_reads_refine `{Sizes} f64_to_string n m rank hm mp key :
  slots_closed (mem_slots m) → acyclic (mem_slots m) rank → slots_ok (mem_slots m) →
  holds m hm (Map mp) →
  map_wf (key_dom (mem_slots m) rank n) (key_beq (E:=Trap) (mem_slots m) n) (key_hashf (E:=Trap) (mem_slots m) n) mp →
  key_dom (mem_slots m) rank n key →
  let found := a_get (key_beq (E:=Trap) (mem_slots m) n) (entries mp) key in
  native_map_get n m [Ref hm; key] = option_value m found ∧
  native_map_has n m [Ref hm; key] = Ok (m, Bool (bool_decide (is_Some found))) ∧
  native_map_index f64_to_string n m [Ref hm; key] =
    match found with
    | Some v => Ok (m, v)
    | None => label ← key_label f64_to_string m key; Err (MissingKey label)
    end ∧
  native_map_len m [Ref hm] = Ok (m, Int (Z.of_nat (length (entries mp)))) ∧
  native_map_keys m [Ref hm] = new_list m (entries mp).*1 ∧
  native_map_values m [Ref hm] = new_list m (entries mp).*2.
Proof.
  intros Hc Hac Hok Hm Hwf Hk found.
  destruct (map_lookup_ok n m rank mp Hc Hac Hok Hwf key Hk) as (Hh & Hg & Hct).
  unfold native_map_get, native_map_has, native_map_index, native_map_len, native_map_keys, native_map_values.
  cbn [args2 expect_one mbind res_bind]. rewrite !Hh. cbn [mbind res_bind].
  rewrite !(with_map_ref_holds m hm mp Hm), Hg, Hct. cbn [mbind res_bind].
  split_and!; try done. unfold map_len. rewrite as_signed_id; [done|lia|].
  pose proof (wf_len _ _ _ _ Hwf). unfold in_signed. lia.
Qed.

(** The search of a map with the linear representation begins with its first entry. *)
Lemma map_find_first {E} (eqb : Value → Value → res E bool) k v es hash hs key :
  map_find eqb (mkMap ((k, v) :: es) (hash :: hs) []) key hash =
  b ← eqb k key; if b : bool then Ok (Some 0%nat) else find_linear eqb (length es) (mkMap ((k, v) :: es) (hash :: hs) []) 1 key hash.
Proof.
  unfold map_find. cbn [index length Nat.eqb entries find_linear]. unfold entry_matches.
  cbn [hashes entries lookup list_lookup or_panic mbind res_bind fst]. by rewrite Z.eqb_refl.
Qed.

Lemma with_map_taken_calls `{Sizes} {R} m hm mp who (f : Mem → MapObj → res Trap (MapObj * R)) :
  holds m hm (Map mp) →
  with_map_taken m (Ref hm) who f =
  '(mp, r) ← f (put_obj m hm None) mp; m ← restore_obj (put_obj m hm None) hm (Map mp); Ok (m, r).
Proof.
  intros Hm. unfold with_map_taken, take_obj. cbn [map_handle mbind res_bind].
  by rewrite (lookup_holds m hm _ Hm).
Qed.

(** Comparing two closures of one function, captures first. *)
Lemma closures_eq {E} n s k1 k2 f a b c1 c2 :
  k1 ≠ k2 → length c1 = length c2 →
  lookup_obj (E:=E) s k1 = Ok (Closure f (a :: c1)) → lookup_obj (E:=E) s k2 = Ok (Closure f (b :: c2)) →
  values_eq (E:=E) (S n) s (Ref k1) (Ref k2) = e ← values_eq n s a b; if e : bool then all2 (values_eq n s) c1 c2 else Ok false.
Proof.
  intros Hk Hl E1 E2. cbn [values_eq]. rewrite (proj2 (Nat.eqb_neq _ _) Hk), E1, E2.
  cbn [mbind res_bind obj_eq]. rewrite Z.eqb_refl. unfold vec_eq. cbn [length]. by rewrite Hl, Nat.eqb_refl.
Qed.

(** A map is not equal to an object that is no map or has another number of entries. *)
Lemma map_differs {E} n s k hm o mp :
  k ≠ hm → lookup_obj (E:=E) s k = Ok o → lookup_obj (E:=E) s hm = Ok (Map mp) →
  (∀ mp', o = Map mp' → length (entries mp') ≠ length (entries mp)) →
  values_eq (E:=E) (S n) s (Ref k) (Ref hm) = Ok false.
Proof.
  intros Hk E1 E2 Hd. cbn [values_eq]. rewrite (proj2 (Nat.eqb_neq _ _) Hk), E1, E2. cbn [mbind res_bind].
  destruct o; try done. cbn [obj_eq]. unfold vec_eq. by rewrite (proj2 (Nat.eqb_neq _ _) (Hd _ eq_refl)).
Qed.

(** C31: Setting or removing a closure key whose first capture is the map itself panics
    when the first key of the map, in the linear representation, is a closure of the
    same function with as many captures, the first of which is a reference to another
    live object: a closure is hashed by its function alone, so the two keys are compared,
    and the comparison reads the slot the map was taken out of.  The lookup, which does
    not take the map, answers [false] when the map has that one entry and the object
    captured is not itself a map of one entry. *)
Theorem native_map_self_key_panics `{Sizes} n m hm k1 k2 k f c1 c2 v es hash hs o val :
  let mp := mkMap ((Ref k1, v) :: es) (hash :: hs) [] in
  holds m hm (Map mp) → k ≠ hm → holds m k o →
  holds m k1 (Closure f (Ref k :: c1)) → holds m k2 (Closure f (Ref hm :: c2)) → k1 ≠ k2 → length c1 = length c2 →
  (2 ≤ n)%nat → hash_value (E:=Trap) n (mem_slots m) (Ref k1) = Ok hash →
  native_map_set n m [Ref hm; Ref k2; val] = Panic ∧
  native_map_remove n m [Ref hm; Ref k2] = Panic ∧
  (es = [] → (∀ mp', o = Map mp' → length (entries mp') ≠ 1%nat) →
    native_map_has n m [Ref hm; Ref k2] = Ok (m, Bool false)).
Proof.
  intros mp Hm H0 Hk Hk1 Hk2 H12 Hl Hn Hh. destruct n as [|[|n]]; [lia..|].
  assert (hash_value (E:=Trap) (S (S n)) (mem_slots m) (Ref k2) = Ok hash) as Hh2.
  { unfold hash_value in *. cbn [hash_into] in *. rewrite (lookup_holds m k1 _ Hk1) in Hh.
    by rewrite (lookup_holds m k2 _ Hk2). }
  assert (k1 ≠ hm ∧ k2 ≠ hm) as (H1 & H2) by (split; intros ->; congruence).
  assert (values_eq (E:=Trap) (S (S n)) (mem_slots (put_obj m hm None)) (Ref k1) (Ref k2) = Panic) as Hpanic.
  { change (mem_slots (put_obj m hm None)) with (<[hm := None]> (mem_slots m)).
    rewrite (closures_eq _ _ k1 k2 f (Ref k) (Ref hm) c1 c2 H12 Hl); rewrite ?lookup_hole by done; try by apply lookup_holds.
    cbn [values_eq]. rewrite (proj2 (Nat.eqb_neq _ _) H0), (lookup_hole _ hm None k H0), (lookup_holds m k _ Hk).
    cbn [mbind res_bind]. unfold lookup_obj. rewrite list_lookup_insert_eq; [done|]. by apply lookup_lt_Some in Hm. }
  split_and!.
  - unfold native_map_set. cbn [args3 mbind res_bind]. rewrite Hh2. cbn [mbind res_bind].
    rewrite (with_map_taken_calls m hm _ _ _ Hm). unfold map_insert, mp. by rewrite map_find_first, Hpanic.
  - unfold native_map_remove. cbn [args2 mbind res_bind]. rewrite Hh2. cbn [mbind res_bind].
    rewrite (with_map_taken_calls m hm _ _ _ Hm). unfold map_remove, mp. by rewrite map_find_first, Hpanic.
  - intros -> Ho. unfold native_map_has. cbn [args2 mbind res_bind]. rewrite Hh2. cbn [mbind res_bind].
    rewrite (with_map_ref_holds m hm _ Hm). unfold map_contains, mp.
    rewrite map_find_first, (closures_eq _ _ k1 k2 f (Ref k) (Ref hm) c1 c2 H12 Hl); try by apply lookup_holds.
    by rewrite (map_differs n (mem_slots m) k hm o mp); try apply lookup_holds.
Qed.

Definition key_hash_k : u64 := key_hashf (E:=Trap) [Some (Str "k")] 1 (Ref 0).

Definition map_mem : Mem :=
  mkMem (mkHeap [Some (Str "k"); Some (Str "j"); Some (Map (mkMap [(Ref 0, Int 7)] [key_hash_k] []))]
    [] 500 MIN_GC_BYTES []) false 0 DEFAULT_MAX_HEAP_BYTES ∅ [].

Definition map_rank (h : nat) : nat := if Nat.eqb h 2 then 1 else 0.

Lemma map_mem_ok :
  slots_closed (mem_slots map_mem) ∧ acyclic (mem_slots map_mem) map_rank ∧ slots_ok (mem_slots map_mem).
Proof.
  split_and!.
  - intros h o Ho. do 3 (destruct h as [|h]; [cbn in Ho; simplify_eq; repeat constructor; try (by eexists)|]). done.
  - intros h o k Ho Hk.
    do 3 (destruct h as [|h]; [cbn in Ho; simplify_eq; cbn in *; set_solver by (cbn; lia)|]). done.
  - intros h o Ho. do 3 (destruct h as [|h]; [cbn in Ho; simplify_eq; repeat constructor; cbn; try done|]). done.
Qed.

Lemma map_mem_wf :
  map_wf (key_dom (mem_slots map_mem) map_rank 2) (key_beq (E:=Trap) (mem_slots map_mem) 2)
    (key_hashf (E:=Trap) (mem_slots map_mem) 2) (mkMap [(Ref 0, Int 7)] [key_hash_k] []).
Proof.
  constructor; [split| |by vm_compute|by left].
  - constructor; [|constructor]. split_and!; [by eexists|cbn; lia|done].
  - intros [|i] [|j]; cbn; try done; rewrite ?lookup_nil; done.
  - by vm_compute.
Qed.

Lemma map_mem_key h : (h < 2)%nat →
  key_dom (mem_slots map_mem) map_rank 2 (Ref h) ∧ avoids (mem_slots map_mem) 2 (Ref h).
Proof.
  intros Hh. split.
  - split_and!; [|destruct h as [|[|]]; cbn; lia|done]. destruct h as [|[|]]; [by eexists..|lia].
  - intros Hr%(reachable_rank _ map_rank); [|apply map_mem_ok]. destruct h as [|[|]]; cbn in Hr; lia.
Qed.

Lemma native_map_mutations_refine_witness : ∃ mp1 mp2,
  native_map_set 2 map_mem [Ref 2; Ref 1; Unit] = Ok (put_obj map_mem 2 (Some (Map mp1)), Unit) ∧
  entries mp1 = a_insert (key_beq (E:=Trap) (mem_slots map_mem) 2) [(Ref 0, Int 7)] (Ref 1) Unit ∧
  entries mp2 = a_remove (key_beq (E:=Trap) (mem_slots map_mem) 2) [(Ref 0, Int 7)] (Ref 1).
Proof.
  destruct map_mem_ok as (Hc & Hac & Hok). destruct (map_mem_key 1) as [Hk Hav]; [lia|].
  destruct (native_map_mutations_refine (H:=sizes64) 2 map_mem map_rank 2 _ (Ref 1) Unit Hc Hac Hok
    eq_refl map_mem_wf Hk Hav) as (mp1 & mp2 & ? & ? & _ & ? & _); [by vm_compute|eauto].
Defined.

Lemma native_map_reads_refine_witness :
  native_map_has 2 map_mem [Ref 2; Ref 0] = Ok (map_mem, Bool true) ∧
  native_map_get (H:=sizes64) 2 map_mem [Ref 2; Ref 0] = some (H:=sizes64) map_mem (Int 7).
Proof.
  destruct map_mem_ok as (Hc & Hac & Hok). destruct (map_mem_key 0) as [Hk _]; [lia|].
  destruct (native_map_reads_refine (H:=sizes64) (λ _, "") 2 map_mem map_rank 2 _ (Ref 0) Hc Hac Hok
    eq_refl map_mem_wf Hk) as (Hg & Hh & _). split; [exact Hh|exact Hg].
Defined.

(** A map with two entries; the first key captures a string and a number. *)
Definition closure_mem : Mem :=
  mkMem (mkHeap [Some (Map (mkMap [(Ref 2, Int 1); (Int 5, Unit)]
      [key_hashf (E:=Trap) [Some (Closure 7 [])] 1 (Ref 0); key_hashf (E:=Trap) [] 1 (Int 5)] [])); Some (Str "x");
      Some (Closure 7 [Ref 1; Int 3]); Some (Closure 7 [Ref 0; Int 4]);
      Some (Map (mkMap [(Ref 2, Int 1)] [key_hashf (E:=Trap) [Some (Closure 7 [])] 1 (Ref 0)] []));
      Some (Closure 7 [Ref 4; Int 4])]
    [] 500 MIN_GC_BYTES []) false 0 DEFAULT_MAX_HEAP_BYTES ∅ [].

Lemma native_map_self_key_panics_witness :
  native_map_set 2 closure_mem [Ref 0; Ref 3; Unit] = Panic ∧
  native_map_has 2 closure_mem [Ref 4; Ref 5] = Ok (closure_mem, Bool false).
Proof.
  destruct (native_map_self_key_panics (H:=sizes64) 2 closure_mem 0 2 3 1 7 [Int 3] [Int 4] (Int 1) [(Int 5, Unit)]
    (key_hashf (E:=Trap) [Some (Closure 7 [])] 1 (Ref 0)) [key_hashf (E:=Trap) [] 1 (Int 5)] (Str "x") Unit
    eq_refl ltac:(done) eq_refl eq_refl eq_refl ltac:(done) eq_refl) as (Hs & _); [lia|by vm_compute|].
  destruct (native_map_self_key_panics (H:=sizes64) 2 closure_mem 4 2 5 1 7 [Int 3] [Int 4] (Int 1) []
    (key_hashf (E:=Trap) [Some (Closure 7 [])] 1 (Ref 0)) [] (Str "x") Unit
    eq_refl ltac:(done) eq_refl eq_refl eq_refl ltac:(done) eq_refl) as (_ & _ & Hh); [lia|by vm_compute|].
  split; [exact Hs|by apply Hh].
Defined.
