(* ===== verification/NativesSafe.v ===== *)
(** * The natives keep the interpreter's invariant

    Every modelled native but those that compare map keys, slice a string or name a
    channel, on every list of live arguments, traps or leaves the heap well formed and
    returns a live value: what [run_never_panics] asks of a native.  The ones left out
    need more than the heap's invariant and have properties of their own. *)

From Stdlib Require Import ZArith Lia.
From stdpp Require Import base numbers list strings gmap pretty.
From S2P Require Import Prelude Bytes Float64 Instr ModuleTable Value Utf8 Heap HeapProofs MapObj Trap.
From S2P Require Import Scheduler SchedulerProofs SchedulerSpec Render Interp InterpProofs Driver DriverProofs.
From S2P Require Import NativesBase NativesText NativesColl NativesFiber.

Open Scope Z_scope.

(** ** Reading arguments *)

Lemma try_map_safe {A B} (f : A → res Trap B) xs :
  (∀ x, x ∈ xs → safe (λ _, True) (f x)) → safe (λ _, True) (try_map f xs).
Proof.
  induction xs as [|x xs IH]; intros Hf; cbn [try_map]; [done|].
  eapply safe_bind; [apply Hf; set_solver|]. intros y _.
  eapply safe_bind; [apply IH; set_solver|]. done.
Qed.

Section args.
Context (m : Mem) (Hm : mem_wf m) (vd : Value → string).

Lemma expect_one_safe args who : lives m args → safe (λ v, live m v) (expect_one args who).
Proof. intros Ha. destruct args as [|v []]; cbn; try done. by inversion Ha. Qed.

Lemma args2_safe args who : lives m args → safe (λ '(a, b), live m a ∧ live m b) (args2 args who).
Proof.
  intros Ha. destruct args as [|a [|b []]]; try done. cbn. by apply Forall_cons in Ha as [? [? _]%Forall_cons].
Qed.

Lemma args3_safe args who :
  lives m args → safe (λ '(a, b, c), live m a ∧ live m b ∧ live m c) (args3 args who).
Proof.
  intros Ha. destruct args as [|a [|b [|c []]]]; try done. cbn.
  by apply Forall_cons in Ha as [? [? [? _]%Forall_cons]%Forall_cons].
Qed.

Lemma as_int_safe v who : safe (λ _, True) (as_int vd v who).
Proof. by destruct v. Qed.

Lemma as_double_safe v who : safe (λ _, True) (as_double vd v who).
Proof. by destruct v. Qed.

Lemma with_bytes_safe {R} (P : R → Prop) v who (f : list u8 → R) :
  live m v → (∀ b, P (f b)) → safe P (with_bytes vd m v who f).
Proof. intros Hv Hf. destruct v; try done. apply safe_join, with_obj_safe; [done|done|]. intros []; cbn; auto. Qed.

Lemma with_list_ref_safe {R} (P : R → Prop) v who f :
  live m v → (∀ items, lives m items → safe P (f items)) → safe P (with_list_ref m v who f).
Proof. intros Hv Hf. destruct v; try done. apply safe_join, with_obj_safe; [done|done|]. intros []; cbn; auto. Qed.

Lemma with_list_safe {R} (P : R → Prop) v who f :
  live m v → (∀ items, lives m items → safe P (f items)) → safe P (with_list m v who f).
Proof.
  intros Hv Hf. destruct v as [| | | |h]; try done. destruct Hv as [o Ho]. cbn.
  unfold clone_obj, lookup_obj. rewrite Ho. cbn. pose proof (wf_closed _ Hm _ _ Ho) as Hl. destruct o; cbn; auto.
Qed.

Lemma with_map_ref_safe {R} (P : R → Prop) v who f :
  live m v → (∀ mp, lives m (for_each_child (Map mp)) → safe P (f mp)) → safe P (with_map_ref m v who f).
Proof.
  intros Hv Hf. unfold with_map_ref. destruct v; try done. cbn [map_handle mbind res_bind].
  apply safe_join, with_obj_safe; [done|done|]. intros []; try done. intros _ Hc. by apply Hf.
Qed.

Lemma concat_args_safe args : ∀ s, lives m args → safe (λ _, True) (concat_args vd m args s).
Proof.
  induction args as [|a args IH]; intros s; cbn [concat_args]; [done|]. intros [Ha Hr]%Forall_cons.
  eapply safe_bind; [by apply str_contents_safe|]. intros t _. by apply IH.
Qed.

Lemma push_chars_safe who items : ∀ s, safe (λ _, True) (push_chars vd who s items).
Proof.
  induction items as [|i items IH]; intros s; cbn [push_chars]; [done|].
  eapply safe_bind; [apply as_int_safe|]. intros cp _. apply IH.
Qed.

Lemma try_push_chars_safe who items : ∀ s, safe (λ _, True) (try_push_chars vd who s items).
Proof.
  induction items as [|i items IH]; intros s; cbn [try_push_chars]; [done|].
  eapply safe_bind; [apply as_int_safe|]. intros cp _. by destruct (char_from cp).
Qed.

Lemma collect_bytes_safe items : ∀ out, safe (λ _, True) (collect_bytes vd out items).
Proof.
  induction items as [|i items IH]; intros s; cbn [collect_bytes]; [done|].
  eapply safe_bind; [apply as_int_safe|]. intros n _. by destruct (between _ _ _).
Qed.
End args.

(** ** Heap effects *)

(** What a native may return from the heap [m]. *)
Definition step_post (m : Mem) (r : Mem * Value) : Prop :=
  mem_wf r.1 ∧ live r.1 r.2 ∧ keeps_live m r.1 ∧ mem_rel m r.1.

Lemma step_here m v : mem_wf m → live m v → step_post m (m, v).
Proof. intros. unfold step_post. split_and!; [done|done|apply keeps_live_refl|apply mem_rel_refl]. Qed.

Lemma step_trans m m1 r : keeps_live m m1 → mem_rel m m1 → step_post m1 r → step_post m r.
Proof.
  intros Hk Hr (? & ? & ? & ?). unfold step_post. split_and!; [done|done|by eapply keeps_live_trans|by eapply mem_rel_trans].
Qed.

Section effects.
Context `{Sizes}.

Lemma alloc_post m o : mem_wf m → ObjShape o → lives m (for_each_child o) → safe (step_post m) (alloc (E:=Trap) m o).
Proof. intros Hm Hs Ho. eapply safe_mono; [by apply alloc_step|]. by intros [m' v]. Qed.

(** An allocation and what follows. *)
Lemma alloc_bind_safe m o (k : Mem * Value → res Trap (Mem * Value)) :
  mem_wf m → ObjShape o → lives m (for_each_child o) →
  (∀ m1 v, mem_wf m1 → live m1 v → keeps_live m m1 → safe (step_post m1) (k (m1, v))) →
  safe (step_post m) (r ← alloc m o; k r).
Proof.
  intros Hm Hs Ho Hk. eapply safe_bind; [by apply alloc_post|]. intros [m1 v] (Hm1 & Hv & Hk1 & Hr1).
  eapply safe_mono; [by apply Hk|]. intros r Hr. by eapply step_trans.
Qed.

Lemma option_value_safe m o :
  mem_wf m → (∀ v, o = Some v → live m v) → safe (step_post m) (option_value m o).
Proof.
  intros Hm Ho. destruct o as [v|]; apply alloc_post; [done|done| |done|done|by apply Forall_nil].
  apply Forall_singleton. auto.
Qed.

Lemma int_list_safe m xs : mem_wf m → safe (step_post m) (int_list m xs).
Proof. intros Hm. apply alloc_post; [done|done|]. cbn. apply Forall_fmap, Forall_true. done. Qed.

Lemma new_strs_safe ps : ∀ m, mem_wf m →
  safe (λ '(m', vs), mem_wf m' ∧ lives m' vs ∧ keeps_live m m' ∧ mem_rel m m') (new_strs m ps).
Proof.
  induction ps as [|s ps IH]; intros m Hm; cbn [new_strs].
  { split_and!; [done|by apply Forall_nil|apply keeps_live_refl|apply mem_rel_refl]. }
  eapply safe_bind; [apply (alloc_post m (Str s)); [done|done|by apply Forall_nil]|].
  intros [m1 v] (Hm1 & Hv & Hk1 & Hr1). cbn [fst snd] in *.
  eapply safe_bind; [by apply IH|]. intros [m2 vs] (Hm2 & Hvs & Hk2 & Hr2).
  split_and!; [done| |by eapply keeps_live_trans|by eapply mem_rel_trans].
  apply Forall_cons. auto.
Qed.

Lemma string_list_safe m ps : mem_wf m → safe (step_post m) (string_list m ps).
Proof.
  intros Hm. unfold string_list. eapply safe_bind; [by apply new_strs_safe|].
  intros [m1 vs] (Hm1 & Hvs & Hk & Hr). eapply safe_mono; [by apply alloc_post|].
  intros r Hp. by eapply step_trans.
Qed.

(** A change of one object in place. *)
Lemma with_mut_safe {R} (P : R → Prop) m h (f : Obj → Obj * res Trap R) :
  mem_wf m → live m (Ref h) →
  (∀ o, lives m (for_each_child o) → lives m (for_each_child (f o).1) ∧ safe P (f o).2) →
  (∀ o, ObjShape o → ObjShape (f o).1) →
  safe (λ '(m', r), mem_wf m' ∧ P r ∧ keeps_live m m' ∧ mem_rel m m') (with_mut m h f).
Proof.
  intros Hm [o Ho] Hf Hsh. unfold with_mut.
  destruct (with_obj_mut_wf (E:=Trap) m h f Hm) as (m' & r & Hok & Hwf & Hl).
  { by exists o. } { intros o2 Ho2. apply Hf. by apply (wf_closed _ Hm h). } { intros o2 _. apply Hsh. }
  rewrite Hok. cbn [mbind res_bind]. destruct (Hf o (wf_closed _ Hm h o Ho)) as [_ Hr].
  assert (r = (f o).2 ∧ GC_PAUSED m' = GC_PAUSED m) as [-> Hp].
  { unfold with_obj_mut, lookup_obj in Hok. rewrite Ho in Hok. cbn in Hok. destruct (f o) as [o' r'].
    by injection Hok as <- <-. }
  eapply safe_bind; [exact Hr|]. intros a Ha. assert (keeps_live m m') as Hk by by intros v ?%Hl.
  split_and!; [done|done|done|]. split; [done|]. by intros _.
Qed.

Lemma with_list_mut_safe {R} (P : R → Prop) m v who (f : list Value → list Value * res Trap R) :
  mem_wf m → live m v → (∀ xs, lives m xs → lives m (f xs).1 ∧ safe P (f xs).2) →
  safe (λ '(m', r), mem_wf m' ∧ P r ∧ keeps_live m m' ∧ mem_rel m m') (with_list_mut m v who f).
Proof.
  intros Hm Hv Hf. destruct v; try done. apply with_mut_safe; [done|done|..].
  - intros [] Ho; try done. cbn in *. specialize (Hf items Ho). by destruct (f items).
  - intros []; try done. by destruct (f items).
Qed.

Lemma with_builder_mut_safe {R} vd (P : R → Prop) m v who (f : list u8 → list u8 * R) :
  mem_wf m → live m v → (∀ buf, P (f buf).2) →
  safe (λ '(m', r), mem_wf m' ∧ P r ∧ keeps_live m m' ∧ mem_rel m m') (with_builder_mut vd m v who f).
Proof.
  intros Hm Hv Hf. destruct v; try done. apply with_mut_safe; [done|done|..].
  - intros [] Ho; try done. cbn in *. match goal with |- context [f ?b] => specialize (Hf b) end. by destruct (f _).
  - intros []; try done. by destruct (f _).
Qed.
End effects.

(** ** The heap natives *)

(** Peel one argument check or read off a native. *)
Ltac native_step :=
  lazymatch goal with
  | |- safe _ (mbind _ (expect_one _ _)) => eapply safe_bind; [by apply expect_one_safe|]; intros ? ?
  | |- safe _ (mbind _ (args2 _ _)) => eapply safe_bind; [by apply args2_safe|]; intros [? ?] [? ?]
  | |- safe _ (mbind _ (args3 _ _)) => eapply safe_bind; [by apply args3_safe|]; intros [[? ?] ?] (? & ? & ?)
  | |- safe _ (mbind _ (as_int _ _ _)) => eapply safe_bind; [apply as_int_safe|]; intros ? _
  | |- safe _ (mbind _ (as_double _ _ _)) => eapply safe_bind; [apply as_double_safe|]; intros ? _
  | |- safe _ (mbind _ (str_contents _ _ _)) => eapply safe_bind; [by apply str_contents_safe|]; intros ? _
  | |- safe _ (mbind _ (display_string _ _ _)) => eapply safe_bind; [by apply display_string_safe|]; intros ? _
  | |- safe _ (mbind _ (with_bytes _ _ _ _ _)) => eapply safe_bind; [by apply (with_bytes_safe _ ltac:(eassumption) _ (λ _, True))|]; intros ? _
  | |- safe _ (mbind _ (bytes_contents _ _ _ _)) => eapply safe_bind; [by apply (with_bytes_safe _ ltac:(eassumption) _ (λ _, True))|]; intros ? _
  | |- safe _ (mbind _ (with_builder_mut _ _ _ _ _)) =>
      eapply safe_bind; [by apply (with_builder_mut_safe _ (λ _, True))|]; intros [? ?] (? & _ & ? & ?)
  | |- safe (step_post ?m) (Ok (?m, _)) => apply step_here
  | |- safe (step_post ?m) (new_str ?m _) => apply alloc_post; [done|done|by apply Forall_nil]
  | |- safe (step_post ?m) (new_bytes ?m _) => apply alloc_post; [done|done|by apply Forall_nil]
  | |- safe (step_post ?m) (int_list ?m _) => by apply int_list_safe
  | |- safe (step_post ?m) (string_list ?m _) => by apply string_list_safe
  end.

Ltac native := repeat (native_step; try done).

Section mem_natives.
Context `{Sizes} (f64_to_string : f64 → string) (vd : Value → string) (fuel : nat).

(** What a native on the heap keeps. *)
Definition mem_native_ok (f : MemNative) : Prop :=
  ∀ m args, mem_wf m → lives m args → safe (step_post m) (f m args).

Lemma str_to_value_ok who (f : Mem → string → res Trap (Mem * Value)) :
  (∀ m s, mem_wf m → safe (step_post m) (f m s)) → mem_native_ok (str_to_value vd who f).
Proof. intros Hf m args Hm Ha. unfold str_to_value. native. by apply Hf. Qed.

Lemma str_test_ok who f : mem_native_ok (str_test vd who f).
Proof. intros m args Hm Ha. unfold str_test. native. Qed.

Lemma new_str_of_ok who (f : string → string) : mem_native_ok (str_to_value vd who (λ m s, new_str m (f s))).
Proof. apply str_to_value_ok. intros m s Hm. native. Qed.

Definition text_natives : list MemNative := [
  native_int_to_string f64_to_string; native_double_to_string f64_to_string;
  native_bool_to_string f64_to_string; native_str_identity vd; native_string_debug vd;
  native_bytes_debug vd; native_str_concat vd; native_eq fuel; native_str_len vd;
  native_str_byte_len vd; native_str_trim vd; native_str_trim_start vd; native_str_trim_end vd;
  native_str_compare vd; native_str_contains vd; native_str_starts_with vd; native_str_ends_with vd;
  native_str_lines vd; native_str_split_whitespace vd; native_str_split vd; native_str_chars vd;
  native_str_bytes vd; native_str_from_chars vd; native_str_try_from_chars vd; native_str_to_int vd;
  native_str_byte_slice vd ].

Lemma display_native_ok who : mem_native_ok (display_native f64_to_string who).
Proof. intros m args Hm Ha. unfold display_native. native. Qed.

Lemma str_try_from_chars_ok : mem_native_ok (native_str_try_from_chars vd).
Proof.
  intros m args Hm Ha. unfold native_str_try_from_chars. native.
  eapply safe_bind; [apply with_list_safe; [done|done|]; intros; apply try_push_chars_safe|]. intros [s|] _.
  - apply alloc_bind_safe; [done|done|by apply Forall_nil|]. intros m1 v Hm1 Hv _.
    apply alloc_post; [done|done|]. by apply Forall_singleton.
  - apply alloc_post; [done|done|by apply Forall_nil].
Qed.

Lemma text_natives_ok : Forall mem_native_ok text_natives.
Proof.
  unfold text_natives. repeat (apply Forall_cons; split); try apply Forall_nil; try done;
    try apply display_native_ok; try apply str_test_ok; try apply new_str_of_ok;
    try apply str_try_from_chars_ok.
  - intros m args Hm Ha. unfold native_str_identity. native.
  - intros m args Hm Ha. unfold native_bytes_debug. native.
  - intros m args Hm Ha. unfold native_str_concat.
    eapply safe_bind; [by apply concat_args_safe|]. intros s _. native.
  - intros m args Hm Ha. unfold native_eq. native.
    eapply safe_bind; [by apply values_eq_safe|]. intros b _. native.
  - apply str_to_value_ok. intros m s Hm. native.
  - apply str_to_value_ok. intros m s Hm. native.
  - intros m args Hm Ha. unfold native_str_compare. native. apply alloc_post; [done|done|by apply Forall_nil].
  - apply str_to_value_ok. intros m s Hm. destruct (as_bytes s); native.
    apply alloc_post; [done|done|by apply Forall_nil].
  - apply str_to_value_ok. intros m s Hm. native.
  - intros m args Hm Ha. unfold native_str_split. native.
  - apply str_to_value_ok. intros m s Hm. native.
  - apply str_to_value_ok. intros m s Hm. native.
  - intros m args Hm Ha. unfold native_str_from_chars. native.
    eapply safe_bind; [apply with_list_safe; [done|done|]; intros; apply push_chars_safe|]. intros s _. native.
  - apply str_to_value_ok. intros m s Hm. apply option_value_safe; [done|].
    intros v. by destruct (parse_i64 s) as [n|]; intros [= <-].
  - intros m args Hm Ha. unfold native_str_byte_slice. native.
Qed.

(** The natives on buffers, lists and numbers, and those on maps that compare no keys. *)
Definition collection_natives : list MemNative := [
  native_bytes_len vd; native_bytes_get vd; native_bytes_slice vd; native_bytes_concat vd;
  native_bytes_to_string vd; native_bytes_to_list vd; native_bytes_empty; native_bytes_from_list vd;
  native_bytesbuilder_new; native_bytesbuilder_write_u8 vd; native_bytesbuilder_write_bytes vd;
  native_bytesbuilder_write_str vd; native_bytesbuilder_len vd; native_bytesbuilder_finish vd;
  native_list_index vd; native_list_get vd; native_list_len; native_list_set vd; native_list_push;
  native_list_pop; native_list_clear; native_list_join f64_to_string vd;
  native_map_keys; native_map_values; native_map_clear; native_map_len;
  native_int_to_double vd; native_double_to_int vd; native_double_to_bits vd ].

Lemma ok_or_err_str_ok m (r : string + list u8) (f : list u8 → Obj) :
  mem_wf m → (∀ b, ObjShape (f b)) → (∀ b, for_each_child (f b) = []) →
  safe (step_post m)
    match r with
    | inr b => '(m, v) ← alloc m (f b); ok m v
    | inl msg => '(m, v) ← new_str m msg; err m v
    end.
Proof.
  intros Hm Hs Hf. destruct r as [msg|b]; apply alloc_bind_safe; try done; rewrite ?Hf; try by apply Forall_nil.
  all: intros m1 v Hm1 Hv _; apply alloc_post; [done|done|by apply Forall_singleton].
Qed.

Lemma bytes_to_string_ok : mem_native_ok (native_bytes_to_string vd).
Proof.
  intros m args Hm Ha. unfold native_bytes_to_string. native.
  destruct (utf8_valid _); apply alloc_bind_safe; try done; try by apply Forall_nil.
  all: intros m1 v Hm1 Hv _; apply alloc_post; [done|done|by apply Forall_singleton].
Qed.

Lemma bytes_from_list_ok : mem_native_ok (native_bytes_from_list vd).
Proof.
  intros m args Hm Ha. unfold native_bytes_from_list. native.
  eapply safe_bind; [apply with_list_safe; [done|done|]; intros; apply collect_bytes_safe|]. intros r _.
  by apply (ok_or_err_str_ok m r Bytes).
Qed.

Lemma builder_finish_ok : mem_native_ok (native_bytesbuilder_finish vd).
Proof.
  intros m args Hm Ha. unfold native_bytesbuilder_finish. native.
  eapply safe_mono; [apply alloc_post; [done|done|by apply Forall_nil]|]. intros r Hr. by eapply step_trans.
Qed.

Lemma checked_index_safe i n : safe (λ k, k < n)%nat (checked_index i n).
Proof. unfold checked_index. destruct (_ || _) eqn:Hr; [done|]. apply orb_false_iff in Hr. cbn.
  pose proof (as_unsigned_range 64 i ltac:(lia)) as Hu. unfold in_unsigned in Hu. lia. Qed.

Lemma list_index_ok : mem_native_ok (native_list_index vd).
Proof.
  intros m args Hm Ha. unfold native_list_index. native.
  eapply (safe_bind (λ v, live m v)); [|intros w Hw; native].
  apply with_list_ref_safe; [done|done|]. intros items Hi.
  eapply safe_bind; [apply checked_index_safe|]. intros k [w Hw]%lookup_lt_is_Some_2.
  apply (safe_or_panic _ _ w); [done|]. by eapply lives_lookup.
Qed.

Lemma list_get_ok : mem_native_ok (native_list_get vd).
Proof.
  intros m args Hm Ha. unfold native_list_get. native.
  eapply (safe_bind (λ o, ∀ v, o = Some v → live m v)); [|intros o Ho; by apply option_value_safe].
  apply with_list_safe; [done|done|]. intros items Hi.
  match goal with |- context [checked_index ?i ?n] => pose proof (checked_index_safe i n) as Hk end.
  destruct (checked_index _ _) as [k| | |]; try done.
  destruct (lookup_lt_is_Some_2 items k Hk) as [w Hw]. rewrite Hw. cbn.
  intros ? [= <-]. by eapply lives_lookup.
Qed.

(** A mutation of a list that returns [Unit]. *)
Lemma list_mut_ok m v who f :
  mem_wf m → live m v →
  (∀ xs, lives m xs → lives m (f xs).1 ∧ safe (λ u, u = Unit) (f xs).2) →
  safe (step_post m) (with_list_mut m v who f).
Proof.
  intros Hm Hv Hf. eapply safe_mono; [by apply with_list_mut_safe|]. intros [m' u] (? & -> & ? & ?). by split_and!.
Qed.

Lemma list_set_ok : mem_native_ok (native_list_set vd).
Proof.
  intros m args Hm Ha. unfold native_list_set. native. apply list_mut_ok; [done|done|]. intros xs Hxs.
  match goal with |- context [checked_index ?i ?n] => pose proof (checked_index_safe i n) as Hk end.
  destruct (checked_index _ _) as [k| | |]; try done. cbn in Hk.
  rewrite decide_True by done. split; [by apply Forall_insert|done].
Qed.

Lemma list_pop_ok : mem_native_ok native_list_pop.
Proof.
  intros m args Hm Ha. unfold native_list_pop. native.
  eapply safe_bind; [apply (with_list_mut_safe (λ o, ∀ v, o = Some v → live m v)); [done|done|]|].
  - intros xs Hxs. destruct (vec_pop xs) as [[rest x]|] eqn:Hp; [|done]. apply vec_pop_Some in Hp. subst.
    apply Forall_app in Hxs as [Hr [Hx _]%Forall_cons]. split; [done|]. cbn. by intros ? [= <-].
  - intros [m1 o] (Hm1 & Ho & Hk & Hr). eapply safe_mono; [apply option_value_safe; [done|]|].
    + intros v ->. apply Hk. by apply Ho.
    + intros r Hp. by eapply step_trans.
Qed.

Lemma list_join_safe : mem_native_ok (native_list_join f64_to_string vd).
Proof.
  intros m args Hm Ha. unfold native_list_join. native.
  eapply (safe_bind (λ _, True)); [|intros s _; native].
  apply with_list_safe; [done|done|]. intros items Hi.
  eapply safe_bind; [apply try_map_safe|done]. intros x Hx. apply (display_string_safe m Hm).
  rewrite Forall_forall in Hi. by apply Hi.
Qed.

Lemma map_list_ok who (f : Value * Value → Value) :
  (∀ e, f e = e.1 ∨ f e = e.2) →
  mem_native_ok (λ m args, v ← expect_one args who; vs ← with_map_ref m v who (λ mp, Ok (f <$> entries mp)); new_list m vs).
Proof.
  intros Hf m args Hm Ha. native. eapply (safe_bind (λ vs, lives m vs)).
  - apply with_map_ref_safe; [done|done|]. intros mp Hmp. cbn. rewrite Forall_fmap, Forall_forall.
    rewrite Forall_forall in Hmp. intros e He. cbn. apply Hmp. apply list_elem_of_bind. exists e.
    split; [|done]. destruct e as [k v]. destruct (Hf (k, v)) as [-> | ->]; set_solver.
  - intros vs Hvs. by apply alloc_post.
Qed.

Lemma map_clear_ok : mem_native_ok native_map_clear.
Proof.
  intros m args Hm Ha. unfold native_map_clear.
  eapply safe_bind; [by apply expect_one_safe|]. intros v Hv. destruct v as [| | | |h]; try done.
  unfold with_map_taken. cbn [map_handle mbind res_bind]. destruct Hv as [o Ho].
  destruct (take_restore (E:=Trap) m h o Ho) as (m1 & -> & _ & Hr). cbn [mbind res_bind].
  destruct o; try (by rewrite Hr). cbn [mbind res_bind]. rewrite Hr. cbn [mbind res_bind].
  assert (is_live (mem_slots m) h) as Hl by by eexists.
  assert (keeps_live m (put_obj m h (Some (Map (map_clear m0))))) as Hk.
  { intros v. by apply put_obj_live_value. }
  split_and!; [apply put_obj_wf; [exact map_default_shape|done|done|by apply Forall_nil]|done|done|]. split; [done|]. by intros _.
Qed.

Lemma bytes_natives_ok : Forall mem_native_ok (take 14 collection_natives).
Proof.
  cbn. repeat (apply Forall_cons; split); try apply Forall_nil; try done;
    try apply bytes_to_string_ok; try apply bytes_from_list_ok; try apply builder_finish_ok.
  - intros m args Hm Ha. unfold native_bytes_len. native_step.
    eapply (safe_bind (λ u, live m u)); [by apply with_bytes_safe|]. intros u Hu. native.
  - intros m args Hm Ha. unfold native_bytes_get. native. apply option_value_safe; [done|].
    intros w Hw. apply fmap_Some in Hw as (n & _ & ->). done.
  - intros m args Hm Ha. unfold native_bytes_slice. native.
  - intros m args Hm Ha. unfold native_bytes_concat. native.
  - intros m args Hm Ha. unfold native_bytes_to_list. native.
  - intros m args Hm Ha. unfold native_bytes_empty. native.
  - intros m args Hm Ha. apply alloc_post; [done|done|by apply Forall_nil].
  - intros m args Hm Ha. unfold native_bytesbuilder_write_u8. native.
  - intros m args Hm Ha. unfold native_bytesbuilder_write_bytes. native.
  - intros m args Hm Ha. unfold native_bytesbuilder_write_str. native.
  - intros m args Hm Ha. unfold native_bytesbuilder_len.
    eapply safe_bind; [by apply expect_one_safe|]. intros v Hv.
    eapply safe_mono; [by apply (with_builder_mut_safe vd (λ u, ∃ n, u = Int n)); eauto|].
    intros [m' u] (? & [n ->] & ? & ?). by split_and!.
Qed.

Lemma collection_natives_ok : Forall mem_native_ok collection_natives.
Proof.
  rewrite <-(take_drop 14 collection_natives). apply Forall_app. split; [apply bytes_natives_ok|].
  cbn. repeat (apply Forall_cons; split); try apply Forall_nil; try done;
    try apply list_index_ok; try apply list_get_ok; try apply list_set_ok; try apply list_pop_ok;
    try apply list_join_safe; try apply map_clear_ok.
  - intros m args Hm Ha. unfold native_list_len. native. eapply (safe_bind (λ u, live m u)); [|intros u Hu; native].
    by apply with_list_ref_safe.
  - intros m args Hm Ha. unfold native_list_push. native. apply list_mut_ok; [done|done|]. intros xs Hxs.
    split; [|done]. apply Forall_app. split; [done|]. by apply Forall_singleton.
  - intros m args Hm Ha. unfold native_list_clear. native. apply list_mut_ok; [done|done|]. intros xs Hxs.
    split; [by apply Forall_nil|done].
  - apply (map_list_ok "map.keys" fst). auto.
  - apply (map_list_ok "map.values" snd). auto.
  - intros m args Hm Ha. unfold native_map_len. native. eapply (safe_bind (λ u, live m u)); [|intros u Hu; native].
    by apply with_map_ref_safe.
  - intros m args Hm Ha. unfold native_int_to_double. native.
  - intros m args Hm Ha. unfold native_double_to_int. native.
  - intros m args Hm Ha. unfold native_double_to_bits. native.
Qed.
End mem_natives.
