(* ===== verification/MapSafe.v ===== *)
(** * Map operations stay in bounds

    Whatever the comparison of keys answers, an operation on a map in shape reads and
    writes within its vectors and leaves it in shape; and comparing and hashing live
    keys reads no empty slot.  From these the map natives keep the interpreter's
    invariant: a lookup always, a mutation if no key compared can reach the map, which is
    out of its slot meanwhile. *)

From Stdlib Require Import ZArith Lia.
From stdpp Require Import base numbers list strings gmap.
From S2P Require Import Prelude Bytes Float64 Instr ModuleTable Value Heap MapObj HeapProofs MapProofs Trap.
From S2P Require Import Scheduler SchedulerProofs SchedulerSpec Render Interp InterpProofs.
From S2P Require Import NativesBase NativesText NativesColl NativesSafe.

Open Scope Z_scope.

(** ** The operations *)

(** The keys and values satisfy [P]. *)
Definition holding (P : Value → Prop) (m : MapObj) : Prop := Forall P (for_each_child (Map m)).

Lemma holding_entries P m : holding P m ↔ Forall (λ e, P e.1 ∧ P e.2) (entries m).
Proof.
  unfold holding. cbn. induction (entries m) as [|[k v] es IH]; cbn; [done|].
  rewrite !Forall_cons, IH. tauto.
Qed.

Section ops.
Context {E : Type} (eqb : Value → Value → res E bool).

(** An index in range of [n] entries. *)
Definition indexes (n : nat) (ix : list Z) : Prop :=
  power_of_two (length ix) ∧ Forall (λ e, e = EMPTY ∨ 0 ≤ e < Z.of_nat n) ix.

(** The comparisons of a map's keys with [key] do not panic. *)
Definition comparable (m : MapObj) (key : Value) : Prop :=
  Forall (λ e, safe (λ _, True) (eqb e.1 key)) (entries m).

Lemma entry_matches_safe m i key hash : map_shape m → (i < length (entries m))%nat → comparable m key →
  safe (λ _, True) (entry_matches eqb m i key hash).
Proof.
  intros [Hh _ _] Hi Hc. unfold entry_matches.
  destruct (lookup_lt_is_Some_2 (hashes m) i) as [h ->]; [by rewrite Hh|]. cbn [or_panic mbind res_bind].
  destruct (h =? hash); [|done]. destruct (lookup_lt_is_Some_2 (entries m) i Hi) as [e He]. rewrite He.
  by apply (Forall_lookup_1 _ _ _ _ Hc He).
Qed.

Lemma find_linear_safe n m key hash : map_shape m → comparable m key → ∀ i, (i + n = length (entries m))%nat →
  safe (λ o, ∀ j, o = Some j → (j < length (entries m))%nat) (find_linear eqb n m i key hash).
Proof.
  intros Hm Hc. induction n as [|n IH]; intros i Hi; cbn [find_linear]; [done|].
  eapply safe_bind; [apply entry_matches_safe; [done|lia|done]|]. intros [] _; [|apply IH; lia].
  intros j [= <-]. lia.
Qed.

Lemma mask_slot n z : power_of_two n → (Z.to_nat (Z.land z (Z.of_nat n - 1)) < n)%nat.
Proof.
  intros Hp. rewrite land_mask by done. apply power_of_two_pos in Hp.
  pose proof (Z.mod_pos_bound z (Z.of_nat n)). lia.
Qed.

Lemma find_probe_safe fuel m key hash : map_shape m → comparable m key → indexes (length (entries m)) (index m) →
  ∀ slot, (Z.to_nat slot < length (index m))%nat →
  safe (λ o, ∀ j, o = Some j → (j < length (entries m))%nat) (find_probe eqb fuel m slot key hash).
Proof.
  intros Hm Hc [Hp Hix]. pose proof (shape_len _ Hm) as Hlen. induction fuel as [|fuel IH]; intros slot Hs; cbn [find_probe]; [done|].
  destruct (lookup_lt_is_Some_2 (index m) _ Hs) as [e He]. rewrite He. cbn [or_panic mbind res_bind].
  apply (Forall_lookup_1 _ _ _ _ Hix) in He as [->|He]; [done|]. destruct (Z.eqb_spec e EMPTY) as [->|_]; [done|].
  assert (as_u64 e = e) as -> by (apply Z.mod_small; lia).
  eapply safe_bind; [apply entry_matches_safe; [done|lia|done]|].
  intros [] _; [intros j [= <-]; lia|]. by apply IH, mask_slot.
Qed.

Lemma map_find_safe m key hash : map_shape m → comparable m key →
  safe (λ o, ∀ j, o = Some j → (j < length (entries m))%nat) (map_find eqb m key hash).
Proof.
  intros Hm Hc. unfold map_find. destruct (shape_index _ Hm) as [Hi|Hi].
  { rewrite Hi. cbn. by apply find_linear_safe. }
  destruct (Nat.eqb_spec (length (index m)) 0); [by apply find_linear_safe|].
  apply find_probe_safe; [done..|]. apply mask_slot, Hi.
Qed.

Lemma map_get_safe (P : Value → Prop) m key hash : map_shape m → comparable m key → Forall (λ e, P e.2) (entries m) →
  safe (λ o, ∀ v, o = Some v → P v) (map_get eqb m key hash).
Proof.
  intros Hm Hc Hp. eapply safe_bind; [by apply map_find_safe|]. intros [i|] Hi; [|done].
  destruct (lookup_lt_is_Some_2 (entries m) i (Hi i eq_refl)) as [e He]. rewrite He. cbn.
  intros v [= <-]. by apply (Forall_lookup_1 _ _ _ _ Hp He).
Qed.

Lemma map_contains_safe m key hash : map_shape m → comparable m key → safe (λ _, True) (map_contains eqb m key hash).
Proof. intros Hm Hc. eapply safe_bind; [by apply map_find_safe|]. done. Qed.

(** ** The index *)

Lemma probe_empty_safe fuel ix : power_of_two (length ix) → ∀ slot, (Z.to_nat slot < length ix)%nat →
  safe (λ s, (Z.to_nat s < length ix)%nat) (probe_empty (E:=E) fuel ix slot).
Proof.
  intros Hp. induction fuel as [|fuel IH]; intros slot Hs; cbn [probe_empty]; [done|].
  destruct (lookup_lt_is_Some_2 ix _ Hs) as [e ->]. cbn [or_panic mbind res_bind].
  destruct (e =? EMPTY); [done|]. by apply IH, mask_slot.
Qed.

Lemma index_insert_safe n ix i hash : indexes n ix → (i < n)%nat → Z.of_nat n < 2 ^ 31 →
  safe (indexes n) (index_insert (E:=E) ix i hash).
Proof.
  intros [Hp Hix] Hi Hn. unfold index_insert.
  eapply safe_bind; [apply probe_empty_safe; [done|by apply mask_slot]|]. intros slot Hs.
  split; [by rewrite length_insert|]. apply Forall_insert; [done|]. right.
  rewrite as_signed_id by (unfold in_signed; lia). lia.
Qed.

Lemma index_insert_all_safe n hs : ∀ ix i, indexes n ix → (i + length hs ≤ n)%nat → Z.of_nat n < 2 ^ 31 →
  safe (indexes n) (index_insert_all (E:=E) ix i hs).
Proof.
  induction hs as [|h hs IH]; intros ix i Hix Hi Hn; cbn [index_insert_all]; [done|]. cbn in Hi.
  eapply safe_bind; [apply (index_insert_safe n); [done|lia|done]|]. intros ix' Hix'. apply IH; [done|lia|done].
Qed.

Lemma rebuild_index_safe m : length (hashes m) = length (entries m) → Z.of_nat (length (entries m)) < 2 ^ 31 →
  safe (λ m', map_shape m' ∧ entries m' = entries m) (rebuild_index (E:=E) m).
Proof.
  intros Hh Hn. unfold rebuild_index. rewrite Hh, Nat.ltb_irrefl.
  destruct (index_capacity (length (entries m))) as (Hp & _ & _).
  eapply safe_bind.
  { apply (index_insert_all_safe (length (entries m))); [|rewrite length_take; lia|done].
    split; [by rewrite length_replicate|]. apply Forall_replicate. by left. }
  intros ix [Hpi Hix]. split; [|done]. constructor; [done|done|]. right. by split.
Qed.

(** ** Mutations *)

Lemma indexes_mono n n' ix : (n ≤ n')%nat → indexes n ix → indexes n' ix.
Proof. intros Hn [Hp Hix]. split; [done|]. eapply Forall_impl; [exact Hix|]. cbn. intros e [?|?]; [by left|right; lia]. Qed.

Lemma map_insert_safe P m key hash val :
  map_shape m → Z.of_nat (length (entries m)) + 1 < 2 ^ 31 → comparable m key → holding P m → P key → P val →
  safe (λ m', map_shape m' ∧ holding P m' ∧ (length (entries m') ≤ S (length (entries m)))%nat)
    (map_insert eqb m key hash val).
Proof.
  intros Hm Hn Hc Hh Hk Hv. unfold map_insert. pose proof (shape_hashes _ Hm) as Hlen.
  rewrite holding_entries in Hh. eapply safe_bind; [by apply map_find_safe|]. intros [i|] Hi.
  - destruct (lookup_lt_is_Some_2 (entries m) i (Hi i eq_refl)) as [e He]. rewrite He. cbn.
    split_and!; [|apply holding_entries; cbn; apply Forall_insert; [done|]; split; [|done]|cbn; rewrite length_insert; lia].
    + destruct Hm as [H1 H2 H3]. constructor; cbn; by rewrite length_insert.
    + by apply (Forall_lookup_1 _ _ _ _ Hh He).
  - set (m1 := mkMap (push (entries m) (key, val)) (push (hashes m) hash) (index m)).
    assert (length (entries m1) = S (length (entries m))) as Hl1 by (cbn; unfold push; rewrite length_app; cbn; lia).
    assert (length (hashes m1) = length (entries m1)) as Hl2
      by (rewrite Hl1; cbn; unfold push; rewrite length_app; cbn; lia).
    assert (Z.of_nat (length (entries m1)) < 2 ^ 31) as Hl3 by lia.
    assert (Forall (λ e, P e.1 ∧ P e.2) (entries m1)) as Hh1.
    { cbn. apply Forall_app. split; [done|]. by apply Forall_singleton. }
    assert (∀ m2, map_shape m2 ∧ entries m2 = entries m1 →
      map_shape m2 ∧ holding P m2 ∧ (length (entries m2) ≤ S (length (entries m)))%nat) as Hsame.
    { intros m2 [? He]. split_and!; [done|by rewrite holding_entries, He|rewrite He; lia]. }
    cbn zeta. change (entries m ++ [(key, val)]) with (entries m1).
    destruct (Nat.eqb_spec (length (index m1)) 0) as [Hz|Hz].
    + destruct (Nat.leb _ _); [eapply safe_mono; [by apply rebuild_index_safe|exact Hsame]|].
      apply Hsame. split; [|done]. constructor; [done|done|]. left. by apply nil_length_inv.
    + destruct (load_exceeded m1); [eapply safe_mono; [by apply rebuild_index_safe|exact Hsame]|].
      destruct (shape_index _ Hm) as [H0|Hix]; [cbn in Hz; by rewrite H0 in Hz|].
      eapply safe_bind; [apply (index_insert_safe (length (entries m1)) _ (length (entries m)))|].
      * apply (indexes_mono (length (entries m))); [lia|exact Hix].
      * lia.
      * done.
      * intros ix' Hix'. apply Hsame. split; [|done]. constructor; [done|done|by right].
Qed.

Lemma map_remove_safe P m key hash : map_shape m → comparable m key → holding P m →
  safe (λ '(m', o), map_shape m' ∧ holding P m' ∧ ∀ v, o = Some v → P v) (map_remove eqb m key hash).
Proof.
  intros Hm Hc Hh. unfold map_remove. pose proof (shape_hashes _ Hm) as Hlen. pose proof (shape_len _ Hm) as Hn.
  rewrite holding_entries in Hh. eapply safe_bind; [by apply map_find_safe|].
  intros [i|] Hi; [|split_and!; [done|by rewrite holding_entries|done]].
  specialize (Hi i eq_refl). destruct (lookup_lt_is_Some_2 (entries m) i Hi) as [e He].
  destruct (lookup_lt_is_Some_2 (hashes m) i) as [h Hhi]; [by rewrite Hlen|]. rewrite He, Hhi. cbn [or_panic mbind res_bind].
  set (m1 := mkMap (delete i (entries m)) (delete i (hashes m)) (index m)).
  assert (length (hashes m1) = length (entries m1)) as Hl by (cbn; rewrite !length_delete by eauto; lia).
  assert (Z.of_nat (length (entries m1)) < 2 ^ 31) as Hn1 by (cbn; rewrite length_delete by eauto; lia).
  assert (P e.2) as Hp by by apply (Forall_lookup_1 _ _ _ _ Hh He).
  eapply (safe_bind (λ m2, map_shape m2 ∧ entries m2 = entries m1)).
  - destruct (Nat.eqb_spec (length (index m1)) 0) as [Hz|]; [|by apply rebuild_index_safe].
    split; [|done]. constructor; [done|done|]. left. by apply nil_length_inv.
  - intros m2 [Hs2 He2]. split_and!; [done| |by intros v [= <-]]. rewrite holding_entries, He2. cbn. by apply Forall_delete.
Qed.
End ops.

(** ** Hashing and comparing keys *)

Lemma hash_seq_safe {E} (f : Value → u64 → res E u64) vs : (∀ v h, v ∈ vs → safe (λ _, True) (f v h)) →
  ∀ h, safe (λ _, True) (hash_seq f vs h).
Proof.
  induction vs as [|v vs IH]; intros Hf h; cbn [hash_seq]; [done|].
  eapply safe_bind; [apply Hf; set_solver|]. intros h' _. apply IH. set_solver.
Qed.

Lemma hash_into_safe fuel m : mem_wf m → ∀ v h, live m v →
  safe (E := Trap) (λ _, True) (hash_into fuel (mem_slots m) v h).
Proof.
  intros Hm. induction fuel as [|fuel IH]; intros v h Hv; destruct v; try done. cbn [hash_into].
  destruct Hv as [o Ho]. unfold lookup_obj. rewrite Ho. cbn [mbind res_bind].
  pose proof (wf_closed _ Hm _ _ Ho) as Hc. rewrite Forall_forall in Hc.
  destruct o; try done; cbn [hash_obj]; apply hash_seq_safe; intros x h' Hx; apply IH, Hc, Hx.
Qed.

(** [v] reaches the object at [h] in at most [n] steps. *)
Fixpoint touches (n : nat) (s : list (option Obj)) (h : nat) (v : Value) : bool :=
  match n, v with
  | S n', Ref k =>
      Nat.eqb k h || match s !! k with Some (Some o) => existsb (touches n' s h) (for_each_child o) | _ => false end
  | _, _ => false
  end.

(** Keys that do not touch the slot [h] are compared as if it were full. *)
Lemma values_eq_taken fuel m h x a b : mem_wf m → live m a → live m b →
  touches fuel (mem_slots m) h a = false → touches fuel (mem_slots m) h b = false →
  safe (E := Trap) (λ _, True) (values_eq fuel (<[h := x]> (mem_slots m)) a b).
Proof.
  intros Hm Ha Hb Hta Htb.
  apply (values_eq_on (λ n v, live m v ∧ touches n (mem_slots m) h v = false)); [|done..].
  intros n k [[o Ho] Ht]. cbn in Ht. rewrite Ho in Ht. apply orb_false_iff in Ht as [Hne Ht].
  apply Nat.eqb_neq in Hne. exists o. split; [by rewrite list_lookup_insert_ne|].
  pose proof (wf_closed _ Hm k o Ho) as Hc. rewrite Forall_forall in Hc. apply Forall_forall. intros v Hv.
  split; [by apply Hc|]. destruct (touches n (mem_slots m) h v) eqn:Hvt; [|done].
  rewrite (proj2 (existsb_exists _ _)) in Ht; [done|]. exists v. split; [by apply list_elem_of_In|done].
Qed.

(** ** The natives *)

Section natives.
Context `{Sizes}.
Variables (f64_to_string : f64 → string) (vd : Value → string) (fuel : nat).

(** A read of a map in shape. *)
Lemma with_map_ref_shape {R} (P : R → Prop) m v who (f : MapObj → res Trap R) : mem_wf m → live m v →
  (∀ mp, map_shape mp → holding (λ x, live m x) mp → safe P (f mp)) → safe P (with_map_ref m v who f).
Proof.
  intros Hm Hv Hf. unfold with_map_ref. destruct v as [| | | |h]; try done. cbn [map_handle mbind res_bind].
  apply safe_join. destruct Hv as [o Ho]. unfold with_obj, lookup_obj. rewrite Ho. cbn.
  destruct o; try done. apply Hf; [exact (wf_shapes _ Hm _ _ Ho)|exact (wf_closed _ Hm _ _ Ho)].
Qed.

Lemma live_comparable m mp key : mem_wf m → holding (λ x, live m x) mp → live m key →
  comparable (values_eq (E := Trap) fuel (mem_slots m)) mp key.
Proof.
  intros Hm Hh Hk. apply holding_entries in Hh. eapply Forall_impl; [exact Hh|]. intros e [He _]. by apply values_eq_safe.
Qed.

Lemma holding_values P mp : holding P mp → Forall (λ e, P e.2) (entries mp).
Proof. intros Hh%holding_entries. eapply Forall_impl; [exact Hh|]. by intros e [_ ?]. Qed.

#[local] Ltac key_step := eapply safe_bind; [by apply hash_into_safe|]; intros hash _.

Lemma native_map_index_ok : mem_native_ok (native_map_index f64_to_string fuel).
Proof.
  intros m args Hm Ha. unfold native_map_index. native_step. key_step.
  eapply (safe_bind (λ o, ∀ x, o = Some x → live m x)).
  - apply with_map_ref_shape; [done..|]. intros mp Hs Hh. apply map_get_safe; [done|by apply live_comparable|by apply holding_values].
  - intros [x|] Hx; [apply step_here; auto|]. eapply (safe_bind (λ _, True)); [|done].
    unfold key_label. destruct v0; try done. apply with_obj_safe; [done..|]. done.
Qed.

Lemma native_map_get_ok : mem_native_ok (native_map_get fuel).
Proof.
  intros m args Hm Ha. unfold native_map_get. native_step. key_step.
  eapply (safe_bind (λ o, ∀ x, o = Some x → live m x)); [|intros o Ho; by apply option_value_safe].
  apply with_map_ref_shape; [done..|]. intros mp Hs Hh. apply map_get_safe; [done|by apply live_comparable|by apply holding_values].
Qed.

Lemma native_map_has_ok : mem_native_ok (native_map_has fuel).
Proof.
  intros m args Hm Ha. unfold native_map_has. native_step. key_step.
  eapply (safe_bind (λ _, True)); [|intros b _; by apply step_here].
  apply with_map_ref_shape; [done..|]. intros mp Hs Hh. apply map_contains_safe; [done|by apply live_comparable].
Qed.

Lemma from_pairs_safe m pairs : mem_wf m → Forall (λ p, live m p.1 ∧ live m p.2) pairs →
  Z.of_nat (length pairs) < 2 ^ 31 →
  safe (E := Trap) (λ mp, map_shape mp ∧ holding (λ x, live m x) mp)
    (from_pairs (values_eq fuel (mem_slots m)) (hash_value fuel (mem_slots m)) pairs).
Proof.
  intros Hm Hp Hn. unfold from_pairs. set (inv := λ mp, map_shape mp ∧ holding (λ x, live m x) mp ∧
    Z.of_nat (length (entries mp)) + Z.of_nat (length pairs) < 2 ^ 31).
  assert (safe (E := Trap) inv (Ok map_default)) as Hr by (split_and!; [exact map_default_shape|by apply Forall_nil|done]).
  revert Hr. unfold inv. clear inv Hn. generalize (Ok (E := Trap) map_default). induction Hp as [|p pairs [Hk Hv] _ IH]; intros r Hr; cbn [foldl].
  { eapply safe_mono; [exact Hr|]. intros mp (? & ? & _). done. }
  apply IH. eapply safe_bind; [exact Hr|]. intros mp (Hs & Hh & Hn). cbn [length] in Hn. key_step.
  eapply safe_mono; [apply (map_insert_safe _ (λ x, live m x)); [done|lia|by apply live_comparable|done..]|].
  intros mp' (? & ? & ?). split_and!; [done|done|lia].
Qed.

Lemma chunks2_live m n args : (length args ≤ n)%nat → lives m args →
  Forall (λ p, live m p.1 ∧ live m p.2) (chunks2 args) ∧ (length (chunks2 args) ≤ length args)%nat.
Proof.
  revert args. induction n as [|n IH]; intros [|k [|v args]] Hn Ha; cbn in *; try (split; [by apply Forall_nil|lia]); try lia.
  apply Forall_cons in Ha as [Hk [Hv Ha]%Forall_cons]. destruct (IH args) as [Hc Hl]; [lia|done|].
  split; [by apply Forall_cons|lia].
Qed.

Lemma map_new_safe m args : mem_wf m → lives m args → Z.of_nat (length args) < 2 ^ 31 →
  safe (step_post m) (native_map_new fuel m args).
Proof.
  intros Hm Ha Hn. unfold native_map_new. destruct (negb _); [done|].
  destruct (chunks2_live m (length args) args) as [Hc Hl]; [done|done|].
  eapply safe_bind; [apply from_pairs_safe; [done|done|lia]|]. intros mp [Hs Hh]. by apply alloc_post.
Qed.

(** A mutation of the map at [h], on the heap without it. *)
Lemma with_map_taken_safe {R} (P : R → Prop) m h who (f : Mem → MapObj → res Trap (MapObj * R)) :
  mem_wf m → live m (Ref h) →
  (∀ mp, mem_slots m !! h = Some (Some (Map mp)) → map_shape mp → holding (λ x, live m x) mp →
    safe (λ '(mp', r), map_shape mp' ∧ holding (λ x, live m x) mp' ∧ P r) (f (put_obj m h None) mp)) →
  safe (λ '(m', r), mem_wf m' ∧ keeps_live m m' ∧ mem_rel m m' ∧ P r) (with_map_taken m (Ref h) who f).
Proof.
  intros Hm [o Ho] Hf. unfold with_map_taken. cbn [map_handle mbind res_bind].
  destruct (take_restore (E:=Trap) m h o Ho) as (m1 & Ht & _ & Hr). rewrite Ht. cbn [mbind res_bind].
  assert (m1 = put_obj m h None) as ->.
  { unfold take_obj, lookup_obj in Ht. rewrite Ho in Ht. by injection Ht. }
  destruct o; try (by rewrite Hr).
  eapply safe_bind; [apply Hf; [done|exact (wf_shapes _ Hm _ _ Ho)|exact (wf_closed _ Hm _ _ Ho)]|].
  intros [mp' r] (Hs & Hh & Hp). rewrite Hr. cbn [mbind res_bind].
  assert (is_live (mem_slots m) h) as Hl by by eexists.
  assert (keeps_live m (put_obj m h (Some (Map mp')))) as Hk by (intros x; by apply put_obj_live_value).
  split_and!; [by apply put_obj_wf|done| |done]. split; [done|]. by intros _.
Qed.

(** The key or a key of the map reaches the map, or the map is full. *)
Definition map_clash (m : Mem) (args : list Value) : bool :=
  match args with
  | Ref h :: key :: _ =>
      match mem_slots m !! h with
      | Some (Some (Map mp)) =>
          touches fuel (mem_slots m) h key || existsb (λ e, touches fuel (mem_slots m) h e.1) (entries mp) ||
          (2 ^ 31 - 1 <=? Z.of_nat (length (entries mp)))
      | _ => false
      end
  | _ => false
  end.

Lemma clash_free m h key rest mp : mem_wf m → live m key → map_clash m (Ref h :: key :: rest) = false →
  mem_slots m !! h = Some (Some (Map mp)) → holding (λ x, live m x) mp →
  comparable (values_eq (E := Trap) fuel (mem_slots (put_obj m h None))) mp key ∧
  Z.of_nat (length (entries mp)) + 1 < 2 ^ 31.
Proof.
  intros Hm Hk Hc Ho Hh. cbn in Hc. rewrite Ho in Hc. apply orb_false_iff in Hc as [[Hkt Hes]%orb_false_iff Hn].
  apply Z.leb_gt in Hn. split; [|lia]. apply holding_entries in Hh. rewrite Forall_forall in Hh.
  apply Forall_forall. intros e He. apply values_eq_taken; [done|by apply Hh|done| |done].
  destruct (touches fuel (mem_slots m) h e.1) eqn:Het; [|done].
  rewrite (proj2 (existsb_exists _ _)) in Hes; [done|]. exists e. split; [by apply list_elem_of_In|done].
Qed.

Lemma map_set_safe m args : mem_wf m → lives m args → map_clash m args = false →
  safe (step_post m) (native_map_set fuel m args).
Proof.
  intros Hm Ha Hc. unfold native_map_set. destruct args as [|map [|key [|val []]]]; try done.
  apply Forall_cons in Ha as [Hmap [Hk [Hv _]%Forall_cons]%Forall_cons]. cbn [args3 mbind res_bind]. key_step.
  destruct map as [| | | |h]; try done.
  eapply safe_mono; [apply (with_map_taken_safe (λ r, r = Unit)); [done|done|]|].
  - intros mp Ho Hs Hh. destruct (clash_free m h key [val] mp Hm Hk Hc Ho Hh) as [Hcm Hn].
    eapply safe_bind; [by apply (map_insert_safe _ (λ x, live m x))|]. intros mp' (? & ? & _). done.
  - by intros [m' r] (? & ? & ? & ->).
Qed.

Lemma map_remove_native_safe m args : mem_wf m → lives m args → map_clash m args = false →
  safe (step_post m) (native_map_remove fuel m args).
Proof.
  intros Hm Ha Hc. unfold native_map_remove. destruct args as [|map [|key []]]; try done.
  apply Forall_cons in Ha as [Hmap [Hk _]%Forall_cons]. cbn [args2 mbind res_bind]. key_step.
  destruct map as [| | | |h]; try done.
  eapply safe_bind; [apply (with_map_taken_safe (λ o, ∀ x, o = Some x → live m x)); [done|done|]|].
  - intros mp Ho Hs Hh. destruct (clash_free m h key [] mp Hm Hk Hc Ho Hh) as [Hcm Hn].
    by apply map_remove_safe.
  - intros [m' o] (Hm' & Hkl & Hr & Ho). eapply safe_mono; [apply option_value_safe; [done|]|].
    + intros x Hx. by apply Hkl, Ho.
    + intros r Hp. by eapply step_trans.
Qed.
End natives.
