(* ===== verification/NativesWorld.v ===== *)
(** * The natives on the scheduler and the console

    They keep the invariant of the whole world; the blocking ones change nothing but
    the park request when they must wait, so running them again is harmless; a capture
    collects exactly what is printed inside it. *)

From Stdlib Require Import ZArith Lia.
From stdpp Require Import base numbers list strings gmap pretty.
From S2P Require Import Prelude Bytes Float64 Instr ModuleTable Value Utf8 Heap HeapProofs MapObj Trap.
From S2P Require Import Scheduler SchedulerProofs SchedulerSpec Render Interp InterpProofs Driver DriverProofs.
From S2P Require Import NativesBase NativesText NativesColl NativesFiber NativesFacts NativesSafe.

Open Scope Z_scope.

(** What the console may not do: touch the jobs in flight. *)
Record console_ok {Job Payload Ext} `{Console Ext} (outside : Outside Job Payload Ext) : Prop := {
  ck_capture : ∀ e c, kept outside e (set_capture e c);
  ck_flush : ∀ e, kept outside e (flush_out e).1;
  ck_stderr : ∀ e b, kept outside e (stderr_write e b).1;
  ck_now : ∀ e, kept outside e (instant_now e).1;
  ck_millis : ∀ e, kept outside e (unix_millis e).1;
  ck_nanos : ∀ e, kept outside e (unix_nanos e).1;
  ck_entropy : ∀ e, kept outside e (count_entropy e).1;
}.

Section world.
Context `{Sizes} {Job Payload Ext : Type} `{!Console Ext}.
Context (outside : Outside Job Payload Ext) (module : Module) (cur : option nat).
Implicit Types (w : World (Job := Job) (Payload := Payload) (Ext := Ext)).
Context (Hcon : console_ok outside) (vd : Value → string).

#[local] Abbreviation World := (World (Job := Job) (Payload := Payload) (Ext := Ext)).
#[local] Abbreviation Native := (Native (Job := Job) (Payload := Payload) (Ext := Ext)).
#[local] Abbreviation native_ok := (native_ok outside module cur).
#[local] Abbreviation world_ok := (world_ok outside module cur).

(** What a native returns from the world [w]. *)
Definition native_post (w : World) (r : World * Value) : Prop :=
  world_ok r.1 ∧ live (w_mem r.1) r.2 ∧ keeps_live (w_mem w) (w_mem r.1) ∧ mem_rel (w_mem w) (w_mem r.1).

Lemma native_ok_post (f : Native) :
  (∀ w args, world_ok w → lives (w_mem w) args → safe (native_post w) (f w args)) →
  native_ok f.
Proof. intros Hf w args Hw _ Ha. eapply safe_mono; [by apply Hf|]. by intros [w' v]. Qed.

(** The heap is the same and the result live. *)
Lemma post_here w w' v : world_ok w' → w_mem w' = w_mem w → live (w_mem w) v → native_post w (w', v).
Proof.
  intros Hw Hm Hv. unfold native_post. cbn. rewrite Hm.
  split_and!; [done|done|apply keeps_live_refl|apply mem_rel_refl].
Qed.

(** A step of the heap inside the world. *)
Lemma post_mem w m v : world_ok w → step_post (w_mem w) (m, v) → native_post w (set_w_mem w m, v).
Proof.
  intros Hw (Hm & Hv & Hk & Hr). unfold native_post. cbn in *. split_and!; try done.
  apply world_ok_mem; [done|done|]. eapply keeps_live_Forall; [exact Hk|apply Hw].
Qed.

Lemma mem_native_world f : mem_native_ok f → native_ok (on_mem f).
Proof.
  intros Hf. apply native_ok_post. intros w args Hw Ha. unfold on_mem.
  eapply safe_bind; [apply Hf; [apply Hw|done]|]. intros [m v] Hp. by apply post_mem.
Qed.

Lemma world_park w req : world_ok w → park_ok outside (w_ext w) req → world_ok (park_with w req).
Proof. intros [Hm Hr Hs Hf Hp Hio] Hreq. constructor; try done. by intros ? [= <-]. Qed.

Lemma world_console w e : world_ok w → kept outside (w_ext w) e → world_ok (set_w_ext w e).
Proof. intros Hw He. by apply world_ext. Qed.

Lemma world_out w out : world_ok w → world_ok (set_w_out w out).
Proof. intros [Hm Hr Hs Hf Hp Hio]. by constructor. Qed.

Lemma emit_stdout_ok w b :
  world_ok w → world_ok (emit_stdout w b).1 ∧ w_mem (emit_stdout w b).1 = w_mem w ∧
  w_sched (emit_stdout w b).1 = w_sched w.
Proof.
  intros Hw. unfold emit_stdout. destruct (vec_pop _) as [[rest buf]|].
  - split; [|done]. apply world_console; [done|apply (ck_capture _ Hcon)].
  - destruct (out_error _ _); [done|]. split; [by apply world_out|done].
Qed.

(** *** Console *)

Lemma print_native_ok who tail : native_ok (print_native vd who tail).
Proof.
  apply native_ok_post. intros w args Hw Ha. unfold print_native.
  pose proof (wd_mem _ _ _ _ Hw) as Hm. native_step. native_step.
  match goal with |- context [emit_stdout w ?b] => pose proof (emit_stdout_ok w b Hw) as He end.
  destruct (emit_stdout w _) as [w' [e|]]; [done|]. destruct He as (? & ? & _). by apply post_here.
Qed.

Lemma eprint_native_ok who tail : native_ok (eprint_native vd who tail).
Proof.
  apply native_ok_post. intros w args Hw Ha. unfold eprint_native.
  pose proof (wd_mem _ _ _ _ Hw) as Hm. native_step. native_step.
  pose proof (ck_flush _ Hcon (w_ext w)) as Hf. destruct (flush_out (w_ext w)) as [e1 r].
  match goal with |- context [stderr_write e1 ?b] => pose proof (ck_stderr _ Hcon e1 b) as He end.
  destruct (stderr_write e1 _) as [e2 [r2|]]; [done|]. cbn in *.
  apply post_here; [|done|done]. apply world_console; [done|by eapply kept_trans].
Qed.

Lemma capture_begin_ok : native_ok native_test_capture_begin.
Proof.
  apply native_ok_post. intros w args Hw Ha. destruct args; [|done].
  apply post_here; [|done|done]. apply world_console; [done|apply (ck_capture _ Hcon)].
Qed.

Lemma post_ext w e m v :
  world_ok w → kept outside (w_ext w) e → step_post (w_mem w) (m, v) →
  native_post w (set_w_mem (set_w_ext w e) m, v).
Proof.
  intros Hw He Hp. pose proof (world_console w e Hw He) as Hw1. by apply (post_mem (set_w_ext w e)).
Qed.

Lemma capture_end_ok : native_ok native_test_capture_end.
Proof.
  apply native_ok_post. intros w args Hw Ha. destruct args; [|done]. cbn [native_test_capture_end].
  eapply (safe_bind (λ _, True)); [by apply safe_ok_or|]. intros [rest buf] _.
  eapply safe_bind; [apply (alloc_post (w_mem w)); [apply Hw|done|by apply Forall_nil]|]. intros [m v] Hp.
  apply post_ext; [done|apply (ck_capture _ Hcon)|done].
Qed.

Lemma write_result_ok (w w' : World) stream data e :
  world_ok w' → w_mem w' = w_mem w → safe (native_post w) (write_result w' stream data e).
Proof.
  intros Hw' Hmem. pose proof (wd_mem _ _ _ _ Hw') as Hm. unfold write_result.
  eapply (safe_bind (step_post (w_mem w'))).
  - destruct e as [e|].
    + apply alloc_bind_safe; [done|done|by apply Forall_nil|]. intros m1 v Hm1 Hv _.
      apply alloc_post; [done|done|by apply Forall_singleton].
    + apply alloc_post; [done|done|by apply Forall_singleton].
  - intros [m v] Hp. pose proof (post_mem w' m v Hw' Hp) as Hn. unfold native_post in *. by rewrite <-Hmem.
Qed.

Lemma io_stdout_write_ok : native_ok (native_io_stdout_write vd).
Proof.
  apply native_ok_post. intros w args Hw Ha. unfold native_io_stdout_write.
  pose proof (wd_mem _ _ _ _ Hw) as Hm. native_step. native_step.
  match goal with |- context [emit_stdout w ?b] => pose proof (emit_stdout_ok w b Hw) as He end.
  destruct (emit_stdout w _) as [w' [e|]]; destruct He as (Hw' & Hm' & _).
  - by apply write_result_ok.
  - pose proof (ck_flush _ Hcon (w_ext w')) as Hf. destruct (flush_out (w_ext w')) as [e1 r].
    apply write_result_ok; [|done]. by apply world_console.
Qed.

Lemma io_stderr_write_ok : native_ok (native_io_stderr_write vd).
Proof.
  apply native_ok_post. intros w args Hw Ha. unfold native_io_stderr_write.
  pose proof (wd_mem _ _ _ _ Hw) as Hm. native_step. native_step.
  match goal with |- context [stderr_write ?e ?b] => pose proof (ck_stderr _ Hcon e b) as He end.
  destruct (stderr_write _ _) as [e1 r]. apply write_result_ok; [|done]. by apply world_console.
Qed.

(** *** Fibers and time *)

Lemma world_clock w (r : Ext * Z) : world_ok w → kept outside (w_ext w) r.1 → world_ok (set_w_ext w r.1).
Proof. intros. by apply world_console. Qed.

Lemma join_live w id v : world_ok w → fiber_result (w_sched w) id = Some v → live (w_mem w) v.
Proof.
  intros Hw Hv%result_state. pose proof (wd_roots _ _ _ _ Hw) as [Hr _]%roots_ok.
  specialize (Hr id _ Hv). cbn in Hr. by apply Forall_cons in Hr as [? _].
Qed.

Lemma fiber_join_safe w args : world_ok w → lives (w_mem w) args → safe (native_post w) (native_fiber_join vd w args).
Proof.
  intros Hw Ha. unfold native_fiber_join.
  pose proof (wd_mem _ _ _ _ Hw) as Hm. native_step. native_step.
  destruct (fiber_result _ _) as [u|] eqn:Hu; apply post_here; try done.
  - by eapply join_live.
  - by apply world_park.
Qed.
Lemma fiber_join_ok : native_ok (native_fiber_join vd).
Proof. apply native_ok_post, fiber_join_safe. Qed.

Lemma fiber_is_done_safe w args : world_ok w → lives (w_mem w) args → safe (native_post w) (native_fiber_is_done vd w args).
Proof.
  intros Hw Ha. unfold native_fiber_is_done.
  pose proof (wd_mem _ _ _ _ Hw) as Hm. native_step. native_step. by apply post_here.
Qed.
Lemma fiber_is_done_ok : native_ok (native_fiber_is_done vd).
Proof. apply native_ok_post, fiber_is_done_safe. Qed.

Lemma fiber_yield_safe w args : world_ok w → lives (w_mem w) args → safe (native_post w) (native_fiber_yield w args).
Proof.
  intros Hw Ha. unfold native_fiber_yield. destruct args; [|done].
  apply post_here; try done. by apply world_park.
Qed.
Lemma fiber_yield_ok : native_ok native_fiber_yield.
Proof. apply native_ok_post, fiber_yield_safe. Qed.

Lemma now_millis_ok : native_ok native_time_now_millis.
Proof.
  apply native_ok_post. intros w args Hw Ha. unfold native_time_now_millis. destruct args; [|done].
  cbn [expect_no_args mbind res_bind]. pose proof (ck_millis _ Hcon (w_ext w)) as Hi.
  destruct (unix_millis (w_ext w)) as [e n]. apply post_here; try done. by apply world_console.
Qed.

Lemma sleep_millis_ok : native_ok (native_time_sleep_millis vd).
Proof.
  apply native_ok_post. intros w args Hw Ha. unfold native_time_sleep_millis.
  pose proof (wd_mem _ _ _ _ Hw) as Hm. native_step. native_step.
  destruct (0 <? _); [|by apply post_here]. unfold deadline_after.
  pose proof (ck_now _ Hcon (w_ext w)) as Hi. destruct (instant_now (w_ext w)) as [e t].
  apply post_here; try done. apply world_park; [by apply world_console|done].
Qed.

(** Waiting on sockets needs the poller. *)
Lemma select_parks w handles deadline :
  world_ok w → (handles ≠ [] → polling outside (w_ext w)) →
  safe (E := Trap) (native_post w)
    (let (w, deadline) :=
       if deadline <? 0 then (w, None)
       else
         let (e, now) := unix_millis (w_ext w) in
         let remaining := Z.max (as_i64 (deadline - now)) 0 in
         let (w, d) := deadline_after (set_w_ext w e) remaining in
         (w, Some d) in
     Ok (park_with w (Multi deadline handles), Unit)).
Proof.
  intros Hw Hpoll. destruct (_ <? 0).
  - apply post_here; try done. by apply world_park.
  - pose proof (ck_millis _ Hcon (w_ext w)) as Hi. destruct (unix_millis (w_ext w)) as [e1 t1].
    unfold deadline_after. cbn [w_ext set_w_ext]. pose proof (ck_now _ Hcon e1) as Hi1.
    destruct (instant_now e1) as [e2 t2]. cbn in *. apply post_here; try done.
    pose proof (kept_trans _ _ _ _ _ _ _ Hi Hi1) as Hi2.
    apply world_park; [|intros Hne; eapply kept_polling; [exact Hi2|by apply Hpoll]].
    by apply (world_console (set_w_ext w e1)); [apply world_console|].
Qed.

(** A wait on no socket, or with the poller there. *)
Lemma select_park_safe w args :
  world_ok w → lives (w_mem w) args →
  polling outside (w_ext w) ∨ (∃ h rest, args = Ref h :: rest ∧ mem_slots (w_mem w) !! h = Some (Some (List []))) →
  safe (native_post w) (native_select_park vd w args).
Proof.
  intros Hw Ha Hpoll. unfold native_select_park. pose proof (wd_mem _ _ _ _ Hw) as Hm.
  destruct args as [|hv [|dv []]]; try done. apply Forall_cons in Ha as [Hhv _]. cbn [args2 mbind res_bind].
  eapply (safe_bind (λ hs, hs ≠ [] → polling outside (w_ext w))).
  - destruct Hpoll as [Hpoll|(h & rest & [= -> _] & Hh)].
    + apply with_list_safe; [done|done|]. intros items Hi. eapply safe_mono; [apply try_map_safe; intros x _; apply as_int_safe|done].
    + unfold with_list, clone_obj, lookup_obj. rewrite Hh. by intros [].
  - intros handles Hhs. native_step. by apply select_parks.
Qed.

Lemma seed_entropy_ok : native_ok native_random_seed_entropy.
Proof.
  apply native_ok_post. intros w args Hw Ha. unfold native_random_seed_entropy. destruct args; [|done].
  cbn [expect_no_args mbind res_bind]. pose proof (ck_nanos _ Hcon (w_ext w)) as Hi.
  destruct (unix_nanos (w_ext w)) as [e n]. pose proof (ck_entropy _ Hcon e) as Hi1.
  destruct (count_entropy e) as [e1 k]. cbn in *. apply post_here; try done.
  apply world_console; [done|by eapply kept_trans].
Qed.

(** *** Channels *)

Lemma world_channels w chs :
  world_ok w → Forall (λ c, lives (w_mem w) (buffer c)) chs →
  world_ok (set_w_sched w (set_channels (w_sched w) chs)).
Proof.
  intros Hw Hc. destruct (wd_sched _ _ _ _ Hw) as [Hinv Hrun]. constructor; cbn; try apply Hw.
  - apply (proj2 (roots_ok (w_mem w) (set_channels (w_sched w) chs))). split; [|done].
    by pose proof (wd_roots _ _ _ _ Hw) as [Hr _]%roots_ok.
  - split; [by apply set_channels_inv|done].
Qed.

(** New channel contents and a wake of the blocked fibers. *)
Lemma world_wake_all w chs s' :
  world_ok w → Forall (λ c, lives (w_mem w) (buffer c)) chs →
  wake_all (set_channels (w_sched w) chs) = Ok s' → world_ok (set_w_sched w s').
Proof.
  intros Hw Hc Hs. pose proof (world_channels w chs Hw Hc) as Hw1.
  destruct (wd_sched _ _ _ _ Hw1) as [Hinv Hrun]. cbn in Hinv, Hrun.
  apply (world_sched module outside cur cur (set_w_sched w (set_channels (w_sched w) chs))); [done| |].
  - by eapply wake_all_rel.
  - destruct (wake_all_inv _ Hinv) as (s2 & H2 & Hinv2 & _ & Hst). rewrite Hs in H2. injection H2 as <-.
    split; [done|]. by eapply running_same.
Qed.

Lemma channel_buffers w : world_ok w → Forall (λ c, lives (w_mem w) (buffer c)) (channels (w_sched w)).
Proof. intros Hw. by pose proof (wd_roots _ _ _ _ Hw) as [_ ?]%roots_ok. Qed.

Lemma channel_new_safe w args : world_ok w → lives (w_mem w) args → safe (native_post w) (native_channel_new vd w args).
Proof.
  intros Hw Ha. unfold native_channel_new.
  pose proof (wd_mem _ _ _ _ Hw) as Hm. native_step. native_step. cbn [channel_new].
  apply post_here; try done. apply world_channels; [done|]. apply Forall_app.
  split; [by apply channel_buffers|by apply Forall_singleton, Forall_nil].
Qed.
Lemma channel_new_ok : native_ok (native_channel_new vd).
Proof. apply native_ok_post, channel_new_safe. Qed.

(** The channel a native names exists. *)
Definition channel_arg w (args : list Value) : Prop :=
  ∀ id rest, args = Int id :: rest → (as_index id < length (channels (w_sched w)))%nat.

Lemma channel_lookup w id rest :
  channel_arg w (Int id :: rest) → ∃ ch, channels (w_sched w) !! as_index id = Some ch.
Proof. intros Hc. apply lookup_lt_is_Some_2. by eapply Hc. Qed.

Lemma channel_at w i ch :
  world_ok w → channels (w_sched w) !! i = Some ch → lives (w_mem w) (buffer ch).
Proof. intros Hw Hch. pose proof (channel_buffers w Hw) as Hb. rewrite Forall_lookup in Hb. by eapply Hb. Qed.

Lemma channels_wake w chs : world_ok w → ∃ s', wake_all (set_channels (w_sched w) chs) = Ok s'.
Proof.
  intros Hw. destruct (wd_sched _ _ _ _ Hw) as [Hinv _].
  destruct (wake_all_inv (set_channels (w_sched w) chs)) as (s' & ? & _); [by apply set_channels_inv|eauto].
Qed.

Lemma set_same_sched w : set_w_sched w (w_sched w) = w.
Proof. by destruct w. Qed.

(** Run the wake of the goal; the new buffers are left to prove live. *)
Ltac wake_up w Hw s' Hcs :=
  match goal with |- context [set_channels _ ?cs] =>
    let Hs := fresh in
    destruct (channels_wake w cs Hw) as [s' Hs]; rewrite Hs;
    assert (Forall (λ c, lives (w_mem w) (buffer c)) cs) as Hcs
  end.

Lemma channel_send_safe w args :
  world_ok w → lives (w_mem w) args → channel_arg w args → safe (native_post w) (native_channel_send vd w args).
Proof.
  intros Hw Ha Hc. destruct args as [|idv [|value []]]; try done.
  unfold native_channel_send. cbn [args2 mbind res_bind]. destruct idv as [id| | | |]; try done.
  cbn [as_int mbind res_bind]. destruct (channel_lookup w id _ Hc) as [ch Hch].
  apply Forall_cons in Ha as [_ [Hv _]%Forall_cons].
  unfold chan_send. rewrite Hch. cbn [or_panic mbind res_bind]. destruct (closed ch); [done|].
  destruct (Nat.ltb _ _).
  - wake_up w Hw s' Hcs.
    { apply Forall_insert; [by apply channel_buffers|]. cbn. apply Forall_app.
      split; [exact (channel_at w _ ch Hw Hch)|by apply Forall_singleton]. }
    cbn [mbind res_bind]. apply post_here; try done. by eapply world_wake_all.
  - cbn [mbind res_bind]. rewrite set_same_sched. apply post_here; try done. by apply world_park.
Qed.

Lemma channel_receive_safe w args :
  world_ok w → lives (w_mem w) args → channel_arg w args → safe (native_post w) (native_channel_receive vd w args).
Proof.
  intros Hw Ha Hc. destruct args as [|idv []]; try done.
  unfold native_channel_receive. cbn [expect_one mbind res_bind]. destruct idv as [id| | | |]; try done.
  cbn [as_int mbind res_bind]. destruct (channel_lookup w id _ Hc) as [ch Hch].
  pose proof (wd_mem _ _ _ _ Hw) as Hm. unfold chan_receive. rewrite Hch. cbn [or_panic mbind res_bind].
  pose proof (channel_at w _ ch Hw Hch) as Hb. destruct (buffer ch) as [|u rest].
  - cbn [mbind res_bind]. rewrite set_same_sched. destruct (closed ch).
    + eapply safe_bind; [apply (alloc_post (w_mem w)); [done|done|by apply Forall_nil]|]. intros [m v] Hp. by apply post_mem.
    + apply post_here; try done. by apply world_park.
  - apply Forall_cons in Hb as [Hu Hrest]. wake_up w Hw s' Hcs.
    { apply Forall_insert; [by apply channel_buffers|done]. }
    cbn [mbind res_bind]. eapply safe_bind; [apply (alloc_post (w_mem w)); [done|done|by apply Forall_singleton]|].
    intros [m v] Hp. apply (post_mem (set_w_sched w s')); [by eapply world_wake_all|done].
Qed.

Lemma channel_close_safe w args :
  world_ok w → lives (w_mem w) args → channel_arg w args → safe (native_post w) (native_channel_close vd w args).
Proof.
  intros Hw Ha Hc. destruct args as [|idv []]; try done.
  unfold native_channel_close. cbn [expect_one mbind res_bind]. destruct idv as [id| | | |]; try done.
  cbn [as_int mbind res_bind]. destruct (channel_lookup w id _ Hc) as [ch Hch].
  unfold chan_close. rewrite Hch. cbn [or_panic mbind res_bind].
  wake_up w Hw s' Hcs.
  { apply Forall_insert; [by apply channel_buffers|exact (channel_at w _ ch Hw Hch)]. }
  cbn [mbind res_bind]. apply post_here; try done. by eapply world_wake_all.
Qed.

Lemma chan_is_ready_safe w args :
  world_ok w → lives (w_mem w) args → channel_arg w args → safe (native_post w) (native_chan_is_ready vd w args).
Proof.
  intros Hw Ha Hc. destruct args as [|idv []]; try done.
  unfold native_chan_is_ready. cbn [expect_one mbind res_bind]. destruct idv as [id| | | |]; try done.
  cbn [as_int mbind res_bind]. destruct (channel_lookup w id _ Hc) as [ch Hch].
  unfold chan_ready. rewrite Hch. cbn [or_panic mbind res_bind]. by apply post_here.
Qed.

Lemma fiber_spawn_safe w args c :
  cur = Some c → world_ok w → lives (w_mem w) args → Z.of_nat (length (fibers (w_sched w))) < 2 ^ 64 - 1 →
  safe (native_post w) (native_fiber_spawn w args).
Proof.
  intros Hcur Hw Ha Hsz. destruct args as [|v []]; try done.
  unfold native_fiber_spawn. cbn [expect_one mbind res_bind]. apply Forall_cons in Ha as [Hv _].
  pose proof (wd_sched _ _ _ _ Hw) as Hcfg.
  destruct (spawn_inv (w_sched w) v (proj1 Hcfg) Hsz) as (s' & Hs & _). rewrite Hs. cbn [mbind res_bind].
  apply post_here; try done.
  set (fb := mkFiber (NotStarted v) None false None : Fiber Payload Ext).
  set (s1 := set_fibers (w_sched w) (fibers (w_sched w) ++ [fb])).
  assert (sched_rel False (state_ok module (w_mem w)) s1 s') as [Hch Hp Hst Hpb].
  { unfold spawn in Hs. apply bind_ok in Hs as (s2 & Hmr & [= <-]). by eapply make_ready_rel. }
  assert (∀ k f, fibers s1 !! k = Some f → fibers (w_sched w) !! k = Some f ∨ f = fb) as Hcase.
  { intros k f [[? ?]|[_ <-]]%lookup_snoc_Some; auto. }
  assert (∀ k st, state <$> fibers s' !! k = Some st → state_ok module (w_mem w) st) as Hok.
  { intros k st [Hok|(f & Hf & ->)%fmap_Some]%Hst; [done|]. destruct (Hcase k f Hf) as [Hold | ->].
    - eapply (world_state module outside cur w k); [done|]. by rewrite Hold.
    - split; [by apply Forall_singleton|done]. }
  constructor; cbn [w_mem w_sched w_park w_ext set_w_sched]; try apply Hw.
  - apply roots_ok. split; [intros k st Hk; by apply (Hok k)|]. rewrite Hch. by apply channel_buffers.
  - subst cur. eapply (sched_step_ok (w_sched w, Some c)); [by eapply step_spawn|done].
  - apply Forall_lookup. intros k f Hf. apply (Hok k (state f)). by rewrite Hf.
  - destruct (wd_io _ _ _ _ Hw) as [Hsane Hpo Hnd Hio Hfin]. split; [done| |done| |].
    + intros [[]|Hb]%Hpb. by apply Hpo.
    + intros id. rewrite Hio, (pending_iff s1 s' id Hp). split; intros (f & Hf & Hpf).
      * exists f. split; [by apply lookup_app_l_Some|done].
      * destruct (Hcase id f Hf) as [? | ->]; [eauto|by destruct Hpf].
    + intros id fin Hid. apply Hfin. rewrite Hp in Hid. apply fmap_Some in Hid as (f & Hf & Hpf).
      destruct (Hcase id f Hf) as [Hin | ->]; [by rewrite Hin, Hpf|done].
Qed.

(** ** All of them *)

Variable fuel : nat.
Variable f64_to_string : f64 → string.

Definition world_natives : list Native := [
  native_println vd; native_print vd; native_eprintln vd; native_eprint vd;
  native_test_capture_begin; native_test_capture_end; native_io_stdout_write vd; native_io_stderr_write vd;
  native_fiber_join vd; native_fiber_is_done vd; native_fiber_yield; native_channel_new vd;
  native_time_now_millis; native_time_sleep_millis vd; native_random_seed_entropy ].

Definition modelled_natives : list Native :=
  (on_mem <$> text_natives f64_to_string vd fuel ++ collection_natives f64_to_string vd) ++ world_natives.

Lemma modelled_ok : Forall native_ok modelled_natives.
Proof.
  apply Forall_app. split.
  - apply Forall_fmap, Forall_app. split; (eapply Forall_impl; [|apply mem_native_world]).
    + apply text_natives_ok.
    + apply collection_natives_ok.
  - repeat (apply Forall_cons; split); try apply Forall_nil; try done.
    + apply print_native_ok.
    + apply print_native_ok.
    + apply eprint_native_ok.
    + apply eprint_native_ok.
    + apply capture_begin_ok.
    + apply capture_end_ok.
    + apply io_stdout_write_ok.
    + apply io_stderr_write_ok.
    + apply fiber_join_ok.
    + apply fiber_is_done_ok.
    + apply fiber_yield_ok.
    + apply channel_new_ok.
    + apply now_millis_ok.
    + apply sleep_millis_ok.
    + apply seed_entropy_ok.
Qed.
End world.

(** ** Capturing output *)

Lemma utf8_append s t : is_utf8 s → is_utf8 t → is_utf8 (s +:+ t).
Proof.
  unfold is_utf8. rewrite as_bytes_app. intros (cs & Hcs & ->)%utf8_valid_encoded Ht.
  by rewrite encode_chars_valid.
Qed.

(** [println] on each value in turn. *)
Fixpoint printlns {Job Payload Ext} `{!Console Ext} vd (w : World (Job := Job) (Payload := Payload) (Ext := Ext)) (vs : list Value) :
    res Trap (World (Job := Job) (Payload := Payload) (Ext := Ext)) :=
  match vs with
  | [] => Ok w
  | v :: vs' => '(w, _) ← native_println vd w [v]; printlns vd w vs'
  end.

Definition lines_of (ss : list string) : string := foldr (λ s t, s +:+ String (ascii_of_byte newline) "" +:+ t) "" ss.

Lemma lines_utf8 ss : Forall is_utf8 ss → is_utf8 (lines_of ss).
Proof.
  induction 1 as [|s ss Hs _ IH]; [done|]. cbn. by repeat apply utf8_append.
Qed.

Section capture.
Context {Job Payload Ext : Type} `{!Console Ext} (vd : Value → string).
Implicit Types (w : World (Job := Job) (Payload := Payload) (Ext := Ext)).

(** What printing into a capture buffer leaves alone. *)
Record printed w w' : Prop := {
  pr_mem : w_mem w' = w_mem w;
  pr_sched : w_sched w' = w_sched w;
  pr_park : w_park w' = w_park w;
  pr_out : w_out w' = w_out w;
}.

Lemma printlns_captured vs ss : ∀ w below buf,
  CAPTURE (w_ext w) = push below buf → Forall2 (str_at (w_mem w)) vs ss →
  ∃ w', printlns vd w vs = Ok w' ∧ printed w w' ∧
    CAPTURE (w_ext w') = push below (buf ++ as_bytes (lines_of ss)).
Proof.
  intros w below buf Hc Hf. revert buf w Hc Hf. revert ss.
  induction vs as [|v vs IH]; intros ss buf w Hc Hf; inversion Hf as [|? s ? ss' (h & -> & Hh) Hf']; subst.
  { exists w. split_and!; [done|by constructor|]. by rewrite app_nil_r. }
  cbn [printlns]. unfold native_println, print_native. cbn [expect_one mbind res_bind].
  rewrite (str_contents_holds vd (w_mem w) h s Hh). cbn [mbind res_bind]. unfold emit_stdout. rewrite Hc.
  unfold push at 1. rewrite vec_pop_snoc. cbn [mbind res_bind].
  destruct (IH ss' (buf ++ as_bytes s ++ [newline]) (set_w_ext w (set_capture (w_ext w) (push below (buf ++ as_bytes s ++ [newline])))))
    as (w' & -> & [Hm Hs Hp Ho] & Hc'); [apply capture_set|done|].
  exists w'. split_and!; [done|by constructor|]. rewrite Hc'. f_equal. cbn [lines_of foldr].
  rewrite !as_bytes_app. by rewrite <-!(assoc_L app).
Qed.
End capture.

(** ** Properties *)

(** The modelled natives satisfy what the interpreter assumes of a native: a program
    whose native table is drawn from them (every string, buffer, list, number, console,
    fiber and time native, and those on maps that compare no keys) never panics,
    whatever its arguments, its schedule and the collections, and ends with a
    well-formed heap and a live value. *)
Theorem program_on_modelled_natives_safe `{Sizes} {Job Payload Ext} `{!Console Ext} f64_to_string value_debug eq_fuel
    (natives : list (Native (Job := Job) (Payload := Payload) (Ext := Ext))) (machine : Machine Job Payload Ext)
    (outside : Outside Job Payload Ext) module fuel w fn args :
  machine_ok outside machine → console_ok outside → module_safe module →
  natives ⊆ modelled_natives value_debug eq_fuel f64_to_string →
  rest_ok outside w → pause_room fuel (w_mem w) → lives (w_mem w) args →
  safe (λ '(w', v), rest_ok outside w' ∧ live (w_mem w') v ∧ GC_PAUSED (w_mem w') = GC_PAUSED (w_mem w))
    (run f64_to_string value_debug natives machine fuel module w fn args).
Proof.
  intros Hma Hco Hmo Hsub Hw Hroom Hargs. apply run_safe; try done. intros cur. apply Forall_calls_ok, Forall_forall.
  intros f Hf. pose proof (modelled_ok outside module (Some cur) Hco value_debug eq_fuel f64_to_string) as Hok.
  rewrite Forall_forall in Hok. by apply Hok, Hsub.
Qed.

(** A capture collects exactly what is printed inside it.  Between
    [test_capture_begin] and [test_capture_end] any number of [println]s succeed, even
    on a stream that fails, and write nothing to the program's output; the end returns
    their lines as one string and restores the captures around it, so captures nest. *)
Theorem capture_collects `{Sizes} {Job Payload Ext} `{!Console Ext} value_debug n
    (w : World (Job := Job) (Payload := Payload) (Ext := Ext)) vs ss :
  heap_wf (HEAP (w_mem w)) → rooms (S n) (HEAP (w_mem w)) →
  Forall2 (str_at (w_mem w)) vs ss → Forall is_utf8 ss →
  ∃ w1 w2 w3 h, native_test_capture_begin w [] = Ok (w1, Unit) ∧
    printlns value_debug w1 vs = Ok w2 ∧
    native_test_capture_end w2 [] = Ok (w3, Ref h) ∧
    holds (w_mem w3) h (Str (lines_of ss)) ∧ w_out w3 = w_out w ∧
    CAPTURE (w_ext w3) = CAPTURE (w_ext w) ∧ w_sched w3 = w_sched w ∧ w_park w3 = w_park w ∧
    extends (w_mem w) (w_mem w3).
Proof.
  intros Hwf Hroom Hf Hutf.
  set (w1 := set_w_ext w (set_capture (w_ext w) (push (CAPTURE (w_ext w)) []))).
  destruct (printlns_captured value_debug vs ss w1 (CAPTURE (w_ext w)) []) as (w2 & Hp & [Hm Hs Hpk Ho] & Hc);
    [apply capture_set|done|]. cbn in Hm, Hs, Hpk, Ho.
  destruct (alloc_rooms (E:=Trap) n (w_mem w2) (Str (lines_of ss))) as (m3 & h & Ha & Hal & _);
    [by rewrite Hm|by rewrite Hm|].
  eexists w1, w2, _, h. split_and!; [done|exact Hp| | | | | | |].
  - unfold native_test_capture_end. rewrite Hc. cbn [app]. unfold push. rewrite vec_pop_snoc.
    cbn [ok_or mbind res_bind]. rewrite (utf8_lossy_valid _ (lines_utf8 ss Hutf)).
    change (w_mem (set_w_ext w2 ?e)) with (w_mem w2). unfold new_str. rewrite Ha. reflexivity.
  - apply (al_obj _ _ _ _ Hal).
  - exact Ho.
  - apply capture_set.
  - exact Hs.
  - exact Hpk.
  - cbn. rewrite <-Hm. intros k o. by apply (allocated_holds _ _ _ _ _ _ Hal).
Qed.

(** *** Blocking *)

(** A call that must wait changes nothing but the park request. *)
Definition waits {Job Payload Ext} (f : Native (Job := Job) (Payload := Payload) (Ext := Ext)) : Prop :=
  ∀ w args w' v, w_park w = None → f w args = Ok (w', v) →
    w_park w' = None ∨ w' = park_with w BlockRetry.

Section blocking.
Context `{Sizes} {Job Payload Ext : Type} (vd : Value → string).

Lemma join_waits : waits (native_fiber_join (Job := Job) (Payload := Payload) (Ext := Ext) vd).
Proof.
  intros w args w' v Hp Hok. unfold native_fiber_join in Hok. res_inv.
  case_match; simplify_eq; auto.
Qed.

Lemma send_waits : waits (native_channel_send (Job := Job) (Payload := Payload) (Ext := Ext) vd).
Proof.
  intros w args w' v Hp Hok. unfold native_channel_send in Hok.
  apply bind_ok in Hok as ([idv value] & _ & (id & _ & ([s o] & Hs & Hok)%bind_ok)%bind_ok).
  unfold chan_send in Hs. apply bind_ok in Hs as (ch & _ & Hs).
  destruct (closed ch); [by simplify_eq|]. destruct (Nat.ltb _ _).
  - apply bind_ok in Hs as (s2 & _ & [= <- <-]). simplify_eq. by left.
  - simplify_eq. right. by rewrite set_same_sched.
Qed.

Lemma receive_waits : waits (native_channel_receive (Job := Job) (Payload := Payload) (Ext := Ext) vd).
Proof.
  intros w args w' v Hp Hok. unfold native_channel_receive in Hok.
  apply bind_ok in Hok as (idv & _ & (id & _ & ([s o] & Hs & Hok)%bind_ok)%bind_ok).
  unfold chan_receive in Hs. apply bind_ok in Hs as (ch & _ & Hs). destruct (buffer ch) as [|u rest].
  - simplify_eq. destruct (closed ch); [|simplify_eq; right; by rewrite set_same_sched].
    apply bind_ok in Hok as ([m x] & _ & [= <- <-]). by left.
  - apply bind_ok in Hs as (s2 & _ & [= <- <-]). apply bind_ok in Hok as ([m x] & _ & [= <- <-]). by left.
Qed.
End blocking.

(** C15: On live arguments the fiber and channel natives keep the world well formed and
    never panic: [channel_new], [join], [is_done] and [yield] always; [spawn] while there
    are fewer than 2^64 - 1 fibers; [send], [receive], [close] and [chan_is_ready] on a
    channel that exists, and on an id that names no channel all four panic; [select] once
    the poller exists, on a machine whose console operations leave the rest of it alone.
    A [join], [send] or [receive] that must wait changes nothing but the park request, so
    running the call again on resume repeats no effect. *)
Theorem fiber_natives_safe `{Sizes} {Job Payload Ext} `{!Console Ext} value_debug outside module c
    (w : World (Job := Job) (Payload := Payload) (Ext := Ext)) args :
  world_ok outside module (Some c) w → lives (w_mem w) args →
  let safely (f : Native) := safe (native_post outside module (Some c) w) (f w args) in
  Forall safely [native_channel_new value_debug; native_fiber_join value_debug;
    native_fiber_is_done value_debug; native_fiber_yield] ∧
  (Z.of_nat (length (fibers (w_sched w))) < 2 ^ 64 - 1 → safely native_fiber_spawn) ∧
  (channel_arg w args → Forall safely [native_channel_send value_debug; native_channel_receive value_debug;
    native_channel_close value_debug; native_chan_is_ready value_debug]) ∧
  (console_ok outside → polling outside (w_ext w) → safely (native_select_park value_debug)) ∧
  Forall waits [native_fiber_join (Job := Job) (Payload := Payload) (Ext := Ext) value_debug;
    native_channel_send value_debug; native_channel_receive value_debug] ∧
  ∀ id v, channels (w_sched w) !! as_index id = None →
    native_channel_send value_debug w [Int id; v] = Panic ∧ native_channel_receive value_debug w [Int id] = Panic ∧
    native_channel_close value_debug w [Int id] = Panic ∧ native_chan_is_ready value_debug w [Int id] = Panic.
Proof.
  intros Hw Ha safely. split_and!.
  - repeat (apply Forall_cons; split); [by apply channel_new_safe|by apply fiber_join_safe
      |by apply fiber_is_done_safe|by apply fiber_yield_safe|by apply Forall_nil].
  - intros Hsz. by eapply fiber_spawn_safe.
  - intros Hc. repeat (apply Forall_cons; split); [by apply channel_send_safe|by apply channel_receive_safe
      |by apply channel_close_safe|by apply chan_is_ready_safe|by apply Forall_nil].
  - intros Hcon Hpo. apply select_park_safe; auto.
  - repeat (apply Forall_cons; split); [apply join_waits|apply send_waits|apply receive_waits|by apply Forall_nil].
  - intros id v Hid. unfold native_channel_send, native_channel_receive, native_channel_close, native_chan_is_ready.
    cbn [args2 expect_one as_int mbind res_bind]. unfold chan_send, chan_receive, chan_close, chan_ready. by rewrite Hid.
Qed.

(** ** A concrete console *)

(** The jobs in flight and the capture stack; the real streams are broken. *)
Definition DemoExt : Type := list nat * list (list u8).

#[local] Instance demo_console : Console DemoExt := {|
  CAPTURE := snd;
  set_capture := λ e c, (e.1, c);
  out_error := λ _ _, Some "broken pipe";
  flush_out := λ e, (e, None);
  stderr_write := λ e _, (e, Some "broken pipe");
  instant_now := λ e, (e, 0);
  unix_millis := λ e, (e, 0);
  unix_nanos := λ e, (e, 0);
  count_entropy := λ e, (e, 0);
  capture_set := λ e c, eq_refl |}.

Definition capture_outside : Outside unit unit DemoExt.
Proof.
  by refine (mkOutside fst (λ e id _, id ∈ e.1) (λ _ _, True) (λ _, True) (λ _, True) (λ e e', e'.1 = e.1)
    _ _ _ _ _ _ _); intros; first [congruence|by subst|match goal with H : _ = _ |- _ => by rewrite H end].
Defined.

Lemma demo_console_ok : console_ok capture_outside.
Proof. by constructor. Qed.

Definition capture_machine : Machine unit unit DemoExt := {|
  now := λ e, (e, 0);
  sleep := λ e _, e;
  submit := λ e id _, (id :: e.1, e.2);
  poll_wait := λ e _, (e, Ok []);
  await_completions := λ e _, (([], e.2), Ok ((λ id, (id, tt)) <$> e.1));
  drain_completions := λ e, (([], e.2), (λ id, (id, tt)) <$> e.1);
  reset := λ e, ([], e.2) |}.

Lemma capture_machine_ok : machine_ok capture_outside capture_machine.
Proof.
  assert (∀ e : DemoExt, handed_over capture_outside e ((λ id, (id, tt)) <$> e.1) ([], e.2)) as Hall.
  { intros e. split_and!; cbn.
    - by rewrite <-list_fmap_compose, list_fmap_id, app_nil_r.
    - by intros c (id & -> & ?)%list_elem_of_fmap.
    - by intros id p ?%elem_of_nil.
    - done.
    - done. }
  constructor; cbn; try done; intros; try by apply Hall. set_solver.
Qed.

Definition no_text {A} (_ : A) : string := "".

Definition capture_natives : list (Native (Job := unit) (Payload := unit) (Ext := DemoExt)) :=
  [native_test_capture_begin; native_println no_text; native_test_capture_end (H := sizes64); native_fiber_yield].

Definition capture_main : Function :=
  Function_new "main" 0 0 [CallNative 0 0; Pop; ConstStr "hi"; CallNative 1 1; Pop; CallNative 3 0; Pop;
    ConstStr "there"; CallNative 1 1; Pop; CallNative 2 0; Return].

Definition capture_module : Module := Module_new [capture_main].

Definition capture_world : World (Job := unit) (Payload := unit) (Ext := DemoExt) :=
  mkWorld (Mem_init DEFAULT_MAX_HEAP_BYTES) Scheduler_new None [] ([], []).

Lemma capture_module_safe : module_safe capture_module.
Proof.
  constructor; [intros ty; cbn; by rewrite lookup_empty|cbn; lia|].
  intros f s n Hf Hi. apply list_elem_of_singleton in Hf as ->. cbn in Hi.
  repeat (apply elem_of_cons in Hi as [Hi|Hi]; [by try done|]). by apply elem_of_nil in Hi.
Qed.

Lemma capture_rest : rest_ok capture_outside capture_world.
Proof.
  constructor; [apply Mem_init_wf|done|done|done].
Qed.

Lemma program_on_modelled_natives_safe_witness :
  safe (λ '(w', v), rest_ok capture_outside w' ∧ live (w_mem w') v ∧ GC_PAUSED (w_mem w') = GC_PAUSED (w_mem capture_world))
    (run (H := sizes64) no_text no_text capture_natives capture_machine 30 capture_module capture_world 0 []).
Proof.
  apply (program_on_modelled_natives_safe (H := sizes64) no_text no_text 0);
    [exact capture_machine_ok|exact demo_console_ok|exact capture_module_safe| |exact capture_rest
    |split; cbn; lia|by apply Forall_nil].
  intros f Hf. apply elem_of_app. right. unfold capture_natives in Hf. unfold world_natives. set_solver.
Defined.

(** The run yields inside the capture and returns both lines. *)
Example capture_run : ∃ w h,
  run (H := sizes64) no_text no_text capture_natives capture_machine 30 capture_module capture_world 0 []
    = Ok (w, Ref h) ∧ holds (w_mem w) h (Str (lines_of ["hi"; "there"])) ∧ w_out w = [].
Proof. eexists _, _. split_and!; vm_compute; reflexivity. Qed.

Definition printing_world : World (Job := unit) (Payload := unit) (Ext := DemoExt) :=
  mkWorld (mkMem (mkHeap [Some (Str "ok")] [] 500 MIN_GC_BYTES []) false 0 DEFAULT_MAX_HEAP_BYTES ∅ [])
    Scheduler_main None [] ([], []).

Lemma printing_heap_wf : heap_wf (HEAP (w_mem printing_world)).
Proof.
  constructor; [constructor| |by vm_compute].
  intros i. split; [intros []%not_elem_of_nil|]. by destruct i as [|i].
Qed.

Lemma capture_collects_witness : ∃ w1 w2 w3 h,
  native_test_capture_begin printing_world [] = Ok (w1, Unit) ∧
  printlns no_text w1 [Ref 0; Ref 0] = Ok w2 ∧
  native_test_capture_end (H := sizes64) w2 [] = Ok (w3, Ref h) ∧
  holds (w_mem w3) h (Str (lines_of ["ok"; "ok"])) ∧ w_out w3 = [].
Proof.
  destruct (capture_collects (H := sizes64) no_text 0 printing_world [Ref 0; Ref 0] ["ok"; "ok"])
    as (w1 & w2 & w3 & h & ? & ? & ? & ? & ? & _).
  - exact printing_heap_wf.
  - unfold rooms. cbn. lia.
  - repeat constructor; by exists 0%nat.
  - repeat constructor.
  - exists w1, w2, w3, h. split_and!; assumption.
Defined.

(** A running main fiber with one open channel of capacity one. *)
Definition channel_world : World (Job := unit) (Payload := unit) (Ext := DemoExt) :=
  mkWorld (w_mem printing_world) (channel_new Scheduler_main 1).1 None [] ([], []).

Lemma channel_world_ok : world_ok capture_outside capture_module (Some MAIN_FIBER) channel_world.
Proof.
  apply (world_channels capture_outside capture_module (Some MAIN_FIBER) printing_world); [|repeat constructor].
  constructor; cbn.
  - constructor; [exact printing_heap_wf|intros [|h] o Hh; [|done]..|by apply Forall_nil]; cbn in Hh; simplify_eq.
    + by apply Forall_nil.
    + done.
  - by apply Forall_nil.
  - exact main_ok.
  - repeat constructor; done.
  - done.
  - split; [done|done|apply NoDup_nil_2| |].
    + intros id. split; [by intros ?%elem_of_nil|].
      intros (f & Hf & Hp). destruct id as [|id]; [|done]. injection Hf as <-. by destruct Hp.
    + intros id fin (f & Hf & Hp)%fmap_Some. destruct id as [|id]; [|done]. injection Hf as <-. done.
Qed.

Lemma fiber_natives_safe_witness :
  safe (native_post capture_outside capture_module (Some MAIN_FIBER) channel_world)
    (native_channel_send no_text channel_world [Int 0; Ref 0]) ∧
  native_channel_receive (H := sizes64) no_text channel_world [Int 9] = Panic.
Proof.
  destruct (fiber_natives_safe (H := sizes64) no_text capture_outside capture_module MAIN_FIBER channel_world [Int 0; Ref 0]
    channel_world_ok) as (_ & _ & Hs & _ & _ & Hp).
  { repeat constructor. by eexists. }
  split; [|exact (proj1 (proj2 (Hp 9 Unit eq_refl)))].
  assert (channel_arg channel_world [Int 0; Ref 0]) as Hc by by (intros id rest [= <- _]; vm_compute; lia).
  by apply Hs, Forall_cons in Hc as [Hc _].
Defined.
