(* ===== verification/NativesListProofs.v ===== *)
(** * The list natives

    Through a handle, the natives read and change the list in place: the elements of
    the abstract list, the traps of indexing, and what an in-place change does not do,
    which is to account the bytes it adds. *)

From Stdlib Require Import ZArith Lia.
From stdpp Require Import base numbers list strings gmap.
From S2P Require Import Prelude Bytes Float64 Instr ModuleTable Value Heap HeapProofs MapObj Trap.
From S2P Require Import Scheduler Render Interp NativesBase NativesText NativesColl NativesFacts.

Open Scope Z_scope.

Section lists.
Context `{Sizes} (vd : Value → string) (m : Mem) (h : nat) (xs : list Value).
Context (Hh : holds m h (List xs)) (Hlen : Z.of_nat (length xs) < 2 ^ 63).

Lemma with_mut_holds {R} (f : Obj → Obj * res Trap R) :
  with_mut m h f = r ← (f (List xs)).2; Ok (put_obj m h (Some (f (List xs)).1), r).
Proof.
  unfold with_mut, with_obj_mut. rewrite (lookup_holds m h _ Hh). cbn [mbind res_bind].
  by destruct (f (List xs)).
Qed.

Lemma with_list_mut_holds {R} who (f : list Value → list Value * res Trap R) :
  with_list_mut m (Ref h) who f = r ← (f xs).2; Ok (put_obj m h (Some (List (f xs).1)), r).
Proof. cbn [with_list_mut]. rewrite with_mut_holds. by destruct (f xs). Qed.

Lemma checked_index_exact i :
  in_i64 i →
  checked_index i (length xs) =
    if decide (0 ≤ i < Z.of_nat (length xs)) then Ok (Z.to_nat i) else Err (IndexOutOfBounds i (length xs)).
Proof.
  intros [Hl Hu]. unfold checked_index. destruct (Z.ltb_spec i 0); cbn [orb].
  - by rewrite decide_False by lia.
  - rewrite (as_unsigned_id 64) by (split; [done|lia]). destruct (Z.leb_spec (Z.of_nat (length xs)) i).
    + by rewrite decide_False by lia.
    + by rewrite decide_True by lia.
Qed.
End lists.

(** [l.push(v)] for each [v] in turn. *)
Fixpoint pushes (m : Mem) (l : Value) (vs : list Value) : res Trap Mem :=
  match vs with
  | [] => Ok m
  | v :: vs' => '(m, _) ← native_list_push m [l; v]; pushes m l vs'
  end.

Lemma put_obj_twice m h o o' : put_obj (put_obj m h o) h o' = put_obj m h o'.
Proof.
  unfold put_obj, set_heap, set_slots, mem_slots. cbn. do 2 f_equal. apply list_insert_insert_eq.
Qed.

Lemma put_obj_holds m h o o' : holds m h o → holds (put_obj m h (Some o')) h o'.
Proof.
  intros Ho. unfold put_obj, mem_slots in *. cbn. apply list_lookup_insert_eq. by apply lookup_lt_Some in Ho.
Qed.

Lemma put_obj_same m h o : holds m h o → put_obj m h (Some o) = m.
Proof.
  intros Ho. destruct m as [[s f b n mk] p q x i g]. unfold put_obj, set_heap, set_slots, mem_slots in *. cbn in *.
  by rewrite list_insert_id.
Qed.

Lemma pushes_ok h vs : ∀ m xs,
  holds m h (List xs) → pushes m (Ref h) vs = Ok (put_obj m h (Some (List (xs ++ vs)))).
Proof.
  induction vs as [|v vs IH]; intros m xs Hh; cbn [pushes].
  { by rewrite app_nil_r, put_obj_same. }
  unfold native_list_push. cbn [args2 mbind res_bind].
  rewrite (with_list_mut_holds m h xs Hh). cbn [fst snd mbind res_bind].
  rewrite (IH _ (push xs v)) by by eapply put_obj_holds. rewrite put_obj_twice. unfold push.
  by rewrite <-(assoc_L app).
Qed.

(** ** Properties *)

(** C18: Through its handle a list behaves as the sequence it holds: [index], [get] and
    [set] inside the bounds read or replace the element, outside them they trap with
    the index and the length, give [None], and trap leaving the list alone; [push]
    appends, [pop] returns the last element if there is one, [clear] empties; each
    changes that object only. *)
Theorem list_natives_sequence `{Sizes} vd m h xs i v :
  holds m h (List xs) → in_i64 i → Z.of_nat (length xs) < 2 ^ 63 →
  let inside := bool_decide (0 ≤ i < Z.of_nat (length xs)) in
  let x := default Unit (xs !! Z.to_nat i) in
  native_list_len m [Ref h] = Ok (m, Int (Z.of_nat (length xs))) ∧
  native_list_index vd m [Ref h; Int i] =
    (if inside then Ok (m, x) else Err (IndexOutOfBounds i (length xs))) ∧
  native_list_get vd m [Ref h; Int i] = option_value m (if inside then Some x else None) ∧
  native_list_set vd m [Ref h; Int i; v] =
    (if inside then Ok (put_obj m h (Some (List (<[Z.to_nat i := v]> xs))), Unit)
     else Err (IndexOutOfBounds i (length xs))) ∧
  native_list_push m [Ref h; v] = Ok (put_obj m h (Some (List (xs ++ [v]))), Unit) ∧
  native_list_pop m [Ref h] = option_value (put_obj m h (Some (List (take (length xs - 1) xs)))) (last xs) ∧
  native_list_clear m [Ref h] = Ok (put_obj m h (Some (List [])), Unit).
Proof.
  intros Hh Hi Hlen inside x.
  unfold native_list_len, native_list_index, native_list_get, native_list_set, native_list_push,
    native_list_pop, native_list_clear. cbn [expect_one args2 args3 as_int mbind res_bind].
  rewrite !(with_list_ref_holds m h xs _ _ Hh), (with_list_holds m h xs _ _ Hh), !(with_list_mut_holds m h xs Hh).
  rewrite (checked_index_exact xs i Hi). unfold inside, x.
  assert (∀ {A} (a b : A), (if bool_decide (0 ≤ i < Z.of_nat (length xs)) then a else b) =
    if decide (0 ≤ i < Z.of_nat (length xs)) then a else b) as Hd.
  { intros A a b. by case_decide; [rewrite bool_decide_true|rewrite bool_decide_false]. }
  rewrite !Hd. split_and!; try done.
  - cbn. rewrite as_signed_id; [done|lia|]. unfold in_signed. lia.
  - case_decide as Hin; [|done]. destruct (lookup_lt_is_Some_2 xs (Z.to_nat i)) as [y Hy]; [lia|]. cbn. by rewrite Hy.
  - case_decide as Hin; [|done]. destruct (lookup_lt_is_Some_2 xs (Z.to_nat i)) as [y Hy]; [lia|]. cbn. by rewrite Hy.
  - case_decide as Hin; [|done]. by rewrite decide_True by lia.
  - destruct (vec_pop xs) as [[rest y]|] eqn:Hp.
    + apply vec_pop_Some in Hp as ->. cbn [fst snd mbind res_bind]. rewrite last_snoc, length_app.
      cbn [length]. rewrite Nat.add_sub. by rewrite take_app_length.
    + apply vec_pop_None in Hp as ->. done.
Qed.

Definition list_mem : Mem :=
  mkMem (mkHeap [Some (List [Int 10; Int 20])] [] 500 MIN_GC_BYTES []) false 0 DEFAULT_MAX_HEAP_BYTES ∅ [].

Lemma list_natives_sequence_witness :
  native_list_index (λ _, "") list_mem [Ref 0; Int 1] = Ok (list_mem, Int 20) ∧
  native_list_len list_mem [Ref 0] = Ok (list_mem, Int 2).
Proof.
  destruct (list_natives_sequence (H:=sizes64) (λ _, "") list_mem 0 [Int 10; Int 20] 1 Unit)
    as (Hl & Hx & _); [done|done|done|]. split; [exact Hx|exact Hl].
Defined.

(** However much a list grows in place, the collector is never told: after any number
    of pushes the list holds them all while the bytes accounted, the pending flag and
    the verdict on the heap ceiling are what they were, so a program that only pushes
    is neither collected nor stopped with [OutOfMemory]. *)
Theorem list_push_unaccounted `{Sizes} m h xs vs :
  holds m h (List xs) →
  ∃ m', pushes m (Ref h) vs = Ok m' ∧ holds m' h (List (xs ++ vs)) ∧
    heap_bytes (HEAP m') = heap_bytes (HEAP m) ∧ should_collect m' = should_collect m ∧
    over_ceiling m' = over_ceiling m.
Proof.
  intros Hh. eexists. split; [by apply pushes_ok|]. split; [by eapply put_obj_holds|]. done.
Qed.

Lemma list_push_unaccounted_witness : ∃ m',
  pushes list_mem (Ref 0) (replicate 100 Unit) = Ok m' ∧
  holds m' 0%nat (List ([Int 10; Int 20] ++ replicate 100 Unit)) ∧ should_collect m' = false.
Proof.
  destruct (list_push_unaccounted (H:=sizes64) list_mem 0 [Int 10; Int 20] (replicate 100 Unit))
    as (m' & Hp & Hl & _ & Hs & _); [done|]. exists m'. split; [exact Hp|]. split; [exact Hl|exact Hs].
Defined.
