(* ===== verification/FileProofs.v ===== *)
(** * File handles (src/runtime/src/interp/natives.rs)

    A file is in the registry under its handle or out with one job, never both; handles
    in use stay below the counter that gives them out; a temporary file gets a name
    nobody had and a fresh handle. *)

From Stdlib Require Import ZArith Lia.
From stdpp Require Import base numbers list strings gmap pretty.
From S2P Require Import Prelude Bytes Float64 Value Heap HeapProofs MapObj Trap Scheduler Render Interp Driver.
From S2P Require Import NativesBase NativesText NativesFiber NativesWorld System NativesFs Tls NativesSocket Pool Demo.

Open Scope Z_scope.

Section files.
Context `{Sizes} `{SystemTypes} {Ext : Type} `{!Process Ext} `{!FileSystem} (vd : Value → string).

#[local] Abbreviation World := (World (Job := Job) (Payload := Payload) (Ext := Ext)).
Implicit Types (w : World) (e : Ext) (g : Statics).

Definition files e : gmap Z File := file_registry (statics e).

(** The reply of a handle that is not there; the statics stay. *)
Definition closed_reply w (r : res Trap (World * Value)) : Prop :=
  ∃ e, statics e = statics (w_ext w) ∧ r = returning (set_w_ext w e) (file_closed_err (w_mem w)).

Lemma set_files_same g : set_files g (NEXT_FILE_ID g) (file_registry g) = g.
Proof. by destruct g. Qed.

(** Taking out what is not there. *)
Lemma take_file_missing w h :
  files (w_ext w) !! h = None → ∃ e, in_world (take_file h) w = (set_w_ext w e, None) ∧ statics e = statics (w_ext w).
Proof.
  unfold files. intros Hf. rewrite in_world_eq. exists (in_ext (take_file h) (w_ext w)).1.
  split; [by rewrite <-Hf|].
  rewrite statics_in_ext. cbn. rewrite delete_id by done. apply set_files_same.
Qed.

(** What [read], [write] and [seek] do once their arguments are read. *)
Definition with_file_taken w (handle : i64) (t : TypeId) (job : File → Syscall Statics (File * io (type_of t)))
    (new : type_of t → Mem → res Trap (Mem * Value)) : res Trap (World * Value) :=
  let (w, taken) := in_world (take_file handle) w in
  match taken with
  | None => returning w (file_closed_err (w_mem w))
  | Some f =>
      Ok (park_syscall (TPair TFile (TIo t)) w (job f)
            (λ '(f, r) e m, let (e, _) := in_ext (return_file handle f) e in fs_result "<file>" new r e m), Unit)
  end.

Lemma with_file_taken_closed w h t job new :
  files (w_ext w) !! h = None → closed_reply w (with_file_taken w h t job new).
Proof.
  intros Hf. destruct (take_file_missing w h Hf) as (e & He & Hs). unfold with_file_taken. rewrite He. by exists e.
Qed.

Lemma file_close_closed w h : files (w_ext w) !! h = None → closed_reply w (native_file_close vd w [Int h]).
Proof.
  intros Hf. destruct (take_file_missing w h Hf) as (e & He & Hs). unfold native_file_close.
  cbn [expect_one as_int mbind res_bind]. rewrite He. by exists e.
Qed.

(** Every operation on [h] answers that the file is closed. *)
Definition all_closed w h : Prop :=
  closed_reply w (native_file_close vd w [Int h]) ∧
  (∀ max, 0 < max → closed_reply w (native_file_read vd w [Int h; Int max])) ∧
  (∀ d data, bytes_contents vd (w_mem w) d "file_write" = Ok data → closed_reply w (native_file_write vd w [Int h; d])) ∧
  (∀ whence offset target, seek_target whence offset = Some target →
    closed_reply w (native_file_seek vd w [Int h; Int whence; Int offset])).

Lemma missing_all_closed w h : files (w_ext w) !! h = None → all_closed w h.
Proof.
  intros Hf. split_and!; [by apply file_close_closed|..].
  - intros max Hm. unfold native_file_read. cbn [args2 as_int mbind res_bind].
    rewrite (proj2 (Z.eqb_neq _ _)) by lia. by apply (with_file_taken_closed w h TBytes (file_read_job _) bytes_value).
  - intros d data Hd. unfold native_file_write. cbn [args2 as_int mbind res_bind]. rewrite Hd.
    by apply (with_file_taken_closed w h TUnit (file_write_job data) (λ _ m, Ok (m, Int _))).
  - intros whence offset target Ht. unfold native_file_seek. cbn [args3 as_int mbind res_bind]. rewrite Ht.
    by apply (with_file_taken_closed w h TU64 (λ f, on_os (file_seek f target)) (λ pos m, Ok (m, Int (as_i64 pos)))).
Qed.

(** Putting a file back where none is. *)
Lemma return_file_missing h f e :
  files e !! h = None → statics (in_ext (return_file h f) e).1
    = set_files (statics e) (NEXT_FILE_ID (statics e)) (<[h := f]> (files e)).
Proof. intros Hf. rewrite statics_in_ext. unfold return_file, insert_file. unfold files in Hf. by rewrite Hf. Qed.

(** An operation on the open file [f] of [h]: it takes the file out, leaves the heap and
    the scheduler alone and parks with [job] on that file; the job's delivery puts the
    file back as the job left it and answers with [new] or the error. *)
Definition uses_file w h f (t : TypeId) (job : File → Syscall Statics (File * io (type_of t)))
    (new : type_of t → Mem → res Trap (Mem * Value)) (r : res Trap (World * Value)) : Prop :=
  ∃ w' j fin, r = Ok (w', Unit) ∧ w_park w' = Some (Await j fin) ∧
    w_mem w' = w_mem w ∧ w_sched w' = w_sched w ∧ files (w_ext w') = delete h (files (w_ext w)) ∧
    ∀ g f' r, (job f g).2 = (f', r) →
      (j g).1 = (job f g).1 ∧
      ∀ e m, files e !! h = None → ∃ e',
        fin (j g).2 e m = ('(m, v) ← match r with
            | inr x => '(m, v) ← new x m; ok m v
            | inl er => fs_err m "<file>" er
            end; Ok (e', m, v)) ∧
        statics e' = set_files (statics e) (NEXT_FILE_ID (statics e)) (<[h := f']> (files e)).

Lemma with_file_taken_uses w h f t job new :
  files (w_ext w) !! h = Some f → uses_file w h f t job new (with_file_taken w h t job new).
Proof.
  intros Hf. unfold with_file_taken. rewrite in_world_eq.
  assert ((take_file h (statics (w_ext w))).2 = Some f) as -> by exact Hf.
  set (w1 := set_w_ext w _). assert (files (w_ext w1) = delete h (files (w_ext w))) as Hfs.
  { unfold files, w1. cbn [w_ext set_w_ext]. by rewrite statics_in_ext. }
  eexists _, _, _. split_and!; [done|done|done|done|exact Hfs|].
  intros g f' r Hj. unfold mbind, syscall_bind, mret, syscall_ret. destruct (job f g) as [g1 x] eqn:Hjf.
  cbn [fst snd] in *. subst x. split; [done|]. intros e m He.
  eexists. split; [|by apply return_file_missing].
  rewrite downcast_boxed. cbn [or_panic mbind res_bind]. unfold fs_result, building.
  by destruct (in_ext (return_file h f') e) as [e' []].
Qed.
End files.

(** C20: An open file is used by one operation at a time.  A read of at least one byte, a
    write or a seek on an open handle takes the file out of the registry and parks,
    leaving the heap and the scheduler alone; its job runs on that very file, and its
    delivery puts the file back as the job left it, under the same handle, and maps the
    outcome to [Ok] (the bytes read, the number written, the new position) or [Err].  In
    every world whose registry lacks the handle, as it does until that delivery, a read
    of at least one byte, a write, a seek and a close answer that the file is closed and
    change nothing.  A read of no bytes answers with none and touches no file, open or
    not, and a seek from an unknown origin traps. *)
Theorem file_handle_exclusive `{Sizes} `{SystemTypes} {Ext} `{!Process Ext} `{!FileSystem} vd
    (w : World (Job := Job) (Payload := Payload) (Ext := Ext)) h f :
  files (w_ext w) !! h = Some f →
  (∀ max, 0 < max →
    uses_file w h f TBytes (file_read_job max) (λ b m, new_bytes m b) (native_file_read vd w [Int h; Int max])) ∧
  (∀ d data, bytes_contents vd (w_mem w) d "file_write" = Ok data →
    uses_file w h f TUnit (file_write_job data) (λ _ m, Ok (m, Int (as_i64 (Z.of_nat (length data)))))
      (native_file_write vd w [Int h; d])) ∧
  (∀ whence offset target, seek_target whence offset = Some target →
    uses_file w h f TU64 (λ f, on_os (file_seek f target)) (λ pos m, Ok (m, Int (as_i64 pos)))
      (native_file_seek vd w [Int h; Int whence; Int offset])) ∧
  (∀ w', files (w_ext w') !! h = None → all_closed vd w' h) ∧
  (∀ w' h' max, max ≤ 0 →
    native_file_read vd w' [Int h'; Int max] = returning w' ('(m, v) ← new_bytes (w_mem w') []; ok m v)) ∧
  (∀ w' h' whence offset, seek_target whence offset = None →
    native_file_seek vd w' [Int h'; Int whence; Int offset] = Err (bug ("file_seek: invalid whence " +:+ pretty whence))).
Proof.
  intros Hf. split_and!.
  - intros max Hm. unfold native_file_read. cbn [args2 as_int mbind res_bind].
    rewrite (proj2 (Z.eqb_neq _ _)), Z.max_l by lia. by apply (with_file_taken_uses w h f TBytes (file_read_job max)).
  - intros d data Hd. unfold native_file_write. cbn [args2 as_int mbind res_bind]. rewrite Hd.
    by apply (with_file_taken_uses w h f TUnit (file_write_job data)).
  - intros whence offset target Ht. unfold native_file_seek. cbn [args3 as_int mbind res_bind]. rewrite Ht.
    by apply (with_file_taken_uses w h f TU64 (λ f, on_os (file_seek f target))).
  - intros w'. apply missing_all_closed.
  - intros w' h' max Hm. unfold native_file_read. cbn [args2 as_int mbind res_bind]. by rewrite Z.max_r by lia.
  - intros w' h' whence offset Ht. unfold native_file_seek. cbn [args3 as_int mbind res_bind]. by rewrite Ht.
Qed.

(** ** Temporary files *)

Section temp.
Context `{SystemTypes} `{!FileSystem}.
Implicit Types g : Statics.

(** The name of a temporary file, before it is joined to the directory. *)
Definition temp_name (prefix : string) (stamp n : Z) : string :=
  (prefix +:+ pretty stamp +:+ "_" +:+ pretty n)%string.

(** Creating the [n]-th name, from some state of the system. *)
Definition creates (dir : PathBuf) prefix stamp (n : Z) (r : io File) : Prop :=
  ∃ o, (file_create_new (path_join dir (temp_name prefix stamp n)) o).2 = r.

Definition taken_name dir prefix stamp (n : Z) : Prop :=
  ∃ e, creates dir prefix stamp n (inl e) ∧ err_kind e = AlreadyExists.

(** What [k] attempts from the counter [c] come to: the names before [c + i] were taken. *)
Record temp_spec (k : nat) (dir : PathBuf) prefix stamp g (i : nat) g' (o : TempFileOutcome) : Prop := {
  ts_taken : ∀ j : nat, (j < i)%nat → taken_name dir prefix stamp (TEMP_FILE_COUNTER g + Z.of_nat j);
  ts_outcome : match o with
    | Created s => (i < k)%nat ∧ ∃ f, creates dir prefix stamp (TEMP_FILE_COUNTER g + Z.of_nat i) (inr f) ∧
        file_registry g' = <[NEXT_FILE_ID g := f]> (file_registry g) ∧
        NEXT_FILE_ID g' = wrapping_add (NEXT_FILE_ID g) 1 ∧
        s = (pretty (NEXT_FILE_ID g) +:+ kind_sep +:+ to_string_lossy (path_join dir (temp_name prefix stamp (TEMP_FILE_COUNTER g + Z.of_nat i))))%string
    | FsError p e => (i < k)%nat ∧ creates dir prefix stamp (TEMP_FILE_COUNTER g + Z.of_nat i) (inl e) ∧
        err_kind e ≠ AlreadyExists ∧ p = to_string_lossy (path_join dir (temp_name prefix stamp (TEMP_FILE_COUNTER g + Z.of_nat i))) ∧
        file_registry g' = file_registry g ∧ NEXT_FILE_ID g' = NEXT_FILE_ID g
    | Exhausted _ => i = k ∧ file_registry g' = file_registry g ∧ NEXT_FILE_ID g' = NEXT_FILE_ID g
    end;
}.

Lemma temp_spec_S k dir prefix stamp g g1 i g' o :
  TEMP_FILE_COUNTER g1 = TEMP_FILE_COUNTER g + 1 → file_registry g1 = file_registry g →
  NEXT_FILE_ID g1 = NEXT_FILE_ID g → taken_name dir prefix stamp (TEMP_FILE_COUNTER g) →
  temp_spec k dir prefix stamp g1 i g' o → temp_spec (S k) dir prefix stamp g (S i) g' o.
Proof.
  intros Hc Hf Hn Ht [Hj Ho]. rewrite Hc, Hf, Hn in *.
  assert (TEMP_FILE_COUNTER g + 1 + Z.of_nat i = TEMP_FILE_COUNTER g + Z.of_nat (S i)) as Hi by lia. rewrite Hi in Ho. split.
  - intros [|j] Hl; [by rewrite Z.add_0_r|].
    replace (TEMP_FILE_COUNTER g + Z.of_nat (S j)) with (TEMP_FILE_COUNTER g + 1 + Z.of_nat j) by lia. apply Hj. lia.
  - destruct o; intuition lia.
Qed.

Lemma temp_attempts_spec k dir prefix stamp : ∀ last g,
  0 ≤ TEMP_FILE_COUNTER g → TEMP_FILE_COUNTER g + Z.of_nat k < 2 ^ 63 → file_registry g !! NEXT_FILE_ID g = None →
  ∃ i, temp_spec k dir prefix stamp g i (temp_attempts k dir prefix stamp last g).1 (temp_attempts k dir prefix stamp last g).2.
Proof.
  induction k as [|k IH]; intros last g Hc0 Hk Hfree; cbn [temp_attempts].
  { exists 0%nat. split; [lia|]. done. }
  unfold mbind, syscall_bind, mret, syscall_ret, next_temp, on_os. cbn [os set_temp_counter].
  set (c := TEMP_FILE_COUNTER g) in *.
  destruct (file_create_new _ (os g)) as [o1 r] eqn:Hr.
  assert (creates dir prefix stamp c r) as Hcr by (exists (os g); unfold temp_name; by rewrite Hr).
  destruct r as [e|f]; [destruct (decide (err_kind e = AlreadyExists)) as [He|He]|].
  - set (g1 := set_os _ o1). assert (TEMP_FILE_COUNTER g1 = c + 1) as Hc1.
    { cbn. unfold wrapping_add. fold c. rewrite as_signed_id; [done|done|]. unfold in_signed. lia. }
    destruct (IH (Some e) g1) as [i Hi]; [lia|lia|done|].
    exists (S i). eapply temp_spec_S; [exact Hc1|done|done|by exists e|done].
  - exists 0%nat. split; [lia|]. cbn. rewrite Z.add_0_r. split_and!; [lia|done..].
  - exists 0%nat. split; [lia|]. unfold next_file_id, insert_file. cbn. rewrite Hfree. cbn.
    rewrite Z.add_0_r. split; [lia|]. by exists f.
Qed.

(** Different counters, different names. *)
Lemma temp_name_inj prefix stamp n n' : temp_name prefix stamp n = temp_name prefix stamp n' → n = n'.
Proof. unfold temp_name. by intros ?%(inj _)%(inj _)%(inj _)%(inj _). Qed.

(** ** Handles *)

(** The handles in use are below the counter that gives out the next. *)
Definition handles_below g : Prop := ∀ h f, file_registry g !! h = Some f → h < NEXT_FILE_ID g.

Lemma handles_fresh g : handles_below g → file_registry g !! NEXT_FILE_ID g = None.
Proof. intros Hb. destruct (_ !! _) as [f|] eqn:Hf; [|done]. apply Hb in Hf. lia. Qed.

Lemma handles_insert g g' h f :
  handles_below g → h < NEXT_FILE_ID g' → NEXT_FILE_ID g ≤ NEXT_FILE_ID g' →
  file_registry g' = <[h := f]> (file_registry g) → handles_below g'.
Proof. intros Hb Hh Hn Hf k x. rewrite Hf. intros [[<- _]|[_ Hx%Hb]]%lookup_insert_Some; lia. Qed.

Lemma insert_file_registry g h f :
  file_registry (insert_file h f g).1 = <[h := f]> (file_registry g) ∧ NEXT_FILE_ID (insert_file h f g).1 = NEXT_FILE_ID g.
Proof.
  unfold insert_file. destruct (file_registry g !! h); [|done]. unfold on_os. by destruct (file_drop _ _).
Qed.

Lemma take_below g h : handles_below g → handles_below (take_file h g).1.
Proof. intros Hb k x. cbn. intros [_ Hx]%lookup_delete_Some. by apply (Hb k x). Qed.

Lemma return_below g h f : handles_below g → h < NEXT_FILE_ID g → handles_below (return_file h f g).1.
Proof.
  intros Hb Hh. destruct (insert_file_registry g h f) as [Hr Hn]. unfold return_file.
  apply (handles_insert g _ h f); rewrite ?Hn; done || lia.
Qed.

(** [register_file]. *)
Definition registered f g : Statics := let (g, id) := next_file_id g in (insert_file id f g).1.

Lemma next_id g : - 2 ^ 63 ≤ NEXT_FILE_ID g < 2 ^ 63 - 1 → wrapping_add (NEXT_FILE_ID g) 1 = NEXT_FILE_ID g + 1.
Proof. intros Hn. unfold wrapping_add. apply as_signed_id; [done|]. unfold in_signed. lia. Qed.

Lemma registered_below g f :
  handles_below g → - 2 ^ 63 ≤ NEXT_FILE_ID g < 2 ^ 63 - 1 → handles_below (registered f g).
Proof.
  intros Hb Hn%next_id. unfold registered. destruct (next_file_id g) as [g1 id] eqn:Hid. injection Hid as <- <-.
  match goal with |- handles_below (insert_file ?h f ?g1).1 => destruct (insert_file_registry g1 h f) as [Hr Hi] end.
  rewrite Hn in *. cbn [NEXT_FILE_ID file_registry set_files] in Hr, Hi.
  apply (handles_insert g _ (NEXT_FILE_ID g) f); [done|rewrite Hi; lia..|exact Hr].
Qed.

Lemma temp_below k dir prefix stamp g i g' o :
  handles_below g → - 2 ^ 63 ≤ NEXT_FILE_ID g < 2 ^ 63 - 1 → temp_spec k dir prefix stamp g i g' o → handles_below g'.
Proof.
  intros Hb Hn%next_id [_ Ho]. destruct o as [s|p e|msg].
  - destruct Ho as (_ & f & _ & Hr & Hi & _). rewrite Hn in Hi. apply (handles_insert g g' (NEXT_FILE_ID g) f); rewrite ?Hi; done || lia.
  - destruct Ho as (_ & _ & _ & _ & Hr & Hi). intros h f. rewrite Hr, Hi. apply Hb.
  - destruct Ho as (_ & Hr & Hi). intros h f. rewrite Hr, Hi. apply Hb.
Qed.
End temp.

(** C21: [fs.temp_file] never takes over a file or a handle of somebody else.  The handles
    in use are below the counter of handles: this holds at the start, and opening a file,
    taking one out for a job, returning one under a handle the counter has given out,
    and [temp_file] itself keep it, while the counter is below 2^63 - 1.  From such a
    state, while the counter of names stays below 2^63, the job tries at most
    [TEMP_ATTEMPTS] names, no two the same, and goes on only past names that exist: with
    [Created] the file was made anew under the first name that was free and is
    registered under a handle that was not in use, every other handle untouched; another
    error stops it at once; [Exhausted] means that all the names existed.  In both
    failures the registry stays. *)
Theorem temp_file_fresh `{SystemTypes} `{!FileSystem} prefix (g : Statics) :
  0 ≤ TEMP_FILE_COUNTER g → TEMP_FILE_COUNTER g + Z.of_nat TEMP_ATTEMPTS < 2 ^ 63 →
  handles_below g → - 2 ^ 63 ≤ NEXT_FILE_ID g < 2 ^ 63 - 1 →
  let after := temp_file_job prefix g in
  (∃ dir stamp i, temp_spec TEMP_ATTEMPTS dir prefix stamp g i after.1 after.2) ∧
  file_registry g !! NEXT_FILE_ID g = None ∧
  (∀ stamp i j, temp_name prefix stamp (TEMP_FILE_COUNTER g + Z.of_nat i) =
    temp_name prefix stamp (TEMP_FILE_COUNTER g + Z.of_nat j) → i = j) ∧
  handles_below after.1 ∧ (∀ f, handles_below (registered f g)) ∧ (∀ h, handles_below (take_file h g).1) ∧
  (∀ h f, h < NEXT_FILE_ID g → handles_below (return_file h f g).1) ∧
  (∀ g0 : Statics, file_registry g0 = ∅ → handles_below g0).
Proof.
  intros Hc0 Hc Hb Hn after.
  assert (∃ dir stamp i, temp_spec TEMP_ATTEMPTS dir prefix stamp g i after.1 after.2) as Hspec.
  { unfold after, temp_file_job, mbind, syscall_bind, on_os. destruct (temp_dir (os g)) as [o1 dir].
    cbn [os set_os]. destruct (system_nanos o1) as [o2 stamp].
    destruct (temp_attempts_spec _ dir prefix stamp None (set_os (set_os g o1) o2) Hc0 Hc (handles_fresh g Hb)) as [i [Hj Ho]].
    exists dir, stamp, i. by split. }
  split_and!; [done|by apply handles_fresh|intros stamp i j Hij%temp_name_inj; lia|..].
  - destruct Hspec as (dir & stamp & i & Hs). by eapply temp_below.
  - intros f. by apply registered_below.
  - intros h. by apply take_below.
  - intros h f. by apply return_below.
  - intros g0 Hg h f. by rewrite Hg, lookup_empty.
Qed.

(** ** Witnesses *)

#[local] Existing Instance sizes64.

(** "a.txt" is open under handle 1. *)
Definition file_world : World (Job := Job) (Payload := Payload) (Ext := Runtime) :=
  mkWorld (Mem_init DEFAULT_MAX_HEAP_BYTES) Scheduler_main None []
    (set_r_statics demo_runtime (set_files demo_statics 2 (<[1 := "a.txt"%string]> ∅))).

Lemma file_handle_exclusive_witness :
  uses_file file_world 1 "a.txt"%string TBytes (file_read_job 5) (λ b m, new_bytes m b)
    (native_file_read no_text file_world [Int 1; Int 5]) ∧
  all_closed no_text (set_w_ext file_world demo_runtime) 1.
Proof.
  destruct (file_handle_exclusive no_text file_world 1 "a.txt"%string) as (Hr & _ & _ & Hc & _); [reflexivity|].
  split; [by apply Hr|by apply Hc].
Defined.

(** The first name is taken, the second is not. *)
Definition taken_statics : Statics :=
  set_os demo_statics (mkSim (<["/tmp/x0_0"%string := "old"%string]> ∅) 0 0 0).

Lemma temp_file_fresh_witness : ∃ dir stamp i,
  temp_spec TEMP_ATTEMPTS dir "x" stamp taken_statics i (temp_file_job "x" taken_statics).1 (temp_file_job "x" taken_statics).2.
Proof.
  destruct (temp_file_fresh "x" taken_statics) as [Hs _]; [done|done|by intros h f|done|exact Hs].
Defined.

Example temp_file_second :
  (temp_file_job "x" taken_statics).2 = Created (pretty 1 +:+ kind_sep +:+ "/tmp/x0_1") ∧
  file_registry (temp_file_job "x" taken_statics).1 = <[1 := "/tmp/x0_1"%string]> ∅.
Proof. split; vm_compute; reflexivity. Qed.
