(* ===== verification/ProcessProofs.v ===== *)
(** * Pipes of running children (src/runtime/src/interp/natives.rs)

    What happens when two operations on one child's pipes overlap: the operation that
    finds the pipe taken out answers an end of stream, and what a builder puts back
    undoes a close.  Both follow from the code as it is. *)

From Stdlib Require Import ZArith Lia.
From stdpp Require Import base numbers list strings gmap pretty.
From S2P Require Import Prelude Bytes Float64 Value Heap HeapProofs MapObj Trap Scheduler Render Interp Driver.
From S2P Require Import NativesBase NativesText NativesFiber NativesWorld System NativesFs NativesEnv NativesProcess.
From S2P Require Import Tls NativesSocket Pool Demo.

Open Scope Z_scope.

Section pipes.
Context `{Sizes} `{SystemTypes} {Ext : Type} `{!Process Ext} `{!FileSystem} `{!Processes} `{!Console Ext}.
Variable vd : Value → string.

#[local] Abbreviation World := (World (Job := Job) (Payload := Payload) (Ext := Ext)).
Implicit Types (w : World) (e : Ext) (p : RunningProcess).

Definition process e (id : i64) : option RunningProcess := process_registry (statics e) !! id.

(** What a delivery answers: the value, and the outside as it leaves it. *)
Definition delivers (r : res Trap (Ext * Mem * Value)) (v : res Trap (Mem * Value)) e' : Prop :=
  r = ('(m, v) ← v; Ok (e', m, v)).

Lemma process_update e id o id' :
  process (in_ext (update_process id o) e).1 id' = if decide (id' = id) then o else process e id'.
Proof.
  unfold process. rewrite statics_in_ext. cbn. destruct (decide (id' = id)) as [->|Hn].
  - by rewrite lookup_partial_alter_eq.
  - by rewrite lookup_partial_alter_ne.
Qed.

Lemma process_get e id : process (in_ext (get_process id) e).1 = process e.
Proof. unfold process. by rewrite statics_in_ext. Qed.

Lemma process_on_os {A} (c : Syscall Os A) e : process (in_ext (on_os c) e).1 = process e.
Proof. unfold process. rewrite statics_in_ext. unfold on_os. by destruct (c _). Qed.

(** ** Reads *)

Lemma restore_pipe_process {R} id get set drop (stream : option R) e :
  process (in_ext (restore_pipe id get set drop stream) e).1 id = (λ p, set p stream) <$> process e id.
Proof.
  unfold process. rewrite statics_in_ext. unfold restore_pipe, mbind, syscall_bind, get_process, on_os.
  destruct (process_registry (statics e) !! id) as [p|] eqn:Hp; cbn.
  - destruct (drop_option drop (get p) _). cbn. by rewrite lookup_partial_alter_eq.
  - destruct (drop_option drop stream _). cbn. by rewrite Hp.
Qed.

Lemma pipe_read_parks w id p max who t read drop get set :
  process (w_ext w) id = Some p →
  ∃ w' fin, park_pipe_read vd who t read drop get set w [Int id; Int max] = Ok (w', Unit) ∧
    w_mem w' = w_mem w ∧ w_sched w' = w_sched w ∧ process (w_ext w') id = Some (set p None) ∧
    w_park w' = Some (Await (x ← on_os (read_pipe_owned read drop (get p) (Z.max max 0));
      mret (boxed (TPair (TOption t) (TIo TBytes)) x)) fin) ∧
    ∀ stream r e m, ∃ e',
      delivers (fin (boxed (TPair (TOption t) (TIo TBytes)) (stream, r)) e m)
        (proc_result ("failed to read from " +:+ process_text id "") bytes_value r m) e' ∧
      process e' id = (λ p, set p stream) <$> process e id.
Proof.
  intros Hp. unfold park_pipe_read. cbn [args2 as_int mbind res_bind]. rewrite !in_world_eq.
  set (w1 := set_w_ext w _). cbn zeta.
  assert ((get_process id (statics (w_ext w))).2 = Some p) as -> by exact Hp.
  eexists _, _. split_and!; [done|done|done| |done|].
  - change (process (in_ext (update_process id (Some (set p None))) (w_ext w1)).1 id = Some (set p None)).
    rewrite process_update. by rewrite decide_True.
  - intros stream r e m. exists (in_ext (restore_pipe id get set drop stream) e).1. split; [|apply restore_pipe_process].
    unfold delivers. rewrite downcast_boxed. cbn [or_panic mbind res_bind]. unfold building.
    by destruct (in_ext (restore_pipe id get set drop stream) e) as [e' []].
Qed.

(** ** Writes and closes of stdin *)

Lemma restore_stdin_process id s e :
  process (in_ext (restore_stdin id s) e).1 id = (λ p, set_stdin p (Some s)) <$> process e id.
Proof.
  unfold process. rewrite statics_in_ext. unfold restore_stdin, mbind, syscall_bind, get_process, on_os.
  destruct (process_registry (statics e) !! id) as [p|] eqn:Hp; cbn.
  - destruct (drop_option drop_stdin (p_stdin p) _). cbn. by rewrite lookup_partial_alter_eq.
  - destruct (drop_stdin s _). cbn. by rewrite Hp.
Qed.

Lemma stdin_write_parks w id p s d data :
  process (w_ext w) id = Some p → p_stdin p = Some s →
  bytes_contents vd (w_mem w) d "process_stdin_write" = Ok data →
  ∃ w' fin, native_process_stdin_write vd w [Int id; d] = Ok (w', Unit) ∧
    process (w_ext w') id = Some (set_stdin p None) ∧
    w_park w' = Some (Await (x ← stdin_write_job data s; mret (boxed (TPair TChildStdin (TIo TUnit)) x)) fin) ∧
    ∀ s' r e m, ∃ e',
      delivers (fin (boxed (TPair TChildStdin (TIo TUnit)) (s', r)) e m)
        (proc_result ("failed to write to " +:+ process_text id " stdin")
          (λ _ m, Ok (m, Int (as_i64 (Z.of_nat (length data))))) r m) e' ∧
      process e' id = (λ p, set_stdin p (Some s')) <$> process e id.
Proof.
  intros Hp Hs Hd. unfold native_process_stdin_write. cbn [args2 as_int mbind res_bind]. rewrite Hd.
  cbn [mbind res_bind]. cbn zeta. rewrite !in_world_eq.
  assert ((get_process id (statics (w_ext w))).2 = Some p) as -> by exact Hp. rewrite Hs.
  set (w1 := set_w_ext w _). rewrite in_world_eq. eexists _, _. split_and!; [done| |done|].
  - change (process (in_ext (update_process id (Some (set_stdin p None))) (w_ext w1)).1 id = Some (set_stdin p None)).
    rewrite process_update. by rewrite decide_True.
  - intros s' r e m. exists (in_ext (restore_stdin id s') e).1. split; [|apply restore_stdin_process].
    unfold delivers. rewrite downcast_boxed. cbn [or_panic mbind res_bind]. unfold building.
    by destruct (in_ext (restore_stdin id s') e) as [e' []].
Qed.

Lemma stdin_close_spec w id p :
  process (w_ext w) id = Some p →
  ∃ w', native_process_stdin_close vd w [Int id] = returning w' (ok (w_mem w') Unit) ∧
    w_mem w' = w_mem w ∧ process (w_ext w') id = Some (set_stdin p None).
Proof.
  intros Hp. unfold native_process_stdin_close. cbn [expect_one as_int mbind res_bind]. rewrite in_world_eq.
  assert ((get_process id (statics (w_ext w))).2 = Some p) as -> by exact Hp.
  rewrite !in_world_eq. eexists. split_and!; [done|done|]. cbn [w_ext set_w_ext].
  by rewrite process_on_os, process_update, decide_True.
Qed.
End pipes.

(** C26: Two overlapping reads of a child's output.  A read takes the pipe out of the
    child's entry until its job is delivered, which puts it back.  A second read that
    starts meanwhile parks on a job that touches nothing and answers the empty bytes, an
    end of stream, although the child still writes; and its delivery leaves the entry
    without a pipe, also when the first read has put the pipe back before, so every
    later read answers an end of stream too. *)
Theorem process_reads_overlap `{Sizes} `{SystemTypes} {Ext} `{!Process Ext} `{!FileSystem} `{!Processes} vd
    (w : World (Job := Job) (Payload := Payload) (Ext := Ext)) id p s max1 max2 :
  process (w_ext w) id = Some p → p_stdout p = Some s →
  let read := native_process_stdout_read vd in
  let nothing := boxed (TPair (TOption TChildStdout) (TIo TBytes)) (None, inr []) in
  ∃ w1 j1 fin1 w2 j2 fin2,
    read w [Int id; Int max1] = Ok (w1, Unit) ∧ w_park w1 = Some (Await j1 fin1) ∧
    read (set_w_park w1 None) [Int id; Int max2] = Ok (w2, Unit) ∧ w_park w2 = Some (Await j2 fin2) ∧
    (∀ s' r e m p', process e id = Some p' → ∃ v e',
      delivers (fin1 (boxed (TPair (TOption TChildStdout) (TIo TBytes)) (Some s', r)) e m) v e' ∧
      process e' id = Some (set_stdout p' (Some s'))) ∧
    (∀ g, j2 g = (g, nothing)) ∧
    (∀ e m p', process e id = Some p' → ∃ e',
      delivers (fin2 nothing e m) ('(m, v) ← new_bytes m []; ok m v) e' ∧
      process e' id = Some (set_stdout p' None)).
Proof.
  intros Hp Hs. cbn zeta. unfold native_process_stdout_read.
  destruct (pipe_read_parks vd w id p max1 "process_stdout_read" TChildStdout stdout_read_into drop_stdout p_stdout
    set_stdout Hp) as (w1 & fin1 & Hr1 & _ & _ & Hp1 & Hk1 & Hd1).
  destruct (pipe_read_parks vd (set_w_park w1 None) id (set_stdout p None) max2 "process_stdout_read" TChildStdout
    stdout_read_into drop_stdout p_stdout set_stdout Hp1) as (w2 & fin2 & Hr2 & _ & _ & _ & Hk2 & Hd2).
  eexists w1, _, fin1, w2, _, fin2. split_and!; [exact Hr1|exact Hk1|exact Hr2|exact Hk2| | |].
  - intros s' r e m p' He. destruct (Hd1 (Some s') r e m) as (e' & Hv & Hq). rewrite He in Hq. by eexists _, e'.
  - intros g. unfold mbind, syscall_bind, on_os, read_pipe_owned. cbn. by destruct g.
  - intros e m p' He. destruct (Hd2 None (inr []) e m) as (e' & Hv & Hq). rewrite He in Hq. by exists e'.
Qed.

(** C27: A close of a child's stdin can be undone by a write.  While a write is in flight
    [process_stdin_close] finds no pipe in the entry and answers [Ok]; the delivery
    of the write then puts the pipe back, so the child never sees its input end. *)
Theorem process_stdin_close_undone `{Sizes} `{SystemTypes} {Ext} `{!Process Ext} `{!FileSystem} `{!Processes} vd
    (w : World (Job := Job) (Payload := Payload) (Ext := Ext)) id p s d data :
  process (w_ext w) id = Some p → p_stdin p = Some s →
  bytes_contents vd (w_mem w) d "process_stdin_write" = Ok data →
  ∃ w1 j fin w2, native_process_stdin_write vd w [Int id; d] = Ok (w1, Unit) ∧ w_park w1 = Some (Await j fin) ∧
    native_process_stdin_close vd (set_w_park w1 None) [Int id] = returning w2 (ok (w_mem w2) Unit) ∧
    process (w_ext w2) id = Some (set_stdin p None) ∧
    ∀ g s' r, (stdin_write_job data s g).2 = (s', r) →
      ∀ e m, process e id = process (w_ext w2) id → ∃ v e',
        delivers (fin (j g).2 e m) v e' ∧ process e' id = Some (set_stdin p (Some s')).
Proof.
  intros Hp Hs Hd. destruct (stdin_write_parks vd w id p s d data Hp Hs Hd) as (w1 & fin & Hw & Hp1 & Hk & Hf).
  destruct (stdin_close_spec vd (set_w_park w1 None) id (set_stdin p None) Hp1) as (w2 & Hc & _ & Hp2).
  eexists w1, _, fin, w2. split_and!; [exact Hw|exact Hk|exact Hc|exact Hp2|].
  intros g s' r Hj e m He. unfold mbind, syscall_bind, mret, syscall_ret.
  destruct (stdin_write_job data s g) as [g1 x]. cbn [snd] in *. subst x.
  destruct (Hf s' r e m) as (e' & Hv & Hq). rewrite He, Hp2 in Hq. by eexists _, e'.
Qed.

(** ** Witnesses *)

#[local] Existing Instance sizes64.

(** A child under handle 1 that has written two bytes; its input is a heap object. *)
Definition demo_child : RunningProcess := mkProcess (H := demo_types) 0%nat (Some []) (Some [104; 105]) (Some []).

Definition child_world : World (Job := Job) (Payload := Payload) (Ext := Runtime) :=
  mkWorld (mkMem (mkHeap [Some (Bytes [65])] [] 500 MIN_GC_BYTES []) false 0 DEFAULT_MAX_HEAP_BYTES ∅ [])
    Scheduler_main None []
    (set_r_statics demo_runtime (set_processes demo_statics 2 (<[1 := demo_child]> ∅))).

Lemma process_reads_overlap_witness : ∃ w1 w2,
  native_process_stdout_read no_text child_world [Int 1; Int 9] = Ok (w1, Unit) ∧
  native_process_stdout_read no_text (set_w_park w1 None) [Int 1; Int 9] = Ok (w2, Unit).
Proof.
  destruct (process_reads_overlap no_text child_world 1 demo_child [104; 105] 9 9)
    as (w1 & j1 & fin1 & w2 & j2 & fin2 & H1 & _ & H2 & _); [reflexivity..|]. exists w1, w2. by split.
Defined.

Lemma process_stdin_close_undone_witness : ∃ w1 w2,
  native_process_stdin_write no_text child_world [Int 1; Ref 0] = Ok (w1, Unit) ∧
  native_process_stdin_close no_text (set_w_park w1 None) [Int 1] = returning w2 (ok (w_mem w2) Unit).
Proof.
  destruct (process_stdin_close_undone no_text child_world 1 demo_child [] (Ref 0) [65])
    as (w1 & j & fin & w2 & H1 & _ & H2 & _); [reflexivity..|]. exists w1, w2. by split.
Defined.
