(* ===== verification/SocketProofs.v ===== *)
(** * What a socket native does to a wait, a close and the plaintext

    A native that must wait leaves its socket for the run again; a close lets every
    waiter go; and the TLS pump takes each byte of plaintext at most once. *)

From Stdlib Require Import ZArith Lia.
From stdpp Require Import base numbers list strings gmap pretty.
From S2P Require Import Prelude Bytes Float64 Value Heap HeapProofs MapObj Trap Scheduler SchedulerProofs SchedulerSpec.
From S2P Require Import Render Interp Driver NativesBase NativesText NativesFiber NativesWorld.
From S2P Require Import System NativesFs NativesEnv Tls NativesSocket Pool Demo.

Open Scope Z_scope.

(** ** Waking the waiters of one socket *)

Section wake.
Context {Payload Ext : Type}.
Implicit Types s : Scheduler Payload Ext.

Lemma make_ready_moves s id s' extra :
  inv_gen s extra → make_ready s id = Ok s' →
  poll_blocked s' = poll_blocked s ∧ ready s ⊆ ready s' ∧ id ∈ ready s'.
Proof.
  intros Hinv Hok. pose proof (make_ready_listed _ _ _ _ Hinv Hok) as Hl. revert Hok. unfold make_ready.
  destruct (fibers s !! id) as [f|] eqn:Hf; [|done]. cbn [or_panic mbind res_bind].
  destruct (queued f); [by intros [= <-]|]. rewrite (upd_fiber_ok s id f _ Hf). cbn. intros [= <-]. cbn in *.
  split_and!; [done|set_solver|done].
Qed.

Lemma make_ready_all_moves ids : ∀ s s' extra,
  inv_gen s (ids ++ extra) → make_ready_all s ids = Ok s' →
  poll_blocked s' = poll_blocked s ∧ ready s ⊆ ready s' ∧ ids ⊆ ready s'.
Proof.
  induction ids as [|id ids IH]; intros s s' extra Hinv; cbn; [by intros [= <-]; split_and!; [..|set_solver]|].
  destruct (make_ready_inv s id _ Hinv) as (s1 & H1 & Hinv1 & _). rewrite H1. cbn. intros H2.
  destruct (make_ready_moves _ _ _ _ Hinv H1) as (P1 & R1 & M1).
  destruct (IH _ _ _ Hinv1 H2) as (P2 & R2 & M2). split_and!; [congruence|by etrans|].
  intros x [->|Hx]%elem_of_cons; [by apply R2|by apply M2].
Qed.

(** Whoever waited on the handle is ready, and nobody waits on it any more. *)
Lemma wake_poll_moves s h :
  sched_inv s → ∃ s', wake_poll s h = Ok s' ∧ poll_blocked s' = delete h (poll_blocked s) ∧
    ready s ⊆ ready s' ∧ (∀ ids, poll_blocked s !! h = Some ids → ids ⊆ ready s') ∧ same_fibers s s'.
Proof.
  intros Hinv. destruct (wake_poll_inv s h Hinv) as (s' & Hok & _ & Hsame). exists s'. split; [done|].
  revert Hok. unfold wake_poll. destruct (poll_blocked s !! h) as [ids|] eqn:Hp.
  - intros Hok. destruct (make_ready_all_moves ids _ _ [] (wake_poll_taken s h ids Hinv Hp) Hok) as (P & R & M).
    split_and!; [done|done|by intros ? [= <-]|done].
  - intros [= <-]. split_and!; [by rewrite delete_id|done|done|done].
Qed.
End wake.

Section sockets.
Context `{Sizes} `{SystemTypes} `{NetTypes} {Ext : Type} `{!Process Ext} `{!Local Ext}.
Context `{!FileSystem} `{!Network} `{!Rustls} (vd : Value → string).

#[local] Abbreviation World := (World (Job := Job) (Payload := Payload) (Ext := Ext)).
#[local] Abbreviation Native := (Native (Job := Job) (Payload := Payload) (Ext := Ext)).
Implicit Types w : World.

Definition sockets w : gmap Z Socket := SOCKETS (my_locals w).

(** Calls outside that leave the sockets, the heap and the scheduler. *)
Definition quiet w w' : Prop :=
  w_mem w' = w_mem w ∧ w_sched w' = w_sched w ∧ w_park w' = w_park w ∧ sockets w' = sockets w.

Lemma quiet_trans w1 w2 w3 : quiet w1 w2 → quiet w2 w3 → quiet w1 w3.
Proof. unfold quiet. intros (? & ? & ? & ?) (? & ? & ? & ?). split_and!; congruence. Qed.

Lemma in_world_locals {A} (c : Syscall Statics A) w : my_locals (in_world c w).1 = my_locals w.
Proof.
  rewrite in_world_eq. unfold my_locals. cbn [fst w_ext set_w_ext]. unfold in_ext.
  destruct (c (statics (w_ext w))) as [g a]. cbn [fst]. by rewrite locals_statics.
Qed.

Lemma in_world_quiet {A} (c : Syscall Statics A) w : quiet w (in_world c w).1.
Proof.
  unfold quiet, sockets. rewrite in_world_locals. rewrite in_world_eq. by split_and!.
Qed.

Lemma update_quiet w l : SOCKETS l = sockets w → quiet w (update_locals w l).
Proof.
  intros Hl. unfold quiet, sockets, my_locals, update_locals. cbn [w_mem w_sched w_park w_ext set_w_ext].
  by rewrite locals_set.
Qed.

Lemma ensure_poller_quiet w : quiet w (ensure_poller w).1.
Proof.
  unfold ensure_poller. destruct (POLLER (my_locals w)); [by split_and!|].
  pose proof (in_world_quiet (on_os new_poller) w) as Hq. destruct (in_world _ w) as [w1 [e|p]]; [exact Hq|].
  cbn [fst] in *. eapply quiet_trans; [exact Hq|]. by apply update_quiet.
Qed.

Lemma with_registry_quiet {A} w (f : Registry → Syscall Os (io A)) : quiet w (with_registry w f).1.
Proof.
  unfold with_registry. pose proof (ensure_poller_quiet w) as Hq. destruct (ensure_poller w) as [w1 [e|p]]; [exact Hq|].
  eapply quiet_trans; [exact Hq|]. apply in_world_quiet.
Qed.

(** ** Closing *)

(** The reply of a handle that is not there. *)
Definition closed_reply w (r : res Trap (World * Value)) : Prop := r = returning w (socket_closed_err (w_mem w)).

(** Every operation on [h] answers that the socket is closed. *)
Definition socket_gone w h : Prop :=
  Forall (λ f : Native, closed_reply w (f w [Int h]))
    [native_socket_accept vd; native_socket_connect_finish vd; native_socket_close vd;
     native_socket_local_addr vd; native_socket_peer_addr vd] ∧
  (∀ fuel, closed_reply w (native_tls_handshake vd fuel w [Int h]) ∧ closed_reply w (native_tls_close vd fuel w [Int h])) ∧
  (∀ fuel max, 0 < max → closed_reply w (native_socket_read vd w [Int h; Int max]) ∧
    closed_reply w (native_tls_read vd fuel w [Int h; Int max])) ∧
  (∀ d b bs, bytes_contents vd (w_mem w) d "socket_write" = Ok (b :: bs) →
    closed_reply w (native_socket_write vd w [Int h; d])) ∧
  (∀ fuel d b bs, bytes_contents vd (w_mem w) d "tls_write" = Ok (b :: bs) →
    closed_reply w (native_tls_write vd fuel w [Int h; d])) ∧
  (∀ host_v host roots_v roots config session,
    str_contents vd (w_mem w) host_v = Ok host → str_contents vd (w_mem w) roots_v = Ok roots →
    client_config roots = inr config → client_session config host = inr session →
    closed_reply w (native_tls_connect vd w [Int h; host_v; roots_v])) ∧
  (∀ cert_v cert key_v key config session,
    str_contents vd (w_mem w) cert_v = Ok cert → str_contents vd (w_mem w) key_v = Ok key →
    server_config cert key = inr config → server_session config = inr session →
    closed_reply w (native_tls_accept vd w [Int h; cert_v; key_v])) ∧
  native_socket_is_ready vd w [Int h] = Ok (w, Bool true).

Lemma missing_outcome {A} w h (f : Socket → Syscall Os (io A)) waits done :
  sockets w !! h = None → closed_reply w (socket_outcome waits h (with_socket w h f) done).
Proof. intros Hs. unfold with_socket. unfold sockets in Hs. by rewrite Hs. Qed.

Lemma missing_tls {T} w h (f : TcpStream → Pump T) (k : World → res TlsError T → res Trap (World * Value)) :
  sockets w !! h = None →
  closed_reply w ('(w, r) ← with_tls w h f; match r with inl err => Ok (w, err) | inr x => k w x end).
Proof.
  intros Hs. unfold with_tls. unfold sockets in Hs. rewrite Hs.
  unfold closed_reply, returning. by destruct (socket_closed_err (w_mem w)) as [[m v]| | |].
Qed.

Lemma missing_wrap w h session : sockets w !! h = None → closed_reply w (wrap_socket w h session).
Proof. intros Hs. unfold wrap_socket. unfold sockets in Hs. by rewrite Hs. Qed.

Lemma missing_gone w h : sockets w !! h = None → socket_gone w h.
Proof.
  intros Hs. split_and!.
  - repeat (apply Forall_cons; split); [by apply missing_outcome..| |by apply missing_outcome|by apply missing_outcome|by apply Forall_nil].
    unfold closed_reply, native_socket_close, close_socket_entry. cbn [expect_one as_int mbind res_bind].
    unfold sockets in Hs. by rewrite Hs.
  - intros fuel. unfold native_tls_handshake, native_tls_close. cbn [expect_one as_int mbind res_bind].
    split; [by apply missing_tls|]. unfold with_tls. unfold sockets in Hs. rewrite Hs.
    unfold closed_reply, returning. by destruct (socket_closed_err (w_mem w)) as [[m v]| | |].
  - intros fuel max Hm. unfold native_socket_read, native_tls_read. cbn [args2 as_int mbind res_bind].
    rewrite (proj2 (Z.eqb_neq _ _)) by lia. split; [by apply missing_outcome|by apply missing_tls].
  - intros d b bs Hd. unfold native_socket_write. cbn [args2 as_int mbind res_bind]. rewrite Hd. by apply missing_outcome.
  - intros fuel d b bs Hd. unfold native_tls_write. cbn [args2 as_int mbind res_bind]. rewrite Hd. by apply missing_tls.
  - intros host_v host roots_v roots config session Hh Hr Hc Hse. unfold native_tls_connect.
    cbn [args3 as_int mbind res_bind]. rewrite Hh. cbn [mbind res_bind]. rewrite Hr. cbn [mbind res_bind]. rewrite Hc, Hse. by apply missing_wrap.
  - intros cert_v cert key_v key config session Hh Hr Hc Hse. unfold native_tls_accept.
    cbn [args3 as_int mbind res_bind]. rewrite Hh. cbn [mbind res_bind]. rewrite Hr. cbn [mbind res_bind]. rewrite Hc, Hse. by apply missing_wrap.
  - unfold native_socket_is_ready, with_socket. cbn [expect_one as_int mbind res_bind]. unfold sockets in Hs. by rewrite Hs.
Qed.

Lemma close_socket_spec w h sock :
  sched_inv (w_sched w) → sockets w !! h = Some sock →
  ∃ w', close_socket_entry w h = Ok (w', true) ∧ w_mem w' = w_mem w ∧ w_park w' = w_park w ∧
    sockets w' = delete h (sockets w) ∧ same_fibers (w_sched w) (w_sched w') ∧
    poll_blocked (w_sched w') = delete h (poll_blocked (w_sched w)) ∧ ready (w_sched w) ⊆ ready (w_sched w') ∧
    ∀ ids, poll_blocked (w_sched w) !! h = Some ids → ids ⊆ ready (w_sched w').
Proof.
  intros Hinv Hs. unfold close_socket_entry. unfold sockets in Hs. rewrite Hs. cbn zeta.
  set (w1 := set_SOCKETS w (delete h (SOCKETS (my_locals w)))).
  pose proof (with_registry_quiet w1 (λ r, deregister r (source_of sock))) as Hq1.
  destruct (with_registry w1 _) as [w2 r2]. cbn [fst] in Hq1.
  pose proof (in_world_quiet (on_os (drop_source (source_of sock))) w2) as Hq2.
  destruct (in_world _ w2) as [w3 u]. cbn [fst] in Hq2.
  destruct (quiet_trans _ _ _ Hq1 Hq2) as (Hm & Hsc & Hp & Hso).
  destruct (wake_poll_moves (w_sched w) h Hinv) as (s' & Hok & Hpo & Hr & Hw & Hsame).
  unfold wake_poll_waiters. rewrite Hsc. change (w_sched w1) with (w_sched w). rewrite Hok. cbn [mbind res_bind].
  exists (set_w_sched w3 s'). split_and!; try done.
  unfold sockets in *. change (my_locals (set_w_sched w3 s')) with (my_locals w3). rewrite Hso.
  unfold w1, set_SOCKETS, update_locals, my_locals. cbn [w_ext set_w_ext]. by rewrite locals_set.
Qed.

(** ** Waiting *)

(** What a call leaves of the locals when it waits on [h]: all of them, but for the state
    of the handle's own TLS session. *)
Definition retry_locals (h : i64) (l l' : Locals) : Prop :=
  l' = l ∨ ∃ stream session session', SOCKETS l !! h = Some (Tls stream session) ∧
    l' = mkLocals (<[h := Tls stream session']> (SOCKETS l)) (NEXT_SOCKET_ID l) (POLLER l).

(** A native that leaves a park request waits on an open socket it was called with, and
    only the outside and the handle's session have moved. *)
Definition waits_on_handle (f : Native) : Prop := ∀ w args w' v,
  w_park w = None → f w args = Ok (w', v) → w_park w' = None ∨
  ∃ h rest e, args = Int h :: rest ∧ v = Unit ∧ is_Some (sockets w !! h) ∧
    w' = park_with (set_w_ext w e) (Ready h) ∧ retry_locals h (my_locals w) (locals e).

Lemma returning_park w r w' v : returning w r = Ok (w', v) → w_park w' = w_park w.
Proof. unfold returning. intros ([m x] & _ & [= <- _])%bind_ok. done. Qed.

Lemma in_world_park {A} (c : Syscall Statics A) w : w_park (in_world c w).1 = w_park w.
Proof. by rewrite in_world_eq. Qed.

Lemma register_socket_park w s w' v : register_socket w s = Ok (w', v) → w_park w' = w_park w.
Proof.
  unfold register_socket. cbn zeta. set (w1 := update_locals w _).
  pose proof (with_registry_quiet w1 (λ r, register r (source_of s) (as_u64 (NEXT_SOCKET_ID (my_locals w))))) as (_ & _ & Hp & _).
  destruct (with_registry w1 _) as [w2 [e|x]]; cbn [fst] in Hp.
  - pose proof (in_world_park (on_os (drop_source (source_of s))) w2) as Hp2. destruct (in_world _ w2) as [w3 u].
    cbn [fst] in Hp2. intros ->%returning_park. by rewrite Hp2.
  - intros ->%returning_park. done.
Qed.

Lemma socket_outcome_waits {A} w h rest waits (f : Socket → Syscall Os (io A)) done w' v :
  (∀ w1 x w2 v, done w1 x = Ok (w2, v) → w_park w2 = w_park w1) →
  w_park w = None → socket_outcome waits h (with_socket w h f) done = Ok (w', v) → w_park w' = None ∨
  ∃ h' rest' e, Int h :: rest = Int h' :: rest' ∧ v = Unit ∧ is_Some (sockets w !! h') ∧
    w' = park_with (set_w_ext w e) (Ready h') ∧ retry_locals h' (my_locals w) (locals e).
Proof.
  intros Hd Hp. unfold socket_outcome, with_socket. destruct (SOCKETS (my_locals w) !! h) as [s|] eqn:Hs.
  - pose proof (in_world_locals (on_os (f s)) w) as Hl. pose proof (in_world_park (on_os (f s)) w) as Hp1.
    pose proof (in_world_eq (on_os (f s)) w) as He. destruct (in_world _ w) as [w1 [e|x]]; cbn [fst] in *.
    + destruct (waits (err_kind e)).
      * intros [= <- <-]. right. injection He as -> _. eexists h, rest, _. split_and!; [done|done|by eexists|done|].
        left. exact Hl.
      * intros ->%returning_park. left. congruence.
    + intros Hok%Hd. left. congruence.
  - intros ->%returning_park. by left.
Qed.

Lemma tls_outcome_waits {T} w h rest (f : TcpStream → Pump (Progress T)) done w' v :
  w_park w = None →
  ('(w, r) ← with_tls w h f;
   match r with inl err => Ok (w, err) | inr outcome => tls_outcome w h outcome done end) = Ok (w', v) →
  w_park w' = None ∨
  ∃ h' rest' e, Int h :: rest = Int h' :: rest' ∧ v = Unit ∧ is_Some (sockets w !! h') ∧
    w' = park_with (set_w_ext w e) (Ready h') ∧ retry_locals h' (my_locals w) (locals e).
Proof.
  intros Hp. unfold with_tls.
  destruct (SOCKETS (my_locals w) !! h) as [[l|s|stream session]|] eqn:Hs;
    try (intros ([w1 r] & ([m x] & _ & [= <- <-])%bind_ok & [= <- <-])%bind_ok; by left).
  cbn zeta. destruct (f stream _) as [[session' o] r]. cbn [mbind res_bind].
  destruct r as [[x|]|e| |]; cbn [tls_outcome]; try done.
  - intros ->%returning_park. by left.
  - intros [= <- <-]. right. eexists h, rest, _. split_and!; [done|done|by eexists|done|].
    right. exists stream, session, session'. split; [done|].
    unfold my_locals. cbn [w_ext set_w_ext]. by rewrite locals_set, locals_statics.
  - intros ->%returning_park. by left.
Qed.

Lemma accept_waits : waits_on_handle (native_socket_accept vd).
Proof.
  intros w args w' v Hp Hok. destruct args as [|[h| | | |] []]; try discriminate Hok.
  revert Hok. apply socket_outcome_waits; [|done]. intros w1 x w2 u. apply register_socket_park.
Qed.

Lemma connect_finish_waits : waits_on_handle (native_socket_connect_finish vd).
Proof.
  intros w args w' v Hp Hok. destruct args as [|[h| | | |] []]; try discriminate Hok.
  revert Hok. apply socket_outcome_waits; [|done]. intros w1 x w2 u. apply returning_park.
Qed.

Lemma read_waits : waits_on_handle (native_socket_read vd).
Proof.
  intros w args w' v Hp Hok. destruct args as [|[h| | | |] [|[max| | | |] []]]; try discriminate Hok.
  revert Hok. unfold native_socket_read. cbn [args2 as_int mbind res_bind]. destruct (_ =? 0).
  - intros ->%returning_park. by left.
  - apply socket_outcome_waits; [|done]. intros w1 x w2 u. apply returning_park.
Qed.

Lemma write_waits : waits_on_handle (native_socket_write vd).
Proof.
  intros w args w' v Hp Hok. destruct args as [|[h| | | |] [|d []]]; try discriminate Hok.
  revert Hok. unfold native_socket_write. cbn [args2 as_int mbind res_bind]. intros (data & _ & Hok)%bind_ok. revert Hok.
  destruct data as [|b bs].
  - intros ->%returning_park. by left.
  - apply socket_outcome_waits; [|done]. intros w1 x w2 u. apply returning_park.
Qed.

Lemma tls_handshake_waits fuel : waits_on_handle (native_tls_handshake vd fuel).
Proof.
  intros w args w' v Hp Hok. destruct args as [|[h| | | |] []]; try discriminate Hok.
  revert Hok. by apply tls_outcome_waits.
Qed.

Lemma tls_read_waits fuel : waits_on_handle (native_tls_read vd fuel).
Proof.
  intros w args w' v Hp Hok. destruct args as [|[h| | | |] [|[max| | | |] []]]; try discriminate Hok.
  revert Hok. unfold native_tls_read. cbn [args2 as_int mbind res_bind]. destruct (_ =? 0).
  - intros ->%returning_park. by left.
  - by apply tls_outcome_waits.
Qed.

Lemma tls_write_waits fuel : waits_on_handle (native_tls_write vd fuel).
Proof.
  intros w args w' v Hp Hok. destruct args as [|[h| | | |] [|d []]]; try discriminate Hok.
  revert Hok. unfold native_tls_write. cbn [args2 as_int mbind res_bind]. intros (data & _ & Hok)%bind_ok. revert Hok.
  destruct data as [|b bs].
  - intros ->%returning_park. by left.
  - by apply tls_outcome_waits.
Qed.
End sockets.

(** C22: A socket operation that must wait can simply be run again.  When [accept],
    [connect_finish], [read], [write] or a TLS [handshake], [read] or [write] leaves a
    park request, it is for the readiness of the open handle it was called with, and it
    returned [Unit] with the heap, the scheduler, the output and the registry of
    sockets as they were: only the outside has moved, and the state of the handle's own
    TLS session. *)
Theorem socket_waits_repeat `{Sizes} `{SystemTypes} `{NetTypes} {Ext} `{!Process Ext} `{!Local Ext} `{!FileSystem}
    `{!Network} `{!Rustls} vd fuel :
  Forall (waits_on_handle (Ext := Ext))
    [native_socket_accept vd; native_socket_connect_finish vd; native_socket_read vd; native_socket_write vd;
     native_tls_handshake vd fuel; native_tls_read vd fuel; native_tls_write vd fuel].
Proof.
  repeat (apply Forall_cons; split); [apply accept_waits|apply connect_finish_waits|apply read_waits|
    apply write_waits|apply tls_handshake_waits|apply tls_read_waits|apply tls_write_waits|by apply Forall_nil].
Qed.

(** C23: Closing a socket lets nobody wait on it forever.  [socket_close] on an open handle
    answers [Ok]; whatever the poller says, the handle leaves the registry, no other one
    changes, every fiber that was parked on it is made ready and none stays on its
    list, and fibers that were ready stay so.  In every world whose registry lacks the
    handle, as it does from then on, every socket and TLS operation on it that asks for
    the socket, a second close included, answers that the socket is closed and changes
    nothing, and [is_ready] is true.  A read of at least one byte, a write of some bytes
    and a TLS wrap with a usable configuration ask for it; a read or write of nothing
    answers [Ok] on any handle. *)
Theorem socket_close_wakes `{Sizes} `{SystemTypes} `{NetTypes} {Ext} `{!Process Ext} `{!Local Ext} `{!FileSystem}
    `{!Network} `{!Rustls} vd (w : World (Job := Job) (Payload := Payload) (Ext := Ext)) h sock :
  sched_inv (w_sched w) → sockets w !! h = Some sock →
  (∃ w', native_socket_close vd w [Int h] = returning w' (ok (w_mem w') Unit) ∧ w_mem w' = w_mem w ∧
    sockets w' = delete h (sockets w) ∧ same_fibers (w_sched w) (w_sched w') ∧
    poll_blocked (w_sched w') = delete h (poll_blocked (w_sched w)) ∧ ready (w_sched w) ⊆ ready (w_sched w') ∧
    (∀ ids, poll_blocked (w_sched w) !! h = Some ids → ids ⊆ ready (w_sched w'))) ∧
  (∀ w', sockets w' !! h = None → socket_gone vd w' h) ∧
  (∀ fuel w' max, max ≤ 0 → native_socket_read vd w' [Int h; Int max] = returning w' (ok_bytes (w_mem w') []) ∧
    native_tls_read vd fuel w' [Int h; Int max] = returning w' (ok_bytes (w_mem w') [])) ∧
  (∀ w' d, bytes_contents vd (w_mem w') d "socket_write" = Ok [] →
    native_socket_write vd w' [Int h; d] = returning w' (ok (w_mem w') (Int 0))) ∧
  (∀ fuel w' d, bytes_contents vd (w_mem w') d "tls_write" = Ok [] →
    native_tls_write vd fuel w' [Int h; d] = returning w' (ok (w_mem w') (Int 0))).
Proof.
  intros Hinv Hs. split_and!; [|intros w'; apply missing_gone|..].
  - destruct (close_socket_spec w h sock Hinv Hs) as (w' & Hok & Hm & _ & Hso & Hsame & Hp & Hr & Hw).
    exists w'. unfold native_socket_close. cbn [expect_one as_int mbind res_bind]. by rewrite Hok.
  - intros fuel w' max Hm. unfold native_socket_read, native_tls_read. cbn [args2 as_int mbind res_bind].
    by rewrite Z.max_r by lia.
  - intros w' d Hd. unfold native_socket_write. cbn [args2 as_int mbind res_bind]. by rewrite Hd.
  - intros fuel w' d Hd. unfold native_tls_write. cbn [args2 as_int mbind res_bind]. by rewrite Hd.
Qed.

(** ** Witness *)

#[local] Existing Instance sizes64.

(** The main fiber waits on socket 1. *)
Definition net_sched : Scheduler Payload Runtime :=
  match park (Job := Job) Scheduler_main MAIN_FIBER [] [] (Ready 1) with Ok s => s | _ => Scheduler_new end.

Lemma net_sched_inv : sched_inv net_sched.
Proof.
  assert (rtc sched_step (Scheduler_main, Some MAIN_FIBER) (net_sched, None)) as Hr.
  { eapply rtc_l; [by apply (step_park (Job := Job) _ _ [] [] (Ready 1))|apply rtc_refl]. }
  apply (sched_steps_ok _ _ Hr main_ok).
Qed.

Definition demo_listener : Socket := @Listener demo_net "here"%string.

Definition net_world : World (Job := Job) (Payload := Payload) (Ext := Runtime) :=
  mkWorld (Mem_init DEFAULT_MAX_HEAP_BYTES) net_sched None []
    (set_r_locals demo_runtime (mkLocals (<[1 := demo_listener]> ∅) 2 None)).

Lemma socket_close_wakes_witness : ∃ w',
  native_socket_close no_text net_world [Int 1] = returning w' (ok (w_mem w') Unit) ∧
  [MAIN_FIBER] ⊆ ready (w_sched w') ∧ socket_gone no_text w' 1.
Proof.
  destruct (socket_close_wakes no_text net_world 1 demo_listener net_sched_inv)
    as ((w' & Hok & _ & Hso & _ & _ & _ & Hw) & Hg & _); [reflexivity|].
  exists w'. split; [exact Hok|]. split; [exact (Hw _ eq_refl)|]. apply Hg. rewrite Hso. reflexivity.
Defined.

(** [accept] on a socket that blocks once waits, and succeeds when run again. *)
Example accept_again : ∃ w1 h,
  native_socket_accept no_text
    (set_w_ext net_world (set_r_statics (w_ext net_world) (set_os demo_statics (mkSim ∅ 0 1 0)))) [Int 1] = Ok (w1, Unit) ∧
  w_park w1 = Some (Ready 1) ∧
  ∃ w2, native_socket_accept no_text (set_w_park w1 None) [Int 1] = Ok (w2, Ref h) ∧ w_park w2 = None.
Proof. eexists _, _. split; [vm_compute; reflexivity|]. split; [reflexivity|]. eexists. split; vm_compute; reflexivity. Qed.
