(* ===== verification/TlsProofs.v ===== *)
(** * The TLS pump (src/runtime/src/interp/tls.rs)

    [rustls_laws] states what the pump relies on of the library: only [writer_write]
    takes plaintext, and sending shortens the outgoing queue.  From it: a write that is
    repeated while the socket blocks feeds its plaintext once, a flush ends, and a
    handshake reported done has nothing left to send. *)

From Stdlib Require Import ZArith Lia.
From stdpp Require Import base numbers list strings gmap pretty.
From S2P Require Import Prelude Bytes Value Interp System NativesFs Tls NativesSocket Pool Demo.

Open Scope Z_scope.

(** [fed] is the plaintext a connection has taken, [outgoing] how many bytes it still has
    to send. *)
Record rustls_laws `{SystemTypes} `{NetTypes} `{!Rustls} (fed : Connection → list u8) (outgoing : Connection → nat) : Prop := {
  lw_wants : ∀ c, wants_write c = true ↔ outgoing c ≠ 0%nat;
  lw_sent : ∀ sock c o n, (write_tls sock c o).2.2 = inr n →
    (outgoing (write_tls sock c o).2.1 + n = outgoing c)%nat;
  lw_send : ∀ sock c o, fed (write_tls sock c o).2.1 = fed c;
  lw_receive : ∀ sock c o, fed (read_tls sock c o).2.1 = fed c;
  lw_packets : ∀ c, fed (process_new_packets c).1 = fed c;
  lw_reader : ∀ c buf, fed (reader_read c buf).1.1 = fed c;
  lw_notify : ∀ c, fed (send_close_notify c) = fed c;
  lw_taken : ∀ c data n, (writer_write c data).2 = inr n →
    (n ≤ length data)%nat ∧ fed (writer_write c data).1 = fed c ++ take n data;
  lw_refused : ∀ c data e, (writer_write c data).2 = inl e → fed (writer_write c data).1 = fed c;
}.

(** [notified] holds once the library was told to notify the peer of the close, and sending
    keeps it. *)
Record notify_laws `{SystemTypes} `{NetTypes} `{!Rustls} (notified : Connection → Prop) : Prop := {
  ln_notify : ∀ c, notified (send_close_notify c);
  ln_send : ∀ sock c o, notified c → notified (write_tls sock c o).2.1;
}.

Section pump.
Context `{SystemTypes} `{NetTypes} `{!Rustls} (sock : TcpStream).
Context (fed : Connection → list u8) (outgoing : Connection → nat) (Hlaws : rustls_laws fed outgoing).

(** ** Steps that take no plaintext *)

Definition feeds_nothing {A} (p : Pump A) : Prop := ∀ s, fed (p s).1.1 = fed s.1.

Lemma fn_ret {A} (a : A) : feeds_nothing (mret a).
Proof. done. Qed.
Lemma fn_fail {A} e : feeds_nothing (fail (A := A) e).
Proof. done. Qed.
Lemma fn_no_fuel {A} : feeds_nothing (no_fuel (A := A)).
Proof. done. Qed.
Lemma fn_asks f : feeds_nothing (asks f).
Proof. done. Qed.

Lemma fn_bind {A B} (p : Pump A) (f : A → Pump B) :
  feeds_nothing p → (∀ a, feeds_nothing (f a)) → feeds_nothing (p ≫= f).
Proof.
  intros Hp Hf s. specialize (Hp s). unfold mbind, pump_bind. destruct (p s) as [s' []]; cbn in *; try done.
  by rewrite Hf.
Qed.

Lemma fn_ignoring {A} (p : Pump A) : feeds_nothing p → feeds_nothing (ignoring p).
Proof. intros Hp s. apply Hp. Qed.

Lemma fn_send : feeds_nothing (at_socket (write_tls sock)).
Proof.
  intros [c o]. unfold at_socket. cbn [fst snd]. pose proof (lw_send _ _ Hlaws sock c o) as Hs.
  by destruct (write_tls sock c o) as [o' [c' r]].
Qed.

Lemma fn_receive : feeds_nothing (at_socket (read_tls sock)).
Proof.
  intros [c o]. unfold at_socket. cbn [fst snd]. pose proof (lw_receive _ _ Hlaws sock c o) as Hs.
  by destruct (read_tls sock c o) as [o' [c' r]].
Qed.

Lemma fn_packets : feeds_nothing (on_conn process_new_packets).
Proof.
  intros [c o]. unfold on_conn. cbn [fst snd]. pose proof (lw_packets _ _ Hlaws c) as Hs.
  by destruct (process_new_packets c).
Qed.

Lemma fn_reader buf : feeds_nothing (on_conn (λ c, let '(c, b, r) := reader_read c buf in (c, (b, r)))).
Proof.
  intros [c o]. unfold on_conn. cbn [fst snd]. pose proof (lw_reader _ _ Hlaws c buf) as Hs.
  by destruct (reader_read c buf) as [[c' b] r].
Qed.

Lemma fn_notify : feeds_nothing (on_conn (λ c, (send_close_notify c, tt))).
Proof. intros [c o]. apply (lw_notify _ _ Hlaws). Qed.
End pump.

Create HintDb feeds.
#[export] Hint Resolve fn_ret fn_fail fn_no_fuel fn_asks fn_ignoring fn_send fn_receive fn_packets fn_reader fn_notify : feeds.

(** Follow a pump that takes no plaintext. *)
Ltac feeds :=
  repeat first
    [ solve [eauto with feeds]
    | lazymatch goal with
      | |- feeds_nothing _ (_ ≫= _) => apply fn_bind; [eauto with feeds|intros ?]
      | |- feeds_nothing _ (match ?x with _ => _ end) => destruct x
      end ].

Section contract.
Context `{SystemTypes} `{NetTypes} `{!Rustls} (sock : TcpStream).
Context (fed : Connection → list u8) (outgoing : Connection → nat) (Hlaws : rustls_laws fed outgoing).

Lemma drain_feeds fuel : feeds_nothing fed (drain sock fuel).
Proof. induction fuel as [|fuel IH]; cbn [drain]; feeds. Qed.
#[local] Hint Resolve drain_feeds : feeds.

Lemma fill_feeds fuel : feeds_nothing fed (fill sock fuel).
Proof. unfold fill. feeds. Qed.
#[local] Hint Resolve fill_feeds : feeds.

Lemma handshake_feeds fuel : feeds_nothing fed (handshake sock fuel).
Proof. induction fuel as [|fuel IH]; cbn [handshake]; feeds. Qed.

Lemma read_feeds fuel : ∀ buf, feeds_nothing fed (read_loop sock fuel buf).
Proof. induction fuel as [|fuel IH]; intros buf; cbn [read_loop]; unfold read_plaintext; feeds. Qed.

Lemma close_feeds fuel : feeds_nothing fed (tls_close sock fuel).
Proof. unfold tls_close. feeds. Qed.

(** ** A flush ends *)

(** A result that more fuel does not change. *)
Definition ends {A} (p : nat → Pump A) (s : PumpState) : Prop :=
  ∃ n r, r.2 ≠ NoFuel ∧ ∀ fuel, (n ≤ fuel)%nat → p fuel s = r.

Lemma drain_ends : ∀ s, ends (drain sock) s.
Proof.
  intros s. remember (outgoing s.1) as k eqn:Hk. revert s Hk.
  induction k as [k IH] using lt_wf_ind. intros [c o] Hk. cbn [fst] in Hk.
  destruct (wants_write c) eqn:Hw.
  2:{ exists 1%nat, ((c, o), Ok true). split; [done|]. intros [|fuel] Hf; [lia|]. cbn [drain].
      unfold mbind, pump_bind, asks. cbn [fst]. by rewrite Hw. }
  destruct (write_tls sock c o) as [o' [c' [e|[|m]]]] eqn:Hs.
  - eexists 1%nat, _. split; [|intros [|fuel] Hf; [lia|]; cbn [drain]; unfold mbind, pump_bind, asks, at_socket;
      cbn [fst snd]; rewrite Hw; cbn [fst snd]; rewrite Hs; reflexivity]. by destruct (decide _).
  - exists 1%nat, ((c', o'), Ok false). split; [done|]. intros [|fuel] Hf; [lia|]. cbn [drain].
    unfold mbind, pump_bind, asks, at_socket. cbn [fst snd]. rewrite Hw. cbn [fst snd]. by rewrite Hs.
  - pose proof (lw_sent _ _ Hlaws sock c o (S m)) as Hl. rewrite Hs in Hl. specialize (Hl eq_refl). cbn [fst snd] in Hl.
    destruct (IH (outgoing c')) with (s := (c', o')) as (n & r & Hr & Hn); [lia|done|].
    exists (S n), r. split; [done|]. intros [|fuel] Hf; [lia|]. rewrite <-(Hn fuel) by lia. cbn [drain].
    unfold mbind, pump_bind, asks, at_socket. cbn [fst snd]. rewrite Hw. cbn [fst snd]. by rewrite Hs.
Qed.

Lemma ends_bind {A B} (p : nat → Pump A) (f : nat → A → Pump B) s :
  ends p s → (∀ s' a, ends (λ fuel, f fuel a) s') → ends (λ fuel, x ← p fuel; f fuel x) s.
Proof.
  intros (n & [s1 r] & Hr & Hn) Hf. destruct r as [a|e| |]; [|exists n; eexists; split; [|intros fuel Hl; unfold mbind, pump_bind; by rewrite Hn]; done..].
  destruct (Hf s1 a) as (n2 & r2 & Hr2 & Hn2). exists (Nat.max n n2), r2. split; [done|]. intros fuel Hl.
  unfold mbind, pump_bind. rewrite Hn by lia. apply Hn2. lia.
Qed.

Lemma ends_const {A} (p : Pump A) s : (p s).2 ≠ NoFuel → ends (λ _, p) s.
Proof. intros Hp. by exists 0%nat, (p s). Qed.

Lemma on_conn_fuel {A} (f : Connection → Connection * A) s : (on_conn f s).2 ≠ NoFuel.
Proof. unfold on_conn. by destruct (f s.1). Qed.

Lemma write_ends data s : ends (λ fuel, tls_write sock fuel data) s.
Proof.
  apply ends_bind; [apply drain_ends|]. intros s1 b.
  apply (ends_bind (λ _, on_conn _) (λ fuel r, match r with inl e => _ | inr 0%nat => _ | inr (S _) => _ end));
    [apply ends_const, on_conn_fuel|].
  intros s2 [e|[|n]]; [by apply ends_const| |].
  - apply ends_const. unfold mbind, pump_bind, asks. by destruct (wants_write s2.1).
  - apply (ends_bind (drain sock) (λ _ _, mret (Finished (S n)))); [apply drain_ends|]. intros s3 b'. by apply ends_const.
Qed.

Lemma close_ends s : ends (tls_close sock) s.
Proof.
  apply (ends_bind (λ _, on_conn _) (λ fuel _, flushed ← drain sock fuel; mret _)); [apply ends_const, on_conn_fuel|].
  intros s1 []. apply ends_bind; [apply drain_ends|]. intros s2 b. by apply ends_const.
Qed.

(** ** A flush that succeeds leaves nothing to send *)

Lemma drain_true fuel : ∀ s s', drain sock fuel s = (s', Ok true) → wants_write s'.1 = false.
Proof.
  induction fuel as [|fuel IH]; intros s s'; cbn [drain]; [done|].
  unfold mbind, pump_bind, asks. destruct (wants_write s.1) eqn:Hw; [|by intros [= <-]].
  destruct (at_socket (write_tls sock) s) as [s1 [[e|[|m]]| | |]]; try done; [by destruct (decide _)|apply IH].
Qed.

Lemma handshake_finished fuel : ∀ s s',
  handshake sock fuel s = (s', Ok (Finished tt)) → is_handshaking s'.1 = false ∧ wants_write s'.1 = false.
Proof.
  induction fuel as [|fuel IH]; intros s s'; [done|]. cbn [handshake].
  unfold mbind at 1, pump_bind at 1. destruct (drain sock (S fuel) s) as [s1 [b| | |]] eqn:Hd; try done.
  destruct b; [|done]. cbn [negb]. unfold mbind at 1, pump_bind at 1, asks.
  destruct (is_handshaking s1.1) eqn:Hh; cbn [negb].
  - unfold mbind at 1, pump_bind at 1. destruct (fill sock (S fuel) s1) as [s2 [[]| | |]]; try done. apply IH.
  - intros [= <-]. split; [done|]. by apply drain_true in Hd.
Qed.

Lemma drain_notified notified fuel : notify_laws notified → ∀ s, notified s.1 → notified (drain sock fuel s).1.1.
Proof.
  intros Hn. induction fuel as [|fuel IH]; intros [c o] Hc; cbn [drain]; [done|].
  unfold mbind, pump_bind, asks, at_socket. cbn [fst snd]. destruct (wants_write c); [|done]. cbn [fst snd].
  pose proof (ln_send _ Hn sock c o Hc) as Hs. destruct (write_tls sock c o) as [o' [c' [e|[|m]]]]; cbn [fst snd] in *.
  - by destruct (decide _).
  - done.
  - by apply IH.
Qed.

Lemma close_notified notified fuel s : notify_laws notified → notified (tls_close sock fuel s).1.1.
Proof.
  intros Hn. unfold tls_close, on_conn, mbind, pump_bind.
  pose proof (drain_notified notified fuel Hn (send_close_notify s.1, s.2) (ln_notify _ Hn _)) as Hd.
  by destruct (drain sock fuel _) as [s1 [[]| | |]].
Qed.

Lemma close_finished fuel s s' :
  tls_close sock fuel s = (s', Ok (Finished tt)) → wants_write s'.1 = false.
Proof.
  unfold tls_close. unfold mbind at 1, pump_bind at 1. destruct (on_conn _ s) as [s1 [[]| | |]]; try done.
  unfold mbind, pump_bind. destruct (drain sock fuel s1) as [s2 [[]| | |]] eqn:Hd; try done.
  intros [= <-]. by apply drain_true in Hd.
Qed.

(** ** A write feeds its plaintext once *)

(** What one call of [tls_write] on [data] makes of the plaintext taken before. *)
Definition fed_once (data before : list u8) (r : PumpState * res TlsError (Progress nat)) : Prop :=
  match r.2 with
  | Ok (Finished n) => (0 < n ≤ length data)%nat ∧ fed r.1.1 = before ++ take n data
  | Ok Blocked => fed r.1.1 = before ∧ wants_write r.1.1 = true
  | Err e => fed r.1.1 = before ∨
      ∃ n err, (0 < n ≤ length data)%nat ∧ fed r.1.1 = before ++ take n data ∧ e = Io err
  | Panic => False
  | NoFuel => True
  end.

Lemma drain_errs fuel : ∀ s s' e, drain sock fuel s = (s', Err e) → ∃ err, e = Io err.
Proof.
  induction fuel as [|fuel IH]; intros s s' e; cbn [drain]; [done|].
  unfold mbind, pump_bind, asks. destruct (wants_write s.1); [|done].
  destruct (at_socket (write_tls sock) s) as [s1 [[er|[|m]]|er2| |]] eqn:Ha; try done; [|by apply IH|].
  - destruct (decide _); [done|]. intros [= _ <-]. by eexists.
  - unfold at_socket in Ha. by destruct (write_tls sock s.1 s.2) as [? []].
Qed.

Lemma drain_no_panic fuel : ∀ s, (drain sock fuel s).2 ≠ Panic.
Proof.
  induction fuel as [|fuel IH]; intros s; cbn [drain]; [done|].
  unfold mbind, pump_bind, asks. destruct (wants_write s.1); [|done].
  destruct (at_socket (write_tls sock) s) as [s1 [[er|[|m]]|er2| |]] eqn:Ha; try done; [by destruct (decide _)|].
  unfold at_socket in Ha. by destruct (write_tls sock s.1 s.2) as [? []].
Qed.

Lemma write_once fuel data s : fed_once data (fed s.1) (tls_write sock fuel data s).
Proof.
  unfold tls_write. unfold mbind at 1, pump_bind at 1.
  pose proof (drain_feeds fuel s) as Hf1. pose proof (drain_no_panic fuel s) as Hp1.
  destruct (drain sock fuel s) as [[c1 o1] [b|e| |]]; cbn [fst snd] in *; try done; [|by left].
  rewrite <-Hf1. clear Hf1 Hp1 b. unfold mbind at 1, pump_bind at 1, on_conn. cbn [fst snd].
  pose proof (lw_taken _ _ Hlaws c1 data) as Ht. pose proof (lw_refused _ _ Hlaws c1 data) as Hr.
  destruct (writer_write c1 data) as [c2 [e|n]]; cbn [fst snd] in *; [left; by apply (Hr e)|].
  destruct (Ht n eq_refl) as [Hn Hfed]. clear Ht Hr. destruct n as [|n].
  - rewrite app_nil_r in Hfed. unfold mbind, pump_bind, asks. cbn [fst snd].
    destruct (wants_write c2) eqn:Hw; [by split|by left].
  - unfold mbind, pump_bind. pose proof (drain_feeds fuel (c2, o1)) as Hf. pose proof (drain_no_panic fuel (c2, o1)) as Hp.
    destruct (drain sock fuel (c2, o1)) as [[c3 o3] [b|e| |]] eqn:Hd; cbn [fst snd] in *; try done.
    + unfold fed_once. cbn [fst snd mret pump_ret]. rewrite Hf. split; [lia|done].
    + right. destruct (drain_errs _ _ _ _ Hd) as [err ->]. exists (S n), err. cbn [fst]. rewrite Hf. by split_and!; [lia|lia|..].
Qed.

(** The same write run again each time the socket was waited for; the system moves on in
    between. *)
Fixpoint retry (fuel : nat) (data : list u8) (moves : list (Os → Os)) (s : PumpState) :
    PumpState * res TlsError (Progress nat) :=
  match tls_write sock fuel data s, moves with
  | ((c, o), Ok Blocked), move :: moves' => retry fuel data moves' (c, move o)
  | r, _ => r
  end.

Lemma retry_once fuel data moves : ∀ s, fed_once data (fed s.1) (retry fuel data moves s).
Proof.
  induction moves as [|move moves IH]; intros s; cbn [retry]; pose proof (write_once fuel data s) as Hw;
    destruct (tls_write sock fuel data s) as [[c o] [[n|]|e| |]]; try done.
  destruct Hw as [Hw _]. cbn [fst] in Hw. rewrite <-Hw. apply (IH (c, move o)).
Qed.
End contract.

(** C24: A TLS write sends its plaintext once.  Run [tls_write] as often as the socket
    blocks, whatever happens outside in between: the connection has taken nothing while
    the outcome is [Blocked], and then it still has something to send, so waiting is
    right; with [Finished n] it has taken the first [n] bytes of the data exactly once,
    and at least one; an error leaves the plaintext untouched, or is a failure of the
    transport after [n] bytes were taken.  A call never panics and, with fuel enough,
    returns. *)
Theorem tls_write_once `{SystemTypes} `{NetTypes} `{!Rustls} fed outgoing sock fuel data moves (s : PumpState) :
  rustls_laws fed outgoing →
  fed_once fed data (fed s.1) (retry sock fuel data moves s) ∧ ends (λ fuel, tls_write sock fuel data) s.
Proof. intros Hl. split; [by apply (retry_once sock fed outgoing)|by apply (write_ends sock fed outgoing)]. Qed.

(** C25: A TLS step that is reported done is done.  A handshake that finishes is over for
    the library and has sent all it had to.  A close, however it ends, has told the library
    to notify the peer (for every predicate that the notification establishes and that
    sending keeps), and a close that finishes has nothing left to send, so the
    notification is sent too.  Neither these nor a read take plaintext, whatever their
    outcome; and a flush or a close returns once it has fuel enough. *)
Theorem tls_done_is_flushed `{SystemTypes} `{NetTypes} `{!Rustls} fed outgoing notified sock fuel (s s' : PumpState) :
  rustls_laws fed outgoing → notify_laws notified →
  (handshake sock fuel s = (s', Ok (Finished tt)) → is_handshaking s'.1 = false ∧ wants_write s'.1 = false) ∧
  notified (tls_close sock fuel s).1.1 ∧
  (tls_close sock fuel s = (s', Ok (Finished tt)) → notified s'.1 ∧ wants_write s'.1 = false) ∧
  fed (handshake sock fuel s).1.1 = fed s.1 ∧ fed (tls_close sock fuel s).1.1 = fed s.1 ∧
  (∀ max, fed (tls_read sock fuel max s).1.1 = fed s.1) ∧
  ends (drain sock) s ∧ ends (tls_close sock) s.
Proof.
  intros Hl Hn. pose proof (close_notified sock notified fuel s Hn) as Hc. split_and!.
  - apply handshake_finished.
  - done.
  - intros Hf. rewrite Hf in Hc. split; [done|]. by eapply close_finished.
  - by apply (handshake_feeds sock fed outgoing).
  - by apply (close_feeds sock fed outgoing).
  - intros max. by apply (read_feeds sock fed outgoing).
  - by apply (drain_ends sock fed outgoing).
  - by apply (close_ends sock fed outgoing).
Qed.

(** ** Witnesses *)

Definition toy_plaintext : Connection → list u8 := toy_fed.
Definition toy_pending : Connection → nat := λ c, length (toy_out c).

Lemma demo_laws : rustls_laws toy_plaintext toy_pending.
Proof.
  constructor.
  - intros c. cbn. rewrite bool_decide_eq_true. unfold toy_pending. by destruct (toy_out c).
  - intros sock c o n. cbn. unfold mbind, syscall_bind, blocking. destruct (sim_blocks o); cbn; [|done].
    intros [= <-]. unfold toy_pending. cbn. rewrite length_drop. destruct (toy_out c); cbn; lia.
  - intros sock c o. cbn. unfold mbind, syscall_bind, blocking. by destruct (sim_blocks o).
  - intros sock c o. cbn. unfold mbind, syscall_bind, blocking. by destruct (sim_blocks o).
  - done.
  - done.
  - done.
  - intros c data n [= <-]. cbn. by rewrite take_ge.
  - done.
Qed.

(** The network blocks twice. *)
Definition blocked_pump : PumpState := (mkToy [9] [] 1 false, mkSim ∅ 0 2 0).

Lemma tls_write_once_witness :
  fed_once toy_plaintext [7; 8] [] (retry ""%string 9 [7; 8] [id; id] blocked_pump).
Proof. exact (proj1 (tls_write_once toy_plaintext _ ""%string 9 [7; 8] [id; id] blocked_pump demo_laws)). Defined.

Definition shaking : PumpState := (mkToy [1; 2] [] 1 false, mkSim ∅ 0 0 0).
Definition shaken : PumpState := (mkToy [] [] 0 false, mkSim ∅ 0 0 0).

Definition toy_told : Connection → Prop := λ c, toy_notified c = true.

Lemma demo_notify : notify_laws toy_told.
Proof.
  constructor; [done|]. intros sock c o Hc. unfold toy_told in *. cbn. unfold mbind, syscall_bind, blocking.
  by destruct (sim_blocks o).
Qed.

Lemma tls_done_is_flushed_witness :
  wants_write (handshake ""%string 9 shaking).1.1 = false ∧
  toy_notified (tls_close ""%string 9 shaking).1.1 = true ∧ wants_write (tls_close ""%string 9 shaking).1.1 = false.
Proof.
  destruct (tls_done_is_flushed toy_plaintext _ _ ""%string 9 shaking shaken demo_laws demo_notify) as (Hh & Hc & _).
  split; [exact (proj2 (Hh eq_refl))|]. split; [exact Hc|].
  destruct (tls_done_is_flushed toy_plaintext _ _ ""%string 9 shaking (mkToy [] [] 1 true, mkSim ∅ 0 0 0) demo_laws demo_notify)
    as (_ & _ & Hf & _).
  exact (proj2 (Hf eq_refl)).
Defined.

(** The first call sends nothing and takes the data; the rest is sent later. *)
Example blocked_write :
  (tls_write ""%string 9 [7; 8] blocked_pump).1.1 = mkToy [9; 7; 8] [7; 8] 1 false ∧
  (tls_write ""%string 9 [7; 8] blocked_pump).2 = Ok (Finished 2%nat).
Proof. split; vm_compute; reflexivity. Qed.
