(* ===== verification/SystemSafe.v ===== *)
(** * The I/O natives keep the interpreter's invariant

    Whatever the operating system answers, a file, directory, stream, environment,
    process or library native traps or keeps the world well formed; in particular the
    payload a worker hands back is always of the type its builder expects. *)

From Stdlib Require Import ZArith Lia.
From stdpp Require Import base numbers list strings gmap pretty.
From S2P Require Import Prelude Bytes Float64 Instr ModuleTable Value Utf8 Heap HeapProofs MapObj Trap.
From S2P Require Import Scheduler SchedulerProofs SchedulerSpec Render Interp InterpProofs Driver DriverProofs.
From S2P Require Import NativesBase NativesText NativesColl NativesFiber NativesFacts NativesSafe NativesWorld.
From S2P Require Import System NativesFs NativesEnv NativesLib NativesProcess.

Open Scope Z_scope.

(** A job's payloads are its results; the statics are apart from the jobs. *)
Record process_ok `{SystemTypes} {Ext} `{!Process Ext} (outside : Outside Job Payload Ext) : Prop := {
  ps_answers : ∀ job p, answers outside job p → ∃ g, (job g).2 = p;
  ps_kept : ∀ e g, kept outside e (set_statics e g);
}.

Section safe.
Context `{Sizes} `{SystemTypes} {Ext : Type} `{!Process Ext}.
Context (outside : Outside Job Payload Ext) (module : Module) (cur : option nat).
Context (Hps : process_ok outside) (vd : Value → string).

#[local] Abbreviation World := (World (Job := Job) (Payload := Payload) (Ext := Ext)).
#[local] Abbreviation Native := (Native (Job := Job) (Payload := Payload) (Ext := Ext)).
#[local] Abbreviation native_ok := (native_ok outside module cur).
#[local] Abbreviation world_ok := (world_ok outside module cur).
#[local] Abbreviation native_post := (native_post outside module cur).
Implicit Types w : World.

(** ** Parks and the statics *)

(** What a builder may do with a payload of its type. *)
Definition build_ok {T} (build : Build (Ext := Ext) T) : Prop :=
  ∀ x e m, sane outside e → mem_wf m →
  safe (λ '(e', m', v), kept outside e e' ∧ mem_wf m' ∧ live m' v ∧ keeps_live m m' ∧ mem_rel m m')
    (build x e m).

Lemma building_ok {T} (f : T → Mem → res Trap (Mem * Value)) :
  (∀ x m, mem_wf m → safe (step_post m) (f x m)) → build_ok (building f).
Proof.
  intros Hf x e m He Hm. unfold building. eapply safe_bind; [by apply Hf|].
  intros [m' v] (? & ? & ? & ?). split_and!; try done. apply kept_refl.
Qed.

(** The result of a job has the type its builder downcasts to. *)
Lemma park_syscall_safe w t job build :
  world_ok w → build_ok build → native_post w (park_syscall t w job build, Unit).
Proof.
  intros Hw Hb. apply post_here; [|done|done]. apply world_park; [done|].
  intros p Hp e m He Hm. apply (ps_answers _ Hps) in Hp as [g <-].
  assert (((x ← job; mret (boxed t x)) g).2 = boxed t (job g).2) as ->.
  { unfold mbind, syscall_bind, mret, syscall_ret. by destruct (job g). }
  rewrite downcast_boxed. cbn [or_panic mbind res_bind]. by apply Hb.
Qed.

Lemma kept_in_ext {A} (c : Syscall Statics A) e : kept outside e (in_ext c e).1.
Proof. unfold in_ext. destruct (c (statics e)) as [g a]. apply (ps_kept _ Hps). Qed.

Lemma in_world_fst {A} (c : Syscall Statics A) w : (in_world c w).1 = set_w_ext w (in_ext c (w_ext w)).1.
Proof. unfold in_world. by destruct (in_ext c (w_ext w)). Qed.

Lemma in_world_safe {A} (c : Syscall Statics A) w : world_ok w → world_ok (in_world c w).1.
Proof. intros Hw. rewrite in_world_fst. apply world_ext; [done|apply kept_in_ext]. Qed.

(** What follows a call on the Thera thread. *)
Lemma in_world_post {A} (c : Syscall Statics A) w (k : World → A → res Trap (World * Value)) :
  world_ok w →
  (∀ w1 x, world_ok w1 → w_mem w1 = w_mem w → safe (native_post w1) (k w1 x)) →
  safe (native_post w) (let (w1, x) := in_world c w in k w1 x).
Proof.
  intros Hw Hk. pose proof (in_world_safe c w Hw) as Hw1. pose proof (in_world_fst c w) as Hf.
  destruct (in_world c w) as [w1 x]. cbn [fst] in *.
  eapply safe_mono; [by apply Hk; [|rewrite Hf]|].
  intros [w2 v] (? & ? & ? & ?). rewrite Hf in *. by split_and!.
Qed.

Lemma returning_safe w r : world_ok w → safe (step_post (w_mem w)) r → safe (native_post w) (returning w r).
Proof.
  intros Hw Hr. unfold returning. eapply safe_bind; [exact Hr|]. intros [m v] Hp. by apply post_mem.
Qed.

(** ** Results *)

Lemma live_unit m : live m Unit.
Proof. done. Qed.

Lemma ok_safe m v : mem_wf m → live m v → safe (step_post m) (ok m v).
Proof. intros Hm Hv. apply alloc_post; [done|done|by apply Forall_singleton]. Qed.

Lemma some_safe m v : mem_wf m → live m v → safe (step_post m) (some m v).
Proof. intros Hm Hv. apply alloc_post; [done|done|by apply Forall_singleton]. Qed.

Lemma none_safe m : mem_wf m → safe (step_post m) (none m).
Proof. intros Hm. apply alloc_post; [done|done|by apply Forall_nil]. Qed.

Lemma new_str_safe m s : mem_wf m → safe (step_post m) (new_str m s).
Proof. intros Hm. apply alloc_post; [done|done|by apply Forall_nil]. Qed.

Lemma new_bytes_safe m b : mem_wf m → safe (step_post m) (new_bytes m b).
Proof. intros Hm. apply alloc_post; [done|done|by apply Forall_nil]. Qed.

(** One step of building a value and what follows. *)
Lemma step_bind m (r : res Trap (Mem * Value)) (k : Mem * Value → res Trap (Mem * Value)) :
  safe (step_post m) r →
  (∀ m1 v, mem_wf m1 → live m1 v → keeps_live m m1 → safe (step_post m1) (k (m1, v))) →
  safe (step_post m) (x ← r; k x).
Proof.
  intros Hr Hk. eapply safe_bind; [exact Hr|]. intros [m1 v] (Hm1 & Hv & Hk1 & Hr1).
  eapply safe_mono; [by apply Hk|]. intros r' Hp. by eapply step_trans.
Qed.

Lemma err_str_safe m s : mem_wf m → safe (step_post m) (err_str m s).
Proof.
  intros Hm. apply step_bind; [by apply new_str_safe|]. intros m1 v Hm1 Hv _.
  apply alloc_post; [done|done|by apply Forall_singleton].
Qed.

(** [Value::ok] or [Value::some] around a value just built. *)
Lemma ok_of_safe m r : safe (step_post m) r → safe (step_post m) ('(m, v) ← r; ok m v).
Proof. intros Hr. apply step_bind; [done|]. intros m1 v Hm1 Hv _. by apply ok_safe. Qed.

Lemma some_of_safe m r : safe (step_post m) r → safe (step_post m) ('(m, v) ← r; some m v).
Proof. intros Hr. apply step_bind; [done|]. intros m1 v Hm1 Hv _. by apply some_safe. Qed.

Lemma fs_result_ok {A} path (new : A → Mem → res Trap (Mem * Value)) :
  (∀ x m, mem_wf m → safe (step_post m) (new x m)) → build_ok (fs_result path new).
Proof.
  intros Hn. apply building_ok. intros [e|x] m Hm; [by apply err_str_safe|]. by apply ok_of_safe, Hn.
Qed.

Lemma unit_value_safe x m : mem_wf m → safe (step_post m) (unit_value x m).
Proof. intros Hm. by apply step_here. Qed.

Lemma metadata_safe md m : mem_wf m → safe (step_post m) (metadata_fields md m).
Proof. intros Hm. apply alloc_post; [done|done|]. by repeat constructor. Qed.
End safe.

#[export] Hint Resolve ok_safe some_safe none_safe new_str_safe new_bytes_safe err_str_safe ok_of_safe
  some_of_safe unit_value_safe metadata_safe string_list_safe live_unit : io_safe.
#[export] Hint Extern 1 (build_ok _ (fs_result _ _)) => (apply fs_result_ok; intros ? ? ?) : io_safe.
#[export] Hint Extern 1 (build_ok _ (building _)) => (apply building_ok; intros ? ? ?) : io_safe.
#[export] Hint Extern 1 (live _ (Int _)) => done : io_safe.
#[export] Hint Extern 1 (live _ (Bool _)) => done : io_safe.
#[export] Hint Extern 1 (safe (step_post _) (text_value _ _)) => (apply new_str_safe) : io_safe.
#[export] Hint Extern 1 (safe (step_post _) (bytes_value _ _)) => (apply new_bytes_safe) : io_safe.
#[export] Hint Extern 1 (safe (step_post _) (names_value _ _)) => (apply string_list_safe) : io_safe.

(** Peel one check, call or park off an I/O native. *)
Ltac io_step :=
  lazymatch goal with
  | |- safe _ (mbind _ (expect_no_args ?args _)) =>
      eapply (safe_bind (λ _, True)); [by destruct args|]; intros ? _
  | |- safe (native_post _ _ _ ?w) (let (_, _) := in_world _ ?w in _) =>
      apply in_world_post; [done|done|]; intros ? ? ? ?
  | |- safe (native_post _ _ _ ?w) (returning ?w _) => apply returning_safe; [done|]
  | |- safe (native_post _ _ _ ?w) (Ok (park_syscall _ ?w _ _, Unit)) => apply park_syscall_safe; [done|done|]
  | |- safe (native_post _ _ _ ?w) (Ok (?w, _)) => apply post_here; [done|done|done]
  | |- _ => native_step
  end.

(** The memory of the world at hand is well formed. *)
Ltac world_mem :=
  repeat match goal with
  | Hw : world_ok _ _ _ ?w |- _ =>
      lazymatch goal with
      | _ : mem_wf (w_mem w) |- _ => fail
      | _ => pose proof (wd_mem _ _ _ _ Hw)
      end
  end.

Ltac head t := lazymatch t with ?f _ => head f | _ => t end.

Ltac io_native :=
  apply native_ok_post; intros w args Hw Ha;
  lazymatch goal with |- safe _ (?f w args) => let h := head f in unfold h end; world_mem;
  repeat (io_step; world_mem; auto with io_safe).

Section fs.
Context `{Sizes} `{SystemTypes} {Ext : Type} `{!Process Ext} `{!FileSystem}.
Context (outside : Outside Job Payload Ext) (module : Module) (cur : option nat).
Context (Hps : process_ok outside) (vd : Value → string).

#[local] Abbreviation World := (World (Job := Job) (Payload := Payload) (Ext := Ext)).
#[local] Abbreviation Native := (Native (Job := Job) (Payload := Payload) (Ext := Ext)).
#[local] Abbreviation native_ok := (native_ok outside module cur).
Implicit Types w : World.

(** The natives that only use a path, data and the operating system. *)
Definition path_natives : list Native := [
  native_fs_read_text vd; native_fs_write_text vd; native_fs_read_bytes vd; native_fs_write_bytes vd;
  native_fs_exists vd; native_fs_list_dir vd; native_fs_read_dir vd; native_fs_metadata vd;
  native_fs_symlink_metadata vd; native_fs_create_dir vd; native_fs_create_dir_all vd; native_fs_remove vd;
  native_fs_remove_dir_all vd; native_fs_rename vd; native_fs_copy vd; native_fs_temp_dir;
  native_io_stdin_read vd ].

Lemma path_natives_ok : Forall native_ok path_natives.
Proof.
  repeat (apply Forall_cons; split); [..|by apply Forall_nil]; io_native.
  apply building_ok. intros [e|b] m Hm; auto with io_safe.
Qed.

(** *** Open files *)

Lemma insert_kept e id f : kept outside e (in_ext (insert_file id f) e).1.
Proof. by apply kept_in_ext. Qed.

Lemma opened_ok path : build_ok outside (opened path).
Proof.
  intros [er|f] e m He Hm; cbn [opened].
  - eapply safe_bind; [by apply err_str_safe|]. intros [m' v] (? & ? & ? & ?).
    split_and!; try done. apply kept_refl.
  - unfold register_file. pose proof (kept_in_ext outside Hps next_file_id e) as H1'.
    destruct (in_ext next_file_id e) as [e1 id]. pose proof (insert_kept e1 id f) as H2'.
    destruct (in_ext (insert_file id f) e1) as [e2 u]. eapply safe_bind; [by apply ok_safe|].
    intros [m' v] (? & ? & ? & ?). split_and!; try done. by eapply kept_trans.
Qed.

(** A call on the Thera thread before a builder that only allocates. *)
Lemma in_ext_build {A T} (c : T → Syscall Statics A) (build : Build (Ext := Ext) T) :
  build_ok outside build →
  build_ok outside (λ x e m, let (e, _) := in_ext (c x) e in build x e m).
Proof.
  intros Hb x e m He Hm. pose proof (kept_in_ext outside Hps (c x) e) as Hk.
  destruct (in_ext (c x) e) as [e1 u]. cbn [fst] in Hk.
  eapply safe_mono; [apply Hb; [by eapply kept_sane|done]|].
  intros [[e' m'] v] (? & ? & ? & ? & ?). split_and!; try done. by eapply kept_trans.
Qed.

(** A file taken out of the registry is used by a job, or was not there. *)
Lemma taken_safe w handle t (job : File → Syscall Statics (File * io (type_of t))) new taken :
  world_ok outside module cur w → (∀ x m, mem_wf m → safe (step_post m) (new x m)) →
  safe (native_post outside module cur w)
    match taken with
    | None => returning w (file_closed_err (w_mem w))
    | Some f =>
        Ok (park_syscall (TPair TFile (TIo t)) w (job f)
              (λ '(f, r) e m, let (e, _) := in_ext (return_file handle f) e in fs_result "<file>" new r e m), Unit)
    end.
Proof.
  intros Hw Hn. destruct taken as [f|]; [|apply returning_safe; [done|by apply err_str_safe, Hw]].
  apply park_syscall_safe; [done|done|]. intros [f' r] e m He Hm.
  apply (in_ext_build (λ _, return_file handle f') (fs_result "<file>" new)); [|done|done].
  by apply fs_result_ok.
Qed.

Definition file_natives : list Native := [
  native_fs_open vd; native_fs_create vd; native_fs_temp_file vd; native_file_read vd;
  native_file_write vd; native_file_seek vd; native_file_close vd ].

Lemma temp_outcome_safe o m : mem_wf m → safe (step_post m) (temp_outcome o m).
Proof. intros Hm. destruct o; cbn [temp_outcome]; auto with io_safe. by apply err_str_safe. Qed.

Lemma file_natives_ok : Forall native_ok file_natives.
Proof.
  repeat (apply Forall_cons; split); [..|by apply Forall_nil]; io_native.
  - apply opened_ok.
  - apply opened_ok.
  - apply building_ok, temp_outcome_safe.
  - destruct (_ =? 0); [by io_step; auto with io_safe|]. io_step. world_mem.
    apply (taken_safe _ _ TBytes (file_read_job _) bytes_value); auto with io_safe.
  - apply (taken_safe _ _ TUnit (file_write_job _)); [done|]. intros y m Hm. by apply step_here.
  - eapply (safe_bind (λ _, True)); [by apply safe_ok_or|]. intros target _. io_step. world_mem.
    apply (taken_safe _ _ TU64 (λ f, on_os (file_seek f target))); [done|]. intros y m Hm. by apply step_here.
  - case_match; io_step; world_mem; auto with io_safe; [|by apply err_str_safe].
    io_step; world_mem; auto with io_safe.
Qed.
End fs.

(** ** Environment, library and process natives *)

Section env.
Context `{Sizes} `{SystemTypes} {Ext : Type} `{!Process Ext} `{!FileSystem} `{!Environment} `{!RegexLib}.
Context (outside : Outside Job Payload Ext) (module : Module) (cur : option nat).
Context (Hps : process_ok outside) (vd : Value → string).

#[local] Abbreviation World := (World (Job := Job) (Payload := Payload) (Ext := Ext)).
#[local] Abbreviation Native := (Native (Job := Job) (Payload := Payload) (Ext := Ext)).
#[local] Abbreviation native_ok := (native_ok outside module cur).
#[local] Abbreviation native_post := (native_post outside module cur).
Implicit Types w : World.

Lemma some_str_safe m s : mem_wf m → safe (step_post m) (some_str m s).
Proof. intros Hm. by apply some_of_safe, new_str_safe. Qed.

Lemma ok_str_safe m s : mem_wf m → safe (step_post m) (ok_str m s).
Proof. intros Hm. by apply ok_of_safe, new_str_safe. Qed.

Definition env_natives : list Native := [
  native_env_get vd; native_env_args; native_env_current_dir; native_env_current_exe;
  native_env_set_current_dir vd; native_env_os; native_env_exit vd; native_term_is_tty; native_term_size ].

Lemma env_natives_ok : Forall native_ok env_natives.
Proof.
  repeat (apply Forall_cons; split); [..|by apply Forall_nil]; io_native; try done; case_match;
    auto using some_str_safe, ok_str_safe with io_safe.
  case_match. apply some_of_safe, alloc_post; [done|done|]. by repeat constructor.
Qed.

(** A name or a value the standard library rejects. *)
Lemma env_set_safe w args :
  world_ok outside module cur w → lives (w_mem w) args →
  native_env_set vd w args = Panic ∨ safe (native_post w) (native_env_set vd w args).
Proof.
  intros Hw Ha. unfold native_env_set. world_mem. destruct args as [|a [|b []]]; try by right.
  cbn [args2 mbind res_bind]. apply Forall_cons in Ha as [Hla [Hlb _]%Forall_cons].
  pose proof (str_contents_safe (w_mem w) (wd_mem _ _ _ _ Hw) vd a Hla) as Hsa.
  destruct (str_contents vd (w_mem w) a) as [name| | |]; try by right. cbn [mbind res_bind].
  pose proof (str_contents_safe (w_mem w) (wd_mem _ _ _ _ Hw) vd b Hlb) as Hsb.
  destruct (str_contents vd (w_mem w) b) as [value| | |]; try by right. cbn [mbind res_bind].
  destruct (set_var_panics name value); [by left|right]. by repeat io_step.
Qed.

(** *** Regular expressions *)

Lemma regex_args_safe w args who : mem_wf (w_mem w) → lives (w_mem w) args → safe (λ _, True) (regex_args vd w args who).
Proof. intros Hm Ha. unfold regex_args. native. Qed.

Lemma regex_args3_safe w args who : mem_wf (w_mem w) → lives (w_mem w) args → safe (λ _, True) (regex_args3 vd w args who).
Proof. intros Hm Ha. unfold regex_args3. native. Qed.

Lemma with_regex_safe {R} w handle who (f : Regex → R) : safe (λ _, True) (with_regex w handle who f).
Proof. unfold with_regex. by destruct (_ !! _). Qed.

Lemma offsets_live m p : lives m (offsets p).
Proof. by repeat constructor. Qed.

Lemma match_list_safe {A} m (f : A → list Value) xs :
  mem_wf m → (∀ x, lives m (f x)) → safe (step_post m) (new_list m (xs ≫= f)).
Proof. intros Hm Hf. apply alloc_post; [done|done|]. apply Forall_bind, Forall_true. auto. Qed.

Definition regex_natives : list Native := [
  native_regex_compile vd; native_regex_is_match vd; native_regex_find vd; native_regex_find_all vd;
  native_regex_captures vd; native_regex_replace vd; native_regex_replace_all vd ].

Lemma regex_natives_ok : Forall native_ok regex_natives.
Proof.
  repeat (apply Forall_cons; split); [..|by apply Forall_nil]; io_native;
    try (eapply safe_bind; [by apply regex_args_safe|intros [handle text] _]);
    try (eapply safe_bind; [by apply regex_args3_safe|intros [[handle text] repl] _]);
    try (eapply safe_bind; [by apply with_regex_safe|intros x _]);
    repeat (io_step; world_mem; auto with io_safe).
  - case_match; repeat (io_step; world_mem; auto with io_safe).
  - apply alloc_post; [done|done|]. destruct x; [apply offsets_live|by apply Forall_nil].
  - apply match_list_safe; [done|]. apply offsets_live.
  - destruct x as [gs|]; [|by apply alloc_post, Forall_nil].
    apply match_list_safe; [done|]. intros [p|]; [apply offsets_live|by repeat constructor].
Qed.
End env.

Section lib.
Context `{Sizes} `{!MathLib} `{!Digests} (vd : Value → string).

Definition lib_natives : list MemNative := [
  native_math_sqrt vd; native_math_floor vd; native_math_ceil vd; native_math_round vd;
  native_math_trunc vd; native_math_exp vd; native_math_ln vd; native_math_log10 vd; native_math_sin vd;
  native_math_cos vd; native_math_tan vd; native_math_asin vd; native_math_acos vd; native_math_atan vd;
  native_math_pow vd; native_math_atan2 vd; native_math_hypot vd; native_str_to_double vd;
  native_str_to_uppercase vd; native_str_to_lowercase vd; native_hash_sha256 vd; native_hash_sha1 vd;
  native_hash_md5 vd; native_hash_crc32 vd ].

Lemma lib_natives_ok : Forall mem_native_ok lib_natives.
Proof.
  repeat (apply Forall_cons; split); [..|by apply Forall_nil]; intros m args Hm Ha;
    lazymatch goal with |- safe _ (?f m args) => let h := head f in unfold h end; unfold math_unary; native.
  apply option_value_safe; [done|]. intros v. by destruct (parse_f64 _) as [x|]; intros [= <-].
Qed.
End lib.

Section process.
Context `{Sizes} `{SystemTypes} {Ext : Type} `{!Process Ext} `{!FileSystem} `{!Processes} `{!Console Ext}.
Context (outside : Outside Job Payload Ext) (module : Module) (cur : option nat).
Context (Hps : process_ok outside) (Hcon : console_ok outside) (vd : Value → string).

#[local] Abbreviation World := (World (Job := Job) (Payload := Payload) (Ext := Ext)).
#[local] Abbreviation Native := (Native (Job := Job) (Payload := Payload) (Ext := Ext)).
#[local] Abbreviation native_ok := (native_ok outside module cur).
Implicit Types w : World.

Lemma start_instant_ok w : world_ok outside module cur w →
  world_ok outside module cur (start_instant w).1 ∧ w_mem (start_instant w).1 = w_mem w.
Proof.
  intros Hw. unfold start_instant. destruct (START _) as [t|]; [done|].
  pose proof (ck_now _ Hcon (w_ext w)) as Hn. destruct (instant_now (w_ext w)) as [e t].
  rewrite in_world_eq. cbn [fst w_ext set_w_ext]. split; [|done].
  by apply world_console; [apply world_console|apply kept_in_ext].
Qed.

Lemma monotonic_ok : native_ok native_time_monotonic_nanos.
Proof.
  apply native_ok_post. intros w args Hw Ha. unfold native_time_monotonic_nanos. io_step.
  destruct (start_instant_ok w Hw) as [Hw1 Hm]. destruct (start_instant w) as [w1 t]. cbn [fst] in *.
  pose proof (ck_now _ Hcon (w_ext w1)) as Hn. destruct (instant_now (w_ext w1)) as [e t2].
  apply post_here; [by apply world_console|done|done].
Qed.

Lemma proc_result_safe {A} what (new : A → Mem → res Trap (Mem * Value)) r m :
  (∀ x m, mem_wf m → safe (step_post m) (new x m)) → mem_wf m → safe (step_post m) (proc_result what new r m).
Proof. intros Hn Hm. destruct r as [e|x]; [by apply err_str_safe|]. by apply ok_of_safe, Hn. Qed.

Lemma code_value_safe c m : mem_wf m → safe (step_post m) (code_value c m).
Proof. intros Hm. by apply step_here. Qed.

Lemma output_value_safe o m : mem_wf m → safe (step_post m) (output_value o m).
Proof.
  intros Hm. unfold output_value. apply step_bind; [by apply new_str_safe|]. intros m1 v1 Hm1 Hv1 _.
  apply step_bind; [by apply new_str_safe|]. intros m2 v2 Hm2 Hv2 Hk. apply alloc_post; [done|done|].
  by repeat constructor; [apply Hk|].
Qed.

Section args.
Context (m : Mem) (Hm : mem_wf m).

Lemma get_process_id_safe v : live m v → safe (λ _, True) (get_process_id m v).
Proof.
  intros Hv. unfold get_process_id. eapply safe_bind; [by apply struct_field_safe|]. by intros [] _.
Qed.

Lemma str_list_safe xs : lives m xs → safe (λ _, True) (try_map (str_contents vd m) xs).
Proof.
  intros Hx. apply try_map_safe. intros x Hin. apply str_contents_safe; [done|].
  rewrite Forall_forall in Hx. by apply Hx.
Qed.

Lemma expect_string_list_safe v who : live m v → safe (λ _, True) (expect_string_list vd m v who).
Proof. intros Hv. apply with_list_safe; [done|done|]. intros items Hi. by apply str_list_safe. Qed.

Lemma some_payload_safe v who :
  live m v → safe (λ o, ∀ u, o = Some u → live m u) (some_payload m v who).
Proof.
  intros Hv. unfold some_payload, as_option. destruct v as [| | | |h]; try done.
  eapply (safe_bind (λ p, lives m p.2)).
  - apply safe_join, with_obj_safe; [done|done|]. intros []; try done. intros _ Hc. cbn. by destruct (_ =? _).
  - intros [variant fields] Hf. destruct (_ =? _); [|done].
    eapply (safe_bind (λ u, live m u)); [|by intros u Hu u' [= <-]].
    apply safe_ok_or. intros u Hu. rewrite Forall_forall in Hf. apply Hf. by eapply list_elem_of_lookup_2.
Qed.

Lemma expect_option_string_safe v who : live m v → safe (λ _, True) (expect_option_string vd m v who).
Proof.
  intros Hv. unfold expect_option_string. eapply safe_bind; [by apply some_payload_safe|].
  intros [u|] Hu; [|done]. eapply safe_bind; [by apply str_contents_safe; [|apply Hu]|]. done.
Qed.

Lemma string_map_safe es : ∀ mp, lives m (es ≫= λ '(k, v), [k; v]) → safe (λ _, True) (string_map vd m es mp).
Proof.
  induction es as [|[k v] es IH]; intros mp; cbn [string_map]; [done|]. cbn [mbind list_bind].
  intros [Hk [Hv He]%Forall_cons]%Forall_cons.
  eapply safe_bind; [by apply str_contents_safe|]. intros ks _.
  eapply safe_bind; [by apply str_contents_safe|]. intros vs _. by apply IH.
Qed.

Lemma expect_option_map_safe v who : live m v → safe (λ _, True) (expect_option_map vd m v who).
Proof.
  intros Hv. unfold expect_option_map. eapply safe_bind; [by apply some_payload_safe|].
  intros [u|] Hu; [|done]. eapply safe_bind; [|done].
  apply with_map_ref_safe; [done|by apply Hu|]. intros mp Hmp. by apply string_map_safe.
Qed.

Lemma optional_safe {A} args i (dflt : A) f :
  lives m args → (∀ v, live m v → safe (λ _, True) (f v)) → safe (λ _, True) (optional args i dflt f).
Proof.
  intros Ha Hf. unfold optional. destruct (args !! i) as [v|] eqn:Hv; [|done]. apply Hf.
  rewrite Forall_lookup in Ha. by eapply Ha.
Qed.

Lemma command_of_safe args who : lives m args → safe (λ _, True) (command_of vd m args who).
Proof.
  intros Ha. unfold command_of. destruct args as [|v rest]; [done|].
  destruct (_ || _); [done|]. cbn [lookup list_lookup or_panic mbind res_bind].
  eapply safe_bind; [apply str_contents_safe; [done|by apply Forall_cons in Ha as [? _]]|]. intros name _.
  eapply safe_bind; [apply optional_safe; [done|intros; by apply expect_string_list_safe]|]. intros cargs _.
  eapply safe_bind; [apply optional_safe; [done|intros; by apply expect_option_string_safe]|]. intros dir _.
  eapply safe_bind; [apply optional_safe; [done|intros; by apply expect_option_map_safe]|]. done.
Qed.
End args.

#[local] Hint Resolve proc_result_safe code_value_safe output_value_safe : io_safe.
#[local] Hint Extern 1 (build_ok _ (building (proc_result _ _))) =>
  (apply building_ok; intros ? ? ?; apply proc_result_safe; [intros ? ? ?|]) : io_safe.

Lemma proc_err_safe m e s : mem_wf m → safe (step_post m) (proc_err m e s).
Proof. apply err_str_safe. Qed.

Lemma proc_err_io_safe m s : mem_wf m → safe (step_post m) (proc_err_io m s).
Proof. apply err_str_safe. Qed.

#[local] Hint Resolve proc_err_safe proc_err_io_safe : io_safe.

Ltac process := repeat (io_step; world_mem; auto with io_safe).

Lemma process_run_ok : native_ok (native_process_run vd).
Proof.
  io_native. eapply safe_bind; [by apply command_of_safe|]. intros c _. process.
Qed.

Lemma process_exec_ok : native_ok (native_process_exec vd).
Proof.
  io_native. eapply safe_bind; [by apply command_of_safe|]. intros c _.
  pose proof (ck_flush _ Hcon (w_ext w)) as Hf. destruct (flush_out (w_ext w)) as [e r]. cbn [fst] in Hf.
  pose proof (world_ext _ _ _ _ _ Hw Hf) as Hw1. cbn beta zeta.
  change (native_post outside module cur w) with (native_post outside module cur (set_w_ext w e)). process.
Qed.

Lemma process_start_ok : native_ok (native_process_start vd).
Proof.
  io_native. eapply safe_bind; [by apply command_of_safe|]. intros c _. process.
  destruct x as [e|[[[ch i] o] er]]; process.
  apply step_bind; [apply alloc_post; [done|done|by repeat constructor]|]. intros m1 v Hm1 Hv _. by apply ok_safe.
Qed.

Lemma process_wait_ok : native_ok (native_process_wait).
Proof.
  io_native. eapply safe_bind; [by apply get_process_id_safe|]. intros id _. process.
  destruct x as [p|]; process.
Qed.

Lemma process_kill_ok : native_ok (native_process_kill).
Proof.
  io_native. eapply safe_bind; [by apply get_process_id_safe|]. intros id _. process.
  destruct x as [p|]; process. destruct x as [c [e|u]]; process.
Qed.

Lemma stdin_write_ok : native_ok (native_process_stdin_write vd).
Proof.
  io_native. destruct x as [p|]; process. destruct (p_stdin p) as [s|]; process.
  intros [s' r] e m He Hm.
  apply (in_ext_build outside Hps (λ _, restore_stdin a s') (building (proc_result _ _)));
    [apply building_ok; intros ? ? ?; apply proc_result_safe; [|done]; intros ? ? ?; by apply step_here|done|done].
Qed.

Lemma stdin_close_ok : native_ok (native_process_stdin_close vd).
Proof. io_native. destruct x as [p|]; process. Qed.

Lemma pipe_read_ok who t read drop get set : native_ok (park_pipe_read vd who t read drop get set).
Proof.
  io_native. destruct x as [p|]; process. intros [s r] e m He Hm.
  apply (in_ext_build outside Hps (λ _, restore_pipe a get set drop s) (building (proc_result _ bytes_value)));
    [apply building_ok; intros ? ? ?; apply proc_result_safe; [|done]; intros ? ? ?; by apply new_bytes_safe|done|done].
Qed.

Definition process_natives : list Native := [
  native_process_run vd; native_process_exec vd; native_process_start vd; native_process_wait;
  native_process_kill; native_process_stdin_write vd; native_process_stdin_close vd;
  native_process_stdout_read vd; native_process_stderr_read vd; native_time_monotonic_nanos ].

Lemma process_natives_ok : Forall native_ok process_natives.
Proof.
  repeat (apply Forall_cons; split); [..|by apply Forall_nil].
  - apply process_run_ok.
  - apply process_exec_ok.
  - apply process_start_ok.
  - apply process_wait_ok.
  - apply process_kill_ok.
  - apply stdin_write_ok.
  - apply stdin_close_ok.
  - apply pipe_read_ok.
  - apply pipe_read_ok.
  - apply monotonic_ok.
Qed.
End process.
