(* ===== verification/SocketSafe.v ===== *)
(** * The socket and TLS natives keep the interpreter's invariant

    A socket in the registry has a poller to wait on, so a native that parks on its
    readiness never leaves the driver without one.  Whatever the network and the TLS
    library answer, a socket native traps, waits or keeps the world well formed. *)

From Stdlib Require Import ZArith Lia.
From stdpp Require Import base numbers list strings gmap pretty.
From S2P Require Import Prelude Bytes Float64 Instr ModuleTable Value Utf8 Heap HeapProofs MapObj Trap.
From S2P Require Import Scheduler SchedulerProofs SchedulerSpec Render Interp InterpProofs Driver DriverProofs.
From S2P Require Import NativesBase NativesText NativesColl NativesFiber NativesFacts NativesSafe NativesWorld.
From S2P Require Import System NativesFs NativesEnv Tls NativesSocket SystemSafe.

Open Scope Z_scope.

(** An open socket has a poller. *)
Definition sockets_ok `{NetTypes} (l : Locals) : Prop := SOCKETS l ≠ ∅ → is_Some (POLLER l).

(** The rest of the machine respects the thread-locals of the sockets. *)
Record local_ok `{SystemTypes} `{NetTypes} {Ext} `{!Process Ext} `{!Local Ext}
    (outside : Outside Job Payload Ext) : Prop := {
  lc_sane : ∀ e, sane outside e → sockets_ok (locals e);
  lc_polling : ∀ e, is_Some (POLLER (locals e)) → polling outside e;
  lc_kept : ∀ e l, (sockets_ok (locals e) → sockets_ok l) →
    (is_Some (POLLER (locals e)) → is_Some (POLLER l)) → kept outside e (set_locals e l);
}.

(** ** The pump never panics *)

Section pump.
Context `{SystemTypes} `{NetTypes} `{!Rustls}.

Definition calm {A} (p : Pump A) : Prop := ∀ s, (p s).2 ≠ Panic.

Lemma calm_ret {A} (a : A) : calm (mret a).
Proof. done. Qed.

Lemma calm_bind {A B} (p : Pump A) (f : A → Pump B) : calm p → (∀ a, calm (f a)) → calm (p ≫= f).
Proof.
  intros Hp Hf s. specialize (Hp s). unfold mbind, pump_bind. destruct (p s) as [s' []]; try done. apply Hf.
Qed.

Lemma calm_fail {A} e : calm (fail (A := A) e).
Proof. done. Qed.

Lemma calm_no_fuel {A} : calm (no_fuel (A := A)).
Proof. done. Qed.

Lemma calm_asks f : calm (asks f).
Proof. done. Qed.

Lemma calm_on_conn {A} (f : Connection → Connection * A) : calm (on_conn f).
Proof. intros [c o]. unfold on_conn. cbn [fst]. by destruct (f c). Qed.

Lemma calm_at_socket {A} (f : Connection → Syscall Os (Connection * A)) : calm (at_socket f).
Proof. intros [c o]. unfold at_socket. cbn [fst snd]. by destruct (f c o) as [? []]. Qed.

Lemma calm_ignoring {A} (p : Pump A) : calm (ignoring p).
Proof. done. Qed.
End pump.

Create HintDb pump.
#[export] Hint Resolve calm_ret calm_fail calm_no_fuel calm_asks calm_on_conn calm_at_socket calm_ignoring : pump.

(** Follow a pump step by step. *)
Ltac pump :=
  repeat first
    [ solve [auto with pump]
    | lazymatch goal with
      | |- calm (_ ≫= _) => apply calm_bind; [auto with pump|intros ?]
      | |- calm (match ?x with _ => _ end) => destruct x
      end ].

Section calm.
Context `{SystemTypes} `{NetTypes} `{!Rustls} (sock : TcpStream).

Lemma drain_calm fuel : calm (drain sock fuel).
Proof. induction fuel as [|fuel IH]; cbn [drain]; pump. Qed.
#[local] Hint Resolve drain_calm : pump.

Lemma fill_calm fuel : calm (fill sock fuel).
Proof. unfold fill. pump. Qed.
#[local] Hint Resolve fill_calm : pump.

Lemma handshake_calm fuel : calm (handshake sock fuel).
Proof. induction fuel as [|fuel IH]; cbn [handshake]; pump. Qed.

Lemma read_plaintext_calm buf : calm (read_plaintext buf).
Proof. unfold read_plaintext. pump. Qed.
#[local] Hint Resolve read_plaintext_calm : pump.

Lemma read_loop_calm fuel : ∀ buf, calm (read_loop sock fuel buf).
Proof. induction fuel as [|fuel IH]; intros buf; cbn [read_loop]; pump. Qed.

Lemma tls_read_calm fuel max : calm (tls_read sock fuel max).
Proof. apply read_loop_calm. Qed.

Lemma tls_write_calm fuel data : calm (tls_write sock fuel data).
Proof. unfold tls_write. pump. Qed.

Lemma tls_close_calm fuel : calm (tls_close sock fuel).
Proof. unfold tls_close. pump. Qed.
End calm.
#[export] Hint Resolve handshake_calm tls_read_calm tls_write_calm tls_close_calm : pump.

(** ** Sockets and the poller *)

Section sockets.
Context `{Sizes} `{SystemTypes} `{NetTypes} {Ext : Type} `{!Process Ext} `{!Local Ext}.
Context `{!FileSystem} `{!Network} `{!Rustls}.
Context (outside : Outside Job Payload Ext) (module : Module) (cur : option nat).
Context (Hps : process_ok outside) (Hlo : local_ok outside) (vd : Value → string).

#[local] Abbreviation World := (World (Job := Job) (Payload := Payload) (Ext := Ext)).
#[local] Abbreviation Native := (Native (Job := Job) (Payload := Payload) (Ext := Ext)).
#[local] Abbreviation native_ok := (native_ok outside module cur).
#[local] Abbreviation world_ok := (world_ok outside module cur).
#[local] Abbreviation native_post := (native_post outside module cur).
Implicit Types w : World.

Definition has_poller w : Prop := is_Some (POLLER (my_locals w)).

(** Steps that leave memory and do not lose the poller. *)
Definition net_step w w' : Prop :=
  world_ok w' ∧ w_mem w' = w_mem w ∧ (has_poller w → has_poller w').

Lemma net_refl w : world_ok w → net_step w w.
Proof. by unfold net_step. Qed.

Lemma net_trans w1 w2 w3 : net_step w1 w2 → net_step w2 w3 → net_step w1 w3.
Proof. intros (? & ? & ?) (? & ? & ?). unfold net_step. split_and!; [done|congruence|auto]. Qed.

Lemma net_post w w' (r : res Trap (World * Value)) : net_step w w' → safe (native_post w') r → safe (native_post w) r.
Proof.
  intros (_ & Hm & _) Hr. eapply safe_mono; [exact Hr|]. intros [w2 v]. unfold native_post. by rewrite Hm.
Qed.

Lemma net_in_world {A} (c : Syscall Statics A) w : world_ok w → net_step w (in_world c w).1.
Proof.
  intros Hw. pose proof (in_world_safe outside module cur Hps c w Hw) as Hw1. rewrite in_world_fst in *.
  unfold net_step. split_and!; [done|done|]. unfold has_poller, my_locals. cbn [w_ext set_w_ext]. unfold in_ext.
  destruct (c (statics (w_ext w))) as [g a]. cbn [fst]. by rewrite locals_statics.
Qed.

Lemma open_has_poller w h s : world_ok w → SOCKETS (my_locals w) !! h = Some s → has_poller w.
Proof.
  intros Hw Hs. apply (lc_sane _ Hlo); [by apply (wd_io _ _ _ _ Hw)|]. intros He.
  unfold my_locals in Hs. by rewrite He, lookup_empty in Hs.
Qed.

Lemma net_locals w l :
  world_ok w → (sockets_ok (my_locals w) → sockets_ok l) → (has_poller w → is_Some (POLLER l)) →
  net_step w (update_locals w l).
Proof.
  intros Hw Hs Hp. unfold net_step. split_and!.
  - apply world_ext; [done|]. by apply (lc_kept _ Hlo).
  - done.
  - intros Hh. unfold has_poller, my_locals, update_locals. cbn [w_ext set_w_ext]. rewrite locals_set. auto.
Qed.

(** With a poller, the registry of sockets may change at will. *)
Lemma net_SOCKETS w s : world_ok w → has_poller w → net_step w (set_SOCKETS w s).
Proof. intros Hw Hp. apply net_locals; [done|by intros _ _|done]. Qed.

Lemma ensure_poller_net w :
  world_ok w → net_step w (ensure_poller w).1 ∧ (∀ p, (ensure_poller w).2 = inr p → has_poller (ensure_poller w).1).
Proof.
  intros Hw. unfold ensure_poller. destruct (POLLER (my_locals w)) as [p|] eqn:Hp.
  { split; [by apply net_refl|]. intros _ _. by exists p. }
  pose proof (net_in_world (on_os new_poller) w Hw) as Hn.
  destruct (in_world (on_os new_poller) w) as [w1 [e|p]]; cbn [fst snd] in *; [by split|].
  split.
  - eapply net_trans; [exact Hn|]. apply net_locals; [apply Hn| |]; by intros; eexists.
  - intros _ _. unfold has_poller, my_locals, update_locals. cbn [w_ext set_w_ext]. rewrite locals_set. by eexists.
Qed.

Lemma with_registry_net {A} w (f : Registry → Syscall Os (io A)) :
  world_ok w → net_step w (with_registry w f).1 ∧ (∀ x, (with_registry w f).2 = inr x → has_poller (with_registry w f).1).
Proof.
  intros Hw. unfold with_registry. destruct (ensure_poller_net w Hw) as [Hn Hp].
  destruct (ensure_poller w) as [w1 [e|p]]; cbn [fst snd] in *; [by split|].
  specialize (Hp p eq_refl).
  pose proof (net_in_world (on_os (f (registry p))) w1 (proj1 Hn)) as Hn2. split; [by eapply net_trans|].
  intros _ _. by apply Hn2.
Qed.

Lemma returning_post w w' r : net_step w w' → safe (step_post (w_mem w')) r → safe (native_post w) (returning w' r).
Proof. intros Hn Hr. eapply net_post; [exact Hn|]. apply returning_safe; [apply Hn|done]. Qed.

Lemma socket_err_safe m e : mem_wf m → safe (step_post m) (socket_err m e).
Proof. apply err_str_safe. Qed.
Lemma socket_closed_safe m : mem_wf m → safe (step_post m) (socket_closed_err m).
Proof. apply err_str_safe. Qed.
Lemma socket_addr_safe m a : mem_wf m → safe (step_post m) (socket_addr_err m a).
Proof. apply err_str_safe. Qed.
Lemma tls_err_safe m e : mem_wf m → safe (step_post m) (tls_err m e).
Proof. destruct e; apply err_str_safe. Qed.
Lemma ok_bytes_safe m b : mem_wf m → safe (step_post m) (ok_bytes m b).
Proof. intros Hm. by apply ok_of_safe, new_bytes_safe. Qed.

#[local] Hint Resolve socket_err_safe socket_closed_safe socket_addr_safe tls_err_safe ok_bytes_safe
  ok_str_safe : io_safe.

Lemma net_mem w w' : net_step w w' → mem_wf (w_mem w').
Proof. intros Hn. by apply (wd_mem outside module cur), Hn. Qed.
#[local] Hint Resolve net_mem : io_safe.

Lemma register_socket_ok w sock : world_ok w → safe (native_post w) (register_socket w sock).
Proof.
  intros Hw. unfold register_socket. cbn beta zeta.
  set (l1 := mkLocals _ _ _). assert (net_step w (update_locals w l1)) as Hn1 by by apply net_locals.
  destruct (with_registry_net (update_locals w l1) (λ r, register r (source_of sock) (as_u64 (NEXT_SOCKET_ID (my_locals w)))) (proj1 Hn1)) as [Hn2 Hp].
  destruct (with_registry _ _) as [w2 [e|x]]; cbn [fst snd] in *.
  - pose proof (net_in_world (on_os (drop_source (source_of sock))) w2 (proj1 Hn2)) as Hn3.
    destruct (in_world _ w2) as [w3 u]. cbn [fst] in Hn3.
    assert (net_step w w3) as Hn4 by (by eapply net_trans; [|eapply net_trans]).
    apply returning_post; [done|]. eauto with io_safe.
  - pose proof (net_SOCKETS w2 (<[NEXT_SOCKET_ID (my_locals w) := sock]> (SOCKETS (my_locals w2))) (proj1 Hn2) (Hp x eq_refl)) as Hn3.
    assert (net_step w (set_SOCKETS w2 (<[NEXT_SOCKET_ID (my_locals w) := sock]> (SOCKETS (my_locals w2))))) as Hn4
      by (by eapply net_trans; [|eapply net_trans]).
    apply returning_post; [done|]. apply ok_safe; eauto with io_safe.
Qed.

Lemma with_socket_net {T} w handle (f : Socket → Syscall Os T) :
  world_ok w → net_step w (with_socket w handle f).1 ∧ (∀ x, (with_socket w handle f).2 = Some x → has_poller w).
Proof.
  intros Hw. unfold with_socket. destruct (SOCKETS (my_locals w) !! handle) as [s|] eqn:Hs; [|by split; [apply net_refl|]].
  pose proof (net_in_world (on_os (f s)) w Hw) as Hn. destruct (in_world _ w) as [w1 x]. cbn [fst snd] in *.
  split; [done|]. intros _ _. by eapply open_has_poller.
Qed.

(** Only a native of an open socket waits. *)
Lemma wait_ready_ok w handle : world_ok w → has_poller w → safe (native_post w) (wait_ready w handle).
Proof.
  intros Hw Hp. apply post_here; [|done|done]. apply world_park; [done|]. by apply (lc_polling _ Hlo).
Qed.

Lemma socket_outcome_ok {A} waits handle w (f : Socket → Syscall Os (io A)) (done : World → A → res Trap (World * Value)) :
  world_ok w → (∀ w' x, world_ok w' → safe (native_post w') (done w' x)) →
  safe (native_post w) (socket_outcome waits handle (with_socket w handle f) done).
Proof.
  intros Hw Hd. unfold socket_outcome. destruct (with_socket_net w handle f Hw) as [Hn Hp].
  destruct (with_socket w handle f) as [w1 [[e|x]|]]; cbn [fst snd] in *.
  - specialize (Hp _ eq_refl). destruct (waits (err_kind e)).
    + eapply net_post; [exact Hn|]. apply wait_ready_ok; by apply Hn.
    + apply returning_post; eauto with io_safe.
  - eapply net_post; [exact Hn|]. apply Hd, Hn.
  - apply returning_post; eauto with io_safe.
Qed.

Lemma wake_poll_waiters_ok w handle :
  world_ok w → safe (λ w', net_step w w') (wake_poll_waiters w handle).
Proof.
  intros Hw. unfold wake_poll_waiters. destruct (wd_sched _ _ _ _ Hw) as [Hinv Hr]; cbn [fst snd] in Hinv, Hr.
  destruct (wake_poll_inv _ handle Hinv) as (s' & Hok & Hinv' & _ & Hst). rewrite Hok. cbn.
  unfold net_step. split_and!; [|done|done]. eapply world_sched; [done|by eapply wake_poll_rel|].
  split; [done|]. by eapply running_same.
Qed.

Lemma close_socket_entry_ok w handle :
  world_ok w → safe (λ '(w', _), net_step w w') (close_socket_entry w handle).
Proof.
  intros Hw. unfold close_socket_entry. destruct (SOCKETS (my_locals w) !! handle) as [s|] eqn:Hs; [|by apply net_refl].
  pose proof (open_has_poller _ _ _ Hw Hs) as Hp. cbn beta zeta.
  pose proof (net_SOCKETS w (delete handle (SOCKETS (my_locals w))) Hw Hp) as Hn1.
  set (w1 := set_SOCKETS w _) in *.
  destruct (with_registry_net w1 (λ r, deregister r (source_of s)) (proj1 Hn1)) as [Hn2 _].
  destruct (with_registry w1 _) as [w2 r2]. cbn [fst] in Hn2.
  pose proof (net_in_world (on_os (drop_source (source_of s))) w2 (proj1 Hn2)) as Hn3.
  destruct (in_world _ w2) as [w3 u]. cbn [fst] in Hn3.
  eapply safe_bind; [apply wake_poll_waiters_ok, Hn3|]. intros w4 Hn4.
  cbn. eapply net_trans; [exact Hn1|]. eapply net_trans; [exact Hn2|]. by eapply net_trans.
Qed.

(** ** TLS *)

Lemma with_tls_ok {T} w handle (f : TcpStream → Pump T) (k : World * (Value + res TlsError T) → res Trap (World * Value)) :
  world_ok w → (∀ s, calm (f s)) →
  (∀ w' v, world_ok w' → live (w_mem w') v → safe (native_post w') (k (w', inl v))) →
  (∀ w' r, world_ok w' → has_poller w' → r ≠ Panic → safe (native_post w') (k (w', inr r))) →
  safe (native_post w) (x ← with_tls w handle f; k x).
Proof.
  intros Hw Hf Hl Hr.
  assert (∀ rv, safe (step_post (w_mem w)) rv →
    safe (native_post w) (x ← ('(m, v) ← rv; Ok (set_w_mem w m, inl v)); k x)) as Herr.
  { intros [[m v]| | |] Hrv; try done. cbn [mbind res_bind].
    pose proof (post_mem outside module cur w m v Hw Hrv) as (Hw' & Hv & Hk & Hm).
    eapply safe_mono; [by apply Hl|]. intros [w2 v2] (? & ? & ? & ?). cbn [fst snd] in *.
    split_and!; [done|done|by eapply keeps_live_trans|by eapply mem_rel_trans]. }
  unfold with_tls. destruct (SOCKETS (my_locals w) !! handle) as [[l|s|s session]|] eqn:Hs;
    try (apply Herr; world_mem; by auto with io_safe).
  pose proof (open_has_poller _ _ _ Hw Hs) as Hp. cbn beta zeta.
  specialize (Hf s (session, os (statics (w_ext w)))). destruct (f s _) as [[session' o] r]. cbn [snd] in Hf.
  set (c := λ g : Statics, (set_os g o, tt)).
  pose proof (net_in_world c w Hw) as Hn1. rewrite in_world_fst in Hn1. cbn [fst in_ext c] in Hn1.
  pose proof (net_SOCKETS _ (<[handle:=Tls s session']> (SOCKETS (my_locals (set_w_ext w (set_statics (w_ext w) (set_os (statics (w_ext w)) o))))))
    (proj1 Hn1) (proj2 (proj2 Hn1) Hp)) as Hn2.
  cbn [mbind res_bind]. eapply net_post; [by eapply net_trans|]. apply Hr; [apply Hn2|by apply Hn2, Hn1|done].
Qed.

Lemma tls_outcome_ok {T} w handle (r : res TlsError (Progress T)) done :
  world_ok w → has_poller w → r ≠ Panic → (∀ x m, mem_wf m → safe (step_post m) (done x m)) →
  safe (native_post w) (tls_outcome w handle r done).
Proof.
  intros Hw Hp Hr Hd. world_mem. destruct r as [[x|]|e| |]; cbn [tls_outcome]; try done.
  - apply returning_safe; [done|]. by apply ok_of_safe, Hd.
  - by apply wait_ready_ok.
  - apply returning_safe; [done|]. by apply tls_err_safe.
Qed.

(** A pump on the session of a handle, with the end the reads and writes share. *)
Lemma tls_native_ok {T} w handle (f : TcpStream → Pump (Progress T)) done :
  world_ok w → (∀ s, calm (f s)) → (∀ x m, mem_wf m → safe (step_post m) (done x m)) →
  safe (native_post w)
    ('(w, r) ← with_tls w handle f;
     match r with inl err => Ok (w, err) | inr outcome => tls_outcome w handle outcome done end).
Proof.
  intros Hw Hf Hd. apply with_tls_ok; [done|done| |].
  - intros w' v Hw' Hv. by apply post_here.
  - intros w' r Hw' Hp Hr. by apply tls_outcome_ok.
Qed.

Lemma wrap_socket_ok w handle session : world_ok w → safe (native_post w) (wrap_socket w handle session).
Proof.
  intros Hw. world_mem. unfold wrap_socket. destruct (SOCKETS (my_locals w) !! handle) as [[l|s|s session']|] eqn:Hs;
    try (apply returning_safe; [done|by auto with io_safe]).
  pose proof (open_has_poller _ _ _ Hw Hs) as Hp. apply returning_post; [by apply net_SOCKETS|].
  apply ok_safe; [|done]. by apply net_mem with w, net_SOCKETS.
Qed.

Lemma close_then_ok w handle (k : World → bool → res Trap (World * Value)) :
  world_ok w → (∀ w' b, world_ok w' → safe (native_post w') (k w' b)) →
  safe (native_post w) ('(w', b) ← close_socket_entry w handle; k w' b).
Proof.
  intros Hw Hk. eapply safe_bind; [by apply close_socket_entry_ok|]. intros [w' b] Hn.
  eapply net_post; [exact Hn|]. apply Hk, Hn.
Qed.

Definition socket_natives : list Native := [
  native_socket_listen vd; native_socket_accept vd; native_socket_connect vd; native_socket_connect_finish vd;
  native_socket_read vd; native_socket_write vd; native_socket_close vd; native_socket_local_addr vd;
  native_socket_peer_addr vd; native_socket_is_ready vd; native_socket_resolve vd ].

Definition tls_natives (fuel : nat) : list Native := [
  native_tls_connect vd; native_tls_accept vd; native_tls_handshake vd fuel; native_tls_read vd fuel;
  native_tls_write vd fuel; native_tls_close vd fuel ].

#[local] Hint Resolve register_socket_ok wrap_socket_ok tls_err_safe socket_addr_safe : io_safe.

(** Peel the shared parts of the socket natives off. *)
Ltac socket_step :=
  lazymatch goal with
  | |- safe _ (socket_outcome _ _ _ _) => apply socket_outcome_ok; [done|intros ? ? ?]
  | |- safe _ (mbind _ (close_socket_entry _ _)) => apply close_then_ok; [done|intros ? ? ?]
  | |- safe _ (mbind _ (with_tls _ _ _)) => apply tls_native_ok; [done|intros ?|intros ? ? ?]
  | |- build_ok _ (building _) => apply building_ok; intros ? ? ?
  | |- safe _ (let (_, _) := in_world _ _ in _) => io_step
  | |- safe _ (match ?x with _ => _ end) => destruct x
  | |- _ => io_step
  end.
Ltac socket_native :=
  io_native; repeat (socket_step; world_mem; auto with io_safe pump).

Lemma socket_is_ready_ok : native_ok (native_socket_is_ready vd).
Proof.
  io_native.
  lazymatch goal with |- context [with_socket w ?h ?f] => destruct (with_socket_net w h f Hw) as [Hn _] end.
  destruct (with_socket _ _ _) as [w1 b]. cbn [fst] in Hn. eapply net_post; [exact Hn|].
  apply post_here; [apply Hn|done|done].
Qed.

Lemma socket_natives_ok : Forall native_ok socket_natives.
Proof.
  repeat (apply Forall_cons; split); [..|by apply Forall_nil]; try apply socket_is_ready_ok; socket_native.
Qed.

Lemma tls_close_ok fuel : native_ok (native_tls_close vd fuel).
Proof.
  io_native. apply with_tls_ok; [done|auto with pump| |].
  - intros w' v Hw' Hv. by apply post_here.
  - intros w' [[[]|]|e| |] Hw' Hp Hr; try done; [|by apply wait_ready_ok|]; socket_step; world_mem; socket_step;
      auto with io_safe.
Qed.

Lemma tls_natives_ok fuel : Forall native_ok (tls_natives fuel).
Proof.
  repeat (apply Forall_cons; split); [..|by apply Forall_nil]; try apply tls_close_ok; socket_native.
Qed.
End sockets.
