(* ===== verification/PoolProofs.v ===== *)
(** * The worker pool delivers every job once (src/runtime/src/interp/mod.rs)

    Whatever the schedule, a submitted job is waiting, running, finished or received,
    exactly one of these, its completion is a payload it produced, at most
    [WORKER_COUNT] run at once, and fair workers answer every fiber that waits.  [pool_outside]
    says what the interpreter relies on, and [runtime_ok] that [Pool.runtime] is such a
    machine. *)

From Stdlib Require Import ZArith Lia.
From stdpp Require Import base numbers list strings gmap pretty.
From S2P Require Import Prelude Bytes Float64 Value Heap HeapProofs Trap Scheduler Render Interp InterpProofs Driver.
From S2P Require Import DriverProofs NativesBase NativesFiber NativesWorld.
From S2P Require Import System NativesFs NativesEnv Tls NativesSocket Pool Demo SystemSafe SocketSafe.

Open Scope Z_scope.

(** ** One pool *)

Section pool.
Context `{SystemTypes} `{NetTypes} `{!FileSystem} `{!Network} `{!Rustls} `{!Host}.
Implicit Types (p : Pool) (e : Runtime) (g : Statics).

(** The jobs not yet finished, and the fibers a pool still owes an answer. *)
Definition unfinished p : list (nat * Job) := busy p ++ job_queue p.
Definition pool_ids p : list nat := (unfinished p).*1 ++ (done_queue p).*1.

(** [x] may come of [job]. *)
Definition result_of (job : Job) (x : Payload) : Prop := ∃ g, (job g).2 = x.

(** What a step of a live pool does to it. *)
Definition pool_rel p p' : Prop :=
  pool_ids p' ≡ₚ pool_ids p ∧ unfinished p' ⊆ unfinished p ∧
  (∀ c, c ∈ done_queue p' → c ∈ done_queue p ∨ ∃ job, (c.1, job) ∈ unfinished p ∧ result_of job c.2) ∧
  alive p' = alive p ∧ (length (busy p) ≤ alive p → length (busy p') ≤ alive p')%nat.

Lemma pool_rel_refl p : pool_rel p p.
Proof. split_and!; auto. Qed.

Lemma pool_rel_trans p1 p2 p3 : pool_rel p1 p2 → pool_rel p2 p3 → pool_rel p1 p3.
Proof.
  intros (I1 & U1 & D1 & A1 & B1) (I2 & U2 & D2 & A2 & B2). split_and!; [by etrans|by etrans| |by etrans|auto].
  intros c [Hc|(job & Hc & Hr)]%D2; [by apply D1|]. right. exists job. auto.
Qed.

Lemma worker_step_rel slot a p g : pool_rel p (worker_step true slot a p g).2.
Proof.
  destruct a as [|i]; cbn [worker_step].
  - destruct (job_queue p) as [|next rest] eqn:Hq; [apply pool_rel_refl|].
    destruct (Nat.ltb_spec (length (busy p)) (alive p)); [|apply pool_rel_refl].
    assert (unfinished (mkPool rest (push (busy p) next) (done_queue p) (alive p)) = unfinished p) as Hu.
    { unfold unfinished, push. cbn. by rewrite Hq, <-app_assoc. }
    cbn [mret syscall_ret snd]. split_and!; try done.
    + unfold pool_ids. by rewrite Hu.
    + by rewrite Hu.
    + by left.
    + cbn. unfold push. rewrite length_app. cbn. lia.
  - destruct (busy p !! i) as [[id job]|] eqn:Hi; [|apply pool_rel_refl].
    unfold mbind, syscall_bind. destruct (job g) as [g1 x] eqn:Hj.
    destruct (wake_poller slot g1) as [g2 []]. cbn [mret syscall_ret snd].
    pose proof (delete_Permutation _ _ _ Hi) as Hp. split_and!; try done.
    + unfold pool_ids, unfinished, push. cbn. rewrite !fmap_app, !fmap_cons. cbn.
      rewrite Hp at 2. cbn. solve_Permutation.
    + unfold unfinished. cbn. intros y [Hy|Hy]%elem_of_app; apply elem_of_app; [left|by right].
      rewrite Hp. by right.
    + cbn. unfold push. intros c [Hc|Hc%list_elem_of_singleton]%elem_of_app; [by left|subst c]. right. exists job.
      split; [|exists g; by rewrite Hj]. apply elem_of_app. left. by eapply list_elem_of_lookup_2.
    + cbn. rewrite length_delete by done. lia.
Qed.

(** ** The machine *)

Definition flight e : list nat := match WORKER_POOL e with Some p => pool_ids p | None => [] end.

Definition owed e (id : nat) (x : Payload) : Prop :=
  ∃ p, WORKER_POOL e = Some p ∧
    ((id, x) ∈ done_queue p ∨ ∃ job, (id, job) ∈ unfinished p ∧ result_of job x).

Definition pool_sane p : Prop := alive p = WORKER_COUNT ∧ (length (busy p) ≤ WORKER_COUNT)%nat.

Definition runtime_sane e : Prop :=
  sockets_ok (r_locals e) ∧ ∀ p, WORKER_POOL e = Some p → pool_sane p.

Definition runtime_kept e e' : Prop :=
  flight e' ≡ₚ flight e ∧ (∀ id x, owed e' id x → owed e id x) ∧
  (runtime_sane e → runtime_sane e') ∧ (is_Some (POLLER (r_locals e)) → is_Some (POLLER (r_locals e'))).

Definition pool_outside : Outside Job Payload Runtime.
Proof.
  refine (mkOutside flight owed result_of runtime_sane (λ e, is_Some (POLLER (r_locals e))) runtime_kept
    _ _ _ _ _ _ _).
  - intros e id x (p & Hp & Hx). unfold flight. rewrite Hp. unfold pool_ids. apply elem_of_app.
    destruct Hx as [Hx|(job & Hx & _)]; [right|left]; by apply (list_elem_of_fmap_2 fst) in Hx.
  - by intros e; split_and!.
  - intros e1 e2 e3 (I1 & O1 & S1 & P1) (I2 & O2 & S2 & P2). split_and!; [by etrans|auto..].
  - by intros e e' (? & _).
  - intros e e' (_ & Ho & _). apply Ho.
  - intros e e' (_ & _ & Hs & _). apply Hs.
  - intros e e' (_ & _ & _ & Hp). apply Hp.
Defined.

(** Worker steps: the thread's own state stays. *)
Definition works e e' : Prop :=
  r_locals e' = r_locals e ∧
  match WORKER_POOL e, WORKER_POOL e' with
  | Some p, Some p' => pool_rel p p'
  | None, None => True
  | _, _ => False
  end.

Lemma works_same e e' : r_locals e' = r_locals e → WORKER_POOL e' = WORKER_POOL e → works e e'.
Proof. intros Hl Hp. split; [done|]. rewrite Hp. destruct (WORKER_POOL e); [apply pool_rel_refl|done]. Qed.

Lemma works_refl e : works e e.
Proof. by apply works_same. Qed.

Lemma works_trans e1 e2 e3 : works e1 e2 → works e2 e3 → works e1 e3.
Proof.
  intros [L1 W1] [L2 W2]. split; [congruence|].
  destruct (WORKER_POOL e1), (WORKER_POOL e2), (WORKER_POOL e3); try done. by eapply pool_rel_trans.
Qed.

Lemma run_act_works e a : works e (run_act e a).
Proof.
  destruct a as [a|k a]; cbn [run_act].
  - destruct (WORKER_POOL e) as [p|] eqn:Hp; [|apply works_refl].
    pose proof (worker_step_rel (POLLER (r_locals e)) a p (r_statics e)) as Hr.
    destruct (worker_step _ _ _ _ _) as [g p']. split; [done|]. by rewrite Hp.
  - destruct (torn_down e !! k) as [p|]; [|apply works_refl].
    destruct (worker_step _ _ _ _ _) as [g p']. by apply works_same.
Qed.

Lemma run_acts_works acts : ∀ e, works e (run_acts e acts).
Proof.
  induction acts as [|a acts IH]; intros e; [apply works_refl|].
  eapply works_trans; [apply run_act_works|apply IH].
Qed.

Lemma interleave_works schedule e : works e (interleave schedule e).
Proof. eapply works_trans; [|apply run_acts_works]. by apply works_same. Qed.

Lemma works_kept e e' : works e e' → runtime_kept e e'.
Proof.
  intros [Hl Hp]. unfold runtime_kept, runtime_sane, flight, owed. rewrite Hl.
  destruct (WORKER_POOL e) as [p|] eqn:He, (WORKER_POOL e') as [p'|] eqn:He'; try done.
  destruct Hp as (Hi & Hu & Hd & Ha & Hb). split_and!; [done| | |done].
  - intros id x (q & [= <-] & Hx). exists p. split; [done|]. destruct Hx as [Hx|(job & Hx & Hr)].
    + destruct (Hd _ Hx) as [?|?]; [by left|by right].
    + right. exists job. split; [by apply Hu|done].
  - intros [Hs Hq]. split; [done|]. intros q [= <-]. destruct (Hq p eq_refl) as [Hqa Hqb].
      unfold pool_sane. rewrite Ha in *. split; [done|]. lia.
Qed.

(** The statics are apart from the pool and the locals. *)
Lemma host_call_works {A} (c : Syscall Os A) e : works e (host_call c e).1.
Proof.
  unfold host_call, in_ext, on_os. cbn [statics runtime_process]. destruct (c _) as [o a]. by apply works_same.
Qed.

Lemma runtime_process_ok : process_ok pool_outside.
Proof.
  split; [done|]. intros e g. by apply works_kept, works_same.
Qed.

Lemma runtime_console_ok : console_ok pool_outside.
Proof.
  split; intros; apply works_kept; try apply host_call_works; by apply works_same.
Qed.

Lemma runtime_local_ok : local_ok pool_outside.
Proof.
  split; [by intros e [? _]|done|]. intros e l Hs Hp. split_and!; [done|done| |done].
  intros [Hl Hq]. split; [by apply Hs|done].
Qed.

(** ** Jobs in and completions out *)

Variable schedule : nat → list Act.

Lemma submit_flight e id job : flight (submit_io_job e id job) ≡ₚ id :: flight e.
Proof.
  unfold flight, submit_io_job, pool_ids, unfinished, push. cbn.
  destruct (WORKER_POOL e) as [p|]; cbn; [|done]. rewrite !fmap_app. cbn. solve_Permutation.
Qed.

Lemma submit_owed e id job id' x :
  owed (submit_io_job e id job) id' x → owed e id' x ∨ id' = id ∧ result_of job x.
Proof.
  intros (p & [= <-] & Hx). cbn in Hx. unfold unfinished, push in Hx. cbn in Hx.
  destruct Hx as [Hx|(j & [Hx|[Hx|[= -> ->]%list_elem_of_singleton]%elem_of_app]%elem_of_app & Hr)]; [| | |by right].
  - left. destruct (WORKER_POOL e) as [p|] eqn:Hp; [|by apply elem_of_nil in Hx]. exists p. split; [done|by left].
  - left. destruct (WORKER_POOL e) as [p|] eqn:Hp; [|by apply elem_of_nil in Hx]. exists p. split; [done|right].
    exists j. split; [apply elem_of_app; by left|done].
  - left. destruct (WORKER_POOL e) as [p|] eqn:Hp; [|by apply elem_of_nil in Hx]. exists p. split; [done|right].
    exists j. split; [apply elem_of_app; by right|done].
Qed.

Lemma submit_sane e id job : runtime_sane e → runtime_sane (submit_io_job e id job).
Proof.
  intros [Hs Hp]. split; [done|]. intros p [= <-]. unfold pool_sane. cbn.
  destruct (WORKER_POOL e) as [p|]; cbn; [by apply (Hp p eq_refl)|]. unfold WORKER_COUNT. lia.
Qed.

Lemma works_handed e e' cs e1 :
  works e e1 → handed_over pool_outside e1 cs e' → handed_over pool_outside e cs e'.
Proof.
  intros Hw (Hf & Hc & Ho & Hs & Hp). destruct (works_kept _ _ Hw) as (Kf & Ko & Ks & Kp).
  split_and!; [by rewrite <-Kf|intros c Hin; by apply Ko, Hc|intros id x Hx; by apply Ko, Ho|intros Hx; by apply Hs, Ks|intros Hx; by apply Hp, Kp].
Qed.

Lemma receive_handed e p :
  WORKER_POOL e = Some p → handed_over pool_outside e (receive_all e p).2 (receive_all e p).1.
Proof.
  intros Hp. cbn. split_and!.
  - change (inflight pool_outside) with flight. unfold flight, pool_ids, unfinished. rewrite Hp. cbn. rewrite app_nil_r. solve_Permutation.
  - intros [id x] Hc. exists p. split; [done|by left].
  - intros id x (q & [= <-] & [Hx|Hx]); [by apply elem_of_nil in Hx|]. exists p. split; [done|by right].
  - intros [Hs Hq]. split; [done|]. intros q [= <-]. by apply (Hq p Hp).
  - done.
Qed.

Lemma works_some e e' p : works e e' → WORKER_POOL e = Some p → is_Some (WORKER_POOL e').
Proof. intros [_ Hw] Hp. rewrite Hp in Hw. by destruct (WORKER_POOL e'). Qed.

(** [await_completions] with a job in flight. *)
Lemma await_handed e t :
  flight e ≠ [] →
  match (await_completions schedule e t).2 with
  | Ok cs => (t = None → cs ≠ []) ∧ handed_over pool_outside e cs (await_completions schedule e t).1
  | NoFuel => t = None ∧ ∃ p, WORKER_POOL (interleave schedule e) = Some p ∧ done_queue p = []
  | _ => False
  end.
Proof.
  intros Hf. unfold await_completions. destruct (WORKER_POOL e) as [p0|] eqn:Hp0; [|by unfold flight in Hf; rewrite Hp0 in Hf].
  pose proof (interleave_works schedule e) as Hi. destruct (works_some _ _ _ Hi Hp0) as [p Hp].
  cbn zeta. rewrite Hp. pose proof (works_handed _ _ _ _ Hi (receive_handed _ p Hp)) as Hh. cbn [receive_all fst snd] in Hh.
  destruct t as [t|]; [by split|]. destruct (done_queue p) as [|c cs] eqn:Hd; [split; [done|by exists p]|].
  cbn [receive_all fst snd]. rewrite Hd. by split.
Qed.

Lemma drain_handed e : handed_over pool_outside e (drain_completions schedule e).2 (drain_completions schedule e).1.
Proof.
  unfold drain_completions. eapply works_handed; [apply (interleave_works schedule)|].
  destruct (WORKER_POOL (interleave schedule e)) as [p|] eqn:Hp; [by apply receive_handed|].
  split_and!; [done|by intros c ?%elem_of_nil|done|done|done].
Qed.

Lemma poll_kept e t : runtime_kept e (poll_wait schedule e t).1.
Proof.
  unfold poll_wait. destruct (POLLER (r_locals e)) as [p|] eqn:Hp; [|by apply works_kept, works_refl].
  pose proof (interleave_works schedule e) as Hi. set (e1 := interleave schedule e) in *.
  pose proof (host_call_works (poll_events (poll p) t) e1) as Hh. destruct (host_call _ e1) as [e2 [pl r]].
  cbn [fst] in Hh. pose proof (works_trans _ _ _ Hi Hh) as Hw. cbn zeta.
  set (l' := mkLocals _ _ _).
  assert (runtime_kept e2 (set_r_locals e2 l')) as Hk.
  { apply (lc_kept _ runtime_local_ok); [by intros _ _|by intros _]. }
  assert (runtime_kept e (set_r_locals e2 l')) as Hk2.
  { eapply (kept_trans _ _ _ pool_outside); [by apply works_kept|exact Hk]. }
  destruct r as [er|tokens]; [by destruct (decide _)|done].
Qed.

Lemma poll_safe e t : is_Some (POLLER (r_locals e)) → safe (λ _, True) (poll_wait schedule e t).2.
Proof.
  intros [p Hp]. unfold poll_wait. rewrite Hp. destruct (host_call _ _) as [e2 [pl [er|tokens]]]; [|done].
  cbn zeta. by destruct (decide _).
Qed.

Lemma drop_sockets_works e : works e (drop_sockets e).
Proof.
  unfold drop_sockets. induction (map_to_list (SOCKETS (r_locals e))).*2 as [|s ss IH]; [apply works_refl|].
  eapply works_trans; [exact IH|apply host_call_works].
Qed.

Lemma works_none e e' : works e e' → WORKER_POOL e = None → WORKER_POOL e' = None.
Proof. intros [_ Hw] Hp. rewrite Hp in Hw. by destruct (WORKER_POOL e'). Qed.

Lemma reset_pool e : WORKER_POOL (reset_run e) = None.
Proof.
  unfold reset_run. cbn zeta. apply (works_none _ _ (drop_sockets_works _)).
  unfold reset_worker_pool, set_r_locals. cbn [WORKER_POOL]. by destruct (WORKER_POOL e) eqn:?.
Qed.

Lemma reset_flight e : flight (reset_run e) = [].
Proof. unfold flight. by rewrite reset_pool. Qed.

Lemma reset_sane e : runtime_sane (reset_run e).
Proof. split; [by intros []|]. intros p. by rewrite reset_pool. Qed.

Lemma now_kept e : runtime_kept e (now (runtime schedule) e).1.
Proof. apply works_kept. eapply works_trans; [apply (interleave_works schedule)|apply host_call_works]. Qed.

Lemma runtime_ok : machine_ok pool_outside (runtime schedule).
Proof.
  split; cbn [now sleep submit Driver.poll_wait Driver.await_completions Driver.drain_completions reset runtime].
  - apply now_kept.
  - intros e t. apply works_kept. eapply works_trans; [apply (host_call_works (host_sleep t))|apply interleave_works].
  - apply submit_flight.
  - apply submit_owed.
  - apply submit_sane.
  - done.
  - apply poll_kept.
  - intros e t _ Hp. by apply poll_safe.
  - intros e t _ Hf. pose proof (await_handed e t Hf) as Hh.
    destruct (await_completions schedule e t) as [e' [cs|? | |]]; cbn [fst snd] in *; [apply Hh|done..].
  - apply drain_handed.
  - apply reset_flight.
  - intros e _. apply reset_sane.
Qed.

(** ** Histories *)

(** What happens to the machine, from the Thera thread or beside it. *)
Inductive PoolEvent :=
  | Submit (id : nat) (job : Job)
  | Worker (a : Act)
  | Drain
  | Recv (timeout : option Z)
  | Reset.

(** The machine, the jobs sent to the present pool and what came back of them. *)
Record History := mkHistory { h_runtime : Runtime; h_sent : list (nat * Job); h_got : list (nat * Payload) }.

Definition pool_event (h : History) (ev : PoolEvent) : History :=
  match ev with
  | Submit id job => mkHistory (submit_io_job (h_runtime h) id job) (push (h_sent h) (id, job)) (h_got h)
  | Worker a => mkHistory (run_act (h_runtime h) a) (h_sent h) (h_got h)
  | Drain =>
      let (e, cs) := drain_completions schedule (h_runtime h) in mkHistory e (h_sent h) (h_got h ++ cs)
  | Recv t =>
      let (e, r) := await_completions schedule (h_runtime h) t in
      mkHistory e (h_sent h) (h_got h ++ match r with Ok cs => cs | _ => [] end)
  | Reset => mkHistory (reset_run (h_runtime h)) [] []
  end.

Definition history (e : Runtime) (evs : list PoolEvent) : History :=
  fold_left pool_event evs (mkHistory e [] []).

(** The completion [c] is of one of the jobs [sent]. *)
Definition came_of (sent : list (nat * Job)) (c : nat * Payload) : Prop :=
  ∃ job, (c.1, job) ∈ sent ∧ result_of job c.2.

Record history_ok (h : History) : Prop := {
  ho_sane : ∀ p, WORKER_POOL (h_runtime h) = Some p → pool_sane p;
  ho_ids : flight (h_runtime h) ++ (h_got h).*1 ≡ₚ (h_sent h).*1;
  ho_jobs : ∀ p, WORKER_POOL (h_runtime h) = Some p → unfinished p ⊆ h_sent h;
  ho_done : ∀ p, WORKER_POOL (h_runtime h) = Some p → Forall (came_of (h_sent h)) (done_queue p);
  ho_got : Forall (came_of (h_sent h)) (h_got h);
}.

Lemma came_of_mono sent sent' c : sent ⊆ sent' → came_of sent c → came_of sent' c.
Proof. intros Hs (job & Hj & Hr). exists job. auto. Qed.

Lemma works_history e e' sent got :
  works e e' → history_ok (mkHistory e sent got) → history_ok (mkHistory e' sent got).
Proof.
  intros [_ Hw] [Hs Hi Hj Hd Hg]. unfold flight in *. cbn in *.
  destruct (WORKER_POOL e) as [p|] eqn:Hp, (WORKER_POOL e') as [p'|] eqn:Hp'; try done.
  - destruct Hw as (I & U & D & A & B). specialize (Hj p eq_refl). specialize (Hd p eq_refl).
    split; cbn; unfold flight; rewrite ?Hp'; try done.
    + intros q [= <-]. destruct (Hs p eq_refl) as [Ha Hb]. unfold pool_sane. rewrite A, Ha in *. split; [done|]. lia.
    + by rewrite I.
    + intros q [= <-]. by etrans.
    + intros q [= <-]. apply Forall_forall. intros c [Hc|(job & Hc & Hx)]%D.
      * rewrite Forall_forall in Hd. by apply Hd.
      * exists job. split; [by apply Hj|done].
  - by split; cbn; unfold flight; rewrite ?Hp'.
Qed.

Lemma receive_history e sent got p :
  WORKER_POOL e = Some p → history_ok (mkHistory e sent got) →
  history_ok (mkHistory (receive_all e p).1 sent (got ++ (receive_all e p).2)).
Proof.
  intros Hp [Hs Hi Hj Hd Hg]. cbn in *. unfold flight in Hi. rewrite Hp in Hi. split; cbn.
  - intros q [= <-]. by apply (Hs p Hp).
  - unfold flight. cbn. rewrite <-Hi. unfold pool_ids, unfinished. cbn. rewrite !fmap_app, app_nil_r. solve_Permutation.
  - intros q [= <-]. by apply (Hj p Hp).
  - intros q [= <-]. by apply Forall_nil.
  - apply Forall_app. auto.
Qed.

Lemma submit_history e sent got id job :
  history_ok (mkHistory e sent got) → history_ok (mkHistory (submit_io_job e id job) (push sent (id, job)) got).
Proof.
  intros [Hs Hi Hj Hd Hg]. cbn in *.
  assert (∀ c, came_of sent c → came_of (push sent (id, job)) c) as Hm.
  { intros c. apply came_of_mono. intros x Hx. apply elem_of_app. by left. }
  assert (unfinished (default new_pool (WORKER_POOL e)) ⊆ sent) as Hu.
  { destruct (WORKER_POOL e) as [p|]; [by apply Hj|]. by intros x ?%elem_of_nil. }
  split; cbn.
  - intros p [= <-]. unfold pool_sane. cbn. destruct (WORKER_POOL e) as [p|]; cbn; [by apply (Hs p)|]. unfold WORKER_COUNT. lia.
  - rewrite (submit_flight e id job). unfold push. rewrite fmap_app. cbn. rewrite <-Hi. solve_Permutation.
  - intros p [= <-]. unfold unfinished, push in *. cbn. rewrite app_assoc. intros x [Hx|Hx]%elem_of_app; apply elem_of_app; auto.
  - intros p [= <-]. cbn. destruct (WORKER_POOL e) as [p|]; [|by apply Forall_nil].
    eapply Forall_impl; [by apply Hd|done].
  - by eapply Forall_impl.
Qed.

Lemma await_shape e t :
  (∃ e1 p, works e e1 ∧ WORKER_POOL e1 = Some p ∧
     await_completions schedule e t = ((receive_all e1 p).1, Ok (receive_all e1 p).2)) ∨
  works e (await_completions schedule e t).1 ∧ ∀ cs, (await_completions schedule e t).2 ≠ Ok cs.
Proof.
  unfold await_completions. destruct (WORKER_POOL e) as [p0|] eqn:Hp0; [|right; split; [apply works_refl|done]].
  pose proof (interleave_works schedule e) as Hw. cbn zeta. destruct (works_some _ _ _ Hw Hp0) as [p Hp]. rewrite Hp.
  destruct t as [t|]; [left; by exists (interleave schedule e), p|].
  destruct (done_queue p) as [|c cs] eqn:Hd; [by right|]. left. exists (interleave schedule e), p.
  unfold receive_all. by rewrite Hd.
Qed.

Lemma pool_event_ok h ev : history_ok h → history_ok (pool_event h ev).
Proof.
  destruct h as [e sent got]. intros Hh. destruct ev as [id job|a| |t|]; cbn [pool_event h_runtime h_sent h_got].
  - by apply submit_history.
  - eapply works_history; [apply run_act_works|done].
  - unfold drain_completions. pose proof (interleave_works schedule e) as Hw. pose proof (works_history _ _ _ _ Hw Hh) as Hh1.
    destruct (WORKER_POOL (interleave schedule e)) as [p|] eqn:Hp; [by apply (receive_history _ _ _ p Hp) in Hh1|].
    by rewrite app_nil_r.
  - destruct (await_shape e t) as [(e1 & p & Hw & Hp & ->)|[Hw Hr]].
    + pose proof (works_history _ _ _ _ Hw Hh) as Hh1. by apply (receive_history _ _ _ p Hp) in Hh1.
    + destruct (await_completions schedule e t) as [e1 r]. cbn [fst snd] in *. pose proof (works_history _ _ _ _ Hw Hh) as Hh1.
      destruct r; [by destruct (Hr a)|by rewrite app_nil_r..].
  - split; cbn [h_runtime h_sent h_got].
    + intros p. by rewrite reset_pool.
    + by rewrite reset_flight.
    + intros p. by rewrite reset_pool.
    + intros p. by rewrite reset_pool.
    + by apply Forall_nil.
Qed.

Lemma history_always_ok evs : ∀ h, history_ok h → history_ok (fold_left pool_event evs h).
Proof. induction evs as [|ev evs IH]; intros h Hh; [done|]. by apply IH, pool_event_ok. Qed.
End pool.

(** ** What the pool promises *)

(** C3: The worker pool hands every job's result over exactly once.  Take any sequence of
    submissions, worker steps of the present pool or of pools earlier runs left behind,
    blocking and non-blocking receives, and resets, under any schedule.  Since the last
    reset, the fibers whose job is queued, running or finished and the fibers already
    answered are together exactly those that submitted; every answer is a result of a job
    its fiber submitted, so nothing of an earlier run leaks into a later one; all
    [WORKER_COUNT] workers live and at most that many jobs run at once; and if no fiber
    submitted twice, none is answered twice. *)
Theorem pool_delivers_once `{SystemTypes} `{NetTypes} `{!FileSystem} `{!Network} `{!Rustls} `{!Host}
    (schedule : nat → list Act) (e : Runtime) (evs : list PoolEvent) :
  WORKER_POOL e = None →
  let h := history schedule e evs in
  flight (h_runtime h) ++ (h_got h).*1 ≡ₚ (h_sent h).*1 ∧
  Forall (came_of (h_sent h)) (h_got h) ∧
  (∀ p, WORKER_POOL (h_runtime h) = Some p → alive p = WORKER_COUNT ∧ (length (busy p) ≤ WORKER_COUNT)%nat) ∧
  (NoDup (h_sent h).*1 → NoDup (h_got h).*1).
Proof.
  intros Hp h. assert (history_ok h) as [Hs Hi _ _ Hg].
  { apply history_always_ok. split; cbn; unfold flight; rewrite ?Hp; try done. }
  split_and!; [done|done|done|]. intros Hn. rewrite <-Hi in Hn. by apply NoDup_app in Hn as (_ & _ & ?).
Qed.

(** Two jobs; the second is sent after the first was received. *)
Definition demo_job (n : nat) : Job := λ g, (g, boxed TU64 (Z.of_nat n)).

Lemma pool_delivers_once_witness :
  (h_got (history eager demo_runtime [Submit 0 (demo_job 7); Recv None; Submit 3 (demo_job 8); Drain])).*1 ≡ₚ [0; 3]%nat.
Proof.
  destruct (pool_delivers_once eager demo_runtime
    [Submit 0 (demo_job 7); Recv None; Submit 3 (demo_job 8); Drain] eq_refl) as (Hi & _).
  exact Hi.
Defined.

(** ** Workers that go on *)

Section fair.
Context `{SystemTypes} `{NetTypes} `{!FileSystem} `{!Network} `{!Rustls} `{!Host}.
Implicit Types (p : Pool) (e : Runtime).

(** In each turn a worker takes a job, if one is free and a job waits, and later a job
    that runs ends. *)
Definition fair (schedule : nat → list Act) : Prop :=
  ∀ turn, [Current Take; Current (Finish 0)] `sublist_of` schedule turn.

(** A pool that holds a completion, and one that holds it or runs a job. *)
Definition answering e : Prop := ∃ p, WORKER_POOL e = Some p ∧ done_queue p ≠ [].
Definition running e : Prop := ∃ p, WORKER_POOL e = Some p ∧ (done_queue p ≠ [] ∨ busy p ≠ []).

Lemma push_ne {A} (l : list A) x : push l x ≠ [].
Proof. unfold push. by destruct l. Qed.

Lemma act_answering e a : answering e → answering (run_act e a).
Proof.
  intros (p & Hp & Hd). destruct a as [a|k a]; cbn [run_act].
  - rewrite Hp. destruct a as [|i]; cbn [worker_step].
    + destruct (job_queue p); [by exists p|]. destruct (Nat.ltb _ _); by eexists.
    + destruct (busy p !! i) as [[id job]|]; [|by exists p]. unfold mbind, syscall_bind. destruct (job _) as [g x].
      destruct (wake_poller _ g) as [g' []]. cbn. eexists. split; [done|]. apply push_ne.
  - destruct (torn_down e !! k); [|by exists p]. destruct (worker_step _ _ _ _ _). by exists p.
Qed.

Lemma act_running e a : running e → running (run_act e a).
Proof.
  intros (p & Hp & [Hd|Hb]).
  { destruct (act_answering e a) as (q & ? & ?); [by exists p|]. exists q. auto. }
  destruct a as [a|k a]; cbn [run_act].
  - rewrite Hp. destruct a as [|i]; cbn [worker_step].
    + destruct (job_queue p); [exists p; auto|]. destruct (Nat.ltb _ _); (eexists; split; [done|]); right; [apply push_ne|done].
    + destruct (busy p !! i) as [[id job]|]; [|exists p; auto]. unfold mbind, syscall_bind. destruct (job _) as [g x].
      destruct (wake_poller _ g) as [g' []]. cbn. eexists. split; [done|]. left. apply push_ne.
  - destruct (torn_down e !! k); [|exists p; auto]. destruct (worker_step _ _ _ _ _). exists p. auto.
Qed.

Lemma take_running e : runtime_sane e → flight e ≠ [] → running (run_act e (Current Take)).
Proof.
  intros [_ Hs] Hf. unfold flight in Hf. cbn [run_act]. destruct (WORKER_POOL e) as [p|] eqn:Hp; [|done].
  destruct (Hs p eq_refl) as [Ha Hb]. cbn [worker_step]. destruct (job_queue p) as [|next rest] eqn:Hj.
  - exists p. split; [done|]. destruct (decide (done_queue p = [])) as [Hd|]; [right|by left]. intros Hn.
    apply Hf. unfold pool_ids, unfinished. by rewrite Hn, Hj, Hd.
  - destruct (Nat.ltb_spec (length (busy p)) (alive p)) as [Hl|Hl]; (eexists; split; [done|]); right; [apply push_ne|].
    intros Hn. rewrite Hn, Ha in Hl. cbn in Hl. unfold WORKER_COUNT in Hl. lia.
Qed.

Lemma finish_answering e : running e → answering (run_act e (Current (Finish 0))).
Proof.
  intros (p & Hp & [Hd|Hb]); [apply act_answering; by exists p|]. cbn [run_act]. rewrite Hp.
  destruct (busy p) as [|[id job] rest] eqn:Hbusy; [done|]. cbn [worker_step]. rewrite Hbusy. cbn [lookup list_lookup].
  unfold mbind, syscall_bind. destruct (job _) as [g x]. destruct (wake_poller _ g) as [g' []]. cbn.
  eexists. split; [done|]. apply push_ne.
Qed.

Lemma acts_answering acts : ∀ e, answering e → answering (run_acts e acts).
Proof. induction acts as [|a acts IH]; intros e He; [done|]. by apply IH, act_answering. Qed.

Lemma acts_running acts : ∀ e, running e → [Current (Finish 0)] `sublist_of` acts → answering (run_acts e acts).
Proof.
  induction acts as [|a acts IH]; intros e He Hs; [by apply sublist_nil_r in Hs|].
  apply sublist_cons_r in Hs as [Hs|(l & [= <- <-] & _)]; [by apply IH; [apply act_running|]|].
  by apply (acts_answering acts (run_act e (Current (Finish 0)))), finish_answering.
Qed.

Lemma acts_finish acts : ∀ e, runtime_sane e → flight e ≠ [] →
  [Current Take; Current (Finish 0)] `sublist_of` acts → answering (run_acts e acts).
Proof.
  induction acts as [|a acts IH]; intros e Hs Hf Hsub; [by apply sublist_nil_r in Hsub|].
  apply sublist_cons_r in Hsub as [Hsub|(l & [= <- <-] & Hsub)].
  - destruct (works_kept _ _ (run_act_works e a)) as (Kf & _ & Ks & _). apply IH; [by apply Ks| |done].
    intros Hn. rewrite Hn in Kf. by apply Hf, Permutation_nil.
  - by apply (acts_running acts (run_act e (Current Take))); [apply take_running|].
Qed.

Variable schedule : nat → list Act.
Hypothesis Hfair : fair schedule.

Lemma fair_await e : runtime_sane e → flight e ≠ [] →
  ∃ e' cs, await_completions schedule e None = (e', Ok cs) ∧ cs ≠ [] ∧ handed_over pool_outside e cs e'.
Proof.
  intros Hs Hf. pose proof (await_handed schedule e None Hf) as Hh.
  destruct (await_completions schedule e None) as [e' r]. cbn [fst snd] in Hh.
  destruct r as [cs|? | |]; [exists e', cs; naive_solver|done..|]. destruct Hh as (_ & p & Hp & Hd).
  destruct (acts_finish (schedule (r_turn e)) (next_turn e)) as (q & Hq & Hdq); [done|done|apply Hfair|].
  unfold interleave in Hp. by rewrite Hq in Hp; injection Hp as ->.
Qed.

(** Up to [n] receives one after the other, while a job is in flight. *)
Fixpoint receives (n : nat) e : Runtime * res Trap (list (nat * Payload)) :=
  match n with
  | O => (e, Ok [])
  | S n =>
      if decide (flight e = []) then (e, Ok [])
      else match await_completions schedule e None with
           | (e, Ok cs) => let (e, r) := receives n e in (e, cs' ← r; Ok (cs ++ cs'))
           | (e, r) => (e, r)
           end
  end.

Lemma receives_all n : ∀ e, runtime_sane e → (length (flight e) ≤ n)%nat →
  ∃ e' cs, receives n e = (e', Ok cs) ∧ flight e' = [] ∧ cs.*1 ≡ₚ flight e ∧ ∀ id x, (id, x) ∈ cs → owed e id x.
Proof.
  induction n as [|n IH]; intros e Hs Hn; cbn [receives].
  { destruct (flight e) eqn:Hf; [|cbn in Hn; lia]. exists e, []. split_and!; try done. by intros id x ?%elem_of_nil. }
  destruct (decide (flight e = [])) as [Hf|Hf].
  { rewrite Hf. exists e, []. split_and!; try done. by intros id x ?%elem_of_nil. }
  destruct (fair_await e Hs Hf) as (e1 & cs & -> & Hne & Hfl & Hc & Ho & Hs1 & _).
  change (inflight pool_outside) with flight in Hfl. change (owes pool_outside) with owed in *.
  destruct (IH e1) as (e2 & cs2 & -> & Hf2 & Hids & Hcs).
  - by apply Hs1.
  - pose proof (Permutation_length Hfl) as Hl. rewrite length_app, length_fmap in Hl. destruct cs; [done|]. cbn in Hl. lia.
  - exists e2, (cs ++ cs2). split_and!; [done|done| |].
    + by rewrite fmap_app, Hids.
    + intros id x [Hx|Hx]%elem_of_app; [by apply (Hc (id, x))|by apply Ho, Hcs].
Qed.
End fair.

(** C19: Every fiber that waits for a worker is answered, if the workers go on.  Whatever
    the schedule, a blocking receive with a job in flight never panics: it hands over at
    least one completion or waits on.  If in every wait a worker takes a job and a job
    that runs ends, then a receive always returns, and after at most as many receives as
    there are jobs in flight each fiber in flight has been answered exactly once, with a
    result of the job it submitted, and no job is in flight. *)
Theorem waiting_fibers_answered `{SystemTypes} `{NetTypes} `{!FileSystem} `{!Network} `{!Rustls} `{!Host}
    (schedule : nat → list Act) (e : Runtime) :
  runtime_sane e → flight e ≠ [] →
  match await_completions schedule e None with (_, Ok cs) => cs ≠ [] | (_, NoFuel) => True | _ => False end ∧
  (fair schedule →
    (∃ e' cs, await_completions schedule e None = (e', Ok cs)) ∧
    ∃ e' cs, receives schedule (length (flight e)) e = (e', Ok cs) ∧ flight e' = [] ∧ cs.*1 ≡ₚ flight e ∧
      ∀ id x, (id, x) ∈ cs → owed e id x).
Proof.
  intros Hs Hf. split; [|intros Hfair; split].
  - pose proof (await_handed schedule e None Hf) as Hh.
    destruct (await_completions schedule e None) as [e' [cs|? | |]]; cbn [fst snd] in Hh; [by apply Hh|done..].
  - destruct (fair_await schedule Hfair e Hs Hf) as (e' & cs & ? & _). eauto.
  - by apply receives_all.
Qed.

(** Two fibers wait; the workers finish one job in each turn. *)
Lemma waiting_fibers_answered_witness :
  let e := submit_io_job (submit_io_job demo_runtime 5 (demo_job 7)) 6 (demo_job 8) in
  (∃ cs e', receives eager 2 e = (e', Ok cs) ∧ cs.*1 ≡ₚ [5; 6]%nat) ∧
  (await_completions lazy_workers e None).2 = NoFuel.
Proof.
  intros e. split; [|reflexivity].
  destruct (waiting_fibers_answered eager e) as (_ & Hfair).
  - split; [by intros []|]. intros p [= <-]. split; [done|]. cbn. unfold WORKER_COUNT. lia.
  - done.
  - destruct Hfair as [_ (e' & cs & Hr & _ & Hids & _)]; [by intros turn|]. by exists cs, e'.
Defined.
