(* ===== verification/Program.v ===== *)
(** * Programs on the whole machine

    The driver on [Pool.runtime], with every modelled native that needs no condition of
    its caller: computation, collections, console, files, directories, environment,
    regular expressions, digests, child processes, sockets and TLS. *)

From Stdlib Require Import ZArith Lia.
From stdpp Require Import base numbers list strings gmap pretty.
From S2P Require Import Prelude Bytes Float64 Instr ModuleTable Value Utf8 Heap HeapProofs MapObj Trap.
From S2P Require Import Scheduler SchedulerProofs SchedulerSpec Render Interp InterpProofs Driver DriverProofs.
From S2P Require Import NativesBase NativesTable NativesText NativesColl NativesFiber NativesFacts NativesSafe MapSafe NativesWorld.
From S2P Require Import System NativesFs NativesEnv NativesLib NativesProcess Tls NativesSocket NativesAll Pool Demo.
From S2P Require Import SystemSafe SocketSafe PoolProofs.

Open Scope Z_scope.

Section program.
Context `{Sizes} `{SystemTypes} `{NetTypes} `{!FileSystem} `{!Environment} `{!MathLib} `{!Digests} `{!RegexLib}.
Context `{!Processes} `{!Network} `{!Rustls} `{!Host}.
Variables (f64_to_string : f64 → string) (value_debug : Value → string) (eq_fuel tls_fuel : nat).

Definition runtime_natives : list (Native (Job := Job) (Payload := Payload) (Ext := Runtime)) :=
  modelled_natives value_debug eq_fuel f64_to_string ++
  path_natives value_debug ++ file_natives value_debug ++ env_natives value_debug ++
  regex_natives value_debug ++ (on_mem <$> lib_natives value_debug) ++ process_natives value_debug ++
  socket_natives value_debug ++ tls_natives value_debug tls_fuel ++
  (on_mem <$> [native_map_index f64_to_string eq_fuel; native_map_get eq_fuel; native_map_has eq_fuel]).

Lemma runtime_natives_ok module cur : Forall (native_ok pool_outside module cur) runtime_natives.
Proof.
  pose proof runtime_process_ok as Hps. pose proof runtime_console_ok as Hco. pose proof runtime_local_ok as Hlo.
  unfold runtime_natives. rewrite !Forall_app. split_and!.
  - by apply modelled_ok.
  - by apply path_natives_ok.
  - by apply file_natives_ok.
  - by apply env_natives_ok.
  - by apply regex_natives_ok.
  - apply Forall_fmap. eapply Forall_impl; [apply lib_natives_ok|]. intros f Hf. by apply mem_native_world.
  - by apply process_natives_ok.
  - by apply socket_natives_ok.
  - by apply tls_natives_ok.
  - repeat (apply Forall_cons; split; [apply mem_native_world|]); try (by apply Forall_nil);
      [apply native_map_index_ok|apply native_map_get_ok|apply native_map_has_ok].
Qed.

(** The natives that panic on some argument, or whose safety needs a condition of the
    caller: those that mutate a map, the scheduler's tables indexed by a number, the ones
    the standard library panics in. *)
Definition may_panic : list string :=
  ["map_new"; "map_set"; "map_remove"; "str_slice"; "env_set"; "env_vars";
   "fiber_spawn"; "channel_send"; "channel_receive"; "channel_close"; "chan_is_ready"; "select_park"].

#[local] Abbreviation table := (native_table f64_to_string value_debug eq_fuel tls_fuel).

(** Where the other natives of the table are in [runtime_natives]. *)
Definition places : list (option nat) := [
   Some 55; Some 56; Some 6; Some 40; Some 41; Some 42; Some 43; None; Some 161; Some 162; Some 51; Some 163; None; Some 7;
   Some 8; Some 9; Some 10; Some 13; Some 11; Some 12; Some 14; Some 15; Some 16; Some 128; Some 129; Some 17;
   Some 18; Some 19; None; Some 20; Some 21; Some 22; Some 23; Some 52; Some 53; Some 54; Some 110; Some 124;
   Some 111; Some 112; Some 113; Some 114; Some 115; Some 116; Some 117; Some 118; Some 119; Some 120; Some 121;
   Some 122; Some 123; Some 125; Some 126; Some 24; Some 127; Some 70; Some 71; Some 72; Some 73; Some 74; Some
   75; Some 76; Some 77; Some 78; Some 79; Some 80; Some 81; Some 82; Some 83; Some 84; Some 85; Some 89; Some
   87; Some 88; Some 90; Some 91; Some 92; Some 93; Some 67; Some 143; Some 68; Some 69; Some 94; None; None;
   Some 95; Some 96; Some 97; Some 98; Some 99; Some 100; Some 101; Some 102; Some 48; Some 49; None; Some 50;
   Some 47; Some 44; Some 45; Some 46; Some 134; Some 135; Some 136; Some 137; Some 138; Some 139; Some 140;
   Some 141; Some 142; Some 26; Some 27; Some 28; Some 29; Some 30; Some 31; Some 32; Some 33; Some 34; Some 35;
   Some 36; Some 37; Some 38; Some 39; Some 86; Some 61; Some 62; Some 57; Some 58; Some 0; Some 1; Some 2; Some
   3; Some 4; Some 5; Some 59; Some 60; None; Some 63; Some 65; Some 66; None; None; None; Some 130; Some 131;
   Some 132; Some 133; Some 25; Some 103; Some 104; Some 105; Some 106; Some 107; Some 108; Some 109; Some 144;
   Some 145; Some 146; Some 147; Some 148; Some 149; Some 150; Some 151; Some 152; Some 154; Some 153; Some 64;
   None; None; Some 155; Some 156; Some 157; Some 158; Some 159; Some 160
  ]%nat.

Definition placed (e : string * Native (Job := Job) (Payload := Payload) (Ext := Runtime)) (p : option nat) : Prop :=
  match p with
  | Some j => runtime_natives !! j = Some e.2
  | None => bool_decide (e.1 ∈ may_panic) = true
  end.

Lemma table_placed : Forall2 placed table places.
Proof.
  unfold native_table, places.
  repeat (apply Forall2_cons; split; [unfold placed; reflexivity|]). apply Forall2_nil_2.
Qed.

Lemma table_ok module cur name f :
  (name, f) ∈ table → name ∉ may_panic → native_ok pool_outside module cur f.
Proof.
  intros [i Hi]%list_elem_of_lookup Hn.
  destruct (Forall2_lookup_l _ _ _ _ _ table_placed Hi) as ([j|] & _ & Hp); cbn in Hp.
  - by apply (Forall_lookup_1 _ _ _ _ (runtime_natives_ok module cur) Hp).
  - by apply bool_decide_eq_true in Hp.
Qed.

(** The code calls none of the natives that may panic. *)
Definition calls_safely (module : Module) : Prop :=
  ∀ i name, native_called module i → NATIVES !! Z.to_nat i = Some name → name ∉ may_panic.

Lemma default_natives_ok module cur :
  calls_safely module →
  calls_ok pool_outside module cur (default_natives f64_to_string value_debug eq_fuel tls_fuel).
Proof.
  intros Hc i f Hi Hf. unfold default_natives in Hf. rewrite list_lookup_fmap in Hf.
  apply fmap_Some in Hf as ([name g] & Hl & ->). eapply table_ok; [by eapply list_elem_of_lookup_2|].
  apply (Hc i); [done|].
  by rewrite <-(native_table_names f64_to_string value_debug eq_fuel tls_fuel), list_lookup_fmap, Hl.
Qed.
End program.

(** A program on the whole machine never panics.  It runs on the runtime's own native
    table, with the worker pool, the poller and the process's statics; its code calls
    none of the 12 natives of [may_panic].  The operating system, the network and the
    libraries answer what they like, the workers follow any schedule, and any file,
    directory, process, regular-expression, socket or TLS native may be called with any
    arguments.  The run ends with a well-formed heap, a live value, no job in flight and
    no worker lost, or traps. *)
Theorem program_on_runtime_safe `{Sizes} `{SystemTypes} `{NetTypes} `{!FileSystem} `{!Environment} `{!MathLib}
    `{!Digests} `{!RegexLib} `{!Processes} `{!Network} `{!Rustls} `{!Host}
    f64_to_string value_debug eq_fuel tls_fuel schedule module fuel w fn args :
  module_safe module → calls_safely module →
  rest_ok pool_outside w → pause_room fuel (w_mem w) → lives (w_mem w) args →
  safe (λ '(w', v), rest_ok pool_outside w' ∧ live (w_mem w') v ∧ GC_PAUSED (w_mem w') = GC_PAUSED (w_mem w))
    (run f64_to_string value_debug (default_natives f64_to_string value_debug eq_fuel tls_fuel)
      (runtime schedule) fuel module w fn args).
Proof.
  intros Hmo Hsub Hw Hroom Hargs. apply run_safe; try done; [apply runtime_ok|]. intros cur.
  by apply default_natives_ok.
Qed.

(** ** A program that reads a file and serves a socket *)

(** [accept] finds its listener blocked, waits in the poller and is run again; then the
    fiber waits for a worker. *)
Definition served_main : Function :=
  Function_new "main" 0 0
    [ConstStr "127.0.0.1:80"; CallNative 156 1; Pop; ConstInt 1; CallNative 157 1; Pop;
     ConstStr "a.txt"; CallNative 55 1; Return].

Definition served_module : Module := Module_new [served_main].

Definition served_world : World (Job := Job) (Payload := Payload) (Ext := Runtime) :=
  mkWorld (Mem_init DEFAULT_MAX_HEAP_BYTES) Scheduler_new None []
    (set_r_statics demo_runtime (set_os demo_statics (mkSim (sim_files demo_sim) 0 1 0))).

Lemma served_module_safe : module_safe served_module.
Proof.
  constructor; [intros ty; cbn; by rewrite lookup_empty|cbn; lia|].
  intros f s n Hf Hi. apply list_elem_of_singleton in Hf as ->. cbn in Hi.
  repeat (apply elem_of_cons in Hi as [Hi|Hi]; [by try done|]). by apply elem_of_nil in Hi.
Qed.

Lemma served_rest : rest_ok pool_outside served_world.
Proof.
  constructor; [apply Mem_init_wf|done|done|]. split; [by intros []|done].
Qed.

Lemma served_calls : calls_safely served_module.
Proof.
  intros i name (f & argc & Hf & Hi) Hn. apply list_elem_of_singleton in Hf as ->. cbn in Hi.
  repeat (apply elem_of_cons in Hi as [Hi|Hi];
    [try discriminate Hi; injection Hi as -> ->; injection Hn as <-; by apply (bool_decide_unpack _)|]).
  by apply elem_of_nil in Hi.
Qed.

Abbreviation served := (run (H := sizes64) no_text no_text (default_natives (H := sizes64) no_text no_text 0 5)
  (runtime eager) 30 served_module served_world 0 []).

Lemma program_on_runtime_safe_witness :
  safe (λ '(w', v), rest_ok pool_outside w' ∧ live (w_mem w') v ∧ GC_PAUSED (w_mem w') = GC_PAUSED (w_mem served_world))
    served.
Proof.
  apply (program_on_runtime_safe (H := sizes64) no_text no_text 0 5);
    [exact served_module_safe|exact served_calls|exact served_rest|split; cbn; lia|by apply Forall_nil].
Defined.

(** The run itself: the file's text, the accepted socket closed again, the pool gone. *)
Example served_run : ∃ w h h1,
  served = Ok (w, Ref h) ∧
  holds (w_mem w) h (ok_obj (Ref h1)) ∧ holds (w_mem w) h1 (Str "hello") ∧ sim_dropped (os (r_statics (w_ext w))) = 2%nat.
Proof. eexists _, _, _. split_and!; vm_compute; reflexivity. Qed.
