(* ===== verification/Guarded.v ===== *)
(** * Every program on the whole machine

    The native table with a guard: a native asked for what it cannot answer traps instead
    of panicking, and does what it does otherwise.  [misuse] says what that is: a map that
    a compared key reaches or that is full, a string that is not UTF-8, a channel that is
    not there, a wait on sockets without the poller, a variable the standard library
    rejects, a fiber table that is full.  With the guard no program of a safe module
    panics; without it, one that panics reaches a call the guard would stop. *)

From Stdlib Require Import ZArith Lia.
From stdpp Require Import base numbers list strings gmap pretty.
From S2P Require Import Prelude Bytes Float64 Instr ModuleTable NativesTable Value Heap MapObj HeapProofs Utf8 Trap.
From S2P Require Import Scheduler SchedulerProofs SchedulerSpec Render Interp InterpProofs Driver DriverProofs.
From S2P Require Import NativesBase NativesText NativesColl NativesFiber System NativesFs NativesEnv NativesLib NativesProcess.
From S2P Require Import Tls NativesSocket NativesAll Pool Demo NativesFacts NativesTextProofs NativesSafe MapSafe NativesWorld.
From S2P Require Import SystemSafe SocketSafe PoolProofs Program.

Open Scope Z_scope.

Section guard.
Context `{Sizes} `{SystemTypes} `{NetTypes} `{!FileSystem} `{!Environment} `{!MathLib} `{!Digests} `{!RegexLib}.
Context `{!Processes} `{!Network} `{!Rustls} `{!Host}.
Variables (f64_to_string : f64 → string) (vd : Value → string) (eq_fuel tls_fuel : nat).

#[local] Abbreviation World := (World (Job := Job) (Payload := Payload) (Ext := Runtime)).
#[local] Abbreviation Native := (Native (Job := Job) (Payload := Payload) (Ext := Runtime)).

(** The text of a string value. *)
Definition text_of (m : Mem) (v : Value) : option string :=
  match v with
  | Ref h => match mem_slots m !! h with Some (Some (Str s)) => Some s | _ => None end
  | _ => None
  end.

Definition not_utf8 (w : World) (args : list Value) : bool :=
  match args with
  | v :: _ => match text_of (w_mem w) v with Some s => negb (utf8_valid (as_bytes s)) | None => false end
  | [] => false
  end.

Definition no_channel (w : World) (args : list Value) : bool :=
  match args with
  | Int id :: _ => Nat.leb (length (channels (w_sched w))) (as_index id)
  | _ => false
  end.

Definition no_poller (w : World) (args : list Value) : bool :=
  match args with
  | Ref h :: _ =>
      match mem_slots (w_mem w) !! h, POLLER (r_locals (w_ext w)) with
      | Some (Some (List [])), _ | _, Some _ => false
      | _, None => true
      end
  | _ => false
  end.

Definition bad_variable (w : World) (args : list Value) : bool :=
  match args with
  | [name; value] =>
      match text_of (w_mem w) name, text_of (w_mem w) value with
      | Some n, Some v => set_var_panics n v
      | _, _ => false
      end
  | _ => false
  end.

Definition bad_variables (w : World) : bool :=
  let vars := (env_vars (os (r_statics (w_ext w)))).2 in
  existsb (λ o, bool_decide (o = None)) vars || (2 ^ 31 <=? Z.of_nat (length vars)).

(** What a native cannot answer. *)
Definition misuse (name : string) (w : World) (args : list Value) : bool :=
  if decide (name = "map_set" ∨ name = "map_remove") then map_clash eq_fuel (w_mem w) args
  else if decide (name = "map_new") then 2 ^ 31 <=? Z.of_nat (length args)
  else if decide (name = "str_slice") then not_utf8 w args
  else if decide (name = "fiber_spawn") then 2 ^ 64 - 1 <=? Z.of_nat (length (fibers (w_sched w)))
  else if decide (name ∈ ["channel_send"; "channel_receive"; "channel_close"; "chan_is_ready"]) then no_channel w args
  else if decide (name = "select_park") then no_poller w args
  else if decide (name = "env_set") then bad_variable w args
  else if decide (name = "env_vars") then bad_variables w
  else false.

Definition MISUSE : Trap := Bug "misuse".

Definition guarded (e : string * Native) : Native := λ w args,
  if misuse e.1 w args then Err MISUSE else e.2 w args.

#[local] Abbreviation table := (native_table f64_to_string vd eq_fuel tls_fuel).

Definition guarded_natives : list Native := guarded <$> table.

(** ** With the guard a native is safe *)

Variables (module : Module) (cur : nat).
#[local] Abbreviation world_ok := (world_ok pool_outside module (Some cur)).
#[local] Abbreviation native_ok := (native_ok pool_outside module (Some cur)).
#[local] Abbreviation native_post := (native_post pool_outside module (Some cur)).

Lemma guarded_post e :
  (∀ w args, world_ok w → lives (w_mem w) args → misuse e.1 w args = false → safe (native_post w) (e.2 w args)) →
  native_ok (guarded e).
Proof.
  intros Hf. apply native_ok_post. intros w args Hw Ha. unfold guarded. destruct (misuse _ _ _) eqn:Hm; [done|]. by apply Hf.
Qed.

Lemma guarded_safe e : native_ok e.2 → native_ok (guarded e).
Proof.
  intros Hf w args Hw Hp Ha. unfold guarded. destruct (misuse _ _ _); [done|]. by apply Hf.
Qed.

(** A native of the heap, safe unless [bad]. *)
Lemma guarded_mem name (f : MemNative) :
  (∀ w args, mem_wf (w_mem w) → lives (w_mem w) args → misuse name w args = false → safe (step_post (w_mem w)) (f (w_mem w) args)) →
  native_ok (guarded (name, on_mem f)).
Proof.
  intros Hf. apply guarded_post. intros w args Hw Ha Hm. unfold on_mem. cbn [snd].
  eapply safe_bind; [apply Hf; [apply Hw|done|done]|]. intros [m v] Hp. by apply post_mem.
Qed.

Lemma map_new_guarded : native_ok (guarded ("map_new", on_mem (native_map_new eq_fuel))).
Proof. apply guarded_mem. intros w args Hm Ha Hb%Z.leb_gt. by apply map_new_safe. Qed.

Lemma map_set_guarded : native_ok (guarded ("map_set", on_mem (native_map_set eq_fuel))).
Proof. apply guarded_mem. intros w args Hm Ha Hb. by apply map_set_safe. Qed.

Lemma map_remove_guarded : native_ok (guarded ("map_remove", on_mem (native_map_remove eq_fuel))).
Proof. apply guarded_mem. intros w args Hm Ha Hb. by apply map_remove_native_safe. Qed.

Lemma text_contents m v s : str_contents vd m v = Ok s → text_of m v = Some s ∧ ∃ h, v = Ref h ∧ holds m h (Str s).
Proof.
  unfold str_contents, text_of. destruct v as [| | | |h]; try done. unfold with_obj, lookup_obj.
  destruct (mem_slots m !! h) as [[o|]|] eqn:Ho; try done. destruct o; cbn; try done. intros [= ->]. eauto.
Qed.

Lemma str_slice_guarded : native_ok (guarded ("str_slice", on_mem (native_str_slice vd))).
Proof.
  apply guarded_mem. intros w args Hm Ha Hb. unfold native_str_slice.
  destruct args as [|sv [|a [|b []]]]; try done. cbn [args3 mbind res_bind]. apply Forall_cons in Ha as [Hsv _].
  pose proof (str_contents_safe (w_mem w) Hm vd sv Hsv) as Hs.
  destruct (str_contents vd (w_mem w) sv) as [s| | |] eqn:He; try done. clear Hs.
  apply text_contents in He as (Ht & h & -> & Hh). change (not_utf8 w (Ref h :: [a; b]) = false) in Hb.
  unfold not_utf8 in Hb. rewrite Ht in Hb. apply negb_false_iff in Hb.
  destruct a as [first| | | |]; try done. destruct b as [last| | | |]; try done.
  pose proof (str_slice_code_points vd (w_mem w) h s first last Hh Hb) as Hok. unfold native_str_slice in Hok.
  cbn [args3 mbind res_bind] in Hok. rewrite (str_contents_holds _ _ h s Hh) in Hok. cbn [mbind res_bind] in *.
  rewrite Hok. by apply alloc_post; [| |apply Forall_nil].
Qed.

Lemma env_set_guarded : native_ok (guarded ("env_set", native_env_set vd)).
Proof.
  apply guarded_post. intros w args Hw Ha Hb. cbn [snd].
  destruct (env_set_safe pool_outside module (Some cur) runtime_process_ok vd w args Hw Ha) as [Hp|]; [|done]. exfalso.
  unfold native_env_set in Hp. destruct args as [|a [|b []]]; try done. cbn [args2 mbind res_bind] in Hp.
  apply Forall_cons in Ha as [Hla [Hlb _]%Forall_cons]. pose proof (wd_mem _ _ _ _ Hw) as Hm.
  pose proof (str_contents_safe (w_mem w) Hm vd a Hla) as Hsa. pose proof (str_contents_safe (w_mem w) Hm vd b Hlb) as Hsb.
  destruct (str_contents vd (w_mem w) a) as [n| | |] eqn:Hna; try done. cbn [mbind res_bind] in Hp.
  destruct (str_contents vd (w_mem w) b) as [v| | |] eqn:Hvb; try done. cbn [mbind res_bind] in Hp.
  apply text_contents in Hna as [Hn _]. apply text_contents in Hvb as [Hv _].
  change (bad_variable w [a; b] = false) in Hb. unfold bad_variable in Hb. rewrite Hn, Hv in Hb. rewrite Hb in Hp.
  by destruct (in_world _ _) in Hp.
Qed.

Lemma fiber_spawn_guarded : native_ok (guarded ("fiber_spawn", native_fiber_spawn)).
Proof. apply guarded_post. intros w args Hw Ha Hb%Z.leb_gt. by eapply fiber_spawn_safe. Qed.

Lemma channel_there w args : no_channel w args = false → channel_arg w args.
Proof. intros Hb id rest ->. by apply Nat.leb_gt. Qed.

Lemma channel_send_guarded : native_ok (guarded ("channel_send", native_channel_send vd)).
Proof. apply guarded_post. intros w args Hw Ha Hb%channel_there. by apply channel_send_safe. Qed.
Lemma channel_receive_guarded : native_ok (guarded ("channel_receive", native_channel_receive vd)).
Proof. apply guarded_post. intros w args Hw Ha Hb%channel_there. by apply channel_receive_safe. Qed.
Lemma channel_close_guarded : native_ok (guarded ("channel_close", native_channel_close vd)).
Proof. apply guarded_post. intros w args Hw Ha Hb%channel_there. by apply channel_close_safe. Qed.
Lemma chan_is_ready_guarded : native_ok (guarded ("chan_is_ready", native_chan_is_ready vd)).
Proof. apply guarded_post. intros w args Hw Ha Hb%channel_there. by apply chan_is_ready_safe. Qed.

Lemma select_park_guarded : native_ok (guarded ("select_park", native_select_park vd)).
Proof.
  apply guarded_post. intros w args Hw Ha Hb. change (no_poller w args = false) in Hb. cbn [snd].
  destruct args as [|hv rest]; [done|]. destruct hv as [| | | |h]; try (by destruct rest as [|? []]).
  apply select_park_safe; [apply runtime_console_ok|done|done|]. unfold no_poller in Hb.
  destruct (POLLER (r_locals (w_ext w))) as [p|] eqn:Hp; [left; cbn; rewrite Hp; by eexists|right].
  exists h, rest. split; [done|]. destruct (mem_slots (w_mem w) !! h) as [[[| | |[] | | | |]|]|]; done.
Qed.

(** ** Listing the variables *)

Lemma var_entries_safe vars : ∀ m, mem_wf m → existsb (λ o, bool_decide (o = None)) vars = false →
  safe (λ '(m', es), mem_wf m' ∧ Forall (λ p, live m' p.1 ∧ live m' p.2) es ∧ length es = length vars ∧
    keeps_live m m' ∧ mem_rel m m') (var_entries m vars).
Proof.
  induction vars as [|[[k v]|] vars IH]; intros m Hm Hb; cbn [var_entries]; [|cbn in Hb|done].
  { split_and!; [done|by apply Forall_nil|done|apply keeps_live_refl|apply mem_rel_refl]. }
  eapply safe_bind; [by apply new_str_safe|]. intros [m1 kv] (Hm1 & Hk1 & Hl1 & Hr1). cbn [fst snd] in *.
  eapply safe_bind; [by apply new_str_safe|]. intros [m2 vv] (Hm2 & Hv2 & Hl2 & Hr2). cbn [fst snd] in *.
  eapply safe_bind; [by apply IH|]. intros [m3 es] (Hm3 & Hes & Hlen & Hl3 & Hr3).
  split_and!; [done|apply Forall_cons; split; [cbn; auto|done]|cbn; lia|intros x Hx; auto|].
  eapply mem_rel_trans; [exact Hr1|]. by eapply mem_rel_trans.
Qed.

Lemma env_vars_guarded : native_ok (guarded ("env_vars", native_env_vars eq_fuel)).
Proof.
  apply guarded_post. intros w args Hw Ha Hb. change (bad_variables w = false) in Hb. cbn [snd].
  unfold native_env_vars. destruct args; [|done]. cbn [expect_no_args mbind res_bind].
  assert ((in_world (on_os env_vars) w).2 = (env_vars (os (r_statics (w_ext w)))).2) as Hvars.
  { unfold in_world, in_ext, on_os. cbn. by destruct (env_vars _). }
  pose proof (in_world_safe pool_outside module (Some cur) runtime_process_ok (on_os env_vars) w Hw) as Hw1.
  assert (w_mem (in_world (on_os env_vars) w).1 = w_mem w) as Hm1 by by rewrite in_world_fst.
  destruct (in_world (on_os env_vars) w) as [w1 vars]. cbn [fst snd] in *. subst vars.
  apply orb_false_iff in Hb as [Hb Hn]. apply Z.leb_gt in Hn.
  assert (∀ r, native_post w1 r → native_post w r) as Hpost by (unfold NativesWorld.native_post; by rewrite Hm1).
  eapply safe_mono; [|exact Hpost]. apply returning_safe; [done|].
  eapply safe_bind; [apply var_entries_safe; [apply Hw1|done]|]. intros [m es] (Hm & Hes & Hlen & Hk & Hr).
  eapply safe_bind; [apply from_pairs_safe; [done|done|by rewrite Hlen]|]. intros mp [Hs Hh].
  eapply safe_mono; [by apply alloc_post|]. intros r Hp. by eapply step_trans.
Qed.

(** ** Every native *)

Lemma may_panic_guarded : Forall (λ e, bool_decide (e.1 ∈ may_panic) = true → native_ok (guarded e)) table.
Proof.
  unfold native_table. repeat (apply Forall_cons; split; [try discriminate; intros _|]); try (by apply Forall_nil).
  all: lazymatch goal with
  | |- _ (guarded ("map_new", _)) => apply map_new_guarded
  | |- _ (guarded ("map_set", _)) => apply map_set_guarded
  | |- _ (guarded ("map_remove", _)) => apply map_remove_guarded
  | |- _ (guarded ("str_slice", _)) => apply str_slice_guarded
  | |- _ (guarded ("env_set", _)) => apply env_set_guarded
  | |- _ (guarded ("env_vars", _)) => apply env_vars_guarded
  | |- _ (guarded ("fiber_spawn", _)) => apply fiber_spawn_guarded
  | |- _ (guarded ("channel_send", _)) => apply channel_send_guarded
  | |- _ (guarded ("channel_receive", _)) => apply channel_receive_guarded
  | |- _ (guarded ("channel_close", _)) => apply channel_close_guarded
  | |- _ (guarded ("chan_is_ready", _)) => apply chan_is_ready_guarded
  | |- _ (guarded ("select_park", _)) => apply select_park_guarded
  end.
Qed.

Lemma guarded_natives_ok : Forall native_ok guarded_natives.
Proof.
  apply Forall_fmap, Forall_forall. intros [name f] Hin. cbn [compose].
  destruct (decide (name ∈ may_panic)) as [Hp|Hp].
  - pose proof may_panic_guarded as Hg. rewrite Forall_forall in Hg.
    apply (Hg (name, f) Hin). by apply bool_decide_eq_true.
  - apply guarded_safe. by eapply table_ok.
Qed.
End guard.

(** ** The guard only stops

    A run with the guard is the run without it, unless the guard stops it. *)

Definition stops {A} (r r' : res Trap A) : Prop := r = Err MISUSE ∨ r = r'.

Lemma stops_refl {A} (r : res Trap A) : stops r r.
Proof. by right. Qed.

Lemma stops_bind {A B} (r r' : res Trap A) (k k' : A → res Trap B) :
  stops r r' → (∀ a, stops (k a) (k' a)) → stops (r ≫= k) (r' ≫= k').
Proof. intros [->| ->] Hk; [by left|]. destruct r' as [a| | |]; cbn; [apply Hk|by right..]. Qed.

#[local] Ltac stop_step := first
  [ assumption
  | apply stops_refl
  | apply stops_bind; [|intros ?]
  | match goal with
    | |- stops (match ?x with _ => _ end) (match ?x with _ => _ end) => destruct x
    | H : ∀ _, _ |- stops _ _ => solve [apply H]
    end ].
#[local] Ltac stop := repeat stop_step.

Section stops.
Context `{Sizes} {Job Payload Ext : Type}.
Variables (f64_to_string : f64 → string) (vd : Value → string).
#[local] Abbreviation World := (World (Job := Job) (Payload := Payload) (Ext := Ext)).
#[local] Abbreviation Native := (Native (Job := Job) (Payload := Payload) (Ext := Ext)).
#[local] Abbreviation Vm := (Vm (Job := Job) (Payload := Payload) (Ext := Ext)).
#[local] Abbreviation Call_fn := (Call_fn (Job := Job) (Payload := Payload) (Ext := Ext)).
Variables natives natives' : list Native.
Hypothesis Hnatives : Forall2 (λ f f' : Native, ∀ w args, stops (f w args) (f' w args)) natives natives'.

Section call.
Variables (call call' : Call_fn) (module : Module).
Hypothesis Hcall : ∀ vm func args, stops (call vm func args) (call' vm func args).

Lemma debug_items_stops (dbg dbg' : Vm → Value → res Trap (Vm * string)) items :
  (∀ vm v, stops (dbg vm v) (dbg' vm v)) → ∀ vm, stops (debug_items dbg vm items) (debug_items dbg' vm items).
Proof. intros Hd. induction items as [|v items IH]; intros vm; cbn [debug_items]; stop. Qed.

Lemma debug_entries_stops (dbg dbg' : Vm → Value → res Trap (Vm * string)) es :
  (∀ vm v, stops (dbg vm v) (dbg' vm v)) → ∀ vm, stops (debug_entries dbg vm es) (debug_entries dbg' vm es).
Proof. intros Hd. induction es as [|[k v] es IH]; intros vm; cbn [debug_entries]; stop. Qed.

Lemma debug_obj_stops (dbg dbg' : Vm → Value → res Trap (Vm * string)) vm o :
  (∀ vm v, stops (dbg vm v) (dbg' vm v)) → stops (debug_obj dbg module vm o) (debug_obj dbg' module vm o).
Proof.
  intros Hd. pose proof (λ items, debug_items_stops dbg dbg' items Hd). pose proof (λ es, debug_entries_stops dbg dbg' es Hd).
  destruct o; cbn [debug_obj]; unfold debug_list; stop.
Qed.

Lemma debug_value_stops fuel : ∀ vm v,
  stops (debug_value f64_to_string fuel call module vm v) (debug_value f64_to_string fuel call' module vm v).
Proof.
  induction fuel as [|fuel IH]; intros vm v; cbn [debug_value]; [apply stops_refl|].
  pose proof (λ vm o, debug_obj_stops _ _ vm o IH). stop.
Qed.

Lemma fallback_stops fuel vm selector args :
  stops (virtual_fallback f64_to_string vd fuel call module vm selector args)
    (virtual_fallback f64_to_string vd fuel call' module vm selector args).
Proof. pose proof (debug_value_stops fuel). unfold virtual_fallback, fallback_body. stop. Qed.
End call.

Lemma native_stops l n argc : stops (step_call_native natives l n argc) (step_call_native natives' l n argc).
Proof.
  unfold step_call_native. apply stops_bind; [apply stops_refl|]. intros l1. apply stops_bind; [apply stops_refl|]. intros b.
  destruct (natives !! Z.to_nat n) as [f|] eqn:Hf.
  - destruct (Forall2_lookup_l _ _ _ _ _ Hnatives Hf) as (f' & -> & Hff). cbn [ok_or mbind res_bind].
    apply stops_bind; [apply Hff|]. intros []. apply stops_refl.
  - destruct (natives' !! Z.to_nat n) as [f'|] eqn:Hf'; [|apply stops_refl].
    destruct (Forall2_lookup_r _ _ _ _ _ Hnatives Hf') as (f & Hf2 & _). by rewrite Hf2 in Hf.
Qed.

Lemma step_stops (fb fb' : Vm → string → list Value → res Trap (Vm * Value)) module depth l :
  (∀ vm selector args, stops (fb vm selector args) (fb' vm selector args)) →
  stops (step natives fb module depth l) (step natives' fb' module depth l).
Proof.
  intros Hfb. unfold step. apply stops_bind; [apply stops_refl|]. intros f. apply stops_bind; [apply stops_refl|]. intros i.
  destruct i; try apply stops_refl; [apply native_stops|]. unfold step_call_virtual. stop.
Qed.

Lemma run_loop_stops fuel module : ∀ depth l,
  stops (run_loop f64_to_string vd natives fuel module depth l) (run_loop f64_to_string vd natives' fuel module depth l).
Proof.
  induction fuel as [|fuel IH]; intros depth l; cbn [run_loop]; [apply stops_refl|].
  apply stops_bind; [|intros []; [apply IH|apply stops_refl]]. apply step_stops. intros vm selector args.
  apply fallback_stops. intros vm' func args'. unfold call_with. stop.
Qed.

Variable machine : Machine Job Payload Ext.

Lemma drive_loop_stops fuel module : ∀ current l,
  stops (drive_loop f64_to_string vd natives machine fuel module current l)
    (drive_loop f64_to_string vd natives' machine fuel module current l).
Proof.
  induction fuel as [|fuel IH]; intros current l; cbn [drive_loop]; [apply stops_refl|].
  apply stops_bind; [apply run_loop_stops|]. intros [o vm]. apply stops_bind; [apply stops_refl|].
  intros [vm' [v|]]; [apply stops_refl|]. apply stops_bind; [apply stops_refl|]. intros []; [apply IH|apply stops_refl].
Qed.

Lemma run_stops fuel module w fn args :
  stops (run f64_to_string vd natives machine fuel module w fn args) (run f64_to_string vd natives' machine fuel module w fn args).
Proof.
  unfold run, drive. apply stops_bind; [|intros []; apply stops_refl].
  apply stops_bind; [apply stops_refl|]. intros []. apply drive_loop_stops.
Qed.
End stops.

(** The guarded table against the table itself. *)
Lemma guarded_stops `{Sizes} `{SystemTypes} `{NetTypes} `{!FileSystem} `{!Environment} `{!MathLib}
    `{!Digests} `{!RegexLib} `{!Processes} `{!Network} `{!Rustls} `{!Host} fs vd eq_fuel tls_fuel :
  Forall2 (λ f f' : Native (Job := Job) (Payload := Payload) (Ext := Runtime), ∀ w args, stops (f w args) (f' w args))
    (guarded_natives fs vd eq_fuel tls_fuel) (default_natives fs vd eq_fuel tls_fuel).
Proof.
  unfold guarded_natives, default_natives. apply Forall2_fmap, Forall_Forall2_diag, Forall_true.
  intros [name f] w' args'. unfold guarded. destruct (misuse _ _ _ _); [by left|by right].
Qed.

(** C1: No program panics, as long as it asks its natives for what they can answer.  A
    module whose dispatch index agrees with its table (of at most 2^32 rows; the loader
    builds such an index) and whose every [call.virtual] passes a receiver runs on the
    whole machine: the runtime's native table, the worker pool, the poller, the process's
    statics, an operating system, a network and libraries that answer what they like,
    workers that follow any schedule.  It starts at rest (a well-formed heap, no job in
    flight) with live arguments and room for the collector's pauses.  With a guard that
    traps where [misuse] says a call cannot be answered, the run ends with a well-formed
    heap (every map on it in shape), a live value, no job in flight and no worker lost, or
    traps, or runs past any fuel; and the run without the guard is the same run, unless
    the guard stops it.  A program that calls none of the 12 natives of [may_panic] needs
    no guard. *)
Theorem every_program_safe `{Sizes} `{SystemTypes} `{NetTypes} `{!FileSystem} `{!Environment} `{!MathLib}
    `{!Digests} `{!RegexLib} `{!Processes} `{!Network} `{!Rustls} `{!Host}
    f64_to_string value_debug eq_fuel tls_fuel schedule module fuel w fn args :
  module_safe module → rest_ok pool_outside w → pause_room fuel (w_mem w) → lives (w_mem w) args →
  let on natives := run f64_to_string value_debug natives (runtime schedule) fuel module w fn args in
  let guarded := on (guarded_natives f64_to_string value_debug eq_fuel tls_fuel) in
  let real := on (default_natives f64_to_string value_debug eq_fuel tls_fuel) in
  let safely := safe (λ '(w', v), rest_ok pool_outside w' ∧ live (w_mem w') v ∧
    GC_PAUSED (w_mem w') = GC_PAUSED (w_mem w)) in
  safely guarded ∧ (guarded = Err MISUSE ∨ guarded = real) ∧ (calls_safely module → safely real).
Proof.
  intros Hmo Hw Hroom Hargs on guarded real safely. split_and!.
  - apply run_safe; try done; [apply runtime_ok|]. intros cur. apply Forall_calls_ok, guarded_natives_ok.
  - apply run_stops, guarded_stops.
  - intros Hc. apply run_safe; try done; [apply runtime_ok|]. intros cur. by apply default_natives_ok.
Qed.

(** ** A program with a map, and one that sends to a channel nobody opened *)

Definition mapped_main : Function :=
  Function_new "main" 0 1
    [CallNative NATIVE_MAP_NEW 0; Store 0; Load 0; ConstStr "k"; ConstInt 7; CallNative NATIVE_MAP_SET 3; Pop;
     Load 0; ConstStr "k"; CallNative NATIVE_MAP_GET 2; Return].
Definition stray_main : Function :=
  Function_new "main" 0 0 [ConstInt 5; ConstInt 1; CallNative (default 0 (native_idx "channel_send")) 2; Return].

#[local] Abbreviation on natives main :=
  (run (H := sizes64) no_text no_text natives (runtime eager) 30 (Module_new [main]) served_world 0 []).
#[local] Abbreviation with_guard := (guarded_natives (H := sizes64) no_text no_text 5 5).
#[local] Abbreviation without_guard := (default_natives (H := sizes64) no_text no_text 5 5).

Lemma mapped_module_safe : module_safe (Module_new [mapped_main]).
Proof.
  constructor; [intros ty; cbn; by rewrite lookup_empty|cbn; lia|].
  intros f s n Hf Hi. apply list_elem_of_singleton in Hf as ->. cbn in Hi.
  repeat (apply elem_of_cons in Hi as [Hi|Hi]; [by try done|]). by apply elem_of_nil in Hi.
Qed.

Lemma every_program_safe_witness :
  (∃ w h, on without_guard mapped_main = Ok (w, Ref h) ∧ holds (w_mem w) h (some_obj (Int 7))) ∧
  (on with_guard mapped_main = Err MISUSE ∨ on with_guard mapped_main = on without_guard mapped_main) ∧
  on with_guard stray_main = Err MISUSE ∧ on without_guard stray_main = Panic.
Proof.
  split_and!; [eexists _, _; split; vm_compute; reflexivity| |vm_compute; reflexivity..].
  apply (every_program_safe (H := sizes64) no_text no_text 5 5);
    [exact mapped_module_safe|exact served_rest|split; cbn; lia|by apply Forall_nil].
Defined.
