(* ===== verification/MainProofs.v ===== *)
(** * The command line ends with an exit code

    Whatever the Unicode arguments, the files and the machine, the process ends with an
    exit code, dies of a trap with exit code 1, or runs on: it never panics, as long as
    its input is acceptable and its streams work, and the guard of the natives only stops
    it. *)

From Stdlib Require Import ZArith Lia.
From stdpp Require Import base numbers list strings gmap pretty.
From S2P Require Import Prelude Bytes Float64 Serialize Instr ModuleTable NativesTable Codec CodecProofs Value Utf8.
From S2P Require Import Heap HeapProofs MapObj Trap Scheduler SchedulerProofs SchedulerSpec Render Interp InterpProofs.
From S2P Require Import Driver DriverProofs NativesBase NativesText NativesColl NativesFiber NativesFacts NativesSafe.
From S2P Require Import NativesWorld System NativesFs NativesEnv NativesLib NativesProcess Tls NativesSocket NativesAll.
From S2P Require Import Main Pool Demo SystemSafe SocketSafe PoolProofs Program Guarded.

Open Scope Z_scope.

(** A result that satisfies [P], or a run that goes on. *)
Definition ends {A} (P : A → Prop) (r : res Trap A) : Prop :=
  match r with Ok a => P a | NoFuel => True | Err _ | Panic => False end.

Lemma run_ends_bind {A B} (P : A → Prop) (Q : B → Prop) (r : res Trap A) (k : A → res Trap B) :
  (∀ t, r ≠ Err t) → safe P r → (∀ a, P a → ends Q (k a)) → ends Q (x ← r; k x).
Proof. destruct r; cbn; naive_solver. Qed.

(** Allocating never traps. *)
Lemma alloc_no_trap `{Sizes} m o (t : Trap) : alloc m o ≠ Err t.
Proof. unfold alloc. by repeat case_match. Qed.

Lemma new_strs_no_trap `{Sizes} parts : ∀ m t, new_strs m parts ≠ Err t.
Proof.
  induction parts as [|s parts IH]; intros m t; cbn [new_strs]; [done|]. unfold new_str.
  pose proof (alloc_no_trap m (Str s) t) as Ha. destruct (alloc m (Str s)) as [[m1 v]|e| |]; try done.
  - cbn [mbind res_bind]. specialize (IH m1 t). by destruct (new_strs m1 parts) as [[]| | |].
  - intros [= ->]. by apply Ha.
Qed.

Lemma string_list_no_trap `{Sizes} parts m t : string_list m parts ≠ Err t.
Proof.
  unfold string_list. pose proof (new_strs_no_trap parts m) as Hn.
  destruct (new_strs m parts) as [[m1 vs]|e| |]; try done; [apply alloc_no_trap|]. intros [= ->]. by apply (Hn t).
Qed.

(** ** The demo's module *)

Definition demo_bytes : list u8 :=
  Eval vm_compute in match demo_module with Ok m => match encode_module m with Ok b => b | _ => [] end | _ => [] end.

(** What the loader makes of them. *)
Definition the_demo : Module :=
  Eval vm_compute in match decode_module (H := layout64) demo_bytes with Ok m => m | _ => Module_new [] end.

Lemma demo_written : ∃ m, demo_module = Ok m ∧ encode_module m = Ok demo_bytes.
Proof. eexists. split; [vm_compute; reflexivity|]. vm_compute. reflexivity. Qed.

Lemma demo_bytes_u8 : Forall in_u8 demo_bytes.
Proof. apply (bool_decide_unpack _). vm_compute. exact I. Qed.

Lemma demo_decoded : decode_module (H := layout64) demo_bytes = Ok the_demo.
Proof. vm_compute. reflexivity. Qed.

(** ** Acceptable input *)

(** The entry a command picks. *)
Definition entry_of (module : Module) (explicit : option string) : option nat :=
  match explicit with Some name => function_index module name | None => entry_index module end.

(** What a module must satisfy to be run: its entry exists, its code is safe and [fit] for
    the natives, and if it has an init thunk the entry takes no arguments. *)
Record runnable (fit : Module → Prop) (module : Module) (explicit : option string) : Prop := {
  rn_safe : module_safe module;
  rn_calls : fit module;
  rn_entry : ∀ i, entry_of module explicit = Some i → is_Some (functions module !! i);
  rn_args : ∀ i f, entry_of module explicit = Some i → functions module !! i = Some f →
    param_count f = 1 → init_index module = None;
}.

Definition acceptable `{Layout} (fit : Module → Prop) (explicit : option string) (bytes : list u8) : Prop :=
  decode_module bytes ≠ Panic ∧ ∀ m, decode_module bytes = Ok m → runnable fit m explicit.

(** How a process may end: with a code of eight bits, or on a trap that it reports. *)
Definition exit_ok `{SystemTypes} {Ext} (fmt_mib : usize → string) (e : Ended (Ext := Ext)) : Prop :=
  match e with
  | Exited _ code => in_u8 code
  | Trapped line code => code = FAILURE ∧ ∃ trap, line = "thera: trap: " +:+ trap_message fmt_mib trap
  end.

Section main.
Context `{Sizes} `{Layout} `{SystemTypes} `{NetTypes} `{!FileSystem} `{!Environment} `{!MathLib} `{!Digests}.
Context `{!RegexLib} `{!Processes} `{!Network} `{!Rustls} `{!Host} `{!Launch}.
Variables (f64_to_string : f64 → string) (value_debug : Value → string) (obj_debug : Obj → string).
Variables (str_debug : string → string) (fmt_mib : usize → string).
Variable schedule : nat → list Act.

#[local] Abbreviation World := (World (Job := Job) (Payload := Payload) (Ext := Runtime)).
#[local] Abbreviation Native := (Native (Job := Job) (Payload := Payload) (Ext := Runtime)).
Variables (natives : list Native) (fit : Module → Prop).
Hypothesis Hfit : ∀ module cur, fit module → calls_ok pool_outside module (Some cur) natives.

#[local] Abbreviation machine := (runtime schedule).
#[local] Abbreviation rest_ok := (rest_ok pool_outside).
#[local] Abbreviation start := (start f64_to_string value_debug obj_debug fmt_mib natives machine).
#[local] Abbreviation runnable := (runnable fit).
#[local] Abbreviation acceptable := (acceptable fit).
#[local] Abbreviation exits := (ends (exit_ok (Ext := Runtime) fmt_mib)).
Implicit Types w : World.

Hypothesis Hstderr : ∀ (e : Runtime) b, (stderr_write e b).2 = None.
Hypothesis Hstdout : ∀ (e : Runtime) b, out_error e b = None.

(** ** Streams and results *)

Lemma code_ok code : bool_decide (in_u8 code) = true → in_u8 code.
Proof. apply bool_decide_eq_true_1. Qed.

Lemma as_u8_ok n : in_u8 (as_u8 n).
Proof. by apply as_unsigned_range. Qed.

Lemma trapped_ok t : exit_ok (Ext := Runtime) fmt_mib (trapped fmt_mib t).
Proof. split; [done|by exists t]. Qed.

Lemma report_exits w lines code : in_u8 code → exits (report w lines code).
Proof.
  intros Hc. revert w. induction lines as [|line lines IH]; intros w; cbn [report]; [done|]. unfold eprintln.
  pose proof (Hstderr (w_ext w) (as_bytes line ++ [newline])) as Hs.
  destruct (stderr_write _ _) as [e failed]. cbn in Hs. subst failed. apply IH.
Qed.

#[local] Ltac reports := solve [by apply report_exits, code_ok].

Lemma println_exits w line (k : World → res Trap Ended) : (∀ w, exits (k w)) → exits (w ← println w line; k w).
Proof. intros Hk. unfold println. rewrite Hstdout. apply Hk. Qed.

Lemma clone_live m h : live m (Ref h) → ∃ o, clone_obj (E := Trap) m h = Ok o ∧ mem_slots m !! h = Some (Some o).
Proof. intros [o Ho]. exists o. split; [|done]. unfold clone_obj, lookup_obj. by rewrite Ho. Qed.

Lemma children_live m h o v : mem_wf m → mem_slots m !! h = Some (Some o) → v ∈ for_each_child o → live m v.
Proof. intros Hm Ho Hv. pose proof (wf_closed _ Hm h o Ho) as Hc. rewrite Forall_forall in Hc. by apply Hc. Qed.

Lemma render_exits fuel m : ∀ v, mem_wf m → live m v → ends (λ _, True) (render f64_to_string obj_debug fuel m v).
Proof.
  induction fuel as [|fuel IH]; intros v Hm Hv; (destruct v; cbn [render]; try done).
  destruct (clone_live m _ Hv) as (o & -> & Ho). cbn [mbind res_bind].
  destruct o as [| | | | |ty fields| |]; try done. destruct fields as [|field [|]]; try done.
  apply IH; [done|]. eapply children_live; [done|exact Ho|]. by apply list_elem_of_singleton.
Qed.

Lemma exit_code_exits fuel w v : mem_wf (w_mem w) → live (w_mem w) v →
  exits (exit_code f64_to_string obj_debug fuel w v).
Proof.
  intros Hm Hv. destruct v; cbn [exit_code]; [apply as_u8_ok|by apply code_ok..|].
  destruct (clone_live _ _ Hv) as (o & -> & Ho). cbn [mbind res_bind].
  destruct o as [| | | | | |ty variant fields|]; try by apply code_ok.
  case_decide; [destruct fields as [|[] ?]; [by apply code_ok|apply as_u8_ok|by apply code_ok..]|].
  case_decide; [|by apply code_ok]. destruct fields as [|e rest]; [reports|].
  pose proof (render_exits fuel (w_mem w) e Hm ltac:(eapply children_live; [done|exact Ho|by left])) as Hr.
  destruct (render _ _ _ _ _); try done. reports.
Qed.

(** ** Running a module *)

Lemma rest_kept w e : rest_ok w → kept pool_outside (w_ext w) e → rest_ok (set_w_ext w e).
Proof.
  intros [Hm Hp Hi Hs] Hk. constructor; [done|done| |exact (kept_sane _ _ _ pool_outside _ _ Hk Hs)].
  pose proof (kept_inflight _ _ _ pool_outside _ _ Hk) as Hin. rewrite Hi in Hin. by apply Permutation_nil_r.
Qed.

Lemma rest_mem w m : rest_ok w → mem_wf m → rest_ok (set_w_mem w m).
Proof. intros [Hm Hp Hi Hs] Hm'. by constructor. Qed.

Lemma start_exits fuel module explicit entry w args :
  runnable module explicit → rest_ok w → pause_room fuel (w_mem w) → lives (w_mem w) args →
  (args ≠ [] → init_index module = None) →
  exits (start fuel module entry w args).
Proof.
  intros Hr Hw Hroom Hargs Hinit. unfold Main.start.
  assert (∀ cur, calls_ok pool_outside module (Some cur) natives) as Hcalls.
  { intros cur. apply Hfit, Hr. }
  assert (∀ w', rest_ok w' → GC_PAUSED (w_mem w') = GC_PAUSED (w_mem w) → lives (w_mem w') args →
    exits match run f64_to_string value_debug natives machine fuel module w' entry args with
      | Ok (w, v) => exit_code f64_to_string obj_debug fuel w v
      | Err trap => Ok (trapped fmt_mib trap) | Panic => Panic | NoFuel => NoFuel end) as Hrun.
  { intros w' Hw' Hg Ha. assert (pause_room fuel (w_mem w')) as Hroom' by (unfold pause_room; by rewrite Hg).
    pose proof (run_safe f64_to_string value_debug natives machine pool_outside module (runtime_ok schedule)
      (rn_safe _ _ _ Hr) Hcalls fuel w' entry args Hw' Hroom' Ha) as Hs.
    destruct (run _ _ _ _ _ _ _ _ _) as [[w2 v]|trap| |]; cbn in Hs; try done; [|apply trapped_ok].
    destruct Hs as ([Hm2 _ _ _] & Hv & _). by apply exit_code_exits. }
  pose proof (init_never_panics f64_to_string value_debug natives machine pool_outside module fuel w
    (runtime_ok schedule) (rn_safe _ _ _ Hr) Hcalls Hw Hroom) as Hi.
  unfold init_module in *. destruct args as [|a args].
  - destruct (match init_index module with Some idx => _ | None => _ end) as [w1|trap| |]; cbn in Hi; try done; [|apply trapped_ok].
    apply Hrun; [apply Hi|apply Hi|by apply Forall_nil].
  - rewrite (Hinit ltac:(done)) in *. apply Hrun; [apply Hi|done|]. exact Hargs.
Qed.

#[local] Abbreviation cmd_run := (cmd_run f64_to_string value_debug obj_debug str_debug fmt_mib natives machine).
#[local] Abbreviation cmd_frontend := (cmd_frontend f64_to_string value_debug obj_debug str_debug fmt_mib natives machine).

Lemma statics_rest {A} (c : Syscall Statics A) w : rest_ok w → rest_ok (in_world c w).1.
Proof.
  intros Hw. rewrite in_world_eq. apply rest_kept; [done|].
  exact (kept_in_ext pool_outside runtime_process_ok c (w_ext w)).
Qed.

Lemma same_pause fuel m m' : mem_rel m m' → pause_room fuel m → pause_room fuel m'.
Proof. intros [Hg _]. unfold pause_room. by rewrite Hg. Qed.

(** The entry is called with a list, or with nothing. *)
Lemma with_list_exits fuel module explicit entry f w m v :
  runnable module explicit → entry_of module explicit = Some entry → functions module !! entry = Some f →
  param_count f = 1 → rest_ok w → pause_room fuel (w_mem w) → step_post (w_mem w) (m, v) →
  exits (start fuel module entry (set_w_mem w m) [v]).
Proof.
  intros Hr He Hf Hp Hw Hroom (Hm & Hv & _ & Hrel). eapply start_exits; [done|by apply rest_mem| | |].
  - by eapply same_pause.
  - by apply Forall_singleton.
  - intros _. by eapply rn_args.
Qed.

Lemma without_args_exits fuel module explicit entry w :
  runnable module explicit → rest_ok w → pause_room fuel (w_mem w) → exits (start fuel module entry w []).
Proof. intros Hr Hw Hroom. by eapply start_exits. Qed.

Lemma read_module_from_file_snd path o :
  (read_module_from_file path o).2 =
    match (fs_read path o).2 with
    | inl e => Err (LoadIo e)
    | inr bytes =>
        match decode_module bytes with
        | Ok m => Ok m | Err e => Err (LoadDecode e) | Panic => Panic | NoFuel => NoFuel
        end
    end.
Proof. unfold read_module_from_file, mbind, syscall_bind. by destruct (fs_read path o). Qed.

Lemma on_os_snd {A} (c : Syscall Os A) g : (on_os c g).2 = (c (os g)).2.
Proof. unfold on_os. by destruct (c (os g)). Qed.

Lemma cmd_run_exits fuel w args :
  (∀ explicit path rest bytes, split_entry args = Some (explicit, path :: rest) →
    (fs_read path (os (r_statics (w_ext w)))).2 = inr bytes → acceptable explicit bytes) →
  rest_ok w → pause_room fuel (w_mem w) → exits (cmd_run fuel w args).
Proof.
  intros Hin Hw Hroom. unfold Main.cmd_run.
  destruct (split_entry args) as [[explicit [|path rest]]|] eqn:Hsp; try reports.
  specialize (Hin explicit path rest). pose proof (statics_rest (on_os (read_module_from_file path)) w Hw) as Hw1.
  rewrite in_world_eq in *. cbn [fst] in Hw1. rewrite on_os_snd, read_module_from_file_snd.
  cbn [statics runtime_process] in *.
  destruct (fs_read path _).2 as [er|bytes]; [reports|]. destruct (Hin bytes eq_refl eq_refl) as [Hp Hm].
  destruct (decode_module bytes) as [module|er| |]; try done; [|reports]. specialize (Hm module eq_refl).
  fold (entry_of module explicit). destruct (entry_of module explicit) as [entry|] eqn:He; [|reports].
  apply (statics_rest (set_program_args rest)) in Hw1. rewrite in_world_eq in *. cbn [fst] in Hw1.
  set (w1 := set_w_ext _ _) in *. assert (pause_room fuel (w_mem w1)) as Hroom1 by exact Hroom.
  clearbody w1. clear Hw Hroom Hin Hp w.
  eapply run_ends_bind; [intros t; apply new_strs_no_trap|by apply new_strs_safe, Hw1|].
  intros [m argv] (Hm1 & Ha & _ & Hrel). cbn zeta.
  destruct (rn_entry _ _ _ Hm entry He) as [f Hf]. rewrite Hf. cbn [or_panic mbind res_bind].
  pose proof (rest_mem w1 m Hw1 Hm1) as Hw2. pose proof (same_pause fuel _ _ Hrel Hroom1) as Hroom2.
  case_decide; [by eapply without_args_exits|]. case_decide; [|reports].
  eapply run_ends_bind; [intros t; apply alloc_no_trap|by apply alloc_post|].
  intros [m2 v] Hp. by eapply with_list_exits.
Qed.

Lemma cmd_frontend_exits fuel w blob args :
  acceptable None blob → rest_ok w → pause_room fuel (w_mem w) → exits (cmd_frontend fuel w blob args).
Proof.
  intros [Hp Hm] Hw Hroom. unfold Main.cmd_frontend.
  destruct (decode_module blob) as [module|er| |]; try done; [|reports]. specialize (Hm module eq_refl).
  change (entry_index module) with (entry_of module None).
  destruct (entry_of module None) as [entry|] eqn:He; [|reports].
  apply (statics_rest (set_program_args args)) in Hw. rewrite in_world_eq in *. cbn [fst] in Hw.
  set (w1 := set_w_ext _ _) in *. assert (pause_room fuel (w_mem w1)) as Hroom1 by exact Hroom.
  eapply run_ends_bind; [|by apply string_list_safe, Hw|].
  { intros t. apply string_list_no_trap. }
  intros [m argv] Hpost. cbn zeta. pose proof Hpost as (Hm1 & _ & _ & Hrel).
  destruct (rn_entry _ _ _ Hm entry He) as [f Hf]. rewrite Hf. cbn [or_panic mbind res_bind].
  case_decide; [eapply without_args_exits; [done|by apply rest_mem|by eapply same_pause]|].
  case_decide; [|reports]. by eapply with_list_exits.
Qed.

(** ** The whole command line *)

(** The module file the arguments name, and the front-end if there is one, are acceptable
    when they can be read. *)
Definition input_ok w (args : list string) : Prop :=
  (∀ explicit path rest bytes, split_entry (tail args) = Some (explicit, path :: rest) →
    (fs_read path (os (r_statics (w_ext w)))).2 = inr bytes → acceptable explicit bytes) ∧
  (∀ blob, (load_frontend (os (r_statics (w_ext w)))).2 = Some blob → acceptable None blob).

Lemma cmd_emit_demo_exits w path : exits (cmd_emit_demo w path).
Proof.
  unfold cmd_emit_demo. destruct path as [path|]; [|reports].
  destruct demo_written as (m & -> & He). rewrite in_world_eq, on_os_snd.
  unfold write_module_to_file. rewrite He. unfold mbind, syscall_bind.
  destruct (fs_write path demo_bytes _) as [o [er|[]]]; cbn [snd mret syscall_ret res_bind]; [reports|done].
Qed.

Lemma main_ends fuel w args :
  args ≠ [] → input_ok w args → rest_ok w → pause_room fuel (w_mem w) →
  exits (Main.main f64_to_string value_debug obj_debug str_debug fmt_mib natives machine fuel w (Some <$> args)).
Proof.
  intros Hargs [Hfile Hblob] Hw Hroom. unfold Main.main, env_args.
  assert (mapM id (Some <$> args) = Some args) as -> by (apply mapM_fmap_Some; done).
  cbn [or_panic mbind res_bind]. destruct args as [|name args]; [done|]. cbn [tail] in Hfile.
  assert (exits (boot f64_to_string value_debug obj_debug str_debug fmt_mib natives machine fuel w (name :: args))) as Hboot.
  { unfold boot. pose proof (statics_rest (on_os load_frontend) w Hw) as Hw1. rewrite in_world_eq in *.
    rewrite on_os_snd. cbn [fst statics runtime_process] in *.
    destruct (load_frontend _).2 as [blob|].
    - cbn [args_from_1 mbind res_bind]. apply cmd_frontend_exits; [by apply Hblob|done|done].
    - case_match; reports. }
  destruct ((name :: args) !! 1%nat) as [arg|]; [|done].
  case_decide; [rewrite in_world_eq; apply println_exits; intros; by apply code_ok|].
  case_decide; [by apply cmd_emit_demo_exits|]. cbn [args_from_1 mbind res_bind].
  case_decide; [by apply cmd_run_exits|]. destruct (is_bytecode_path arg); [by apply cmd_run_exits|done].
Qed.
End main.

(** ** The guard only stops the process *)

Section guard.
Context `{Sizes} `{Layout} `{SystemTypes} `{NetTypes} `{!FileSystem} `{!Environment} `{!MathLib} `{!Digests}.
Context `{!RegexLib} `{!Processes} `{!Network} `{!Rustls} `{!Host} `{!Launch}.
Variables (f64_to_string : f64 → string) (value_debug : Value → string) (obj_debug : Obj → string).
Variables (str_debug : string → string) (fmt_mib : usize → string).
Variable schedule : nat → list Act.

#[local] Abbreviation World := (World (Job := Job) (Payload := Payload) (Ext := Runtime)).
#[local] Abbreviation on f natives := (f natives (runtime schedule)).
Variables guarded real : list (Native (Job := Job) (Payload := Payload) (Ext := Runtime)).
Hypothesis Hguarded : Forall2 (λ f f', ∀ w args, stops (f w args) (f' w args)) guarded real.
Implicit Types w : World.

(** The process is stopped by the guard, or goes the same way. *)
Definition stopped (r r' : res Trap (Ended (Ext := Runtime))) : Prop :=
  r = Ok (trapped fmt_mib MISUSE) ∨ r = r'.

Lemma stopped_refl r : stopped r r.
Proof. by right. Qed.
#[local] Hint Resolve stopped_refl : core.

Lemma stopped_bind {A} (r : res Trap A) k k' : (∀ a, stopped (k a) (k' a)) → stopped (r ≫= k) (r ≫= k').
Proof. intros Hk. destruct r; cbn; [apply Hk|by right..]. Qed.

#[local] Ltac stopped_step := first
  [ apply stopped_refl
  | match goal with H : context [stopped _ _] |- _ => apply H end
  | apply stopped_bind; intros ?
  | match goal with |- stopped (match ?x with _ => _ end) (match ?x with _ => _ end) => destruct x end ].
#[local] Ltac stopped := repeat stopped_step.

#[local] Abbreviation start := (start f64_to_string value_debug obj_debug fmt_mib).

Lemma start_stopped fuel module entry w args :
  stopped (on start guarded fuel module entry w args) (on start real fuel module entry w args).
Proof.
  assert (∀ w fn args, stops (run f64_to_string value_debug guarded (runtime schedule) fuel module w fn args)
    (run f64_to_string value_debug real (runtime schedule) fuel module w fn args)) as Hrun.
  { intros. by apply run_stops. }
  assert (∀ w, stopped
    (match run f64_to_string value_debug guarded (runtime schedule) fuel module w entry args with
     | Ok (w, v) => exit_code f64_to_string obj_debug fuel w v
     | Err trap => Ok (trapped fmt_mib trap) | Panic => Panic | NoFuel => NoFuel end)
    (match run f64_to_string value_debug real (runtime schedule) fuel module w entry args with
     | Ok (w, v) => exit_code f64_to_string obj_debug fuel w v
     | Err trap => Ok (trapped fmt_mib trap) | Panic => Panic | NoFuel => NoFuel end)) as Hthen.
  { intros w'. destruct (Hrun w' entry args) as [->| ->]; [by left|by right]. }
  unfold Main.start, init_module. destruct (init_index module) as [idx|]; [|apply Hthen].
  destruct (Hrun (set_w_mem w (set_globals (w_mem w) (Z.to_nat (global_count module)))) idx []) as [->| ->]; [by left|].
  destruct (run _ _ real _ _ _ _ idx []) as [[w1 v]| | |]; [apply Hthen|by right..].
Qed.

#[local] Abbreviation cmd_run := (cmd_run f64_to_string value_debug obj_debug str_debug fmt_mib).
#[local] Abbreviation cmd_frontend := (cmd_frontend f64_to_string value_debug obj_debug str_debug fmt_mib).

Lemma cmd_run_stopped fuel w args : stopped (on cmd_run guarded fuel w args) (on cmd_run real fuel w args).
Proof. pose proof start_stopped. unfold Main.cmd_run. stopped. Qed.

Lemma cmd_frontend_stopped fuel w blob args :
  stopped (on cmd_frontend guarded fuel w blob args) (on cmd_frontend real fuel w blob args).
Proof. pose proof start_stopped. unfold Main.cmd_frontend. stopped. Qed.

#[local] Abbreviation main := (Main.main f64_to_string value_debug obj_debug str_debug fmt_mib).

Lemma main_stopped fuel w os_args : stopped (on main guarded fuel w os_args) (on main real fuel w os_args).
Proof.
  pose proof cmd_run_stopped. pose proof cmd_frontend_stopped. unfold Main.main, boot. stopped.
Qed.
End guard.


(** An argument that is not Unicode panics before anything else is done. *)
Lemma main_panics_on_non_unicode `{Sizes} `{Layout} `{SystemTypes} {Ext : Type} `{!Process Ext} `{!Console Ext}
    `{!FileSystem} `{!Environment} `{!Launch} fs vd od sd fmt_mib
    (natives : list (Native (Job := Job) (Payload := Payload) (Ext := Ext))) machine fuel w os_args :
  None ∈ os_args → Main.main fs vd od sd fmt_mib natives machine fuel w os_args = Panic.
Proof.
  intros Hin. unfold Main.main, env_args. destruct (mapM id os_args) as [args|] eqn:Ha; [|done].
  apply mapM_Some_1 in Ha. apply list_elem_of_lookup in Hin as [i Hi].
  by destruct (Forall2_lookup_l _ _ _ _ _ Ha Hi) as (? & _ & ?).
Qed.

(** ** A process given the demo *)

Definition demo_world : World (Job := Job) (Payload := Payload) (Ext := Runtime) :=
  mkWorld (Mem_init DEFAULT_MAX_HEAP_BYTES) Scheduler_new None []
    (set_r_statics demo_runtime (set_os demo_statics (mkSim {["demo.thera-bc" := of_bytes demo_bytes]} 0 0 0))).

Lemma demo_runnable (fit : Module → Prop) : fit the_demo → runnable fit the_demo None.
Proof.
  intros Hfit. constructor; [|done| |done].
  - constructor; [by intros ty|cbn; lia|]. intros f s n Hf Hi. exfalso.
    cbn in Hf. repeat (apply elem_of_cons in Hf as [->|Hf]; [cbn in Hi; set_solver|]). by apply elem_of_nil in Hf.
  - intros i [= <-]. by eexists.
Qed.

Lemma demo_calls : calls_safely the_demo.
Proof.
  intros i name (f & argc & Hf & Hi) Hn. cbn in Hf.
  assert (i ∈ [129; 2; 0]) as Hin.
  { repeat (apply elem_of_cons in Hf as [->|Hf]; [cbn in Hi; set_solver|]). by apply elem_of_nil in Hf. }
  repeat (apply elem_of_cons in Hin as [->|Hin]; [injection Hn as <-; by apply (bool_decide_unpack _)|]).
  by apply elem_of_nil in Hin.
Qed.

Lemma demo_input fit : fit the_demo → input_ok (H0 := layout64) fit demo_world ["thera-rt"; "demo.thera-bc"].
Proof.
  intros Hfit. split; [|by intros blob [=]]. intros explicit path rest bytes [= <- <- <-] Hb.
  assert (bytes = demo_bytes) as -> by (injection Hb as <-; vm_compute; reflexivity).
  split; [by rewrite demo_decoded|]. intros m. rewrite demo_decoded. intros [= <-]. by apply demo_runnable.
Qed.

