(* ===== verification/MainRuns.v ===== *)
(** * A run of the command line

    The demo that [emit-demo] writes runs and prints its line, on every machine. *)

From Stdlib Require Import ZArith Lia.
From stdpp Require Import base numbers list strings gmap pretty.
From S2P Require Import Prelude Bytes Float64 Serialize Instr ModuleTable NativesTable Codec CodecProofs Value Utf8.
From S2P Require Import Heap HeapProofs MapObj Trap Scheduler SchedulerProofs SchedulerSpec Render Interp InterpProofs.
From S2P Require Import Driver DriverProofs NativesBase NativesText NativesColl NativesFiber NativesFacts NativesSafe.
From S2P Require Import NativesWorld System NativesFs NativesEnv NativesLib NativesProcess Tls NativesSocket NativesAll.
From S2P Require Import Main Pool Demo SystemSafe SocketSafe PoolProofs Program MainProofs.

Open Scope Z_scope.

(** ** The interpreter, one instruction at a time *)

Section steps.
Context `{Sizes} {Job Payload Ext : Type}.
Variables (fs : f64 → string) (vd : Value → string).
Variable natives : list (Native (Job := Job) (Payload := Payload) (Ext := Ext)).
Implicit Types l : Loop (Job := Job) (Payload := Payload) (Ext := Ext).

#[local] Abbreviation fallback n module :=
  (virtual_fallback fs vd n (call_with (run_loop fs vd natives n module) module) module).

Lemma run_loop_S n module d l l' :
  step natives (fallback n module) module d l = Ok (Continue l') →
  run_loop fs vd natives (S n) module d l = run_loop fs vd natives n module d l'.
Proof. cbn [run_loop]. by intros ->. Qed.

Lemma run_loop_exit n module d l o vm :
  step natives (fallback n module) module d l = Ok (Exit o vm) →
  run_loop fs vd natives (S n) module d l = Ok (o, vm).
Proof. cbn [run_loop]. by intros ->. Qed.

Lemma run_loop_panic n module d l :
  step natives (fallback n module) module d l = Panic →
  run_loop fs vd natives (S n) module d l = Panic.
Proof. cbn [run_loop]. by intros ->. Qed.
End steps.

(** Run the next instruction, whose effects compute. *)
Ltac run_step := erewrite run_loop_S by (vm_compute; reflexivity).

(** ** The demo *)

Definition demo_line : list u8 := as_bytes "double(21) = 42" ++ [newline].

Section demo.
Context `{SystemTypes} `{NetTypes} `{!FileSystem} `{!Environment} `{!MathLib} `{!Digests}.
Context `{!RegexLib} `{!Processes} `{!Network} `{!Rustls} {host : Host} `{!Launch}.
Variables (fs : f64 → string) (vd : Value → string) (od : Obj → string) (sd : string → string).
Variables (fmt_mib : usize → string) (eq_fuel tls_fuel : nat) (schedule : nat → list Act).
Hypothesis Hout : ∀ o b, host_out_error o b = None.

#[local] Abbreviation natives := (default_natives (H := sizes64) fs vd eq_fuel tls_fuel).
#[local] Abbreviation World := (World (Job := Job) (Payload := Payload) (Ext := Runtime)).

Lemma demo_drive k (w : World) :
  w_mem w = Mem_init DEFAULT_MAX_HEAP_BYTES → w_sched w = Scheduler_main → w_park w = None →
  r_capture (w_ext w) = [] →
  ∃ w', drive (H := sizes64) fs vd natives (runtime schedule) (14 + k) the_demo (mkVm [] [] w) 0 [] = Ok (w', Int 0) ∧
    w_out w' = w_out w ++ demo_line ∧ w_ext w' = w_ext w.
Proof.
  pose proof Hout as Ho. revert Ho. generalize host. intros [???? oe ????] Ho. cbn in Ho.
  destruct w as [m s p out [st lo cap cnt pool torn turn]]. cbn [w_mem w_sched w_park w_ext w_out r_capture].
  intros -> -> -> ->.
  unfold drive. set (p := push_frame _ _ _ _). vm_compute in p. subst p. cbn [mbind res_bind Nat.add drive_loop].
  do 9 run_step.
  erewrite run_loop_S by (vm_compute; rewrite Ho; reflexivity).
  do 2 run_step. erewrite run_loop_exit by (vm_compute; reflexivity).
  eexists. split_and!; [vm_compute; reflexivity| |]; reflexivity.
Qed.

#[local] Abbreviation main := (Main.main (H := sizes64) (H0 := layout64) fs vd od sd fmt_mib natives (runtime schedule)).

Lemma start_demo k (w : World) :
  w_mem w = Mem_init DEFAULT_MAX_HEAP_BYTES → w_park w = None → r_capture (w_ext w) = [] →
  ∃ w', start (H := sizes64) fs vd od fmt_mib natives (runtime schedule) (14 + k) the_demo 0 w [] = Ok (Exited w' SUCCESS) ∧
    w_out w' = w_out w ++ demo_line.
Proof.
  intros Hm Hp Hc. destruct w as [m s p out e]. cbn [w_mem w_park w_ext] in *. subst.
  unfold start, init_module. change (init_index the_demo) with (@None nat). unfold run.
  destruct (demo_drive k (mkWorld (Mem_init DEFAULT_MAX_HEAP_BYTES) Scheduler_main None out e))
    as (w' & Hd & Ho & He); [done..|].
  lazymatch type of Hd with ?d = _ => lazymatch goal with
    |- context [drive _ _ _ _ _ _ ?vm 0 []] => change (drive fs vd natives (runtime schedule) (14 + k) the_demo vm 0 []) with d
  end end.
  rewrite Hd. eexists. split; [reflexivity|]. exact Ho.
Qed.

Lemma bytecode_path_not path word : is_bytecode_path path = true → is_bytecode_path word = false → path ≠ word.
Proof. congruence. Qed.

Lemma main_emit fuel w exe path : main fuel w [Some exe; Some "emit-demo"; Some path] = cmd_emit_demo w (Some path).
Proof. reflexivity. Qed.

#[local] Abbreviation cmd_run := (cmd_run (H := sizes64) (H0 := layout64) fs vd od sd fmt_mib natives (runtime schedule)).

Lemma main_run fuel w exe path : is_bytecode_path path = true → main fuel w [Some exe; Some path] = cmd_run fuel w [path].
Proof.
  intros Hp. unfold Main.main. change (env_args [Some exe; Some path]) with (Ok (E := Trap) [exe; path]).
  cbn [mbind res_bind]. lazymatch goal with |- context [?l !! 1%nat] => change (l !! 1%nat) with (Some path) end.
  cbn [args_from_1 mbind res_bind]. pose proof (bytecode_path_not path) as Hn.
  assert (path ≠ "--version" ∧ path ≠ "-V" ∧ path ≠ "emit-demo" ∧ path ≠ "--entry") as (? & ? & ? & ?).
  { split_and!; apply Hn; try done; vm_compute; reflexivity. }
  rewrite !decide_False by naive_solver. by rewrite Hp.
Qed.

(** Writing the demo. *)
Lemma emit_demo_writes w path :
  (∀ b o, Forall in_u8 b → ∃ o', fs_write path b o = (o', inr tt) ∧ (fs_read path o').2 = inr b) →
  ∃ o', cmd_emit_demo w (Some path) = Ok (Exited (set_w_ext w (set_r_statics (w_ext w) (set_os (r_statics (w_ext w)) o'))) SUCCESS) ∧
    (fs_read path o').2 = inr demo_bytes.
Proof.
  intros Hfs. destruct (Hfs demo_bytes (os (r_statics (w_ext w))) demo_bytes_u8) as (o' & Hw & Hr). exists o'. split; [|done].
  destruct demo_written as (md & Hmd & Henc). unfold cmd_emit_demo. rewrite Hmd. unfold write_module_to_file. rewrite Henc.
  unfold in_world, in_ext, on_os, mbind, syscall_bind. cbn [statics runtime_process]. rewrite Hw. reflexivity.
Qed.

Lemma capture_in_ext {A} (c : Syscall Statics A) (e : Runtime) : r_capture (in_ext c e).1 = r_capture e.
Proof. unfold in_ext. by destruct (c (statics e)). Qed.

(** Running it again. *)
Lemma run_demo_file k w path :
  (fs_read path (os (r_statics (w_ext w)))).2 = inr demo_bytes →
  path ≠ "--entry" → w_mem w = Mem_init DEFAULT_MAX_HEAP_BYTES → w_park w = None → r_capture (w_ext w) = [] →
  ∃ w', cmd_run (14 + k)%nat w [path] = Ok (Exited w' SUCCESS) ∧ w_out w' = w_out w ++ demo_line.
Proof.
  intros Hr Hne Hm Hp Hc. unfold Main.cmd_run. cbn [split_entry]. rewrite decide_False by done.
  rewrite in_world_eq, on_os_snd. cbn [statics runtime_process]. rewrite read_module_from_file_snd, Hr, demo_decoded.
  change (entry_index the_demo) with (Some 0%nat). rewrite in_world_eq. cbn [new_strs mbind res_bind].
  destruct (functions the_demo !! 0%nat) as [f|] eqn:Hf; [|done]. injection Hf as <-. cbn [or_panic mbind res_bind].
  rewrite decide_True by done.
  lazymatch goal with |- context [start _ _ _ _ _ _ _ _ _ ?w1 []] => destruct (start_demo k w1) as (w' & -> & Ho) end; [done..| |].
  - cbn [w_ext set_w_mem set_w_ext]. by rewrite !capture_in_ext.
  - eexists. split; [reflexivity|exact Ho].
Qed.
End demo.

(** C32: The demo works from end to end.  On a machine whose file system keeps what is
    written to a file, with working streams and a fresh heap, [emit-demo] writes the demo
    to a bytecode file and exits with 0; the same process given that file loads it,
    runs it, prints its one line and exits with 0, under any schedule. *)
Theorem emitted_demo_runs `{SystemTypes} `{NetTypes} `{!FileSystem} `{!Environment} `{!MathLib} `{!Digests}
    `{!RegexLib} `{!Processes} `{!Network} `{!Rustls} `{!Host} `{!Launch}
    f64_to_string value_debug obj_debug str_debug fmt_mib eq_fuel tls_fuel schedule exe path k
    (w : World (Job := Job) (Payload := Payload) (Ext := Runtime)) :
  let main := Main.main (H := sizes64) (H0 := layout64) f64_to_string value_debug obj_debug str_debug fmt_mib
    (default_natives (H := sizes64) f64_to_string value_debug eq_fuel tls_fuel) (runtime schedule) (14 + k)%nat in
  is_bytecode_path path = true →
  (∀ o b, host_out_error o b = None) →
  (∀ b o, Forall in_u8 b → ∃ o', fs_write path b o = (o', inr tt) ∧ (fs_read path o').2 = inr b) →
  w_mem w = Mem_init DEFAULT_MAX_HEAP_BYTES → w_park w = None → r_capture (w_ext w) = [] →
  ∃ w1 w2, main w [Some exe; Some "emit-demo"; Some path] = Ok (Exited w1 SUCCESS) ∧ w_out w1 = w_out w ∧
    main w1 [Some exe; Some path] = Ok (Exited w2 SUCCESS) ∧ w_out w2 = w_out w ++ demo_line.
Proof.
  intros main Hpath Hout Hfs Hm Hp Hc. subst main. rewrite main_emit.
  destruct (emit_demo_writes w path Hfs) as (o' & -> & Hr).
  lazymatch goal with |- context [Ok (Exited ?w1 _)] => pose (w1' := w1);
    destruct (run_demo_file f64_to_string value_debug obj_debug str_debug fmt_mib eq_fuel tls_fuel schedule Hout k w1' path)
      as (w2 & Hrun & Ho) end; try done; [by apply bytecode_path_not; [|vm_compute]|].
  exists w1', w2. split_and!; [done|done| |exact Ho]. by rewrite main_run.
Qed.

Lemma emitted_demo_runs_witness : ∃ w1 w2,
  let main := Main.main (H := sizes64) (H0 := layout64) no_text no_text (λ _, "") (λ s, s) no_text
    (default_natives (H := sizes64) no_text no_text 0 5) (runtime lazy_workers) 14 in
  main served_world [Some "thera-rt"; Some "emit-demo"; Some "demo.thera-bc"] = Ok (Exited w1 SUCCESS) ∧
  main w1 [Some "thera-rt"; Some "demo.thera-bc"] = Ok (Exited w2 SUCCESS) ∧ w_out w2 = demo_line.
Proof.
  destruct (emitted_demo_runs no_text no_text (λ _, "") (λ s, s) no_text 0 5 lazy_workers "thera-rt" "demo.thera-bc" 0
    served_world) as (w1 & w2 & H1 & _ & H2 & H3); [reflexivity|done| |done|done|done|by exists w1, w2].
  intros b o Hb. exists (put_files o (<["demo.thera-bc" := of_bytes b]> (sim_files o))). split; [done|].
  cbn [fs_read demo_fs]. unfold mbind, syscall_bind, mret, syscall_ret, lookup_file. cbn [put_files sim_files snd].
  rewrite lookup_insert_eq. cbn [io_map]. by rewrite as_bytes_of_bytes.
Defined.
