(* ===== verification/LostArgs.v ===== *)
(** * The arguments a program can lose (src/runtime/src/main.rs)

    [cmd_run] builds the list of arguments before it initialises the module.  The list is
    no root while the init thunk runs, so a collection there frees it, and the entry
    then reads an empty slot. *)

From Stdlib Require Import ZArith Lia.
From stdpp Require Import base numbers list strings gmap pretty.
From S2P Require Import Prelude Bytes Float64 Serialize Instr ModuleTable NativesTable Codec CodecProofs Value Utf8.
From S2P Require Import Heap HeapProofs MapObj Trap Scheduler SchedulerProofs SchedulerSpec Render Interp InterpProofs.
From S2P Require Import Driver DriverProofs NativesBase NativesText NativesColl NativesFiber NativesFacts NativesSafe.
From S2P Require Import NativesWorld System NativesFs NativesEnv NativesLib NativesProcess Tls NativesSocket NativesAll.
From S2P Require Import Main Pool Demo SystemSafe SocketSafe PoolProofs Program MainProofs MainRuns.

Open Scope Z_scope.

(** The init thunk calls a function, and the entry asks for the number of its arguments. *)
Definition late_args : Module :=
  set_entry_init (set_global_count
    (Module_new [Function_new "main" 1 1 [Load 0; ListLen; Return];
                 Function_new "<init>" 0 0 [Call 2 0; GlobalSet 0; ConstUnit; Return];
                 Function_new "one" 0 0 [ConstInt 1; Return]]) 1) (Some 0) (Some 1).

(** A heap without constants and with one global. *)
Abbreviation plain_mem hp pending max g := (mkMem hp pending 0 max ∅ [g]).

(** With no root a collection frees everything. *)
Lemma collect_frees_all `{Sizes} hp max :
  mem_wf (plain_mem hp true max Unit) → 0 ≤ max →
  ∃ hp', collect (E := Trap) (plain_mem hp true max Unit) [] = Ok (plain_mem hp' false max Unit) ∧
    over_ceiling (plain_mem hp' false max Unit) = None ∧ ∀ h o, slots hp' !! h ≠ Some (Some o).
Proof.
  intros Hm Hmax. destruct (collect_wf (E := Trap) _ [] Hm) as (m' & Hc & Hgc & _); [by apply Forall_nil|].
  assert (∀ h, ¬ reachable (slots hp) (all_roots (plain_mem hp true max Unit) []) h) as Hno.
  { intros h. unfold all_roots, permanent_roots. cbn. induction 1 as [h Hh|]; [|done].
    rewrite map_to_list_empty in Hh. cbn in Hh. set_solver. }
  destruct m' as [hp' p pa mx it g]. destruct (gc_rest _ _ _ Hgc) as (Hpa & Hmx & Hit & Hg). cbn in *. subst.
  pose proof (gc_pending _ _ _ Hgc) as Hp. cbn in Hp. subst. exists hp'. split_and!; [done| |].
  - destruct (gc_bytes _ _ _ Hgc) as (hs & _ & Hhs & Hb). unfold over_ceiling. cbn in *.
    destruct hs as [|h hs]; [|exfalso; apply (Hno h), Hhs; by left]. rewrite Hb.
    change (as_u64 (sum_bytes _ [])) with 0. destruct (Z.ltb_spec max 0); [lia|done].
  - intros h o Ho. by apply (gc_slots _ _ _ Hgc) in Ho as [_ ?%Hno].
Qed.

Section lost.
Context `{Sizes} `{SystemTypes} {Ext : Type}.
Variables (fs : f64 → string) (vd : Value → string).
Variable natives : list (Native (Job := Job) (Payload := Payload) (Ext := Ext)).
Variable machine : Machine Job Payload Ext.

#[local] Abbreviation World := (World (Job := Job) (Payload := Payload) (Ext := Ext)).

Definition init_world hp (pending : bool) max (w : World) : World :=
  mkWorld (plain_mem hp pending max Unit) Scheduler_main (w_park w) (w_out w) (w_ext w).

(** The thunk from its first safepoint on. *)
Lemma init_after_call n hp max (w : World) : w_park w = None →
  run_loop fs vd natives (5 + n) late_args 0
    (mkLoop (mkFrame 2 0 0) [] [mkFrame 1 1 0] (init_world hp false max w)) =
  Ok (RDone Unit, mkVm [] [] (mkWorld (plain_mem hp false max (Int 1)) Scheduler_main None (w_out w) (w_ext w))).
Proof.
  destruct w as [m s p out e]. cbn [w_park]. intros ->. unfold init_world. cbn [w_park w_out w_ext Nat.add].
  do 4 run_step. by erewrite run_loop_exit by (vm_compute; reflexivity).
Qed.

(** What the first safepoint makes of the heap. *)
Definition polled hp (pending : bool) max hp' : Prop :=
  if pending then ∃ m, collect (E := Trap) (plain_mem hp true max Unit) [] = Ok m ∧
    over_ceiling m = None ∧ m = plain_mem hp' false max Unit
  else hp' = hp.

Lemma init_call fallback hp hp' pending max (w : World) :
  polled hp pending max hp' →
  step natives fallback late_args 0 (mkLoop (mkFrame 1 0 0) [] [] (init_world hp pending max w)) =
  Ok (Continue (mkLoop (mkFrame 2 0 0) [] [mkFrame 1 1 0] (init_world hp' false max w))).
Proof.
  intros Hp. unfold step. lazymatch goal with |- context [functions late_args !! ?i] =>
    destruct (functions late_args !! i) as [f|] eqn:Hf; [|done] end. vm_compute in Hf. injection Hf as <-.
  cbn [or_panic mbind res_bind ok_or lookup list_lookup code l_frame pc step_call]. unfold step_call, poll_gc.
  destruct pending; cbn [polled] in Hp.
  - destruct Hp as (m & Hc & Ho & ->). change (should_collect _) with true. cbn iota.
    change (l_vstack _ ++ _) with (@nil Value). change (l_mem _) with (plain_mem hp true max Unit).
    rewrite Hc. cbn [mbind res_bind]. rewrite Ho. reflexivity.
  - subst hp'. reflexivity.
Qed.

Lemma init_run n hp hp' pending max (w : World) :
  polled hp pending max hp' → w_mem w = plain_mem hp pending max Unit → w_park w = None →
  run fs vd natives machine (7 + n) late_args w 1 [] =
  Ok (mkWorld (plain_mem hp' false max (Int 1)) Scheduler_new None (w_out w) (reset machine (w_ext w)), Unit).
Proof.
  intros Hp Hm Hpk. destruct w as [m s p out e]. cbn [w_mem w_park w_out w_ext] in *. subst.
  pose proof (init_after_call n hp' max (mkWorld (plain_mem hp pending max Unit) s None out e) eq_refl) as Hrest.
  pose proof (λ fb, init_call fb hp hp' pending max (mkWorld (plain_mem hp pending max Unit) s None out e) Hp) as Hcall.
  unfold run, drive. set (pf := push_frame _ _ _ _). vm_compute in pf. subst pf. cbn [mbind res_bind Nat.add drive_loop].
  erewrite run_loop_S by apply Hcall. cbn [Nat.add] in Hrest. rewrite Hrest. reflexivity.
Qed.

Lemma run_loop_unfold n module d l :
  run_loop fs vd natives (S n) module d l =
    (flow ← step natives (virtual_fallback fs vd n (call_with (run_loop fs vd natives n module) module) module) module d l;
     match flow with
     | Continue l => run_loop fs vd natives n module d l
     | Exit o vm => Ok (o, vm)
     end).
Proof. reflexivity. Qed.

(** Reading the list at [h]. *)
Lemma entry_len fallback hp max h out e :
  let w := mkWorld (plain_mem hp false max (Int 1)) Scheduler_main None out e in
  step natives fallback late_args 0 (mkLoop (mkFrame 0 1 0) [Ref h; Ref h] [] w) =
    match slots hp !! h with
    | Some (Some (List items)) =>
        Ok (Continue (mkLoop (mkFrame 0 2 0) [Ref h; Int (as_i64 (Z.of_nat (length items)))] [] w))
    | Some (Some o) => Err (TypeError "a List" (obj_type_name o (Some late_args)))
    | _ => Panic
    end.
Proof.
  intros w. subst w. unfold step. lazymatch goal with |- context [functions late_args !! ?i] =>
    destruct (functions late_args !! i) as [f|] eqn:Hf; [|done] end. vm_compute in Hf. injection Hf as <-.
  cbn [or_panic mbind res_bind ok_or lookup list_lookup code l_frame pc].
  unfold step_object, list_len, with_obj, lookup_obj, mem_slots, l_mem.
  cbn [set_pc l_vstack l_world w_mem HEAP]. change (pop [Ref h; Ref h]) with (@Ok Trap _ ([Ref h], Ref h)).
  cbn [mbind res_bind]. destruct (slots hp !! h) as [[[]|]|]; reflexivity.
Qed.

(** The entry, called with the list at [h]. *)
Lemma entry_run n hp max h (w : World) :
  w_mem w = plain_mem hp false max (Int 1) → w_park w = None →
  run fs vd natives machine (4 + n) late_args w 0 [Ref h] =
    match slots hp !! h with
    | Some (Some (List items)) => Ok (mkWorld (w_mem w) Scheduler_new None (w_out w) (reset machine (w_ext w)),
        Int (as_i64 (Z.of_nat (length items))))
    | Some (Some o) => Err (TypeError "a List" (obj_type_name o (Some late_args)))
    | _ => Panic
    end.
Proof.
  intros Hm Hpk. destruct w as [m s p out e]. cbn [w_mem w_park w_out w_ext] in *. subst.
  unfold run, drive. set (pf := push_frame _ _ _ _). vm_compute in pf. subst pf. cbn [mbind res_bind Nat.add drive_loop].
  run_step. rewrite run_loop_unfold, entry_len. destruct (slots hp !! h) as [[[]|]|]; reflexivity.
Qed.
End lost.

(** ** The heap after the arguments *)

Section args.
Context `{Sizes}.

Lemma alloc_allocated m o m' v :
  heap_wf (HEAP m) → alloc (E := Trap) m o = Ok (m', v) → ∃ h, v = Ref h ∧ allocated m o m' h.
Proof.
  intros Hwf Ha. destruct (decide (has_room (HEAP m))) as [Hr|Hr]; [|by rewrite alloc_no_room in Ha].
  destruct (alloc_ok (E := Trap) m o Hwf Hr) as (m1 & h & Ha1 & Hal). rewrite Ha in Ha1. injection Ha1 as -> ->. eauto.
Qed.

(** What allocating leaves alone. *)
Definition same_rest (m m' : Mem) : Prop :=
  GC_PAUSED m' = GC_PAUSED m ∧ MAX_HEAP m' = MAX_HEAP m ∧ INTERN m' = INTERN m ∧ GLOBALS m' = GLOBALS m.

Lemma new_strs_rest parts : ∀ m m' vs,
  mem_wf m → new_strs m parts = Ok (m', vs) →
  mem_wf m' ∧ lives m' vs ∧ same_rest m m' ∧ length vs = length parts.
Proof.
  intros m m' vs Hm Hn. pose proof (new_strs_safe parts m Hm) as Hs. rewrite Hn in Hs. destruct Hs as (Hm' & Hl & _).
  split_and!; [done|done| |]; clear Hm' Hl; revert m m' vs Hm Hn; induction parts as [|s parts IH]; intros m m' vs Hm;
    cbn [new_strs]; try (by intros [= <- <-]);
    intros ([m1 v] & Ha & ([m2 vs'] & Hn & [= <- <-])%bind_ok)%bind_ok.
  - destruct (alloc_allocated _ _ _ _ (wf_heap _ Hm) Ha) as (h & -> & Hal).
    pose proof (alloc_safe (E := Trap) m (Str s) Hm) as Hs. unfold new_str in Ha. rewrite Ha in Hs.
    destruct Hs as (Hm1 & _); [by apply Forall_nil|]. destruct (al_rest _ _ _ _ Hal) as (? & ? & ? & ?).
    destruct (IH m1 m2 vs' Hm1 Hn) as (? & ? & ? & ?). repeat split; congruence.
  - pose proof (alloc_safe (E := Trap) m (Str s) Hm) as Hs. unfold new_str in Ha. rewrite Ha in Hs.
    destruct Hs as (Hm1 & _); [by apply Forall_nil|]. cbn. f_equal. by eapply IH.
Qed.

(** The list of the arguments, on a heap of its own. *)
Lemma args_heap max parts m1 vs m2 v :
  new_strs (Mem_init max) parts = Ok (m1, vs) → new_list m1 vs = Ok (m2, v) →
  ∃ hp h, m2 = mkMem hp (GC_PENDING m2) 0 max ∅ [] ∧ v = Ref h ∧ slots hp !! h = Some (Some (List vs)) ∧
    length vs = length parts ∧ mem_wf (plain_mem hp (GC_PENDING m2) max Unit).
Proof.
  intros Hn Hl. pose proof (Mem_init_wf max) as Hm0.
  destruct (new_strs_rest _ _ _ _ Hm0 Hn) as (Hm1 & Hvs & (Hp1 & Hx1 & Hi1 & Hg1) & Hlen).
  destruct (alloc_allocated _ _ _ _ (wf_heap _ Hm1) Hl) as (h & -> & Hal).
  pose proof (alloc_safe (E := Trap) m1 (List vs) Hm1 Hvs) as Hs. unfold new_list in Hl. rewrite Hl in Hs.
  destruct Hs as ([Hh2 Hc2 Hsh2 Hr2] & _). destruct (al_rest _ _ _ _ Hal) as (Hp2 & Hx2 & Hi2 & Hg2).
  pose proof (al_obj _ _ _ _ Hal) as Ho. destruct m2 as [hp pe pa mx it g]. cbn in *.
  exists hp, h. rewrite Hp1 in Hp2. rewrite Hx1 in Hx2. rewrite Hi1 in Hi2. rewrite Hg1 in Hg2. cbn in *. subst.
  split_and!; [done|done|exact Ho|done|]. constructor; [done|exact Hc2|exact Hsh2|]. unfold permanent_roots in *. cbn in *.
  rewrite map_to_list_empty in *. by repeat constructor.
Qed.
End args.

(** ** The command *)

Section command.
Context `{Sizes} `{Layout} `{SystemTypes} {Ext : Type} `{!Process Ext} `{!Console Ext} `{!FileSystem}.
Variables (fs : f64 → string) (vd : Value → string) (od : Obj → string) (sd : string → string).
Variable fmt_mib : usize → string.
Variable natives : list (Native (Job := Job) (Payload := Payload) (Ext := Ext)).
Variable machine : Machine Job Payload Ext.

#[local] Abbreviation World := (World (Job := Job) (Payload := Payload) (Ext := Ext)).
#[local] Abbreviation start := (start fs vd od fmt_mib natives machine).

Lemma start_late n hp h max pending vs (w : World) :
  mem_wf (plain_mem hp pending max Unit) → 0 ≤ max → slots hp !! h = Some (Some (List vs)) →
  w_mem w = mkMem hp pending 0 max ∅ [] → w_park w = None →
  if pending then start (7 + n) late_args 0 w [Ref h] = Panic
  else ∃ w', start (7 + n) late_args 0 w [Ref h] = Ok (Exited w' (as_u8 (as_i64 (Z.of_nat (length vs))))).
Proof.
  intros Hm Hmax Hh Hw Hp. unfold Main.start, init_module. change (init_index late_args) with (Some 1%nat). cbn zeta.
  set (w1 := set_w_mem w _). assert (w_mem w1 = plain_mem hp pending max Unit) as Hw1 by (subst w1; cbn; by rewrite Hw).
  assert (∃ hp', polled hp pending max hp' ∧
    if pending then ∀ k o, slots hp' !! k ≠ Some (Some o) else hp' = hp) as (hp' & Hpo & Hfree).
  { destruct pending; [|by exists hp]. destruct (collect_frees_all hp max Hm Hmax) as (hp' & Hc & Ho & Hno).
    exists hp'. split; [by eexists|done]. }
  rewrite (init_run fs vd natives machine n hp hp' pending max w1 Hpo Hw1 Hp). cbn [mbind res_bind].
  lazymatch goal with |- context [run _ _ _ _ _ _ ?w2 0 _] =>
    pose proof (entry_run fs vd natives machine (3 + n) hp' max h w2 eq_refl eq_refl) as He end.
  cbn [Nat.add] in He |- *. rewrite He. destruct pending.
  - destruct (slots hp' !! h) as [[o|]|] eqn:Ho; [|done..]. by apply Hfree in Ho.
  - subst hp'. rewrite Hh. eexists. reflexivity.
Qed.
End command.

(** C33: A program's arguments are lost when its initialisation collects.  The command line
    allocates the list of arguments before the module is initialised, and nothing roots
    it there.  Take a module whose init thunk calls a function and whose entry returns
    the number of its arguments, on a fresh heap.  If allocating the arguments reached
    the collection threshold, the first safepoint of the thunk frees them and the entry
    panics on an empty slot; otherwise the process exits with their number. *)
Theorem arguments_lost `{Sizes} `{Layout} `{SystemTypes} {Ext} `{!Process Ext} `{!Console Ext} `{!FileSystem}
    f64_to_string value_debug obj_debug str_debug fmt_mib natives machine n max path rest m1 vs m2 list
    (w : World (Job := Job) (Payload := Payload) (Ext := Ext)) :
  let run := cmd_run f64_to_string value_debug obj_debug str_debug fmt_mib natives machine (7 + n)%nat w (path :: rest) in
  path ≠ "--entry" → (read_module_from_file path (os (statics (w_ext w)))).2 = Ok late_args →
  0 ≤ max → w_mem w = Mem_init max → w_park w = None →
  new_strs (Mem_init max) rest = Ok (m1, vs) → new_list m1 vs = Ok (m2, list) →
  if GC_PENDING m2 then run = Panic
  else ∃ w', run = Ok (Exited w' (as_u8 (as_i64 (Z.of_nat (length rest))))).
Proof.
  intros run Hpath Hread Hmax Hm Hp Hs Hl. subst run. unfold cmd_run. cbn [split_entry]. rewrite decide_False by done.
  rewrite in_world_eq, on_os_snd, Hread. change (entry_index late_args) with (Some 0%nat). rewrite in_world_eq.
  cbn [w_mem set_w_ext]. rewrite Hm, Hs. cbn [mbind res_bind].
  destruct (functions late_args !! 0%nat) as [f|] eqn:Hf; [|done]. injection Hf as <-. cbn [or_panic mbind res_bind].
  rewrite decide_False by done. rewrite decide_True by done. cbn [w_mem set_w_mem]. rewrite Hl. cbn [mbind res_bind].
  destruct (args_heap max rest m1 vs m2 list Hs Hl) as (hp & h & Hm2 & -> & Hh & Hlen & Hwf).
  rewrite <-Hlen. apply (start_late _ _ _ _ _ _ _ hp h max); [exact Hwf|done|exact Hh|exact Hm2|exact Hp].
Qed.

(** The module as a file, and a process about to run it under a heap ceiling. *)
Definition late_bytes : list u8 := Eval vm_compute in match encode_module late_args with Ok b => b | _ => [] end.

Definition late_world (max : usize) : World (Job := Job) (Payload := Payload) (Ext := Runtime) :=
  mkWorld (Mem_init max) Scheduler_new None []
    (set_r_statics demo_runtime (set_os demo_statics (mkSim {["late.thera-bc" := of_bytes late_bytes]} 0 0 0))).

Definition late_run (max : usize) : res Trap Ended :=
  cmd_run (H := sizes64) (H0 := layout64) no_text no_text (λ _, "") (λ s, s) no_text
    (default_natives (H := sizes64) no_text no_text 0 5) (runtime lazy_workers) 7 (late_world max) ["late.thera-bc"; "a"; "b"].

(** With [THERA_MAX_HEAP_MB=0] the arguments are lost, without it the process exits with 2. *)
Lemma arguments_lost_witness :
  late_run (max_heap_from_env (Some 0)) = Panic ∧ ∃ w, late_run (max_heap_from_env None) = Ok (Exited w 2).
Proof.
  split.
  - exact (arguments_lost (H := sizes64) (H0 := layout64) no_text no_text (λ _, "") (λ s, s) no_text
      _ (runtime lazy_workers) 0 0 "late.thera-bc" ["a"; "b"] _ _ _ _ (late_world 0) ltac:(done) ltac:(vm_compute; reflexivity)
      ltac:(lia) eq_refl eq_refl ltac:(reflexivity) ltac:(reflexivity)).
  - exact (arguments_lost (H := sizes64) (H0 := layout64) no_text no_text (λ _, "") (λ s, s) no_text
      _ (runtime lazy_workers) 0 DEFAULT_MAX_HEAP_BYTES "late.thera-bc" ["a"; "b"] _ _ _ _ (late_world DEFAULT_MAX_HEAP_BYTES)
      ltac:(done) ltac:(vm_compute; reflexivity) ltac:(done) eq_refl eq_refl ltac:(reflexivity) ltac:(reflexivity)).
Defined.
