(* ===== verification/Disasm.v ===== *)
(** * The disassembler (src/runtime/src/disasm.rs)

    One line of text per instruction.  How Rust prints a double and a string literal
    ([{}] and [{:?}]) are the parameters [f64_to_string] and [str_debug]. *)

From Stdlib Require Import ZArith Lia.
From stdpp Require Import base numbers list strings gmap pretty.
From S2P Require Import Prelude Bytes Float64 Instr ModuleTable NativesText.

Open Scope Z_scope.

Definition MNEMONIC_WIDTH : nat := 14.

(** [{s:<n$}] *)
Definition pad_right (n : nat) (s : string) : string :=
  s +:+ of_bytes (replicate (n - length (as_bytes s)) 32).

(** [{n:04}] *)
Definition pad_number (n : Z) : string :=
  of_bytes (replicate (4 - length (as_bytes (pretty n))) 48) +:+ pretty n.

Section disasm.
Variable f64_to_string : f64 → string.
Variable str_debug : string → string.

(** [with] *)
Definition with_operand (mnemonic operand : string) : string := pad_right MNEMONIC_WIDTH mnemonic +:+ operand.

(** The name of a function or a type for the reader's eye. *)
Definition function_name (module : Module) (func : u32) : string :=
  match functions module !! Z.to_nat func with Some f => fn_name f | None => "?" end.
Definition type_name (module : Module) (ty : u32) : string :=
  match types module !! Z.to_nat ty with Some t => ty_name t | None => "?" end.

Definition fmt_instr (instr : Instr) (module : Module) : string :=
  match instr with
  | ConstInt n => with_operand "const.i64" (pretty n)
  | ConstDouble x => with_operand "const.f64" (f64_to_string x)
  | ConstBool b => with_operand "const.bool" (if b : bool then "true" else "false")
  | ConstStr s => with_operand "const.str" (str_debug s)
  | Load slot => with_operand "load" (pretty slot)
  | Store slot => with_operand "store" (pretty slot)
  | GlobalGet idx => with_operand "global.get" (pretty idx)
  | GlobalSet idx => with_operand "global.set" (pretty idx)
  | Call func argc =>
      with_operand "call" ("fn#" +:+ pretty func +:+ " " +:+ function_name module func +:+ ", argc=" +:+ pretty argc)
  | CallNative native argc => with_operand "call.native" ("native#" +:+ pretty native +:+ ", argc=" +:+ pretty argc)
  | CallIndirect argc => with_operand "call.indirect" ("argc=" +:+ pretty argc)
  | CallVirtual selector argc => with_operand "call.virtual" (selector +:+ ", argc=" +:+ pretty argc)
  | EnumNew ty variant field_count =>
      with_operand "enum.new"
        ("ty=" +:+ pretty ty +:+ ", variant=" +:+ pretty variant +:+ ", fields=" +:+ pretty field_count)
  | EnumGet idx => with_operand "enum.get" (pretty idx)
  | StructNew ty => with_operand "struct.new" ("ty=" +:+ pretty ty +:+ " " +:+ type_name module ty)
  | FieldGet idx => with_operand "field.get" (pretty idx)
  | FieldSet idx => with_operand "field.set" (pretty idx)
  | ListNew count => with_operand "list.new" (pretty count)
  | ClosureNew func captures =>
      with_operand "closure.new"
        ("fn#" +:+ pretty func +:+ " " +:+ function_name module func +:+ ", captures=" +:+ pretty captures)
  | Jump t => with_operand "jump" ("-> " +:+ pad_number t)
  | JumpIfTrue t => with_operand "jump_if_true" ("-> " +:+ pad_number t)
  | JumpIfFalse t => with_operand "jump_if_false" ("-> " +:+ pad_number t)
  | ConstUnit => "const.unit"
  | AddI64 => "add.i64"
  | SubI64 => "sub.i64"
  | MulI64 => "mul.i64"
  | DivI64 => "div.i64"
  | ModI64 => "mod.i64"
  | NegI64 => "neg.i64"
  | AndI64 => "and.i64"
  | OrI64 => "or.i64"
  | XorI64 => "xor.i64"
  | BNotI64 => "bnot.i64"
  | ShlI64 => "shl.i64"
  | ShrI64 => "shr.i64"
  | UShrI64 => "ushr.i64"
  | AddF64 => "add.f64"
  | SubF64 => "sub.f64"
  | MulF64 => "mul.f64"
  | DivF64 => "div.f64"
  | NegF64 => "neg.f64"
  | EqI64 => "eq.i64"
  | NeI64 => "ne.i64"
  | LtI64 => "lt.i64"
  | LeI64 => "le.i64"
  | GtI64 => "gt.i64"
  | GeI64 => "ge.i64"
  | EqF64 => "eq.f64"
  | NeF64 => "ne.f64"
  | LtF64 => "lt.f64"
  | LeF64 => "le.f64"
  | GtF64 => "gt.f64"
  | GeF64 => "ge.f64"
  | Not => "not"
  | I64ToF64 => "i64.to_f64"
  | F64ToI64 => "f64.to_i64"
  | Pop => "pop"
  | Dup => "dup"
  | EnumTag => "enum.tag"
  | ListGet => "list.get"
  | ListSet => "list.set"
  | ListLen => "list.len"
  | Return => "return"
  end.

Definition nl : string := of_bytes [newline].

(** The lines of the loop over [f.code.iter().enumerate()]. *)
Fixpoint code_lines (module : Module) (pc : nat) (code : list Instr) : string :=
  match code with
  | [] => ""
  | instr :: code' =>
      "  " +:+ pad_number (Z.of_nat pc) +:+ "  " +:+ fmt_instr instr module +:+ nl +:+ code_lines module (S pc) code'
  end.

Definition disassemble_function (module : Module) (index : nat) : res Empty_set string :=
  f ← or_panic (functions module !! index);
  Ok ("fn " +:+ fn_name f +:+ "  (params=" +:+ pretty (param_count f) +:+ ", locals=" +:+ pretty (local_count f) +:+
      ")" +:+ nl +:+ code_lines module 0 (code f)).

Fixpoint disassemble_from (module : Module) (i : nat) (n : nat) (s : string) : res Empty_set string :=
  match n with
  | O => Ok s
  | S n' =>
      let s := if Nat.ltb 0 i then s +:+ nl else s in
      t ← disassemble_function module i;
      disassemble_from module (S i) n' (s +:+ t)
  end.

Definition disassemble (module : Module) : res Empty_set string :=
  disassemble_from module 0 (length (functions module)) "".
End disasm.
