(* ===== verification/DisasmProofs.v ===== *)
(** * The disassembly tells modules apart

    The text of an instruction determines it, up to the payload of a NaN, and the text of
    a module determines its functions.  Equal texts are compared as bytes: a mnemonic
    ends at the first space, a number at the first byte that is no digit, and the free
    text of a name stands between two numbers. *)

From Stdlib Require Import ZArith Lia Ascii.
From stdpp Require Import base numbers list strings gmap pretty.
From S2P Require Import Prelude Bytes Float64 Instr ModuleTable Value Utf8 NativesFacts NativesText NativesTextProofs Disasm.

Open Scope Z_scope.

(** ** Numbers in a text *)

Lemma span_inj {A} (P : A → Prop) d : ∀ d' c c' r r',
  Forall P d → Forall P d' → ¬ P c → ¬ P c' → d ++ c :: r = d' ++ c' :: r' → d = d' ∧ c = c' ∧ r = r'.
Proof.
  induction d as [|x d IH]; intros [|x' d'] c c' r r' Hd Hd' Hc Hc'; cbn; intros [= Hx Ht]; subst; try done.
  - by apply Forall_cons in Hd' as [? _].
  - by apply Forall_cons in Hd as [? _].
  - apply Forall_cons in Hd as [_ Hd]. apply Forall_cons in Hd' as [_ Hd'].
    by destruct (IH d' c c' r r' Hd Hd' Hc Hc' Ht) as (-> & -> & ->).
Qed.

Lemma right_number d d' c c' r r' :
  Forall digit d → Forall digit d' → ¬ digit c → ¬ digit c' → r ++ c :: d = r' ++ c' :: d' → r = r' ∧ c = c' ∧ d = d'.
Proof.
  intros Hd Hd' Hc Hc' He%(f_equal reverse). rewrite !reverse_app, !reverse_cons, <-!app_assoc in He. cbn in He.
  apply (span_inj digit) in He as (He & -> & Hr); [|by rewrite Forall_reverse..|done|done].
  apply (inj reverse) in He. by apply (inj reverse) in Hr.
Qed.

Definition number (n : Z) : list u8 := as_bytes (pretty n).

Lemma number_value n : 0 ≤ n → digits_value 0 (number n) = n ∧ Forall digit (number n).
Proof.
  intros Hn. destruct (pretty_N_digits (Z.to_N n)) as (ds & <- & ? & Hv & _). unfold number.
  assert (pretty n = pretty (Z.to_N n)) as -> by (by destruct n). rewrite Hv. split; [lia|done].
Qed.

Lemma as_bytes_String c t : as_bytes (String c t) = byte_of_ascii c :: as_bytes t.
Proof. done. Qed.

(** A number up to the character that follows it. *)
Lemma number_first w c n n' t t' : 0 ≤ n → 0 ≤ n' → ¬ digit (byte_of_ascii c) →
  w +:+ pretty n +:+ String c t = w +:+ pretty n' +:+ String c t' → n = n' ∧ t = t'.
Proof.
  intros Hn Hn' Hc He%(inj (String.append _)). apply (f_equal as_bytes) in He.
  rewrite !as_bytes_app, !as_bytes_String in He.
  destruct (number_value n Hn) as [_ ?], (number_value n' Hn') as [_ ?].
  apply (span_inj digit) in He as (?%(inj as_bytes)%(inj pretty) & _ & ?%(inj as_bytes)); done.
Qed.

(** A number at the end, after a word that ends with no digit. *)
Lemma number_last w c n n' t t' : 0 ≤ n → 0 ≤ n' → ¬ digit (byte_of_ascii c) →
  t +:+ (w +:+ String c "") +:+ pretty n = t' +:+ (w +:+ String c "") +:+ pretty n' → t = t' ∧ n = n'.
Proof.
  intros Hn Hn' Hc He%(f_equal as_bytes). rewrite !as_bytes_app, as_bytes_String in He.
  change (as_bytes "") with (@nil Z) in He. rewrite <-!app_assoc, !(assoc_L app (as_bytes _) (as_bytes w)) in He.
  destruct (number_value n Hn) as [_ ?], (number_value n' Hn') as [_ ?].
  apply right_number in He as (Ht & _ & ?%(inj as_bytes)%(inj pretty)); [|done..].
  by apply app_inv_tail, (inj as_bytes) in Ht.
Qed.

Lemma number_inj n n' : number n = number n' → n = n'.
Proof. intros He%(inj as_bytes). by apply (inj pretty). Qed.

Definition padded (n : Z) : list u8 := as_bytes (pad_number n).

Lemma padded_value n : 0 ≤ n → digits_value 0 (padded n) = n ∧ Forall digit (padded n).
Proof.
  intros Hn. unfold padded, pad_number. rewrite as_bytes_app, as_bytes_of_bytes by (by apply Forall_replicate).
  set (k := (4 - _)%nat). assert (digits_value 0 (replicate k 48) = 0) as Hz.
  { induction k as [|k IH]; [done|]. exact IH. }
  destruct (number_value n Hn) as [Hv Hd]. split; [|apply Forall_app; split; [by apply Forall_replicate|exact Hd]].
  unfold digits_value in *. rewrite foldl_app, Hz. exact Hv.
Qed.

Lemma padded_inj n n' : 0 ≤ n → 0 ≤ n' → padded n = padded n' → n = n'.
Proof. intros Hn Hn' He. rewrite <-(proj1 (padded_value n Hn)), He. by apply padded_value. Qed.

Lemma number_end w c n n' t t' : 0 ≤ n → 0 ≤ n' → ¬ digit (byte_of_ascii c) →
  (t +:+ (w +:+ String c "")) +:+ pretty n = (t' +:+ (w +:+ String c "")) +:+ pretty n' → t = t' ∧ n = n'.
Proof.
  assert (∀ s u v, (s +:+ u) +:+ v = s +:+ u +:+ v) as Ha
    by (intros s u v; apply (inj as_bytes); by rewrite !as_bytes_app, (assoc_L app)).
  rewrite !(Ha t), !(Ha t'). apply number_last.
Qed.

Lemma pad_inj n n' : 0 ≤ n → 0 ≤ n' → "-> " +:+ pad_number n = "-> " +:+ pad_number n' → n = n'.
Proof. intros Hn Hn' He%(inj (String.append _))%(f_equal as_bytes). by apply padded_inj. Qed.

#[local] Ltac range := 
  try done; unfold in_unsigned, digit in *; first [lia | vm_compute; intuition congruence].

(** ** Lines

    A sequence whose items each end with [x]: the lines of a text, the functions of a
    module. *)

Definition ended {A} (x : A) (ls : list (list A)) : list A := concat ((λ l, l ++ [x]) <$> ls).

Lemma ended_inj {A} (x : A) ls : ∀ ls',
  Forall (Forall (x ≠.)) ls → Forall (Forall (x ≠.)) ls' → ended x ls = ended x ls' → ls = ls'.
Proof.
  unfold ended. induction ls as [|l ls IH]; intros [|l' ls'] Hl Hl'; cbn; try done; rewrite <-?app_assoc; cbn.
  - by destruct l'.
  - by destruct l.
  - apply Forall_cons in Hl as [Hl Hls]. apply Forall_cons in Hl' as [Hl' Hls'].
    intros (-> & _ & He)%(span_inj (x ≠.)); try done; try (by intros []). by rewrite (IH ls' Hls Hls' He).
Qed.

Lemma ended_app {A} (x : A) ls ls' : ended x (ls ++ ls') = ended x ls ++ ended x ls'.
Proof. unfold ended. by rewrite fmap_app, concat_app. Qed.

(** A text of one line. *)
Definition plain (s : string) : Prop := Forall (newline ≠.) (as_bytes s).

#[export] Instance plain_dec s : Decision (plain s).
Proof. unfold plain. apply _. Defined.

Lemma plain_app s t : plain s → plain t → plain (s +:+ t).
Proof. unfold plain. rewrite as_bytes_app. by apply Forall_app_2. Qed.

Lemma digits_plain l : Forall digit l → Forall (newline ≠.) l.
Proof. intros H. apply (Forall_impl _ _ _ H). unfold digit, newline. lia. Qed.

Lemma plain_pretty (n : Z) : plain (pretty n).
Proof.
  unfold plain. destruct n as [|p|p]; [compute_done|by apply digits_plain, number_value|].
  change (pretty (Z.neg p)) with ("-" +:+ pretty (Z.pos p)).
  apply plain_app; [compute_done|by apply digits_plain, number_value].
Qed.

Lemma plain_padded n : 0 ≤ n → plain (pad_number n).
Proof. intros Hn. by apply digits_plain, padded_value. Qed.

(** ** Instructions *)

Definition mnemonic (i : Instr) : string :=
  match i with
  | ConstUnit => "const.unit" | AddI64 => "add.i64" | SubI64 => "sub.i64" | MulI64 => "mul.i64"
  | DivI64 => "div.i64" | ModI64 => "mod.i64" | NegI64 => "neg.i64" | AndI64 => "and.i64" | OrI64 => "or.i64"
  | XorI64 => "xor.i64" | BNotI64 => "bnot.i64" | ShlI64 => "shl.i64" | ShrI64 => "shr.i64" | UShrI64 => "ushr.i64"
  | AddF64 => "add.f64" | SubF64 => "sub.f64" | MulF64 => "mul.f64" | DivF64 => "div.f64" | NegF64 => "neg.f64"
  | EqI64 => "eq.i64" | NeI64 => "ne.i64" | LtI64 => "lt.i64" | LeI64 => "le.i64" | GtI64 => "gt.i64"
  | GeI64 => "ge.i64" | EqF64 => "eq.f64" | NeF64 => "ne.f64" | LtF64 => "lt.f64" | LeF64 => "le.f64"
  | GtF64 => "gt.f64" | GeF64 => "ge.f64" | Not => "not" | I64ToF64 => "i64.to_f64" | F64ToI64 => "f64.to_i64"
  | Pop => "pop" | Dup => "dup" | EnumTag => "enum.tag" | ListGet => "list.get" | ListSet => "list.set"
  | ListLen => "list.len" | Return => "return" | ConstInt _ => "const.i64" | ConstDouble _ => "const.f64"
  | ConstBool _ => "const.bool" | ConstStr _ => "const.str" | Load _ => "load" | Store _ => "store"
  | GlobalGet _ => "global.get" | GlobalSet _ => "global.set" | Call _ _ => "call"
  | CallNative _ _ => "call.native" | CallIndirect _ => "call.indirect" | CallVirtual _ _ => "call.virtual"
  | EnumNew _ _ _ => "enum.new" | EnumGet _ => "enum.get" | StructNew _ => "struct.new" | FieldGet _ => "field.get"
  | FieldSet _ => "field.set" | ListNew _ => "list.new" | ClosureNew _ _ => "closure.new" | Jump _ => "jump"
  | JumpIfTrue _ => "jump_if_true" | JumpIfFalse _ => "jump_if_false"
  end.

(** The first word of a text. *)
Fixpoint word (l : list u8) : list u8 :=
  match l with
  | [] => []
  | b :: l' => if b =? 32 then [] else b :: word l'
  end.

(** Equal, or two NaNs. *)
Definition same_instr (i j : Instr) : Prop :=
  match i, j with
  | ConstDouble x, ConstDouble y => x = y ∨ f64_is_nan x = true ∧ f64_is_nan y = true
  | _, _ => i = j
  end.

Section instr.
Variables (f64_to_string : f64 → string) (str_debug : string → string).
Hypothesis Hdouble : ∀ x y, f64_to_string x = f64_to_string y → x = y ∨ f64_is_nan x = true ∧ f64_is_nan y = true.
Hypothesis Hstr : ∀ s t, str_debug s = str_debug t → s = t.

#[local] Abbreviation fmt := (fmt_instr f64_to_string str_debug).

Lemma word_fmt i m : word (as_bytes (fmt i m)) = as_bytes (mnemonic i).
Proof. destruct i; reflexivity. Qed.

Lemma with_operand_inj w o o' : with_operand w o = with_operand w o' → o = o'.
Proof. apply (inj (String.append _)). Qed.

Lemma fmt_mnemonic i j m m' : fmt i m = fmt j m' → mnemonic i = mnemonic j.
Proof. intros He. apply (inj as_bytes). by rewrite <-(word_fmt i m), He, word_fmt. Qed.

Lemma fmt_inj i j m m' : instr_ok i → instr_ok j → fmt i m = fmt j m' → same_instr i j.
Proof.
  intros Hi Hj He. pose proof (fmt_mnemonic i j m m' He) as Hm.
  destruct i, j; try discriminate Hm; clear Hm; try reflexivity; cbn in Hi, Hj; cbv [fmt_instr] in He;
    apply with_operand_inj in He; cbn [same_instr].
  all: try (apply (inj pretty) in He; by subst).
  - by apply Hdouble.
  - by destruct b, b0.
  - by rewrite (Hstr _ _ He).
  - destruct Hi, Hj. apply (number_first "fn#" " "%char) in He as [-> He]; [|range..].
    by apply (number_last ", argc" "="%char) in He as [_ ->]; [|range..].
  - destruct Hi, Hj. apply (number_first "native#" ","%char) in He as [-> He]; [|range..].
    by apply (number_last " argc" "="%char _ _ "" "") in He as [_ ->]; [|range..].
  - apply (inj (String.append "argc=")), (inj pretty) in He. by subst.
  - destruct Hi, Hj. by apply (number_last ", argc" "="%char) in He as [-> ->]; [|range..].
  - destruct Hi as (? & ? & ?), Hj as (? & ? & ?). apply (number_first "ty=" ","%char) in He as [-> He]; [|range..].
    apply (number_first " variant=" ","%char) in He as [-> He]; [|range..].
    by apply (number_last " fields" "="%char _ _ "" "") in He as [_ ->]; [|range..].
  - by apply (number_first "ty=" " "%char) in He as [-> _]; [|range..].
  - destruct Hi, Hj. apply (number_first "fn#" " "%char) in He as [-> He]; [|range..].
    by apply (number_last ", captures" "="%char) in He as [_ ->]; [|range..].
  - by rewrite (pad_inj _ _ (proj1 Hi) (proj1 Hj) He).
  - by rewrite (pad_inj _ _ (proj1 Hi) (proj1 Hj) He).
  - by rewrite (pad_inj _ _ (proj1 Hi) (proj1 Hj) He).
Qed.

Hypothesis Hdouble_plain : ∀ x, plain (f64_to_string x).
Hypothesis Hstr_plain : ∀ s, plain (str_debug s).

Definition plain_instr (i : Instr) : Prop :=
  match i with CallVirtual selector _ => plain selector | _ => True end.

(** What the builder and the decoder give, with names of one line. *)
Definition printable_function (f : Function) : Prop :=
  plain (fn_name f) ∧ in_u16 (param_count f) ∧ in_u16 (local_count f) ∧
  Forall (λ i, instr_ok i ∧ plain_instr i) (code f).
Definition printable (m : Module) : Prop :=
  Forall printable_function (functions m) ∧ Forall (λ t, plain (ty_name t)) (types m).

#[export] Instance printable_dec m : Decision (printable m).
Proof.
  assert (∀ i, Decision (plain_instr i)) by (intros []; cbn; apply _).
  unfold printable, printable_function. apply _.
Defined.

Lemma plain_function_name m f : printable m → plain (function_name m f).
Proof.
  intros [Hf _]. unfold function_name. destruct (functions m !! _) eqn:He; [|compute_done].
  by eapply Forall_lookup_1 in Hf as [? _].
Qed.

Lemma plain_type_name m t : printable m → plain (type_name m t).
Proof.
  intros [_ Ht]. unfold type_name. destruct (types m !! _) eqn:He; [|compute_done].
  by eapply Forall_lookup_1 in Ht.
Qed.

Lemma plain_operand w o : plain (pad_right MNEMONIC_WIDTH w) → plain o → plain (with_operand w o).
Proof. apply plain_app. Qed.

#[local] Ltac plain := repeat match goal with
  | |- plain (f64_to_string _) => apply Hdouble_plain
  | |- plain (str_debug _) => apply Hstr_plain
  | |- plain (pretty _) => apply plain_pretty
  | |- plain (pad_number _) => apply plain_padded; range
  | |- plain (_ +:+ _) => apply plain_app
  | |- plain (if ?b then _ else _) => destruct b
  | |- plain ?s => first [assumption | eauto; fail | is_ground s; compute_done]
  end.

Lemma plain_fmt i m : printable m → instr_ok i → plain_instr i → plain (fmt i m).
Proof.
  intros Hm Hi Hp. pose proof (λ f, plain_function_name m f Hm). pose proof (λ t, plain_type_name m t Hm).
  destruct i; cbn [fmt_instr]; cbn in Hi, Hp; try (apply plain_operand; [compute_done|]); plain.
Qed.

(** ** Functions and modules *)

Definition header (f : Function) : string :=
  "fn " +:+ fn_name f +:+ "  (params=" +:+ pretty (param_count f) +:+ ", locals=" +:+ pretty (local_count f) +:+ ")".

Definition line (m : Module) (pc : nat) (i : Instr) : string :=
  "  " +:+ pad_number (Z.of_nat pc) +:+ "  " +:+ fmt i m.

Definition function_lines (m : Module) (f : Function) : list (list u8) :=
  as_bytes (header f) :: imap (λ pc i, as_bytes (line m pc i)) (code f).

Definition same_function (f g : Function) : Prop :=
  fn_name f = fn_name g ∧ param_count f = param_count g ∧ local_count f = local_count g ∧
  Forall2 same_instr (code f) (code g).

Lemma header_inj f g : printable_function f → printable_function g → as_bytes (header f) = as_bytes (header g) →
  fn_name f = fn_name g ∧ param_count f = param_count g ∧ local_count f = local_count g.
Proof.
  intros (_ & Hp & Hl & _) (_ & Hp' & Hl' & _) He. unfold header in He. rewrite !as_bytes_app in He.
  apply app_inv_head in He. rewrite !app_assoc in He. apply app_inv_tail in He.
  rewrite <-!as_bytes_app in He. apply (inj as_bytes) in He.
  apply (number_end ", locals" "="%char) in He as [He ->]; [|range..].
  by apply (number_end "  (params" "="%char) in He as [-> ->]; [|range..].
Qed.

Lemma code_lines_ended m c : ∀ pc,
  as_bytes (code_lines f64_to_string str_debug m pc c) =
  ended newline (imap (λ k i, as_bytes (line m (pc + k) i)) c).
Proof.
  induction c as [|i c IH]; intros pc; [done|]. cbn [code_lines imap]. rewrite !as_bytes_app, IH.
  unfold ended, line. cbn [fmap list_fmap concat]. rewrite Nat.add_0_r, !as_bytes_app, <-!app_assoc.
  do 5 f_equal. do 2 f_equal. apply imap_ext. intros k j _. cbn. do 5 f_equal. lia.
Qed.

#[local] Abbreviation from := (disassemble_from f64_to_string str_debug).
#[local] Abbreviation blocks m fs := (ended newline (ended [] (function_lines m <$> fs))).

Lemma function_text m i f : functions m !! i = Some f →
  ∃ t, disassemble_function f64_to_string str_debug m i = Ok t ∧ as_bytes t = ended newline (function_lines m f).
Proof.
  intros Hf. unfold disassemble_function. rewrite Hf. eexists; split; [done|].
  unfold function_lines, ended, header. cbn [fmap list_fmap concat].
  rewrite !as_bytes_app, code_lines_ended, <-!app_assoc. done.
Qed.

Lemma blocks_cons m f fs : blocks m (f :: fs) = ended newline (function_lines m f) ++ [newline] ++ blocks m fs.
Proof.
  change (ended [] (function_lines m <$> f :: fs)) with ((function_lines m f ++ [[]]) ++ ended [] (function_lines m <$> fs)).
  by rewrite !ended_app, <-app_assoc.
Qed.

Lemma from_text m n : ∀ i s, (0 < i)%nat → length (drop i (functions m)) = n →
  ∃ t, from m i n s = Ok t ∧
    as_bytes t ++ [newline] = as_bytes s ++ [newline] ++ blocks m (drop i (functions m)).
Proof.
  induction n as [|n IH]; intros i s Hi Hn; cbn [disassemble_from].
  { exists s. split; [done|]. by rewrite (nil_length_inv _ Hn). }
  destruct (drop i (functions m)) as [|f fs] eqn:Hd; [done|].
  assert (functions m !! i = Some f) as Hf.
  { by rewrite <-(Nat.add_0_r i), <-lookup_drop, Hd. }
  assert (drop (S i) (functions m) = fs) as Hds by (by rewrite <-Nat.add_1_r, <-drop_drop, Hd).
  destruct (function_text m i f Hf) as (tf & Htf & Hb). rewrite (proj2 (Nat.ltb_lt 0 i) Hi), Htf.
  destruct (IH (S i) ((s +:+ nl) +:+ tf)) as (t & Ht & Hbt); [lia|rewrite Hds; by injection Hn|].
  exists t. split; [exact Ht|]. rewrite Hbt, Hds, blocks_cons, !as_bytes_app, Hb, <-!app_assoc. done.
Qed.

Lemma disassemble_text m : ∃ t, disassemble f64_to_string str_debug m = Ok t ∧
  (functions m = [] ∧ t = "" ∨
   functions m ≠ [] ∧ t ≠ "" ∧ as_bytes t ++ [newline] = blocks m (functions m)).
Proof.
  unfold disassemble. destruct (functions m) as [|f fs] eqn:Hfs; [eauto|]. cbn [length disassemble_from].
  destruct (function_text m 0 f) as (tf & Htf & Hb); [by rewrite Hfs|]. cbn [Nat.ltb Nat.leb]. rewrite Htf.
  destruct (from_text m (length fs) 1 ("" +:+ tf)) as (t & Ht & Hbt); [lia|by rewrite Hfs|].
  exists t. split; [exact Ht|]. right. split; [done|]. rewrite Hfs in Hbt. cbn [drop] in Hbt.
  change ("" +:+ tf) with tf in Hbt. split; [|by rewrite Hbt, blocks_cons, Hb].
  intros ->. rewrite Hb in Hbt. by destruct (blocks m fs).
Qed.

Lemma function_lines_plain m f : printable m → printable_function f →
  Forall (λ l, Forall (newline ≠.) l ∧ [] ≠ l) (function_lines m f).
Proof.
  intros Hm (Hn & Hp & Hl & Hc). constructor.
  { split; [unfold header; change (plain (header f)); unfold header; plain|done]. }
  apply Forall_lookup. intros pc l. rewrite list_lookup_imap. intros (i & Hi & ->)%fmap_Some.
  apply (Forall_lookup_1 _ _ _ _ Hc) in Hi as [Hok Hpl]. split; [|done].
  change (plain (line m pc i)). pose proof (plain_fmt i m Hm Hok Hpl). unfold line. plain.
Qed.

Lemma function_lines_inj m m' f g : printable_function f → printable_function g →
  function_lines m f = function_lines m' g → same_function f g.
Proof.
  unfold function_lines. intros Hf Hg He. assert (Hh := f_equal (λ l, default [] (head l)) He).
  assert (Hc := f_equal tail He). cbn [head tail default] in Hh, Hc. clear He. destruct (header_inj f g Hf Hg Hh) as (? & ? & ?). split_and!; [done..|].
  destruct Hf as (_ & _ & _ & Hf), Hg as (_ & _ & _ & Hg). apply Forall2_same_length_lookup. split.
  { apply (f_equal length) in Hc. by rewrite !length_imap in Hc. }
  intros pc i j Hi Hj. apply (f_equal (.!! pc)) in Hc. rewrite !list_lookup_imap in Hc.
  rewrite Hi, Hj in Hc. cbn in Hc.
  injection Hc as Hc. apply (inj as_bytes) in Hc. do 3 apply (inj (String.append _)) in Hc.
  eapply fmt_inj; [..|exact Hc]; [by apply (Forall_lookup_1 _ _ _ _ Hf Hi)|by apply (Forall_lookup_1 _ _ _ _ Hg Hj)].
Qed.

Lemma blocks_inj m m' : printable m → printable m' → blocks m (functions m) = blocks m' (functions m') →
  Forall2 same_function (functions m) (functions m').
Proof.
  assert (∀ m fs, printable m → Forall printable_function fs →
    Forall (Forall (newline ≠.)) (ended [] (function_lines m <$> fs)) ∧
    Forall (Forall ([] ≠.)) (function_lines m <$> fs)) as Hlines.
  { clear m m'. intros m fs Hm Hfs. induction Hfs as [|f fs Hf _ [IH IH']]; [done|].
    pose proof (function_lines_plain m f Hm Hf) as [Hp Hne]%Forall_and. split.
    - change (ended [] (function_lines m <$> f :: fs))
        with ((function_lines m f ++ [[]]) ++ ended [] (function_lines m <$> fs)).
      apply Forall_app_2; [apply Forall_app_2; [exact Hp|by repeat constructor]|exact IH].
    - by constructor. }
  intros Hm Hm' He. destruct (Hlines m _ Hm (proj1 Hm)) as [Hp Hn], (Hlines m' _ Hm' (proj1 Hm')) as [Hp' Hn'].
  apply ended_inj in He; [|done..]. apply ended_inj in He; [|done..].
  apply Forall2_same_length_lookup. split.
  { apply (f_equal length) in He. by rewrite !length_fmap in He. }
  intros k f g Hf Hg. apply (f_equal (.!! k)) in He. rewrite !list_lookup_fmap, Hf, Hg in He.
  apply (inj Some) in He.
  destruct Hm as [Hm _], Hm' as [Hm' _]. 
  exact (function_lines_inj m m' f g (Forall_lookup_1 _ _ _ _ Hm Hf) (Forall_lookup_1 _ _ _ _ Hm' Hg) He).
Qed.

(** C34: Disassembling never panics and tells modules apart: two modules whose names and
    selectors are of one line, and whose disassemblies are the same text, have the same
    functions in the same order, with the same names, parameter and local counts, and the
    same code instruction by instruction (two constants may differ only as NaNs do).  The
    texts of doubles and of string literals are any that tell values apart on one line. *)
Theorem disassembly_faithful m m' : printable m → printable m' →
  ∃ t t', disassemble f64_to_string str_debug m = Ok t ∧ disassemble f64_to_string str_debug m' = Ok t' ∧
    (t = t' → Forall2 same_function (functions m) (functions m')).
Proof.
  intros Hm Hm'. destruct (disassemble_text m) as (t & Ht & Hc), (disassemble_text m') as (t' & Ht' & Hc').
  exists t, t'. split_and!; [done..|]. intros <-.
  destruct Hc as [[-> ->]|(Hne & Hte & He)], Hc' as [[-> ?]|(Hne' & Hte' & He')]; try done.
  apply blocks_inj; [done..|]. by rewrite <-He, <-He'.
Qed.
End instr.

(** Texts of doubles and strings to instantiate the theorem with: the bits of a double,
    and the eight bits of each character. *)
Definition bits_text (x : f64) : string := pretty x.
Fixpoint quoted (s : string) : string :=
  match s with
  | "" => ""
  | String (Ascii a b c d e f g h) s' =>
      foldr (λ (x : bool) t, String (if x then "1" else "0")%char t) (quoted s') [a; b; c; d; e; f; g; h]
  end.

Lemma quoted_inj s : ∀ t, quoted s = quoted t → s = t.
Proof.
  induction s as [|[a b c d e f g h] s IH]; intros [|[a' b' c' d' e' f' g' h'] t]; cbn; try done.
  intros [= H1 H2 H3 H4 H5 H6 H7 H8 Ht]. assert (∀ x y : bool, (if x then "1" else "0")%char = (if y then "1" else "0")%char → x = y)
    as Hb by (by intros [] []).
  f_equal; [f_equal; by apply Hb|by apply IH].
Qed.

Lemma quoted_plain s : plain (quoted s).
Proof.
  assert (∀ x : bool, newline ≠ byte_of_ascii (if x then "1" else "0")%char) as Hb by (by intros []).
  unfold plain. induction s as [|[a b c d e f g h] s IH]; cbn [quoted foldr as_bytes]; [constructor|].
  do 8 (constructor; [apply Hb|]). exact IH.
Qed.

Definition shown (n : Z) (s : string) : Module :=
  mkModule [Function_new "f" 1 1 [Load 0; ConstInt n; ConstStr s; CallVirtual "add" 2; JumpIfFalse 12; Call 1 1; Return];
            Function_new "g" 0 0 [ConstDouble (2 ^ 62); StructNew 0; Return]]
    [] [] [] ∅ 0 None None.

Lemma disassembly_faithful_witness : (printable (shown 7 "a") ∧ printable (shown 8 "a")) ∧
  ∃ t t', disassemble bits_text quoted (shown 7 "a") = Ok t ∧ disassemble bits_text quoted (shown 8 "a") = Ok t' ∧
    (t = t' → Forall2 same_function (functions (shown 7 "a")) (functions (shown 8 "a"))).
Proof.
  assert (printable (shown 7 "a") ∧ printable (shown 8 "a")) as Hp by (split; compute_done). split; [exact Hp|].
  apply disassembly_faithful.
  - intros x y He. left. exact (inj pretty _ _ He).
  - intros s. apply quoted_inj.
  - intros x. apply plain_pretty.
  - apply quoted_plain.
  - apply Hp.
  - apply Hp.
Defined.
