(* ===== verification/Profile.v ===== *)
(** * The profiler (src/runtime/src/profile.rs)

    Deterministic counters that the interpreter's hooks feed: calls at frame entry,
    allocations of the executing function, and a sample of the frame stack every
    [INTERVAL] instructions; [dump] writes them as a table.  [ON] and [interval_var] are
    the environment variables [THERA_PROFILE] (set or not) and [THERA_PROFILE_INTERVAL]
    (its value when it is set and is Unicode); [fixed_1] is Rust's [{:.1}] of a double. *)

From Stdlib Require Import ZArith Lia SpecFloat.
From stdpp Require Import base numbers list strings sorting pretty.
From S2P Require Import Prelude Bytes Float64 ModuleTable Render NativesText.

Open Scope Z_scope.

(** ** The counters *)

Record Profile := mkProfile {
  calls : list u64;
  self_samples : list u64;
  incl_samples : list u64;
  allocs : list u64;
  samples : u64;
}.

Definition Profile_new : Profile := mkProfile [] [] [] [] 0.

(** The thread-local cells. *)
Record Counters := mkCounters {
  STATE : Profile;
  INSTRS : u64;
  NEXT_SAMPLE : u64;
  CURRENT : nat;
}.

Definition thread_start : Counters := mkCounters Profile_new 0 0 0.

Definition set_profile (s : Counters) (p : Profile) : Counters := mkCounters p (INSTRS s) (NEXT_SAMPLE s) (CURRENT s).

(** [v.resize(i + 1, 0)] when [i] is past the end, then [v[i] += 1] *)
Definition bump (v : list u64) (i : nat) : list u64 :=
  let v := if Nat.leb (length v) i then v ++ replicate (S i - length v) 0 else v in
  alter (λ n, as_u64 (n + 1)) i v.

(** [s.parse::<u64>()] *)
Definition parse_u64 (s : string) : option u64 :=
  let digits := match as_bytes s with b :: l => if b =? 43 then l else b :: l | [] => [] end in
  match digits with
  | [] => None
  | _ => n ← parse_digits 0 digits; if bool_decide (in_u64 n) then Some n else None
  end.

Section profile.
Variables (ON : bool) (interval_var : option string) (fixed_1 : f64 → string).

Definition INTERVAL : u64 :=
  match (s ← interval_var; parse_u64 s) with
  | Some n => if 0 <? n then n else 1000
  | None => 1000
  end.

Definition enabled : bool := ON.

(** ** The hooks *)

Definition on_instr (s : Counters) : Counters * bool :=
  let n := as_u64 (INSTRS s + 1) in
  if NEXT_SAMPLE s <=? n
  then (mkCounters (STATE s) n (as_u64 (n + INTERVAL)) (CURRENT s), true)
  else (mkCounters (STATE s) n (NEXT_SAMPLE s) (CURRENT s), false).

(** The loop over [on_stack] with the functions already [seen]. *)
Fixpoint sample_stack (incl : list u64) (seen : list nat) (on_stack : list nat) : list u64 :=
  match on_stack with
  | [] => incl
  | f :: on_stack' =>
      if bool_decide (f ∈ seen) then sample_stack incl seen on_stack'
      else sample_stack (bump incl f) (seen ++ [f]) on_stack'
  end.

Definition sample (s : Counters) (active : nat) (on_stack : list nat) : Counters :=
  let p := STATE s in
  set_profile s (mkProfile (calls p) (bump (self_samples p) active) (sample_stack (incl_samples p) [] on_stack)
                   (allocs p) (as_u64 (samples p + 1))).

Definition on_call (s : Counters) (func : nat) : Counters :=
  let p := STATE s in
  mkCounters (mkProfile (bump (calls p) func) (self_samples p) (incl_samples p) (allocs p) (samples p))
    (INSTRS s) (NEXT_SAMPLE s) func.

Definition set_current (s : Counters) (func : nat) : Counters := mkCounters (STATE s) (INSTRS s) (NEXT_SAMPLE s) func.

Definition on_alloc (s : Counters) : Counters :=
  if negb ON then s
  else
    let p := STATE s in
    set_profile s (mkProfile (calls p) (self_samples p) (incl_samples p) (bump (allocs p) (CURRENT s)) (samples p)).

(** What the interpreter reports: a call entered, a frame made current on entry to the
    loop or on a return, an instruction about to run under the frames below it, an
    allocation. *)
Inductive Hook :=
  | Called (func : nat)
  | Current (func : nat)
  | Executed (active : nat) (frames : list nat)
  | Allocated.

(** The hooks as [run_loop] and [heap::alloc] call them. *)
Definition hook (s : Counters) (h : Hook) : Counters :=
  match h with
  | Called func => if enabled then on_call s func else s
  | Current func => if enabled then set_current s func else s
  | Executed active frames =>
      if enabled then let (s, boundary) := on_instr s in if boundary : bool then sample s active (frames ++ [active]) else s
      else s
  | Allocated => on_alloc s
  end.

(** ** The table *)

Record Row := mkRow { row_self : u64; row_incl : u64; row_calls : u64; row_allocs : u64; row_name : string }.

(** [get(v, i)] *)
Definition get (v : list u64) (i : nat) : u64 := default 0 (v !! i).

Definition active_row (r : Row) : bool := (0 <? row_self r) || (0 <? row_calls r) || (0 <? row_allocs r).

(** [a.cmp(b).then(..)] *)
Definition cmp_then (a b : comparison) : comparison := match a with Eq => b | _ => a end.

Definition row_cmp (a b : Row) : comparison :=
  cmp_then (cmp_then (row_self b ?= row_self a) (row_incl b ?= row_incl a))
    (bytes_cmp (as_bytes (row_name a)) (as_bytes (row_name b))).

(** [sort_by], which is stable: an item goes before the first item it is not greater
    than. *)
Fixpoint insert_by {A} (cmp : A → A → comparison) (x : A) (l : list A) : list A :=
  match l with
  | [] => [x]
  | y :: l' => match cmp x y with Gt => y :: insert_by cmp x l' | _ => x :: l end
  end.
Definition sort_by {A} (cmp : A → A → comparison) (l : list A) : list A := foldr (insert_by cmp) [] l.

Definition profile_rows (p : Profile) (module : Module) : list Row :=
  sort_by row_cmp
    (filter active_row
      (imap (λ i f, mkRow (get (self_samples p) i) (get (incl_samples p) i) (get (calls p) i) (get (allocs p) i) (fn_name f))
         (functions module))).

(** [{x:>n$}] *)
Definition pad_left (n : nat) (s : string) : string := of_bytes (replicate (n - length (as_bytes s)) 32) +:+ s.

(** [n as f64] *)
Definition f64_of_u64 (n : u64) : f64 := f64_of_spec (binary_normalize 53 1024 n 0 false).

Definition pct (p : Profile) (x : u64) : f64 :=
  if samples p =? 0 then f64_of_u64 0
  else f64_div (f64_mul (f64_of_u64 100) (f64_of_u64 x)) (f64_of_u64 (samples p)).

Definition row_line (p : Profile) (r : Row) : string :=
  pad_left 6 (fixed_1 (pct p (row_self r))) +:+ "% " +:+ pad_left 9 (pretty (row_self r)) +:+ " " +:+
  pad_left 9 (pretty (row_incl r)) +:+ " " +:+ pad_left 11 (pretty (row_calls r)) +:+ " " +:+
  pad_left 11 (pretty (row_allocs r)) +:+ "  " +:+ row_name r.

(** The lines [dump] writes to stderr. *)
Definition dump (s : Counters) (module : Module) : list string :=
  if negb ON then []
  else
    let p := STATE s in
    let total_allocs := foldl (λ n x, as_u64 (n + x)) 0 (allocs p) in
    [ "=== thera profile (THERA_PROFILE) ===";
      pretty (INSTRS s) +:+ " instructions, " +:+ pretty (samples p) +:+ " samples @ every " +:+ pretty INTERVAL +:+ ", " +:+
        pretty total_allocs +:+ " allocations";
      pad_left 7 "self%" +:+ " " +:+ pad_left 9 "self" +:+ " " +:+ pad_left 9 "incl" +:+ " " +:+ pad_left 11 "calls" +:+
        " " +:+ pad_left 11 "allocs" +:+ "  function" ] ++
    (row_line p <$> take 40 (profile_rows p module)).
End profile.
