(* ===== verification/ProfileProofs.v ===== *)
(** * The profile is exact

    The counters after any sequence of hooks are those of a reference count over the
    sequence, and the table shows each function that did something once, in a fixed
    order. *)

From Stdlib Require Import ZArith Lia.
From stdpp Require Import base numbers list strings sorting sets.
From S2P Require Import Prelude Bytes Float64 ModuleTable Render Profile.

Open Scope Z_scope.

(** ** Reference counts *)

Definition count {A} (P : A → bool) (l : list A) : Z := Z.of_nat (length (filter P l)).

Definition calls_of (f : nat) (trace : list Hook) : Z :=
  count (λ h, match h with Called g => bool_decide (f = g) | _ => false end) trace.

(** The function executing after [trace]. *)
Definition executing (trace : list Hook) : nat :=
  foldl (λ f h, match h with Called g | Current g => g | _ => f end) 0%nat trace.

(** The function executing at each allocation. *)
Fixpoint attributed (f : nat) (trace : list Hook) : list nat :=
  match trace with
  | [] => []
  | (Called g | Current g) :: trace' => attributed g trace'
  | Executed _ _ :: trace' => attributed f trace'
  | Allocated :: trace' => f :: attributed f trace'
  end.

(** The instructions executed: the function and the frames below. *)
Definition steps (trace : list Hook) : list (nat * list nat) :=
  omap (λ h, match h with Executed f frames => Some (f, frames) | _ => None end) trace.

(** Every [n]-th of the items, from the first. *)
Definition every {A} (n : Z) (l : list A) : list A :=
  snd <$> filter (λ p : nat * A, Z.of_nat p.1 `mod` n = 0) (imap pair l).

Definition self_of (n : Z) (f : nat) (trace : list Hook) : Z :=
  count (λ p : nat * list nat, bool_decide (f = p.1)) (every n (steps trace)).
Definition incl_of (n : Z) (f : nat) (trace : list Hook) : Z :=
  count (λ p : nat * list nat, bool_decide (f ∈ p.2 ++ [p.1])) (every n (steps trace)).
Definition allocs_of (f : nat) (trace : list Hook) : Z := count (λ g, bool_decide (f = g)) (attributed 0 trace).

Definition reference_row (n : Z) (trace : list Hook) (i : nat) (f : Function) : Row :=
  mkRow (self_of n i trace) (incl_of n i trace) (calls_of i trace) (allocs_of i trace) (fn_name f).

(** The functions the table shows: those sampled while running, called or allocated in. *)
Definition shown (r : Row) : Prop := 0 < row_self r ∨ 0 < row_calls r ∨ 0 < row_allocs r.

#[export] Instance shown_dec r : Decision (shown r).
Proof. unfold shown. apply _. Defined.

(** The order of byte strings as in a dictionary, and of the rows: the more self time
    first, then the more inclusive time, then the name. *)
Inductive lex_le : list u8 → list u8 → Prop :=
  | lex_nil b : lex_le [] b
  | lex_lt x y a b : x < y → lex_le (x :: a) (y :: b)
  | lex_eq x a b : lex_le a b → lex_le (x :: a) (x :: b).

Definition row_before (a b : Row) : Prop :=
  row_self b < row_self a ∨
  row_self b = row_self a ∧
    (row_incl b < row_incl a ∨ row_incl b = row_incl a ∧ lex_le (as_bytes (row_name a)) (as_bytes (row_name b))).

(** ** Counting *)

Lemma count_snoc {A} (P : A → bool) l x : count P (l ++ [x]) = count P l + (if P x then 1 else 0).
Proof.
  unfold count. rewrite filter_app, length_app, filter_cons, filter_nil.
  destruct (P x); case_decide; cbn in *; try done; lia.
Qed.

Lemma count_le {A} (P Q : A → bool) l : (∀ x, P x → Q x) → count P l ≤ count Q l.
Proof.
  intros HPQ. unfold count. induction l as [|x l IH]; [done|]. rewrite !filter_cons.
  specialize (HPQ x). case_decide as Hp; case_decide as Hq; cbn [length]; try lia. by destruct (Hq (HPQ Hp)).
Qed.

Lemma count_length {A} (P : A → bool) l : count P l ≤ Z.of_nat (length l).
Proof. unfold count. pose proof (length_filter P l). lia. Qed.

Lemma attributed_snoc t : ∀ f h,
  attributed f (t ++ [h]) =
  attributed f t ++
  match h with
  | Allocated => [foldl (λ f h, match h with Called g | Current g => g | _ => f end) f t]
  | _ => []
  end.
Proof.
  induction t as [|[] t IH]; intros f' h; cbn; [by destruct h|rewrite IH; by destruct h..].
Qed.

Lemma steps_snoc t h :
  steps (t ++ [h]) = steps t ++ match h with Executed f frames => [(f, frames)] | _ => [] end.
Proof. unfold steps. rewrite omap_app. by destruct h. Qed.

Lemma every_snoc {A} n (l : list A) x :
  every n (l ++ [x]) = every n l ++ (if bool_decide (Z.of_nat (length l) `mod` n = 0) then [x] else []).
Proof.
  unfold every. rewrite imap_app, filter_app, fmap_app. f_equal. cbn [imap].
  rewrite filter_cons, filter_nil, Nat.add_0_r. case_bool_decide; by case_decide.
Qed.

Lemma every_length {A} n (l : list A) : 0 < n →
  n * Z.of_nat (length (every n l)) - n < Z.of_nat (length l) ≤ n * Z.of_nat (length (every n l)).
Proof.
  intros Hn. induction l as [|x l IH] using rev_ind; [cbn; lia|].
  rewrite every_snoc, !length_app. cbn [length].
  set (k := length (every n l)) in *. case_bool_decide as Hm; cbn [length].
  - apply Z.mod_divide in Hm as [q Hq]; [|lia]. assert (q = Z.of_nat k) by nia. nia.
  - assert (Z.of_nat (length l) ≠ n * Z.of_nat k); [|nia].
    intros He. apply Hm. rewrite He, Z.mul_comm. apply Z.mod_mul. lia.
Qed.

(** ** The counters count *)

Definition counted (v : list u64) (c : nat → Z) : Prop := ∀ f, get v f = as_u64 (c f).

Lemma as_u64_succ z : as_u64 (as_u64 z + 1) = as_u64 (z + 1).
Proof. unfold as_unsigned. apply Zplus_mod_idemp_l. Qed.

Lemma get_bump v i j : get (bump v i) j = if bool_decide (j = i) then as_u64 (get v i + 1) else get v j.
Proof.
  unfold bump, get. set (w := if Nat.leb (length v) i then v ++ replicate (S i - length v) 0 else v).
  assert (∀ k, default 0 (w !! k) = default 0 (v !! k)) as Hw.
  { intros k. subst w. destruct (Nat.leb_spec (length v) i) as [Hi|]; [|done].
    rewrite lookup_app. destruct (v !! k) eqn:Hk; [done|].
    destruct (replicate _ _ !! _) eqn:He; [|done]. by apply lookup_replicate in He as [-> _]. }
  assert (i < length w)%nat as Hlen.
  { subst w. destruct (Nat.leb_spec (length v) i); [rewrite length_app, length_replicate|]; lia. }
  case_bool_decide as Hj; [subst|by rewrite list_lookup_alter_ne, Hw by done].
  rewrite list_lookup_alter_eq, <-(Hw i). by destruct (lookup_lt_is_Some_2 w i Hlen) as [? ->].
Qed.

Lemma counted_bump v c i c' :
  counted v c → (∀ f, c' f = c f + (if bool_decide (f = i) then 1 else 0)) → counted (bump v i) c'.
Proof.
  intros Hv Hc f. rewrite get_bump, Hc. case_bool_decide; [subst|by rewrite Hv, Z.add_0_r].
  by rewrite Hv, as_u64_succ.
Qed.

Lemma counted_ext v c c' : counted v c → (∀ f, c' f = c f) → counted v c'.
Proof. intros Hv Hc f. by rewrite Hv, Hc. Qed.

Lemma counted_stack stack : ∀ seen v c, counted v c →
  counted (sample_stack v seen stack) (λ f, c f + (if bool_decide (f ∈ stack ∧ f ∉ seen) then 1 else 0)).
Proof.
  induction stack as [|g stack IH]; intros seen v c Hv; cbn [sample_stack].
  { apply (counted_ext _ _ _ Hv). intros f. rewrite bool_decide_false; [lia|]. by intros [?%not_elem_of_nil ?]. }
  case_bool_decide as Hg.
  - apply (counted_ext _ _ _ (IH seen v c Hv)). intros f. f_equal.
    rewrite (bool_decide_ext (f ∈ g :: stack ∧ f ∉ seen) (f ∈ stack ∧ f ∉ seen)); [done|]. set_solver.
  - apply (counted_ext _ _ _ (IH (seen ++ [g]) _ _ (counted_bump v c g _ Hv (λ f, eq_refl)))).
    intros f. destruct (decide (f = g)) as [->|Hf].
    + rewrite (bool_decide_true (g ∈ g :: stack ∧ _)), (bool_decide_true (g = g)), bool_decide_false by set_solver. lia.
    + rewrite (bool_decide_false (f = g)) by done.
      rewrite (bool_decide_ext (f ∈ g :: stack ∧ f ∉ seen) (f ∈ stack ∧ f ∉ seen ++ [g])) by set_solver. lia.
Qed.

Section exact.
Variable interval_var : option string.
#[local] Abbreviation n := (INTERVAL interval_var).
#[local] Abbreviation hook := (hook true interval_var).

Record exact (t : list Hook) (s : Counters) : Prop := {
  exact_calls : counted (calls (STATE s)) (λ f, calls_of f t);
  exact_self : counted (self_samples (STATE s)) (λ f, self_of n f t);
  exact_incl : counted (incl_samples (STATE s)) (λ f, incl_of n f t);
  exact_allocs : counted (allocs (STATE s)) (λ f, allocs_of f t);
  exact_samples : samples (STATE s) = as_u64 (Z.of_nat (length (every n (steps t))));
  exact_instrs : INSTRS s = Z.of_nat (length (steps t));
  exact_next : NEXT_SAMPLE s =
    (if decide (steps t = []) then 0 else n * Z.of_nat (length (every n (steps t))) + 1);
  exact_current : CURRENT s = executing t;
}.

Lemma INTERVAL_positive : 0 < n.
Proof. unfold INTERVAL. destruct (interval_var ≫= parse_u64) as [u|]; [|done].
  by destruct (Z.ltb_spec 0 u). Qed.

Lemma steps_length t : (length (steps t) ≤ length t)%nat.
Proof. unfold steps. induction t as [|[] t IH]; cbn in *; lia. Qed.

Lemma exact_start : exact [] thread_start.
Proof. constructor; try done; by intros []. Qed.

Lemma calls_of_snoc f t h :
  calls_of f (t ++ [h]) = calls_of f t + match h with Called g => if bool_decide (f = g) then 1 else 0 | _ => 0 end.
Proof. unfold calls_of. rewrite count_snoc. by destruct h. Qed.

Lemma allocs_of_snoc f t h :
  allocs_of f (t ++ [h]) =
  allocs_of f t + match h with Allocated => if bool_decide (f = executing t) then 1 else 0 | _ => 0 end.
Proof.
  unfold allocs_of. rewrite attributed_snoc. destruct h; rewrite ?app_nil_r, ?Z.add_0_r; try done.
  fold (executing t). by rewrite count_snoc.
Qed.

Lemma exact_call t s g : exact t s → exact (t ++ [Called g]) (hook s (Called g)).
Proof.
  intros [Hc Hs Hi Ha Hn Hin Hx Hcu]. cbn. constructor; cbn; unfold self_of, incl_of; rewrite ?steps_snoc, ?app_nil_r; try done.
  - apply (counted_bump _ _ _ _ Hc). intros f. apply calls_of_snoc.
  - apply (counted_ext _ _ _ Ha). intros f. by rewrite allocs_of_snoc, Z.add_0_r.
  - unfold executing. by rewrite foldl_app.
Qed.

Lemma exact_set_current t s g : exact t s → exact (t ++ [Current g]) (hook s (Current g)).
Proof.
  intros [Hc Hs Hi Ha Hn Hin Hx Hcu]. cbn. constructor; cbn; unfold self_of, incl_of; rewrite ?steps_snoc, ?app_nil_r; try done.
  - apply (counted_ext _ _ _ Hc). intros f. by rewrite calls_of_snoc, Z.add_0_r.
  - apply (counted_ext _ _ _ Ha). intros f. by rewrite allocs_of_snoc, Z.add_0_r.
  - unfold executing. by rewrite foldl_app.
Qed.

Lemma exact_alloc t s : exact t s → exact (t ++ [Allocated]) (hook s Allocated).
Proof.
  intros [Hc Hs Hi Ha Hn Hin Hx Hcu]. cbn. constructor; cbn; unfold self_of, incl_of; rewrite ?steps_snoc, ?app_nil_r; try done.
  - apply (counted_ext _ _ _ Hc). intros f. by rewrite calls_of_snoc, Z.add_0_r.
  - apply (counted_bump _ _ _ _ Ha). intros f. by rewrite allocs_of_snoc, Hcu.
  - unfold executing. by rewrite foldl_app.
Qed.

(** The instruction after [t] is sampled when a multiple of [n] ran before it. *)
Lemma on_instr_boundary t s : exact t s → Z.of_nat (length t) + 1 + n < 2 ^ 64 →
  on_instr interval_var s =
  let len := Z.of_nat (length (steps t)) in
  if bool_decide (len `mod` n = 0) then (mkCounters (STATE s) (len + 1) (len + 1 + n) (CURRENT s), true)
  else (mkCounters (STATE s) (len + 1) (NEXT_SAMPLE s) (CURRENT s), false).
Proof.
  intros [_ _ _ _ _ Hin Hx _] Hlen. pose proof (steps_length t). pose proof INTERVAL_positive as Hn.
  pose proof (every_length n (steps t) Hn) as Hk. unfold on_instr. rewrite Hin.
  assert (as_u64 (Z.of_nat (length (steps t)) + 1) = Z.of_nat (length (steps t)) + 1) as ->
    by (apply Z.mod_small; lia).
  assert (as_u64 (Z.of_nat (length (steps t)) + 1 + n) = Z.of_nat (length (steps t)) + 1 + n) as ->
    by (apply Z.mod_small; lia).
  cbn zeta. set (len := Z.of_nat (length (steps t))) in *. set (k := Z.of_nat (length (every n (steps t)))) in *.
  assert (len = 0 ↔ steps t = []) as Hnil by (subst len; destruct (steps t); cbn; split; [done..|lia|done]).
  case_bool_decide as Hm; destruct (Z.leb_spec (NEXT_SAMPLE s) (len + 1)) as [Hle|Hgt]; try done; exfalso.
  - apply Z.mod_divide in Hm as [q Hq]; [|lia]. rewrite Hx in Hgt. case_decide as Hd; [lia|].
    assert (len ≠ 0) by tauto. assert (q = k) by nia. nia.
  - rewrite Hx in Hle. case_decide as Hd; [|apply Hm].
    + apply Hm. by rewrite (proj2 Hnil Hd).
    + assert (len = n * k) as -> by nia. rewrite Z.mul_comm. apply Z.mod_mul. lia.
Qed.

Lemma exact_step t s f frames : exact t s → Z.of_nat (length t) + 1 + n < 2 ^ 64 →
  exact (t ++ [Executed f frames]) (hook s (Executed f frames)).
Proof.
  intros He Hlen. cbn [Profile.hook]. unfold enabled. rewrite (on_instr_boundary t s He Hlen).
  destruct He as [Hc Hs Hi Ha Hn Hin Hx Hcu]. pose proof INTERVAL_positive as Hpos.
  pose proof (every_length n (steps t) Hpos) as Hk.
  assert (steps (t ++ [Executed f frames]) = steps t ++ [(f, frames)]) as Hst by apply steps_snoc.
  cbn zeta. case_bool_decide as Hm.
  - constructor; cbn; unfold self_of, incl_of; rewrite ?Hst, ?every_snoc, ?(bool_decide_true (_ `mod` _ = 0) Hm).
    + apply (counted_ext _ _ _ Hc). intros g. by rewrite calls_of_snoc, Z.add_0_r.
    + apply (counted_bump _ _ _ _ Hs). intros g. by rewrite count_snoc.
    + apply (counted_ext _ _ _ (counted_stack _ [] _ _ Hi)). intros g. rewrite count_snoc. cbn. f_equal.
      rewrite (bool_decide_ext (g ∈ frames ++ [f] ∧ g ∉ []) (g ∈ frames ++ [f])) by set_solver. done.
    + apply (counted_ext _ _ _ Ha). intros g. by rewrite allocs_of_snoc, Z.add_0_r.
    + rewrite Hn, as_u64_succ, length_app. cbn. f_equal. lia.
    + rewrite length_app. cbn. lia.
    + rewrite decide_False by (by destruct (steps t)). rewrite length_app, Nat2Z.inj_add.
      apply Z.mod_divide in Hm as [q Hq]; [|lia].
      assert (q = Z.of_nat (length (every n (steps t)))) by nia. cbn [length]. lia.
    + unfold executing. by rewrite foldl_app.
  - constructor; cbn; unfold self_of, incl_of; rewrite ?Hst, ?every_snoc, ?(bool_decide_false (_ `mod` _ = 0) Hm), ?app_nil_r; try done.
    + apply (counted_ext _ _ _ Hc). intros g. by rewrite calls_of_snoc, Z.add_0_r.
    + apply (counted_ext _ _ _ Ha). intros g. by rewrite allocs_of_snoc, Z.add_0_r.
    + rewrite length_app. cbn. lia.
    + rewrite Hx, !decide_False; [done|by destruct (steps t)|]. intros He. apply Hm. by rewrite He.
    + unfold executing. by rewrite foldl_app.
Qed.

Lemma exact_run t : Z.of_nat (length t) + n < 2 ^ 64 → exact t (foldl hook thread_start t).
Proof.
  induction t as [|h t IH] using rev_ind; intros Hlen; [apply exact_start|].
  rewrite length_app in Hlen. cbn in Hlen. rewrite foldl_app. cbn [foldl].
  assert (exact t (foldl hook thread_start t)) as He by (apply IH; lia).
  destruct h; [by apply exact_call|by apply exact_set_current|apply exact_step; [done|lia]|by apply exact_alloc].
Qed.
End exact.

(** ** The table *)

Section sort.
Context {A : Type} (cmp : A → A → comparison).
Hypothesis cmp_total : ∀ x y, cmp x y = Gt → cmp y x ≠ Gt.
#[local] Abbreviation le := (λ x y, cmp x y ≠ Gt).

Lemma insert_by_perm x l : insert_by cmp x l ≡ₚ x :: l.
Proof.
  induction l as [|y l IH]; cbn; [done|]. destruct (cmp x y); try done.
  by rewrite IH, Permutation_swap.
Qed.

Lemma sort_by_perm l : sort_by cmp l ≡ₚ l.
Proof. unfold sort_by. induction l as [|x l IH]; cbn; [done|]. by rewrite insert_by_perm, IH. Qed.

Lemma insert_by_sorted x l : Sorted le l → Sorted le (insert_by cmp x l).
Proof.
  induction l as [|y l IH]; cbn; intros Hl; [by repeat constructor|]. inversion_clear Hl as [|? ? Hs Hh].
  destruct (cmp x y) eqn:Hc; try (constructor; [by constructor|constructor; by rewrite Hc]).
  constructor; [by apply IH|]. clear IH Hs. destruct l as [|z l]; cbn; [constructor; by apply cmp_total|].
  apply HdRel_inv in Hh. destruct (cmp x z); constructor; try done; by apply cmp_total.
Qed.

Lemma sort_by_sorted l : Sorted le (sort_by cmp l).
Proof. unfold sort_by. induction l as [|x l IH]; cbn; [constructor|]. by apply insert_by_sorted. Qed.

(** Items that compare equal keep their order. *)
Lemma sort_by_stable (P : A → Prop) `{∀ x, Decision (P x)} l :
  (∀ x y, P x → P y → cmp x y ≠ Gt) → filter P (sort_by cmp l) = filter P l.
Proof.
  intros HP. assert (∀ x l, filter P (insert_by cmp x l) = filter P (x :: l)) as Hins.
  { clear l. intros x l. induction l as [|y l IH]; cbn; [done|]. destruct (cmp x y) eqn:Hc; try done.
    rewrite filter_cons, IH, !filter_cons. case_decide; case_decide; try done. by destruct (HP x y). }
  unfold sort_by. induction l as [|x l IH]; cbn [foldr]; [done|]. by rewrite Hins, !filter_cons, IH.
Qed.
End sort.

Lemma row_cmp_total a b : row_cmp a b = Gt → row_cmp b a ≠ Gt.
Proof.
  unfold row_cmp. rewrite (bytes_cmp_antisym (as_bytes (row_name a))).
  rewrite (Z.compare_antisym (row_self b)), (Z.compare_antisym (row_incl b)).
  by destruct (row_self b ?= _), (row_incl b ?= _), (bytes_cmp _ _).
Qed.

Lemma Sorted_weaken {A} (R S : A → A → Prop) l : (∀ x y, R x y → S x y) → Sorted R l → Sorted S l.
Proof.
  intros HRS. induction 1 as [|x l _ IH Hh]; constructor; [done|]. destruct Hh; constructor. by apply HRS.
Qed.

(** What the order of the rows looks at. *)
Definition row_key (r : Row) : Z * Z * string := (row_self r, row_incl r, row_name r).

Lemma row_cmp_key a b : row_key a = row_key b → row_cmp a b ≠ Gt.
Proof. unfold row_cmp. intros [= -> -> ->]. by rewrite !Z.compare_refl, bytes_cmp_refl. Qed.

Lemma bytes_cmp_lex a : ∀ b, bytes_cmp a b ≠ Gt ↔ lex_le a b.
Proof.
  induction a as [|x a IH]; intros [|y b]; cbn; try by (split; [constructor|done]).
  - split; [done|inversion 1].
  - destruct (Z.compare_spec x y) as [->|Hl|Hg].
    + rewrite IH. split; [by constructor|]. inversion 1; [lia|done].
    + split; [by intros _; constructor|done].
    + split; [done|]. inversion 1; lia.
Qed.

Lemma row_cmp_before a b : row_cmp a b ≠ Gt ↔ row_before a b.
Proof.
  unfold row_cmp, row_before. rewrite <-bytes_cmp_lex.
  destruct (Z.compare_spec (row_self b) (row_self a)), (Z.compare_spec (row_incl b) (row_incl a)); cbn [cmp_then];
    split; try done; try lia; intuition lia.
Qed.

Lemma active_shown (l : list Row) : filter active_row l = filter shown l.
Proof.
  apply list_filter_iff. intros r. unfold active_row, shown.
  destruct (Z.ltb_spec 0 (row_self r)), (Z.ltb_spec 0 (row_calls r)), (Z.ltb_spec 0 (row_allocs r)); cbn; intuition lia.
Qed.

Lemma reference_bounds n f t : 0 < n →
  0 ≤ self_of n f t ≤ incl_of n f t ∧ incl_of n f t ≤ Z.of_nat (length (every n (steps t))) ≤ Z.of_nat (length t) ∧
  0 ≤ calls_of f t ≤ Z.of_nat (length t) ∧ 0 ≤ allocs_of f t ≤ Z.of_nat (length t).
Proof.
  intros Hn. assert (∀ A (P : A → bool) l, 0 ≤ count P l) as Hpos by (unfold count; lia).
  assert (∀ f, length (attributed f t) ≤ length t)%nat as Hat.
  { clear. induction t as [|[] t IH]; intros f'; cbn; try pose proof (IH f'); try pose proof (IH func); lia. }
  pose proof (steps_length t). pose proof (every_length n (steps t) Hn). split_and!; try apply Hpos.
  - apply count_le. intros [g frames]. cbn. intros ->%bool_decide_unpack. apply bool_decide_pack. set_solver.
  - apply count_length.
  - nia.
  - apply count_length.
  - etrans; [apply count_length|]. specialize (Hat 0%nat). lia.
Qed.

Lemma counted_exactly v c f : counted v c → 0 ≤ c f < 2 ^ 64 → get v f = c f.
Proof. intros Hv Hc. rewrite Hv. by apply Z.mod_small. Qed.

Lemma rows_exact interval_var t s module : exact interval_var t s → Z.of_nat (length t) + INTERVAL interval_var < 2 ^ 64 →
  imap (λ i f, mkRow (get (self_samples (STATE s)) i) (get (incl_samples (STATE s)) i) (get (calls (STATE s)) i)
                 (get (allocs (STATE s)) i) (fn_name f)) (functions module) =
  imap (reference_row (INTERVAL interval_var) t) (functions module).
Proof.
  intros He Hlen. pose proof (INTERVAL_positive interval_var) as Hn. apply imap_ext. intros i f _.
  pose proof (reference_bounds (INTERVAL interval_var) i t Hn). unfold reference_row. f_equal.
  - apply (counted_exactly _ _ _ (exact_self _ _ _ He)). lia.
  - apply (counted_exactly _ _ _ (exact_incl _ _ _ He)). lia.
  - apply (counted_exactly _ _ _ (exact_calls _ _ _ He)). lia.
  - apply (counted_exactly _ _ _ (exact_allocs _ _ _ He)). lia.
Qed.

(** C35: A profile is exact.  Whatever calls, returns, instructions and allocations the
    interpreter reports, as long as no counter can overflow, the table has one row for
    each function that was called, ran at a sample or was allocated in, and its numbers
    are the reference counts over the reports: every [INTERVAL]-th instruction from the first is
    a sample, a function on the stack of a sample counts once for inclusive time however
    often it recurs, and an allocation counts for the function made current last.  Self
    time never exceeds inclusive time.  The rows are in the order of decreasing self time,
    then decreasing inclusive time, then the bytes of the name, and rows the order does
    not tell apart stay in the order of the functions, so that the table is a function
    of the reports. *)
Theorem profile_exact interval_var t module :
  Z.of_nat (length t) + INTERVAL interval_var < 2 ^ 64 →
  let n := INTERVAL interval_var in
  let s := foldl (hook true interval_var) thread_start t in
  let rows := profile_rows (STATE s) module in
  let reference := filter shown (imap (reference_row n t) (functions module)) in
  INSTRS s = Z.of_nat (length (steps t)) ∧ samples (STATE s) = Z.of_nat (length (every n (steps t))) ∧
  rows ≡ₚ reference ∧ Sorted row_before rows ∧
  (∀ k, filter (λ r, row_key r = k) rows = filter (λ r, row_key r = k) reference) ∧
  Forall (λ r, row_self r ≤ row_incl r ≤ samples (STATE s)) rows.
Proof.
  intros Hlen n s rows reference. pose proof (exact_run interval_var t Hlen) as He. fold s in He.
  pose proof (INTERVAL_positive interval_var) as Hn. fold n in Hn, Hlen.
  assert (rows = sort_by row_cmp reference) as Hrows.
  { unfold rows, profile_rows. by rewrite (rows_exact interval_var t s module He Hlen), active_shown. }
  assert (samples (STATE s) = Z.of_nat (length (every n (steps t)))) as Hsamples.
  { rewrite (exact_samples _ _ _ He). apply Z.mod_small. pose proof (reference_bounds n 0 t Hn). lia. }
  assert (rows ≡ₚ reference) as Hperm by (rewrite Hrows; apply sort_by_perm).
  split_and!; [apply (exact_instrs _ _ _ He)|done|done| | |].
  - rewrite Hrows. eapply Sorted_weaken; [|apply sort_by_sorted, row_cmp_total]. intros a b. apply row_cmp_before.
  - intros k. rewrite Hrows. apply sort_by_stable. intros a b <- Hb. by apply row_cmp_key.
  - rewrite Hperm, Hsamples. apply Forall_forall. intros r [_ Hr]%list_elem_of_filter.
    apply elem_of_lookup_imap in Hr as (i & f & -> & _). cbn. pose proof (reference_bounds n i t Hn). lia.
Qed.

Definition demo_trace : list Hook :=
  [Current 0; Executed 0 []; Allocated; Called 1; Executed 1 [0]; Executed 1 [0]; Called 1; Executed 1 [0; 1]; Allocated;
   Current 1; Current 0; Executed 0 []]%nat.
Definition demo_profiled : Module :=
  mkModule [Function_new "main" 0 0 []; Function_new "fib" 1 1 []; Function_new "unused" 0 0 []] [] [] [] ∅ 0 None None.

Lemma profile_exact_witness :
  Z.of_nat (length demo_trace) + INTERVAL (Some "2") < 2 ^ 64 ∧
  profile_rows (STATE (foldl (hook true (Some "2")) thread_start demo_trace)) demo_profiled =
    [mkRow 2 3 0 1 "main"; mkRow 1 1 2 1 "fib"] ∧
  samples (STATE (foldl (hook true (Some "2")) thread_start demo_trace)) =
    Z.of_nat (length (every (INTERVAL (Some "2")) (steps demo_trace))).
Proof.
  assert (Z.of_nat (length demo_trace) + INTERVAL (Some "2") < 2 ^ 64) as Hlen by (vm_compute; reflexivity).
  split; [exact Hlen|]. split; [vm_compute; reflexivity|].
  exact (proj1 (proj2 (profile_exact (Some "2") demo_trace demo_profiled Hlen))).
Defined.
