(* ===== verification/NativeStats.v ===== *)
(** * The native call counter (module [native_stats] of src/runtime/src/interp/mod.rs)

    With the [native-stats] feature, each [call.native] bumps a counter of its native, and
    the end of a run writes the counters to stderr, if [THERA_NATIVE_STATS] is set ([ON]).
    The table is exact: its rows are what was called, its total how often. *)

From Stdlib Require Import ZArith Lia.
From stdpp Require Import base numbers list strings sorting pretty.
From S2P Require Import Prelude Bytes Float64 NativesTable Profile ProfileProofs.

Open Scope Z_scope.

Section stats.
Variable ON : bool.

(** [count(index)], on the thread's [CALLS] *)
Definition count_native (CALLS : list u64) (index : nat) : list u64 := if ON then bump CALLS index else CALLS.

Definition stat_cmp (a b : u64 * string) : comparison := b.1 ?= a.1.

Definition stat_rows (CALLS : list u64) : list (u64 * string) :=
  sort_by stat_cmp
    (filter (λ r, 0 < r.1) (imap (λ i n, (n, default "?" (native_name (as_u32 (Z.of_nat i))))) CALLS)).

Definition stat_total (rows : list (u64 * string)) : u64 := foldl (λ total r, as_u64 (total + r.1)) 0 rows.

Definition dump_native_stats (CALLS : list u64) : list string :=
  if negb ON then []
  else
    let rows := stat_rows CALLS in
    ("--- native call counts (total " +:+ pretty (stat_total rows) +:+ ") ---") ::
    ((λ r, pad_left 12 (pretty r.1) +:+ "  " +:+ r.2) <$> take 30 rows).
End stats.

(** ** What it counts *)

(** The calls of native [i] in a sequence. *)
Definition called (i : nat) (l : list nat) : Z := count (λ j, bool_decide (i = j)) l.

Definition sum (l : list Z) : Z := foldr Z.add 0 l.

Lemma sum_perm l l' : l ≡ₚ l' → sum l = sum l'.
Proof. unfold sum. induction 1; cbn; lia. Qed.

Lemma sum_app l l' : sum (l ++ l') = sum l + sum l'.
Proof. unfold sum. induction l as [|x l IH]; cbn; [done|]. lia. Qed.

Lemma sum_zeros n : sum (replicate n 0) = 0.
Proof. by induction n. Qed.

Lemma sum_alter v i : (i < length v)%nat → as_u64 (sum (alter (λ n, as_u64 (n + 1)) i v)) = as_u64 (sum v + 1).
Proof.
  revert i. induction v as [|x v IH]; intros [|i] Hi; cbn [length] in Hi; [lia|lia| |].
  - cbn. unfold as_unsigned. rewrite Zplus_mod_idemp_l. f_equal. lia.
  - specialize (IH i ltac:(lia)). cbn [alter list_alter sum foldr]. unfold as_unsigned in *.
    rewrite <-Z.add_assoc, Z.add_mod by done. fold (sum v). fold (alter (λ n, (n + 1) `mod` 2 ^ 64) i v).
    change (foldr Z.add 0 ?l) with (sum l). by rewrite IH, <-Z.add_mod.
Qed.

Lemma sum_bump v i : as_u64 (sum (bump v i)) = as_u64 (sum v + 1).
Proof.
  unfold bump. destruct (Nat.leb_spec (length v) i).
  - rewrite sum_alter, sum_app, sum_zeros, Z.add_0_r; [done|]. rewrite length_app, length_replicate. lia.
  - by apply sum_alter.
Qed.

Lemma stat_total_sum rows : stat_total rows = as_u64 (sum (rows.*1)).
Proof.
  unfold stat_total. assert (∀ t, foldl (λ total r, as_u64 (total + r.1)) (as_u64 t) rows = as_u64 (t + sum (rows.*1))) as Hf.
  { induction rows as [|r rows IH]; intros t; cbn; [by rewrite Z.add_0_r|].
    assert (as_u64 (as_u64 t + r.1) = as_u64 (t + r.1)) as -> by apply Zplus_mod_idemp_l. rewrite IH. f_equal. unfold sum. cbn. lia. }
  exact (Hf 0).
Qed.

Lemma sum_filter (rows : list (u64 * string)) :
  Forall (λ r, 0 ≤ r.1) rows → sum ((filter (λ r, 0 < r.1) rows).*1) = sum (rows.*1).
Proof.
  unfold sum. induction 1 as [|r rows Hr _ IH]; [done|]. rewrite filter_cons. case_decide; cbn; lia.
Qed.

Lemma bump_unsigned v i : Forall (λ n, 0 ≤ n) v → Forall (λ n, 0 ≤ n) (bump v i).
Proof.
  intros Hv. unfold bump. apply Forall_alter; [|intros x _ _; by apply Z.mod_pos_bound].
  destruct (Nat.leb _ _); [|done]. apply Forall_app. split; [done|]. by apply Forall_replicate.
Qed.

Lemma Sorted_impl {A} (R R' : A → A → Prop) l : (∀ x y, R x y → R' x y) → Sorted R l → Sorted R' l.
Proof. intros HR. induction 1 as [|x l _ IH Hx]; constructor; [done|]. destruct Hx; constructor; by apply HR. Qed.

Lemma stat_cmp_total x y : stat_cmp x y = Gt → stat_cmp y x ≠ Gt.
Proof. unfold stat_cmp. rewrite !Z.compare_gt_iff. lia. Qed.

Lemma imap_fst (f : nat → string) (v : list Z) : (imap (λ i n, (n, f i)) v).*1 = v.
Proof. revert f. induction v as [|x v IH]; intros f; cbn; [done|]. f_equal. apply (IH (f ∘ S)). Qed.

Lemma count_native_exact l :
  let CALLS := foldl (count_native true) [] l in
  counted CALLS (λ i, called i l) ∧ as_u64 (sum CALLS) = as_u64 (Z.of_nat (length l)) ∧ Forall (λ n, 0 ≤ n) CALLS.
Proof.
  induction l as [|j l IH] using rev_ind; [split_and!; [by intros []|done|by apply Forall_nil]|].
  rewrite foldl_app. cbn in *. destruct IH as (Hc & Hs & Hp). split_and!; [| |by apply bump_unsigned].
  - apply (counted_bump _ _ _ _ Hc). intros i. unfold called. by rewrite count_snoc.
  - rewrite sum_bump, length_app. cbn. unfold as_unsigned in *.
    rewrite Z.add_mod, Hs, <-Z.add_mod by done. f_equal. lia.
Qed.

(** The table is exact: after any sequence of native calls, the total is their number, a
    native has a row if and only if it was called (a multiple of [2^64] calls apart), with
    the number of its calls, and the rows are in descending order. *)
Theorem native_stats_exact l :
  let CALLS := foldl (count_native true) [] l in
  let rows := stat_rows CALLS in
  stat_total rows = as_u64 (Z.of_nat (length l)) ∧
  Sorted (λ a b, b.1 ≤ a.1) rows ∧
  ∀ n name, (n, name) ∈ rows ↔
    ∃ i, n = as_u64 (called i l) ∧ 0 < n ∧ name = default "?" (native_name (as_u32 (Z.of_nat i))).
Proof.
  intros CALLS rows.
  assert (counted CALLS (λ i, called i l) ∧ as_u64 (sum CALLS) = as_u64 (Z.of_nat (length l)) ∧ Forall (λ n, 0 ≤ n) CALLS)
    as (Hc & Hs & Hp) by apply count_native_exact.
  assert (rows ≡ₚ filter (λ r, 0 < r.1) (imap (λ i n, (n, default "?" (native_name (as_u32 (Z.of_nat i))))) CALLS)) as Hrows
    by apply sort_by_perm.
  split_and!.
  - rewrite stat_total_sum, (sum_perm _ _ (fmap_Permutation fst _ _ Hrows)), sum_filter.
    + by rewrite (imap_fst (λ i, default "?" (native_name (as_u32 (Z.of_nat i))))).
    + apply Forall_forall. intros r (i & n & -> & Hn)%elem_of_lookup_imap. by eapply Forall_lookup_1.
  - apply (Sorted_impl (λ a b, stat_cmp a b ≠ Gt)); [|apply (sort_by_sorted _ stat_cmp_total)].
    intros a b. cbn. unfold stat_cmp. by rewrite Z.compare_gt_iff, Z.nlt_ge.
  - intros n name. rewrite Hrows, list_elem_of_filter, elem_of_lookup_imap. cbn. split.
    + intros (Hn & i & n' & He & Hi). simplify_eq. exists i. split_and!; [|done|done].
      rewrite <-(Hc i). unfold get. by rewrite Hi.
    + intros (i & Hn & Hpos & ->). split; [done|]. exists i, n. split; [done|].
      specialize (Hc i). unfold get in Hc. rewrite <-Hn in Hc.
      destruct (CALLS !! i) as [x|]; cbn in Hc; [by subst|lia].
Qed.
