(* ===== verification/Testing.v ===== *)
(** * Running the unit tests of the source

    The tests of src/runtime, translated, run on the model: each test function becomes a
    computation with the same name, each assertion a check, and a test passes if none of
    its assertions fails and nothing panics.  The thread a test runs on is a world: a
    fresh heap, no program output, and the small system of [Demo] outside.  Equality of
    values is the one tests use in Rust, structural through the heap.  After a trap a
    test goes on from the world before the run, since the model keeps none of a run that
    traps. *)

From Stdlib Require Import ZArith Lia.
From stdpp Require Import base numbers list strings gmap pretty.
From S2P Require Import Prelude Bytes Float64 Instr ModuleTable Builder Value Heap HeapProofs Trap Scheduler Interp.
From S2P Require Import Driver NativesBase NativesFiber System NativesAll NativesSocket Pool Demo.

Open Scope Z_scope.

#[export] Existing Instance sizes64.

Definition Thread : Type := World (Job := Job) (Payload := Payload) (Ext := Runtime).

(** A test changes a state and gives a value, or fails; the state is mostly the thread it
    runs on. *)
Definition Testing (S A : Type) : Type := S → option (S * A).
Abbreviation Test A := (Testing Thread A).

#[export] Instance test_ret S : MRet (Testing S) := λ A a w, Some (w, a).
#[export] Instance test_bind S : MBind (Testing S) := λ A B f t w,
  match t w with Some (w, a) => f a w | None => None end.

Section assertions.
Context {S : Type}.

Definition failed {A} : Testing S A := λ _, None.

Definition assert (b : bool) : Testing S unit := if b then mret tt else failed.

(** [assert_eq!] and [assert_ne!] on values without references. *)
Definition equals {A} `{EqDecision A} (a b : A) : Testing S unit := assert (bool_decide (a = b)).
Definition differs {A} `{EqDecision A} (a b : A) : Testing S unit := assert (negb (bool_decide (a = b))).

(** [unwrap] *)
Definition unwrap {E A} (r : res E A) : Testing S A := match r with Ok a => mret a | _ => failed end.
Definition present {A} (o : option A) : Testing S A := match o with Some a => mret a | None => failed end.

(** Running out of fuel fails a test; a panic does not where a test expects it. *)
Definition panics {E A} (r : res E A) : Testing S unit := match r with Panic => mret tt | _ => failed end.

Fixpoint each {A} (l : list A) (f : A → Testing S unit) : Testing S unit :=
  match l with
  | [] => mret tt
  | a :: l' => _ ← f a; each l' f
  end.

Fixpoint folded {A T} (l : list A) (t : T) (f : T → A → Testing S T) : Testing S T :=
  match l with
  | [] => mret t
  | a :: l' => t ← f t a; folded l' t f
  end.
End assertions.

(** [bytes.windows(n).filter(|w| *w == b).count()] *)
Fixpoint windows (b bytes : list u8) : nat :=
  match bytes with
  | [] => 0
  | _ :: bytes' => (if bool_decide (take (length b) bytes = b) then 1 else 0) + windows b bytes'
  end.

(** ** The heap of the thread *)

Definition heap : Test Mem := λ w, Some (w, w_mem w).
Definition set_memory (m : Mem) : Test unit := λ w, Some (set_w_mem w m, tt).

(** Enough for the nesting of the values of the tests. *)
Definition test_depth : nat := 20.

Definition allocate (o : Obj) : Test Value :=
  m ← heap; '(m, v) ← unwrap (E := Trap) (alloc m o); _ ← set_memory m; mret v.

(** [Value::new_str] and its fellows. *)
Definition text (s : string) : Test Value := allocate (Str s).
Definition list_of (items : list Value) : Test Value := allocate (List items).
Definition enum_of (ty : u32) (variant : u16) (fields : list Value) : Test Value := allocate (Enum ty variant fields).
Definition struct_of (ty : u32) (fields : list Value) : Test Value := allocate (Struct ty fields).
Definition closure_of (func : u32) (captures : list Value) : Test Value := allocate (Closure func captures).
Definition some_of (v : Value) : Test Value := allocate (some_obj v).
Definition none_of : Test Value := allocate none_obj.

(** [a == b] on values, which reads the heap *)
Definition same (a b : Value) : Test bool :=
  m ← heap; unwrap (E := Trap) (values_eq test_depth (mem_slots m) a b).

Definition same_value (a b : Value) : Test unit := b ← same a b; assert b.
Definition other_value (a b : Value) : Test unit := b ← same a b; assert (negb b).

(** The object of a reference. *)
Definition object (v : Value) : Test Obj :=
  match v with
  | Ref h => m ← heap; unwrap (E := Trap) (lookup_obj (mem_slots m) h)
  | _ => failed
  end.

(** ** Programs *)

(** The texts of doubles and the debug renderings in messages of traps, which no test
    looks at. *)
Definition no_digits (_ : f64) : string := "".
Definition no_debug (_ : Value) : string := "".

Abbreviation test_natives := (default_natives no_digits no_debug test_depth test_depth).

(** Instructions enough for the programs of the tests. *)
Definition test_fuel : nat := Z.to_nat 10000.

Definition outcome {A} (r : res Trap (Thread * A)) : Test (res Trap A) := λ w,
  match r with
  | Ok (w', a) => Some (w', Ok a)
  | Err t => Some (w, Err t)
  | Panic | NoFuel => None
  end.

(** [interp::run(&module, func, args)] *)
Definition run_program (module : Module) (func : nat) (args : list Value) : Test (res Trap Value) := λ w,
  outcome (run no_digits no_debug test_natives (runtime eager) test_fuel module w func args) w.

(** [eval(code, locals)] *)
Definition run_snippet (code : list Instr) (locals : list Value) : Test (res Trap Value) := λ w,
  outcome (eval no_digits no_debug test_natives test_fuel w code locals) w.

(** [Vm::new(&mut buf).call(&module, 0, vec![])]: the result and what was written *)
Definition run_into_buffer (module : Module) : Test (res Trap Value * list u8) := λ w,
  match call no_digits no_debug test_natives test_fuel module (mkVm [] [] (set_w_out w [])) 0%nat [] with
  | Ok (vm, v) => Some (set_w_out (vm_world vm) (w_out w), (Ok v, w_out (vm_world vm)))
  | Err t => Some (w, (Err t, []))
  | _ => None
  end.

(** [init_module(&m).unwrap()] *)
Definition initialise (module : Module) : Test unit := λ w,
  match init_module no_digits no_debug test_natives (runtime eager) test_fuel module w with
  | Ok w' => Some (w', tt)
  | _ => None
  end.

(** A function assembled by calls of the builder, its labels numbered in their order. *)
Coercion FnBuilder.CInstr : Instr >-> FnBuilder.cmd.

Declare Scope test_scope.
Notation "⟨ x ; .. ; y ⟩" := (@cons FnBuilder.cmd x .. (@cons FnBuilder.cmd y nil) ..) : test_scope.
Open Scope test_scope.

Definition built (name : string) (params : u16) (calls : list FnBuilder.cmd) : Test Function :=
  b ← unwrap (FnBuilder.run (FnBuilder.new name params) calls); unwrap (FnBuilder.finish b).

(** [t.to_string()], for a trap whose text has no size in it *)
Definition trap_text (t : Trap) : string := trap_message (λ _, "") t.

Definition type_name (v : Value) (module : option Module) : Test string :=
  m ← heap; unwrap (value_type_name m v module).

(** [assert_eq!(r, Ok(v))], [assert_eq!(r, Err(t))] and [assert!(matches!(r, Err(Trap::Bug(_))))] *)
Definition returns (r : res Trap Value) (v : Value) : Test unit :=
  match r with Ok u => same_value u v | _ => failed end.
Definition traps (r : res Trap Value) (t : Trap) : Test unit :=
  match r with Err u => equals u t | _ => failed end.
Definition is_bug (r : res Trap Value) : Test unit :=
  match r with Err (Bug _) => mret tt | _ => failed end.

(** ** Running tests *)

Definition fresh_thread : Thread := mkWorld (Mem_init DEFAULT_MAX_HEAP_BYTES) Scheduler_new None [] demo_runtime.

Definition passes (t : Test unit) : bool := match t fresh_thread with Some _ => true | None => false end.

(** The tests of a list that fail, by number. *)
Definition failures (tests : list (Test unit)) : list nat :=
  (filter (λ p, negb (passes p.2)) (imap pair tests)).*1.
