(* ===== verification/SerializeTests.v ===== *)
(** * The unit tests of [serialize.rs] *)

From Stdlib Require Import ZArith Lia.
From stdpp Require Import base numbers list strings gmap pretty.
From S2P Require Import Prelude Bytes Float64 Serialize Testing.

Open Scope Z_scope.

#[export] Instance DecodeError_eq_dec : EqDecision DecodeError.
Proof. solve_decision. Defined.

(** [héllo], in UTF-8. *)
Definition hello_text : string := of_bytes [104; 195; 169; 108; 108; 111].

Definition round_u (v : u64) : Test u64 :=
  let w := write_uvarint Writer_new v in '(v, _) ← unwrap (read_uvarint (Reader_new (into_bytes w))); mret v.

Definition round_i (v : i64) : Test i64 :=
  let w := write_ivarint Writer_new v in '(v, _) ← unwrap (read_ivarint (Reader_new (into_bytes w))); mret v.

Definition uvarint_round_trips : Test unit :=
  each [0; 1; 127; 128; 300; 16384; 2 ^ 32 - 1; 2 ^ 64 - 1] (λ v, r ← round_u v; equals r v).

Definition ivarint_round_trips : Test unit :=
  each [0; 1; -1; 63; 64; -64; -65; 1000; -1000; - 2 ^ 63; 2 ^ 63 - 1] (λ v, r ← round_i v; equals r v).

Definition uvarint_is_compact_for_small_values : Test unit :=
  _ ← equals (length (into_bytes (write_uvarint Writer_new 127))) 1%nat;
  equals (length (into_bytes (write_uvarint Writer_new 128))) 2%nat.

Definition fixed_and_text_fields_round_trip : Test unit :=
  let w := write_u8 Writer_new 0xAB in
  let w := write_u32_le w 0xDEADBEEF in
  let w := write_f64 w 0x400C000000000000 in
  let w := write_str w hello_text in
  let w := write_bytes w [1; 2; 3] in
  let r := Reader_new (into_bytes w) in
  '(v, r) ← unwrap (read_u8 r); _ ← equals v 0xAB;
  '(v, r) ← unwrap (read_u32_le r); _ ← equals v 0xDEADBEEF;
  '(v, r) ← unwrap (read_f64 r); _ ← equals v 0x400C000000000000;
  '(s, r) ← unwrap (read_str r); _ ← equals s hello_text;
  '(b, r) ← unwrap (read_bytes r); _ ← equals b [1; 2; 3];
  assert (is_empty r).

(** [assert_eq!(r, Err(e))] *)
Definition rejects {A} (r : res DecodeError A) (e : DecodeError) : Test unit :=
  match r with Err e' => equals e' e | _ => failed end.

Definition eof_on_empty_reader : Test unit := rejects (read_u8 (Reader_new [])) UnexpectedEof.

Definition truncated_varint_is_eof : Test unit := rejects (read_uvarint (Reader_new [0x80])) UnexpectedEof.

Definition overlong_varint_overflows : Test unit :=
  rejects (read_uvarint (Reader_new (replicate 11 0x80))) VarintOverflow.

Definition invalid_utf8_string : Test unit := rejects (read_str (Reader_new [0x01; 0xFF])) InvalidUtf8.

(** Every test passes. *)
Theorem serialize_tests_pass :
  failures
    [uvarint_round_trips; ivarint_round_trips; uvarint_is_compact_for_small_values; fixed_and_text_fields_round_trip;
     eof_on_empty_reader; truncated_varint_is_eof; overlong_varint_overflows; invalid_utf8_string] = [].
Proof. vm_compute. reflexivity. Qed.
