(* ===== verification/CodecTests.v ===== *)
(** * The unit tests of [codec.rs] *)

From Stdlib Require Import ZArith Lia.
From stdpp Require Import base numbers list strings gmap pretty.
From S2P Require Import Prelude Bytes Float64 Serialize Instr ModuleTable NativesTable Builder Codec CodecProofs System.
From S2P Require Import NativesFs Main Disasm Pool Demo Testing SerializeTests.
Import FnBuilder (cmd (..), jump_kind (..)).

Open Scope Z_scope.
Open Scope test_scope.

#[local] Existing Instance layout64.

#[local] Instance Function_eq_dec : EqDecision Function.
Proof. solve_decision. Defined.
#[local] Instance TypeDef_eq_dec : EqDecision TypeDef.
Proof. solve_decision. Defined.
#[local] Instance EnumDef_eq_dec : EqDecision EnumDef.
Proof. solve_decision. Defined.
#[local] Instance DispatchEntry_eq_dec : EqDecision DispatchEntry.
Proof. solve_decision. Defined.
#[local] Instance Module_eq_dec : EqDecision Module.
Proof. solve_decision. Defined.

Definition factorial_module : Test Module :=
  f ← built "fact" 1
    ⟨CLabel; Load 0; ConstInt 1; LeI64; CJump KIfFalse 0; ConstInt 1; Return;
     CBind 0; Load 0; Load 0; ConstInt 1; SubI64; Call 0 1; MulI64; Return⟩;
  mret (Module_new [f]).

Definition encoded (m : Module) : Test (list u8) := unwrap (encode_module m).
Definition decoded (bytes : list u8) : Test Module := unwrap (decode_module bytes).

(** [assert_eq!(decode_module(&encode_module(&m)), Ok(m))] *)
Definition round_trips (m : Module) : Test unit := b ← encoded m; d ← decoded b; equals d m.

Definition empty_module_round_trips : Test unit := round_trips (Module_new []).

Definition factorial_round_trips : Test unit := m ← factorial_module; round_trips m.

Definition disassembly_survives_round_trip : Test unit :=
  m ← factorial_module; b ← encoded m; d ← decoded b;
  s ← unwrap (disassemble no_digits (λ s, s) d); t ← unwrap (disassemble no_digits (λ s, s) m);
  equals s t.

Definition all_instructions : list Instr :=
  [ConstInt (-12345); ConstDouble 0x400C000000000000; ConstBool true; ConstUnit; ConstStr "hi"; Load 3; Store 4;
   GlobalGet 5; GlobalSet 6; AddI64; SubI64; MulI64; DivI64; ModI64; NegI64; AndI64; OrI64; XorI64; BNotI64; ShlI64;
   ShrI64; UShrI64; AddF64; SubF64; MulF64; DivF64; NegF64; EqI64; NeI64; LtI64; LeI64; GtI64; GeI64; EqF64; NeF64;
   LtF64; LeF64; GtF64; GeF64; Not; I64ToF64; F64ToI64; Pop; Dup; Call 7 2; CallNative 9 1; EnumNew 1 0 2; EnumTag;
   EnumGet 1; StructNew 0; FieldGet 1; FieldSet 2; ListNew 3; ClosureNew 4 2; CallIndirect 1; CallVirtual "display" 1;
   Jump 10; JumpIfTrue 11; JumpIfFalse 12; Return].

Definition all_instructions_round_trip : Test unit := round_trips (Module_new [Function_new "all" 0 5 all_instructions]).

Definition repeated_string_is_pooled_once : Test unit :=
  let m := Module_new [Function_new "f" 0 0 [ConstStr "hello"; ConstStr "hello"; ConstStr "hello"; Return]] in
  bytes ← encoded m;
  _ ← equals (windows (as_bytes "hello") bytes) 1%nat;
  d ← decoded bytes; equals d m.

(** A module of hand-written sections. *)
Definition sections (version : u32) (l : list (u8 * Writer)) : list u8 :=
  let w := write_u32_le (write_raw Writer_new MAGIC) version in
  into_bytes (foldl (λ w '(id, payload), write_section w id (into_bytes payload)) w l).

Definition rejects_out_of_range_const_index : Test unit :=
  let consts := write_uvarint Writer_new 0 in
  let funcs := foldl write_uvarint Writer_new [1; 0; 0; 2] in
  let funcs := write_u8 (write_uvarint (write_u8 funcs op.CONST_STR) 5) op.RETURN in
  rejects (decode_module (sections VERSION [(section.CONSTANTS, consts); (section.FUNCTIONS, funcs)]))
    ConstIndexOutOfRange.

Definition native_call_is_encoded_by_name : Test unit :=
  let m := Module_new [Function_new "f" 0 0 [ConstStr "hi"; CallNative NATIVE_PRINTLN 1; Return]] in
  bytes ← encoded m;
  _ ← assert (negb (Nat.eqb (windows (as_bytes "println") bytes) 0));
  d ← decoded bytes; equals d m.

Definition rejects_unknown_native : Test unit :=
  let consts := write_str (write_uvarint Writer_new 1) "bogus_native" in
  let funcs := foldl write_uvarint Writer_new [1; 0; 0; 2] in
  let funcs := write_u8 (foldl write_uvarint (write_u8 funcs op.CALL_NATIVE) [0; 0]) op.RETURN in
  rejects (decode_module (sections VERSION [(section.CONSTANTS, consts); (section.FUNCTIONS, funcs)]))
    (UnknownNative "bogus_native").

Definition module_with_types_round_trips : Test unit :=
  f ← built "make" 0 ⟨ConstInt 1; ConstInt 2; StructNew 0; FieldGet 1; Return⟩;
  round_trips (with_types [f] [TypeDef_new "Point" 2]).

Definition module_with_field_and_variant_names_round_trips : Test unit :=
  f ← built "make" 0 ⟨ConstInt 1; StructNew 0; Return⟩;
  let m := with_types [f] [TypeDef_named "Point" ["x"; "y"]%string; TypeDef_new "Bare" 1] in
  round_trips (set_enums m [EnumDef_new 3 "Color" ["Red"; "Green"]%string]).

Definition v2_module_without_names_still_decodes : Test unit :=
  let consts := write_str (write_uvarint Writer_new 1) "Point" in
  let types_section := foldl write_uvarint Writer_new [1; 0; 2] in
  d ← decoded (sections 2 [(section.CONSTANTS, consts); (section.TYPES, types_section)]);
  _ ← equals (types d) [TypeDef_new "Point" 2];
  _ ← equals (field_names <$> types d) [[]];
  equals (enums d) [].

Definition module_with_globals_round_trips : Test unit :=
  let init_thunk := Function_new "<init>" 0 0 [ConstInt 7; GlobalSet 0; ConstInt 9; GlobalSet 1; Return] in
  let main := Function_new "main" 0 0 [GlobalGet 1; Return] in
  let m := set_entry_init (set_global_count (Module_new [init_thunk; main]) 2) (Some 1) (Some 0) in
  b ← encoded m; d ← decoded b;
  _ ← equals (global_count d) 2; _ ← equals (entry d) (Some 1); _ ← equals (init d) (Some 0);
  equals d m.

Definition zero_globals_emit_no_section : Test unit :=
  m ← factorial_module; _ ← equals (global_count m) 0;
  b ← encoded m; d ← decoded b; equals (global_count d) 0.

Definition module_with_dispatch_table_round_trips : Test unit :=
  let describe := Function_new "describe" 1 1 [Load 0; CallVirtual "display" 1; Return] in
  round_trips (set_dispatch (with_types [describe] [TypeDef_new "Dog" 0]) [DispatchEntry_new 0 "display" 0]).

(** The file is on the demo system. *)
Definition file_round_trips : Test unit :=
  m ← factorial_module;
  let path := "/tmp/thera_codec_1.thera-bc"%string in
  let (os, written) := write_module_to_file path m demo_sim in
  written ← unwrap written; _ ← assert (if written is inr _ then true else false);
  loaded ← unwrap (read_module_from_file path os).2; equals loaded m.

Definition rejects_bad_magic : Test unit :=
  rejects (decode_module (as_bytes "XXXX" ++ [1; 0; 0; 0])) BadMagic.

Definition rejects_unsupported_version : Test unit :=
  rejects (decode_module (sections 999 [])) (UnsupportedVersion 999).

Definition rejects_unknown_opcode : Test unit :=
  let funcs := write_u8 (foldl write_uvarint Writer_new [1; 0; 0; 1]) 0xFF in
  rejects (decode_module (sections VERSION [(section.FUNCTIONS, funcs)])) (UnknownOpcode 0xFF).

(** Every test passes. *)
Theorem codec_tests_pass :
  failures
    [empty_module_round_trips; factorial_round_trips; disassembly_survives_round_trip; all_instructions_round_trip;
     repeated_string_is_pooled_once; rejects_out_of_range_const_index; native_call_is_encoded_by_name;
     rejects_unknown_native; module_with_types_round_trips; module_with_field_and_variant_names_round_trips;
     v2_module_without_names_still_decodes; module_with_globals_round_trips; zero_globals_emit_no_section;
     module_with_dispatch_table_round_trips; file_round_trips; rejects_bad_magic; rejects_unsupported_version;
     rejects_unknown_opcode] = [].
Proof. vm_compute. reflexivity. Qed.
