(* ===== verification/HeapTests.v ===== *)
(** * The unit tests of [heap.rs] *)

From Stdlib Require Import ZArith Lia.
From stdpp Require Import base numbers list strings gmap pretty.
From S2P Require Import Prelude Bytes Float64 Value Heap Trap Testing.

Open Scope Z_scope.

(** The next allocation arms a collection. *)
Definition lower_threshold_to_zero : Test unit :=
  m ← heap; let h := HEAP m in set_memory (set_heap m (mkHeap (slots h) (free h) (heap_bytes h) 0 (marked h))).

Definition objects : Test nat := m ← heap; mret (object_count m).
Definition gc_pending : Test bool := m ← heap; mret (GC_PENDING m).
Definition set_pending (b : bool) : Test unit :=
  m ← heap; set_memory (mkMem (HEAP m) b (GC_PAUSED m) (MAX_HEAP m) (INTERN m) (GLOBALS m)).

(** Update the heap by an operation of [heap.rs]. *)
Definition update (f : Mem → res Trap Mem) : Test unit := m ← heap; m ← unwrap (f m); set_memory m.
Definition collecting (roots : list Value) : Test unit := update (λ m, collect m roots).

Definition child_values (v : Value) : Test (list Value) := o ← object v; mret (for_each_child o).

Definition garbage (n : nat) : Test unit := each (seq 0 n) (λ i, _ ← text ("garbage-" +:+ pretty i); mret tt).

Definition alloc_grows_and_handles_are_distinct : Test unit :=
  before ← objects;
  a ← text "x"; b ← text "x";
  n ← objects; _ ← equals n (before + 2)%nat;
  _ ← differs a b;
  same_value a b.

Definition structural_equality_recurses_through_the_heap : Test unit :=
  hi ← text "hi"; a ← list_of [hi; Int 1];
  hi ← text "hi"; b ← list_of [hi; Int 1];
  ho ← text "ho"; c ← list_of [ho; Int 1];
  _ ← same_value a b; other_value a c.

Definition child_values_is_the_trace_primitive : Test unit :=
  s ← text "k"; list ← list_of [s; Int 7];
  l ← child_values list; _ ← equals l [s; Int 7];
  l ← child_values s; equals l [].

Definition collect_reclaims_unreachable_objects : Test unit :=
  before ← objects;
  live_text ← text "live"; kept ← list_of [live_text];
  _ ← garbage 50;
  n ← objects; _ ← equals n (before + 52)%nat;
  _ ← collecting [kept];
  n ← objects; _ ← assert (Nat.leb n 2);
  children ← child_values kept; _ ← equals (length children) 1%nat;
  child ← present (head children); v ← text "live"; same_value child v.

Definition freed_slots_are_reused : Test unit :=
  _ ← garbage 30;
  _ ← collecting []; n ← objects; _ ← equals n 0%nat;
  a ← text "a"; b ← text "b"; n ← objects; _ ← equals n 2%nat;
  v ← text "a"; _ ← same_value a v; other_value a b.

Definition alloc_arms_collection_at_the_byte_threshold : Test unit :=
  _ ← lower_threshold_to_zero;
  _ ← text "dead";
  armed ← gc_pending; _ ← assert armed;
  _ ← update (λ m, maybe_collect m []);
  n ← objects; _ ← equals n 0%nat;
  armed ← gc_pending; assert (negb armed).

Definition threshold_growth_is_adaptive : Test unit :=
  _ ← equals (next_threshold 1000 900 0) 3600;
  _ ← equals (next_threshold 1000 400 0) 800;
  _ ← equals (next_threshold 1000 750 0) 1500;
  _ ← equals (next_threshold 1000 10 1024) 1024;
  equals (next_threshold 0 0 1024) 1024.

Definition globals_are_permanent_roots : Test unit :=
  _ ← update (λ m, Ok (set_globals m 2));
  alive ← text "alive"; kept ← list_of [alive];
  m ← heap; m ← present (global_set m 0 kept); _ ← set_memory m;
  _ ← text "dead";
  _ ← collecting [];
  m ← heap; g ← present (global_get m 0);
  children ← child_values g; _ ← equals (length children) 1%nat;
  child ← present (head children); v ← text "alive"; _ ← same_value child v;
  m ← heap; _ ← equals (global_get m 99) None;
  _ ← assert (if global_set m 99 Unit is None then true else false);
  update (λ m, Ok (set_globals m 0)).

Definition ceiling_arms_collection_and_reports_the_live_overage : Test unit :=
  _ ← update (λ m, Ok (set_max_heap m 1));
  _ ← text "data"; armed ← gc_pending; _ ← assert armed;
  _ ← collecting []; m ← heap; _ ← equals (over_ceiling m) None;
  kept ← text "data"; _ ← collecting [kept];
  m ← heap; '(live_bytes, limit) ← present (over_ceiling m); _ ← assert (limit <? live_bytes);
  _ ← update (λ m, Ok (set_max_heap m (2 ^ 64 - 1))); set_pending false.

Definition paused_collection_is_a_noop : Test unit :=
  kept ← text "keep"; _ ← text "drop";
  _ ← set_pending true;
  _ ← update (λ m, Ok (pause_gc m));
  _ ← update (λ m, maybe_collect m []);
  _ ← update (λ m, Ok (resume_gc m));
  v ← text "keep"; _ ← same_value kept v;
  set_pending false.

(** Every test passes. *)
Theorem heap_tests_pass :
  failures
    [alloc_grows_and_handles_are_distinct; structural_equality_recurses_through_the_heap;
     child_values_is_the_trace_primitive; collect_reclaims_unreachable_objects; freed_slots_are_reused;
     alloc_arms_collection_at_the_byte_threshold; threshold_growth_is_adaptive; globals_are_permanent_roots;
     ceiling_arms_collection_and_reports_the_live_overage; paused_collection_is_a_noop] = [].
Proof. vm_compute. reflexivity. Qed.
