(* ===== verification/MapTests.v ===== *)
(** * The unit tests of [map.rs] *)

From Stdlib Require Import ZArith Lia.
From stdpp Require Import base numbers list strings gmap pretty.
From S2P Require Import Prelude Bytes Float64 Value Heap MapObj Trap Testing.

Open Scope Z_scope.

(** Keys compare on the heap of the thread. *)
Definition on_keys {A} (f : (Value → Value → res Trap bool) → res Trap A) : Test A :=
  m ← heap; unwrap (f (values_eq test_depth (mem_slots m))).

Definition hash (v : Value) : Test u64 := m ← heap; unwrap (E := Trap) (hash_value test_depth (mem_slots m) v).

Definition put (m : MapObj) (k v : Value) : Test MapObj := h ← hash k; on_keys (λ eqb, map_insert eqb m k h v).
Definition got (m : MapObj) (k : Value) : Test (option Value) := h ← hash k; on_keys (λ eqb, map_get eqb m k h).
Definition contains (m : MapObj) (k : Value) : Test bool := h ← hash k; on_keys (λ eqb, map_contains eqb m k h).
Definition removed (m : MapObj) (k : Value) : Test (MapObj * option Value) :=
  h ← hash k; on_keys (λ eqb, map_remove eqb m k h).

Definition count_to (n : nat) : list i64 := Z.of_nat <$> seq 0 n.

(** [for i in 0..n { put(&mut m, int(i), int(f(i))) }] *)
Definition put_ints (n : nat) (f : i64 → i64) : Test MapObj :=
  folded (count_to n) map_default (λ m i, put m (Int i) (Int (f i))).

Definition linear_below_threshold_then_hashed_above : Test unit :=
  let n := (HASH_THRESHOLD * 4)%nat in
  m ← put_ints n (λ i, i * 10);
  _ ← equals (map_len m) n;
  _ ← assert (negb (Nat.eqb (length (index m)) 0));
  _ ← each (count_to n) (λ i,
    v ← got m (Int i); _ ← equals v (Some (Int (i * 10)));
    b ← contains m (Int i); assert b);
  let absent := Int (Z.of_nat n) in
  v ← got m absent; _ ← equals v None;
  b ← contains m absent; assert (negb b).

Definition update_keeps_position_and_count : Test unit :=
  m ← put_ints 40 (λ i, i);
  m ← put m (Int 5) (Int 999);
  _ ← equals (map_len m) 40%nat;
  v ← got m (Int 5); _ ← equals v (Some (Int 999));
  equals (entries m !! 5%nat) (Some (Int 5, Int 999)).

Definition insertion_order_preserved_across_threshold : Test unit :=
  m ← put_ints 30 (λ i, i); equals ((entries m).*1) (Int <$> count_to 30).

Definition remove_rebuilds_and_stays_correct : Test unit :=
  m ← put_ints 30 (λ i, i);
  '(m, v) ← removed m (Int 10); _ ← equals v (Some (Int 10));
  '(m, v) ← removed m (Int 0); _ ← equals v (Some (Int 0));
  '(m, v) ← removed m (Int 999); _ ← equals v None;
  _ ← equals (map_len m) 28%nat;
  each (drop 1 (count_to 30)) (λ i,
    v ← got m (Int i); equals v (if i =? 10 then None else Some (Int i))).

Definition string_keys_match_by_content_not_handle : Test unit :=
  m ← folded (count_to 30) map_default (λ m i, k ← text ("k" +:+ pretty i); put m k (Int i));
  _ ← each (count_to 30) (λ i, probe ← text ("k" +:+ pretty i); v ← got m probe; equals v (Some (Int i)));
  k ← text "absent"; v ← got m k; equals v None.

Definition equal_values_hash_equal : Test unit :=
  a ← text "hello"; a ← hash a; b ← text "hello"; b ← hash b; _ ← equals a b;
  a ← hash (Double 0); b ← hash (Double (2 ^ 63)); equals a b.

Definition from_pairs_dedups_last_wins : Test unit :=
  s ← heap;
  m ← on_keys (λ eqb, from_pairs eqb (hash_value test_depth (mem_slots s))
    [(Int 1, Int 1); (Int 2, Int 2); (Int 1, Int 100)]);
  _ ← equals (map_len m) 2%nat;
  v ← got m (Int 1); _ ← equals v (Some (Int 100));
  equals (entries m !! 0%nat) (Some (Int 1, Int 100)).

(** Every test passes. *)
Theorem map_tests_pass :
  failures
    [linear_below_threshold_then_hashed_above; update_keeps_position_and_count;
     insertion_order_preserved_across_threshold; remove_rebuilds_and_stays_correct;
     string_keys_match_by_content_not_handle; equal_values_hash_equal; from_pairs_dedups_last_wins] = [].
Proof. vm_compute. reflexivity. Qed.
