(* ===== verification/BuilderTests.v ===== *)
(** * The unit tests of [builder.rs] *)

From Stdlib Require Import ZArith Lia.
From stdpp Require Import base numbers list strings gmap pretty.
From S2P Require Import Prelude Bytes Float64 Instr ModuleTable Builder Value Trap Testing.
Import FnBuilder (cmd (..), jump_kind (..)).

Open Scope Z_scope.
Open Scope test_scope.

Definition labels_resolve_forward_and_backward : Test unit :=
  f ← built "max" 2
    ⟨CLabel; Load 0; Load 1; LtI64; CJump KIfFalse 0; Load 1; Return; CBind 0; Load 0; Return⟩;
  let module := Module_new [f] in
  r ← run_program module 0 [Int 3; Int 7]; _ ← returns r (Int 7);
  r ← run_program module 0 [Int 9; Int 2]; returns r (Int 9).

Definition local_count_tracks_highest_slot : Test unit :=
  f ← built "f" 0 ⟨ConstInt 5; Store 3; Load 3; Return⟩;
  _ ← equals (local_count f) 4; equals (param_count f) 0.

Definition backward_jump_loop : Test unit :=
  f ← built "sum" 0
    ⟨CLabel; CLabel; ConstInt 0; Store 1; ConstInt 0; Store 0;
     CBind 0; Load 0; ConstInt 5; LtI64; CJump KIfFalse 1; Load 1; Load 0; AddI64; Store 1; Load 0; ConstInt 1; AddI64;
     Store 0; CJump KJump 0; CBind 1; Load 1; Return⟩;
  r ← run_program (Module_new [f]) 0 []; returns r (Int 10).

Definition unbound_label_panics : Test unit :=
  let (b, target) := FnBuilder.label (FnBuilder.new "bad" 0) in
  panics (FnBuilder.finish (FnBuilder.jump b target)).

(** Every test passes. *)
Theorem builder_tests_pass :
  failures
    [labels_resolve_forward_and_backward; local_count_tracks_highest_slot; backward_jump_loop; unbound_label_panics] = [].
Proof. vm_compute. reflexivity. Qed.
