(* ===== verification/DisasmTests.v ===== *)
(** * The unit tests of [disasm.rs] *)

From Stdlib Require Import ZArith Lia.
From stdpp Require Import base numbers list strings gmap pretty.
From S2P Require Import Prelude Bytes Float64 Instr ModuleTable Builder Utf8 NativesText Disasm Testing CodecTests.

Open Scope Z_scope.

(** [s.split_whitespace().collect::<Vec<_>>().join(" ")] *)
Definition normalized (s : string) : list u8 :=
  match (as_bytes ∘ of_chars) <$> split_ws [] (chars s) with
  | [] => []
  | w :: ws => w ++ (ws ≫= λ w, 32 :: w)
  end.

(** [norm.contains(s)] *)
Definition mentions (norm : list u8) (s : string) : Test unit := assert (negb (Nat.eqb (windows (as_bytes s) norm) 0)).

(** [text.lines()] of a text whose lines all end *)
Fixpoint lines_of (bytes line : list u8) : list (list u8) :=
  match bytes with
  | [] => match line with [] => [] | _ => [line] end
  | b :: bytes' => if b =? newline then line :: lines_of bytes' [] else lines_of bytes' (line ++ [b])
  end.

Definition disassembled (m : Module) : Test string := unwrap (disassemble no_digits (λ s, s) m).

Definition disassembles_factorial : Test unit :=
  m ← factorial_module; text ← disassembled m;
  let norm := normalized text in
  _ ← mentions norm "fn fact (params=1, locals=1)";
  _ ← mentions norm "0000 load 0";
  _ ← mentions norm "0002 le.i64";
  _ ← mentions norm "0003 jump_if_false -> 0006";
  _ ← mentions norm "0010 call fn#0 fact, argc=1";
  mentions norm "0012 return".

Definition header_and_line_count : Test unit :=
  m ← factorial_module; text ← disassembled m;
  let lines := lines_of (as_bytes text) [] in
  _ ← equals (head lines) (Some (as_bytes "fn fact  (params=1, locals=1)"));
  equals (length lines) 14%nat.

Definition disassembles_closure_ops : Test unit :=
  let adder := Function_new "adder" 2 2 [Return] in
  let main := Function_new "main" 0 0 [ConstInt 10; ClosureNew 1 1; ConstInt 5; CallIndirect 1; Return] in
  text ← disassembled (Module_new [main; adder]);
  let norm := normalized text in
  _ ← mentions norm "closure.new fn#1 adder, captures=1";
  mentions norm "call.indirect argc=1".

(** Every test passes. *)
Theorem disasm_tests_pass : failures [disassembles_factorial; header_and_line_count; disassembles_closure_ops] = [].
Proof. vm_compute. reflexivity. Qed.
