(* ===== verification/InterpTests.v ===== *)
(** * The unit tests of [interp/mod.rs] *)

From Stdlib Require Import ZArith Lia.
From stdpp Require Import base numbers list strings gmap pretty.
From S2P Require Import Prelude Bytes Float64 Instr ModuleTable NativesTable Builder Value Heap Trap Interp Driver NativesText Testing.
Import FnBuilder (cmd (..), jump_kind (..)).

Open Scope Z_scope.
Open Scope test_scope.

Definition RESULT : u32 := 0.
Definition OPTION : u32 := 1.

Definition I64_MAX : i64 := 2 ^ 63 - 1.
Definition I64_MIN : i64 := - 2 ^ 63.

(** The doubles of the tests. *)
Definition f64_1_5 : f64 := 0x3FF8000000000000.
Definition f64_2 : f64 := 0x4000000000000000.
Definition f64_3 : f64 := 0x4008000000000000.
Definition f64_3_5 : f64 := 0x400C000000000000.
Definition f64_3_9 : f64 := 0x400F333333333333.

Definition run (code : list Instr) : Test (res Trap Value) := run_snippet code [].

Definition returns_constant : Test unit := r ← run [ConstInt 7; Return]; returns r (Int 7).

Definition empty_return_is_unit : Test unit := r ← run [Return]; returns r Unit.

Definition init_thunk_fills_globals_before_entry : Test unit :=
  let init := Function_new "<init>" 0 0 [ConstInt 40; ConstInt 2; AddI64; GlobalSet 0; Return] in
  let main := Function_new "main" 0 0 [GlobalGet 0; Return] in
  let m := set_global_count (Module_new [init; main]) 1 in
  _ ← initialise m;
  entry ← present (function_index m "main");
  r ← run_program m entry []; _ ← returns r (Int 42);
  m ← heap; set_memory (set_globals m 0).

Definition integer_arithmetic : Test unit :=
  r ← run [ConstInt 2; ConstInt 3; AddI64; ConstInt 4; MulI64; Return]; returns r (Int 20).

Definition bitwise_and_or_xor_not : Test unit :=
  r ← run [ConstInt 12; ConstInt 10; AndI64; Return]; _ ← returns r (Int 8);
  r ← run [ConstInt 12; ConstInt 10; OrI64; Return]; _ ← returns r (Int 14);
  r ← run [ConstInt 12; ConstInt 10; XorI64; Return]; _ ← returns r (Int 6);
  r ← run [ConstInt 0; BNotI64; Return]; returns r (Int (-1)).

Definition shifts_arithmetic_vs_logical : Test unit :=
  r ← run [ConstInt 1; ConstInt 4; ShlI64; Return]; _ ← returns r (Int 16);
  r ← run [ConstInt (-8); ConstInt 1; ShrI64; Return]; _ ← returns r (Int (-4));
  r ← run [ConstInt (-1); ConstInt 1; UShrI64; Return]; _ ← returns r (Int I64_MAX);
  r ← run [ConstInt 1; ConstInt 64; ShlI64; Return]; returns r (Int 1).

Definition subtraction_is_ordered : Test unit :=
  r ← run [ConstInt 10; ConstInt 3; SubI64; Return]; returns r (Int 7).

Definition division_truncates_toward_zero : Test unit :=
  r ← run [ConstInt 7; ConstInt 2; DivI64; Return]; returns r (Int 3).

Definition modulo : Test unit := r ← run [ConstInt 7; ConstInt 3; ModI64; Return]; returns r (Int 1).

Definition integer_overflow_wraps : Test unit :=
  r ← run [ConstInt I64_MAX; ConstInt 1; AddI64; Return]; returns r (Int I64_MIN).

Definition division_by_zero_traps : Test unit :=
  r ← run [ConstInt 1; ConstInt 0; DivI64; Return]; traps r DivByZero.

Definition modulo_by_zero_traps : Test unit :=
  r ← run [ConstInt 1; ConstInt 0; ModI64; Return]; traps r DivByZero.

Definition comparison : Test unit := r ← run [ConstInt 2; ConstInt 3; LtI64; Return]; returns r (Bool true).

Definition float_arithmetic_and_compare : Test unit :=
  r ← run [ConstDouble f64_1_5; ConstDouble f64_2; AddF64; Return]; returns r (Double f64_3_5).

Definition conversions : Test unit :=
  r ← run [ConstInt 3; I64ToF64; Return]; _ ← returns r (Double f64_3);
  r ← run [ConstDouble f64_3_9; F64ToI64; Return]; returns r (Int 3).

Definition boolean_not : Test unit := r ← run [ConstBool true; Not; Return]; returns r (Bool false).

Definition dup_and_pop : Test unit :=
  r ← run [ConstInt 5; Dup; AddI64; Return]; _ ← returns r (Int 10);
  r ← run [ConstInt 1; ConstInt 2; Pop; Return]; returns r (Int 1).

Definition locals_store_and_load : Test unit :=
  r ← run_snippet [ConstInt 42; Store 0; Load 0; Return] [Unit]; returns r (Int 42).

Definition unconditional_jump_skips_instructions : Test unit :=
  r ← run [ConstInt 42; Jump 4; ConstInt 999; Return; Return]; returns r (Int 42).

Definition branch (a b : i64) : Test (res Trap Value) :=
  run [ConstInt a; ConstInt b; LtI64; JumpIfFalse 6; ConstInt 100; Return; ConstInt 200; Return].

Definition conditional_branch_taken_and_not_taken : Test unit :=
  r ← branch 2 3; _ ← returns r (Int 100);
  r ← branch 3 2; returns r (Int 200).

Definition jump_if_true : Test unit :=
  r ← run [ConstBool true; JumpIfTrue 4; ConstInt 0; Return; ConstInt 1; Return]; returns r (Int 1).

Definition counted_loop_sums_range : Test unit :=
  let code :=
    [ConstInt 0; Store 1; ConstInt 0; Store 0; Load 0; ConstInt 5; LtI64; JumpIfFalse 17; Load 1; Load 0;
     AddI64; Store 1; Load 0; ConstInt 1; AddI64; Store 0; Jump 4; Load 1; Return] in
  r ← run_snippet code [Unit; Unit]; returns r (Int 10).

Definition type_mismatch_is_a_type_error : Test unit :=
  r ← run [ConstBool true; ConstInt 1; AddI64; Return]; traps r (TypeError "Int" "Bool").

Definition type_error_renders_as_a_runtime_type_error_not_an_internal_error : Test unit :=
  let t := TypeError "Int" "String" in
  _ ← equals (trap_text t) "runtime type error: expected Int, found String"%string;
  equals (trap_text (bug "stack underflow")) "internal error (malformed bytecode): stack underflow"%string.

Definition type_error_names_a_struct_found_value_via_the_type_table : Test unit :=
  let m := with_types [Function_new "f" 0 0 [Return]] [TypeDef_new "Point" 2] in
  point ← struct_of 0 [Int 1; Int 2];
  n ← type_name point (Some m); _ ← equals n "Point"%string;
  let m2 := set_enums m [EnumDef_new 3 "Color" ["Red"%string]] in
  red ← enum_of 3 0 [];
  n ← type_name red (Some m2); _ ← equals n "Color"%string;
  n ← type_name red None; equals n "an enum"%string.

(** ** Functions and calls *)

Definition simple_call : Test unit :=
  let main := Function_new "main" 0 0 [ConstInt 21; Call 1 1; Return] in
  let double := Function_new "double" 1 1 [Load 0; ConstInt 2; MulI64; Return] in
  r ← run_program (Module_new [main; double]) 0 []; returns r (Int 42).

Definition argument_order_is_preserved : Test unit :=
  let sub := Function_new "sub" 2 2 [Load 0; Load 1; SubI64; Return] in
  r ← run_program (Module_new [sub]) 0 [Int 10; Int 3]; returns r (Int 7).

Definition recursive_factorial : Test unit :=
  fact ← built "fact" 1
    ⟨CLabel; Load 0; ConstInt 1; LeI64; CJump KIfFalse 0; ConstInt 1; Return;
     CBind 0; Load 0; Load 0; ConstInt 1; SubI64; Call 0 1; MulI64; Return⟩;
  let module := Module_new [fact] in
  r ← run_program module 0 [Int 5]; _ ← returns r (Int 120);
  r ← run_program module 0 [Int 0]; returns r (Int 1).

Definition recursive_fibonacci : Test unit :=
  let fib := Function_new "fib" 1 1
    [Load 0; ConstInt 2; LtI64; JumpIfFalse 6; Load 0; Return; Load 0; ConstInt 1; SubI64; Call 0 1;
     Load 0; ConstInt 2; SubI64; Call 0 1; AddI64; Return] in
  r ← run_program (Module_new [fib]) 0 [Int 10]; returns r (Int 55).

Definition void_function_returns_unit : Test unit :=
  let main := Function_new "main" 0 0 [Call 1 0; Return] in
  let f := Function_new "f" 0 0 [Return] in
  r ← run_program (Module_new [main; f]) 0 []; returns r Unit.

Definition unknown_function_is_a_bug : Test unit := r ← run_program (Module_new []) 0 []; is_bug r.

Definition arity_mismatch_is_a_bug : Test unit :=
  let main := Function_new "main" 0 0 [Call 1 0; Return] in
  let g := Function_new "g" 1 1 [Load 0; Return] in
  r ← run_program (Module_new [main; g]) 0 []; is_bug r.

(** ** Enums and the heap *)

Definition enum_tag : Test unit :=
  r ← run [ConstInt 42; EnumNew RESULT TAG_OK 1; EnumTag; Return]; _ ← returns r (Int 0);
  r ← run [EnumNew OPTION TAG_NONE 0; EnumTag; Return]; returns r (Int 1).

Definition enum_get_payload : Test unit :=
  r ← run [ConstInt 42; EnumNew RESULT TAG_OK 1; EnumGet 0; Return]; returns r (Int 42).

Definition enum_value_is_constructed : Test unit :=
  r ← run [ConstInt 7; EnumNew OPTION TAG_SOME 1; Return];
  v ← enum_of OPTION TAG_SOME [Int 7]; returns r v.

Definition structural_equality : Test unit :=
  a ← enum_of RESULT TAG_OK [Int 1]; b ← enum_of RESULT TAG_OK [Int 1]; _ ← same_value a b;
  c ← enum_of RESULT TAG_ERR [Int 1]; _ ← other_value a c;
  c ← enum_of RESULT TAG_OK [Int 2]; _ ← other_value a c;
  c ← enum_of OPTION TAG_SOME [Int 1]; other_value a c.

Definition question_mark_propagation : Test unit :=
  f ← built "f" 1
    ⟨CLabel; Load 0; Dup; EnumTag; ConstInt TAG_ERR; EqI64; CJump KIfFalse 0; Return;
     CBind 0; EnumGet 0; Store 1; Load 1; ConstInt 10; AddI64; EnumNew RESULT TAG_OK 1; Return⟩;
  let module := Module_new [f] in
  v ← enum_of RESULT TAG_OK [Int 5]; r ← run_program module 0 [v];
  v ← enum_of RESULT TAG_OK [Int 15]; _ ← returns r v;
  v ← enum_of RESULT TAG_ERR [Int 99]; r ← run_program module 0 [v];
  v ← enum_of RESULT TAG_ERR [Int 99]; returns r v.

Definition match_on_option : Test unit :=
  let f := Function_new "f" 1 1
    [Load 0; EnumTag; ConstInt TAG_SOME; EqI64; JumpIfFalse 8; Load 0; EnumGet 0; Return; ConstInt (-1); Return] in
  let module := Module_new [f] in
  v ← enum_of OPTION TAG_SOME [Int 7]; r ← run_program module 0 [v]; _ ← returns r (Int 7);
  v ← enum_of OPTION TAG_NONE []; r ← run_program module 0 [v]; returns r (Int (-1)).

Definition enum_tag_on_non_enum_is_a_type_error : Test unit :=
  r ← run [ConstInt 1; EnumTag; Return]; traps r (TypeError "an enum" "Int").

(** ** Natives and observable output *)

(** The result and the output of a snippet, run with a buffer of its own. *)
Definition run_capturing (code : list Instr) : Test (res Trap Value * list u8) :=
  run_into_buffer (Module_new [Function_new "<eval>" 0 0 code]).

Definition int_to_string_primitive : Test unit :=
  r ← run [ConstInt 42; CallNative NATIVE_INT_TO_STRING 1; Return]; v ← text "42"; returns r v.

Definition str_concat_joins_strings : Test unit :=
  r ← run [ConstStr "foo"; ConstStr "bar"; CallNative NATIVE_STR_CONCAT 2; Return];
  v ← text "foobar"; returns r v.

Definition println_writes_to_output : Test unit :=
  '(r, output) ← run_capturing [ConstStr "hello"; CallNative NATIVE_PRINTLN 1; Return];
  _ ← returns r Unit; equals output (as_bytes "hello" ++ [newline]).

Definition interpolation_pipeline : Test unit :=
  '(r, output) ← run_capturing
    [ConstStr "x = "; ConstInt 7; CallNative NATIVE_INT_TO_STRING 1; CallNative NATIVE_STR_CONCAT 2;
     CallNative NATIVE_PRINTLN 1; Return];
  _ ← returns r Unit; equals output (as_bytes "x = 7" ++ [newline]).

Definition unknown_native_is_a_bug : Test unit := r ← run [CallNative 999 0]; is_bug r.

Definition str_concat_on_non_string_is_a_bug : Test unit :=
  r ← run [ConstInt 1; ConstInt 2; CallNative NATIVE_STR_CONCAT 2; Return]; is_bug r.

(** ** Collections *)

(** Build and run a parameterless function. *)
Definition run_fn (calls : list cmd) : Test (res Trap Value) :=
  f ← built "test" 0 calls; run_program (Module_new [f]) 0 [].

Definition push_int_list (items : list i64) : list cmd :=
  ((λ n, CInstr (ConstInt n)) <$> items) ++ ⟨ListNew (Z.of_nat (length items))⟩.

Definition list_literal_and_len : Test unit :=
  r ← run_fn (push_int_list [10; 20; 30] ++ ⟨CallNative NATIVE_LIST_LEN 1; Return⟩); returns r (Int 3).

Definition list_index_reads_element : Test unit :=
  r ← run_fn (push_int_list [10; 20; 30] ++ ⟨ConstInt 1; ListGet; Return⟩); returns r (Int 20).

Definition list_index_out_of_bounds_traps : Test unit :=
  r ← run_fn (push_int_list [10] ++ ⟨ConstInt 5; ListGet; Return⟩); traps r (IndexOutOfBounds 5 1).

Definition unbounded_allocation_traps_out_of_memory : Test unit :=
  m ← heap; _ ← set_memory (set_max_heap m (256 * 1024));
  r ← run_fn ⟨ConstStr "xxxxxxxxxxxxxxxx"; Store 0; CLabel; CBind 0; Load 0; Load 0; CallNative NATIVE_STR_CONCAT 2;
              Store 0; CJump KJump 0⟩;
  m ← heap; _ ← set_memory (set_max_heap m (2 ^ 64 - 1));
  match r with Err (OutOfMemory _ _) => mret tt | _ => failed end.

Definition list_push_appends_in_place : Test unit :=
  push ← present (native_index "list_push");
  r ← run_fn (push_int_list [1; 2] ++
    ⟨Store 0; Load 0; ConstInt 3; CallNative push 2; Pop; Load 0; CallNative NATIVE_LIST_LEN 1; Return⟩);
  returns r (Int 3).

Definition list_pop_removes_last_and_returns_option : Test unit :=
  pop ← present (native_index "list_pop");
  r ← run_fn (push_int_list [1; 2] ++ ⟨CallNative pop 1; Return⟩);
  v ← some_of (Int 2); _ ← returns r v;
  r ← run_fn (push_int_list [1; 2] ++
    ⟨Store 0; Load 0; CallNative pop 1; Pop; Load 0; CallNative NATIVE_LIST_LEN 1; Return⟩);
  _ ← returns r (Int 1);
  r ← run_fn (push_int_list [] ++ ⟨CallNative pop 1; Return⟩);
  v ← none_of; returns r v.

Definition list_get_returns_option : Test unit :=
  r ← run_fn (push_int_list [10; 20] ++ ⟨ConstInt 1; CallNative NATIVE_LIST_GET 2; Return⟩);
  v ← some_of (Int 20); _ ← returns r v;
  r ← run_fn (push_int_list [10; 20] ++ ⟨ConstInt 9; CallNative NATIVE_LIST_GET 2; Return⟩);
  v ← none_of; returns r v.

Definition list_set_mutates_in_place : Test unit :=
  r ← run_fn (push_int_list [10; 20] ++
    ⟨Store 0; Load 0; ConstInt 0; ConstInt 99; ListSet; Load 0; ConstInt 0; ListGet; Return⟩);
  returns r (Int 99).

Definition reference_semantics_aliasing : Test unit :=
  r ← run_fn (push_int_list [1] ++
    ⟨Store 0; Load 0; Store 1; Load 0; ConstInt 0; ConstInt 42; ListSet; Load 1; ConstInt 0; ListGet; Return⟩);
  returns r (Int 42).

Definition push_ab_map : list cmd :=
  ⟨ConstStr "a"; ConstInt 1; ConstStr "b"; ConstInt 2; CallNative NATIVE_MAP_NEW 4⟩.

Definition map_literal_index_and_len : Test unit :=
  r ← run_fn (push_ab_map ++ ⟨CallNative NATIVE_MAP_LEN 1; Return⟩); _ ← returns r (Int 2);
  r ← run_fn (push_ab_map ++ ⟨ConstStr "b"; CallNative NATIVE_MAP_INDEX 2; Return⟩); returns r (Int 2).

Definition map_index_missing_key_traps : Test unit :=
  r ← run_fn (push_ab_map ++ ⟨ConstStr "zzz"; CallNative NATIVE_MAP_INDEX 2; Return⟩);
  traps r (MissingKey "'zzz'").

Definition map_get_and_has : Test unit :=
  r ← run_fn (push_ab_map ++ ⟨ConstStr "a"; CallNative NATIVE_MAP_GET 2; Return⟩);
  v ← some_of (Int 1); _ ← returns r v;
  r ← run_fn (push_ab_map ++ ⟨ConstStr "x"; CallNative NATIVE_MAP_GET 2; Return⟩);
  v ← none_of; _ ← returns r v;
  r ← run_fn (push_ab_map ++ ⟨ConstStr "a"; CallNative NATIVE_MAP_HAS 2; Return⟩); returns r (Bool true).

Definition map_set_updates_and_inserts : Test unit :=
  r ← run_fn
    ⟨ConstStr "a"; ConstInt 1; CallNative NATIVE_MAP_NEW 2; Store 0;
     Load 0; ConstStr "a"; ConstInt 9; CallNative NATIVE_MAP_SET 3; Pop;
     Load 0; ConstStr "c"; ConstInt 3; CallNative NATIVE_MAP_SET 3; Pop;
     Load 0; ConstStr "a"; CallNative NATIVE_MAP_INDEX 2; Load 0; ConstStr "c"; CallNative NATIVE_MAP_INDEX 2; AddI64;
     Load 0; CallNative NATIVE_MAP_LEN 1; AddI64; Return⟩;
  returns r (Int 14).

Definition list_index_on_non_list_is_a_type_error : Test unit :=
  r ← run_fn ⟨ConstInt 1; ConstInt 0; ListGet; Return⟩; traps r (TypeError "a List" "Int").

(** ** Structs and the type table *)

Definition run_with_types (types : list TypeDef) (calls : list cmd) : Test (res Trap Value) :=
  f ← built "test" 0 calls; run_program (with_types [f] types) 0 [].

Definition struct_construction_and_field_access : Test unit :=
  r ← run_with_types [TypeDef_new "Point" 2] ⟨ConstInt 1; ConstInt 2; StructNew 0; FieldGet 1; Return⟩;
  returns r (Int 2).

Definition struct_field_set_and_reference_semantics : Test unit :=
  r ← run_with_types [TypeDef_new "Point" 2]
    ⟨ConstInt 1; ConstInt 2; StructNew 0; Store 0; Load 0; Store 1; Load 0; ConstInt 9; FieldSet 0; Load 1; FieldGet 0;
     Return⟩;
  returns r (Int 9).

Definition struct_equality_is_structural : Test unit :=
  a ← struct_of 0 [Int 1]; b ← struct_of 0 [Int 1]; _ ← same_value a b;
  b ← struct_of 0 [Int 2]; _ ← other_value a b;
  b ← struct_of 1 [Int 1]; other_value a b.

Definition struct_new_unknown_type_is_a_bug : Test unit := r ← run_with_types [] ⟨StructNew 0; Return⟩; is_bug r.

Definition field_get_on_non_struct_is_a_type_error : Test unit :=
  r ← run [ConstInt 1; FieldGet 0; Return]; traps r (TypeError "a struct" "Int").

(** ** Closures *)

Definition adder : Function := Function_new "adder" 2 2 [Load 0; Load 1; AddI64; Return].

Definition closure_captures_and_calls_indirect : Test unit :=
  let main := Function_new "main" 0 0 [ConstInt 10; ClosureNew 1 1; ConstInt 5; CallIndirect 1; Return] in
  r ← run_program (Module_new [main; adder]) 0 []; returns r (Int 15).

Definition closure_with_no_captures : Test unit :=
  let inc := Function_new "inc" 1 1 [Load 0; ConstInt 1; AddI64; Return] in
  let main := Function_new "main" 0 0 [ClosureNew 1 0; ConstInt 41; CallIndirect 1; Return] in
  r ← run_program (Module_new [main; inc]) 0 []; returns r (Int 42).

Definition closure_new_builds_the_expected_value : Test unit :=
  r ← run_fn ⟨ConstInt 7; ConstInt 8; ClosureNew 3 2; Return⟩;
  v ← closure_of 3 [Int 7; Int 8]; returns r v.

Definition call_indirect_arity_mismatch_is_a_bug : Test unit :=
  let main := Function_new "main" 0 0 [ClosureNew 1 0; ConstInt 5; CallIndirect 1; Return] in
  r ← run_program (Module_new [main; adder]) 0 []; is_bug r.

Definition call_indirect_on_non_closure_is_a_type_error : Test unit :=
  r ← run_fn ⟨ConstInt 1; CallIndirect 0; Return⟩; traps r (TypeError "a function" "Int").

(** ** Dynamic dispatch *)

(** Two struct types with a [to_string] each, and [describe(x) = x.to_string()]. *)
Definition dispatch_module : Module :=
  let dog_to_string := Function_new "Dog.to_string" 1 1 [ConstStr "woof"; Return] in
  let cat_to_string := Function_new "Cat.to_string" 1 1 [ConstStr "meow"; Return] in
  let describe := Function_new "describe" 1 1 [Load 0; CallVirtual "to_string" 1; Return] in
  let m := with_types [dog_to_string; cat_to_string; describe] [TypeDef_new "Dog" 0; TypeDef_new "Cat" 0] in
  set_dispatch m [DispatchEntry_new 0 "to_string" 0; DispatchEntry_new 1 "to_string" 1].

Definition returns_text (r : res Trap Value) (s : string) : Test unit := v ← text s; returns r v.

Definition call_virtual_dispatches_on_receiver_type : Test unit :=
  let m := dispatch_module in
  dog ← struct_of 0 []; cat ← struct_of 1 [];
  r ← run_program m 2 [dog]; _ ← returns_text r "woof";
  r ← run_program m 2 [cat]; returns_text r "meow".

Definition call_virtual_to_string_without_an_impl_falls_back_to_debug : Test unit :=
  let m := set_dispatch dispatch_module [] in
  dog ← struct_of 0 []; r ← run_program m 2 [dog]; returns_text r "Dog {}".

Definition call_virtual_to_string_on_a_primitive_uses_the_builtin_fallback : Test unit :=
  r ← run_program dispatch_module 2 [Int 5]; returns_text r "5".

Definition struct_and_enum_dispatch_ids_do_not_collide : Test unit :=
  let struct_to_string := Function_new "S.to_string" 1 1 [ConstStr "struct"; Return] in
  let enum_to_string := Function_new "E.to_string" 1 1 [ConstStr "enum"; Return] in
  let describe := Function_new "describe" 1 1 [Load 0; CallVirtual "to_string" 1; Return] in
  let m := set_dispatch (with_types [struct_to_string; enum_to_string; describe] [TypeDef_new "S" 0])
    [DispatchEntry_new 0 "to_string" 0; DispatchEntry_new ENUM_DISPATCH_BASE "to_string" 1] in
  s ← struct_of 0 []; e ← enum_of 0 0 [];
  r ← run_program m 2 [s]; _ ← returns_text r "struct";
  r ← run_program m 2 [e]; returns_text r "enum".

(** ** The structural fallbacks *)

(** [dbg(x) = x.debug()], with one struct type and no impl. *)
Definition dbg : Function := Function_new "dbg" 1 1 [Load 0; CallVirtual "debug" 1; Return].
Definition debug_module : Module := with_types [dbg] [TypeDef_new "Dog" 2].

Definition structural_debug_renders_primitives_and_strings : Test unit :=
  let m := debug_module in
  r ← run_program m 0 [Int 5]; _ ← returns_text r "5";
  r ← run_program m 0 [Bool true]; _ ← returns_text r "true";
  v ← text "hi"; r ← run_program m 0 [v]; returns_text r "'hi'".

Definition structural_debug_escapes_a_string_back_to_a_literal : Test unit :=
  let dbg (bytes : list u8) (expected : string) : Test unit :=
    v ← text (of_bytes bytes); r ← run_program debug_module 0 [v]; returns_text r expected in
  _ ← dbg (as_bytes "a" ++ [10] ++ as_bytes "b" ++ [9] ++ as_bytes "c") "'a\nb\tc'";
  _ ← dbg [8; 12; 11; 0] "'\b\f\v\0'";
  _ ← dbg (as_bytes "q'\") "'q\'\\'";
  _ ← dbg [27; 127] "'\u{1b}\u{7f}'";
  dbg (as_bytes "$5 ${x}") "'$5 \${x}'".

Definition structural_debug_recurses_into_collections_and_structs : Test unit :=
  let m := debug_module in
  a ← text "a"; list ← list_of [Int 1; a]; r ← run_program m 0 [list]; _ ← returns_text r "[1, 'a']";
  rex ← text "Rex"; dog ← struct_of 0 [rex; Int 3]; r ← run_program m 0 [dog]; _ ← returns_text r "Dog { 'Rex', 3 }";
  v ← some_of (Int 7); r ← run_program m 0 [v]; _ ← returns_text r "Some(7)";
  v ← none_of; r ← run_program m 0 [v]; returns_text r "None".

Definition structural_debug_uses_field_and_variant_names_when_present : Test unit :=
  let m := set_enums (with_types [dbg] [TypeDef_named "Point" ["x"; "y"]%string])
    [EnumDef_new 3 "Color" ["Red"; "Green"]%string] in
  point ← struct_of 0 [Int 1; Int 2]; r ← run_program m 0 [point]; _ ← returns_text r "Point { x: 1, y: 2 }";
  green ← enum_of 3 1 []; r ← run_program m 0 [green]; _ ← returns_text r "Green";
  red_payload ← enum_of 3 0 [Int 9]; r ← run_program m 0 [red_payload]; returns_text r "Red(9)".

Definition structural_debug_falls_back_to_positional_without_names : Test unit :=
  let m := with_types [dbg] [TypeDef_new "Dog" 2] in
  rex ← text "Rex"; dog ← struct_of 0 [rex; Int 3]; r ← run_program m 0 [dog]; returns_text r "Dog { 'Rex', 3 }".

Definition an_explicit_debug_impl_overrides_the_structural_rendering : Test unit :=
  let m := with_types [dbg; Function_new "Dog.debug" 1 1 [ConstStr "custom"; Return]] (types debug_module) in
  let m := set_dispatch m [DispatchEntry_new 0 "debug" 1] in
  rex ← text "Rex"; dog ← struct_of 0 [rex; Int 3];
  r ← run_program m 0 [dog]; _ ← returns_text r "custom";
  list ← list_of [dog]; r ← run_program m 0 [list]; returns_text r "[custom]".

Definition call_virtual_eq_falls_back_to_structural_equality : Test unit :=
  let eq := Function_new "eq2" 2 2 [Load 0; Load 1; CallVirtual "eq" 2; Return] in
  let m := with_types [eq] [TypeDef_new "P" 1] in
  a ← struct_of 0 [Int 1]; b ← struct_of 0 [Int 1]; c ← struct_of 0 [Int 2];
  r ← run_program m 0 [a; b]; _ ← returns r (Bool true);
  r ← run_program m 0 [a; c]; returns r (Bool false).

Definition interp_tests_1 : list (Test unit) :=
  [returns_constant; empty_return_is_unit; init_thunk_fills_globals_before_entry; integer_arithmetic;
   bitwise_and_or_xor_not; shifts_arithmetic_vs_logical; subtraction_is_ordered; division_truncates_toward_zero; modulo;
   integer_overflow_wraps; division_by_zero_traps; modulo_by_zero_traps; comparison; float_arithmetic_and_compare;
   conversions; boolean_not; dup_and_pop; locals_store_and_load; unconditional_jump_skips_instructions;
   conditional_branch_taken_and_not_taken; jump_if_true; counted_loop_sums_range; type_mismatch_is_a_type_error;
   type_error_renders_as_a_runtime_type_error_not_an_internal_error;
   type_error_names_a_struct_found_value_via_the_type_table; simple_call; argument_order_is_preserved;
   recursive_factorial; recursive_fibonacci; void_function_returns_unit; unknown_function_is_a_bug;
   arity_mismatch_is_a_bug; enum_tag; enum_get_payload; enum_value_is_constructed; structural_equality;
   question_mark_propagation; match_on_option; enum_tag_on_non_enum_is_a_type_error; int_to_string_primitive;
   str_concat_joins_strings; println_writes_to_output; interpolation_pipeline; unknown_native_is_a_bug;
   str_concat_on_non_string_is_a_bug].

Definition interp_tests_2 : list (Test unit) :=
  [list_literal_and_len; list_index_reads_element; list_index_out_of_bounds_traps; unbounded_allocation_traps_out_of_memory; list_push_appends_in_place; list_pop_removes_last_and_returns_option; list_get_returns_option; list_set_mutates_in_place; reference_semantics_aliasing; map_literal_index_and_len; map_index_missing_key_traps; map_get_and_has; map_set_updates_and_inserts; list_index_on_non_list_is_a_type_error; struct_construction_and_field_access; struct_field_set_and_reference_semantics; struct_equality_is_structural; struct_new_unknown_type_is_a_bug; field_get_on_non_struct_is_a_type_error; closure_captures_and_calls_indirect; closure_with_no_captures; closure_new_builds_the_expected_value; call_indirect_arity_mismatch_is_a_bug; call_indirect_on_non_closure_is_a_type_error; call_virtual_dispatches_on_receiver_type; call_virtual_to_string_without_an_impl_falls_back_to_debug; call_virtual_to_string_on_a_primitive_uses_the_builtin_fallback; struct_and_enum_dispatch_ids_do_not_collide; structural_debug_renders_primitives_and_strings; structural_debug_escapes_a_string_back_to_a_literal; structural_debug_recurses_into_collections_and_structs; structural_debug_uses_field_and_variant_names_when_present; structural_debug_falls_back_to_positional_without_names; an_explicit_debug_impl_overrides_the_structural_rendering; call_virtual_eq_falls_back_to_structural_equality].

(** Every test passes. *)
Theorem interp_tests_pass : failures (interp_tests_1 ++ interp_tests_2) = [].
Proof. vm_compute. reflexivity. Qed.
