(* ===== verification/NativesTests.v ===== *)
(** * The unit tests of [interp/natives.rs]

    The library of regular expressions and the TLS crate are outside the source: the
    tests run with a double of the first that knows the patterns of the tests, and with
    the sockets and the TLS sessions of [Demo]. *)

From Stdlib Require Import ZArith Lia.
From stdpp Require Import base numbers list strings gmap pretty.
From S2P Require Import Prelude Bytes Float64 NativesTable Value Heap Trap Render Scheduler Interp Driver NativesBase.
From S2P Require Import NativesText NativesFiber System NativesLib NativesAll Tls NativesSocket Pool Demo Testing SerializeTests.

Open Scope Z_scope.

(** What the natives answer, on the world of the thread. *)
Definition calling (f : Native (Job := Job) (Payload := Payload) (Ext := Runtime)) (args : list Value) : Test Value :=
  λ w, match f w args with Ok (w', v) => Some (w', v) | _ => None end.

(** [display_string(&v).unwrap()] *)
Definition displayed (v : Value) : Test string := m ← heap; unwrap (display_string no_digits m v).

Definition names_and_indices_agree : Test unit :=
  _ ← equals (native_index "println") (Some NATIVE_PRINTLN);
  _ ← equals (native_index "str_concat") (Some NATIVE_STR_CONCAT);
  _ ← equals (native_index "map_set") (Some NATIVE_MAP_SET);
  _ ← equals (native_name NATIVE_INT_TO_STRING) (Some "int_to_string"%string);
  _ ← equals (native_index "eq") (Some NATIVE_EQ);
  _ ← equals (native_index "nope") None;
  equals (length test_natives) (length NATIVES).

Definition splitmix64_is_deterministic_and_distributed : Test unit :=
  _ ← equals (splitmix64_mix 0x9E3779B97F4A7C15) 0xE220A8397B1DCDAF;
  _ ← differs (splitmix64_mix 1) (splitmix64_mix 2);
  differs (splitmix64_mix 1) 1.

Definition eq_is_structural : Test unit :=
  let yes (a b : Value) : Test bool := v ← calling (on_mem (native_eq test_depth)) [a; b]; same v (Bool true) in
  a ← text "hi"; b ← text "hi"; r ← yes a b; _ ← assert r;
  b ← text "ho"; r ← yes a b; _ ← assert (negb r);
  a ← list_of [Int 1; Int 2]; b ← list_of [Int 1; Int 2]; r ← yes a b; _ ← assert r;
  r ← yes (Int 7) (Int 7); _ ← assert r;
  b ← text "7"; r ← yes (Int 7) b; assert (negb r).

(** The program output of the thread. *)
Definition output : Test (list u8) := λ w, Some (w, w_out w).

Definition capture_buffers_stdout_then_restores : Test unit :=
  let println := native_println no_debug in
  let print := native_print no_debug in
  v ← text "live"; _ ← calling println [v]; out ← output; _ ← equals out (as_bytes "live" ++ [newline]);
  _ ← calling native_test_capture_begin [];
  v ← text "a"; _ ← calling print [v]; v ← text "b"; _ ← calling println [v];
  out ← output; _ ← equals out (as_bytes "live" ++ [newline]);
  captured ← calling native_test_capture_end []; s ← displayed captured;
  _ ← equals (as_bytes s) (as_bytes "ab" ++ [newline]);
  v ← text "after"; _ ← calling println [v];
  out ← output; equals out (as_bytes "live" ++ [newline] ++ as_bytes "after" ++ [newline]).

(** ** Regular expressions and byte slices *)

Definition int_list (v : Value) : Test (list i64) :=
  o ← object v;
  match o with
  | List items => present (mapM (λ x, match x with Int n => Some n | _ => None end) items)
  | _ => failed
  end.

Definition ok_int (v : Value) : Test i64 :=
  o ← object v;
  match o with Enum _ _ (Int n :: _) => mret n | _ => failed end.

Definition str_byte_slice_clamps_and_respects_char_boundaries : Test unit :=
  s ← text hello_text;
  let slice (a b : i64) (expected : list u8) : Test unit :=
    v ← calling (on_mem (native_str_byte_slice no_debug)) [s; Int a; Int b]; t ← displayed v;
    equals (as_bytes t) expected in
  _ ← slice 0 1 (as_bytes "h");
  _ ← slice 1 3 [195; 169];
  _ ← slice 0 100 (as_bytes hello_text);
  _ ← slice 3 1 [];
  slice 1 2 [].

(** What [regex] answers on the tests' patterns and texts. *)
Definition EMAIL : string := "(\w+)@(\w+)".

#[local] Instance test_regex : RegexLib := {|
  regex_new p := if bool_decide (p = "("%string) then inl "unclosed group"%string else inr p;
  is_match re _ := bool_decide (re = EMAIL);
  find re _ := if bool_decide (re = EMAIL) then Some (0, 3) else None;
  find_iter re _ := if bool_decide (re = EMAIL) then [(0, 3); (8, 11)] else [];
  captures re _ := if bool_decide (re = EMAIL) then Some [Some (0, 3); Some (0, 1); Some (2, 3)] else None;
  replace _ t _ := t;
  replace_all re t r := if bool_decide ((re, t, r) = (EMAIL, "a@b", "$2.$1")%string) then "b.a"%string else t |}.

Definition regex_natives_compile_match_find_replace : Test unit :=
  v ← text EMAIL; compiled ← calling (native_regex_compile no_debug) [v]; h ← ok_int compiled;
  t ← text "a@b and c@d";
  v ← calling (native_regex_is_match no_debug) [Int h; t]; _ ← equals v (Bool true);
  v ← calling (native_regex_find no_debug) [Int h; t]; l ← int_list v; _ ← equals l [0; 3];
  v ← calling (native_regex_find_all no_debug) [Int h; t]; l ← int_list v; _ ← equals l [0; 3; 8; 11];
  ab ← text "a@b";
  v ← calling (native_regex_captures no_debug) [Int h; ab]; l ← int_list v; _ ← equals l [0; 3; 0; 1; 2; 3];
  ab ← text "a@b"; r ← text "$2.$1";
  v ← calling (native_regex_replace_all no_debug) [Int h; ab; r]; s ← displayed v; equals s "b.a"%string.

Definition regex_no_match_returns_empty_and_bad_pattern_is_a_value : Test unit :=
  p ← text "\d+"; v ← calling (native_regex_compile no_debug) [p]; h ← ok_int v;
  t ← text "abc"; v ← calling (native_regex_find no_debug) [Int h; t]; l ← int_list v; _ ← equals l [];
  p ← text "("; bad ← calling (native_regex_compile no_debug) [p]; o ← object bad;
  match o with Enum _ variant _ => equals variant TAG_ERR | _ => failed end.

(** ** The registry of sockets and TLS sessions *)

(** The payload of a [Result], on the side [tag]. *)
Definition payload (v : Value) (tag : u16) : Test Value :=
  o ← object v;
  match o with Enum _ variant (p :: _) => _ ← equals variant tag; mret p | _ => failed end.

Definition str_of (v : Value) : Test string := m ← heap; unwrap (str_contents no_debug m v).
Definition ok_text (v : Value) : Test string := p ← payload v TAG_OK; str_of p.
Definition err_text (v : Value) : Test string := p ← payload v TAG_ERR; str_of p.

(** [assert!(err_text(&v).contains(s))] *)
Definition refuses (v : Value) (s : string) : Test unit :=
  e ← err_text v; assert (negb (Nat.eqb (windows (as_bytes s) (as_bytes e)) 0)).

Definition tls_connect (handle : i64) (host : string) : Test Value :=
  h ← text host; roots ← text ""; calling (native_tls_connect no_debug) [Int handle; h; roots].

Definition tls_connect_wraps_a_socket_in_place_and_locks_out_the_plain_ops : Test unit :=
  let local_addr (h : i64) : Test string := v ← calling (native_socket_local_addr no_debug) [Int h]; ok_text v in
  let connect (addr : string) : Test i64 :=
    a ← text addr; v ← calling (native_socket_connect no_debug) [a]; ok_int v in
  a ← text "127.0.0.1:0"; listen ← calling (native_socket_listen no_debug) [a]; listener ← ok_int listen;
  addr ← local_addr listener;
  client ← connect addr; client_addr ← local_addr client;
  wrapped ← tls_connect client "localhost"; h ← ok_int wrapped; _ ← equals h client;
  op ← calling (native_socket_read no_debug) [Int client; Int 16]; _ ← refuses op "not a plain stream";
  data ← allocate (Bytes (as_bytes "GET /"));
  op ← calling (native_socket_write no_debug) [Int client; data]; _ ← refuses op "not a plain stream";
  a ← local_addr client; _ ← equals a client_addr;
  again ← tls_connect client "localhost"; _ ← refuses again "not an unwrapped stream";
  no_session ← calling (native_tls_read no_debug test_depth) [Int listener; Int 16];
  _ ← refuses no_session "not a TLS stream";
  other ← connect addr;
  bad_host ← tls_connect other "not a host"; _ ← refuses bad_host "host name";
  retried ← tls_connect other "localhost"; h ← ok_int retried; _ ← equals h other;
  _ ← each [listener; client; other] (λ h,
    v ← calling (native_socket_close no_debug) [Int h]; p ← payload v TAG_OK; equals p Unit);
  closed ← calling (native_tls_handshake no_debug test_depth) [Int client]; refuses closed "socket is closed".

(** Every test passes. *)
Theorem natives_tests_pass :
  failures
    [names_and_indices_agree; splitmix64_is_deterministic_and_distributed; eq_is_structural;
     capture_buffers_stdout_then_restores; str_byte_slice_clamps_and_respects_char_boundaries;
     regex_natives_compile_match_find_replace; regex_no_match_returns_empty_and_bad_pattern_is_a_value;
     tls_connect_wraps_a_socket_in_place_and_locks_out_the_plain_ops] = [].
Proof. vm_compute. reflexivity. Qed.
