(* ===== verification/TlsTests.v ===== *)
(** * The unit tests of [interp/tls.rs]

    The tests drive sessions over an in-memory transport, against a peer of the TLS
    crate.  The transport [Wire] is the tests' own and translated; the crate is outside
    the source, and a toy stands in for it: records of two bytes, a handshake of three
    messages, a certificate that is its text, an outgoing queue of [QUEUE_LIMIT] bytes.
    The payload of one test, 300_000 bytes in the source, is of the length [len], and the
    theorem runs it on 3000.  [the_client_config_is_built_once_per_thread] compares
    pointers, which the model does not have. *)

From Stdlib Require Import ZArith Lia.
From stdpp Require Import base numbers list strings gmap pretty.
From S2P Require Import Prelude Bytes Float64 System NativesFs Tls Testing.

Open Scope Z_scope.

(** ** The transport *)

Record Wire := mkWire {
  w_out : list u8;
  inbox : list u8;
  write_cap : option nat;
  read_cap : option nat;
  eof : bool;
}.

Definition open_wire : Wire := mkWire [] [] None None false.

Definition capped (cap : option nat) (n : nat) : nat := match cap with Some c => Nat.min c n | None => n end.

Definition blocked : IoError := mkIoError WouldBlock "operation would block".

Definition wire_write (wire : Wire) (buf : list u8) : Wire * io nat :=
  let n := capped (write_cap wire) (length buf) in
  if Nat.eqb n 0 then (wire, inl blocked)
  else (mkWire (w_out wire ++ take n buf) (inbox wire) (write_cap wire) (read_cap wire) (eof wire), inr n).

(** What is read into a buffer of [len] bytes. *)
Definition wire_read (wire : Wire) (len : nat) : Wire * io (list u8) :=
  match inbox wire with
  | [] => (wire, if eof wire then inr [] else inl blocked)
  | _ =>
      let n := Nat.min (Nat.min (capped (read_cap wire) len) len) (length (inbox wire)) in
      if Nat.eqb n 0 then (wire, inl blocked)
      else (mkWire (w_out wire) (drop n (inbox wire)) (write_cap wire) (read_cap wire) (eof wire),
            inr (take n (inbox wire)))
  end.

(** ** A toy TLS library *)

Definition HELLO : u8 := 1.
Definition SERVER_HELLO : u8 := 2.
Definition FINISHED : u8 := 3.
Definition DATA : u8 := 4.
Definition CLOSE_NOTIFY : u8 := 5.
Definition ALERT : u8 := 6.

Definition QUEUE_LIMIT : nat := 640.

Record Toy := mkToy {
  t_client : bool;
  t_trusts : bool;
  t_handshaking : bool;
  t_out : list u8;
  t_in : list u8;
  t_plain : list u8;
  t_closed : bool;
  t_ended : bool;
  t_said_close : bool;
}.

Definition queue (c : Toy) (l : list u8) : Toy :=
  mkToy (t_client c) (t_trusts c) (t_handshaking c) (t_out c ++ l) (t_in c) (t_plain c) (t_closed c) (t_ended c) (t_said_close c).
Definition finish_handshake (c : Toy) : Toy :=
  mkToy (t_client c) (t_trusts c) false (t_out c) (t_in c) (t_plain c) (t_closed c) (t_ended c) (t_said_close c).
Definition set_out (c : Toy) (l : list u8) : Toy :=
  mkToy (t_client c) (t_trusts c) (t_handshaking c) l (t_in c) (t_plain c) (t_closed c) (t_ended c) (t_said_close c).
Definition set_in (c : Toy) (l : list u8) (ended : bool) : Toy :=
  mkToy (t_client c) (t_trusts c) (t_handshaking c) (t_out c) l (t_plain c) (t_closed c) ended (t_said_close c).
Definition set_plain (c : Toy) (l : list u8) (closed : bool) : Toy :=
  mkToy (t_client c) (t_trusts c) (t_handshaking c) (t_out c) (t_in c) l closed (t_ended c) (t_said_close c).

(** One record. *)
Definition take_record (c : Toy) (kind payload : u8) : Toy * (string + unit) :=
  if kind =? HELLO then (queue c [SERVER_HELLO; 0], inr tt)
  else if kind =? SERVER_HELLO then
    if t_trusts c then (finish_handshake (queue c [FINISHED; 0]), inr tt)
    else (queue c [ALERT; 0], inl "invalid peer certificate: UnknownIssuer"%string)
  else if kind =? FINISHED then (finish_handshake c, inr tt)
  else if kind =? DATA then (set_plain c (t_plain c ++ [payload]) (t_closed c), inr tt)
  else if kind =? CLOSE_NOTIFY then (set_plain c (t_plain c) true, inr tt)
  else (c, inl "received fatal alert"%string).

Fixpoint take_records (l : list u8) (c : Toy) : Toy * (string + unit) :=
  match l with
  | kind :: payload :: l' =>
      match take_record c kind payload with
      | (c, inr _) => take_records l' c
      | (c, inl e) => (set_in c l' (t_ended c), inl e)
      end
  | _ => (set_in c l (t_ended c), inr tt)
  end.

Definition toy_read (c : Toy) (buf : list u8) : Toy * list u8 * io nat :=
  match t_plain c with
  | [] =>
      (c, buf, if t_closed c then inr 0%nat
               else if t_ended c then inl (mkIoError UnexpectedEof "peer closed connection without sending TLS close_notify")
               else inl blocked)
  | _ =>
      let n := Nat.min (length buf) (length (t_plain c)) in
      (set_plain c (drop n (t_plain c)) (t_closed c), take n (t_plain c) ++ drop n buf, inr n)
  end.

(** As much plaintext as the queue holds. *)
Definition toy_write (c : Toy) (data : list u8) : Toy * io nat :=
  let n := Nat.min (length data) (Nat.div2 (QUEUE_LIMIT - length (t_out c))) in
  (queue c (take n data ≫= λ b, [DATA; b]), inr n).

Definition toy_close (c : Toy) : Toy :=
  if t_said_close c then c
  else
    let c := queue c [CLOSE_NOTIFY; 0] in
    mkToy (t_client c) (t_trusts c) (t_handshaking c) (t_out c) (t_in c) (t_plain c) (t_closed c) (t_ended c) true.

Definition new_toy (client trusts : bool) : Toy :=
  mkToy client trusts true (if client then [HELLO; 0] else []) [] [] false false false.

(** The two ends of a connection, as sockets. *)
Record Duplex := mkDuplex { client_wire : Wire; server_wire : Wire }.
Definition wire_of (client : bool) (d : Duplex) : Wire := if client then client_wire d else server_wire d.
Definition set_wire (client : bool) (d : Duplex) (wire : Wire) : Duplex :=
  if client then mkDuplex wire (server_wire d) else mkDuplex (client_wire d) wire.

#[local] Instance toy_types : SystemTypes := {|
  Os := Duplex; PathBuf := unit; DirEntry := unit; File := unit; Child := unit; ChildStdin := unit; ChildStdout := unit;
  ChildStderr := unit; Regex := unit |}.

#[local] Instance toy_net : NetTypes := {|
  SocketAddr := unit; TcpListener := unit; TcpStream := bool; Poll := unit; Registry := unit; Waker := unit;
  Connection := Toy; ClientConfig := list string; ServerConfig := unit; Certificate := string; PrivateKey := string |}.

(** A text that is no PEM, one without a block, or one block. *)
Definition CA_PEM : string := "ca".
Definition LEAF_PEM : string := "leaf".
Definition KEY_PEM : string := "leaf key".
Definition no_block (pem : string) : bool := bool_decide (head (as_bytes pem) = Some 35).
Definition bad_block (pem : string) : bool := bool_decide (head (as_bytes pem) = Some 45).

#[local] Instance toy_rustls : Rustls := {|
  wants_write c := negb (bool_decide (t_out c = []));
  is_handshaking := t_handshaking;
  reader_read := toy_read;
  first_chunk c :=
    match t_plain c with
    | [] => if t_closed c then inr [] else inl blocked
    | l => inr l
    end;
  writer_write := toy_write;
  write_tls sock c := λ d,
    let (wire, r) := wire_write (wire_of sock d) (t_out c) in
    (set_wire sock d wire, (match r with inr n => set_out c (drop n (t_out c)) | inl _ => c end, r));
  read_tls sock c := λ d,
    let (wire, r) := wire_read (wire_of sock d) 4096 in
    (set_wire sock d wire,
      match r with
      | inr [] => (set_in c (t_in c) true, inr 0%nat)
      | inr l => (set_in c (t_in c ++ l) (t_ended c), inr (length l))
      | inl e => (c, inl e)
      end);
  process_new_packets c := take_records (t_in c) c;
  send_close_notify := toy_close;
  server_name_ok name := negb (existsb (Z.eqb 32) (as_bytes name));
  client_connection roots _ := inr (new_toy true (bool_decide (CA_PEM ∈ roots)));
  server_connection _ := inr (new_toy false false);
  bundled_roots := ["bundled"%string];
  add_root roots c := inr (roots ++ [c]);
  client_config_with roots := roots;
  pem_certificates pem := if no_block pem then [] else if bad_block pem then [inl "not base64"%string] else [inr pem];
  pem_private_key pem := if no_block pem then inl "no key"%string else inr pem;
  server_config_with chain key :=
    if bool_decide (chain = [LEAF_PEM] ∧ key = KEY_PEM) then inr tt else inl "keys may not be consistent"%string |}.

(** ** Driving sessions *)

Definition tls_fuel : nat := 2000.

(** A test on two wires. *)
Abbreviation TlsTest A := (Testing Duplex A).

(** [client.op(&mut wire)]: the connection is threaded, an error is a value. *)
Definition session {A} (p : Pump A) (c : Toy) : TlsTest (Toy * (TlsError + A)) := λ d,
  match p (c, d) with
  | ((c, d), Ok a) => Some (d, (c, inr a))
  | ((c, d), Err e) => Some (d, (c, inl e))
  | _ => None
  end.

(** [.unwrap()] *)
Definition ok_session {A} (p : Pump A) (c : Toy) : TlsTest (Toy * A) :=
  '(c, r) ← session p c; match r with inr a => mret (c, a) | inl _ => failed end.

Definition wire (client : bool) : TlsTest Wire := λ d, Some (d, wire_of client d).
Definition put_wire (client : bool) (wire : Wire) : TlsTest unit := λ d, Some (set_wire client d wire, tt).
Definition set_write_cap (cap : option nat) : TlsTest unit :=
  w ← wire true; put_wire true (mkWire (w_out w) (inbox w) cap (read_cap w) (eof w)).
Definition set_read_cap (cap : option nat) : TlsTest unit :=
  w ← wire true; put_wire true (mkWire (w_out w) (inbox w) (write_cap w) cap (eof w)).

Definition done {A} (p : Progress A) : TlsTest A := match p with Finished a => mret a | Blocked => failed end.
Definition parked {A} (p : Progress A) : TlsTest unit := match p with Blocked => mret tt | Finished _ => failed end.

(** A server of the library, with what it has decrypted. *)
Record Peer := mkPeer { p_conn : Toy; plaintext : list u8 }.

(** [Peer::pump]: everything on the wire, decrypted, and the reply queued. *)
Definition pump (peer : Peer) : TlsTest Peer :=
  w ← wire true;
  let (c, r) := take_records (t_in (p_conn peer) ++ w_out w) (p_conn peer) in
  match r with
  | inl _ => failed
  | inr _ =>
      _ ← put_wire true (mkWire [] (inbox w ++ t_out c) (write_cap w) (read_cap w) (eof w));
      mret (mkPeer (set_plain (set_out c []) [] (t_closed c)) (plaintext peer ++ t_plain c))
  end.

(** What the peer writes is queued until its next turn. *)
Definition peer_writes (peer : Peer) (data : list u8) : Peer := mkPeer (toy_write (p_conn peer) data).1 (plaintext peer).

Definition connect : TlsError + Toy :=
  match client_config CA_PEM with inl e => inl e | inr config => client_session config "localhost" end.

(** [pair()] *)
Definition pair_up : TlsTest (Toy * Peer) :=
  match connect with inr c => mret (c, mkPeer (new_toy false false) []) | inl _ => failed end.

Fixpoint handshake_loop (fuel : nat) (client : Toy) (peer : Peer) (parks : nat) : TlsTest (Toy * Peer * nat) :=
  match fuel with
  | O => failed
  | S fuel' =>
      '(client, p) ← ok_session (Tls.handshake true tls_fuel) client;
      match p with
      | Finished _ => mret (client, peer, parks)
      | Blocked => peer ← pump peer; handshake_loop fuel' client peer (S parks)
      end
  end.

(** [handshake(client, peer, wire)] *)
Definition handshaken (client : Toy) (peer : Peer) : TlsTest (Toy * Peer * nat) :=
  '(client, peer, parks) ← handshake_loop tls_fuel client peer 0;
  peer ← pump peer; _ ← assert (negb (t_handshaking (p_conn peer)));
  mret (client, peer, parks).

Definition fresh_wires : Duplex := mkDuplex open_wire open_wire.

Definition writing (client : Toy) (data : list u8) : TlsTest (Toy * Progress nat) := ok_session (tls_write true tls_fuel data) client.
Definition reading (client : Toy) (max : Z) : TlsTest (Toy * Progress (list u8)) := ok_session (tls_read true tls_fuel max) client.
Definition closing (client : Toy) : TlsTest (Toy * Progress unit) := ok_session (tls_close true tls_fuel) client.

(** The line break of a text. *)
Definition lf : string := String (Ascii.ascii_of_nat 10) "".

(** ** The tests of a client *)

Definition a_handshake_survives_a_transport_that_moves_one_byte_at_a_time : TlsTest unit :=
  '(client, peer) ← pair_up;
  _ ← set_write_cap (Some 1%nat); _ ← set_read_cap (Some 1%nat);
  '(client, peer, parks) ← handshaken client peer;
  _ ← assert (negb (Nat.eqb parks 0));
  '(client, p) ← writing client (as_bytes "ping"); n ← done p; _ ← equals n 4%nat;
  peer ← pump peer; equals (plaintext peer) (as_bytes "ping").

Fixpoint read_until (fuel : nat) (client : Toy) (got expected : list u8) : TlsTest unit :=
  if bool_decide (got = expected) then mret tt
  else
    match fuel with
    | O => failed
    | S fuel' =>
        '(client, p) ← reading client 64; chunk ← done p;
        _ ← differs chunk []; read_until fuel' client (got ++ chunk) expected
    end.

Definition a_read_reassembles_plaintext_delivered_a_byte_at_a_time : TlsTest unit :=
  '(client, peer) ← pair_up; '(client, peer, _) ← handshaken client peer;
  _ ← pump (peer_writes peer (as_bytes "hello, plaintext"));
  _ ← set_read_cap (Some 1%nat);
  read_until 64 client [] (as_bytes "hello, plaintext").

(** Write the payload, with the socket shut until a write blocks. *)
Fixpoint send_all (fuel : nat) (client : Toy) (peer : Peer) (data : list u8) (parks : nat) : TlsTest (Toy * Peer * nat) :=
  match data, fuel with
  | [], _ => mret (client, peer, parks)
  | _, O => failed
  | _, S fuel' =>
      '(client, p) ← writing client data;
      match p with
      | Finished n => send_all fuel' client peer (drop n data) parks
      | Blocked =>
          _ ← set_write_cap None;
          '(client, p) ← writing client data; n ← done p;
          peer ← pump peer;
          _ ← set_write_cap (Some 0%nat);
          send_all fuel' client peer (drop n data) (S parks)
      end
  end.

Fixpoint close_all (fuel : nat) (client : Toy) : TlsTest Toy :=
  match fuel with
  | O => failed
  | S fuel' =>
      '(client, p) ← closing client;
      match p with Finished _ => mret client | Blocked => close_all fuel' client end
  end.

Definition a_blocked_write_retried_with_the_same_plaintext_sends_it_once (len : nat) : TlsTest unit :=
  '(client, peer) ← pair_up; '(client, peer, _) ← handshaken client peer;
  let payload := (λ i, Z.of_nat i `mod` 251) <$> seq 0 len in
  _ ← set_write_cap (Some 0%nat);
  '(client, peer, parks) ← send_all tls_fuel client peer payload 0;
  _ ← assert (negb (Nat.eqb parks 0));
  _ ← set_write_cap None;
  client ← close_all tls_fuel client;
  peer ← pump peer;
  _ ← equals (length (plaintext peer)) (length payload); equals (plaintext peer) payload.

Definition feeding_the_same_plaintext_twice_double_sends : TlsTest unit :=
  '(client, peer) ← pair_up; '(client, peer, _) ← handshaken client peer;
  client ← folded [0; 1] client (λ client _,
    '(client, p) ← writing client (as_bytes "POST /once"); n ← done p; _ ← equals n 10%nat; mret client);
  peer ← pump peer; equals (plaintext peer) (as_bytes "POST /oncePOST /once").

Definition a_blocked_close_retried_sends_one_close_notify : TlsTest unit :=
  '(client, peer) ← pair_up; '(client, peer, _) ← handshaken client peer;
  '(client, p) ← closing client; _ ← done p;
  w ← wire true; let straight := length (w_out w) in
  _ ← put_wire true open_wire;
  '(client, peer) ← pair_up; '(client, peer, _) ← handshaken client peer;
  _ ← set_write_cap (Some 0%nat);
  client ← folded [0; 1; 2] client (λ client _, '(client, p) ← closing client; _ ← parked p; mret client);
  _ ← set_write_cap None;
  '(client, p) ← closing client; _ ← done p;
  w ← wire true; _ ← equals (length (w_out w)) straight;
  peer ← pump peer;
  let '(_, _, n) := toy_read (p_conn peer) (zeroed 4) in assert (if n is inr O then true else false).

Definition a_close_notify_reads_as_eof : TlsTest unit :=
  '(client, peer) ← pair_up; '(client, peer, _) ← handshaken client peer;
  _ ← pump (mkPeer (toy_close (p_conn peer)) (plaintext peer));
  '(client, p) ← reading client 64; chunk ← done p; equals chunk [].

Definition a_socket_that_ends_without_close_notify_is_a_truncation : TlsTest unit :=
  '(client, peer) ← pair_up; '(client, peer, _) ← handshaken client peer;
  w ← wire true; _ ← put_wire true (mkWire (w_out w) [] (write_cap w) (read_cap w) true);
  '(_, r) ← session (tls_read true tls_fuel 64) client;
  assert (if r is inl (Truncated _) then true else false).

Definition a_peer_that_vanishes_mid_handshake_is_a_truncation : TlsTest unit :=
  '(client, _) ← pair_up;
  _ ← put_wire true (mkWire [] [] None None true);
  '(_, r) ← session (Tls.handshake true tls_fuel) client;
  assert (if r is inl (Truncated _) then true else false).

Definition has_plaintext_tracks_whether_a_read_would_park : TlsTest unit :=
  '(client, peer) ← pair_up; '(client, peer, _) ← handshaken client peer;
  _ ← assert (negb (has_plaintext client));
  _ ← pump (peer_writes peer (as_bytes "ready"));
  _ ← assert (negb (has_plaintext client));
  '(client, p) ← reading client 2; _ ← done p;
  assert (has_plaintext client).

Definition an_unusable_host_name_is_rejected_before_any_io : TlsTest unit :=
  assert (if client_session default_client_config "not a host name" is inl (Hostname _) then true else false).

Definition extra_roots_are_added_to_the_bundle_rather_than_replacing_it : TlsTest unit :=
  match root_store "", root_store CA_PEM with
  | inr bundled, inr extended => equals (length extended) (length bundled + 1)%nat
  | _, _ => failed
  end.

(** ** The tests of a server *)

(** [Duplex::relay] *)
Definition relay : TlsTest unit := λ d,
  let (c, s) := (client_wire d, server_wire d) in
  Some (mkDuplex (mkWire [] (inbox c ++ w_out s) (write_cap c) (read_cap c) (eof c))
          (mkWire [] (inbox s ++ w_out c) (write_cap s) (read_cap s) (eof s)), tt).

Definition serve : TlsError + Toy :=
  match server_config LEAF_PEM KEY_PEM with inl e => inl e | inr config => server_session config end.

Definition sessions : TlsTest (Toy * Toy) :=
  match connect, serve with inr c, inr s => mret (c, s) | _, _ => failed end.

(** Drive both ends, relaying between turns. *)
Fixpoint handshake_both (fuel : nat) (client server : Toy) (client_done server_done : bool) : TlsTest (Toy * Toy) :=
  match fuel with
  | O => failed
  | S fuel' =>
      '(client, client_done) ←
        (if client_done then mret (client, true)
         else '(c, p) ← ok_session (Tls.handshake true tls_fuel) client; mret (c, if p is Finished _ then true else false));
      '(server, server_done) ←
        (if server_done then mret (server, true)
         else '(s, p) ← ok_session (Tls.handshake false tls_fuel) server; mret (s, if p is Finished _ then true else false));
      _ ← relay;
      if client_done && server_done then mret (client, server)
      else handshake_both fuel' client server client_done server_done
  end.

Definition our_own_client_and_server_sessions_complete_a_handshake : TlsTest unit :=
  '(client, server) ← sessions; _ ← handshake_both 64 client server false false; mret tt.

Definition plaintext_flows_both_ways_between_our_two_sessions : TlsTest unit :=
  '(client, server) ← sessions; '(client, server) ← handshake_both 64 client server false false;
  '(client, p) ← writing client (as_bytes "GET / HTTP/1.1"); n ← done p; _ ← equals n 14%nat;
  _ ← relay;
  '(server, p) ← ok_session (tls_read false tls_fuel 64) server; got ← done p; _ ← equals got (as_bytes "GET / HTTP/1.1");
  '(server, p) ← ok_session (tls_write false tls_fuel (as_bytes "HTTP/1.1 200 OK")) server; n ← done p; _ ← equals n 15%nat;
  _ ← relay;
  '(client, p) ← reading client 64; got ← done p; equals got (as_bytes "HTTP/1.1 200 OK").

(** Turns until the client refuses; the verdict of the server is ignored. *)
Fixpoint refused (fuel : nat) (client server : Toy) : TlsTest unit :=
  match fuel with
  | O => failed
  | S fuel' =>
      '(client, r) ← session (Tls.handshake true tls_fuel) client;
      match r with
      | inl (Protocol _) => mret tt
      | inl _ => failed
      | inr _ => '(server, _) ← session (Tls.handshake false tls_fuel) server; _ ← relay; refused fuel' client server
      end
  end.

Definition a_client_that_does_not_trust_the_server_refuses_the_handshake : TlsTest unit :=
  match client_session default_client_config "localhost", serve with
  | inr client, inr server => refused 64 client server
  | _, _ => failed
  end.

Definition a_server_identity_must_be_a_usable_certificate_and_key : TlsTest unit :=
  _ ← assert (if server_config ("# no PEM block here" ++ lf) KEY_PEM is inl (Identity _) then true else false);
  _ ← assert (if server_config LEAF_PEM ("# no key either" ++ lf) is inl (Identity _) then true else false);
  assert (if server_config LEAF_PEM "stranger" is inl (Protocol _) then true else false).

Definition unusable_trust_roots_are_rejected_rather_than_ignored : TlsTest unit :=
  _ ← assert (if client_config ("-----BEGIN CERTIFICATE-----" ++ lf ++ "not base64" ++ lf) is inl (Roots _) then true else false);
  assert (if client_config ("# a comment, and no PEM block at all" ++ lf) is inl (Roots _) then true else false).

(** Every test passes, the long payload cut to 3000 bytes. *)
Theorem tls_tests_pass :
  Forall (λ t, is_Some ((t : TlsTest unit) fresh_wires))
    [a_handshake_survives_a_transport_that_moves_one_byte_at_a_time;
     a_read_reassembles_plaintext_delivered_a_byte_at_a_time;
     a_blocked_write_retried_with_the_same_plaintext_sends_it_once 3000; feeding_the_same_plaintext_twice_double_sends;
     a_blocked_close_retried_sends_one_close_notify; a_close_notify_reads_as_eof;
     a_socket_that_ends_without_close_notify_is_a_truncation; a_peer_that_vanishes_mid_handshake_is_a_truncation;
     has_plaintext_tracks_whether_a_read_would_park; an_unusable_host_name_is_rejected_before_any_io;
     extra_roots_are_added_to_the_bundle_rather_than_replacing_it;
     our_own_client_and_server_sessions_complete_a_handshake; plaintext_flows_both_ways_between_our_two_sessions;
     a_client_that_does_not_trust_the_server_refuses_the_handshake;
     a_server_identity_must_be_a_usable_certificate_and_key; unusable_trust_roots_are_rejected_rather_than_ignored].
Proof. repeat constructor; vm_compute; eexists; reflexivity. Qed.
