(* ===== verification/DeepCalls.v ===== *)
(** * Deep and runaway recursion

    The two tests of [interp/mod.rs] whose programs run to depths that no evaluation
    reaches, proved: a recursion of any depth below [MAX_CALL_DEPTH] returns, whatever the
    Rust stack holds, and from that depth on it traps. *)

From Stdlib Require Import ZArith Lia.
From stdpp Require Import base numbers list strings gmap pretty.
From S2P Require Import Prelude Bytes Float64 Instr ModuleTable Builder Value Heap Trap Scheduler Interp Driver.
From S2P Require Import MainRuns.

Open Scope Z_scope.

Lemma MAX_CALL_DEPTH_small n : (n < MAX_CALL_DEPTH)%nat → Z.of_nat n < 2 ^ 63.
Proof. unfold MAX_CALL_DEPTH. lia. Qed.

#[local] Opaque MAX_CALL_DEPTH.

(** [fn f() { f(); }] *)
Definition runaway : Function := Function_new "test" 0 0 [Call 0 0; Return].

(** [countdown(n) = if n == 0 { 0 } else { countdown(n - 1) }] *)
Definition countdown : Function :=
  Function_new "countdown" 1 1
    [Load 0; ConstInt 0; EqI64; JumpIfFalse 6; ConstInt 0; Return; Load 0; ConstInt 1; SubI64; Call 0 1; Return].

Section deep.
Context `{Sizes} {Job Payload Ext : Type}.
Variables (fs : f64 → string) (vd : Value → string).
Variable natives : list (Native (Job := Job) (Payload := Payload) (Ext := Ext)).
Variables (w : World (Job := Job) (Payload := Payload) (Ext := Ext)) (depth : nat).
Hypothesis Hcalm : should_collect (w_mem w) = false.

#[local] Abbreviation run_loop := (run_loop fs vd natives).

Lemma enter_call_deep module (l : Loop (Job := Job) (Payload := Payload) (Ext := Ext)) callee :
  (MAX_CALL_DEPTH ≤ length (l_frames l))%nat → enter_call l module callee = Err StackOverflow.
Proof. intros Hd. unfold enter_call. by rewrite (proj2 (Nat.leb_le _ _) Hd). Qed.

Lemma enter_call_room module (l : Loop (Job := Job) (Payload := Payload) (Ext := Ext)) callee :
  (length (l_frames l) < MAX_CALL_DEPTH)%nat → is_Some (functions module !! func callee) →
  enter_call l module callee =
    Ok (Continue (mkLoop callee (l_vstack l) (push (l_frames l) (l_frame l)) (l_world l))).
Proof. intros Hd [f Hf]. unfold enter_call. by rewrite (proj2 (Nat.leb_gt _ _) Hd), Hf. Qed.

Lemma runaway_loop n k : ∀ frames, (length frames + n = MAX_CALL_DEPTH)%nat →
  run_loop (S n + k) (Module_new [runaway]) depth (mkLoop (mkFrame 0 0 0) [] frames w) = Err StackOverflow.
Proof.
  assert (∀ fb frames, step natives fb (Module_new [runaway]) depth (mkLoop (mkFrame 0 0 0) [] frames w) =
    enter_call (mkLoop (mkFrame 0 1 0) [] frames w) (Module_new [runaway]) (mkFrame 0 0 0)) as Hstep.
  { intros fb frames. unfold step, step_call, poll_gc, l_mem. cbn. by rewrite Hcalm. }
  induction n as [|n IH]; intros frames Hn; cbn [Nat.add Interp.run_loop]; rewrite Hstep.
  - by rewrite enter_call_deep by (cbn; lia).
  - rewrite enter_call_room; [|cbn; lia|by eexists]. cbn [mbind res_bind l_vstack l_frames l_frame l_world].
    apply IH. unfold push. rewrite length_app. cbn. lia.
Qed.

(** ** Counting down *)

#[local] Abbreviation M := (Module_new [countdown]).
#[local] Abbreviation at_pc p b S fr := (mkLoop (mkFrame 0 p b) S fr w).

(** A frame that started at the height of [vs] returns [v]. *)
Definition returning (vs : list Value) (v : Value) (fr : list Frame) : res Trap (Flow (Job := Job) (Payload := Payload) (Ext := Ext)) :=
  if Nat.eqb (length fr) depth then Ok (Exit (RDone v) (mkVm fr vs w))
  else
    '(frames, frame) ← or_panic (vec_pop fr);
    _ ← or_panic (functions M !! func frame);
    Ok (Continue (mkLoop frame (push vs v) frames w)).

Definition go_on (k : nat) (flow : res Trap (Flow (Job := Job) (Payload := Payload) (Ext := Ext))) :=
  flow ← flow; match flow with Continue l => run_loop k M depth l | Exit o vm => Ok (o, vm) end.

Lemma return_value p vs x v fr :
  step_return M depth (at_pc p (length vs) ((vs ++ [x]) ++ [v]) fr) = returning vs v fr.
Proof.
  unfold step_return. cbn -[last length app truncate Nat.ltb].
  rewrite last_snoc, !length_app, (proj2 (Nat.ltb_lt _ _)) by (cbn; lia).
  unfold truncate. rewrite <-app_assoc, take_app_length. done.
Qed.

Lemma vec_pop_push {A} (S : list A) v : vec_pop (push S v) = Some (S, v).
Proof. apply vec_pop_snoc. Qed.

(** The instructions of [countdown], one at a time. *)
#[local] Ltac fetch Hp :=
  unfold step; change (functions M !! func (l_frame _)) with (Some countdown);
  cbn [or_panic mbind res_bind pc l_frame]; rewrite Hp; cbn [ok_or mbind res_bind].

Lemma step_load fb p b S fr v : code countdown !! p = Some (Load 0) → S !! b = Some v →
  step natives fb M depth (at_pc p b S fr) = Ok (Continue (at_pc (p + 1)%nat b (push S v) fr)).
Proof. intros Hp Hv. fetch Hp. cbn -[lookup]. by rewrite Nat.add_0_r, Hv. Qed.

Lemma step_const fb p b S fr n : code countdown !! p = Some (ConstInt n) →
  step natives fb M depth (at_pc p b S fr) = Ok (Continue (at_pc (p + 1)%nat b (push S (Int n)) fr)).
Proof. intros Hp. by fetch Hp. Qed.

Lemma step_eq fb p b S fr m n : code countdown !! p = Some EqI64 →
  step natives fb M depth (at_pc p b (push (push S (Int m)) (Int n)) fr) =
    Ok (Continue (at_pc (p + 1)%nat b (push S (Bool (m =? n))) fr)).
Proof.
  intros Hp. fetch Hp. cbn -[push vec_pop]. unfold cmp_int, pop_two_int, pop_int, pop. rewrite vec_pop_push. cbn -[push vec_pop]. by rewrite vec_pop_push.
Qed.

Lemma step_sub fb p b S fr m n : code countdown !! p = Some SubI64 →
  step natives fb M depth (at_pc p b (push (push S (Int m)) (Int n)) fr) =
    Ok (Continue (at_pc (p + 1)%nat b (push S (Int (wrapping_sub m n))) fr)).
Proof.
  intros Hp. fetch Hp. cbn -[push vec_pop]. unfold pop_two_int, pop_int, pop. rewrite vec_pop_push. cbn -[push vec_pop]. by rewrite vec_pop_push.
Qed.

Lemma step_branch fb p b S fr t : code countdown !! p = Some (JumpIfFalse 6) → (p < 6)%nat →
  step natives fb M depth (at_pc p b (push S (Bool t)) fr) =
    Ok (Continue (at_pc (if t then p + 1 else 6)%nat b S fr)).
Proof.
  intros Hp Hlt. fetch Hp. cbn -[push vec_pop]. unfold pop_bool, pop. rewrite vec_pop_push. cbn -[push vec_pop].
  destruct t; [done|]. do 6 (destruct p as [|p]; [done|]). lia.
Qed.

Lemma step_recurse fb p b S fr v : code countdown !! p = Some (Call 0 1) → (length fr < MAX_CALL_DEPTH)%nat →
  step natives fb M depth (at_pc p b (push S v) fr) =
    Ok (Continue (at_pc 0%nat (length S) (push S v) (push fr (mkFrame 0 (p + 1) b)))).
Proof.
  intros Hp Hd. fetch Hp. unfold step_call, poll_gc, l_mem. cbn -[length]. rewrite Hcalm. cbn -[length].
  unfold call_function, enter_frame. cbn -[length push checked_sub resize enter_call].
  unfold checked_sub. replace (length (push S v)) with (length S + 1)%nat by (unfold push; by rewrite length_app).
  rewrite (proj2 (Nat.leb_le _ _)), Nat.add_sub by lia.
  change ([countdown] !! Z.to_nat 0) with (Some countdown). cbn -[length push resize enter_call].
  change (negb (Z.of_nat (Z.to_nat 1) =? 1)) with false. change (Z.to_nat 1) with 1%nat. change (Z.to_nat 0) with 0%nat.
  cbn [mbind res_bind].
  rewrite enter_call_room; [|done|by eexists]. cbn -[length push resize]. do 3 f_equal.
  unfold resize, push. rewrite take_ge, length_app, Nat.sub_diag by (rewrite length_app; cbn; lia). by rewrite app_nil_r.
Qed.

Lemma step_leave fb p vs x v fr : code countdown !! p = Some Return →
  step natives fb M depth (at_pc p (length vs) (push (push vs x) v) fr) = returning vs v fr.
Proof. intros Hp. fetch Hp. apply return_value. Qed.

Lemma leave_loop k p vs x v fr : code countdown !! p = Some Return →
  run_loop (S k) M depth (at_pc p (length vs) (push (push vs x) v) fr) = go_on k (returning vs v fr).
Proof. intros Hp. cbn [Interp.run_loop]. by rewrite step_leave. Qed.

Lemma countdown_test k (n : Z) vs fr :
  run_loop (4 + k) M depth (at_pc 0%nat (length vs) (push vs (Int n)) fr) =
  run_loop k M depth (at_pc (if (n =? 0)%Z then 4 else 6)%nat (length vs) (push vs (Int n)) fr).
Proof.
  cbn [Nat.add]. assert (push vs (Int n) !! length vs = Some (Int n)) as Hn by by apply list_lookup_middle.
  erewrite run_loop_S by (by eapply step_load). erewrite run_loop_S by (by eapply step_const).
  erewrite run_loop_S by (by eapply step_eq). erewrite run_loop_S by (by eapply step_branch; [|cbn; lia]).
  by destruct (n =? 0).
Qed.

Lemma countdown_loop n : ∀ vs fr k, (depth ≤ length fr)%nat → (length fr + n < MAX_CALL_DEPTH)%nat → Z.of_nat n < 2 ^ 63 →
  run_loop (9 * n + 6 + k) M depth (at_pc 0%nat (length vs) (push vs (Int (Z.of_nat n))) fr) =
  go_on k (returning vs (Int 0) fr).
Proof.
  induction n as [|n IH]; intros vs fr k Hd Hn Hr.
  - change (9 * 0 + 6 + k)%nat with (4 + S (S k))%nat. rewrite countdown_test. cbn [Z.of_nat Z.eqb].
    erewrite run_loop_S by (by eapply step_const). by apply leave_loop.
  - replace (9 * S n + 6 + k)%nat with (4 + S (S (S (S (9 * n + 6 + S k)))))%nat by lia. rewrite countdown_test.
    rewrite (proj2 (Z.eqb_neq _ _)) by lia. set (m := Z.of_nat (S n)).
    assert (push vs (Int m) !! length vs = Some (Int m)) as Hm by by apply list_lookup_middle.
    erewrite run_loop_S by (by eapply step_load). erewrite run_loop_S by (by eapply step_const).
    erewrite run_loop_S by (by eapply step_sub). erewrite run_loop_S by (by eapply step_recurse; [|lia]).
    replace (wrapping_sub m 1) with (Z.of_nat n) by (unfold wrapping_sub; rewrite as_signed_id; unfold in_signed; lia).
    rewrite IH by (unfold push; rewrite ?length_app; cbn; lia).
    unfold returning at 1. rewrite (proj2 (Nat.eqb_neq _ _)) by (unfold push; rewrite length_app; cbn; lia).
    rewrite vec_pop_push.
    change (run_loop (S k) M depth (at_pc 10%nat (length vs) (push (push vs (Int m)) (Int 0)) fr) = go_on k (returning vs (Int 0) fr)).
    by apply leave_loop.
Qed.
End deep.

(** ** The tests *)

Section tests.
Context `{Sizes} {Job Payload Ext : Type}.
Variables (fs : f64 → string) (vd : Value → string).
Variable natives : list (Native (Job := Job) (Payload := Payload) (Ext := Ext)).
Variables (machine : Machine Job Payload Ext) (w : World (Job := Job) (Payload := Payload) (Ext := Ext)).
Hypothesis Hcalm : should_collect (w_mem w) = false.

(** A function that calls itself without end is trapped at [MAX_CALL_DEPTH] frames. *)
Theorem runaway_recursion_traps_stack_overflow fuel : (MAX_CALL_DEPTH + 2 ≤ fuel)%nat →
  run fs vd natives machine fuel (Module_new [runaway]) w 0 [] = Err StackOverflow.
Proof.
  intros Hf. replace fuel with (S (S MAX_CALL_DEPTH + (fuel - 2 - MAX_CALL_DEPTH))) by lia.
  unfold run, drive. change (push_frame _ _ 0%nat []) with (Ok (E := Trap) (@nil Value, mkFrame 0 0 0)).
  cbn [mbind res_bind drive_loop vm_frames vm_world]. by rewrite (runaway_loop fs vd natives).
Qed.

(** A recursion of any depth below [MAX_CALL_DEPTH] returns. *)
Theorem deep_recursion_does_not_overflow_the_host_stack n fuel :
  (n < MAX_CALL_DEPTH)%nat → (9 * n + 7 ≤ fuel)%nat →
  ∃ w', run fs vd natives machine fuel (Module_new [countdown]) w 0 [Int (Z.of_nat n)] = Ok (w', Int 0).
Proof.
  intros Hn Hf. replace fuel with (S (9 * n + 6 + (fuel - 7 - 9 * n))) by lia. unfold run, drive.
  change (push_frame _ _ 0%nat [?v]) with (Ok (E := Trap) (push [] v, mkFrame 0 0 0)).
  cbn [mbind res_bind drive_loop vm_frames vm_world].
  pose proof (countdown_loop fs vd natives (set_w_sched w Scheduler_main) 0 Hcalm n [] [] (fuel - 7 - 9 * n)) as Hl.
  cbn [length] in Hl. rewrite Hl; [|lia..|]; clear Hl.
  - eexists. reflexivity.
  - apply MAX_CALL_DEPTH_small. lia.
Qed.
End tests.
