(* ===== verification/Departures.v ===== *)
(** * Where the code departs from its documentation

    Runs that the comments of the source, or its treatment of like cases, rule out: panics
    where an error of the program is a trap, a division by zero that does not trap, an
    interval of the profiler that wraps. *)

From Stdlib Require Import ZArith Lia.
From stdpp Require Import base numbers list strings gmap pretty.
From S2P Require Import Prelude Bytes Float64 Instr ModuleTable NativesTable Codec CodecProofs Value Heap Trap Scheduler Interp Driver.
From S2P Require Import NativesBase NativesFiber System NativesFs NativesEnv NativesAll NativesSocket Main Pool Demo Profile Testing.

Open Scope Z_scope.

(** ** Programs that panic *)

(** [main] with the given instructions, on the small system of [Demo]. *)
Definition ends (code : list Instr) : res Trap (Thread * Value) :=
  run no_digits no_debug test_natives (runtime eager) test_fuel
    (Module_new [Function_new "main" 0 0 code]) fresh_thread 0%nat [].

Definition native (name : string) (argc : u8) : Instr := CallNative (default 0 (native_index name)) argc.

(** A virtual call reads its receiver unchecked: without one it panics, whatever the
    selector, where the other underflows of the operand stack are traps. *)
Theorem virtual_without_receiver_panics {Job Payload Ext} (natives : list (Native (Job := Job) (Payload := Payload) (Ext := Ext)))
    fallback module depth frame frames w sel f :
  functions module !! func frame = Some f → code f !! pc frame = Some (CallVirtual sel 0) →
  should_collect (w_mem w) = false →
  step natives fallback module depth (mkLoop frame [] frames w) = Panic.
Proof.
  intros Hf Hi Hc. unfold step. cbn. rewrite Hf. cbn. rewrite Hi. cbn.
  unfold step_call_virtual, poll_gc, l_mem. cbn -[should_collect]. by rewrite Hc.
Qed.

Lemma virtual_call_of_nothing : ends [CallVirtual "display" 0; Return] = Panic.
Proof. vm_compute. reflexivity. Qed.

(** A wait on a socket handle before any socket was opened: the driver polls a poller
    that was never made. *)
Lemma select_without_socket_panics :
  ends [ConstInt 7; ListNew 1; ConstInt (-1); native "select_park" 2; Return] = Panic.
Proof. vm_compute. reflexivity. Qed.

(** A channel that does not exist, and variables the environment cannot hold. *)
Lemma missing_channel_panics : ends [ConstInt 5; native "channel_close" 1; Return] = Panic.
Proof. vm_compute. reflexivity. Qed.

Lemma empty_variable_panics : ends [ConstStr ""; ConstStr "x"; native "env_set" 2; Return] = Panic.
Proof. vm_compute. reflexivity. Qed.

(** An entry the decoder let through and no function has. *)
Section entry.
Context `{Sizes} `{Layout} `{SystemTypes} {Ext : Type} `{!Process Ext} `{!Console Ext}.
Context `{!FileSystem} `{!Environment} `{!Launch}.
Variables (fs : f64 → string) (vd : Value → string) (od : Obj → string) (sd : string → string).
Variables (fmt_mib : usize → string) (natives : list (Native (Job := Job) (Payload := Payload) (Ext := Ext))).
Variable machine : Machine Job Payload Ext.

Theorem entry_unchecked_panics fuel w w' path module entry :
  in_world (on_os (read_module_from_file path)) w = (w', Ok module) →
  entry_index module = Some entry → functions module !! entry = None → path ≠ "--entry" →
  cmd_run fs vd od sd fmt_mib natives machine fuel w [path] = Panic.
Proof.
  intros Hr He Hf Hp. unfold cmd_run, split_entry. rewrite decide_False by done. rewrite Hr, He.
  destruct (in_world (set_program_args []) w'). cbn. by rewrite Hf.
Qed.
End entry.

Definition entry_past_the_functions : Module := set_entry_init (Module_new [Function_new "main" 0 0 [Return]]) (Some 7) None.

(** Such a file decodes. *)
Lemma entry_unchecked_decodes : ∃ bytes module,
  encode_module entry_past_the_functions = Ok bytes ∧ decode_module (H := layout64) bytes = Ok module ∧
  entry_index module = Some 7%nat ∧ functions module !! 7%nat = None.
Proof. eexists _, _. do 2 (split; [vm_compute; reflexivity|]). by vm_compute. Qed.

(** ** Division of doubles *)

(** The doc of [DivByZero] has floats too; [div.f64] gives a double for any two. *)
Theorem double_division_never_traps module m vs a b :
  step_double module m (push (push vs (Double a)) (Double b)) DivF64 = Ok (push vs (Double (f64_div a b))).
Proof.
  unfold step_double, pop_two_double, pop_double, pop, push. rewrite vec_pop_snoc. cbn -[vec_pop].
  by rewrite vec_pop_snoc.
Qed.

(** ** The interval of the profiler *)

(** With the longest interval the next sample wraps to the past: every instruction is
    sampled, where the doc has one in [INTERVAL]. *)
Definition longest : option string := Some "18446744073709551615".

Lemma longest_interval : INTERVAL longest = 2 ^ 64 - 1.
Proof. vm_compute. reflexivity. Qed.

Definition ticks (n : nat) : Counters := Nat.iter n (λ s, (on_instr longest s).1) thread_start.

Lemma ticks_due n : Z.of_nat n < 2 ^ 64 → INSTRS (ticks n) = Z.of_nat n ∧ NEXT_SAMPLE (ticks n) ≤ Z.of_nat n.
Proof.
  induction n as [|n IH]; intros Hn; [done|]. destruct IH as [Hi Hs]; [lia|].
  change (ticks (S n)) with (on_instr longest (ticks n)).1. unfold on_instr. rewrite longest_interval, Hi.
  replace (as_u64 (Z.of_nat n + 1)) with (Z.of_nat (S n)) by (unfold as_unsigned; rewrite Z.mod_small; lia).
  rewrite (proj2 (Z.leb_le _ _)) by lia. cbn [fst INSTRS NEXT_SAMPLE]. split; [done|].
  unfold as_unsigned. replace (Z.of_nat (S n) + (2 ^ 64 - 1)) with (Z.of_nat n + 1 * 2 ^ 64) by lia.
  rewrite Z.mod_add, Z.mod_small by lia. lia.
Qed.

Theorem longest_interval_samples_all n : Z.of_nat n + 1 < 2 ^ 64 → (on_instr longest (ticks n)).2 = true.
Proof.
  intros Hn. destruct (ticks_due n) as [Hi Hs]; [lia|]. unfold on_instr. rewrite Hi.
  replace (as_u64 (Z.of_nat n + 1)) with (Z.of_nat n + 1) by (unfold as_unsigned; rewrite Z.mod_small; lia).
  by rewrite (proj2 (Z.leb_le _ _)) by lia.
Qed.
